(* ===== verification/_CoqProject ===== *)
-Q . S2P
Prelude.v
Model.v
Planner.v
Validate.v
Shell.v
Retry.v
Serial.v
Path.v
Base64.v
Machine.v
Provider.v
Executor.v
ExecutorSpec.v
Queue.v
QueueInvariant.v
QueueSpec.v
GraphQuery.v
ExecutionLocks.v
LockedQueue.v
RunLease.v
Load.v
Expand.v
Workflow.v
WorkflowSpec.v
Scheduler.v
SchedulerSpec.v
Association.v
AssociationSpec.v
Approvals.v
EventLog.v
Tokens.v
Access.v
Canary.v
Rollout.v
Json.v
JsonDir.v
EncryptedVars.v
EncryptedVarsSpec.v
AlertInbox.v
EdgeRelay.v
Task.v
TaskExecution.v
Snapshot.v
RoleEnv.v
AgentPKI.v
Canonical.v
Rulebook.v
Query.v
Variables.v
