(* ===== verification/Prelude.v ===== *)
(** * Masterchef: a verification of its core

    Masterchef is a configuration-management control plane written in Go.  A
    YAML or JSON file declares hosts, resources and handlers.  It is loaded,
    composed, expanded and validated ([internal/config]), turned into an ordered
    plan ([internal/planner]) and applied step by step ([internal/executor],
    [internal/provider]).  A server queues applies as jobs, executed by one
    worker, under named locks and leases ([internal/control],
    [internal/server]).  This library models that path and proves it correct.

    ** Files

    - [Prelude]: errors ([result], [let?]), record update, 64-bit integers and
      time (nanoseconds; the zero time is 0), decimal numbers, the string
      functions of the standard library on ASCII, sorting, the loop that cleans
      a list of names, and the tactic [res_inv].
    - [Model] ([config/model.go]): [Host], [Resource], [Execution], [Config].
    - [Path]: [path/filepath].
    - [Load] ([config/load.go]): [loadComposedConfig] with its shared stack, and
      the merge of hosts, resources, handlers and settings.  The file system and
      the decoders are the class [ConfigSource].
    - [Expand] ([config/expand.go]): matrices, loops, conditions, templates, and
      [Load], the composition of loading, expansion and [Validate].
    - [Validate] ([config/validate.go]): the checks and the normal form.
    - [Planner] ([planner/plan.go]): [Build].
    - [Canonical] ([config/canonicalize.go], [config/doctor.go]): the canonical
      form, the commands [fmt] and [doctor] of [cli/cli.go].
    - [GraphQuery] ([planner/graph.go], [graph_query.go], [analysis.go],
      [snapshot.go]): questions about a plan, and the comparison of two;
      [Snapshot]: the comparison with a saved plan.
    - [Shell], [Retry], [Serial]: the pure parts of [executor/executor.go].
    - [Machine]: the interface of the world an apply runs on, with an in-memory
      instance; [Provider] ([provider/*.go]): the registry and built-in handlers.
    - [Executor] ([executor/executor.go]): [executeSingleStep], [executeStep],
      the Windows shim and [Apply], as functions on the abstract world;
      [ExecutorSpec]: their theorems.
    - [Queue] ([control/queue.go]): one definition per method, and the worker
      goroutine as a state machine; [QueueInvariant], [QueueSpec]: theorems.
    - [ExecutionLocks] ([control/execution_locks.go]) and [LockedQueue]
      ([server/execution_locks.go] and the queue subscriber of
      [server/server.go]): locks, and jobs submitted under one, a transition for
      each call that takes a mutex.
    - [RunLease] ([control/run_lease.go]): leases on running jobs.
    - [Workflow] ([control/workflow.go], the store of [control/templates.go]):
      runs of several jobs, driven by the events of the queue; [WorkflowSpec].
    - [Scheduler] ([control/scheduler.go], [maintenance.go]): schedules and their
      goroutines; [SchedulerSpec].  [Association] ([control/association.go]):
      schedules owned and replaced by associations, any number of calls at once
      and next to calls that switch schedules directly; [AssociationSpec].
    - [Approvals] ([control/access_approvals.go]): approval policies and
      break-glass requests.  [Tokens] ([control/delegation_tokens.go],
      [jit_grants.go]): tokens that grant access, over one store and the class
      [GrantKind].  [Access] ([control/rbac.go], [abac.go]): access decisions.
    - [EventLog] ([control/events.go]): the hash-chained log and its subscribers.
    - [Canary] ([control/canary.go]): health derived from the jobs of the queue.
    - [Rollout] ([control/rollout_controls.go], [tenant_limits.go],
      [disruption_budget.go], [scheduler_partition.go]): waves and admission.
    - [JsonDir]: a directory with one JSON file per item, which two stores use,
      and what reading it back gives; [Json]: JSON values, how they are merged,
      fields by path and their text.
    - [EncryptedVars] ([control/encrypted_vars.go]): variable files under a
      passphrase and their directory, with [Base64]; [EncryptedVarsSpec].
    - [RoleEnv] ([control/roleenv.go]): roles that inherit, environments, and
      their resolution.
    - [Task] ([control/task_framework.go]): tasks, plans, parameters and
      previews; [TaskExecution]: the goroutines of the executions.
    - [AgentPKI] ([control/agent_pki.go]): certificates of agents.
    - [AlertInbox] ([control/alert_inbox.go]): alerts by fingerprint.
    - [EdgeRelay] ([control/edge_relay.go]): messages that wait for sites.
    - [Rulebook] ([control/rulebook.go]): rules that events trigger.
    - [Query] ([server/query.go]): the query language of the server.
    - [Variables] ([control/variables.go]): layers of variables, merged with a
      record of sources and conflicts.

    ** What the theorems show

    - Planning (C1, C2), for ids without [->]: the plan contains every resource
      once, after all it depends on; [Build] fails exactly on cyclic dependencies.
    - Validation (C3): accepted configurations are well formed.
    - Quoting (C4): the output of [shellQuote], [wrapWithSudo] and
      [quotePowerShell] is read back exactly by its shell.
    - Timing (C5): the bounds of delays.
    - Executing (C6-C8): attempts of a step; fail fast; handlers.
    - The queue (C9-C11): its invariant under any interleaving of calls with the
      steps of the worker; no priority starves; the life of a job when no
      operator fails it.
    - Plan queries (C12): the traversal terminates and is reachability.
    - Locks and leases (C13-C15): mutual exclusion until expiry; what a submission
      under a lock does with anything between its calls, and that it holds the
      lock for its job as long as nobody releases it and it has not expired; the
      lease protocol.
    - Loading (C16, C17): termination and cycle detection; [Load] end to end (the
      plan for ids without [->]).
    - The canonical form (C18, C19): a complete invariant of the order of a
      configuration, with the same plan for ids without [->]; a formatted file is
      loaded as the canonical form and formatted to itself, where the decoders
      read what the encoders wrote and the name fits the format.
    - Workflows (C20): steps run in order, and a success is earned.
    - Scheduling (C21, C22): one live loop per enabled schedule and none for a
      disabled one; what holds a schedule back; associations and their schedules
      agree through every change and replay, in whether they are enabled unless
      the schedule was switched behind its association.
    - Access (C23, C25, C26): a break-glass activation needs the quorum of every
      stage; when a token is accepted, in terms of all the calls before; access
      decisions in every iteration order.
    - The event log (C24): tamper evidence of what is hashed, and until when the
      log verifies.
    - Canaries (C27): health is a function of the results, each job counts at most
      once, at most one live goroutine.  Rollouts (C28): waves partition the
      targets.
    - Encrypted variables (C29): the store and its directory refine a vault of
      plain data, for names that fit and as long as no write fails.
    - Alerts (C30): what an item says is a function of the history.  Relay
      (C31): at most one delivery, before expiry, and nothing lost, when the
      clock readings come in the order of the calls.
    - Tasks (C32-C34): what parameters resolve to; no answer shows a sensitive
      one; every execution ends, with the records of the steps it ran.
    - Roles (C35): resolution ends and is plain inheritance.
    - Certificates (C36, C37): what a certificate and a request go through;
      renewal replaces exactly what expires, in whatever order it is met, within
      a window of less than 90 days.
    - Rules (C38): how often a rule triggers, and when, under any interleaving.
    - Queries (C39): a line of one-word fields and values is read as what it says
      and selects what satisfies it.
    - Variables (C40): the merge, and an exact record of it for flat layers.

    Theorems that are not claims state more of the same components
    ([Build_declaration_order], [Validate_idempotent],
    [Validate_discharges_planner], [prepare_escalation],
    [serial_regroups_by_batches], [file_provider_converges],
    [single_step_outcome], [windows_shim_converges],
    [refresh_only_iff_triggered], [merged_layers], [matrixCombinations_product],
    [enqueue_outcome], [DiffPlans_exact], [QueryGraph_follows_plan],
    [snapshot_comparison], [Query_spec], [append_safe_without_unsubscribe],
    [admission_exact], [disruption_exact], [partition_matches],
    [role_environments_persist], [rule_evaluation], [failed_bind_undone],
    [submission_returns], [association_calls_return]) or show defects of the code
    on concrete runs: [Build_arrow_ids_lose_edge],
    [exponential_delay_overflows], [serial_breaks_dependency],
    [executeStep_retries_overflow], [FailJob_pending_breaks_drain],
    [stale_job_releases_other_lock], [resubmission_leaks_lock],
    [early_end_leaks_lock], [bind_takes_other_lock],
    [failed_bind_releases_other_lock], [endpoint_disagrees],
    [former_schedule_revived], [failed_rotation_rotates],
    [lease_taken_over], [colliding_matrix_names], [early_end_loses_run],
    [shutdown_schedules_stay_enabled], [distant_schedule_spins],
    [append_panics], [subscriber_sees_reordered], [granted_scope_refused],
    [tokens_never_expire], [tied_policies_undetermined],
    [early_failure_not_counted], [cancelled_job_leaks_reference],
    [max_unavailable_ignored], [admission_overflow],
    [partition_not_deterministic], [unwritable_name_blocks],
    [manifest_name_lost], [rotation_trims_passphrases], [imported_nonce_panics],
    [suppressed_alert_default_route], [fingerprints_collide],
    [payload_is_dropped], [sites_stay_connected], [expired_messages_fill_queue],
    [delivery_not_in_order], [long_ttl_expires], [cancelled_execution_succeeds],
    [sensitive_default_shown], [uint_wraps], [failed_upsert_stays],
    [role_overwrites_environment], [precedence_misstated],
    [rotation_needs_no_certificate], [renewal_depends_on_order],
    [doctor_never_blocks], [removal_renumbers], [bad_pattern_stops_rules],
    [disabled_rule_enabled], [quotes_do_not_protect], [operator_in_value],
    [million_not_equal], [nested_repeat_conflicts], [shared_value_follows].

    ** Conventions and bounds

    Clock readings are arguments, one per call (and one per certificate that a
    renewal issues); a method that runs under a mutex is one transition, one that
    takes several mutexes in turn is a transition for each.  Strings are ASCII: [ToLower] and [TrimSpace] of other
    characters are not modelled.  Counters that only grow ([nextID]) do not wrap;
    the theorems that need it assume they are below the largest int64.  Fuel
    appears where recursion is not structural, and is always shown to be enough:
    Kahn's loop takes the number of resources, the traversal one unit per node
    plus one ([traverse_loop_spec]), composition more than the number of
    readable files ([load_spec]), template replacement the length of the string.
    The iteration order of a Go map is that of [map_to_list]; results that are
    sorted afterwards do not depend on it, and where the order matters the
    operation takes the entries as a list ([combinations_of]) or an order as an
    argument ([map_order]).  A loop that adds to the map it ranges over takes the
    keys it meets as an argument ([fair_visits]).

    ** Not modelled

    Input and output (state files, HTTP, gRPC, most of the command line), the
    processes themselves, JSON, YAML and cryptography, which are parameters; the
    many stores of [internal/control] around this core (identity, compliance,
    packages, other registries), which keep records with little logic of their
    own, and decisions computed with floating-point numbers: see the manifest
    for the list. *)

From stdpp Require Export base gmap sets list strings sorting.
From Stdlib Require Export ZArith Lia.
From Stdlib Require Ascii String.
Export (notations) Stdlib.Strings.Ascii.
Abbreviation ascii := Ascii.ascii.

#[global] Set Default Goal Selector "!".

Declare Scope go_scope.
Delimit Scope go_scope with go.
Open Scope Z_scope.
Open Scope go_scope.

(** ** Errors

    [func(...) (T, error)]: either a value or an error. *)

Inductive result (E A : Type) : Type :=
  | Ok (a : A)
  | Err (e : E).
Arguments Ok {E A} a.
Arguments Err {E A} e.

Definition bind {E A B} (m : result E A) (k : A → result E B) : result E B :=
  match m with
  | Ok a => k a
  | Err e => Err e
  end.

Notation "'let?' x ':=' e 'in' k" := (bind e (fun x => k))
  (at level 10, x pattern, e at level 100, k at level 200) : go_scope.

Definition is_Ok {E A} (m : result E A) : bool :=
  match m with Ok _ => true | Err _ => false end.

(** [if bad { return err }] followed by the rest of the function. *)
Definition fail_if {E} (bad : bool) (e : E) : result E unit :=
  if bad then Err e else Ok tt.

(** A loop over a slice whose body returns early with an error. *)
Fixpoint mapM_res {E A B} (f : A → result E B) (l : list A) : result E (list B) :=
  match l with
  | [] => Ok []
  | x :: l' => let? y := f x in let? ys := mapM_res f l' in Ok (y :: ys)
  end.

Fixpoint foldM_res {E A S} (f : S → A → result E S) (s : S) (l : list A) : result E S :=
  match l with
  | [] => Ok s
  | x :: l' => let? s' := f s x in foldM_res f s' l'
  end.

Lemma bind_Ok {E A B} (m : result E A) (k : A → result E B) b :
  bind m k = Ok b ↔ ∃ a, m = Ok a ∧ k a = Ok b.
Proof. destruct m; simpl; [|split; [done|by intros (? & [=] & ?)]]. split; [eauto|]. by intros (? & [= ->] & ?). Qed.

Lemma fail_if_Ok {E A} (bad : bool) (e : E) (k : unit → result E A) b :
  bind (fail_if bad e) k = Ok b ↔ bad = false ∧ k tt = Ok b.
Proof. destruct bad; simpl; naive_solver. Qed.
Lemma fail_if_false {E A} (bad : bool) (e : E) (k : unit → result E A) :
  bad = false → bind (fail_if bad e) k = k tt.
Proof. by intros ->. Qed.

Lemma mapM_res_Ok {E A B} (f : A → result E B) l ys :
  mapM_res f l = Ok ys ↔ Forall2 (λ x y, f x = Ok y) l ys.
Proof.
  revert ys; induction l as [|x l IH]; intros ys; simpl.
  - split; [intros [= <-]; constructor | by inversion 1].
  - rewrite bind_Ok. setoid_rewrite bind_Ok. setoid_rewrite IH. split.
    + intros (y & Hy & ys' & Hys & [= <-]). by constructor.
    + inversion 1 as [|? y ? ys' Hy Hys]; subst. eauto 10.
Qed.

(** ** Record update

    [r <| f := v |>] is the record [r] with the field [f] set to [v]: the Go
    assignment [r.f = v] on a copy.  A record type gives its eta expansion as
    an instance of [Eta]; the setter of a projection is computed from it. *)

Class Eta (R : Type) := eta : R → R.
Class Updatable {R T : Type} (proj : R → T) := update_field : (T → T) → R → R.

Ltac field_setter proj :=
  match type of proj with
  | ?R → ?T =>
      let i := constr:(ltac:(typeclasses eauto) : Eta R) in
      let e := eval hnf in i in
      match eval pattern proj in e with
      | ?setter _ => exact (λ (g : T → T) (r : R), setter (λ r' : R, g (proj r')) r)
      end
  end.

#[export] Hint Extern 1 (Updatable ?proj) => field_setter proj : typeclass_instances.

Notation "r <| f := v |>" := (update_field (proj := f) (λ _, v) r)
  (at level 1, f at level 9, v at level 200, left associativity) : go_scope.

Arguments update_field {R T} proj Updatable /.

(** ** Machine integers and time

    Go's [int] and [time.Duration] are 64-bit two's complement.  A
    [time.Time] is the number of nanoseconds since the zero time
    (0001-01-01T00:00:00Z), so that [Time.IsZero] is equality with 0. *)

Definition min_int64 : Z := - 2 ^ 63.
Definition max_int64 : Z := 2 ^ 63 - 1.
Definition wrap64 (z : Z) : Z := (z + 2 ^ 63) mod 2 ^ 64 - 2 ^ 63.
Definition int64 (z : Z) : Prop := min_int64 ≤ z ≤ max_int64.

Abbreviation Time := Z (only parsing).
Abbreviation Duration := Z (only parsing).

Definition IsZero (t : Time) : bool := t =? 0.
Definition Before (t u : Time) : bool := t <? u.
Definition After (t u : Time) : bool := u <? t.
Definition Add (t : Time) (d : Duration) : Time := t + d.
(** [Time.Sub] saturates at the bounds of [Duration]. *)
Definition Sub (t u : Time) : Duration := Z.max min_int64 (Z.min max_int64 (t - u)).

Definition Second : Duration := 1000000000.
(** [time.Duration(n) * time.Second] *)
Definition seconds (n : Z) : Duration := wrap64 (n * Second).

(** [Time.Format] with the layouts the code uses; the text of a time is only
    stored and shown. *)
Class TimeFormat := {
  FormatCompact : Time → string;        (* "20060102T150405" *)
  FormatRFC3339 : Time → string;
}.

Lemma wrap64_small z : int64 z → wrap64 z = z.
Proof. unfold int64, min_int64, max_int64, wrap64. intros. rewrite Z.mod_small; lia. Qed.

Lemma wrap64_int64 z : int64 (wrap64 z).
Proof.
  unfold int64, min_int64, max_int64, wrap64.
  pose proof (Z.mod_pos_bound (z + 2 ^ 63) (2 ^ 64)). lia.
Qed.

Lemma seconds_small n : 0 ≤ n ≤ 9223372036 → seconds n = n * Second.
Proof. unfold seconds, Second. intros. apply wrap64_small. unfold int64, min_int64, max_int64. lia. Qed.

(** [itoa] of queue.go: the digits of [n] written from the end of a buffer of
    20 bytes (hence the fuel), [""] for a negative [n]. *)
Definition digit (n : Z) : ascii := Ascii.ascii_of_nat (48 + Z.to_nat (n mod 10)).

Fixpoint itoa_loop (fuel : nat) (n : Z) (acc : string) : string :=
  match fuel with
  | O => acc
  | S fuel => if 0 <? n then itoa_loop fuel (n / 10) (String (digit n) acc) else acc
  end.

Definition itoa (n : Z) : string := if n =? 0 then "0" else itoa_loop 20 n "".

(** [strconv.Itoa] *)
Definition Itoa (n : Z) : string :=
  if n <? 0 then String "-"%char (itoa (- n)) else itoa n.

Definition digit_val (c : ascii) : Z := Z.of_nat (Ascii.nat_of_ascii c) - 48.

Fixpoint atoi_acc (s : string) (acc : Z) : Z :=
  match s with
  | EmptyString => acc
  | String c s => atoi_acc s (acc * 10 + digit_val c)
  end.
Definition atoi (s : string) : Z := atoi_acc s 0.

Lemma digit_val_digit n : digit_val (digit n) = n mod 10.
Proof.
  unfold digit_val, digit. pose proof (Z.mod_pos_bound n 10 ltac:(lia)).
  rewrite Ascii.nat_ascii_embedding; lia.
Qed.

Lemma atoi_itoa_loop fuel n acc :
  0 ≤ n < 10 ^ Z.of_nat fuel → ∀ k, atoi_acc (itoa_loop fuel n acc) k = atoi_acc acc (k * 10 ^ Z.of_nat (String.length (itoa_loop fuel n acc) - String.length acc) + n) ∧ (String.length acc ≤ String.length (itoa_loop fuel n acc))%nat.
Proof.
  revert n acc; induction fuel as [|fuel IH]; intros n acc Hn k; simpl.
  - rewrite Nat.sub_diag. split; [f_equal|]; lia.
  - destruct (Z.ltb_spec 0 n) as [Hpos|]; cycle 1.
    { rewrite Nat.sub_diag. split; [f_equal|]; lia. }
    rewrite Nat2Z.inj_succ, Z.pow_succ_r in Hn by lia.
    destruct (IH (n / 10) (String (digit n) acc)) with (k := k) as [IH1 IH2].
    { split; [apply Z.div_pos; lia|]. apply Z.div_lt_upper_bound; lia. }
    rewrite IH1. simpl in *. rewrite digit_val_digit. split; [f_equal|lia].
    set (l := String.length _) in *.
    replace (Z.of_nat (l - String.length acc)) with (Z.succ (Z.of_nat (l - S (String.length acc)))) by lia.
    rewrite Z.pow_succ_r by lia. pose proof (Z.div_mod n 10 ltac:(lia)). lia.
Qed.

Lemma atoi_itoa n : 0 ≤ n ≤ max_int64 → atoi (itoa n) = n.
Proof.
  intros Hn. unfold itoa, atoi. destruct (Z.eqb_spec n 0) as [->|]; [done|].
  destruct (atoi_itoa_loop 20 n "") with (k := 0) as [-> _]; [|simpl; lia].
  unfold max_int64 in Hn. simpl; lia.
Qed.

Lemma itoa_inj n m : 0 ≤ n ≤ max_int64 → 0 ≤ m ≤ max_int64 → itoa n = itoa m → n = m.
Proof. intros Hn Hm Heq. rewrite <-(atoi_itoa n), <-(atoi_itoa m) by done. by rewrite Heq. Qed.

(** ** Go strings

    A Go string is a byte string; the text the model covers is ASCII, where
    runes are bytes and [unicode.IsSpace], [unicode.ToLower] are the functions
    below. *)

Fixpoint string_map (f : ascii → ascii) (s : string) : string :=
  match s with
  | EmptyString => EmptyString
  | String c s => String (f c) (string_map f s)
  end.

Definition code (c : ascii) : nat := Ascii.nat_of_ascii c.
Definition in_range (lo hi : ascii) (c : ascii) : bool :=
  (Nat.leb (code lo) (code c) && Nat.leb (code c) (code hi))%bool.

Definition lower (c : ascii) : ascii :=
  if in_range "A" "Z" c then Ascii.ascii_of_nat (code c + 32) else c.

Definition ToLower : string → string := string_map lower.

Fixpoint trim_left (s : string) : string :=
  match s with
  | EmptyString => EmptyString
  | String c s' => if Ascii.is_space c then trim_left s' else s
  end.

Fixpoint trim_right (s : string) : string :=
  match s with
  | EmptyString => EmptyString
  | String c s' =>
      match trim_right s' with
      | EmptyString => if Ascii.is_space c then EmptyString else String c EmptyString
      | r => String c r
      end
  end.

Definition TrimSpace (s : string) : string := trim_right (trim_left s).

(** [strings.ToLower(strings.TrimSpace(s))], the normal form of most keys. *)
Definition norm (s : string) : string := ToLower (TrimSpace s).

Definition HasPrefix (s pre : string) : bool := String.prefix pre s.

(** [strings.HasSuffix] *)
Fixpoint HasSuffix (s suf : string) : bool :=
  bool_decide (s = suf) || match s with EmptyString => false | String _ s' => HasSuffix s' suf end.

Fixpoint Contains (s sub : string) : bool :=
  String.prefix sub s ||
  match s with
  | EmptyString => false
  | String _ s' => Contains s' sub
  end.

Fixpoint drop_str (n : nat) (s : string) : string :=
  match n, s with
  | S n, String _ s => drop_str n s
  | _, _ => s
  end.

Definition TrimPrefix (s pre : string) : string :=
  if HasPrefix s pre then drop_str (String.length pre) s else s.

(** [strings.SplitN(s, sep, 2)] for a separator that occurs in [s]. *)
Fixpoint Cut (s sep : string) : option (string * string) :=
  if String.prefix sep s then Some (EmptyString, drop_str (String.length sep) s)
  else match s with
       | EmptyString => None
       | String c s' =>
           match Cut s' sep with
           | Some (a, b) => Some (String c a, b)
           | None => None
           end
       end.

Definition EqualFold (a b : string) : bool := bool_decide (ToLower a = ToLower b).

Fixpoint Join (l : list string) (sep : string) : string :=
  match l with
  | [] => ""
  | [x] => x
  | x :: l' => x +:+ sep +:+ Join l' sep
  end.

(** [strings.ReplaceAll(s, "c", r)] for a one-byte pattern. *)
Fixpoint replace_char (c : ascii) (r : string) (s : string) : string :=
  match s with
  | EmptyString => EmptyString
  | String d s' =>
      if bool_decide (d = c) then r +:+ replace_char c r s' else String d (replace_char c r s')
  end.

Definition dquote : ascii := "034"%char.
Definition squote : ascii := "'"%char.
Definition newline : string := String "010" EmptyString.

(** The one-character strings around quoted text. *)
Definition sq : string := String squote EmptyString.
Definition dq : string := String dquote EmptyString.

(** [%q] of [fmt], for a string without characters to escape. *)
Definition Quote (s : string) : string := dq +:+ s +:+ dq.

(** The class [\s] of [regexp], and [\s*] at the start of a string. *)
Definition pattern_space (c : ascii) : bool :=
  bool_decide (code c ∈ [9; 10; 12; 13; 32]%nat).
Fixpoint skip_spaces (s : string) : string :=
  match s with
  | String c s' => if pattern_space c then skip_spaces s' else s
  | EmptyString => s
  end.

Definition eqs (a b : string) : bool := bool_decide (a = b).

Lemma eqs_true a b : eqs a b = true ↔ a = b.
Proof. apply bool_decide_eq_true. Qed.
Lemma eqs_false a b : eqs a b = false ↔ a ≠ b.
Proof. apply bool_decide_eq_false. Qed.
Lemma eqs_refl a : eqs a a = true.
Proof. by apply eqs_true. Qed.

Lemma append_cons c s t : String c s +:+ t = String c (s +:+ t).
Proof. done. Qed.
Lemma append_nil s : "" +:+ s = s.
Proof. done. Qed.
Lemma append_nil_r s : s +:+ "" = s.
Proof. induction s as [|c s IH]; [done|]. by rewrite append_cons, IH. Qed.
Lemma append_assoc s t u : (s +:+ t) +:+ u = s +:+ (t +:+ u).
Proof. induction s as [|c s IH]; [done|]. by rewrite !append_cons, IH. Qed.
Lemma length_append s t : String.length (s +:+ t) = (String.length s + String.length t)%nat.
Proof. induction s as [|c s IH]; [done|]. rewrite append_cons. simpl. by rewrite IH. Qed.

Lemma HasPrefix_true s pre : HasPrefix s pre = true ↔ ∃ rest, s = pre +:+ rest.
Proof.
  unfold HasPrefix. revert s; induction pre as [|c pre IH]; intros s; simpl.
  - destruct s; naive_solver.
  - destruct s as [|d s]; simpl; [naive_solver|]. destruct (Ascii.ascii_dec c d) as [->|Hne].
    + rewrite IH. split; intros [rest Hr]; exists rest; [by rewrite Hr|by injection Hr].
    + split; [done|]. intros [rest [=]]. by destruct Hne.
Qed.

Lemma lower_is_space c : Ascii.is_space (lower c) = Ascii.is_space c.
Proof. by destruct c as [[][][][][][][][]]. Qed.
Lemma lower_idemp c : lower (lower c) = lower c.
Proof. by destruct c as [[][][][][][][][]]. Qed.

Lemma ToLower_idemp s : ToLower (ToLower s) = ToLower s.
Proof. unfold ToLower. induction s as [|c s IH]; simpl; [done|]. by rewrite lower_idemp, IH. Qed.

Lemma trim_left_lower s : trim_left (ToLower s) = ToLower (trim_left s).
Proof.
  unfold ToLower. induction s as [|c s IH]; simpl; [done|].
  rewrite lower_is_space. by destruct (Ascii.is_space c).
Qed.
Lemma trim_right_lower s : trim_right (ToLower s) = ToLower (trim_right s).
Proof.
  unfold ToLower. induction s as [|c s IH]; simpl; [done|]. rewrite IH, lower_is_space.
  destruct (trim_right s); simpl; [|done]. by destruct (Ascii.is_space c).
Qed.
Lemma TrimSpace_lower s : TrimSpace (ToLower s) = ToLower (TrimSpace s).
Proof. unfold TrimSpace. by rewrite trim_left_lower, trim_right_lower. Qed.

Lemma trim_left_idemp s : trim_left (trim_left s) = trim_left s.
Proof.
  induction s as [|c s IH]; simpl; [done|].
  destruct (Ascii.is_space c) eqn:Hc; [done|]. simpl. by rewrite Hc.
Qed.
Lemma trim_right_idemp s : trim_right (trim_right s) = trim_right s.
Proof.
  induction s as [|c s IH]; simpl; [done|].
  destruct (trim_right s) as [|d t] eqn:Ht.
  - destruct (Ascii.is_space c) eqn:Hc; [done|]. simpl. by rewrite Hc.
  - cbn [trim_right]. cbn [trim_right] in IH. by rewrite IH.
Qed.

Lemma trim_left_app s t : s ≠ "" → trim_left s = s → trim_left (s +:+ t) = s +:+ t.
Proof.
  destruct s as [|c s]; [done|]. intros _. rewrite append_cons. simpl. destruct (Ascii.is_space c); [|done].
  intros Heq. exfalso. assert (String.length (trim_left s) ≤ String.length s)%nat as Hl.
  { clear. induction s as [|d s IH]; simpl; [done|]. destruct (Ascii.is_space d); simpl; lia. }
  rewrite Heq in Hl. simpl in Hl. lia.
Qed.

Lemma trim_right_app s t : t ≠ "" → trim_right t = t → trim_right (s +:+ t) = s +:+ t.
Proof.
  intros Ht Hr. induction s as [|c s IH]; [by rewrite append_nil|]. rewrite append_cons. simpl. rewrite IH.
  destruct s; [rewrite append_nil|done]. by destruct t.
Qed.
Lemma trim_left_right s : trim_left s = s → trim_left (trim_right s) = trim_right s.
Proof.
  destruct s as [|c s]; [done|]. simpl. destruct (Ascii.is_space c) eqn:Hc.
  - intros H. exfalso. assert (∀ t, (String.length (trim_left t) ≤ String.length t)%nat) as Hl.
    { induction t as [|d t IH]; simpl; [done|]. destruct (Ascii.is_space d); simpl; lia. }
    specialize (Hl s). rewrite H in Hl. simpl in Hl. lia.
  - intros _. destruct (trim_right s); simpl; by rewrite Hc.
Qed.
Lemma TrimSpace_idemp s : TrimSpace (TrimSpace s) = TrimSpace s.
Proof.
  unfold TrimSpace. rewrite (trim_left_right (trim_left s)) by apply trim_left_idemp.
  apply trim_right_idemp.
Qed.

Lemma norm_idemp s : norm (norm s) = norm s.
Proof. unfold norm. by rewrite TrimSpace_lower, TrimSpace_idemp, ToLower_idemp. Qed.
Lemma TrimSpace_norm s : TrimSpace (norm s) = norm s.
Proof. unfold norm. by rewrite TrimSpace_lower, TrimSpace_idemp. Qed.
Lemma ToLower_norm s : ToLower (norm s) = norm s.
Proof. unfold norm. by rewrite ToLower_idemp. Qed.
Lemma TrimSpace_empty : TrimSpace "" = "".
Proof. done. Qed.

(** A string without white space: hexadecimal digits, base64. *)
Fixpoint no_blanks (s : string) : bool :=
  match s with
  | EmptyString => true
  | String c s => negb (Ascii.is_space c) && no_blanks s
  end.

Lemma trim_left_no_blanks s : no_blanks s = true → trim_left s = s.
Proof. destruct s as [|c s]; simpl; [done|]. by destruct (Ascii.is_space c). Qed.
Lemma trim_right_no_blanks s : no_blanks s = true → trim_right s = s.
Proof.
  induction s as [|c s IH]; simpl; [done|]. destruct (Ascii.is_space c) eqn:Hc; [done|].
  intros ->%IH. by destruct s.
Qed.
Lemma TrimSpace_no_blanks s : no_blanks s = true → TrimSpace s = s.
Proof. intros Hs. unfold TrimSpace. by rewrite trim_left_no_blanks, trim_right_no_blanks. Qed.

(** A positive number in binary, to write a value of a [Countable] type. *)
Fixpoint bits (p : positive) : string :=
  match p with
  | xH => "."
  | xO p => String "0" (bits p)
  | xI p => String "1" (bits p)
  end.
Fixpoint unbits (s : string) : option positive :=
  match s with
  | EmptyString => None
  | String c s =>
      if bool_decide (c = "0"%char) then xO <$> unbits s
      else if bool_decide (c = "1"%char) then xI <$> unbits s
      else Some xH
  end.

Lemma unbits_bits_app p s : unbits (bits p +:+ s) = Some p.
Proof. induction p as [p IH|p IH|]; [..|done]; cbn [bits]; rewrite append_cons; cbn; by rewrite IH. Qed.
Lemma unbits_bits p : unbits (bits p) = Some p.
Proof. by rewrite <-(unbits_bits_app p ""), append_nil_r. Qed.

Create Rewrite HintDb go.
#[export] Hint Rewrite TrimSpace_idemp norm_idemp TrimSpace_norm ToLower_norm ToLower_idemp
  TrimSpace_lower TrimSpace_empty : go.

(** ** Sorting

    [sort.Strings] sorts by byte order; equal strings are indistinguishable, so
    its result is determined by the multiset it sorts ([sort_strings_Permutation]):
    the iteration order of a map whose keys are then sorted does not matter. *)

Definition sort_strings (l : list string) : list string := merge_sort String.le l.

Lemma sort_strings_perm l : sort_strings l ≡ₚ l.
Proof. apply merge_sort_Permutation. Qed.
Lemma sort_strings_sorted l : StronglySorted String.le (sort_strings l).
Proof. apply StronglySorted_merge_sort; apply _. Qed.
Lemma sort_strings_unique l k : l ≡ₚ k → StronglySorted String.le k → sort_strings l = k.
Proof.
  intros Hp Hk. apply (StronglySorted_unique String.le); [apply sort_strings_sorted|done|].
  by rewrite sort_strings_perm.
Qed.
Lemma sort_strings_Permutation l k : l ≡ₚ k → sort_strings l = sort_strings k.
Proof.
  intros Hp. apply sort_strings_unique; [|apply sort_strings_sorted]. by rewrite sort_strings_perm.
Qed.
#[export] Instance sort_strings_Proper : Proper ((≡ₚ) ==> (=)) sort_strings.
Proof. intros l k. apply sort_strings_Permutation. Qed.
Lemma elem_of_sort_strings x l : x ∈ sort_strings l ↔ x ∈ l.
Proof. by rewrite sort_strings_perm. Qed.
Lemma NoDup_sort_strings l : NoDup (sort_strings l) ↔ NoDup l.
Proof. by rewrite sort_strings_perm. Qed.
Lemma length_sort_strings l : length (sort_strings l) = length l.
Proof. by rewrite sort_strings_perm. Qed.
Lemma sort_strings_idemp l : sort_strings (sort_strings l) = sort_strings l.
Proof. apply sort_strings_Permutation, sort_strings_perm. Qed.

(** ** The "seen" loop

    [for _, v := range l { v = f(v); if v == "" || seen[v] { continue };
    seen[v] = {}; out = append(out, v) }], used throughout the code to clean a
    list of names; most callers sort the outcome. *)

Fixpoint clean_go (f : string → string) (seen : gset string) (l : list string) : list string :=
  match l with
  | [] => []
  | x :: l' =>
      if eqs (f x) "" then clean_go f seen l'
      else if decide (f x ∈ seen) then clean_go f seen l'
      else f x :: clean_go f ({[f x]} ∪ seen) l'
  end.

Definition clean_list (f : string → string) (l : list string) : list string :=
  sort_strings (clean_go f ∅ l).

Lemma elem_of_clean_go f seen l y :
  y ∈ clean_go f seen l ↔ y ≠ "" ∧ y ∉ seen ∧ ∃ x, x ∈ l ∧ y = f x.
Proof.
  revert seen; induction l as [|x l IH]; intros seen; simpl; [set_solver|].
  destruct (eqs (f x) "") eqn:He.
  { apply eqs_true in He. rewrite IH. set_solver. }
  apply eqs_false in He. destruct (decide (f x ∈ seen)) as [Hs|Hs]; rewrite ?elem_of_cons, IH.
  - set_solver.
  - destruct (decide (y = f x)) as [->|]; set_solver.
Qed.

Lemma NoDup_clean_go f seen l : NoDup (clean_go f seen l).
Proof.
  revert seen; induction l as [|x l IH]; intros seen; simpl; [constructor|].
  destruct (eqs (f x) ""); [done|]. destruct (decide _); [done|].
  constructor; [|done]. rewrite elem_of_clean_go. set_solver.
Qed.

Lemma clean_go_id f seen l :
  Forall (λ x, f x = x ∧ x ≠ "" ∧ x ∉ seen) l → NoDup l → clean_go f seen l = l.
Proof.
  intros Hl Hnd. revert seen Hl; induction Hnd as [|x l Hx Hnd IH]; intros seen Hl; simpl; [done|].
  apply Forall_cons in Hl as [(Hf & Hne & Hs) Hl]. rewrite Hf.
  destruct (eqs x "") eqn:He; [by apply eqs_true in He|]. destruct (decide _); [done|].
  f_equal. apply IH. rewrite Forall_forall in *. intros y Hy.
  specialize (Hl y Hy). set_solver.
Qed.

Lemma elem_of_clean_list f l y :
  y ∈ clean_list f l ↔ y ≠ "" ∧ ∃ x, x ∈ l ∧ y = f x.
Proof. unfold clean_list. rewrite elem_of_sort_strings, elem_of_clean_go. set_solver. Qed.
Lemma NoDup_clean_list f l : NoDup (clean_list f l).
Proof. apply NoDup_sort_strings, NoDup_clean_go. Qed.
Lemma clean_list_sorted f l : StronglySorted String.le (clean_list f l).
Proof. apply sort_strings_sorted. Qed.
Lemma clean_list_idemp f l :
  (∀ x, f (f x) = f x) → clean_list f (clean_list f l) = clean_list f l.
Proof.
  intros Hf. unfold clean_list at 1. rewrite clean_go_id.
  - apply sort_strings_idemp.
  - apply Forall_forall. intros y. rewrite elem_of_clean_list. intros (Hne & x & _ & ->).
    split_and!; [done..|set_solver].
  - apply NoDup_clean_list.
Qed.

(** ** Hashing

    FNV-1a on 32 bits ([hash/fnv]), used for jitter and shard assignment. *)

Fixpoint fnv32a_acc (h : Z) (s : string) : Z :=
  match s with
  | EmptyString => h
  | String c s => fnv32a_acc ((Z.lxor h (Z.of_nat (code c)) * 16777619) mod 2 ^ 32) s
  end.
Definition fnv32a (s : string) : Z := fnv32a_acc 2166136261 s.

Lemma fnv32a_bound s : 0 ≤ fnv32a s < 2 ^ 32.
Proof.
  unfold fnv32a. assert (0 ≤ 2166136261 < 2 ^ 32) as Hb by lia. revert Hb.
  generalize 2166136261. induction s as [|c s IH]; intros h Hh; cbn [fnv32a_acc]; [done|].
  apply IH. apply Z.mod_pos_bound. lia.
Qed.
Example fnv32a_a : fnv32a "a" = 3826002220.
Proof. reflexivity. Qed.

(** ** Lists and maps *)

Lemma filter_iff_in {A} (P Q : A → Prop) `{∀ x, Decision (P x), ∀ x, Decision (Q x)} (l : list A) :
  (∀ x, x ∈ l → P x ↔ Q x) → filter P l = filter Q l.
Proof.
  induction l as [|x l IH]; intros HPQ; [done|]. rewrite !filter_cons, IH by set_solver.
  specialize (HPQ x). destruct (decide (P x)), (decide (Q x)); set_solver.
Qed.

Lemma filter_none {A} (P : A → Prop) `{∀ x, Decision (P x)} (l : list A) :
  (∀ x, x ∈ l → ¬ P x) → filter P l = [].
Proof.
  induction l as [|x l IH]; intros HP; [done|]. rewrite filter_cons, decide_False by (apply HP; left).
  apply IH. intros. apply HP. by right.
Qed.

Lemma filter_all_true {A} (P : A → Prop) `{∀ x, Decision (P x)} (l : list A) :
  (∀ x, x ∈ l → P x) → filter P l = l.
Proof.
  induction l as [|x l IH]; intros HP; [done|]. rewrite filter_cons, decide_True by (apply HP; left).
  f_equal. apply IH. intros. apply HP. by right.
Qed.

Lemma NoDup_fmap_eq {A B} (f : A → B) (l : list A) x y :
  NoDup (f <$> l) → x ∈ l → y ∈ l → f x = f y → x = y.
Proof.
  induction l as [|z l IH]; rewrite ?fmap_cons; intros Hnd Hx Hy Heq; [set_solver|].
  apply NoDup_cons in Hnd as [Hz Hnd]. rewrite list_elem_of_fmap in Hz.
  apply elem_of_cons in Hx as [->|Hx], Hy as [->|Hy]; [done| | |by apply IH].
  - destruct Hz. by exists y.
  - destruct Hz. by exists x.
Qed.

(** [switch s { case "a", "b": ... }] *)
Definition one_of (s : string) (l : list string) : bool := bool_decide (s ∈ l).
Lemma one_of_true s l : one_of s l = true ↔ s ∈ l.
Proof. apply bool_decide_eq_true. Qed.
Lemma one_of_false s l : one_of s l = false ↔ s ∉ l.
Proof. apply bool_decide_eq_false. Qed.

Definition blank (s : string) : bool := eqs (TrimSpace s) "".
Lemma blank_true s : blank s = true ↔ TrimSpace s = "".
Proof. apply eqs_true. Qed.
Lemma blank_false s : blank s = false ↔ TrimSpace s ≠ "".
Proof. apply eqs_false. Qed.

Lemma negb_false b : negb b = false ↔ b = true.
Proof. by destruct b. Qed.

(** Identifiers numbered by a counter. *)
Definition numbered (pre : string) (next : Z) (id : string) : Prop := ∃ n, 1 ≤ n ≤ next ∧ id = pre +:+ itoa n.

Lemma numbered_next pre next : 0 ≤ next → numbered pre (next + 1) (pre +:+ itoa (next + 1)).
Proof. intros Hn. exists (next + 1). split; [lia|done]. Qed.

Lemma numbered_mono pre n m id : n ≤ m → numbered pre n id → numbered pre m id.
Proof. intros Hnm (k & Hk & ->). exists k. split; [lia|done]. Qed.

Lemma numbered_fresh pre next : 0 ≤ next < max_int64 → ¬ numbered pre next (pre +:+ itoa (next + 1)).
Proof. intros Hn (k & Hk & Heq). apply (inj (String.app pre)), itoa_inj in Heq; lia. Qed.

(** The order in which a loop meets the entries of a map: any. *)
Record map_order {A : Type} := mkOrder {
  range : gmap string A → list (string * A);
  range_perm m : range m ≡ₚ map_to_list m;
}.
Arguments map_order : clear implicits.
Definition some_order {A} : map_order A := mkOrder A map_to_list (λ m, reflexivity _).

Lemma NoDup_range {A} (ro : map_order A) m : NoDup (range ro m).*1.
Proof. rewrite (range_perm ro). apply NoDup_fst_map_to_list. Qed.
Lemma elem_of_range {A} (ro : map_order A) m k x : (k, x) ∈ range ro m ↔ m !! k = Some x.
Proof. rewrite (range_perm ro). apply elem_of_map_to_list. Qed.

(** Rebuilding a map by inserting the entries of another one. *)
Lemma foldl_insert_map `{Countable K} {A} (l : list (K * A)) (acc : gmap K A) :
  NoDup l.*1 → foldl (λ m kv, <[kv.1 := kv.2]> m) acc l = list_to_map l ∪ acc.
Proof.
  revert acc; induction l as [|[k v] l IH]; intros acc Hnd; simpl; [by rewrite (left_id_L ∅ (∪))|].
  apply NoDup_cons in Hnd as [Hk Hnd]. rewrite IH by done.
  rewrite <-insert_union_l, insert_union_r; [done|]. by apply not_elem_of_list_to_map_1.
Qed.

(** The loop [for _, x := range l { m[key(x)] = val(x) }]. *)
Lemma foldl_insert_keys {A B} (key : A → string) (val : A → B) (l : list A) :
  NoDup (key <$> l) →
  foldl (λ m x, <[key x := val x]> m) (∅ : gmap string B) l = list_to_map ((λ x, (key x, val x)) <$> l).
Proof.
  intros Hnd. rewrite <-(right_id_L ∅ (∪) (list_to_map _)), <-foldl_insert_map.
  - by rewrite foldl_fmap.
  - by rewrite <-list_fmap_compose.
Qed.

Lemma foldl_insert_self `{Countable K} {A} (m : gmap K A) :
  foldl (λ m kv, <[kv.1 := kv.2]> m) ∅ (map_to_list m) = m.
Proof.
  rewrite foldl_insert_map by apply NoDup_fst_map_to_list.
  by rewrite list_to_map_to_list, (right_id_L ∅ (∪)).
Qed.

(** A loop that rebuilds a map from its own entries, in any order. *)
Lemma foldl_range_self {A} (ro : map_order A) (f : gmap string A → string * A → gmap string A) (m : gmap string A) :
  (∀ out k v, m !! k = Some v → f out (k, v) = <[k := v]> out) → foldl f ∅ (range ro m) = m.
Proof.
  intros Hf. assert (∀ l acc, (∀ k v, (k, v) ∈ l → m !! k = Some v) →
    foldl f acc l = foldl (λ m kv, <[kv.1 := kv.2]> m) acc l) as Hl.
  { intros l. induction l as [|[k v] l IH]; intros acc Hin; [done|]. simpl. rewrite Hf by (apply Hin; set_solver).
    apply IH. intros. apply Hin. set_solver. }
  rewrite Hl by (intros k v; apply elem_of_range). rewrite foldl_insert_map by apply NoDup_range.
  rewrite (right_id_L ∅ (∪)). rewrite <-(list_to_map_to_list m) at 2.
  apply list_to_map_proper; [apply NoDup_range|apply range_perm].
Qed.

(** A loop that follows another one on the elements it meets. *)
Lemma foldl_ext_in {A B} (f g : B → A → B) (l : list A) b :
  (∀ b x, x ∈ l → f b x = g b x) → foldl f b l = foldl g b l.
Proof.
  revert b; induction l as [|x l IH]; intros b Hfg; simpl; [done|].
  rewrite Hfg by set_solver. apply IH. intros. apply Hfg. set_solver.
Qed.

Lemma foldM_res_inv {E A S} (P : S → Prop) (f : S → A → result E S) l s s' :
  foldM_res f s l = Ok s' → P s → (∀ s x s', x ∈ l → P s → f s x = Ok s' → P s') → P s'.
Proof.
  revert s; induction l as [|x l IH]; simpl; intros s Hf Hs Hstep.
  - by injection Hf as <-.
  - apply bind_Ok in Hf as (s1 & H1 & H2). eapply (IH s1); [done| |].
    + eapply Hstep; [left|done..].
    + intros ??? Hin. apply Hstep. by right.
Qed.

Lemma foldM_res_pure {E A S} (f : S → A → result E S) (g : S → A → S) l s :
  (∀ s x, x ∈ l → f s x = Ok (g s x)) → foldM_res f s l = Ok (foldl g s l).
Proof.
  revert s; induction l as [|x l IH]; simpl; intros s Hf; [done|].
  rewrite Hf by set_solver. simpl. apply IH. intros. apply Hf. set_solver.
Qed.

Lemma mapM_res_id {E A} (f : A → result E A) l :
  (∀ x, x ∈ l → f x = Ok x) → mapM_res f l = Ok l.
Proof.
  induction l as [|x l IH]; simpl; intros Hf; [done|].
  rewrite Hf by set_solver. simpl. rewrite IH; [done|]. intros. apply Hf. set_solver.
Qed.

(** Inversion of a run of checks that succeeded. *)
Ltac res_inv :=
  repeat match goal with
  | H : bind (fail_if _ _) _ = Ok _ |- _ => apply fail_if_Ok in H as [? H]
  | H : bind _ _ = Ok _ |- _ => apply bind_Ok in H as (? & ? & H)
  | H : Ok _ = Ok _ |- _ => injection H; clear H; intros; subst
  | H : Err _ = Ok _ |- _ => discriminate H
  | H : negb _ = false |- _ => apply negb_false in H
  | H : (_ || _)%bool = false |- _ => apply orb_false_iff in H as [? H]
  | H : bool_decide _ = false |- _ => apply bool_decide_eq_false in H
  | H : bool_decide _ = true |- _ => apply bool_decide_eq_true in H
  | H : (let '(_, _) := ?x in _) = Ok _ |- _ => destruct x
  end.
