(* ===== verification/Model.v ===== *)
(** * The desired-state model of [internal/config/model.go]

    The typed configuration the loader, the validator, the planner and the
    executor share.  A nil and an empty slice (or map) are the same value here:
    the code only ranges over them and takes their length. *)

From S2P Require Import Prelude.

(** A managed machine of the inventory. *)
Record Host : Type := mkHost {
  h_Name : string;
  h_Transport : string;
  h_Address : string;
  h_User : string;
  h_Port : Z;
  h_JumpAddress : string;
  h_JumpUser : string;
  h_JumpPort : Z;
  h_ProxyCommand : string;
  h_Capabilities : list string;
  h_Labels : gmap string string;
  h_Roles : list string;
  h_Topology : gmap string string;
}.
#[export] Instance eta_Host : Eta Host := λ r,
  mkHost (h_Name r) (h_Transport r) (h_Address r) (h_User r) (h_Port r) (h_JumpAddress r)
    (h_JumpUser r) (h_JumpPort r) (h_ProxyCommand r) (h_Capabilities r) (h_Labels r)
    (h_Roles r) (h_Topology r).

(** A resource (or a handler): the union of the fields of all resource types. *)
Record Resource : Type := mkResource {
  r_ID : string;
  r_Type : string;
  r_Host : string;
  r_DelegateTo : string;
  r_DependsOn : list string;
  r_Require : list string;
  r_Before : list string;
  r_Notify : list string;
  r_Subscribe : list string;
  r_NotifyHandlers : list string;
  r_When : string;
  r_Matrix : gmap string (list string);
  r_Loop : list string;
  r_LoopVar : string;
  r_Tags : list string;
  r_Path : string;
  r_Content : string;
  r_Mode : string;
  r_ContentChecksum : string;
  r_ContentSignature : string;
  r_ContentSigningPubKey : string;
  r_Command : string;
  r_Creates : string;
  r_OnlyIf : string;
  r_Unless : string;
  r_RefreshOnly : bool;
  r_RefreshCommand : string;
  r_Become : bool;
  r_BecomeUser : string;
  r_RescueCommand : string;
  r_AlwaysCommand : string;
  r_Retries : Z;
  r_RetryDelaySeconds : Z;
  r_RetryBackoff : string;
  r_RetryJitterSecs : Z;
  r_UntilContains : string;
  r_RegistryKey : string;
  r_RegistryValue : string;
  r_RegistryValueType : string;
  r_TaskName : string;
  r_TaskSchedule : string;
  r_TaskCommand : string;
}.
#[export] Instance eta_Resource : Eta Resource := λ r,
  mkResource (r_ID r) (r_Type r) (r_Host r) (r_DelegateTo r) (r_DependsOn r) (r_Require r)
    (r_Before r) (r_Notify r) (r_Subscribe r) (r_NotifyHandlers r) (r_When r)
    (r_Matrix r) (r_Loop r) (r_LoopVar r) (r_Tags r) (r_Path r) (r_Content r) (r_Mode r)
    (r_ContentChecksum r) (r_ContentSignature r) (r_ContentSigningPubKey r) (r_Command r)
    (r_Creates r) (r_OnlyIf r) (r_Unless r) (r_RefreshOnly r) (r_RefreshCommand r)
    (r_Become r) (r_BecomeUser r) (r_RescueCommand r) (r_AlwaysCommand r) (r_Retries r)
    (r_RetryDelaySeconds r) (r_RetryBackoff r) (r_RetryJitterSecs r) (r_UntilContains r)
    (r_RegistryKey r) (r_RegistryValue r) (r_RegistryValueType r) (r_TaskName r)
    (r_TaskSchedule r) (r_TaskCommand r).

(** How a run walks through its steps. *)
Record Execution : Type := mkExecution {
  e_Strategy : string;
  e_Serial : Z;
  e_FailureDomain : string;
  e_MaxFailPercentage : Z;
  e_AnyErrorsFatal : bool;
}.
#[export] Instance eta_Execution : Eta Execution := λ r,
  mkExecution (e_Strategy r) (e_Serial r) (e_FailureDomain r) (e_MaxFailPercentage r)
    (e_AnyErrorsFatal r).

(** [Config]; [c_Inventory] is the field [Hosts] of its [Inventory]. *)
Record Config : Type := mkConfig {
  c_Version : string;
  c_Includes : list string;
  c_Imports : list string;
  c_Overlays : list string;
  c_Inventory : list Host;
  c_Execution : Execution;
  c_Resources : list Resource;
  c_Handlers : list Resource;
}.
#[export] Instance eta_Config : Eta Config := λ r,
  mkConfig (c_Version r) (c_Includes r) (c_Imports r) (c_Overlays r) (c_Inventory r)
    (c_Execution r) (c_Resources r) (c_Handlers r).

(** The zero values of the Go types. *)
Definition zeroHost : Host :=
  mkHost "" "" "" "" 0 "" "" 0 "" [] ∅ [] ∅.
Definition zeroResource : Resource :=
  mkResource "" "" "" "" [] [] [] [] [] [] "" ∅ [] "" [] "" "" "" "" "" "" "" "" "" "" false
    "" false "" "" "" 0 0 "" 0 "" "" "" "" "" "" "".
Definition zeroExecution : Execution :=
  mkExecution "" 0 "" 0 false.
Definition zeroConfig : Config :=
  mkConfig "" [] [] [] [] zeroExecution [] [].
