(* ===== verification/Planner.v ===== *)
(** * The planner: [internal/planner/plan.go]

    [Build] orders the resources of a configuration by Kahn's algorithm, always
    taking the least ready resource id.  The specification is [greedy]: the
    order whose every element is the least id whose predecessors are all
    placed; it determines the plan, whatever the declaration order. *)

From S2P Require Import Prelude Model.

Record Step : Type := mkStep {
  s_Order : Z;
  s_Host : Host;
  s_Resource : Resource;
}.
#[export] Instance eta_Step : Eta Step := λ r, mkStep (s_Order r) (s_Host r) (s_Resource r).

Record Plan : Type := mkPlan {
  p_Execution : Execution;
  p_Steps : list Step;
  p_Handlers : gmap string Step;
}.

(** ** Transports *)

Definition is_loopback (target : string) : bool :=
  eqs target "localhost" || eqs target "127.0.0.1" || eqs target "::1".

Definition isLocalEndpoint (h : Host) : bool :=
  let target := norm (h_Address h) in
  let target := if eqs target "" then norm (h_Name h) else target in
  is_loopback target.

Definition capability_set (h : Host) : gset string :=
  list_to_set (filter (λ c, c ≠ "") (norm <$> h_Capabilities h)).

Definition discoverHostTransport (h : Host) : string :=
  let capabilities := capability_set h in
  if bool_decide ("local" ∈ capabilities) && isLocalEndpoint h then "local"
  else if bool_decide ("winrm" ∈ capabilities) then "winrm"
  else if bool_decide ("ssh" ∈ capabilities) then "ssh"
  else if isLocalEndpoint h then "local"
  else if (h_Port h =? 5985) || (h_Port h =? 5986) then "winrm"
  else if Contains (norm (default "" (h_Labels h !! "os"))) "windows" then "winrm"
  else if negb (eqs (TrimSpace (h_User h)) "") || negb (eqs (TrimSpace (h_JumpAddress h)) "")
          || negb (eqs (TrimSpace (h_ProxyCommand h)) "") then "ssh"
  else "ssh".

Definition resolveHostTransport (h : Host) : Host :=
  let transport := norm (h_Transport h) in
  let transport := if eqs transport "" then "local" else transport in
  if negb (eqs transport "auto") then h <| h_Transport := transport |>
  else h <| h_Transport := discoverHostTransport h |>.

(** ** The dependency graph *)

Record depgraph : Type := mkDepgraph {
  inDegree : gmap string Z;
  graph : gmap string (list string);
  edgeSet : gset string;
}.

Definition edge_key (from to : string) : string := from +:+ "->" +:+ to.

Definition addEdge (g : depgraph) (e : string * string) : depgraph :=
  let '(from, to) := e in
  if blank from || blank to then g
  else if decide (edge_key from to ∈ edgeSet g) then g
  else mkDepgraph
         (<[to := default 0 (inDegree g !! to) + 1]> (inDegree g))
         (<[from := default [] (graph g !! from) ++ [to]]> (graph g))
         ({[edge_key from to]} ∪ edgeSet g).

Definition resource_edges (r : Resource) : list (string * string) :=
  ((λ dep, (dep, r_ID r)) <$> r_DependsOn r ++ r_Require r ++ r_Subscribe r) ++
  ((λ target, (r_ID r, target)) <$> r_Before r ++ r_Notify r).

Definition initial_degrees (rs : list Resource) : gmap string Z :=
  foldl (λ m r, <[r_ID r := 0]> m) ∅ rs.

Definition build_graph (rs : list Resource) : depgraph :=
  foldl addEdge (mkDepgraph (initial_degrees rs) ∅ ∅) (rs ≫= resource_edges).

(** ** Kahn's loop *)

(** [for _, c := range children { inDegree[c]--; if inDegree[c] == 0 { queue = append(queue, c) } }] *)
Definition release (st : gmap string Z * list string) (c : string)
    : gmap string Z * list string :=
  let '(degrees, queue) := st in
  let d := default 0 (degrees !! c) - 1 in
  (<[c := d]> degrees, if d =? 0 then queue ++ [c] else queue).

(** One iteration per unit of fuel; the second component is the queue left. *)
Fixpoint kahn (fuel : nat) (children_of : gmap string (list string))
    (degrees : gmap string Z) (queue ordered : list string) : list string * list string :=
  match fuel, queue with
  | S fuel, cur :: queue =>
      let children := sort_strings (default [] (children_of !! cur)) in
      let '(degrees, queue) := foldl release (degrees, queue) children in
      kahn fuel children_of degrees (sort_strings queue) (ordered ++ [cur])
  | _, _ => (ordered, queue)
  end.

Definition initial_queue (degrees : gmap string Z) : list string :=
  sort_strings (filter (λ kd, kd.2 = 0) (map_to_list degrees)).*1.

Definition kahn_order (rs : list Resource) : list string * list string :=
  let g := build_graph rs in
  kahn (size (inDegree g)) (graph g) (inDegree g) (initial_queue (inDegree g)) [].

(** ** Build *)

Inductive plan_error := ErrCycle.

Definition id_to_res (rs : list Resource) : gmap string Resource :=
  foldl (λ m r, <[r_ID r := r]> m) ∅ rs.
Definition host_by_name (hs : list Host) : gmap string Host :=
  foldl (λ m h, <[h_Name h := resolveHostTransport h]> m) ∅ hs.

Definition exec_host (r : Resource) : string :=
  if blank (r_DelegateTo r) then r_Host r else r_DelegateTo r.

Definition make_step (hosts : gmap string Host) (order : Z) (r : Resource) : Step :=
  mkStep order (default zeroHost (hosts !! exec_host r)) r.

Definition plan_steps (cfg : Config) (ordered : list string) : list Step :=
  imap (λ i id, make_step (host_by_name (c_Inventory cfg)) (Z.of_nat i + 1)
                  (default zeroResource (id_to_res (c_Resources cfg) !! id))) ordered.

Definition plan_handlers (cfg : Config) (nsteps : nat) : gmap string Step :=
  foldl (λ m ih, <[r_ID ih.2 := make_step (host_by_name (c_Inventory cfg))
                                  (Z.of_nat nsteps + Z.of_nat ih.1 + 1) ih.2]> m)
        ∅ (imap pair (c_Handlers cfg)).

Definition Build (cfg : Config) : result plan_error Plan :=
  let '(ordered, _) := kahn_order (c_Resources cfg) in
  if negb (Nat.eqb (length ordered) (length (c_Resources cfg))) then Err ErrCycle
  else
    let steps := plan_steps cfg ordered in
    Ok (mkPlan (c_Execution cfg) steps (plan_handlers cfg (length steps))).

(** ** Specification *)

(** [v] must run after [u]: the edges [addEdge] is meant to record. *)
Definition edge (rs : list Resource) (u v : string) : Prop :=
  (u, v) ∈ rs ≫= resource_edges ∧ blank u = false ∧ blank v = false.

Definition ids (rs : list Resource) : gset string := list_to_set (r_ID <$> rs).

(** [v] can be placed next: it is not placed, its predecessors all are. *)
Definition ready (N : gset string) (R : string → string → Prop) (placed : list string)
    (v : string) : Prop :=
  v ∈ N ∧ v ∉ placed ∧ ∀ u, R u v → u ∈ placed.

(** Every element of [l] is the least that was ready when it was placed. *)
Definition greedy (N : gset string) (R : string → string → Prop) (l : list string) : Prop :=
  ∀ l1 v l2, l = l1 ++ v :: l2 → ready N R l1 v ∧ ∀ w, ready N R l1 w → String.le v w.

Definition exhausted (N : gset string) (R : string → string → Prop) (l : list string) : Prop :=
  ∀ w, ¬ ready N R l w.

Definition precedes (l : list string) (u v : string) : Prop :=
  ∃ l1 l2 l3, l = l1 ++ u :: l2 ++ v :: l3.

(** What [config.Validate] guarantees the planner about the resources. *)
Record plannable (rs : list Resource) : Prop := {
  pl_nodup : NoDup (r_ID <$> rs);
  pl_refs : ∀ u v, (u, v) ∈ rs ≫= resource_edges → u ∈ ids rs ∧ v ∈ ids rs;
}.

(** No id contains the separator of [edge_key]. *)
Definition arrow_free (rs : list Resource) : Prop :=
  Forall (λ r, Contains (r_ID r) "->" = false) rs.

(** ** Lemmas on greedy orders *)

Section Greedy.
Context (N : gset string) (R : string → string → Prop).

Lemma greedy_NoDup l : greedy N R l → NoDup l.
Proof.
  induction l as [|v l IH] using rev_ind; intros Hg; [constructor|].
  apply NoDup_app. split_and!.
  - apply IH. intros l1 w l2 ->. apply (Hg l1 w (l2 ++ [v])). by rewrite <-app_assoc.
  - destruct (Hg l v []) as [(_ & Hv & _) _]; [done|]. set_solver.
  - apply NoDup_singleton.
Qed.

Lemma greedy_elem l v : greedy N R l → v ∈ l → v ∈ N.
Proof.
  intros Hg (l1 & l2 & ->)%list_elem_of_split. by destruct (Hg l1 v l2) as [(? & _) _].
Qed.

Lemma greedy_precedes l u v : greedy N R l → R u v → v ∈ l → precedes l u v.
Proof.
  intros Hg Huv (l1 & l3 & ->)%list_elem_of_split.
  destruct (Hg l1 v l3) as [(_ & _ & Hp) _]; [done|].
  destruct (list_elem_of_split l1 u) as (k1 & k2 & ->); [by apply Hp|].
  exists k1, k2, l3. by rewrite <-app_assoc.
Qed.

Lemma greedy_unique l k :
  greedy N R l → greedy N R k → exhausted N R l → exhausted N R k → l = k.
Proof.
  intros Hl Hk El Ek.
  assert (∀ pre l' k', l = pre ++ l' → k = pre ++ k' → l' = k') as H.
  { intros pre l'; revert pre; induction l' as [|v l' IH]; intros pre k' Hl' Hk'.
    - destruct k' as [|w k']; [done|]. rewrite app_nil_r in Hl'; subst pre.
      destruct (Hk l w k') as [Hw _]; [done|]. by destruct (El w).
    - destruct k' as [|w k'].
      + rewrite app_nil_r in Hk'; subst pre.
        destruct (Hl k v l') as [Hv _]; [done|]. by destruct (Ek v).
      + destruct (Hl pre v l') as [Hv Hvmin]; [done|].
        destruct (Hk pre w k') as [Hw Hwmin]; [done|].
        assert (v = w) as -> by (apply (anti_symm String.le); auto).
        f_equal. apply (IH (pre ++ [w])); by rewrite <-app_assoc. }
  by apply (H [] l k).
Qed.

Lemma greedy_ext N' R' l :
  N = N' → (∀ u v, R u v ↔ R' u v) → greedy N R l → greedy N' R' l.
Proof.
  intros <- HR Hg l1 v l2 ->. destruct (Hg l1 v l2 eq_refl) as [(? & ? & Hp) Hm]. split.
  - split_and!; [done..|]. intros u ?%HR. by apply Hp.
  - intros w (? & ? & Hw). apply Hm. split_and!; [done..|]. intros u ?%HR. by apply Hw.
Qed.

(** Either every vertex is placed or the rest contains a cycle. *)
Lemma closed_has_cycle (X : gset string) (x : string) :
  x ∈ X → (∀ v, v ∈ X → ∃ u, u ∈ X ∧ R u v) → ∃ v, tc R v v.
Proof.
  intros Hx HX.
  assert (∀ n : nat, (∃ v, tc R v v) ∨
    ∃ y p, length p = n ∧ NoDup (y :: p) ∧ list_to_set (y :: p) ⊆ X ∧ ∀ z, z ∈ p → tc R y z)
    as H.
  { induction n as [|n [?|(y & p & Hlen & Hnd & Hsub & Htc)]]; [right|by left|].
    - exists x, []. split_and!; [done|apply NoDup_singleton|set_solver|set_solver].
    - destruct (HX y) as (u & Hu & Huy); [set_solver|].
      assert (∀ z, z ∈ y :: p → tc R u z) as Hu'.
      { intros z [->|Hz]%elem_of_cons; [by apply tc_once|]. eapply tc_l; eauto. }
      destruct (decide (u ∈ y :: p)) as [Hin|Hin]; [left; eauto|right].
      exists u, (y :: p). split_and!; [simpl; lia|by constructor|set_solver|done]. }
  destruct (H (size X)) as [?|(y & p & Hlen & Hnd & Hsub & _)]; [done|].
  apply subseteq_size in Hsub. rewrite size_list_to_set in Hsub by done. simpl in Hsub. lia.
Qed.

Lemma exhausted_complete_or_cycle l :
  (∀ u v, R u v → u ∈ N) → (∀ v, Decision (∀ u, R u v → u ∈ l)) →
  (∀ v, v ∈ N → ¬ (∀ u, R u v → u ∈ l) → ∃ u, R u v ∧ u ∉ l) →
  exhausted N R l → (∀ v, v ∈ N → v ∈ l) ∨ ∃ v, tc R v v.
Proof.
  intros Hsrc Hdec Hwit Hex. set (X := N ∖ list_to_set l).
  destruct (decide (X = ∅)) as [He|[x Hx]%set_choose_L].
  - left. intros v Hv. destruct (decide (v ∈ l)); [done|]. set_solver.
  - right. apply (closed_has_cycle X x Hx). intros v Hv.
    destruct (Hwit v) as (u & Hu & Hul); [set_solver| |].
    + intros Hall. apply (Hex v). split_and!; [set_solver..|done].
    + exists u. split; [|done]. apply Hsrc in Hu. set_solver.
Qed.

Lemma complete_acyclic l :
  greedy N R l → (∀ u v, R u v → v ∈ l) → ∀ v, ¬ tc R v v.
Proof.
  intros Hg Hall v Hcyc.
  assert (∀ a b, tc R a b → ∀ l1 l2, l = l1 ++ b :: l2 → a ∈ l1) as H.
  { intros a b Hab. induction Hab as [a b Hab|a b c Hab Hbc IH]; intros l1 l2 Hl.
    - destruct (Hg l1 b l2) as [(_ & _ & Hp) _]; [done|]. by apply Hp.
    - pose proof (IH _ _ Hl) as Hb. apply list_elem_of_split in Hb as (k1 & k2 & ->).
      rewrite <-app_assoc in Hl. destruct (Hg k1 b (k2 ++ c :: l2)) as [(_ & _ & Hp) _]; [done|].
      specialize (Hp a Hab). set_solver. }
  assert (v ∈ l) as (l1 & l2 & Hl)%list_elem_of_split.
  { clear H. induction Hcyc as [a b Hab|a b c Hab Hbc IH]; eauto. }
  pose proof (H v v Hcyc _ _ Hl) as Hin.
  pose proof (greedy_NoDup l Hg) as Hnd. rewrite Hl in Hnd.
  apply NoDup_app in Hnd as (_ & Hd & _). apply (Hd v Hin). set_solver.
Qed.
End Greedy.

(** ** Degrees *)

Section Degrees.
(** Incoming edges of [v] whose source is not placed yet. *)
Definition deg (E : list (string * string)) (placed : list string) (v : string) : Z :=
  Z.of_nat (length (filter (λ e, e.2 = v ∧ e.1 ∉ placed) E)).

Lemma deg_zero E placed v : deg E placed v = 0 ↔ ∀ u, (u, v) ∈ E → u ∈ placed.
Proof.
  unfold deg. rewrite (Nat2Z.inj_iff _ 0), length_zero_iff_nil. split.
  - intros Hf u Hu. destruct (decide (u ∈ placed)) as [|Hn]; [done|].
    assert ((u, v) ∈ filter (λ e : string * string, e.2 = v ∧ e.1 ∉ placed) E) as Hin.
    { by apply list_elem_of_filter. }
    rewrite Hf in Hin. by apply elem_of_nil in Hin.
  - intros Hall. destruct (filter _ E) as [|[u w] l] eqn:Hf; [done|].
    assert ((u, w) ∈ filter (λ e : string * string, e.2 = v ∧ e.1 ∉ placed) E) as Hin.
    { rewrite Hf. left. }
    apply list_elem_of_filter in Hin as [[<- Hn] Hin]. simpl in *. by destruct Hn; apply Hall.
Qed.

Lemma deg_cons e E placed v :
  deg (e :: E) placed v =
    (if decide (e.2 = v ∧ e.1 ∉ placed) then 1 else 0) + deg E placed v.
Proof. unfold deg. rewrite filter_cons. case_decide; simpl length; lia. Qed.

Lemma deg_place E placed cur v :
  NoDup E → cur ∉ placed →
  deg E (placed ++ [cur]) v = deg E placed v - (if decide ((cur, v) ∈ E) then 1 else 0).
Proof.
  intros Hnd Hcur. induction Hnd as [|[a b] E Hin Hnd IH].
  - rewrite decide_False by set_solver. done.
  - rewrite !deg_cons, IH. simpl.
    destruct (decide ((cur, v) = (a, b))) as [[= <- <-]|Hne].
    + rewrite (decide_True _ _ (P := (cur, v) ∈ (cur, v) :: E)) by set_solver.
      rewrite decide_False by set_solver. rewrite decide_False by done.
      rewrite decide_True by done. lia.
    + rewrite (decide_ext ((cur, v) ∈ (a, b) :: E) ((cur, v) ∈ E)) by set_solver.
      rewrite (decide_ext (b = v ∧ a ∉ placed ++ [cur]) (b = v ∧ a ∉ placed)); [lia|].
      split; intros [-> Ha]; (split; [done|]); set_solver.
Qed.

Lemma deg_snoc E e placed v :
  deg (E ++ [e]) placed v =
    deg E placed v + (if decide (e.2 = v ∧ e.1 ∉ placed) then 1 else 0).
Proof.
  induction E as [|e' E IH]; [simpl app; rewrite deg_cons; lia|].
  simpl app. rewrite !deg_cons, IH. lia.
Qed.

Lemma release_spec cs degrees queue :
  NoDup cs →
  let '(degrees', queue') := foldl release (degrees, queue) cs in
  (∀ v, degrees' !! v = if decide (v ∈ cs) then Some (default 0 (degrees !! v) - 1)
                        else degrees !! v) ∧
  queue' = queue ++ filter (λ c, default 0 (degrees !! c) - 1 = 0) cs.
Proof.
  intros Hnd. revert degrees queue; induction Hnd as [|c cs Hc Hnd IH]; intros degrees queue.
  - cbn [foldl]. split; [|by rewrite app_nil_r]. intros v. by rewrite decide_False by set_solver.
  - cbn [foldl release]. set (d := default 0 (degrees !! c) - 1).
    specialize (IH (<[c:=d]> degrees) (if d =? 0 then queue ++ [c] else queue)).
    destruct (foldl release _ cs) as [degrees' queue']. destruct IH as [IH1 ->]. split.
    + intros v. rewrite IH1. destruct (decide (v = c)) as [->|Hne].
      * rewrite decide_False by done. rewrite decide_True by set_solver.
        by rewrite lookup_insert_eq.
      * rewrite lookup_insert_ne by done.
        by rewrite (decide_ext (v ∈ c :: cs) (v ∈ cs)) by set_solver.
    + rewrite filter_cons. fold d.
      assert (filter (λ c0, default 0 (<[c:=d]> degrees !! c0) - 1 = 0) cs =
              filter (λ c0, default 0 (degrees !! c0) - 1 = 0) cs) as ->.
      { apply filter_iff_in. intros x Hx.
        rewrite lookup_insert_ne; [done|]. by intros ->. }
      destruct (Z.eqb_spec d 0); [rewrite decide_True by done|by rewrite decide_False by done].
      by rewrite <-app_assoc.
Qed.
End Degrees.

(** ** The loop computes the greedy order *)

Section Kahn.
Context (N : gset string) (E : list (string * string)) (adj : gmap string (list string)).
Context (HE : NoDup E) (Htgt : ∀ u v, (u, v) ∈ E → v ∈ N).
Context (Hadj : ∀ u, default [] (adj !! u) ≡ₚ (filter (λ e, e.1 = u) E).*2).
Local Abbreviation R := (λ u v, (u, v) ∈ E).

Record kahn_inv (degrees : gmap string Z) (queue ordered : list string) : Prop := {
  ki_nodup : NoDup (ordered ++ queue);
  ki_degrees : ∀ v, degrees !! v = if decide (v ∈ N) then Some (deg E ordered v) else None;
  ki_ready : ∀ v, v ∈ ordered ++ queue ↔ v ∈ N ∧ deg E ordered v = 0;
  ki_sorted : StronglySorted String.le queue;
  ki_greedy : greedy N R ordered;
}.

Lemma children_spec cur v :
  v ∈ sort_strings (default [] (adj !! cur)) ↔ (cur, v) ∈ E.
Proof.
  rewrite elem_of_sort_strings, Hadj, list_elem_of_fmap. split.
  - intros ([a b] & -> & [Ha Hin]%list_elem_of_filter). simpl in *. by subst.
  - intros Hin. exists (cur, v). split; [done|]. by apply list_elem_of_filter.
Qed.

Lemma children_NoDup cur : NoDup (sort_strings (default [] (adj !! cur))).
Proof.
  rewrite NoDup_sort_strings, Hadj. apply NoDup_fmap_2_strong; [|by apply NoDup_filter].
  intros [a b] [c d] [Ha _]%list_elem_of_filter [Hc _]%list_elem_of_filter; simpl in *.
  by intros ->; subst.
Qed.

Lemma kahn_inv_ready degrees queue ordered v :
  kahn_inv degrees queue ordered → ready N R ordered v ↔ v ∈ queue.
Proof.
  intros [Hnd _ Hr _ _]. apply NoDup_app in Hnd as (_ & Hd & _). split.
  - intros (Hv & Hno & Hp). assert (v ∈ ordered ++ queue) as Hin by (apply Hr; split; [done|by apply deg_zero]).
    by apply elem_of_app in Hin as [|].
  - intros Hv. destruct (proj1 (Hr v)) as [HN H0]; [set_solver|]. split_and!; [done| |].
    + intros Hin. by apply (Hd v).
    + by apply deg_zero.
Qed.

Lemma kahn_inv_step degrees cur queue ordered :
  kahn_inv degrees (cur :: queue) ordered →
  let '(degrees', queue') :=
    foldl release (degrees, queue) (sort_strings (default [] (adj !! cur))) in
  kahn_inv degrees' (sort_strings queue') (ordered ++ [cur]).
Proof.
  intros Hinv. pose proof Hinv as [Hnd Hdeg Hr Hs Hg].
  pose proof (release_spec _ degrees queue (children_NoDup cur)) as Hrel.
  destruct (foldl release _ _) as [degrees' queue']. destruct Hrel as [Hdeg' ->].
  set (fresh := filter _ _).
  assert (cur ∉ ordered) as Hcur.
  { apply NoDup_app in Hnd as (_ & Hd & _). intros Hin. apply (Hd cur Hin). left. }
  assert (∀ v, deg E (ordered ++ [cur]) v =
            deg E ordered v - (if decide ((cur, v) ∈ E) then 1 else 0)) as Hplace.
  { intros v. by apply deg_place. }
  assert (∀ v, v ∈ fresh ↔ (cur, v) ∈ E ∧ deg E (ordered ++ [cur]) v = 0) as Hfresh.
  { intros v. unfold fresh. rewrite list_elem_of_filter, children_spec. split.
    - intros [H0 Hin]. split; [done|]. rewrite Hplace, decide_True by done.
      rewrite Hdeg, decide_True in H0 by eauto. done.
    - intros [Hin H0]. split; [|done]. rewrite Hplace, decide_True in H0 by done.
      rewrite Hdeg, decide_True by eauto. done. }
  assert (∀ v, (cur, v) ∈ E → v ∉ ordered ++ cur :: queue) as Hnew.
  { intros v Hv [_ H0]%Hr. by apply Hcur, (proj1 (deg_zero E ordered v) H0). }
  split.
  - rewrite sort_strings_perm, <-app_assoc. simpl. rewrite app_comm_cons, app_assoc.
    apply NoDup_app. split_and!; [done| |].
    + intros v Hv [Hc _]%Hfresh. by apply (Hnew v).
    + apply NoDup_filter, children_NoDup.
  - intros v. rewrite Hdeg', Hplace, Hdeg.
    destruct (decide (v ∈ sort_strings _)) as [Hc|Hc]; rewrite children_spec in Hc.
    + rewrite !decide_True by eauto. done.
    + rewrite (decide_False _ _ Hc). destruct (decide (v ∈ N)); [f_equal; lia|done].
  - intros v. rewrite sort_strings_perm, <-app_assoc. simpl. rewrite app_comm_cons, app_assoc.
    rewrite elem_of_app, Hr, Hfresh, Hplace. destruct (decide ((cur, v) ∈ E)) as [Hc|Hc].
    + split; [intros [[HN H0]|[_ H0]]|intros [_ ?]; by right].
      * by destruct (Hnew v Hc); apply Hr.
      * split; eauto.
    + rewrite Z.sub_0_r. split; [|by left]. by intros [?|[? _]].
  - apply sort_strings_sorted.
  - intros l1 v l2 Hl. destruct (decide (l2 = [])) as [->|Hne].
    + apply app_inj_tail in Hl as [<- <-]. split.
      * apply (kahn_inv_ready _ _ _ _ Hinv). left.
      * intros w Hw. apply (kahn_inv_ready _ _ _ _ Hinv) in Hw.
        inversion Hs as [|? ? _ Hall]; subst. apply elem_of_cons in Hw as [->|Hw]; [done|].
        rewrite Forall_forall in Hall. by apply Hall.
    + destruct (exists_last Hne) as (l3 & x & ->).
      rewrite app_comm_cons, app_assoc in Hl. apply app_inj_tail in Hl as [-> _]. by apply (Hg l1 v l3).
Qed.

(** The loop stops with an empty queue: every iteration places a vertex. *)
Lemma kahn_spec fuel degrees queue ordered :
  kahn_inv degrees queue ordered → (size N ≤ fuel + length ordered)%nat →
  ∃ l degrees', kahn fuel adj degrees queue ordered = (l, []) ∧ kahn_inv degrees' [] l.
Proof.
  revert degrees queue ordered; induction fuel as [|fuel IH]; intros degrees queue ordered Hinv Hf.
  - destruct queue as [|cur queue]; [simpl; eauto|].
    pose proof Hinv as [Hnd _ Hr _ _].
    assert (list_to_set (ordered ++ cur :: queue) ⊆ N) as Hsub%subseteq_size.
    { intros v Hv%elem_of_list_to_set. by apply Hr. }
    rewrite size_list_to_set, length_app in Hsub by done. simpl in Hsub. lia.
  - destruct queue as [|cur queue]; [simpl; eauto|].
    pose proof (kahn_inv_step _ _ _ _ Hinv) as Hstep. simpl.
    destruct (foldl release _ _) as [degrees' queue'].
    apply (IH _ _ _ Hstep). rewrite length_app. simpl. lia.
Qed.

Lemma kahn_inv_exhausted degrees l : kahn_inv degrees [] l → exhausted N R l.
Proof. intros Hinv w Hw%(kahn_inv_ready _ _ _ _ Hinv). by apply elem_of_nil in Hw. Qed.
End Kahn.

(** ** The graph [build_graph] makes *)

Lemma edge_key_inj u v u' v' :
  Contains u "->" = false → Contains u' "->" = false →
  edge_key u v = edge_key u' v' → u = u' ∧ v = v'.
Proof.
  unfold edge_key. revert u'; induction u as [|c u IH]; intros [|c' u'] Hu Hu' Heq;
    rewrite ?append_nil, ?append_cons in Heq.
  - simplify_eq. done.
  - change ("->" +:+ v) with (String "-" (String ">" v)) in Heq.
    injection Heq as <- Heq. destruct u' as [|d u'].
    + done.
    + rewrite append_cons in Heq. injection Heq as <- Heq. by destruct u'.
  - change ("->" +:+ v') with (String "-" (String ">" v')) in Heq.
    injection Heq as -> Heq. destruct u as [|d u].
    + done.
    + rewrite append_cons in Heq. injection Heq as -> Heq. by destruct u.
  - injection Heq as <- Heq. cbn [Contains] in Hu, Hu'.
    apply orb_false_iff in Hu as [_ Hu], Hu' as [_ Hu'].
    destruct (IH u') as [-> ->]; done.
Qed.

Lemma NoDup_fst_filter {A B} (P : A * B → Prop) `{∀ x, Decision (P x)} (l : list (A * B)) :
  NoDup l.*1 → NoDup (filter P l).*1.
Proof.
  induction l as [|x l IH]; [done|]. rewrite filter_cons, fmap_cons. inversion_clear 1 as [|? ? Hx Hl].
  case_decide; [|by apply IH]. rewrite fmap_cons. constructor; [|by apply IH].
  rewrite list_elem_of_fmap in *. intros (y & Hxy & [_ Hy]%list_elem_of_filter). eauto.
Qed.

Lemma initial_degrees_lookup rs v :
  initial_degrees rs !! v = if decide (v ∈ ids rs) then Some 0 else None.
Proof.
  unfold initial_degrees, ids.
  assert (∀ (m : gmap string Z), (∀ w, is_Some (m !! w) → m !! w = Some 0) →
    foldl (λ m r, <[r_ID r := 0]> m) m rs !! v =
      if decide (v ∈ (list_to_set (r_ID <$> rs) : gset string)) then Some 0 else m !! v) as H.
  { induction rs as [|r rs IH]; intros m Hm; cbn [foldl]; [done|]. rewrite IH.
    - rewrite fmap_cons, list_to_set_cons.
      destruct (decide (v = r_ID r)) as [->|Hne].
      + rewrite lookup_insert_eq. rewrite (decide_True (P := r_ID r ∈ _ ∪ _)) by set_solver.
        by case_decide.
      + rewrite lookup_insert_ne by done.
        by rewrite (decide_ext (v ∈ {[r_ID r]} ∪ list_to_set (r_ID <$> rs))
                      (v ∈ (list_to_set (r_ID <$> rs) : gset string))) by set_solver.
    - intros w. rewrite lookup_insert. destruct (decide (r_ID r = w)); [done|apply Hm]. }
  rewrite H by (intros w [? Hw]; by rewrite lookup_empty in Hw). by rewrite lookup_empty.
Qed.

Section BuildGraph.
Context (N : gset string).

Record graph_inv (L E : list (string * string)) (g : depgraph) : Prop := {
  gi_nodup : NoDup E;
  gi_mem : ∀ u v, (u, v) ∈ E ↔ (u, v) ∈ L ∧ blank u = false ∧ blank v = false;
  gi_keys : ∀ k, k ∈ edgeSet g ↔ ∃ u v, (u, v) ∈ E ∧ k = edge_key u v;
  gi_adj : ∀ u, default [] (graph g !! u) = (filter (λ e, e.1 = u) E).*2;
  gi_deg : ∀ v, inDegree g !! v = if decide (v ∈ N) then Some (deg E [] v) else None;
}.

Lemma addEdge_inv L E g u v :
  graph_inv L E g → v ∈ N → Contains u "->" = false →
  (∀ a b, (a, b) ∈ L → Contains a "->" = false) →
  ∃ E', graph_inv (L ++ [(u, v)]) E' (addEdge g (u, v)).
Proof.
  intros [Hnd Hmem Hk Ha Hd] Hv Hu HL. unfold addEdge.
  destruct (blank u || blank v) eqn:Hb.
  { exists E. split; [done| |done..]. intros a b. rewrite Hmem, elem_of_app, list_elem_of_singleton.
    split; [naive_solver|]. intros ([?|[= -> ->]] & Hx & Hy); [done|]. by rewrite Hx, Hy in Hb. }
  apply orb_false_iff in Hb as [Hbu Hbv].
  destruct (decide (edge_key u v ∈ edgeSet g)) as [Hin|Hout].
  { exists E. split; [done| |done..]. intros a b. rewrite Hmem, elem_of_app, list_elem_of_singleton.
    split; [naive_solver|]. intros ([?|[= -> ->]] & Hx & Hy); [done|].
    apply Hk in Hin as (a & b & Hab & Heq). apply Hmem in Hab as (Hab & _).
    destruct (edge_key_inj u v a b) as [-> ->]; eauto. }
  assert ((u, v) ∉ E) as Hnew by (intros Hin; apply Hout, Hk; eauto).
  exists (E ++ [(u, v)]). split; simpl.
  - apply NoDup_app. split_and!; [done|set_solver|apply NoDup_singleton].
  - intros a b. rewrite !elem_of_app, Hmem, !list_elem_of_singleton.
    split; [intros [?|[= -> ->]]; naive_solver|]. naive_solver.
  - intros k. rewrite elem_of_union, elem_of_singleton, Hk. setoid_rewrite elem_of_app.
    setoid_rewrite list_elem_of_singleton. naive_solver.
  - intros w. rewrite lookup_insert, filter_app, fmap_app, filter_cons. simpl.
    destruct (decide (u = w)) as [->|Hne]; simpl; [by rewrite Ha|by rewrite app_nil_r].
  - intros w. rewrite lookup_insert, deg_snoc. simpl. destruct (decide (v = w)) as [->|Hne].
    + rewrite Hd, !decide_True by (done || set_solver). done.
    + rewrite Hd. case_decide; [|done]. rewrite decide_False by naive_solver. f_equal; lia.
Qed.

Lemma build_graph_inv L g :
  graph_inv [] [] g → (∀ u v, (u, v) ∈ L → v ∈ N ∧ Contains u "->" = false) →
  ∃ E, graph_inv L E (foldl addEdge g L).
Proof.
  intros Hg. induction L as [|[u v] L IH] using rev_ind; intros HL; [by exists []|].
  destruct IH as [E HE]; [set_solver|]. rewrite foldl_app.
  destruct (HL u v) as [??]; [set_solver|].
  apply addEdge_inv with E; [done..|]. intros a b Hab. apply (HL a b). set_solver.
Qed.
End BuildGraph.

Lemma initial_queue_spec degrees v : v ∈ initial_queue degrees ↔ degrees !! v = Some 0.
Proof.
  unfold initial_queue. rewrite elem_of_sort_strings, list_elem_of_fmap. split.
  - intros ([w d] & -> & [Hd Hin]%list_elem_of_filter). simpl in *. subst.
    by apply elem_of_map_to_list in Hin.
  - intros Hv. exists (v, 0). split; [done|]. apply list_elem_of_filter. split; [done|].
    by apply elem_of_map_to_list.
Qed.

(** [kahn_order] ends with an empty queue and the greedy order of the graph. *)
Lemma kahn_order_spec rs :
  plannable rs → arrow_free rs →
  ∃ l, kahn_order rs = (l, []) ∧ greedy (ids rs) (edge rs) l ∧ exhausted (ids rs) (edge rs) l.
Proof.
  intros [Hids Hrefs] Harrow. set (N := ids rs).
  assert (∀ u, u ∈ N → Contains u "->" = false) as Hfree.
  { intros u Hu. unfold N, ids in Hu. rewrite elem_of_list_to_set, list_elem_of_fmap in Hu.
    destruct Hu as (r & -> & Hr). by eapply Forall_forall in Harrow. }
  assert (∀ v, initial_degrees rs !! v = if decide (v ∈ N) then Some (deg [] [] v) else None) as H0
    by apply initial_degrees_lookup.
  destruct (build_graph_inv N (rs ≫= resource_edges) (mkDepgraph (initial_degrees rs) ∅ ∅))
    as [E [HE Hmem _ Hadj Hdeg]].
  { split; simpl; [constructor|set_solver|set_solver| |done]. intros u. by rewrite lookup_empty. }
  { intros u v Huv. destruct (Hrefs u v Huv). split; [done|]. by apply Hfree. }
  fold (build_graph rs) in *. unfold kahn_order.
  set (g := build_graph rs) in *.
  assert (∀ u v, (u, v) ∈ E → v ∈ N) as Htgt.
  { intros u v (Hin & _)%Hmem. by apply (Hrefs u v). }
  assert (dom (inDegree g) = N) as Hdom.
  { apply set_eq. intros v. rewrite elem_of_dom, Hdeg. case_decide; split; done || by intros [? ?]. }
  destruct (kahn_spec N E (graph g) HE Htgt) with (fuel := size (inDegree g))
    (degrees := inDegree g) (queue := initial_queue (inDegree g)) (ordered := @nil string)
    as (l & degrees' & Hl & Hinv).
  { intros u. by rewrite Hadj. }
  { split; simpl.
    - apply NoDup_sort_strings, NoDup_fst_filter, NoDup_fst_map_to_list.
    - done.
    - intros v. rewrite initial_queue_spec, Hdeg.
      destruct (decide (v ∈ N)); (split; [intros [=]; by split|]); [intros [? Hz]|by intros [? _]].
      by f_equal.
    - apply sort_strings_sorted.
    - intros l1 v l2 Heq. by destruct l1. }
  { rewrite <-Hdom, size_dom. lia. }
  assert (∀ u, default [] (graph g !! u) ≡ₚ (filter (λ e, e.1 = u) E).*2) as Hperm
    by (intros u; by rewrite Hadj).
  exists l. split_and!; [done| |].
  - eapply (greedy_ext N _ N); [done| |exact (ki_greedy _ _ _ _ _ Hinv)]. intros u v. apply Hmem.
  - intros w Hw. apply (kahn_inv_exhausted N E (graph g) HE Htgt Hperm _ _ Hinv w).
    destruct Hw as (? & ? & Hp). split_and!; [done..|]. intros u Hu%Hmem. by apply Hp.
Qed.

(** ** Facts about the resources of a plan *)

Lemma elem_of_ids rs v : v ∈ ids rs ↔ ∃ r, r ∈ rs ∧ r_ID r = v.
Proof. unfold ids. rewrite elem_of_list_to_set, list_elem_of_fmap. naive_solver. Qed.

Lemma id_to_res_lookup rs r :
  NoDup (r_ID <$> rs) → r ∈ rs → id_to_res rs !! r_ID r = Some r.
Proof.
  unfold id_to_res. generalize (∅ : gmap string Resource).
  induction rs as [|r' rs IH]; intros m Hnd Hr; [by apply elem_of_nil in Hr|].
  rewrite fmap_cons in Hnd. apply NoDup_cons in Hnd as [Hn Hnd]. cbn [foldl].
  apply elem_of_cons in Hr as [<-|Hr]; [|by apply IH]. clear IH Hnd.
  assert (∀ m' : gmap string Resource, m' !! r_ID r = Some r →
    foldl (λ m r, <[r_ID r := r]> m) m' rs !! r_ID r = Some r) as H.
  { clear m. induction rs as [|r' rs IH]; intros m' Hm; cbn [foldl]; [done|].
    rewrite fmap_cons in Hn. apply IH; [set_solver|].
    rewrite lookup_insert_ne; [done|]. set_solver. }
  apply H, lookup_insert_eq.
Qed.

Lemma greedy_full rs l :
  plannable rs → greedy (ids rs) (edge rs) l →
  length l = length rs ↔ (∀ v, v ∈ ids rs → v ∈ l).
Proof.
  intros Hp Hg. pose proof (greedy_NoDup _ _ _ Hg) as Hnd.
  assert (size (ids rs) = length rs) as Hsize.
  { unfold ids. rewrite size_list_to_set by apply Hp. apply length_fmap. }
  assert (list_to_set l ⊆ ids rs) as Hsub.
  { intros v Hv%elem_of_list_to_set. by eapply greedy_elem. }
  split.
  - intros Hlen v Hv. assert (list_to_set l = ids rs) as Heq.
    { apply set_subseteq_size_eq; [done|]. rewrite size_list_to_set by done. lia. }
    rewrite <-Heq in Hv. by apply elem_of_list_to_set in Hv.
  - intros Hall. assert (ids rs = list_to_set l) as Heq by set_solver.
    rewrite <-Hsize, Heq. by rewrite size_list_to_set.
Qed.

#[export] Instance edge_dec rs u v : Decision (edge rs u v).
Proof. unfold edge. apply _. Defined.

Lemma edge_source rs u v : plannable rs → edge rs u v → u ∈ ids rs ∧ v ∈ ids rs.
Proof. intros Hp (Hin & _). by apply Hp. Qed.

Lemma full_or_cycle rs l :
  plannable rs → greedy (ids rs) (edge rs) l → exhausted (ids rs) (edge rs) l →
  length l = length rs ∨ ∃ v, tc (edge rs) v v.
Proof.
  intros Hp Hg He.
  assert (∀ v, (∀ u, edge rs u v → u ∈ l) ∨ ∃ u, edge rs u v ∧ u ∉ l) as Hdec.
  { intros v. set (X := filter (λ u, u ∉ l ∧ edge rs u v) (elements (ids rs))).
    destruct X as [|u X'] eqn:HX; subst X.
    - left. intros u Hu. destruct (decide (u ∈ l)) as [|Hn]; [done|].
      assert (u ∈ filter (λ u, u ∉ l ∧ edge rs u v) (elements (ids rs))) as Hin.
      { apply list_elem_of_filter. split; [done|]. apply elem_of_elements.
        by apply (edge_source rs u v). }
      rewrite HX in Hin. by apply elem_of_nil in Hin.
    - right. exists u. assert (u ∈ u :: X') as Hin by left. rewrite <-HX in Hin.
      by apply list_elem_of_filter in Hin as [[??] _]. }
  destruct (exhausted_complete_or_cycle (ids rs) (edge rs) l) as [Hc|Hc]; [..|by right].
  - intros u v Huv. by apply (edge_source rs u v).
  - intros v. destruct (decide (Forall (λ u, edge rs u v → u ∈ l) (elements (ids rs))))
      as [Hall|Hall].
    + left. intros u Hu. rewrite Forall_forall in Hall. apply Hall; [|done].
      apply elem_of_elements. by apply (edge_source rs u v).
    + right. intros Hu. apply Hall, Forall_forall. auto.
  - intros v _ Hno. destruct (Hdec v) as [Hall|Hex]; [by destruct Hno|done].
  - done.
  - left. by apply (greedy_full _ _ Hp).
Qed.

(** The resource and the host a step gets from its id. *)
Lemma plan_steps_lookup cfg l i s :
  plan_steps cfg l !! i = Some s ↔
  ∃ id, l !! i = Some id ∧
    s = make_step (host_by_name (c_Inventory cfg)) (Z.of_nat i + 1)
          (default zeroResource (id_to_res (c_Resources cfg) !! id)).
Proof.
  unfold plan_steps. rewrite list_lookup_imap. destruct (l !! i); simpl; naive_solver.
Qed.

Lemma plan_steps_ids cfg l :
  NoDup (r_ID <$> c_Resources cfg) → (∀ v, v ∈ l → v ∈ ids (c_Resources cfg)) →
  (λ s, r_ID (s_Resource s)) <$> plan_steps cfg l = l.
Proof.
  intros Hnd Hl. apply list_eq. intros i. rewrite list_lookup_fmap. unfold plan_steps.
  rewrite list_lookup_imap. destruct (l !! i) as [v|] eqn:Hv; simpl; [|done].
  destruct (proj1 (elem_of_ids (c_Resources cfg) v)) as (r & Hr & <-).
  { apply Hl. by eapply list_elem_of_lookup_2. }
  by rewrite id_to_res_lookup.
Qed.

Lemma plan_steps_perm cfg l :
  NoDup (r_ID <$> c_Resources cfg) → NoDup l → (∀ v, v ∈ l ↔ v ∈ ids (c_Resources cfg)) →
  s_Resource <$> plan_steps cfg l ≡ₚ c_Resources cfg.
Proof.
  intros Hnd Hndl Hl.
  pose proof (plan_steps_ids cfg l Hnd ltac:(intros v; apply Hl)) as Hids.
  assert (∀ s, s ∈ plan_steps cfg l → s_Resource s ∈ c_Resources cfg) as Hin.
  { intros s (i & (id & Hid & ->)%plan_steps_lookup)%list_elem_of_lookup. simpl.
    destruct (proj1 (elem_of_ids (c_Resources cfg) id)) as (r & Hr & <-).
    { apply Hl. by eapply list_elem_of_lookup_2. }
    by rewrite id_to_res_lookup. }
  apply NoDup_Permutation.
  - apply (NoDup_fmap_1 r_ID). rewrite <-list_fmap_compose. unfold compose. by rewrite Hids.
  - by apply (NoDup_fmap_1 r_ID).
  - intros r. rewrite list_elem_of_fmap. split; [intros (s & -> & Hs); auto|]. intros Hr.
    assert (r_ID r ∈ l) as Hrl by (apply Hl, elem_of_ids; eauto).
    rewrite <-Hids in Hrl. apply list_elem_of_fmap in Hrl as (s & Heq & Hs). exists s.
    split; [|done]. specialize (Hin s Hs).
    pose proof (id_to_res_lookup _ _ Hnd Hr) as H1. rewrite Heq, (id_to_res_lookup _ _ Hnd Hin) in H1.
    congruence.
Qed.

Lemma Build_inv cfg :
  plannable (c_Resources cfg) → arrow_free (c_Resources cfg) →
  ∃ l, greedy (ids (c_Resources cfg)) (edge (c_Resources cfg)) l ∧
    exhausted (ids (c_Resources cfg)) (edge (c_Resources cfg)) l ∧
    Build cfg = if decide (length l = length (c_Resources cfg)) then
      Ok (mkPlan (c_Execution cfg) (plan_steps cfg l)
            (plan_handlers cfg (length (plan_steps cfg l))))
    else Err ErrCycle.
Proof.
  intros Hp Ha. destruct (kahn_order_spec _ Hp Ha) as (l & Hl & Hg & He). exists l.
  split_and!; [done..|]. unfold Build. rewrite Hl.
  destruct (Nat.eqb_spec (length l) (length (c_Resources cfg))); simpl.
  - by rewrite decide_True.
  - by rewrite decide_False.
Qed.

Lemma Build_sound cfg p :
  plannable (c_Resources cfg) → arrow_free (c_Resources cfg) → Build cfg = Ok p →
  s_Resource <$> p_Steps p ≡ₚ c_Resources cfg ∧
  (∀ u v, edge (c_Resources cfg) u v →
     precedes ((λ s, r_ID (s_Resource s)) <$> p_Steps p) u v) ∧
  (∀ i s, p_Steps p !! i = Some s →
     s_Order s = Z.of_nat i + 1 ∧
     s_Host s = default zeroHost (host_by_name (c_Inventory cfg) !! exec_host (s_Resource s))).
Proof.
  intros Hp Ha HB. destruct (Build_inv cfg Hp Ha) as (l & Hg & He & Heq).
  rewrite Heq in HB. case_decide as Hlen; [|done]. injection HB as <-. simpl.
  pose proof (proj1 (greedy_full _ _ Hp Hg) Hlen) as Hall.
  assert (∀ v, v ∈ l ↔ v ∈ ids (c_Resources cfg)) as Hl.
  { intros v. split; [by eapply greedy_elem|auto]. }
  split_and!.
  - apply plan_steps_perm; [apply Hp|by eapply greedy_NoDup|done].
  - intros u v Huv. rewrite plan_steps_ids by (apply Hp || (intros; by apply Hl)).
    eapply greedy_precedes; [done..|]. apply Hl. by apply (edge_source _ u v).
  - intros i s (id & _ & ->)%plan_steps_lookup. done.
Qed.

(** ** Theorems *)

(** C1: a plan runs every resource exactly once, after everything it depends on,
    requires, subscribes to, or that declares [before]/[notify] on it; steps are
    numbered from 1 and carry the resolved host of the resource. *)
Theorem Build_respects_dependencies cfg p :
  plannable (c_Resources cfg) → arrow_free (c_Resources cfg) → Build cfg = Ok p →
  s_Resource <$> p_Steps p ≡ₚ c_Resources cfg ∧
  (∀ u v, edge (c_Resources cfg) u v →
     precedes ((λ s, r_ID (s_Resource s)) <$> p_Steps p) u v) ∧
  (∀ i s, p_Steps p !! i = Some s →
     s_Order s = Z.of_nat i + 1 ∧
     s_Host s = default zeroHost (host_by_name (c_Inventory cfg) !! exec_host (s_Resource s))).
Proof. apply Build_sound. Qed.

Lemma Build_cycle cfg :
  plannable (c_Resources cfg) → arrow_free (c_Resources cfg) →
  Build cfg = Err ErrCycle ↔ ∃ v, tc (edge (c_Resources cfg)) v v.
Proof.
  intros Hp Ha. destruct (Build_inv cfg Hp Ha) as (l & Hg & He & ->). case_decide as Hlen.
  - split; [done|]. intros [v Hv]. exfalso.
    refine (complete_acyclic _ _ l Hg _ v Hv). intros a b Hab.
    apply (proj1 (greedy_full _ _ Hp Hg) Hlen). by apply (edge_source _ a b).
  - split; [|done]. intros _. by destruct (full_or_cycle _ _ Hp Hg He).
Qed.

(** C2: on resources with distinct ids and resolved references, whose ids do not
    contain [->], [Build] fails exactly when the dependencies form a cycle.  (For
    ids with [->] it does not: [Build_arrow_ids_lose_edge].) *)
Theorem Build_fails_iff_cycle cfg :
  plannable (c_Resources cfg) → arrow_free (c_Resources cfg) →
  Build cfg = Err ErrCycle ↔ ∃ v, tc (edge (c_Resources cfg)) v v.
Proof. apply Build_cycle. Qed.

(** Configurations with the same ids and edges are planned in the same order. *)
Lemma Build_same_order cfg cfg' :
  plannable (c_Resources cfg) → arrow_free (c_Resources cfg) →
  plannable (c_Resources cfg') → arrow_free (c_Resources cfg') →
  ids (c_Resources cfg') = ids (c_Resources cfg) → length (c_Resources cfg') = length (c_Resources cfg) →
  (∀ x, x ∈ c_Resources cfg' ≫= resource_edges ↔ x ∈ c_Resources cfg ≫= resource_edges) →
  ∃ l, Forall (λ id, id ∈ ids (c_Resources cfg)) l ∧ ∀ c, c = cfg ∨ c = cfg' →
    Build c = if decide (length l = length (c_Resources cfg)) then
      Ok (mkPlan (c_Execution c) (plan_steps c l) (plan_handlers c (length (plan_steps c l))))
    else Err ErrCycle.
Proof.
  intros Hp Ha Hp' Ha' Hids Hlen Hedges.
  destruct (Build_inv cfg Hp Ha) as (l & Hg & He & HB). destruct (Build_inv cfg' Hp' Ha') as (l' & Hg' & He' & HB').
  assert (l' = l) as ->.
  { apply (greedy_unique (ids (c_Resources cfg)) (edge (c_Resources cfg))); [|done| |done].
    - eapply greedy_ext; [exact Hids| |exact Hg']. intros u v. unfold edge. by rewrite Hedges.
    - intros w (HN & Hno & Hr). apply (He' w). rewrite Hids.
      split_and!; [done..|]. intros u (Hu & ? & ?). apply Hr. split_and!; [|done..]. by apply Hedges. }
  exists l. split; [apply Forall_forall; intros id; by apply (greedy_elem _ _ _ _ Hg)|].
  intros c [-> | ->]; [exact HB|]. by rewrite HB', Hlen.
Qed.

Lemma id_to_res_Permutation rs rs' : NoDup (r_ID <$> rs) → rs ≡ₚ rs' → id_to_res rs = id_to_res rs'.
Proof.
  intros Hnd Hperm. unfold id_to_res. rewrite !(foldl_insert_keys r_ID (λ r, r)) by (done || by rewrite <-Hperm).
  apply list_to_map_proper; [|by rewrite Hperm]. by rewrite <-list_fmap_compose.
Qed.

(** The plan does not depend on the order in which resources are declared. *)
Theorem Build_declaration_order cfg rs :
  plannable (c_Resources cfg) → arrow_free (c_Resources cfg) → c_Resources cfg ≡ₚ rs →
  Build (cfg <| c_Resources := rs |>) = Build cfg.
Proof.
  intros Hp Ha Hperm. set (cfg' := cfg <| c_Resources := rs |>).
  assert (ids rs = ids (c_Resources cfg)) as Hids.
  { apply set_eq. intros v. rewrite !elem_of_ids. by setoid_rewrite Hperm. }
  assert (∀ x, x ∈ rs ≫= resource_edges ↔ x ∈ c_Resources cfg ≫= resource_edges) as Hedges.
  { intros x. rewrite !list_elem_of_bind. by setoid_rewrite Hperm. }
  assert (plannable (c_Resources cfg')) as Hp'.
  { split; simpl; [rewrite <-Hperm; apply Hp|]. intros u v Huv%Hedges. rewrite Hids. by apply Hp. }
  assert (arrow_free (c_Resources cfg')) as Ha'.
  { unfold arrow_free in *. simpl. by rewrite <-Hperm. }
  destruct (Build_same_order cfg cfg' Hp Ha Hp' Ha' Hids) as (l & _ & HB); [by symmetry; apply Permutation_length|done|].
  rewrite (HB cfg'), (HB cfg) by auto. case_decide; [|done].
  assert (plan_steps cfg' l = plan_steps cfg l) as ->; [|done].
  unfold plan_steps, cfg'; simpl. by rewrite (id_to_res_Permutation _ _ (pl_nodup _ Hp) Hperm).
Qed.

(** ** A configuration whose ids contain ["->"]

    The edge set is keyed by [from + "->" + to], which is not injective: the
    edges [z -> b->c] and [z->b -> c] have the same key, the second one met is
    dropped, and the plan runs a resource before its dependency. *)

Definition command_on (host id : string) (deps : list string) : Resource :=
  zeroResource <| r_ID := id |> <| r_Type := "command" |> <| r_Host := host |>
    <| r_Command := "true" |> <| r_DependsOn := deps |>.

Definition local_host (name : string) : Host :=
  zeroHost <| h_Name := name |> <| h_Transport := "local" |>.

Definition config_of (hosts : list string) (rs : list Resource) : Config :=
  zeroConfig <| c_Version := "v0" |> <| c_Inventory := local_host <$> hosts |>
    <| c_Resources := rs |>.

Definition arrow_config : Config :=
  config_of ["h"] [command_on "h" "c" ["z->b"]; command_on "h" "b->c" ["z"];
                   command_on "h" "z" []; command_on "h" "z->b" []].

Definition plannableb (rs : list Resource) : bool :=
  bool_decide (NoDup (r_ID <$> rs)) &&
  forallb (λ e, bool_decide (e.1 ∈ ids rs ∧ e.2 ∈ ids rs)) (rs ≫= resource_edges).

Lemma plannableb_spec rs : plannableb rs = true → plannable rs.
Proof.
  unfold plannableb. intros [Hnd Hrefs]%andb_true_iff. split.
  - by apply bool_decide_eq_true in Hnd.
  - intros u v Huv. rewrite forallb_forall in Hrefs.
    specialize (Hrefs (u, v)). rewrite <-list_elem_of_In in Hrefs.
    by apply bool_decide_eq_true in Hrefs.
Qed.

(** The plan of a configuration, the empty plan when [Build] fails. *)
Definition plan_or_empty (cfg : Config) : Plan :=
  match Build cfg with Ok p => p | Err _ => mkPlan zeroExecution [] ∅ end.
Definition plan_ids (p : Plan) : list string := (λ s, r_ID (s_Resource s)) <$> p_Steps p.

(** A three-step configuration: [c] before [a], [b] requires [a]. *)
Definition demo_config : Config :=
  config_of ["h"] [command_on "h" "b" ["a"]; command_on "h" "a" [];
                   (command_on "h" "c" []) <| r_Before := ["a"] |>].
Definition loop_config : Config :=
  config_of ["h"] [command_on "h" "a" ["b"]; command_on "h" "b" ["a"]].

Lemma Build_respects_dependencies_witness :
  Build demo_config = Ok (plan_or_empty demo_config) ∧
  plan_ids (plan_or_empty demo_config) = ["c"; "a"; "b"] ∧
  precedes (plan_ids (plan_or_empty demo_config)) "c" "a".
Proof.
  split_and!; [by vm_compute|by vm_compute|].
  assert (plannable (c_Resources demo_config)) as Hp by (apply plannableb_spec; by vm_compute).
  assert (arrow_free (c_Resources demo_config)) as Ha by (repeat constructor).
  destruct (Build_respects_dependencies demo_config (plan_or_empty demo_config) Hp Ha)
    as (_ & Hprec & _); [by vm_compute|].
  apply Hprec. apply (bool_decide_unpack _). by vm_compute.
Defined.

Lemma Build_fails_iff_cycle_witness :
  Build loop_config = Err ErrCycle ∧ ∃ v, tc (edge (c_Resources loop_config)) v v.
Proof.
  assert (plannable (c_Resources loop_config)) as Hp by (apply plannableb_spec; by vm_compute).
  assert (arrow_free (c_Resources loop_config)) as Ha by (repeat constructor).
  assert (Build loop_config = Err ErrCycle) as Hb by by vm_compute.
  split; [done|]. by apply (Build_fails_iff_cycle loop_config Hp Ha).
Defined.

Lemma Build_declaration_order_witness :
  Build (demo_config <| c_Resources := reverse (c_Resources demo_config) |>) = Build demo_config.
Proof.
  assert (plannable (c_Resources demo_config)) as Hp by (apply plannableb_spec; by vm_compute).
  assert (arrow_free (c_Resources demo_config)) as Ha by (repeat constructor).
  apply (Build_declaration_order demo_config _ Hp Ha). by rewrite reverse_Permutation.
Defined.
