(* ===== verification/Validate.v ===== *)
(** * Validation and normalisation: [internal/config/validate.go]

    [Validate] checks a configuration and rewrites it in place to a normal
    form.  It is a function from a configuration to an error or the rewritten
    configuration.  [well_formed] says what an accepted configuration is; a
    well-formed configuration is accepted unchanged. *)

From S2P Require Import Prelude Model Planner.

(** ** Errors *)

(** The noun the messages start with. *)
Inductive owner := OwnerResource | OwnerHandler.

Inductive config_error :=
  | VersionRequired
  | BadStrategy
  | NegativeSerial
  | BadMaxFailPercentage
  | BadFailureDomain
  | HostNameRequired (i : nat)
  | DuplicateHost (name : string)
  | UnsupportedTransport (host transport : string)
  | InvalidPort (host : string) (port : Z)
  | InvalidJumpPort (host : string) (port : Z)
  | UnsupportedCapability (host cap : string)
  | IdRequired (o : owner) (i : nat)
  | DuplicateId (o : owner) (id : string)
  | UnknownHost (o : owner) (id host : string)
  | UnknownDelegate (o : owner) (id host : string)
  | MatrixEmptyKey (o : owner) (id : string)
  | MatrixNoValue (o : owner) (id key : string)
  | LoopVarNotSimple (o : owner) (id var : string)
  | LoopVarConflict (o : owner) (id var : string)
  | HandlerRelations (id : string)
  | FieldError (o : owner) (id what : string)
  | UnsupportedType (o : owner) (id type : string)
  | UnknownRef (id relation target : string)
  | RefreshOnlyUntriggered (id : string).

Abbreviation check := (result config_error).

(** ** Execution policy *)

Definition validate_execution (e : Execution) : check Execution :=
  let? _ := fail_if (negb (one_of (norm (e_Strategy e)) [""; "linear"; "free"; "serial"]))
              BadStrategy in
  let? _ := fail_if (e_Serial e <? 0) NegativeSerial in
  let? _ := fail_if ((e_MaxFailPercentage e <? 0) || (100 <? e_MaxFailPercentage e))
              BadMaxFailPercentage in
  let e := e <| e_FailureDomain := norm (e_FailureDomain e) |> in
  let? _ := fail_if (negb (one_of (e_FailureDomain e) [""; "rack"; "zone"; "region"]))
              BadFailureDomain in
  Ok e.

(** ** Hosts *)

Definition transport_ok (t : string) : bool :=
  one_of t ["local"; "ssh"; "winrm"; "auto"] || HasPrefix (norm t) "plugin/".

(** The capability loop: unknown capabilities are an error, duplicates are dropped. *)
Fixpoint clean_caps (host : string) (seen : gset string) (l : list string)
    : check (list string) :=
  match l with
  | [] => Ok []
  | x :: l' =>
      let cap := norm x in
      if eqs cap "" then clean_caps host seen l'
      else
        let? _ := fail_if (negb (one_of cap ["local"; "ssh"; "winrm"]))
                    (UnsupportedCapability host cap) in
        if decide (cap ∈ seen) then clean_caps host seen l'
        else let? rest := clean_caps host ({[cap]} ∪ seen) l' in Ok (cap :: rest)
  end.

(** [for k, v := range m { key := norm(k); ...; out[key] = TrimSpace(v) }] *)
Definition normalize_labels (m : gmap string string) : gmap string string :=
  foldl (λ out kv,
           let key := norm kv.1 in
           if eqs key "" then out else <[key := TrimSpace kv.2]> out) ∅ (map_to_list m).

Definition port_ok (p : Z) : bool := (0 <=? p) && (p <=? 65535).

Definition validate_host (h : Host) : check Host :=
  let name := h_Name h in
  let orig := h_Transport h in
  let h := if eqs (h_Transport h) "" then h <| h_Transport := "local" |> else h in
  let h := h <| h_Transport := norm (h_Transport h) |> in
  let? _ := fail_if (negb (transport_ok (h_Transport h))) (UnsupportedTransport name orig) in
  let h := h <| h_Address := TrimSpace (h_Address h) |>
             <| h_User := TrimSpace (h_User h) |>
             <| h_JumpAddress := TrimSpace (h_JumpAddress h) |>
             <| h_JumpUser := TrimSpace (h_JumpUser h) |>
             <| h_ProxyCommand := TrimSpace (h_ProxyCommand h) |> in
  let? _ := fail_if (negb (port_ok (h_Port h))) (InvalidPort name (h_Port h)) in
  let? _ := fail_if (negb (port_ok (h_JumpPort h))) (InvalidJumpPort name (h_JumpPort h)) in
  let? caps := clean_caps name ∅ (h_Capabilities h) in
  Ok (h <| h_Capabilities := sort_strings caps |>
        <| h_Roles := clean_list norm (h_Roles h) |>
        <| h_Labels := normalize_labels (h_Labels h) |>
        <| h_Topology := normalize_labels (h_Topology h) |>).

(** [for i, h := range cfg.Inventory.Hosts]: [hostSet] is the set of names seen. *)
Fixpoint validate_hosts (i : nat) (hostSet : gset string) (hs : list Host)
    : check (list Host * gset string) :=
  match hs with
  | [] => Ok ([], hostSet)
  | h :: hs' =>
      let? _ := fail_if (blank (h_Name h)) (HostNameRequired i) in
      let? _ := fail_if (bool_decide (h_Name h ∈ hostSet)) (DuplicateHost (h_Name h)) in
      let? h' := validate_host h in
      let? (rest, hostSet') := validate_hosts (S i) ({[h_Name h]} ∪ hostSet) hs' in
      Ok (h' :: rest, hostSet')
  end.

(** ** Matrix and loop *)

Definition normalize_matrix_entry (o : owner) (id : string)
    (out : gmap string (list string)) (kv : string * list string)
    : check (gmap string (list string)) :=
  let name := TrimSpace kv.1 in
  let? _ := fail_if (eqs name "") (MatrixEmptyKey o id) in
  let clean := clean_list TrimSpace kv.2 in
  let? _ := fail_if (bool_decide (clean = [])) (MatrixNoValue o id name) in
  Ok (<[name := clean]> out).

Definition normalizeMatrix (o : owner) (id : string) (matrix : gmap string (list string))
    : check (gmap string (list string)) :=
  foldM_res (normalize_matrix_entry o id) ∅ (map_to_list matrix).

Definition normalizeLoop (o : owner) (r : Resource) : check Resource :=
  let r := r <| r_Loop := clean_go TrimSpace ∅ (r_Loop r) |>
             <| r_LoopVar := TrimSpace (r_LoopVar r) |> in
  if bool_decide (r_Loop r = []) then Ok (r <| r_LoopVar := "" |>)
  else
    let r := if eqs (r_LoopVar r) "" then r <| r_LoopVar := "item" |> else r in
    let? _ := fail_if (Contains (r_LoopVar r) "." || Contains (r_LoopVar r) " ")
                (LoopVarNotSimple o (r_ID r) (r_LoopVar r)) in
    let? _ := fail_if (bool_decide (is_Some (r_Matrix r !! r_LoopVar r)))
                (LoopVarConflict o (r_ID r) (r_LoopVar r)) in
    Ok r.

(** ** Type-specific fields *)

Definition is_hex (c : ascii) : bool :=
  in_range "0" "9" c || in_range "a" "f" c || in_range "A" "F" c.

Fixpoint all_chars (f : ascii → bool) (s : string) : bool :=
  match s with
  | EmptyString => true
  | String c s => f c && all_chars f s
  end.

Definition isSHA256Digest (v : string) : bool :=
  let v := TrimSpace (ToLower v) in
  if negb (HasPrefix v "sha256:") then false
  else
    let hexPart := TrimPrefix v "sha256:" in
    if negb (Nat.eqb (String.length hexPart) 64) then false
    else all_chars is_hex hexPart.

Definition no_integrity_fields (r : Resource) : bool :=
  blank (r_ContentChecksum r) && blank (r_ContentSignature r) && blank (r_ContentSigningPubKey r).

Definition become_error := "privilege escalation is only supported for command resources".
Definition integrity_error := "file content integrity fields are only supported for file resources".

Definition file_fields (o : owner) (r : Resource) : check Resource :=
  let err := FieldError o (r_ID r) in
  let? _ := fail_if (r_Become r) (err become_error) in
  let? _ := fail_if (negb (blank (r_OnlyIf r)) || negb (blank (r_Unless r)))
              (err "only_if/unless guards are only supported for command resources") in
  let? _ := fail_if (negb (blank (r_RefreshCommand r)))
              (err "refresh_command is only supported for command resources") in
  let? _ := fail_if (negb (blank (r_RescueCommand r)) || negb (blank (r_AlwaysCommand r)))
              (err "block/rescue/always hooks are only supported for command resources") in
  let? _ := fail_if (negb (blank (r_RetryBackoff r)) || negb (r_RetryJitterSecs r =? 0))
              (err "retry_backoff/retry_jitter_seconds are only supported for command resources") in
  let r := r <| r_ContentChecksum := TrimSpace (r_ContentChecksum r) |>
             <| r_ContentSignature := TrimSpace (r_ContentSignature r) |>
             <| r_ContentSigningPubKey := TrimSpace (r_ContentSigningPubKey r) |> in
  let? _ := fail_if (negb (eqs (r_ContentChecksum r) "") && negb (isSHA256Digest (r_ContentChecksum r)))
              (err "file.content_checksum must use sha256:<hex> format") in
  let? _ := fail_if ((negb (eqs (r_ContentSignature r) "") || negb (eqs (r_ContentSigningPubKey r) ""))
                     && (eqs (r_ContentSignature r) "" || eqs (r_ContentSigningPubKey r) ""))
              (err "file.content_signature and file.content_signing_pubkey must be provided together") in
  let? _ := fail_if (blank (r_Path r)) (err "file.path is required") in
  Ok r.

Definition command_fields (o : owner) (r : Resource) : check Resource :=
  let err := FieldError o (r_ID r) in
  let? _ := fail_if (negb (no_integrity_fields r)) (err integrity_error) in
  let? _ := fail_if (blank (r_Command r)) (err "command.command is required") in
  let r := r <| r_OnlyIf := TrimSpace (r_OnlyIf r) |>
             <| r_Unless := TrimSpace (r_Unless r) |>
             <| r_RefreshCommand := TrimSpace (r_RefreshCommand r) |>
             <| r_RescueCommand := TrimSpace (r_RescueCommand r) |>
             <| r_AlwaysCommand := TrimSpace (r_AlwaysCommand r) |> in
  let? _ := fail_if (r_Retries r <? 0) (err "command.retries must be >= 0") in
  let? _ := fail_if (r_RetryDelaySeconds r <? 0) (err "command.retry_delay_seconds must be >= 0") in
  let r := r <| r_RetryBackoff := norm (r_RetryBackoff r) |> in
  let? _ := fail_if (negb (one_of (r_RetryBackoff r) [""; "constant"; "linear"; "exponential"]))
              (err "command.retry_backoff must be one of constant, linear, exponential") in
  let? _ := fail_if (r_RetryJitterSecs r <? 0) (err "command.retry_jitter_seconds must be >= 0") in
  Ok r.

Definition registry_fields (o : owner) (r : Resource) : check Resource :=
  let err := FieldError o (r_ID r) in
  let? _ := fail_if (r_Become r) (err become_error) in
  let? _ := fail_if (negb (no_integrity_fields r)) (err integrity_error) in
  let? _ := fail_if (blank (r_RegistryKey r)) (err "registry.registry_key is required") in
  let r := r <| r_RegistryKey := TrimSpace (r_RegistryKey r) |>
             <| r_RegistryValueType := norm (r_RegistryValueType r) |> in
  let r := if eqs (r_RegistryValueType r) "" then r <| r_RegistryValueType := "string" |> else r in
  let? _ := fail_if (negb (one_of (r_RegistryValueType r) ["string"; "dword"; "qword"]))
              (err "registry.registry_value_type must be one of string, dword, qword") in
  Ok r.

Definition task_fields (o : owner) (r : Resource) : check Resource :=
  let err := FieldError o (r_ID r) in
  let? _ := fail_if (r_Become r) (err become_error) in
  let? _ := fail_if (negb (no_integrity_fields r)) (err integrity_error) in
  let r := r <| r_TaskName := TrimSpace (r_TaskName r) |>
             <| r_TaskCommand := TrimSpace (r_TaskCommand r) |>
             <| r_TaskSchedule := TrimSpace (r_TaskSchedule r) |> in
  let? _ := fail_if (eqs (r_TaskName r) "") (err "scheduled_task.task_name is required") in
  let? _ := fail_if (eqs (r_TaskCommand r) "") (err "scheduled_task.task_command is required") in
  Ok (if eqs (r_TaskSchedule r) "" then r <| r_TaskSchedule := "@daily" |> else r).

Definition type_fields (o : owner) (r : Resource) : check Resource :=
  if eqs (r_Type r) "file" then file_fields o r
  else if eqs (r_Type r) "command" then command_fields o r
  else if eqs (r_Type r) "registry" then registry_fields o r
  else if eqs (r_Type r) "scheduled_task" then task_fields o r
  else Err (UnsupportedType o (r_ID r) (r_Type r)).

(** ** Resources and handlers *)

(** The checks resources and handlers start with. *)
Definition common_fields (o : owner) (hostSet : gset string) (r : Resource) : check Resource :=
  let? _ := fail_if (bool_decide (r_Host r ∉ hostSet)) (UnknownHost o (r_ID r) (r_Host r)) in
  let? _ := fail_if (negb (blank (r_DelegateTo r)) && bool_decide (r_DelegateTo r ∉ hostSet))
              (UnknownDelegate o (r_ID r) (r_DelegateTo r)) in
  let r := r <| r_When := TrimSpace (r_When r) |> in
  let? matrix := normalizeMatrix o (r_ID r) (r_Matrix r) in
  let? r := normalizeLoop o (r <| r_Matrix := matrix |>) in
  let r := r <| r_BecomeUser := TrimSpace (r_BecomeUser r) |> in
  Ok (if negb (eqs (r_BecomeUser r) "") then r <| r_Become := true |> else r).

Definition validate_resource (hostSet : gset string) (r : Resource) : check Resource :=
  let? r := common_fields OwnerResource hostSet r in
  let? r := type_fields OwnerResource r in
  Ok (r <| r_Tags := clean_list norm (r_Tags r) |>).

Definition has_relations (r : Resource) : bool :=
  bool_decide (r_DependsOn r ≠ []) || bool_decide (r_Require r ≠ []) ||
  bool_decide (r_Before r ≠ []) || bool_decide (r_Notify r ≠ []) ||
  bool_decide (r_Subscribe r ≠ []) || bool_decide (r_NotifyHandlers r ≠ []).

Definition validate_handler (hostSet : gset string) (h : Resource) : check Resource :=
  let? h := common_fields OwnerHandler hostSet h in
  let? _ := fail_if (has_relations h) (HandlerRelations (r_ID h)) in
  type_fields OwnerHandler h.

(** [for i := range l]: ids are present and distinct, every element is rewritten. *)
Fixpoint validate_owned (o : owner) (f : Resource → check Resource) (i : nat)
    (seen : gset string) (l : list Resource) : check (list Resource * gset string) :=
  match l with
  | [] => Ok ([], seen)
  | r :: l' =>
      let? _ := fail_if (blank (r_ID r)) (IdRequired o i) in
      let? _ := fail_if (bool_decide (r_ID r ∈ seen)) (DuplicateId o (r_ID r)) in
      let? r' := f r in
      let? (rest, seen') := validate_owned o f (S i) ({[r_ID r]} ∪ seen) l' in
      Ok (r' :: rest, seen')
  end.

(** ** References *)

(** [for _, x := range targets { if !set[x] { return err } }] *)
Fixpoint check_refs (id relation : string) (known : gset string) (targets : list string)
    : check unit :=
  match targets with
  | [] => Ok tt
  | x :: targets' =>
      let? _ := fail_if (bool_decide (x ∉ known)) (UnknownRef id relation x) in
      check_refs id relation known targets'
  end.

(** Checks the references of one resource and records whom it notifies. *)
Definition check_resource_refs (resSet handlerSet notifiedBy : gset string) (r : Resource)
    : check (gset string) :=
  let? _ := check_refs (r_ID r) "depends_on" resSet (r_DependsOn r) in
  let? _ := check_refs (r_ID r) "require" resSet (r_Require r) in
  let? _ := check_refs (r_ID r) "subscribe" resSet (r_Subscribe r) in
  let? _ := check_refs (r_ID r) "before" resSet (r_Before r) in
  let? _ := check_refs (r_ID r) "notify" resSet (r_Notify r) in
  let? _ := check_refs (r_ID r) "notify_handlers" handlerSet (r_NotifyHandlers r) in
  Ok (notifiedBy ∪ list_to_set (r_Notify r)).

Fixpoint check_refresh_only (notifiedBy : gset string) (rs : list Resource) : check unit :=
  match rs with
  | [] => Ok tt
  | r :: rs' =>
      if negb (r_RefreshOnly r) then check_refresh_only notifiedBy rs'
      else if bool_decide (r_Subscribe r ≠ []) then check_refresh_only notifiedBy rs'
      else if bool_decide (r_ID r ∈ notifiedBy) then check_refresh_only notifiedBy rs'
      else Err (RefreshOnlyUntriggered (r_ID r))
  end.

Definition validate_references (resSet handlerSet : gset string) (rs : list Resource)
    : check unit :=
  let? notifiedBy := foldM_res (check_resource_refs resSet handlerSet) ∅ rs in
  check_refresh_only notifiedBy rs.

(** ** Validate *)

Definition Validate (cfg : Config) : check Config :=
  let? _ := fail_if (blank (c_Version cfg)) VersionRequired in
  let? e := validate_execution (c_Execution cfg) in
  let? (hosts, hostSet) := validate_hosts 0 ∅ (c_Inventory cfg) in
  let? (rs, resSet) := validate_owned OwnerResource (validate_resource hostSet) 0 ∅ (c_Resources cfg) in
  let? (hs, handlerSet) := validate_owned OwnerHandler (validate_handler hostSet) 0 ∅ (c_Handlers cfg) in
  let? _ := validate_references resSet handlerSet rs in
  Ok (cfg <| c_Execution := e |> <| c_Inventory := hosts |>
          <| c_Resources := rs |> <| c_Handlers := hs |>).

(** ** Specification: the normal form *)

(** A sorted duplicate-free list of non-empty values in the normal form of [f]. *)
Definition clean_set (f : string → string) (l : list string) : Prop :=
  NoDup l ∧ StronglySorted String.le l ∧ Forall (λ x, f x = x ∧ x ≠ "") l.

Definition trimmed (s : string) : Prop := TrimSpace s = s.

Record execution_ok (e : Execution) : Prop := {
  eo_strategy : norm (e_Strategy e) ∈ [""; "linear"; "free"; "serial"];
  eo_serial : 0 ≤ e_Serial e;
  eo_max_fail : 0 ≤ e_MaxFailPercentage e ≤ 100;
  eo_domain : norm (e_FailureDomain e) = e_FailureDomain e;
  eo_domain_in : e_FailureDomain e ∈ [""; "rack"; "zone"; "region"];
}.

Definition labels_ok (m : gmap string string) : Prop :=
  map_Forall (λ k v, norm k = k ∧ k ≠ "" ∧ trimmed v) m.

Record host_ok (h : Host) : Prop := {
  ho_name : blank (h_Name h) = false;
  ho_transport : norm (h_Transport h) = h_Transport h ∧ h_Transport h ≠ "";
  ho_transport_in : transport_ok (h_Transport h) = true;
  ho_trimmed : trimmed (h_Address h) ∧ trimmed (h_User h) ∧ trimmed (h_JumpAddress h) ∧
               trimmed (h_JumpUser h) ∧ trimmed (h_ProxyCommand h);
  ho_port : 0 ≤ h_Port h ≤ 65535;
  ho_jump_port : 0 ≤ h_JumpPort h ≤ 65535;
  ho_caps : clean_set norm (h_Capabilities h) ∧
            Forall (λ c, c ∈ ["local"; "ssh"; "winrm"]) (h_Capabilities h);
  ho_roles : clean_set norm (h_Roles h);
  ho_labels : labels_ok (h_Labels h);
  ho_topology : labels_ok (h_Topology h);
}.

Definition matrix_ok (m : gmap string (list string)) : Prop :=
  map_Forall (λ k vs, trimmed k ∧ k ≠ "" ∧ clean_set TrimSpace vs ∧ vs ≠ []) m.

Definition loop_ok (r : Resource) : Prop :=
  NoDup (r_Loop r) ∧ Forall (λ x, trimmed x ∧ x ≠ "") (r_Loop r) ∧
  (r_Loop r = [] → r_LoopVar r = "") ∧
  (r_Loop r ≠ [] → trimmed (r_LoopVar r) ∧ r_LoopVar r ≠ "" ∧
     Contains (r_LoopVar r) "." = false ∧ Contains (r_LoopVar r) " " = false ∧
     r_Matrix r !! r_LoopVar r = None).

Record common_ok (hosts : gset string) (r : Resource) : Prop := {
  co_id : blank (r_ID r) = false;
  co_host : r_Host r ∈ hosts;
  co_delegate : blank (r_DelegateTo r) = true ∨ r_DelegateTo r ∈ hosts;
  co_when : trimmed (r_When r);
  co_matrix : matrix_ok (r_Matrix r);
  co_loop : loop_ok r;
  co_become : trimmed (r_BecomeUser r) ∧ (r_BecomeUser r ≠ "" → r_Become r = true);
}.

Definition file_ok (r : Resource) : Prop :=
  r_Become r = false ∧ blank (r_OnlyIf r) = true ∧ blank (r_Unless r) = true ∧
  blank (r_RefreshCommand r) = true ∧ blank (r_RescueCommand r) = true ∧
  blank (r_AlwaysCommand r) = true ∧ blank (r_RetryBackoff r) = true ∧
  r_RetryJitterSecs r = 0 ∧ trimmed (r_ContentChecksum r) ∧ trimmed (r_ContentSignature r) ∧
  trimmed (r_ContentSigningPubKey r) ∧
  (r_ContentChecksum r = "" ∨ isSHA256Digest (r_ContentChecksum r) = true) ∧
  (r_ContentSignature r = "" ↔ r_ContentSigningPubKey r = "") ∧
  blank (r_Path r) = false.

Definition command_ok (r : Resource) : Prop :=
  no_integrity_fields r = true ∧ blank (r_Command r) = false ∧ trimmed (r_OnlyIf r) ∧
  trimmed (r_Unless r) ∧ trimmed (r_RefreshCommand r) ∧ trimmed (r_RescueCommand r) ∧
  trimmed (r_AlwaysCommand r) ∧ 0 ≤ r_Retries r ∧ 0 ≤ r_RetryDelaySeconds r ∧
  norm (r_RetryBackoff r) = r_RetryBackoff r ∧
  r_RetryBackoff r ∈ [""; "constant"; "linear"; "exponential"] ∧ 0 ≤ r_RetryJitterSecs r.

Definition registry_ok (r : Resource) : Prop :=
  r_Become r = false ∧ no_integrity_fields r = true ∧ blank (r_RegistryKey r) = false ∧
  trimmed (r_RegistryKey r) ∧ r_RegistryValueType r ∈ ["string"; "dword"; "qword"].

Definition task_ok (r : Resource) : Prop :=
  r_Become r = false ∧ no_integrity_fields r = true ∧
  trimmed (r_TaskName r) ∧ trimmed (r_TaskCommand r) ∧ trimmed (r_TaskSchedule r) ∧
  r_TaskName r ≠ "" ∧ r_TaskCommand r ≠ "" ∧ r_TaskSchedule r ≠ "".

Definition type_ok (r : Resource) : Prop :=
  (r_Type r = "file" ∧ file_ok r) ∨ (r_Type r = "command" ∧ command_ok r) ∨
  (r_Type r = "registry" ∧ registry_ok r) ∨ (r_Type r = "scheduled_task" ∧ task_ok r).

(** References resolve, and a refresh-only resource has something that triggers it. *)
Record references_ok (resources handlers : gset string) (rs : list Resource) : Prop := {
  ro_refs : ∀ r, r ∈ rs →
    Forall (λ x, x ∈ resources)
      (r_DependsOn r ++ r_Require r ++ r_Subscribe r ++ r_Before r ++ r_Notify r) ∧
    Forall (λ x, x ∈ handlers) (r_NotifyHandlers r);
  ro_refresh : ∀ r, r ∈ rs → r_RefreshOnly r = true →
    r_Subscribe r ≠ [] ∨ ∃ r', r' ∈ rs ∧ r_ID r ∈ r_Notify r';
}.

Definition host_names (cfg : Config) : gset string := list_to_set (h_Name <$> c_Inventory cfg).

Record well_formed (cfg : Config) : Prop := {
  wf_version : blank (c_Version cfg) = false;
  wf_execution : execution_ok (c_Execution cfg);
  wf_hosts : Forall host_ok (c_Inventory cfg);
  wf_host_names : NoDup (h_Name <$> c_Inventory cfg);
  wf_resources : Forall (λ r, common_ok (host_names cfg) r ∧ type_ok r ∧ clean_set norm (r_Tags r))
                   (c_Resources cfg);
  wf_ids : NoDup (r_ID <$> c_Resources cfg);
  wf_handlers : Forall (λ h, common_ok (host_names cfg) h ∧ type_ok h ∧ has_relations h = false)
                  (c_Handlers cfg);
  wf_handler_ids : NoDup (r_ID <$> c_Handlers cfg);
  wf_references : references_ok (ids (c_Resources cfg)) (ids (c_Handlers cfg)) (c_Resources cfg);
}.

(** ** Lists and maps in normal form *)

Lemma clean_list_clean_set f l : (∀ x, f (f x) = f x) → clean_set f (clean_list f l).
Proof.
  intros Hf. split_and!; [apply NoDup_clean_list|apply clean_list_sorted|].
  apply Forall_forall. intros x (Hne & y & _ & ->)%elem_of_clean_list. done.
Qed.

Lemma clean_go_fixed f l :
  NoDup l → Forall (λ x, f x = x ∧ x ≠ "") l → clean_go f ∅ l = l.
Proof.
  intros Hnd Hl. apply clean_go_id; [|done]. eapply Forall_impl; [done|].
  intros x [??]. split_and!; [done..|set_solver].
Qed.

Lemma clean_set_fixed f l : clean_set f l → clean_list f l = l.
Proof.
  intros (Hnd & Hs & Hl). unfold clean_list. rewrite clean_go_fixed by done.
  by apply sort_strings_unique.
Qed.

Lemma normalize_labels_ok m : labels_ok (normalize_labels m).
Proof.
  unfold normalize_labels. assert (labels_ok ∅) as H by apply map_Forall_empty.
  revert H. generalize (∅ : gmap string string).
  induction (map_to_list m) as [|[k v] l IH]; intros out Hout; cbn [foldl fst snd]; [done|].
  apply IH. destruct (eqs (norm k) "") eqn:He; [done|]. apply eqs_false in He.
  apply map_Forall_insert_2; [|done]. unfold trimmed. by autorewrite with go.
Qed.

Lemma normalize_labels_fixed m : labels_ok m → normalize_labels m = m.
Proof.
  intros Hm. unfold normalize_labels. rewrite <-(foldl_insert_self m) at 2.
  apply foldl_ext_in. intros out [k v] (Hk & Hne & Hv)%elem_of_map_to_list%Hm. cbn [fst snd].
  unfold trimmed in Hv. rewrite Hk, Hv. by apply eqs_false in Hne as ->.
Qed.

Lemma normalizeMatrix_ok o id m m' : normalizeMatrix o id m = Ok m' → matrix_ok m'.
Proof.
  intros Hm. apply (foldM_res_inv matrix_ok _ _ _ _ Hm); [apply map_Forall_empty|].
  intros out [k vs] out' _ Hout Hstep. unfold normalize_matrix_entry in Hstep. simpl in Hstep.
  res_inv. apply map_Forall_insert_2; [|done]. split_and!.
  - unfold trimmed. by autorewrite with go.
  - by apply eqs_false.
  - apply clean_list_clean_set. intros x. by autorewrite with go.
  - done.
Qed.

Lemma normalizeMatrix_fixed o id m : matrix_ok m → normalizeMatrix o id m = Ok m.
Proof.
  intros Hm. unfold normalizeMatrix.
  rewrite (foldM_res_pure _ (λ out kv, <[kv.1 := kv.2]> out)).
  - by rewrite foldl_insert_self.
  - intros out [k vs] (Hk & Hne & Hvs & Hnil)%elem_of_map_to_list%Hm.
    unfold normalize_matrix_entry. cbn [fst snd]. unfold trimmed in Hk. rewrite Hk.
    rewrite (clean_set_fixed _ _ Hvs).
    rewrite fail_if_false by by apply eqs_false.
    by rewrite fail_if_false by by apply bool_decide_eq_false.
Qed.

Lemma clean_caps_spec host seen l l' :
  clean_caps host seen l = Ok l' →
  l' = clean_go norm seen l ∧ Forall (λ c, c ∈ ["local"; "ssh"; "winrm"]) l'.
Proof.
  revert seen l'; induction l as [|x l IH]; intros seen l' Hl; simpl in *.
  - by injection Hl as <-.
  - destruct (eqs (norm x) ""); [by apply IH|]. res_inv.
    destruct (decide (norm x ∈ seen)); [by apply IH|]. res_inv.
    destruct (IH _ _ H0) as [-> ?]. split; [done|]. constructor; [|done]. by apply one_of_true.
Qed.

Lemma clean_caps_fixed host seen l :
  NoDup l → Forall (λ x, norm x = x ∧ x ≠ "") l → Forall (λ c, c ∈ ["local"; "ssh"; "winrm"]) l →
  Forall (λ x, x ∉ seen) l → clean_caps host seen l = Ok l.
Proof.
  intros Hnd. revert seen; induction Hnd as [|x l Hx Hnd IH]; intros seen Hn Hc Hs; [done|].
  apply Forall_cons in Hn as [[Hn1 Hn2] Hn], Hc as [Hc1 Hc], Hs as [Hs1 Hs]. cbn [clean_caps].
  rewrite Hn1. apply eqs_false in Hn2 as ->.
  rewrite fail_if_false by by apply negb_false, one_of_true.
  rewrite decide_False by done. rewrite IH; [done..|].
  rewrite Forall_forall in *. intros y Hy. specialize (Hs y Hy). set_solver.
Qed.

(** ** Soundness and completeness of the parts *)

Lemma validate_execution_ok e e' : validate_execution e = Ok e' → execution_ok e'.
Proof.
  unfold validate_execution. intros H. simpl in H. res_inv.
  split; simpl; try lia.
  - by apply one_of_true.
  - by autorewrite with go.
  - by apply one_of_true.
Qed.

Lemma validate_execution_fixed e : execution_ok e → validate_execution e = Ok e.
Proof.
  intros [Hs Hser Hm Hd Hdi]. unfold validate_execution. simpl. rewrite Hd.
  rewrite fail_if_false by by apply negb_false, one_of_true.
  rewrite fail_if_false by lia. rewrite fail_if_false by lia.
  rewrite fail_if_false by by apply negb_false, one_of_true.
  by destruct e.
Qed.

Lemma port_ok_iff p : port_ok p = true ↔ 0 ≤ p ≤ 65535.
Proof. unfold port_ok. lia. Qed.

Lemma transport_ok_nonempty t : transport_ok t = true → t ≠ "".
Proof. by intros H ->. Qed.

Lemma validate_host_ok h h' :
  blank (h_Name h) = false → validate_host h = Ok h' → host_ok h' ∧ h_Name h' = h_Name h.
Proof.
  intros Hname H. unfold validate_host in H.
  set (t := if eqs (h_Transport h) "" then _ else _) in H.
  assert (h_Name t = h_Name h) as Ht by (unfold t; by destruct (eqs _ _)).
  clearbody t. simpl in H. res_inv.
  match goal with Hc : clean_caps _ _ _ = _ |- _ => apply clean_caps_spec in Hc as [-> Hcaps] end.
  split; [|done]. split; simpl.
  - by rewrite Ht.
  - split; [by autorewrite with go|by apply transport_ok_nonempty].
  - done.
  - unfold trimmed. by autorewrite with go.
  - by apply port_ok_iff.
  - by apply port_ok_iff.
  - split; [by apply clean_list_clean_set; intros; autorewrite with go|].
    by rewrite sort_strings_perm.
  - by apply clean_list_clean_set; intros; autorewrite with go.
  - apply normalize_labels_ok.
  - apply normalize_labels_ok.
Qed.

Lemma validate_host_fixed h : host_ok h → validate_host h = Ok h.
Proof.
  intros [Hn [Ht Htne] Htok (H1 & H2 & H3 & H4 & H5) Hp Hj [Hc Hcin] Hr Hl Hto].
  unfold validate_host. apply eqs_false in Htne as ->. simpl. unfold trimmed in *.
  rewrite Ht, fail_if_false by by apply negb_false.
  rewrite fail_if_false by by apply negb_false, port_ok_iff.
  rewrite fail_if_false by by apply negb_false, port_ok_iff.
  destruct Hc as (Hnd & Hs & Hf). rewrite clean_caps_fixed; [|done..|].
  - simpl. rewrite H1, H2, H3, H4, H5, (sort_strings_unique _ (h_Capabilities h)) by done.
    rewrite (clean_set_fixed _ _ Hr), !normalize_labels_fixed by done. by destruct h.
  - apply Forall_forall. set_solver.
Qed.

Lemma validate_hosts_ok i seen hs hs' seen' :
  validate_hosts i seen hs = Ok (hs', seen') →
  Forall host_ok hs' ∧ h_Name <$> hs' = h_Name <$> hs ∧ NoDup (h_Name <$> hs) ∧
  (∀ n, n ∈ h_Name <$> hs → n ∉ seen) ∧ seen' = list_to_set (h_Name <$> hs) ∪ seen.
Proof.
  revert i seen hs' seen'; induction hs as [|h hs IH]; intros i seen hs' seen' H; simpl in H.
  - injection H as <- <-. simpl. split_and!; [constructor|done|constructor|set_solver|set_solver].
  - res_inv.
    match goal with Hh : validate_host _ = _ |- _ => apply validate_host_ok in Hh as [Hok Hn]; [|done] end.
    match goal with Hh : validate_hosts _ _ _ = _ |- _ =>
      apply IH in Hh as (Hoks & Hns & Hnd & Hnew & ->) end.
    rewrite !fmap_cons, Hn, Hns. split_and!.
    + by constructor.
    + done.
    + constructor; [|done]. intros Hin. apply (Hnew _ Hin). set_solver.
    + intros n [->|Hin]%elem_of_cons; [done|]. specialize (Hnew n Hin). set_solver.
    + set_solver.
Qed.

Lemma validate_hosts_fixed i seen hs :
  Forall host_ok hs → NoDup (h_Name <$> hs) → (∀ n, n ∈ h_Name <$> hs → n ∉ seen) →
  validate_hosts i seen hs = Ok (hs, list_to_set (h_Name <$> hs) ∪ seen).
Proof.
  revert i seen; induction hs as [|h hs IH]; intros i seen Hok Hnd Hnew; cbn [validate_hosts].
  - simpl. by rewrite (left_id_L ∅ (∪)).
  - rewrite fmap_cons in *. apply Forall_cons in Hok as [Hh Hok].
    apply NoDup_cons in Hnd as [Hn Hnd].
    rewrite fail_if_false by apply Hh. rewrite fail_if_false by (apply bool_decide_eq_false; set_solver).
    rewrite validate_host_fixed by done. cbn [bind]. rewrite IH; [|done..|].
    + cbn [bind]. do 2 f_equal. set_solver.
    + intros n Hin. assert (n ∉ seen) by set_solver. set_solver.
Qed.

Section Owned.
Context (o : owner) (f : Resource → check Resource).

Lemma validate_owned_ok (P : Resource → Prop) i seen l l' seen' :
  (∀ r r', blank (r_ID r) = false → f r = Ok r' → P r' ∧ r_ID r' = r_ID r) →
  validate_owned o f i seen l = Ok (l', seen') →
  Forall2 (λ r r', blank (r_ID r) = false ∧ f r = Ok r') l l' ∧ Forall P l' ∧
  r_ID <$> l' = r_ID <$> l ∧ NoDup (r_ID <$> l) ∧
  (∀ n, n ∈ r_ID <$> l → n ∉ seen) ∧ seen' = list_to_set (r_ID <$> l) ∪ seen.
Proof.
  intros Hf. revert i seen l' seen'; induction l as [|r l IH]; intros i seen l' seen' H; simpl in H.
  - injection H as <- <-. simpl.
    split_and!; [constructor|constructor|done|constructor|set_solver|set_solver].
  - res_inv.
    match goal with Hh : f _ = _ |- _ => rename Hh into Hfr end.
    match goal with Hh : validate_owned _ _ _ _ _ = _ |- _ =>
      apply IH in Hh as (Hfs & Hoks & Hns & Hnd & Hnew & ->) end.
    destruct (Hf _ _ ltac:(done) Hfr) as [HP Hid].
    rewrite !fmap_cons, Hid, Hns. split_and!.
    + by constructor.
    + by constructor.
    + done.
    + constructor; [|done]. intros Hin. apply (Hnew _ Hin). set_solver.
    + intros n [->|Hin]%elem_of_cons; [done|]. specialize (Hnew n Hin). set_solver.
    + set_solver.
Qed.

Lemma validate_owned_fixed i seen l :
  Forall (λ r, blank (r_ID r) = false ∧ f r = Ok r) l → NoDup (r_ID <$> l) →
  (∀ n, n ∈ r_ID <$> l → n ∉ seen) →
  validate_owned o f i seen l = Ok (l, list_to_set (r_ID <$> l) ∪ seen).
Proof.
  revert i seen; induction l as [|r l IH]; intros i seen Hok Hnd Hnew; cbn [validate_owned].
  - simpl. by rewrite (left_id_L ∅ (∪)).
  - rewrite fmap_cons in *. apply Forall_cons in Hok as [[Hb Hr] Hok].
    apply NoDup_cons in Hnd as [Hn Hnd].
    rewrite fail_if_false by done. rewrite fail_if_false by (apply bool_decide_eq_false; set_solver).
    rewrite Hr. cbn [bind]. rewrite IH; [|done..|].
    + cbn [bind]. do 2 f_equal. set_solver.
    + intros n Hin. assert (n ∉ seen) by set_solver. set_solver.
Qed.
End Owned.

(** What no step of the validation touches. *)
Definition identity_view (r : Resource) :=
  (r_ID r, r_Type r, r_Host r, r_DelegateTo r,
   (r_DependsOn r, r_Require r, r_Before r, r_Notify r, r_Subscribe r, r_NotifyHandlers r),
   r_RefreshOnly r).

(** What the type-specific checks do not touch. *)
Definition common_view (r : Resource) :=
  (identity_view r, r_When r, r_Matrix r, r_Loop r, r_LoopVar r, r_Become r, r_BecomeUser r,
   r_Tags r).

Lemma common_ok_view hosts r r' :
  common_view r' = common_view r → common_ok hosts r → common_ok hosts r'.
Proof.
  unfold common_view, identity_view. intros Hv [????? Hl ?]. simplify_eq.
  split; unfold loop_ok in *; repeat match goal with H : _ r' = _ r |- _ => rewrite H; clear H end; done.
Qed.

Lemma has_relations_view r r' :
  identity_view r' = identity_view r → has_relations r' = has_relations r.
Proof.
  unfold identity_view, has_relations. intros Hv. simplify_eq.
  repeat match goal with H : _ r' = _ r |- _ => rewrite H; clear H end. done.
Qed.

Lemma normalizeLoop_ok o r r' :
  normalizeLoop o r = Ok r' →
  loop_ok r' ∧ r' = r <| r_Loop := r_Loop r' |> <| r_LoopVar := r_LoopVar r' |>.
Proof.
  intros Hloop. unfold normalizeLoop in Hloop. simpl in Hloop.
  set (l := clean_go TrimSpace ∅ (r_Loop r)) in *.
  assert (NoDup l ∧ Forall (λ x, trimmed x ∧ x ≠ "") l) as [Hnd Hf].
  { split; [apply NoDup_clean_go|]. apply Forall_forall.
    intros y (? & _ & z & _ & ->)%elem_of_clean_go. split; [|done]. apply TrimSpace_idemp. }
  destruct (bool_decide (l = [])) eqn:Hnil.
  - apply bool_decide_eq_true in Hnil. res_inv. split; [|done]. unfold loop_ok; simpl.
    rewrite Hnil. split_and!; [constructor|constructor|done|done].
  - apply bool_decide_eq_false in Hnil.
    destruct (eqs (TrimSpace (r_LoopVar r)) "") eqn:He; simpl in Hloop; res_inv;
      (split; [|done]); unfold loop_ok; simpl; (split_and!; [done..|]); intros _;
      (split_and!; [done || apply TrimSpace_idemp|done || by apply eqs_false|done|done|]);
      by apply eq_None_not_Some.
Qed.

Lemma normalizeLoop_fixed o r : loop_ok r → normalizeLoop o r = Ok r.
Proof.
  intros (Hnd & Hf & Hnil & Hvar). unfold normalizeLoop. simpl. rewrite clean_go_fixed by done.
  destruct (decide (r_Loop r = [])) as [He|Hne].
  - rewrite bool_decide_true, He by done. specialize (Hnil He). destruct r; simpl in *. by subst.
  - rewrite bool_decide_false by done. destruct (Hvar Hne) as (Ht & Hn & Hd & Hs & Hm).
    unfold trimmed in Ht. rewrite Ht. apply eqs_false in Hn as ->. simpl. rewrite Hd, Hs, Hm.
    simpl. by destruct r.
Qed.

Lemma common_fields_ok o hosts r r' :
  blank (r_ID r) = false → common_fields o hosts r = Ok r' →
  common_ok hosts r' ∧ identity_view r' = identity_view r ∧ r_Tags r' = r_Tags r.
Proof.
  intros Hid H. unfold common_fields in H. simpl in H. res_inv.
  match goal with Hm : normalizeMatrix _ _ _ = _ |- _ => apply normalizeMatrix_ok in Hm as Hmat end.
  match goal with Hl : normalizeLoop _ _ = Ok ?x |- _ =>
    apply normalizeLoop_ok in Hl as [Hlok Heq]; rename x into r1 end.
  assert (r_DelegateTo r1 = r_DelegateTo r ∧ r_Host r1 = r_Host r ∧ r_ID r1 = r_ID r ∧
    r_Tags r1 = r_Tags r ∧ r_When r1 = TrimSpace (r_When r) ∧ matrix_ok (r_Matrix r1) ∧
    identity_view r1 = identity_view r) as (Hd & Hh & Hi & Ht & Hw & Hm & Hv)
    by (rewrite Heq; done).
  clear Heq. set (c := negb (eqs (TrimSpace (r_BecomeUser r1)) "")).
  assert (common_ok hosts (if c then r1 <| r_BecomeUser := TrimSpace (r_BecomeUser r1) |>
            <| r_Become := true |> else r1 <| r_BecomeUser := TrimSpace (r_BecomeUser r1) |>)) as Hco.
  { unfold c; simpl. destruct (eqs _ "") eqn:He; simpl; split; simpl; rewrite ?Hi, ?Hh, ?Hd, ?Hw;
      try done; try apply TrimSpace_idemp; try (by apply dec_stable);
      try (destruct (blank (r_DelegateTo r)); [by left|right; apply dec_stable;
           by match goal with H : _ && _ = false |- _ => apply bool_decide_eq_false in H end]).
    - apply eqs_true in He. rewrite He. done.
    - split; [apply TrimSpace_idemp|done]. }
  split; [by destruct c|]. unfold c. clear Hco c. simpl. rewrite <-Hv, <-Ht.
  by destruct (eqs _ "").
Qed.

Lemma common_fields_fixed o hosts r : common_ok hosts r → common_fields o hosts r = Ok r.
Proof.
  intros [Hid Hh Hd Hw Hm Hl [Hb Hbb]]. unfold common_fields.
  rewrite fail_if_false by (apply bool_decide_eq_false; set_solver).
  rewrite fail_if_false by (destruct Hd as [->|Hd]; [done|];
    apply andb_false_iff; right; apply bool_decide_eq_false; set_solver).
  simpl. rewrite normalizeMatrix_fixed by done. simpl. unfold trimmed in *. rewrite Hw.
  match goal with |- bind (normalizeLoop o ?x) _ = _ => assert (x = r) as -> by by destruct r end.
  rewrite normalizeLoop_fixed by done. simpl. rewrite Hb.
  destruct (eqs (r_BecomeUser r) "") eqn:He; simpl; [by destruct r|].
  apply eqs_false in He. specialize (Hbb He). destruct r; simpl in *. by subst.
Qed.

Lemma file_fields_ok o r r' :
  file_fields o r = Ok r' → file_ok r' ∧ common_view r' = common_view r.
Proof.
  unfold file_fields. intros H. simpl in H. res_inv. split; [|done]. unfold file_ok; simpl.
  split_and!; try done; try apply TrimSpace_idemp; try lia.
  - match goal with Hx : _ && negb (isSHA256Digest _) = false |- _ => rename Hx into Hc end.
    destruct (eqs (TrimSpace (r_ContentChecksum r)) "") eqn:He; [left; by apply eqs_true|right].
    by apply negb_false.
  - match goal with Hx : _ && (_ || _) = false |- _ => rename Hx into Hc end.
    rewrite <-!eqs_true. clear -Hc.
    destruct (eqs (TrimSpace (r_ContentSignature r)) ""),
      (eqs (TrimSpace (r_ContentSigningPubKey r)) ""); by split.
Qed.

Lemma file_fields_fixed o r : file_ok r → file_fields o r = Ok r.
Proof.
  intros (H1 & H2 & H3 & H4 & H5 & H6 & H7 & H8 & H9 & H10 & H11 & H12 & H13 & H14).
  unfold file_fields. rewrite H1, H2, H3, H4, H5, H6, H7, H8. simpl. unfold trimmed in *.
  rewrite H9, H10, H11, H14. rewrite fail_if_false; cycle 1.
  { destruct H12 as [->| ->]; [done|]. by rewrite andb_false_r. }
  rewrite fail_if_false; [by destruct r|]. rewrite <-!eqs_true in H13.
  destruct (eqs (r_ContentSignature r) ""), (eqs (r_ContentSigningPubKey r) ""); naive_solver.
Qed.

Lemma command_fields_ok o r r' :
  command_fields o r = Ok r' → command_ok r' ∧ common_view r' = common_view r.
Proof.
  unfold command_fields. intros H. simpl in H. res_inv. split; [|done]. unfold command_ok; simpl.
  split_and!; try done; try apply TrimSpace_idemp; try lia.
  - apply norm_idemp.
  - by apply one_of_true.
Qed.

Lemma command_fields_fixed o r : command_ok r → command_fields o r = Ok r.
Proof.
  intros (H1 & H2 & H3 & H4 & H5 & H6 & H7 & H8 & H9 & H10 & H11%one_of_true & H12).
  unfold command_fields. rewrite H1, H2. simpl. unfold trimmed in *.
  rewrite H3, H4, H5, H6, H7, H10, H11.
  rewrite fail_if_false by lia. rewrite fail_if_false by lia. simpl.
  rewrite fail_if_false by lia. by destruct r.
Qed.

Lemma registry_fields_ok o r r' :
  registry_fields o r = Ok r' → registry_ok r' ∧ common_view r' = common_view r.
Proof.
  unfold registry_fields. intros H. simpl in H.
  destruct (eqs (norm (r_RegistryValueType r)) "") eqn:He; simpl in H; res_inv; (split; [|done]); unfold registry_ok; simpl;
    (split_and!; try done; try apply TrimSpace_idemp).
  - match goal with Hx : blank (r_RegistryKey r) = false |- _ => revert Hx end.
    unfold blank. by rewrite TrimSpace_idemp.
  - set_solver.
  - match goal with Hx : blank (r_RegistryKey r) = false |- _ => revert Hx end.
    unfold blank. by rewrite TrimSpace_idemp.
  - by apply one_of_true.
Qed.

Lemma one_of_fixed_norm s l : s ∈ l → Forall (λ x, norm x = x) l → norm s = s.
Proof. intros Hs Hl. rewrite Forall_forall in Hl. by apply Hl. Qed.

Lemma registry_fields_fixed o r : registry_ok r → registry_fields o r = Ok r.
Proof.
  intros (H1 & H2 & H3 & H4 & H5). unfold registry_fields. rewrite H1, H2, H3. simpl.
  unfold trimmed in *. rewrite H4, (one_of_fixed_norm _ _ H5) by (repeat constructor).
  assert (eqs (r_RegistryValueType r) "" = false) as He by (apply eqs_false; intros Hx; rewrite Hx in H5; set_solver).
  rewrite He. simpl. rewrite fail_if_false by by apply negb_false, one_of_true. by destruct r.
Qed.

Lemma task_fields_ok o r r' :
  task_fields o r = Ok r' → task_ok r' ∧ common_view r' = common_view r.
Proof.
  unfold task_fields. intros H. simpl in H. res_inv.
  destruct (eqs (TrimSpace (r_TaskSchedule r)) "") eqn:He; (split; [|done]); unfold task_ok; simpl;
    (split_and!; try done; try apply TrimSpace_idemp; try by apply eqs_false).
Qed.

Lemma task_fields_fixed o r : task_ok r → task_fields o r = Ok r.
Proof.
  intros (H1 & H2 & H3 & H4 & H5 & H6%eqs_false & H7%eqs_false & H8%eqs_false).
  unfold task_fields. rewrite H1, H2. simpl. unfold trimmed in *.
  rewrite H3, H4, H5, H6, H7, H8. simpl. by destruct r.
Qed.

Lemma type_fields_ok o r r' :
  type_fields o r = Ok r' → type_ok r' ∧ common_view r' = common_view r.
Proof.
  unfold type_fields, type_ok. intros H.
  destruct (eqs (r_Type r) "file") eqn:Ht; [|destruct (eqs (r_Type r) "command") eqn:Ht2;
    [|destruct (eqs (r_Type r) "registry") eqn:Ht3;
    [|destruct (eqs (r_Type r) "scheduled_task") eqn:Ht4; [|done]]]].
  - apply file_fields_ok in H as [? Hv]. unfold common_view, identity_view in *. simplify_eq.
    apply eqs_true in Ht. split; [left; split; congruence|congruence].
  - apply command_fields_ok in H as [? Hv]. unfold common_view, identity_view in *. simplify_eq.
    apply eqs_true in Ht2. split; [right; left; split; congruence|congruence].
  - apply registry_fields_ok in H as [? Hv]. unfold common_view, identity_view in *. simplify_eq.
    apply eqs_true in Ht3. split; [do 2 right; left; split; congruence|congruence].
  - apply task_fields_ok in H as [? Hv]. unfold common_view, identity_view in *. simplify_eq.
    apply eqs_true in Ht4. split; [do 3 right; split; congruence|congruence].
Qed.

Lemma type_fields_fixed o r : type_ok r → type_fields o r = Ok r.
Proof.
  unfold type_fields, type_ok. intros [[-> H]|[[-> H]|[[-> H]|[-> H]]]]; simpl.
  - by apply file_fields_fixed.
  - by apply command_fields_fixed.
  - by apply registry_fields_fixed.
  - by apply task_fields_fixed.
Qed.

(** ** References *)

Lemma check_refs_Ok id rel known l :
  check_refs id rel known l = Ok tt ↔ Forall (λ x, x ∈ known) l.
Proof.
  induction l as [|x l IH]; simpl; [by split; [constructor|]|].
  rewrite fail_if_Ok, IH, Forall_cons. f_equiv. rewrite bool_decide_eq_false.
  split; [apply dec_stable|auto].
Qed.

Lemma check_resource_refs_Ok resSet handlerSet nb r nb' :
  check_resource_refs resSet handlerSet nb r = Ok nb' ↔
  (Forall (λ x, x ∈ resSet)
     (r_DependsOn r ++ r_Require r ++ r_Subscribe r ++ r_Before r ++ r_Notify r) ∧
   Forall (λ x, x ∈ handlerSet) (r_NotifyHandlers r)) ∧ nb' = nb ∪ list_to_set (r_Notify r).
Proof.
  unfold check_resource_refs. rewrite !Forall_app. split.
  - intros H. res_inv.
    repeat match goal with H : check_refs _ _ _ _ = Ok ?u |- _ => destruct u; apply check_refs_Ok in H end.
    done.
  - intros [((H1 & H2 & H3 & H4 & H5) & H6) ->].
    rewrite <-(check_refs_Ok (r_ID r) "depends_on") in H1.
    rewrite <-(check_refs_Ok (r_ID r) "require") in H2.
    rewrite <-(check_refs_Ok (r_ID r) "subscribe") in H3.
    rewrite <-(check_refs_Ok (r_ID r) "before") in H4.
    rewrite <-(check_refs_Ok (r_ID r) "notify") in H5.
    rewrite <-(check_refs_Ok (r_ID r) "notify_handlers") in H6.
    by rewrite H1, H2, H3, H4, H5, H6.
Qed.

Lemma notified_fold resSet handlerSet nb rs nb' :
  foldM_res (check_resource_refs resSet handlerSet) nb rs = Ok nb' ↔
  (∀ r, r ∈ rs → Forall (λ x, x ∈ resSet)
     (r_DependsOn r ++ r_Require r ++ r_Subscribe r ++ r_Before r ++ r_Notify r) ∧
   Forall (λ x, x ∈ handlerSet) (r_NotifyHandlers r)) ∧
  nb' = nb ∪ list_to_set (rs ≫= r_Notify).
Proof.
  revert nb; induction rs as [|r rs IH]; intros nb; simpl.
  - rewrite (right_id_L ∅ (∪)). split; [by intros [= ->]; split; [set_solver|]|by intros [_ ->]].
  - rewrite bind_Ok. setoid_rewrite check_resource_refs_Ok. setoid_rewrite IH.
    rewrite list_to_set_app_L. split.
    + intros (nb1 & [Hr ->] & Hrs & ->). split; [|set_solver].
      intros r' [->|Hr']%elem_of_cons; auto.
    + intros [Hall ->]. eexists. split; [split; [apply Hall; left|done]|].
      split; [intros r' Hr'; apply Hall; by right|set_solver].
Qed.

Lemma check_refresh_only_Ok nb rs :
  check_refresh_only nb rs = Ok tt ↔
  ∀ r, r ∈ rs → r_RefreshOnly r = true → r_Subscribe r ≠ [] ∨ r_ID r ∈ nb.
Proof.
  induction rs as [|r rs IH]; simpl; [by split; [set_solver|]|].
  assert (∀ P : Prop, P → (∀ r', r' ∈ r :: rs → r_RefreshOnly r' = true → r_Subscribe r' ≠ [] ∨ r_ID r' ∈ nb) ↔
    (r_RefreshOnly r = true → r_Subscribe r ≠ [] ∨ r_ID r ∈ nb) ∧
    ∀ r', r' ∈ rs → r_RefreshOnly r' = true → r_Subscribe r' ≠ [] ∨ r_ID r' ∈ nb) as Hc.
  { intros _ _. setoid_rewrite elem_of_cons. naive_solver. }
  rewrite (Hc True I), <-IH. destruct (r_RefreshOnly r); simpl; [|naive_solver].
  destruct (decide (r_Subscribe r ≠ [])) as [Hs|Hs];
    [rewrite bool_decide_true by done; naive_solver|rewrite bool_decide_false by done].
  case_bool_decide; naive_solver.
Qed.

Lemma validate_references_Ok resSet handlerSet rs :
  validate_references resSet handlerSet rs = Ok tt ↔ references_ok resSet handlerSet rs.
Proof.
  unfold validate_references. rewrite bind_Ok. setoid_rewrite notified_fold.
  setoid_rewrite check_refresh_only_Ok.
  assert (∀ x, x ∈ (∅ ∪ list_to_set (rs ≫= r_Notify) : gset string) ↔
               ∃ r', r' ∈ rs ∧ x ∈ r_Notify r') as Hn.
  { intros x. rewrite (left_id_L ∅ (∪)), elem_of_list_to_set, list_elem_of_bind. naive_solver. }
  split.
  - intros (nb & [Hrefs ->] & Hro). split; [done|]. intros r Hr Ht.
    destruct (Hro r Hr Ht) as [|Hin]; [by left|right]. by apply Hn.
  - intros [Hrefs Hro]. eexists. split; [done|]. intros r Hr Ht.
    destruct (Hro r Hr Ht) as [|Hin]; [by left|right]. by apply Hn.
Qed.

(** ** The main lemmas *)

Lemma validate_resource_ok hosts r r' :
  blank (r_ID r) = false → validate_resource hosts r = Ok r' →
  (common_ok hosts r' ∧ type_ok r' ∧ clean_set norm (r_Tags r')) ∧ identity_view r' = identity_view r.
Proof.
  intros Hid H. unfold validate_resource in H. res_inv.
  match goal with H : common_fields _ _ _ = _ |- _ => apply common_fields_ok in H as (Hc & Hi & _); [|done] end.
  match goal with H : type_fields _ _ = _ |- _ => apply type_fields_ok in H as (Ht & Hv) end.
  pose proof (common_ok_view _ _ _ Hv Hc) as Hc'. split.
  - split_and!; [|done|apply clean_list_clean_set; intros; apply norm_idemp].
    by destruct Hc'; split.
  - rewrite <-Hi. unfold common_view in Hv. unfold identity_view in *. simpl in *. congruence.
Qed.

Lemma validate_handler_ok hosts h h' :
  blank (r_ID h) = false → validate_handler hosts h = Ok h' →
  (common_ok hosts h' ∧ type_ok h' ∧ has_relations h' = false) ∧ identity_view h' = identity_view h.
Proof.
  intros Hid H. unfold validate_handler in H. res_inv.
  match goal with H : common_fields _ _ _ = _ |- _ => apply common_fields_ok in H as (Hc & Hi & _); [|done] end.
  match goal with H : type_fields _ _ = _ |- _ => apply type_fields_ok in H as (Ht & Hv) end.
  pose proof (common_ok_view _ _ _ Hv Hc) as Hc'.
  assert (identity_view h' = identity_view x) as Hi' by (unfold common_view in Hv; congruence).
  split; [|congruence]. split_and!; [done..|]. by rewrite (has_relations_view _ _ Hi').
Qed.

Lemma identity_view_id r r' : identity_view r' = identity_view r → r_ID r' = r_ID r.
Proof. unfold identity_view. congruence. Qed.

Lemma Forall2_fmap_eq {A B C} (g : A → C) (h : B → C) (R : A → B → Prop) l k :
  Forall2 R l k → (∀ x y, R x y → h y = g x) → h <$> k = g <$> l.
Proof. induction 1 as [|x y l k HR _ IH]; intros HRg; [done|]. rewrite !fmap_cons. f_equal; auto. Qed.

Lemma Validate_spec cfg cfg' :
  Validate cfg = Ok cfg' →
  well_formed cfg' ∧
  c_Version cfg' = c_Version cfg ∧
  h_Name <$> c_Inventory cfg' = h_Name <$> c_Inventory cfg ∧
  identity_view <$> c_Resources cfg' = identity_view <$> c_Resources cfg ∧
  identity_view <$> c_Handlers cfg' = identity_view <$> c_Handlers cfg.
Proof.
  unfold Validate. intros H. res_inv. rename l into hosts, l0 into rs, l1 into hs.
  match goal with H : validate_execution _ = _ |- _ => apply validate_execution_ok in H as He end.
  match goal with H : validate_hosts _ _ _ = _ |- _ =>
    apply validate_hosts_ok in H as (Hho & Hhn & Hhnd & _ & ->) end.
  match goal with H : validate_owned OwnerResource _ _ _ _ = _ |- _ => rename H into Hrs end.
  match goal with H : validate_owned OwnerHandler _ _ _ _ = _ |- _ => rename H into Hhs end.
  rewrite (right_id_L ∅ (∪)), <-Hhn in Hrs, Hhs.
  eapply (validate_owned_ok _ _ (λ r', common_ok _ r' ∧ type_ok r' ∧ clean_set norm (r_Tags r')))
    in Hrs as (Hrf & Hro & Hrn & Hrnd & _ & ->); cycle 1.
  { intros r r' Hb Hr. apply validate_resource_ok in Hr as [? ?%identity_view_id]; done. }
  eapply (validate_owned_ok _ _ (λ r', common_ok _ r' ∧ type_ok r' ∧ has_relations r' = false))
    in Hhs as (Hhf & Hhok & Hhsn & Hhsnd & _ & ->); cycle 1.
  { intros r r' Hb Hr. apply validate_handler_ok in Hr as [? ?%identity_view_id]; done. }
  match goal with H : validate_references _ _ _ = Ok ?u |- _ =>
    destruct u; apply validate_references_Ok in H as Hrefs end.
  rewrite !(right_id_L ∅ (∪)) in Hrefs.
  split; [split; simpl; try done|split_and!; simpl; try done].
  - by rewrite Hhn.
  - by rewrite Hrn.
  - by rewrite Hhsn.
  - unfold ids. by rewrite Hrn, Hhsn.
  - eapply Forall2_fmap_eq; [exact Hrf|]. intros r r' [? Hr]. by apply validate_resource_ok in Hr as [_ ->].
  - eapply Forall2_fmap_eq; [exact Hhf|]. intros r r' [? Hr]. by apply validate_handler_ok in Hr as [_ ->].
Qed.

Lemma Validate_fixed cfg : well_formed cfg → Validate cfg = Ok cfg.
Proof.
  intros [Hv He Hh Hhn Hr Hri Hhd Hhi Hrefs]. unfold Validate.
  rewrite fail_if_false by done. rewrite validate_execution_fixed by done. cbn [bind].
  rewrite validate_hosts_fixed; [|done..|set_solver]. cbn [bind]. rewrite (right_id_L ∅ (∪)).
  fold (host_names cfg).
  rewrite validate_owned_fixed; [|  |done|set_solver]; cycle 1.
  { eapply Forall_impl; [exact Hr|]. intros r (Hc & Ht & Htags). split; [apply Hc|].
    unfold validate_resource. rewrite common_fields_fixed by done. cbn [bind].
    rewrite type_fields_fixed by done. cbn [bind]. rewrite clean_set_fixed by done. by destruct r. }
  cbn [bind]. rewrite (right_id_L ∅ (∪)).
  rewrite validate_owned_fixed; [|  |done|set_solver]; cycle 1.
  { eapply Forall_impl; [exact Hhd|]. intros r (Hc & Ht & Hrel). split; [apply Hc|].
    unfold validate_handler. rewrite common_fields_fixed by done. cbn [bind]. rewrite Hrel.
    simpl. by apply type_fields_fixed. }
  cbn [bind]. rewrite (right_id_L ∅ (∪)).
  apply validate_references_Ok in Hrefs. unfold ids in Hrefs. rewrite Hrefs. by destruct cfg.
Qed.

(** What the planner needs of a configuration is what validation establishes. *)
Lemma well_formed_plannable cfg : well_formed cfg → plannable (c_Resources cfg).
Proof.
  intros [_ _ _ _ _ Hid _ _ [Hrefs _]]. split; [done|].
  intros u v (r & Huv & Hr)%list_elem_of_bind.
  destruct (Hrefs r Hr) as [Hall _]. rewrite Forall_forall in Hall.
  assert (r_ID r ∈ ids (c_Resources cfg)) as Hr' by (apply elem_of_ids; eauto).
  unfold resource_edges in Huv. rewrite elem_of_app, !list_elem_of_fmap in Huv.
  destruct Huv as [(d & [= -> ->] & Hd)|(d & [= -> ->] & Hd)]; (split; [|]); try done;
    apply Hall; set_solver.
Qed.

Lemma discoverHostTransport_range h :
  discoverHostTransport h ∈ ["local"; "winrm"; "ssh"].
Proof.
  unfold discoverHostTransport.
  repeat match goal with |- context [if ?c then _ else _] => destruct c end; set_solver.
Qed.

Lemma resolveHostTransport_spec h :
  let t := if eqs (norm (h_Transport h)) "" then "local" else norm (h_Transport h) in
  h_Name (resolveHostTransport h) = h_Name h ∧
  h_Transport (resolveHostTransport h) = if eqs t "auto" then discoverHostTransport h else t.
Proof.
  unfold resolveHostTransport. simpl.
  destruct (eqs (norm (h_Transport h)) ""); simpl; [done|]. by destruct (eqs _ "auto").
Qed.

Lemma host_by_name_lookup hs n :
  n ∈ h_Name <$> hs → NoDup (h_Name <$> hs) →
  ∃ h, h ∈ hs ∧ h_Name h = n ∧ host_by_name hs !! n = Some (resolveHostTransport h).
Proof.
  unfold host_by_name. generalize (∅ : gmap string Host).
  induction hs as [|h hs IH]; intros m Hn Hnd; [by apply elem_of_nil in Hn|].
  rewrite fmap_cons in *. apply NoDup_cons in Hnd as [Hh Hnd]. cbn [foldl].
  apply elem_of_cons in Hn as [->|Hn].
  - exists h. split_and!; [left|done|].
    assert (∀ m' : gmap string Host, m' !! h_Name h = Some (resolveHostTransport h) →
      foldl (λ m h, <[h_Name h := resolveHostTransport h]> m) m' hs !! h_Name h =
        Some (resolveHostTransport h)) as Hkeep.
    { clear -Hh. induction hs as [|h' hs IH]; intros m' Hm'; cbn [foldl]; [done|].
      rewrite fmap_cons in Hh. apply IH; [set_solver|]. rewrite lookup_insert_ne; [done|]. set_solver. }
    apply Hkeep, lookup_insert_eq.
  - destruct (IH (<[h_Name h := resolveHostTransport h]> m) Hn Hnd) as (h' & ? & ? & ?).
    exists h'. split_and!; [by right|done..].
Qed.

(** The host a validated resource runs on: declared, with a concrete transport. *)
Definition runs_on (cfg : Config) (r : Resource) (h : Host) : Prop :=
  host_by_name (c_Inventory cfg) !! exec_host r = Some h ∧ h_Name h = exec_host r ∧
  h_Transport h ≠ "auto" ∧ transport_ok (h_Transport h) = true.

Lemma well_formed_runs_on cfg r :
  well_formed cfg → common_ok (host_names cfg) r → ∃ h, runs_on cfg r h.
Proof.
  intros Hwf Hco. assert (exec_host r ∈ h_Name <$> c_Inventory cfg) as Hin.
  { unfold exec_host. destruct Hco as [_ Hh Hd _ _ _ _]. unfold host_names in *.
    rewrite elem_of_list_to_set in *. destruct Hd as [->|Hd]; [done|]. by destruct (blank _). }
  destruct (host_by_name_lookup _ _ Hin (wf_host_names _ Hwf)) as (h & Hh & Hn & Hl).
  pose proof (wf_hosts _ Hwf) as Hok. rewrite Forall_forall in Hok. specialize (Hok h Hh).
  destruct (resolveHostTransport_spec h) as [Hname Htr]. destruct Hok as [_ [Ht Htne] Htok _ _ _ _ _ _ _].
  rewrite Ht in Htr. apply eqs_false in Htne. rewrite Htne in Htr.
  exists (resolveHostTransport h). unfold runs_on. rewrite Hname, Htr. split_and!; [done|done| |].
  - destruct (eqs (h_Transport h) "auto") eqn:Ha; [|by apply eqs_false].
    pose proof (discoverHostTransport_range h) as Hd. intros Hx. rewrite Hx in Hd.
    by apply (bool_decide_pack _) in Hd.
  - destruct (eqs (h_Transport h) "auto") eqn:Ha; [|done].
    pose proof (discoverHostTransport_range h) as Hr. unfold transport_ok. apply orb_true_iff. left.
    apply one_of_true. revert Hr. rewrite !elem_of_cons. tauto.
Qed.

(** ** Theorems *)

(** On a valid configuration with ids that contain ["->"], [Build] can return a plan that runs a
    resource before one it depends on. *)
Theorem Build_arrow_ids_lose_edge :
  Validate arrow_config = Ok arrow_config ∧
  plannable (c_Resources arrow_config) ∧
  Build arrow_config = Ok (plan_or_empty arrow_config) ∧
  edge (c_Resources arrow_config) "z" "b->c" ∧
  precedes (plan_ids (plan_or_empty arrow_config)) "b->c" "z" ∧
  ¬ precedes (plan_ids (plan_or_empty arrow_config)) "z" "b->c".
Proof.
  split_and!.
  - by vm_compute.
  - apply plannableb_spec. by vm_compute.
  - by vm_compute.
  - apply (bool_decide_unpack _). by vm_compute.
  - exists [], [], ["z->b"; "c"]. by vm_compute.
  - assert (plan_ids (plan_or_empty arrow_config) = ["b->c"; "z"; "z->b"; "c"]) as ->
      by by vm_compute.
    intros ([|? l1] & l2 & l3 & Heq); [done|]. injection Heq as _ Heq.
    assert ("b->c" ∈ ["z"; "z->b"; "c"]) as Hin by (rewrite Heq; set_solver).
    by apply (bool_decide_pack _) in Hin.
Qed.

(** C3: an accepted configuration is well formed; its hosts, and the ids, types,
    hosts, delegates and relations of its resources and handlers are the declared ones. *)
Theorem Validate_sound cfg cfg' :
  Validate cfg = Ok cfg' →
  well_formed cfg' ∧
  c_Version cfg' = c_Version cfg ∧
  h_Name <$> c_Inventory cfg' = h_Name <$> c_Inventory cfg ∧
  identity_view <$> c_Resources cfg' = identity_view <$> c_Resources cfg ∧
  identity_view <$> c_Handlers cfg' = identity_view <$> c_Handlers cfg.
Proof. apply Validate_spec. Qed.

(** A configuration is accepted unchanged exactly when it is well formed, and
    validating the outcome of a validation changes nothing. *)
Theorem Validate_idempotent cfg :
  (well_formed cfg ↔ Validate cfg = Ok cfg) ∧
  (∀ cfg', Validate cfg = Ok cfg' → Validate cfg' = Ok cfg').
Proof.
  split; [split|].
  - apply Validate_fixed.
  - by intros [? _]%Validate_spec.
  - intros cfg' [? _]%Validate_spec. by apply Validate_fixed.
Qed.

(** Validation establishes what the planner relies on: distinct ids, resolved
    references, and for every resource and handler a declared host whose resolved
    transport is a supported one, never [auto]. *)
Theorem Validate_discharges_planner cfg cfg' :
  Validate cfg = Ok cfg' →
  plannable (c_Resources cfg') ∧
  (∀ r, r ∈ c_Resources cfg' ++ c_Handlers cfg' → blank (r_ID r) = false ∧ ∃ h, runs_on cfg' r h).
Proof.
  intros [Hwf _]%Validate_spec. split; [by apply well_formed_plannable|].
  intros r Hr. assert (common_ok (host_names cfg') r) as Hco.
  { destruct Hwf as [_ _ _ _ Hrs _ Hhs _ _]. rewrite Forall_forall in Hrs, Hhs.
    apply elem_of_app in Hr as [Hr|Hr]; [by apply Hrs|by apply Hhs]. }
  split; [apply Hco|]. by apply well_formed_runs_on.
Qed.

(** ** Witnesses *)

(** Spaces, upper case, duplicates: what a hand-written file may hold. *)
Definition messy_config : Config :=
  zeroConfig <| c_Version := "v0" |>
    <| c_Execution := zeroExecution <| e_Strategy := " Serial " |> <| e_FailureDomain := "ZONE" |> |>
    <| c_Inventory := [zeroHost <| h_Name := "h1" |> <| h_Capabilities := ["SSH"; " ssh"; "local"] |>
                         <| h_Labels := {[ " OS " := " Linux " ]} |>;
                       zeroHost <| h_Name := "h2" |> <| h_Transport := " Auto " |>
                         <| h_Address := " localhost " |>] |>
    <| c_Resources := [(command_on "h1" "a" []) <| r_Tags := ["Web"; "web "; "db"] |>
                         <| r_RetryBackoff := " Linear " |> <| r_Notify := ["b"] |>;
                       (command_on "h2" "b" ["a"]) <| r_RefreshOnly := true |>
                         <| r_BecomeUser := " root " |>] |>
    <| c_Handlers := [command_on "h1" "restart" []] |>.

Definition validated (cfg : Config) : Config :=
  match Validate cfg with Ok cfg' => cfg' | Err _ => zeroConfig end.

Example messy_config_validated :
  h_Transport <$> c_Inventory (validated messy_config) = ["local"; "auto"] ∧
  h_Capabilities <$> c_Inventory (validated messy_config) = [["local"; "ssh"]; []] ∧
  r_Tags <$> c_Resources (validated messy_config) = [["db"; "web"]; []] ∧
  r_Become <$> c_Resources (validated messy_config) = [false; true].
Proof. by vm_compute. Qed.

Lemma Validate_sound_witness :
  Validate messy_config = Ok (validated messy_config) ∧ well_formed (validated messy_config).
Proof.
  assert (Validate messy_config = Ok (validated messy_config)) as H by by vm_compute.
  split; [done|]. exact (proj1 (Validate_sound _ _ H)).
Defined.

Lemma Validate_discharges_planner_witness :
  plannable (c_Resources (validated messy_config)) ∧
  length (c_Resources (validated messy_config)) = 2%nat.
Proof.
  assert (Validate messy_config = Ok (validated messy_config)) as H by by vm_compute.
  split; [|by vm_compute]. exact (proj1 (Validate_discharges_planner _ _ H)).
Defined.
