(* ===== verification/Shell.v ===== *)
(** * Command lines of the executor

    The pure functions of [internal/executor/executor.go] that build what is
    handed to a shell: quoting, [sudo] wrapping, ssh arguments, the scripts run
    on a remote host, and the audit messages.  The specification of the quoting
    is a tokenizer for the fragment of the POSIX shell these strings use. *)

From S2P Require Import Prelude Model Planner.

(** ['"'"'] *)
Definition quoted_squote : string := sq +:+ dq +:+ sq +:+ dq +:+ sq.

Definition shellQuote (s : string) : string :=
  if eqs s "" then sq +:+ sq
  else sq +:+ replace_char squote quoted_squote s +:+ sq.

Definition quotePowerShell (s : string) : string :=
  sq +:+ replace_char squote (sq +:+ sq) s +:+ sq.

Definition wrapWithSudo (command user : string) : string :=
  if blank user then "sudo sh -lc " +:+ shellQuote command
  else "sudo -u " +:+ shellQuote user +:+ " sh -lc " +:+ shellQuote command.

Definition appendAuditMessage (message audit : string) : string :=
  let message := TrimSpace message in
  let audit := TrimSpace audit in
  if eqs audit "" then message
  else if eqs message "" then audit
  else message +:+ "; " +:+ audit.

Definition isLocalWinRMHost (h : Host) : bool :=
  let target := norm (h_Address h) in
  let target := if eqs target "" then norm (h_Name h) else target in
  is_loopback target.

(** [prepareResourceForExecution]: the resource to run, the audit text, or an error. *)
Definition prepareResourceForExecution (host : Host) (r : Resource)
    : result string (Resource * string) :=
  if negb (eqs (r_Type r) "command") || negb (r_Become r) then Ok (r, "")
  else
    let transport := norm (h_Transport host) in
    let r := r <| r_BecomeUser := TrimSpace (r_BecomeUser r) |> in
    let audit := "privilege escalation via sudo" in
    let audit := if negb (eqs (r_BecomeUser r) "") then audit +:+ " as " +:+ r_BecomeUser r
                 else audit in
    if one_of transport ["local"; "ssh"] then
      let r := r <| r_Command := wrapWithSudo (r_Command r) (r_BecomeUser r) |> in
      let r := if negb (blank (r_OnlyIf r))
               then r <| r_OnlyIf := wrapWithSudo (r_OnlyIf r) (r_BecomeUser r) |> else r in
      let r := if negb (blank (r_Unless r))
               then r <| r_Unless := wrapWithSudo (r_Unless r) (r_BecomeUser r) |> else r in
      Ok (r, audit)
    else if eqs transport "winrm" then
      Err ("resource " +:+ dq +:+ r_ID r +:+ dq +:+
           " uses become, but winrm escalation is not supported")
    else Ok (r, audit).

(** ** ssh *)

Definition buildSSHJumpTarget (h : Host) : string :=
  let jumpHost := TrimSpace (h_JumpAddress h) in
  if eqs jumpHost "" then ""
  else
    let jumpHost := if negb (blank (h_JumpUser h))
                    then TrimSpace (h_JumpUser h) +:+ "@" +:+ jumpHost else jumpHost in
    if 0 <? h_JumpPort h then jumpHost +:+ ":" +:+ Itoa (h_JumpPort h) else jumpHost.

Definition buildSSHArgs (h : Host) (script : string) : list string :=
  let target := TrimSpace (h_Address h) in
  let target := if eqs target "" then TrimSpace (h_Name h) else target in
  let target := if negb (blank (h_User h)) then TrimSpace (h_User h) +:+ "@" +:+ target
                else target in
  let jump := buildSSHJumpTarget h in
  let proxy := TrimSpace (h_ProxyCommand h) in
  (if 0 <? h_Port h then ["-p"; Itoa (h_Port h)] else []) ++
  (if eqs jump "" then [] else ["-J"; jump]) ++
  (if eqs proxy "" then [] else ["-o"; "ProxyCommand=" +:+ proxy]) ++
  [target; "sh"; "-lc"; script].

(** The script [applyOverSSH] runs for a command resource. *)
Definition sshCommandScript (r : Resource) : string :=
  (if eqs (r_Creates r) "" then "" else
     "if [ -e " +:+ shellQuote (r_Creates r) +:+
     " ]; then echo __MASTERCHEF_SKIP_CREATES__; exit 0; fi" +:+ newline) +:+
  (if eqs (r_Unless r) "" then "" else
     "if sh -lc " +:+ shellQuote (r_Unless r) +:+
     " >/dev/null 2>&1; then echo __MASTERCHEF_SKIP_UNLESS__; exit 0; fi" +:+ newline) +:+
  "sh -lc " +:+ shellQuote (r_Command r) +:+ newline.

Definition HasSuffix_nl (s : string) : bool :=
  bool_decide (drop_str (String.length s - 1) s = newline).

(** ... and for a file resource, with the heredoc marker as an argument;
    [dir] is [filepath.Dir(r.Path)]. *)
Definition sshFileScript (marker dir : string) (r : Resource) : string :=
  "mkdir -p " +:+ shellQuote dir +:+ newline +:+ "cat > " +:+ shellQuote (r_Path r) +:+
  " <<" +:+ sq +:+ marker +:+ sq +:+ newline +:+ r_Content r +:+
  (if HasSuffix_nl (r_Content r) then "" else newline) +:+ marker +:+ newline +:+
  (if eqs (r_Mode r) "" then "" else
     "chmod " +:+ shellQuote (r_Mode r) +:+ " " +:+ shellQuote (r_Path r) +:+ newline).

(** ** The PowerShell of the WinRM transport *)

Definition winrmFileScript (r : Resource) : string :=
  "Set-Content -Path " +:+ quotePowerShell (r_Path r) +:+ " -Value " +:+
  quotePowerShell (r_Content r) +:+
  (if eqs (r_Mode r) "" then ""
   else "; # mode mapping for winrm is provider-specific and currently advisory").

Definition winrmCommandScript (r : Resource) : string :=
  let ps := r_Command r in
  let ps := if eqs (r_Creates r) "" then ps else
    "if (Test-Path " +:+ quotePowerShell (r_Creates r) +:+ ") { Write-Output '" +:+
    "__MASTERCHEF_SKIP_CREATES__'; exit 0 }; " +:+ ps in
  if eqs (r_Unless r) "" then ps else
    "if (" +:+ r_Unless r +:+ ") { Write-Output '__MASTERCHEF_SKIP_UNLESS__'; exit 0 }; " +:+ ps.

(** The outcome a remote transport reports from the output of its script:
    changed, skipped, message, error. *)
Definition remote_outcome (out : string) (err : option string)
    : bool * bool * string * option string :=
  let outText := TrimSpace out in
  if eqs outText "__MASTERCHEF_SKIP_CREATES__" || eqs outText "__MASTERCHEF_SKIP_UNLESS__"
  then (false, true, outText, None)
  else match err with
       | Some e => (false, false, outText, Some e)
       | None => (true, false, outText, None)
       end.

(** ** Specification: how a shell splits a line *)

Inductive sh_mode := Unquoted | InSingle | InDouble.

(** Characters with a meaning of their own outside quotes. *)
Definition sh_special (c : ascii) : bool :=
  bool_decide (c ∈ [dquote; squote; "\"; "$"; "`"; "&"; "|"; ";"; "<"; ">"; "("; ")"; "*"; "?";
                    "["; "]"; "{"; "}"; "#"; "~"; "!"; "010"]%char).

(** The words of a simple command, [None] outside the modelled fragment (an
    unquoted special character, an open quote, an expansion inside double
    quotes). [cur] is the word being read. *)
Fixpoint sh_split (m : sh_mode) (cur : option string) (s : string) : option (list string) :=
  match s, m with
  | EmptyString, Unquoted => Some (option_list cur)
  | EmptyString, _ => None
  | String c s, Unquoted =>
      if bool_decide (c = " "%char) then (app (option_list cur)) <$> sh_split Unquoted None s
      else if bool_decide (c = squote) then sh_split InSingle (Some (default "" cur)) s
      else if bool_decide (c = dquote) then sh_split InDouble (Some (default "" cur)) s
      else if sh_special c then None
      else sh_split Unquoted (Some (default "" cur +:+ String c "")) s
  | String c s, InSingle =>
      if bool_decide (c = squote) then sh_split Unquoted cur s
      else sh_split InSingle (Some (default "" cur +:+ String c "")) s
  | String c s, InDouble =>
      if bool_decide (c = dquote) then sh_split Unquoted cur s
      else if bool_decide (c ∈ ["\"; "$"; "`"; "!"]%char) then None
      else sh_split InDouble (Some (default "" cur +:+ String c "")) s
  end.

Definition shell_words (s : string) : option (list string) := sh_split Unquoted None s.

(** A PowerShell single-quoted literal: the text it denotes and what follows. *)
Fixpoint ps_literal_body (s : string) : option (string * string) :=
  match s with
  | EmptyString => None
  | String c s =>
      if bool_decide (c = squote) then
        match s with
        | String d s' =>
            if bool_decide (d = squote) then
              '(t, rest) ← ps_literal_body s'; Some (String squote t, rest)
            else Some ("", s)
        | EmptyString => Some ("", "")
        end
      else '(t, rest) ← ps_literal_body s; Some (String c t, rest)
  end.

(** ** Quoting is transparent *)

Lemma quoted_squote_split cur x :
  sh_split InSingle (Some cur) (quoted_squote +:+ x) = sh_split InSingle (Some (cur +:+ sq)) x.
Proof. reflexivity. Qed.

Lemma quoted_body_split cur s rest :
  sh_split InSingle (Some cur) (replace_char squote quoted_squote s +:+ sq +:+ rest) =
  sh_split Unquoted (Some (cur +:+ s)) rest.
Proof.
  revert cur; induction s as [|c s IH]; intros cur; cbn [replace_char].
  - by rewrite append_nil, append_nil_r.
  - case_bool_decide as Hc.
    + subst c. rewrite append_assoc, quoted_squote_split, IH, append_assoc. done.
    + rewrite append_cons. cbn [sh_split]. rewrite bool_decide_false by done.
      cbn [default from_option id]. by rewrite IH, append_assoc.
Qed.

Lemma shellQuote_split cur s rest :
  sh_split Unquoted cur (shellQuote s +:+ rest) =
  sh_split Unquoted (Some (default "" cur +:+ s)) rest.
Proof.
  unfold shellQuote. destruct (eqs s "") eqn:He.
  - apply eqs_true in He as ->. by rewrite append_nil_r.
  - rewrite !append_assoc. change (sq +:+ ?x) with (String squote x).
    cbn [sh_split]. rewrite bool_decide_false by done. rewrite bool_decide_true by done.
    change (String squote rest) with (sq +:+ rest). by rewrite quoted_body_split.
Qed.

(** A plain word followed by a space, read by computation. *)
Lemma shell_words_sudo cmd :
  shell_words ("sudo sh -lc " +:+ shellQuote cmd) = Some ["sudo"; "sh"; "-lc"; cmd].
Proof.
  rewrite <-(append_nil_r (shellQuote cmd)).
  change (shell_words ("sudo sh -lc " +:+ ?x)) with
    (app ["sudo"] <$> (app ["sh"] <$> (app ["-lc"] <$> sh_split Unquoted None x))).
  by rewrite shellQuote_split.
Qed.

Lemma shell_words_sudo_user user cmd :
  shell_words ("sudo -u " +:+ shellQuote user +:+ " sh -lc " +:+ shellQuote cmd) =
  Some ["sudo"; "-u"; user; "sh"; "-lc"; cmd].
Proof.
  change (shell_words ("sudo -u " +:+ ?x)) with
    (app ["sudo"] <$> (app ["-u"] <$> sh_split Unquoted None x)).
  rewrite shellQuote_split. cbn [default from_option id]. rewrite append_nil.
  rewrite <-(append_nil_r (shellQuote cmd)).
  change (sh_split Unquoted (Some user) (" sh -lc " +:+ ?x)) with
    (app [user] <$> (app ["sh"] <$> (app ["-lc"] <$> sh_split Unquoted None x))).
  by rewrite shellQuote_split.
Qed.

Lemma ps_quote_body s rest :
  match rest with String c _ => c ≠ squote | EmptyString => True end →
  ps_literal_body (replace_char squote (sq +:+ sq) s +:+ sq +:+ rest) = Some (s, rest).
Proof.
  intros Hrest. induction s as [|c s IH]; cbn [replace_char].
  - rewrite append_nil. destruct rest as [|c rest]; [done|].
    change (sq +:+ String c rest) with (String squote (String c rest)). cbn [ps_literal_body].
    rewrite bool_decide_true by done. by rewrite bool_decide_false.
  - case_bool_decide as Hc.
    + subst c. rewrite append_assoc.
      change ((sq +:+ sq) +:+ ?x) with (String squote (String squote x)). cbn [ps_literal_body].
      rewrite !bool_decide_true by done. by rewrite IH.
    + rewrite append_cons. cbn [ps_literal_body]. rewrite bool_decide_false by done. by rewrite IH.
Qed.

(** ** Theorems *)

(** C4: quoting is transparent to the shell, whatever the command and the user
    contain: what [shellQuote] gives is read as one word, the text itself; the line
    that [wrapWithSudo] builds is split into exactly the intended words; and a
    literal of [quotePowerShell] denotes the original text. *)
Theorem quoting_is_transparent command user :
  shell_words (shellQuote command) = Some [command] ∧
  shell_words (wrapWithSudo command user) =
    Some (if blank user then ["sudo"; "sh"; "-lc"; command]
          else ["sudo"; "-u"; user; "sh"; "-lc"; command]) ∧
  (∃ body, quotePowerShell command = String squote body ∧
           ps_literal_body body = Some (command, "")).
Proof.
  split_and!.
  - unfold shell_words. rewrite <-(append_nil_r (shellQuote command)). by rewrite shellQuote_split.
  - unfold wrapWithSudo. destruct (blank user).
    + apply shell_words_sudo.
    + apply shell_words_sudo_user.
  - eexists. split; [reflexivity|]. rewrite <-(append_nil_r sq) at 2. by apply ps_quote_body.
Qed.

(** Escalation wraps the command and its guards for local and ssh hosts, is
    refused on winrm, left to the transport elsewhere, and no other resource is touched. *)
Theorem prepare_escalation host r :
  let escalated := eqs (r_Type r) "command" && r_Become r in
  let user := TrimSpace (r_BecomeUser r) in
  match prepareResourceForExecution host r with
  | Err _ => escalated = true ∧ norm (h_Transport host) = "winrm"
  | Ok (r', _) =>
      if escalated && one_of (norm (h_Transport host)) ["local"; "ssh"] then
        shell_words (r_Command r') =
          Some (if eqs user "" then ["sudo"; "sh"; "-lc"; r_Command r]
                else ["sudo"; "-u"; user; "sh"; "-lc"; r_Command r]) ∧
        (blank (r_OnlyIf r) = true → r_OnlyIf r' = r_OnlyIf r) ∧
        r_ID r' = r_ID r ∧ r_Creates r' = r_Creates r
      else if escalated then
        norm (h_Transport host) ≠ "winrm" ∧ r' = r <| r_BecomeUser := user |>
      else r' = r
  end.
Proof.
  unfold prepareResourceForExecution. destruct (eqs (r_Type r) "command"); simpl; [|done].
  destruct (r_Become r); simpl; [|done]. set (t := norm (h_Transport host)).
  set (user := TrimSpace (r_BecomeUser r)).
  assert (blank user = eqs user "") as Hu by (unfold user, blank; by rewrite TrimSpace_idemp).
  destruct (one_of t ["local"; "ssh"]) eqn:Hone.
  - destruct (blank (r_OnlyIf r)) eqn:Hoi; simpl; destruct (blank (r_Unless r)); simpl;
      unfold wrapWithSudo; rewrite Hu;
      (split_and!; [destruct (eqs user ""); [apply shell_words_sudo|apply shell_words_sudo_user]|done..]).
  - destruct (eqs t "winrm") eqn:Hw; simpl; [by apply eqs_true in Hw|].
    split; [by apply eqs_false|done].
Qed.
