(* ===== verification/Retry.v ===== *)
(** * Retry timing

    [normalizeRetryBackoff], [retryDelayForAttempt] and [retryJitterForAttempt]
    of [internal/executor/executor.go], on 64-bit durations. *)

From S2P Require Import Prelude Model.

Definition normalizeRetryBackoff (mode : string) : string :=
  let mode := norm mode in
  if one_of mode [""; "constant"; "linear"; "exponential"] then mode else "".

Definition retryDelayForAttempt (base : Duration) (attempt : Z) (mode : string) : Duration :=
  if (base <=? 0) || (attempt <=? 0) then 0
  else if eqs mode "linear" then wrap64 (base * attempt)
  else if eqs mode "exponential" then
    let attempt := if 30 <? attempt then 30 else attempt in
    wrap64 (base * wrap64 (Z.shiftl 1 (attempt - 1)))
  else base.

(** [int64(n) % (maxNanos+1)]: Go's remainder truncates. *)
Definition retryJitterForAttempt (resourceID : string) (attempt : Z) (max : Duration) : Duration :=
  if (max <=? 0) || (attempt <=? 0) then 0
  else Z.rem (fnv32a (TrimSpace resourceID +:+ ":" +:+ Itoa attempt)) (wrap64 (max + 1)).

(** ** Lemmas *)

Lemma shiftl_bounds n : 0 ≤ n ≤ 29 → 1 ≤ Z.shiftl 1 n ≤ 2 ^ 29.
Proof.
  intros Hn. rewrite Z.shiftl_mul_pow2, Z.mul_1_l by lia. split.
  - pose proof (Z.pow_pos_nonneg 2 n). lia.
  - apply Z.pow_le_mono_r; lia.
Qed.

Lemma product_int64 a b :
  0 ≤ a ≤ 17179869183 → 0 ≤ b ≤ 2 ^ 29 → 0 ≤ a * b ≤ max_int64.
Proof.
  intros Ha Hb. split; [lia|].
  transitivity (17179869183 * 2 ^ 29); [apply Z.mul_le_mono_nonneg; lia|by vm_compute].
Qed.

(** The largest base whose exponential delays never overflow. *)
Definition max_exponential_base : Z := 17179869183.

(** ** Theorems *)

(** C5: a delay is never negative and at least the base while nothing
    overflows; linear backoff grows by the base, exponential backoff doubles and
    is capped at the thirtieth attempt; the jitter stays within its maximum. *)
Theorem retry_timing base attempt mode id jmax :
  0 < base ≤ max_exponential_base → 1 ≤ attempt ≤ 2 ^ 29 →
  base ≤ retryDelayForAttempt base attempt mode ≤ max_int64 ∧
  retryDelayForAttempt base attempt "linear" = base * attempt ∧
  retryDelayForAttempt base attempt "exponential" = base * 2 ^ (Z.min attempt 30 - 1) ∧
  retryDelayForAttempt base attempt "constant" = base ∧
  (0 < jmax ≤ max_int64 → 0 ≤ retryJitterForAttempt id attempt jmax ≤ jmax).
Proof.
  unfold max_exponential_base. intros Hb Ha.
  pose proof (product_int64 base attempt ltac:(lia) ltac:(lia)) as Hprod.
  assert (retryDelayForAttempt base attempt "linear" = base * attempt) as Hlin.
  { unfold retryDelayForAttempt. replace ((base <=? 0) || (attempt <=? 0)) with false by lia.
    simpl. apply wrap64_small. unfold int64, min_int64. lia. }
  assert (retryDelayForAttempt base attempt "exponential" =
          base * 2 ^ (Z.min attempt 30 - 1)) as Hexp.
  { unfold retryDelayForAttempt. replace ((base <=? 0) || (attempt <=? 0)) with false by lia.
    simpl. replace (if 30 <? attempt then 30 else attempt) with (Z.min attempt 30)
      by (destruct (Z.ltb_spec 30 attempt); lia).
    pose proof (shiftl_bounds (Z.min attempt 30 - 1)) as Hs.
    rewrite (wrap64_small (Z.shiftl _ _)); [|unfold int64, min_int64, max_int64; lia].
    rewrite wrap64_small; [|unfold int64, min_int64;
      pose proof (product_int64 base (Z.shiftl 1 (Z.min attempt 30 - 1))); lia].
    by rewrite Z.shiftl_mul_pow2, Z.mul_1_l by lia. }
  assert (1 ≤ 2 ^ (Z.min attempt 30 - 1) ≤ 2 ^ 29) as Hp.
  { pose proof (shiftl_bounds (Z.min attempt 30 - 1)) as Hs.
    rewrite Z.shiftl_mul_pow2, Z.mul_1_l in Hs by lia. lia. }
  pose proof (product_int64 base (2 ^ (Z.min attempt 30 - 1)) ltac:(lia) ltac:(lia)) as Hprod'.
  assert (base ≤ max_int64) as Hbm by (unfold max_int64; lia).
  split; [|split_and!; [done|done| |]].
  - destruct (eqs mode "linear") eqn:Hl; [apply eqs_true in Hl as ->; rewrite Hlin; nia|].
    destruct (eqs mode "exponential") eqn:He; [apply eqs_true in He as ->; rewrite Hexp; nia|].
    unfold retryDelayForAttempt. rewrite Hl, He. 
    replace ((base <=? 0) || (attempt <=? 0)) with false by lia. lia.
  - unfold retryDelayForAttempt. by replace ((base <=? 0) || (attempt <=? 0)) with false by lia.
  - intros Hj. unfold retryJitterForAttempt.
    replace ((jmax <=? 0) || (attempt <=? 0)) with false by lia.
    set (n := fnv32a _). pose proof (fnv32a_bound (TrimSpace id +:+ ":" +:+ Itoa attempt)) as Hn.
    fold n in Hn. unfold max_int64 in *. destruct (decide (jmax = 2 ^ 63 - 1)) as [->|Hne].
    + replace (wrap64 (2 ^ 63 - 1 + 1)) with (- 2 ^ 63) by done.
      rewrite Z.rem_opp_r by lia. rewrite Z.rem_small by lia. lia.
    + rewrite wrap64_small by (unfold int64, min_int64, max_int64; lia).
      pose proof (Z.rem_bound_pos n (jmax + 1)). lia.
Qed.

(** From a base of 18 seconds the thirtieth exponential delay overflows to a
    negative duration, so the executor does not wait at all before that attempt
    ([if delay > 0]). *)
Theorem exponential_delay_overflows :
  retryDelayForAttempt (seconds 18) 30 "exponential" < 0 ∧
  retryDelayForAttempt (seconds 17) 30 "exponential" = 17 * Second * 2 ^ 29.
Proof. by vm_compute. Qed.

Lemma retry_timing_witness :
  retryDelayForAttempt (seconds 5) 4 "exponential" = seconds 40.
Proof.
  destruct (retry_timing (seconds 5) 4 "exponential" "web" 0) as (_ & _ & H & _);
    [by vm_compute|by vm_compute|]. rewrite H. by vm_compute.
Defined.
