(* ===== verification/Serial.v ===== *)
(** * The serial strategy

    [serialOrderedSteps] and [orderedHostsByFailureDomain] of
    [internal/executor/executor.go]: the steps of a plan regrouped in batches of
    hosts, the hosts interleaved over the failure domains. *)

From S2P Require Import Prelude Model Planner Validate.

Definition step_host (s : Step) : string :=
  let host := TrimSpace (h_Name (s_Host s)) in
  let host := if eqs host "" then TrimSpace (r_Host (s_Resource s)) else host in
  if eqs host "" then "unknown-host" else host.

(** First occurrences, in order, and the host record first seen for each name. *)
Fixpoint collect_hosts (seen : gset string) (steps : list Step) : list string :=
  match steps with
  | [] => []
  | s :: steps' =>
      if decide (step_host s ∈ seen) then collect_hosts seen steps'
      else step_host s :: collect_hosts ({[step_host s]} ∪ seen) steps'
  end.

Definition first_host_records (steps : list Step) : gmap string Host :=
  foldl (λ m s, if decide (is_Some (m !! step_host s)) then m
                else <[step_host s := s_Host s]> m) ∅ steps.

(** ** Interleaving over failure domains *)

Definition host_domain (hosts : gmap string Host) (failureDomain host : string) : string :=
  let topology := from_option h_Topology ∅ (hosts !! host) in
  let domain := norm (default "" (topology !! failureDomain)) in
  if eqs domain "" then "unknown-" +:+ failureDomain else domain.

Definition queue_of (grouped : gmap string (list string)) (d : string) : list string :=
  default [] (grouped !! d).

(** One host added to the group of its domain; new domains are recorded. *)
Definition group_host (domain : string → string)
    (st : gmap string (list string) * list string) (host : string)
    : gmap string (list string) * list string :=
  let '(grouped, domainOrder) := st in
  let d := domain host in
  (<[d := queue_of grouped d ++ [host]]> grouped,
   if decide (is_Some (grouped !! d)) then domainOrder else domainOrder ++ [d]).

(** [for _, domain := range domainOrder]: the head of every non-empty group. *)
Definition take_one (st : gmap string (list string) * list string * bool) (d : string)
    : gmap string (list string) * list string * bool :=
  let '(grouped, ordered, progressed) := st in
  match queue_of grouped d with
  | [] => st
  | host :: queue => (<[d := queue]> grouped, ordered ++ [host], true)
  end.

Fixpoint rounds (fuel : nat) (domainOrder : list string)
    (grouped : gmap string (list string)) (ordered : list string) : list string :=
  match fuel with
  | O => ordered
  | S fuel =>
      let '(grouped, ordered, progressed) := foldl take_one (grouped, ordered, false) domainOrder in
      if progressed : bool then rounds fuel domainOrder grouped ordered else ordered
  end.

Definition orderedHostsByFailureDomain (hostOrder : list string) (hosts : gmap string Host)
    (failureDomain : string) : list string :=
  let hostOrder := sort_strings hostOrder in
  let failureDomain := norm failureDomain in
  if eqs failureDomain "" then hostOrder
  else
    let '(grouped, domainOrder) :=
      foldl (group_host (host_domain hosts failureDomain)) (∅, []) hostOrder in
    rounds (S (length hostOrder)) (sort_strings domainOrder) (sort_strings <$> grouped) [].

(** ** Batches *)

Fixpoint batches (fuel n : nat) (l : list string) : list (list string) :=
  match fuel, l with
  | S fuel, _ :: _ => take n l :: batches fuel n (drop n l)
  | _, _ => []
  end.

Definition batch_size (serial : Z) : nat := Z.to_nat (if serial <=? 0 then 1 else serial).

Definition serialOrderedSteps (steps : list Step) (serial : Z) (failureDomain : string)
    : list Step :=
  let hostOrder := orderedHostsByFailureDomain (collect_hosts ∅ steps)
                     (first_host_records steps) failureDomain in
  batches (length hostOrder) (batch_size serial) hostOrder ≫=
    λ batch, filter (λ s, step_host s ∈ batch) steps.

(** ** Lemmas: grouping and rounds *)

Definition pending (domainOrder : list string) (grouped : gmap string (list string)) : list string :=
  domainOrder ≫= queue_of grouped.

Lemma pending_insert ds g d q :
  NoDup ds → d ∈ ds →
  ∃ rest, pending ds g ≡ₚ queue_of g d ++ rest ∧ pending ds (<[d := q]> g) ≡ₚ q ++ rest.
Proof.
  intros Hnd (l1 & l2 & ->)%list_elem_of_split.
  apply NoDup_app in Hnd as (_ & Hd & Hnd). apply NoDup_cons in Hnd as [Hd2 _].
  assert (∀ l, d ∉ l → pending l (<[d := q]> g) = pending l g) as Hother.
  { clear. unfold pending. induction l as [|x l IH]; [done|]. intros Hx. cbn [mbind list_bind].
    rewrite IH by set_solver. f_equal. unfold queue_of. rewrite lookup_insert_ne by set_solver. done. }
  exists (pending l1 g ++ pending l2 g). unfold pending in *. rewrite !bind_app, !bind_cons.
  rewrite (Hother l1) by (intros Hin; apply (Hd d Hin); left). rewrite (Hother l2) by done.
  split; [solve_Permutation|]. unfold queue_of at 2. rewrite lookup_insert_eq. simpl. solve_Permutation.
Qed.

Lemma take_one_eq g o p d :
  take_one (g, o, p) d = match queue_of g d with
                         | [] => (g, o, p)
                         | h :: q => (<[d := q]> g, o ++ [h], true)
                         end.
Proof. done. Qed.

Lemma take_one_pass ds ds' g o p :
  NoDup ds' → ds ⊆ ds' →
  let '(g', o', p') := foldl take_one (g, o, p) ds in
  pending ds' g' ++ o' ≡ₚ pending ds' g ++ o ∧
  (p' = p ∧ g' = g ∧ o' = o ∧ (∀ d, d ∈ ds → queue_of g d = []) ∨
   p' = true ∧ (length o < length o')%nat).
Proof.
  intros Hnd. revert g o p; induction ds as [|d ds IH]; intros g o p Hsub; cbn [foldl].
  - split; [done|left]. split_and!; [done..|set_solver].
  - destruct (queue_of g d) as [|h q] eqn:Hq.
    + rewrite take_one_eq, Hq. specialize (IH g o p ltac:(set_solver)).
      destruct (foldl take_one _ ds) as [[g' o'] p']. destruct IH as [Hp [(-> & -> & -> & Hall)|Hr]].
      * split; [done|left]. split_and!; [done..|]. intros d' [->|?]%elem_of_cons; auto.
      * split; [done|by right].
    + rewrite take_one_eq, Hq.
      specialize (IH (<[d := q]> g) (o ++ [h]) true ltac:(set_solver)).
      destruct (foldl take_one _ ds) as [[g' o'] p']. destruct IH as [Hp Hcase]. split.
      * rewrite Hp. destruct (pending_insert ds' g d q Hnd) as (rest & H1 & H2); [set_solver|].
        rewrite H1, H2, Hq. solve_Permutation.
      * right. destruct Hcase as [(-> & _ & -> & _)|[-> Hlen]].
        -- rewrite length_app. simpl. split; [done|lia].
        -- rewrite length_app in Hlen. split; [done|]. lia.
Qed.

Lemma rounds_perm fuel ds g o :
  NoDup ds → (length (pending ds g) < fuel)%nat → rounds fuel ds g o ≡ₚ pending ds g ++ o.
Proof.
  intros Hnd. revert g o; induction fuel as [|fuel IH]; intros g o Hf; [lia|]. cbn [rounds].
  pose proof (take_one_pass ds ds g o false Hnd ltac:(done)) as H.
  destruct (foldl take_one _ ds) as [[g' o'] p']. destruct H as [Hp [(-> & -> & -> & Hall)|[-> Hlen]]].
  - assert (pending ds g = []) as ->; [|done]. clear -Hall. unfold pending.
    induction ds as [|d ds IH]; [done|]. rewrite bind_cons, (Hall d) by left. simpl.
    apply IH. intros. apply Hall. by right.
  - rewrite IH; [done|]. apply Permutation_length in Hp. rewrite !length_app in Hp. lia.
Qed.

Lemma group_perm domain hs g ds :
  NoDup ds → (∀ d, d ∈ ds ↔ is_Some (g !! d)) →
  let '(g', ds') := foldl (group_host domain) (g, ds) hs in
  NoDup ds' ∧ (∀ d, d ∈ ds' ↔ is_Some (g' !! d)) ∧ pending ds' g' ≡ₚ pending ds g ++ hs.
Proof.
  revert g ds; induction hs as [|h hs IH]; intros g ds Hnd Hdom; cbn [foldl].
  - by rewrite app_nil_r.
  - unfold group_host at 2. set (d := domain h). set (q := queue_of g d ++ [h]).
    destruct (decide (is_Some (g !! d))) as [Hin|Hout].
    + specialize (IH (<[d := q]> g) ds Hnd). destruct (foldl _ _ hs) as [g' ds'].
      destruct IH as (H1 & H2 & H3).
      { intros d'. rewrite Hdom, lookup_insert. case_decide; [by subst; split|done]. }
      split_and!; [done..|]. rewrite H3.
      destruct (pending_insert ds g d q Hnd) as (rest & Hp1 & Hp2); [by apply Hdom|].
      rewrite Hp1, Hp2. unfold q. solve_Permutation.
    + specialize (IH (<[d := q]> g) (ds ++ [d])). destruct (foldl _ _ hs) as [g' ds'].
      destruct IH as (H1 & H2 & H3).
      { apply NoDup_app. split_and!; [done| |apply NoDup_singleton].
        intros x Hx ->%list_elem_of_singleton. by apply Hout, Hdom. }
      { intros d'. rewrite elem_of_app, list_elem_of_singleton, Hdom, lookup_insert.
        destruct (decide (d = d')) as [->|]; [by split; [|right]|]. naive_solver. }
      split_and!; [done..|]. rewrite H3. unfold q, pending. rewrite bind_app. simpl.
      assert (ds ≫= queue_of (<[d := q]> g) = ds ≫= queue_of g) as Heq.
      { assert (d ∉ ds) as Hd by (by rewrite Hdom). clear -Hd.
        induction ds as [|x ds IH]; [done|]. rewrite !bind_cons, IH by set_solver. f_equal.
        unfold queue_of. by rewrite lookup_insert_ne by set_solver. }
      unfold q in Heq. rewrite Heq. unfold queue_of at 2. rewrite lookup_insert_eq. simpl.
      unfold queue_of. apply eq_None_not_Some in Hout as ->. simpl. solve_Permutation.
Qed.

Lemma pending_sorted ds g : pending ds (sort_strings <$> g) ≡ₚ pending ds g.
Proof.
  unfold pending. induction ds as [|d ds IH]; [done|]. rewrite !bind_cons, IH. f_equiv.
  unfold queue_of. rewrite lookup_fmap. destruct (g !! d); simpl; [|done]. apply sort_strings_perm.
Qed.

Lemma pending_perm ds ds' g : ds ≡ₚ ds' → pending ds g ≡ₚ pending ds' g.
Proof. unfold pending. by intros ->. Qed.

Lemma orderedHosts_perm hs hosts fd : orderedHostsByFailureDomain hs hosts fd ≡ₚ hs.
Proof.
  unfold orderedHostsByFailureDomain. destruct (eqs (norm fd) ""); [apply sort_strings_perm|].
  pose proof (group_perm (host_domain hosts (norm fd)) (sort_strings hs) ∅ []) as H.
  destruct (foldl _ _ _) as [g ds]. destruct H as (Hnd & _ & Hp).
  { constructor. } { intros d. rewrite lookup_empty. set_solver. }
  assert (pending (sort_strings ds) (sort_strings <$> g) ≡ₚ hs) as Hall.
  { rewrite pending_sorted, (pending_perm _ ds) by apply sort_strings_perm. rewrite Hp. simpl.
    apply sort_strings_perm. }
  rewrite rounds_perm, app_nil_r; [done|by apply NoDup_sort_strings|].
  rewrite Hall, length_sort_strings. lia.
Qed.

(** ** Lemmas: batches *)

Lemma batches_spec fuel n l :
  (0 < n)%nat → (length l ≤ fuel)%nat →
  concat (batches fuel n l) = l ∧ Forall (λ b, (0 < length b ≤ n)%nat) (batches fuel n l).
Proof.
  intros Hn. revert l; induction fuel as [|fuel IH]; intros [|x l] Hl; simpl in Hl; [done|lia|done|].
  cbn [batches concat]. destruct (IH (drop n (x :: l))) as [H1 H2].
  { rewrite length_drop. simpl. lia. }
  rewrite H1, take_drop. split; [done|]. constructor; [|done].
  rewrite length_take. simpl. lia.
Qed.

Lemma filter_split steps (b c : list string) :
  (∀ h, h ∈ b → h ∉ c) →
  filter (λ s, step_host s ∈ b) steps ++ filter (λ s, step_host s ∈ c) steps
    ≡ₚ filter (λ s, step_host s ∈ b ++ c) steps.
Proof.
  intros Hd. induction steps as [|s steps IH]; [done|]. rewrite !filter_cons.
  specialize (Hd (step_host s)). rewrite (decide_ext (step_host s ∈ b ++ c) _ _ _ (elem_of_app _ _ _)).
  destruct (decide (step_host s ∈ b)), (decide (step_host s ∈ c)), (decide (_ ∨ _)); try tauto;
    rewrite <-?Permutation_middle; simpl; first [by apply perm_skip | exact IH].
Qed.

Lemma bind_filter_perm (steps : list Step) (bs : list (list string)) :
  NoDup (concat bs) →
  (bs ≫= λ b, filter (λ s, step_host s ∈ b) steps) ≡ₚ filter (λ s, step_host s ∈ concat bs) steps.
Proof.
  induction bs as [|b bs IH]; cbn [concat]; intros Hnd.
  - induction steps; [done|]. rewrite filter_cons. destruct (decide _); set_solver.
  - apply NoDup_app in Hnd as (_ & Hd & Hnd). rewrite bind_cons, IH by done. by apply filter_split.
Qed.

Lemma bind_filter_host (steps : list Step) (bs : list (list string)) h :
  NoDup (concat bs) → h ∈ concat bs →
  filter (λ s, step_host s = h) (bs ≫= λ b, filter (λ s, step_host s ∈ b) steps)
    = filter (λ s, step_host s = h) steps.
Proof.
  assert (∀ b : list string, filter (λ s, step_host s = h) (filter (λ s, step_host s ∈ b) steps)
               = if decide (h ∈ b) then filter (λ s, step_host s = h) steps else []) as Hf.
  { intros b. rewrite list_filter_filter. case_decide.
    - apply filter_iff_in. naive_solver.
    - apply filter_none. naive_solver. }
  assert (∀ bs, h ∉ concat bs →
    filter (λ s, step_host s = h) (bs ≫= λ b, filter (λ s, step_host s ∈ b) steps) = []) as Hout.
  { clear -Hf. induction bs as [|b bs IH]; cbn [concat]; intros Hn; [done|].
    rewrite bind_cons, filter_app, Hf, IH by set_solver. by rewrite decide_False by set_solver. }
  induction bs as [|b bs IH]; cbn [concat]; intros Hnd Hin; [set_solver|].
  apply NoDup_app in Hnd as (_ & Hd & Hnd). rewrite bind_cons, filter_app, Hf. case_decide.
  - by rewrite Hout, app_nil_r by eauto.
  - rewrite IH; [done..|set_solver].
Qed.

Lemma elem_of_collect_hosts seen steps h :
  h ∈ collect_hosts seen steps ↔ h ∉ seen ∧ h ∈ step_host <$> steps.
Proof.
  revert seen; induction steps as [|s steps IH]; intros seen; cbn [collect_hosts fmap list_fmap]; [set_solver|].
  destruct (decide _); rewrite ?elem_of_cons, IH; [set_solver|].
  destruct (decide (h = step_host s)); set_solver.
Qed.

Lemma NoDup_collect_hosts seen steps : NoDup (collect_hosts seen steps).
Proof.
  revert seen; induction steps as [|s steps IH]; intros seen; cbn [collect_hosts]; [constructor|].
  destruct (decide _); [done|]. constructor; [|done]. rewrite elem_of_collect_hosts. set_solver.
Qed.

(** ** Properties *)

(** The serial strategy runs every step of the plan exactly once: the
    hosts of the plan are cut into disjoint non-empty batches of at most
    [serial] hosts (one when [serial] is not positive), all the steps of a batch
    run before the next batch, in plan order within the batch, and the steps of
    any one host keep the order of the plan. *)
Theorem serial_regroups_by_batches (steps : list Step) (serial : Z) (failureDomain : string) :
  let hosts := orderedHostsByFailureDomain (collect_hosts ∅ steps)
                 (first_host_records steps) failureDomain in
  let bs := batches (length hosts) (batch_size serial) hosts in
  serialOrderedSteps steps serial failureDomain ≡ₚ steps
  ∧ concat bs ≡ₚ collect_hosts ∅ steps ∧ NoDup (concat bs)
  ∧ Forall (λ b, 0 < Z.of_nat (length b) ≤ Z.max 1 serial) bs
  ∧ serialOrderedSteps steps serial failureDomain
      = (bs ≫= λ b, filter (λ s, step_host s ∈ b) steps)
  ∧ ∀ h, filter (λ s, step_host s = h) (serialOrderedSteps steps serial failureDomain)
         = filter (λ s, step_host s = h) steps.
Proof.
  intros hosts bs.
  assert (0 < batch_size serial)%nat as Hn by (unfold batch_size; case_match; lia).
  destruct (batches_spec (length hosts) _ hosts Hn ltac:(done)) as [Hc Hb]. fold bs in Hc, Hb.
  assert (hosts ≡ₚ collect_hosts ∅ steps) as Hp by apply orderedHosts_perm.
  assert (NoDup (concat bs)) as Hnd by (rewrite Hc, Hp; apply NoDup_collect_hosts).
  assert (∀ s, s ∈ steps → step_host s ∈ concat bs) as Hall.
  { intros s Hs. rewrite Hc, Hp, elem_of_collect_hosts. split; [set_solver|]. by apply list_elem_of_fmap_2. }
  split_and!.
  - unfold serialOrderedSteps. rewrite bind_filter_perm by done.
    rewrite (filter_iff_in _ (λ _, True)) by (intros; naive_solver). by rewrite filter_all_true.
  - by rewrite Hc, Hp.
  - done.
  - eapply Forall_impl; [exact Hb|]. simpl. unfold batch_size. intros b. case_match; lia.
  - done.
  - intros h. destruct (decide (h ∈ concat bs)) as [Hin|Hin]; [by apply bind_filter_host|].
    rewrite !filter_none; [done| |].
    + intros s Hs <-. by apply Hin, Hall.
    + intros s Hs <-. apply Hin. unfold serialOrderedSteps in Hs. apply list_elem_of_bind in Hs.
      destruct Hs as (b & Hs & Hb'). apply list_elem_of_filter in Hs as [Hs _].
      apply list_elem_of_In, in_concat. exists b. by rewrite <-!list_elem_of_In.
Qed.

(** Resource [second] on host [alpha] depends on [first] on host [beta]. *)
Definition cross_host_config : Config :=
  (config_of ["beta"; "alpha"]
     [command_on "beta" "first" []; command_on "alpha" "second" ["first"]])
    <| c_Execution := zeroExecution <| e_Strategy := "serial" |> <| e_Serial := 1 |> |>.

Definition serial_ids (p : Plan) : list string :=
  (λ s, r_ID (s_Resource s))
    <$> serialOrderedSteps (p_Steps p) (e_Serial (p_Execution p)) (e_FailureDomain (p_Execution p)).

(** The plan of an accepted configuration orders a resource after its
    dependency on another host, and the serial strategy runs them in the opposite
    order: regrouping by host does not respect dependencies across hosts. *)
Theorem serial_breaks_dependency :
  let cfg := validated cross_host_config in
  let p := plan_or_empty cfg in
  Validate cross_host_config = Ok cfg ∧ Build cfg = Ok p ∧ e_Strategy (p_Execution p) = "serial" ∧
  edge (c_Resources cfg) "first" "second" ∧
  precedes (plan_ids p) "first" "second" ∧
  precedes (serial_ids p) "second" "first" ∧ ¬ precedes (serial_ids p) "first" "second".
Proof.
  cbn zeta. split_and!; [by vm_compute..| | | |].
  - apply (bool_decide_unpack _). by vm_compute.
  - exists [], [], []. by vm_compute.
  - exists [], [], []. by vm_compute.
  - assert (serial_ids (plan_or_empty (validated cross_host_config)) = ["second"; "first"]) as ->
      by by vm_compute.
    intros ([|? l1] & l2 & l3 & Heq); [done|]. injection Heq as _ Heq.
    apply (f_equal length) in Heq. rewrite !length_app in Heq. simpl in Heq.
    rewrite length_app in Heq. simpl in Heq. lia.
Qed.
