(* ===== verification/Path.v ===== *)
(** * Slash-separated paths

    The functions of Go's [path/filepath] (on Unix) that the loader and the
    executor use: [Clean], [Join], [Dir], [Ext], [IsAbs] and [Abs]. *)

From S2P Require Import Prelude.

Fixpoint split_slash (s : string) : list string :=
  match s with
  | EmptyString => [""]
  | String c s =>
      let l := split_slash s in
      if bool_decide (c = "/"%char) then "" :: l
      else match l with
           | [] => [String c ""]
           | x :: l => String c x :: l
           end
  end.

Definition IsAbs (path : string) : bool := HasPrefix path "/".

(** One component pushed on the stack of the components kept so far. *)
Definition clean_step (rooted : bool) (stack : list string) (c : string) : list string :=
  if eqs c "" || eqs c "." then stack
  else if eqs c ".." then
    match stack with
    | [] => if rooted then [] else [".."]
    | top :: stack' => if eqs top ".." then ".." :: stack else stack'
    end
  else c :: stack.

Definition clean_components (path : string) : list string :=
  reverse (foldl (clean_step (IsAbs path)) [] (split_slash path)).

Definition Clean (path : string) : string :=
  if IsAbs path then "/" +:+ Join (clean_components path) "/"
  else match clean_components path with
       | [] => "."
       | l => Join l "/"
       end.

Fixpoint filepath_Join (elem : list string) : string :=
  match elem with
  | [] => ""
  | e :: rest => if eqs e "" then filepath_Join rest else Clean (Join elem "/")
  end.

(** The part of [path] up to and including its last slash. *)
Fixpoint upto_slash (s : string) : string :=
  match s with
  | EmptyString => EmptyString
  | String c s' =>
      match upto_slash s' with
      | EmptyString => if bool_decide (c = "/"%char) then "/" else EmptyString
      | r => String c r
      end
  end.

Definition Dir (path : string) : string := Clean (upto_slash path).

(** The part of a file path after its last slash. *)
Fixpoint after_slash (s : string) : string :=
  match s with
  | EmptyString => EmptyString
  | String c s' => if bool_decide (c = "/"%char) || Contains s' "/" then after_slash s' else s
  end.

(** The suffix from the last dot of the last component. *)
Fixpoint Ext (s : string) : string :=
  match s with
  | EmptyString => EmptyString
  | String c s' =>
      match Ext s' with
      | EmptyString =>
          if bool_decide (c = "."%char) && negb (Contains s' "/") then s else EmptyString
      | r => r
      end
  end.

Definition Abs (cwd path : string) : string :=
  if IsAbs path then Clean path else filepath_Join [cwd; path].

Example Clean_ex :
  Clean <$> [""; "a//b/./c"; "a/../../b"; "/../x/"; "/"; "./y"; "a/.."; "../../z"]
  = ["."; "a/b/c"; "../b"; "/x"; "/"; "y"; "."; "../../z"].
Proof. reflexivity. Qed.
Example Dir_ex : Dir <$> ["/a/b"; "a"; "/a"; "a/b/"; ""] = ["/a"; "."; "/"; "a/b"; "."].
Proof. reflexivity. Qed.
Example Ext_ex : Ext <$> ["a.json"; "a.d/b"; "x.y.yaml"; ".rc"; "a."] = [".json"; ""; ".yaml"; ".rc"; "."].
Proof. reflexivity. Qed.
Example Join_ex :
  filepath_Join <$> [["/etc"; "../x.yaml"]; [""; "b"]; [""; ""]; ["d"; "sub/./f.yaml"]]
  = ["/x.yaml"; "b"; ""; "d/sub/f.yaml"].
Proof. reflexivity. Qed.

(** ** A file in a directory

    For a name without slashes, [filepath.Join] of a directory and the name is
    a prefix that only depends on the directory, followed by the name. *)

Definition file_name (b : string) : Prop := Contains b "/" = false ∧ b ≠ "" ∧ b ≠ "." ∧ b ≠ "..".

Lemma HasPrefix_slash c s : HasPrefix (String c s) "/" = bool_decide (c = "/"%char).
Proof. destruct c as [[] [] [] [] [] [] [] []]; destruct s; reflexivity. Qed.

Lemma Contains_slash_cons c s : Contains (String c s) "/" = bool_decide (c = "/"%char) || Contains s "/".
Proof. rewrite <-(HasPrefix_slash c s). reflexivity. Qed.

Lemma split_slash_no_slash b : Contains b "/" = false → split_slash b = [b].
Proof.
  induction b as [|c b IH]; [done|]. rewrite Contains_slash_cons, orb_false_iff. intros [Hc Hb].
  simpl. by rewrite Hc, IH.
Qed.

Lemma split_slash_cons s : split_slash s ≠ [].
Proof. destruct s as [|c s]; simpl; [done|]. case_bool_decide; [done|]. by destruct (split_slash s). Qed.

Lemma split_slash_snoc s b : Contains b "/" = false → split_slash (s +:+ "/" +:+ b) = split_slash s ++ [b].
Proof.
  intros Hb. induction s as [|c s IH].
  - rewrite append_nil. simpl. by rewrite split_slash_no_slash.
  - rewrite append_cons. simpl. rewrite IH. case_bool_decide; [done|].
    pose proof (split_slash_cons s). by destruct (split_slash s).
Qed.

Lemma clean_step_file rooted stack b : file_name b → clean_step rooted stack b = b :: stack.
Proof.
  intros (_ & H1 & H2 & H3). unfold clean_step.
  rewrite (proj2 (eqs_false b "")), (proj2 (eqs_false b ".")), (proj2 (eqs_false b "..")) by done. done.
Qed.

(** Every component followed by a slash. *)
Definition joined (l : list string) : string := foldr (λ x acc, x +:+ "/" +:+ acc) "" l.

Lemma Join_snoc l b : Join (l ++ [b]) "/" = joined l +:+ b.
Proof.
  induction l as [|x l IH]; [done|]. simpl. rewrite !append_assoc, <-IH. by destruct l.
Qed.

Lemma joined_slash l : joined l = "" ∨ ∃ s, joined l = s +:+ "/".
Proof.
  induction l as [|x l [IH|[s IH]]]; [by left|right|right]; simpl; rewrite IH; [by exists x|].
  exists (x +:+ "/" +:+ s). by rewrite !append_assoc.
Qed.

Definition dir_prefix (root : string) : string :=
  (if IsAbs root then "/" else "") +:+ joined (clean_components root).

Lemma IsAbs_app s t : s ≠ "" → IsAbs (s +:+ t) = IsAbs s.
Proof. destruct s as [|c s]; [done|]. intros _. unfold IsAbs. by rewrite append_cons, !HasPrefix_slash. Qed.

Lemma filepath_Join_file root b : root ≠ "" → file_name b → filepath_Join [root; b] = dir_prefix root +:+ b.
Proof.
  intros Hr Hb. simpl. rewrite (proj2 (eqs_false root "")) by done. unfold Clean, dir_prefix.
  assert (clean_components (root +:+ "/" +:+ b) = clean_components root ++ [b]) as ->.
  { unfold clean_components. destruct Hb as [Hs ?]. rewrite split_slash_snoc, foldl_app, IsAbs_app by done.
    cbn [foldl]. rewrite clean_step_file by done. by rewrite reverse_cons. }
  rewrite IsAbs_app by done. destruct (IsAbs root); [by rewrite Join_snoc, append_assoc|].
  rewrite append_nil, <-Join_snoc. by destruct (clean_components root).
Qed.

Lemma after_slash_no_slash b : Contains b "/" = false → after_slash b = b.
Proof. destruct b as [|c b]; [done|]. rewrite Contains_slash_cons. cbn [after_slash]. by intros ->. Qed.

Lemma Contains_slash_mid s b : Contains (s +:+ "/" +:+ b) "/" = true.
Proof.
  induction s as [|c s IH]; [by rewrite append_nil; destruct b|].
  rewrite append_cons, Contains_slash_cons, IH. apply orb_true_r.
Qed.

Lemma after_slash_app s b : Contains b "/" = false → after_slash (s +:+ "/" +:+ b) = b.
Proof.
  intros Hb. induction s as [|c s IH]; [rewrite append_nil; simpl; by rewrite after_slash_no_slash|].
  rewrite append_cons. cbn [after_slash]. by rewrite Contains_slash_mid, orb_true_r.
Qed.

Lemma after_slash_Join root b : root ≠ "" → file_name b → after_slash (filepath_Join [root; b]) = b.
Proof.
  intros Hr Hb. pose proof Hb as [Hs _]. rewrite filepath_Join_file by done. unfold dir_prefix.
  destruct (joined_slash (clean_components root)) as [->|[s ->]].
  - rewrite append_nil_r. destruct (IsAbs root); [by apply (after_slash_app "")|].
    rewrite append_nil. by apply after_slash_no_slash.
  - rewrite !append_assoc, <-append_assoc. by apply after_slash_app.
Qed.

(** ** A cleaned path is clean *)

Lemma split_slash_no_slashes s : Forall (λ c, Contains c "/" = false) (split_slash s).
Proof.
  induction s as [|c s IH]; [by repeat constructor|]. simpl. case_bool_decide as Hc; [by constructor|].
  pose proof (split_slash_cons s). destruct (split_slash s) as [|x l]; [done|].
  apply Forall_cons in IH as [Hx Hl]. constructor; [|done]. by rewrite Contains_slash_cons, Hx, bool_decide_eq_false_2.
Qed.

Lemma split_slash_app x s : Contains x "/" = false → split_slash (x +:+ "/" +:+ s) = x :: split_slash s.
Proof.
  induction x as [|c x IH]; [done|]. rewrite Contains_slash_cons, orb_false_iff. intros [Hc Hx].
  rewrite append_cons. cbn [split_slash]. by rewrite Hc, IH.
Qed.

Lemma split_slash_Join l : l ≠ [] → Forall (λ c, Contains c "/" = false) l → split_slash (Join l "/") = l.
Proof.
  intros Hne Hl. induction Hl as [|x l Hx Hl IH]; [done|]. destruct l as [|y l]; [by apply split_slash_no_slash|].
  change (Join (x :: y :: l) "/") with (x +:+ "/" +:+ Join (y :: l) "/"). rewrite split_slash_app by done. f_equal. by apply IH.
Qed.

(** The stacks of [clean_step]: names, above only dots, and none at the root. *)
Fixpoint stack_ok (rooted : bool) (stack : list string) : Prop :=
  match stack with
  | [] => True
  | c :: stack => stack_ok rooted stack ∧ Contains c "/" = false ∧ c ≠ "" ∧ c ≠ "." ∧
      (c = ".." → rooted = false ∧ Forall (λ d, d = "..") stack)
  end.

Lemma clean_step_ok rooted stack c :
  Contains c "/" = false → stack_ok rooted stack → stack_ok rooted (clean_step rooted stack c).
Proof.
  intros Hc Hs. unfold clean_step. destruct (eqs c "") eqn:E1; [done|]. destruct (eqs c ".") eqn:E2; [done|].
  apply eqs_false in E1, E2. cbn [orb]. destruct (eqs c "..") eqn:E3.
  - destruct stack as [|top stack]; [by destruct rooted; cbn; auto|].
    destruct (eqs top "..") eqn:E4; [|by destruct Hs]. apply eqs_true in E4 as ->.
    pose proof Hs as (Hs' & _ & _ & _ & Hdots). destruct (Hdots eq_refl) as [Hr Hall].
    split; [done|]. split; [done|]. split; [done|]. split; [done|]. intros _. split; [done|by constructor].
  - apply eqs_false in E3. split; [done|]. by split.
Qed.

Lemma clean_components_ok path : stack_ok (IsAbs path) (reverse (clean_components path)).
Proof.
  unfold clean_components. rewrite reverse_involutive. generalize (split_slash_no_slashes path).
  assert (stack_ok (IsAbs path) []) as Hs by done. revert Hs. generalize (@nil string) (split_slash path).
  intros stack l Hs Hl. revert stack Hs. induction Hl as [|c l Hc _ IH]; intros stack Hs; [done|].
  simpl. apply IH. by apply clean_step_ok.
Qed.

Lemma clean_step_push rooted stack c : stack_ok rooted (c :: stack) → clean_step rooted stack c = c :: stack.
Proof.
  intros (_ & _ & H1 & H2 & H3). unfold clean_step. rewrite (proj2 (eqs_false c "")), (proj2 (eqs_false c ".")) by done.
  cbn [orb]. destruct (eqs c "..") eqn:E; [|done]. apply eqs_true in E as ->. destruct (H3 eq_refl) as [-> Hall].
  destruct Hall as [|d stack -> _]; [done|]. by rewrite eqs_refl.
Qed.

Lemma foldl_clean_step rooted stack : stack_ok rooted stack → foldl (clean_step rooted) [] (reverse stack) = stack.
Proof.
  induction stack as [|c stack IH]; [done|]. intros Hs. rewrite reverse_cons, foldl_app. simpl.
  rewrite IH by apply Hs. by apply clean_step_push.
Qed.

Lemma stack_ok_no_slash rooted stack : stack_ok rooted stack → Forall (λ c, Contains c "/" = false) stack.
Proof. induction stack as [|c stack IH]; [constructor|]. intros (Hs & Hc & _). constructor; [done|by apply IH]. Qed.

Lemma IsAbs_Join_ok stack :
  stack_ok false stack → stack ≠ [] → IsAbs (Join (reverse stack) "/") = false.
Proof.
  intros Hs Hne. destruct (reverse stack) as [|x l] eqn:Hr; [by apply (f_equal reverse) in Hr; rewrite reverse_involutive in Hr|].
  assert (x ∈ stack) as Hx by (rewrite <-elem_of_reverse, Hr; set_solver).
  assert (x ≠ "" ∧ Contains x "/" = false) as [Hx1 Hx2].
  { clear -Hs Hx. induction stack as [|c stack IH]; [set_solver|]. destruct Hs as (Hs & Hc & H1 & _).
    apply elem_of_cons in Hx as [->|Hx]; [done|by apply IH]. }
  assert (IsAbs x = false) as Hx3.
  { destruct x as [|c x]; [done|]. rewrite Contains_slash_cons, orb_false_iff in Hx2. unfold IsAbs.
    rewrite HasPrefix_slash. by destruct Hx2. }
  destruct l as [|y l]; [done|]. change (Join (x :: y :: l) "/") with (x +:+ "/" +:+ Join (y :: l) "/").
  by rewrite IsAbs_app.
Qed.

Lemma Clean_clean path : IsAbs (Clean path) = IsAbs path ∧ clean_components (Clean path) = clean_components path.
Proof.
  pose proof (clean_components_ok path) as Hok. pose proof (stack_ok_no_slash _ _ Hok) as Hns.
  rewrite <-(reverse_involutive (clean_components path)). set (stack := reverse (clean_components path)) in *.
  unfold Clean. rewrite <-(reverse_involutive (clean_components path)). fold stack.
  destruct (IsAbs path) eqn:Habs.
  - assert (IsAbs ("/" +:+ Join (reverse stack) "/") = true) as Ha by by rewrite append_cons; unfold IsAbs; rewrite HasPrefix_slash.
    split; [done|]. unfold clean_components. rewrite Ha. change ("/" +:+ Join (reverse stack) "/") with ("" +:+ "/" +:+ Join (reverse stack) "/").
    rewrite split_slash_app by done. cbn [foldl]. change (clean_step true [] "") with (@nil string).
    destruct (decide (stack = [])) as [->|Hne]; [done|].
    rewrite split_slash_Join by first [done | by rewrite Forall_reverse | by intros Hr%(f_equal reverse); rewrite reverse_involutive in Hr].
    by rewrite foldl_clean_step.
  - destruct (decide (stack = [])) as [->|Hne]; [by vm_compute|].
    assert (reverse stack ≠ []) as Hne' by by intros Hr%(f_equal reverse); rewrite reverse_involutive in Hr.
    destruct (reverse stack) as [|x l] eqn:Hr; [done|]. rewrite <-Hr in *.
    pose proof (IsAbs_Join_ok _ Hok Hne) as Ha. split; [done|]. unfold clean_components. rewrite Ha.
    rewrite split_slash_Join by first [done | by rewrite Forall_reverse]. by rewrite foldl_clean_step.
Qed.

(** The prefix of the files of a subdirectory. *)
Lemma dir_prefix_Join root b : root ≠ "" → file_name b → dir_prefix (filepath_Join [root; b]) = dir_prefix root +:+ b +:+ "/".
Proof.
  intros Hr Hb. unfold dir_prefix at 1. simpl. rewrite (proj2 (eqs_false root "")) by done.
  destruct (Clean_clean (root +:+ "/" +:+ b)) as [-> ->]. rewrite IsAbs_app by done.
  assert (clean_components (root +:+ "/" +:+ b) = clean_components root ++ [b]) as ->.
  { unfold clean_components. destruct Hb as [Hs ?]. rewrite split_slash_snoc, foldl_app, IsAbs_app by done.
    cbn [foldl]. rewrite clean_step_file by done. by rewrite reverse_cons. }
  unfold dir_prefix, joined. rewrite foldr_app. simpl. rewrite append_assoc. f_equal.
  generalize (clean_components root). intros l. induction l as [|x l IH]; [done|]. simpl. rewrite IH. by rewrite !append_assoc.
Qed.
