(* ===== verification/Base64.v ===== *)
(** * Base64: [base64.StdEncoding] of Go's [encoding/base64]

    [EncodeToString] and [DecodeString], which encrypted variables are stored
    with: three bytes become four characters, the last group is padded, and the
    decoder skips line ends.  Decoding gives back what was encoded. *)

From S2P Require Import Prelude.


Definition b64_alphabet : string := "ABCDEFGHIJKLMNOPQRSTUVWXYZabcdefghijklmnopqrstuvwxyz0123456789+/".

Definition b64_char (n : nat) : ascii := default "A"%char (String.get n b64_alphabet).

Fixpoint char_index (c : ascii) (s : string) : option nat :=
  match s with
  | EmptyString => None
  | String d s => if bool_decide (c = d) then Some 0%nat else S <$> char_index c s
  end.

Definition b64_val (c : ascii) : option nat := char_index c b64_alphabet.

(** The four sextets of three bytes. *)
Definition sextet1 (a : nat) : nat := (a / 4)%nat.
Definition sextet2 (a b : nat) : nat := ((a mod 4) * 16 + b / 16)%nat.
Definition sextet3 (b c : nat) : nat := ((b mod 16) * 4 + c / 64)%nat.
Definition sextet4 (c : nat) : nat := (c mod 64)%nat.

Fixpoint EncodeToString (s : string) : string :=
  match s with
  | EmptyString => EmptyString
  | String a EmptyString =>
      let a := code a in
      String (b64_char (sextet1 a)) (String (b64_char (sextet2 a 0)) "==")
  | String a (String b EmptyString) =>
      let a := code a in let b := code b in
      String (b64_char (sextet1 a)) (String (b64_char (sextet2 a b)) (String (b64_char (sextet3 b 0)) "="))
  | String a (String b (String c s)) =>
      let a := code a in let b := code b in let c := code c in
      String (b64_char (sextet1 a)) (String (b64_char (sextet2 a b))
        (String (b64_char (sextet3 b c)) (String (b64_char (sextet4 c)) (EncodeToString s))))
  end.

Fixpoint strip_line_ends (s : string) : string :=
  match s with
  | EmptyString => EmptyString
  | String c s =>
      if bool_decide (c = "010"%char) || bool_decide (c = "013"%char) then strip_line_ends s
      else String c (strip_line_ends s)
  end.

Definition byte1 (x y : nat) : ascii := Ascii.ascii_of_nat (x * 4 + y / 16).
Definition byte2 (y z : nat) : ascii := Ascii.ascii_of_nat ((y mod 16) * 16 + z / 4).
Definition byte3 (z w : nat) : ascii := Ascii.ascii_of_nat ((z mod 4) * 64 + w).

(** Groups of four characters; the bits left over in a padded group are ignored. *)
Fixpoint decode_groups (s : string) : option string :=
  match s with
  | EmptyString => Some EmptyString
  | String x (String y (String z (String w s))) =>
      x ← b64_val x; y ← b64_val y;
      if bool_decide (z = "="%char) then
        if bool_decide (w = "="%char) && eqs s "" then Some (String (byte1 x y) EmptyString) else None
      else
        z ← b64_val z;
        if bool_decide (w = "="%char) then
          if eqs s "" then Some (String (byte1 x y) (String (byte2 y z) EmptyString)) else None
        else
          w ← b64_val w; rest ← decode_groups s;
          Some (String (byte1 x y) (String (byte2 y z) (String (byte3 z w) rest)))
  | _ => None
  end.

Definition DecodeString (s : string) : option string := decode_groups (strip_line_ends s).

Example EncodeToString_ex :
  EncodeToString <$> [""; "f"; "fo"; "foo"; "foob"; "fooba"; "foobar"; String "255" (String "254" "")]
  = [""; "Zg=="; "Zm8="; "Zm9v"; "Zm9vYg=="; "Zm9vYmE="; "Zm9vYmFy"; "//4="].
Proof. reflexivity. Qed.

(** ** Round trip *)

(** What every character of the alphabet satisfies, by inspection. *)
Lemma b64_char_ok n : (n < 64)%nat →
  b64_val (b64_char n) = Some n ∧ b64_char n ≠ "="%char ∧ Ascii.is_space (b64_char n) = false ∧
  (code (b64_char n) < 128)%nat.
Proof.
  intros Hn. assert (n ∈ seq 0 64) as Hin by (apply elem_of_seq; lia). clear Hn. revert n Hin.
  apply Forall_forall. apply (bool_decide_unpack _). by vm_compute.
Qed.

Lemma code_lt c : (code c < 256)%nat.
Proof. apply Ascii.nat_ascii_bounded. Qed.

Ltac sextets :=
  unfold byte1, byte2, byte3, sextet1, sextet2, sextet3, sextet4;
  first [apply Nat2Z.inj | apply Nat2Z.inj_lt];
  rewrite ?Nat2Z.inj_add, ?Nat2Z.inj_mul, ?Nat2Z.inj_div, ?Nat2Z.inj_mod, ?Nat2Z.inj_add, ?Nat2Z.inj_mul,
    ?Nat2Z.inj_div, ?Nat2Z.inj_mod; Z.div_mod_to_equations; lia.

Lemma sextet_bounds a b c : (a < 256)%nat → (b < 256)%nat → (c < 256)%nat →
  (sextet1 a < 64 ∧ sextet2 a b < 64 ∧ sextet3 b c < 64 ∧ sextet4 c < 64)%nat.
Proof. intros. split_and!; sextets. Qed.

Lemma bytes_sextets a b c : (a < 256)%nat → (b < 256)%nat → (c < 256)%nat →
  (sextet1 a * 4 + sextet2 a b / 16 = a ∧
   (sextet2 a b mod 16) * 16 + sextet3 b c / 4 = b ∧
   (sextet3 b c mod 4) * 64 + sextet4 c = c)%nat.
Proof. intros. split_and!; sextets. Qed.

Lemma byte_of_sextets a b c :
  byte1 (sextet1 (code a)) (sextet2 (code a) (code b)) = a ∧
  byte2 (sextet2 (code a) (code b)) (sextet3 (code b) (code c)) = b ∧
  byte3 (sextet3 (code b) (code c)) (sextet4 (code c)) = c.
Proof.
  destruct (bytes_sextets (code a) (code b) (code c)) as (H1 & H2 & H3); [apply code_lt..|].
  unfold byte1, byte2, byte3. rewrite H1, H2, H3. unfold code. by rewrite !Ascii.ascii_nat_embedding.
Qed.

(** Induction over groups of three bytes. *)
Lemma string_ind3 (P : string → Prop) :
  P "" → (∀ a, P (String a "")) → (∀ a b, P (String a (String b ""))) →
  (∀ a b c s, P s → P (String a (String b (String c s)))) → ∀ s, P s.
Proof. intros H0 H1 H2 H3. fix IH 1. intros [|a [|b [|c s]]]; [exact H0|apply H1|apply H2|apply H3, IH]. Qed.

(** The characters of an encoding: no white space, all ASCII. *)
Definition b64_clean (c : ascii) : Prop := Ascii.is_space c = false ∧ (code c < 128)%nat.

Fixpoint every_char (P : ascii → Prop) (s : string) : Prop :=
  match s with
  | EmptyString => True
  | String c s => P c ∧ every_char P s
  end.

Lemma b64_char_clean n : (n < 64)%nat → b64_clean (b64_char n).
Proof. intros (_&_&?&?)%b64_char_ok. done. Qed.

Lemma EncodeToString_clean s : every_char b64_clean (EncodeToString s).
Proof.
  assert (b64_clean "="%char) as Heq by (split; [done|vm_compute; lia]).
  induction s as [|a|a b|a b c s IH] using string_ind3; simpl; [done|..];
    try (destruct (sextet_bounds (code a) 0 0) as (?&?&?&?); [apply code_lt|lia..|]);
    try (destruct (sextet_bounds (code a) (code b) 0) as (?&?&?&?); [apply code_lt..|lia|]);
    try (destruct (sextet_bounds (code a) (code b) (code c)) as (?&?&?&?); [apply code_lt..|]);
    repeat (split; [by auto using b64_char_clean|]); done.
Qed.

Lemma EncodeToString_no_blanks s : no_blanks (EncodeToString s) = true.
Proof.
  pose proof (EncodeToString_clean s) as H. induction (EncodeToString s) as [|c t IH]; simpl; [done|].
  destruct H as [[-> _] Ht]. by apply IH.
Qed.

Lemma strip_no_blanks s : no_blanks s = true → strip_line_ends s = s.
Proof.
  induction s as [|c s IH]; simpl; [done|]. intros [Hc Hs]%andb_true_iff.
  do 2 (rewrite bool_decide_eq_false_2; [|by intros ->]). simpl. by rewrite IH.
Qed.

Lemma EncodeToString_empty s : EncodeToString s = "" ↔ s = "".
Proof. destruct s as [|a [|b [|c s]]]; simpl; by split. Qed.

Lemma decode_groups_encode s : decode_groups (EncodeToString s) = Some s.
Proof.
  induction s as [|a|a b|a b c s IH] using string_ind3; simpl; [done|..].
  - destruct (sextet_bounds (code a) 0 0) as (H1&H2&?&?); [apply code_lt|lia..|].
    destruct (b64_char_ok _ H1) as (-> & _), (b64_char_ok _ H2) as (-> & _). simpl.
    destruct (bytes_sextets (code a) 0 0) as (Ha&_); [apply code_lt|lia..|].
    unfold byte1. rewrite Ha. unfold code. by rewrite Ascii.ascii_nat_embedding.
  - destruct (sextet_bounds (code a) (code b) 0) as (H1&H2&H3&?); [apply code_lt..|lia|].
    destruct (b64_char_ok _ H1) as (-> & _), (b64_char_ok _ H2) as (-> & _), (b64_char_ok _ H3) as (Hv & Hne & _). simpl.
    rewrite bool_decide_eq_false_2, Hv by done. simpl.
    destruct (bytes_sextets (code a) (code b) 0) as (Ha&Hb&_); [apply code_lt..|lia|].
    unfold byte1, byte2. rewrite Ha, Hb. unfold code. by rewrite !Ascii.ascii_nat_embedding.
  - destruct (sextet_bounds (code a) (code b) (code c)) as (H1&H2&H3&H4); [apply code_lt..|].
    destruct (b64_char_ok _ H1) as (-> & _), (b64_char_ok _ H2) as (-> & _), (b64_char_ok _ H3) as (Hv & Hne & _),
      (b64_char_ok _ H4) as (Hv' & Hne' & _). simpl.
    rewrite bool_decide_eq_false_2, Hv by done. simpl. rewrite bool_decide_eq_false_2, Hv' by done. simpl.
    rewrite IH. simpl. destruct (byte_of_sextets a b c) as (-> & -> & ->). done.
Qed.

Lemma Decode_Encode s : DecodeString (EncodeToString s) = Some s.
Proof. unfold DecodeString. by rewrite strip_no_blanks, decode_groups_encode by apply EncodeToString_no_blanks. Qed.
