(* ===== verification/Machine.v ===== *)
(** * The machine an apply runs on

    What the executor and the providers use of [os], [os/exec], [time],
    [encoding/json], [encoding/base64] and [crypto]: an interface over an
    abstract world [W].  Nothing is assumed of it, except in the theorems that
    name [MachineLaws] or [JsonLaws]; an in-memory machine satisfies both. *)

From S2P Require Import Prelude.

(** What [json.MarshalIndent] is given: the maps of strings of the Windows shim
    and flat objects. *)
Inductive json_value :=
  | JString (s : string)
  | JBool (b : bool)
  | JNumber (n : Z)
  | JTime (t : Time)
  | JTable (t : gmap string (gmap string string))
  | JObject (fields : list (string * json_value)).

Class Machine (W : Type) := {
  Now : W → Time;
  FormatTime : Time → string;                       (* "20060102T150405.000000000" *)
  Sleep : Duration → W → W;
  ReadFile : string → W → result string string;
  WriteFile : string → string → W → W * option string;
  OpenAppend : string → W → W * option string;      (* O_CREATE|O_WRONLY|O_APPEND *)
  AppendFile : string → string → W → W * option string;
  MkdirAll : string → W → W * option string;
  Stat : string → W → option bool;                  (* exists; None: another error *)
  Run : list string → Duration → W → W * (string * option string)
                                                    (* a process: combined output and error *)
}.

Class Codec := {
  Marshal : json_value → string;
  (* what [json.Unmarshal(raw, &state)], its error ignored, leaves in [state] *)
  UnmarshalTable : string → gmap string (gmap string string);
  Sha256Hex : string → string;
  DecodeBase64 : string → result string string;
  Ed25519Verify : string → string → string → bool;  (* key, message, signature *)
}.

(** What the theorems on convergence rely on. *)
Class MachineLaws (W : Type) `{Machine W} : Prop := {
  read_after_write p c w w' : WriteFile p c w = (w', None) → ReadFile p w' = Ok c;
  mkdir_keeps_files d p c w : ReadFile p (MkdirAll d w).1 = Ok c ↔ ReadFile p w = Ok c;
  mkdir_again d p c w w1 w2 :
    MkdirAll d w = (w1, None) → WriteFile p c w1 = (w2, None) → (MkdirAll d w2).2 = None;
  mkdir_twice d w w1 : MkdirAll d w = (w1, None) → (MkdirAll d w1).2 = None;
}.

Class JsonLaws `{Codec} : Prop := {
  marshal_nonempty v : Marshal v ≠ "";
  unmarshal_marshal t : UnmarshalTable (Marshal (JTable t)) = t;
}.

(** ** An in-memory machine

    Files are a map; every process is logged with its command line, fails when
    its line is listed in [failing] and prints its last argument otherwise. *)
Record Mem : Type := mkMem {
  m_Files : gmap string string;
  m_Clock : Time;
  m_Log : list (list string);
  m_Failing : list (list string);
}.
#[export] Instance Mem_eta : Eta Mem :=
  λ r, mkMem (m_Files r) (m_Clock r) (m_Log r) (m_Failing r).

#[export] Instance Mem_machine : Machine Mem := {|
  Now := m_Clock;
  FormatTime := Itoa;
  Sleep d w := w <| m_Clock := m_Clock w + d |>;
  ReadFile p w := match m_Files w !! p with
                  | Some c => Ok c
                  | None => Err ("open " +:+ p +:+ ": no such file or directory")
                  end;
  WriteFile p c w := (w <| m_Files := <[p := c]> (m_Files w) |>, None);
  OpenAppend p w := (w, None);
  AppendFile p c w :=
    (w <| m_Files := <[p := default "" (m_Files w !! p) +:+ c]> (m_Files w) |>, None);
  MkdirAll d w := (w, None);
  Stat p w := Some (bool_decide (is_Some (m_Files w !! p)));
  Run args _ w :=
    (w <| m_Log := m_Log w ++ [args] |>,
     if decide (args ∈ m_Failing w) then ("", Some "exit status 1")
     else (default "" (last args), None));
|}.

#[export] Instance Mem_laws : MachineLaws Mem.
Proof.
  split; cbn.
  - intros p c w w' [= <-]. cbn. by rewrite lookup_insert_eq.
  - done.
  - done.
  - done.
Qed.

Definition empty_mem : Mem := mkMem ∅ 0 [] [].

(** A codec for the witnesses: tables as the bits of their [Countable] code,
    digests and signatures as plain text. *)
#[export] Instance plain_codec : Codec := {|
  Marshal v := match v with JTable t => bits (encode t) | _ => "{}" end;
  UnmarshalTable s := default ∅ (unbits s ≫= decode);
  Sha256Hex s := s;
  DecodeBase64 := Ok;
  Ed25519Verify k m s := eqs s (k +:+ m);
|}.

#[export] Instance plain_codec_laws : JsonLaws.
Proof.
  split.
  - intros [| | | |t|]; try done. cbn. by destruct (encode t).
  - intros t. cbn. rewrite unbits_bits. cbn. by rewrite decode_encode.
Qed.
