(* ===== verification/Provider.v ===== *)
(** * Providers

    [internal/provider]: the registry of resource providers, the built-in file
    and command providers, and the idempotency check. *)

From S2P Require Import Prelude Model Path Machine.

Record Result : Type := mkResult {
  res_Changed : bool;
  res_Skipped : bool;
  res_Message : string;
}.
Definition zeroResult : Result := mkResult false false "".

Section provider.
Context {W : Type} `{Machine W}.

(** [Handler]: [Type] and [Apply]; the error comes with a [Result]. *)
Record Handler : Type := mkHandler {
  ph_Type : string;
  ph_Apply : Duration → Resource → W → W * (Result * option string);
}.

(** ** Registry *)

Definition Registry : Type := gmap string Handler.

Definition Register (r : Registry) (h : Handler) : result string Registry :=
  let t := ph_Type h in
  let? _ := fail_if (eqs t "") "handler type is empty" in
  let? _ := fail_if (bool_decide (is_Some (r !! t)))
              ("handler already registered for type " +:+ Quote t) in
  Ok (<[t := h]> r).

(** [MustRegister] panics on an error. *)
Definition MustRegister (r : Registry) (h : Handler) : option Registry :=
  match Register r h with Ok r => Some r | Err _ => None end.

Definition Lookup (r : Registry) (resourceType : string) : option Handler := r !! resourceType.

(** ** Built-in providers *)

Definition FileHandler_Apply (_ : Duration) (r : Resource) (w : W) : W * (Result * option string) :=
  let full := Clean (r_Path r) in
  let '(w, err) := MkdirAll (Dir full) w in
  match err with
  | Some e => (w, (zeroResult, Some ("mkdir for file resource: " +:+ e)))
  | None =>
      let current := match ReadFile full w with
                     | Ok c => eqs c (r_Content r)
                     | Err _ => false
                     end in
      if current then (w, (mkResult false false "file already in desired state", None))
      else
        let '(w, err) := WriteFile full (r_Content r) w in
        match err with
        | Some e => (w, (zeroResult, Some ("write file: " +:+ e)))
        | None => (w, (mkResult true false "file updated", None))
        end
  end.

Definition FileHandler : Handler := mkHandler "file" FileHandler_Apply.

(** A guard of a command, run by [sh -c]: did it succeed? *)
Definition run_guard (timeout : Duration) (command : string) (w : W) : W * bool :=
  let '(w, (_, err)) := Run ["sh"; "-c"; command] timeout w in
  (w, bool_decide (err = None)).

(** [exec.Command], not [exec.CommandContext]: the timeout is not used, and a
    zero timeout stands for none. *)
Definition CommandHandler_Apply (_ : Duration) (r : Resource) (w : W)
    : W * (Result * option string) :=
  if negb (eqs (r_Creates r) "") && bool_decide (Stat (r_Creates r) w = Some true)
  then (w, (mkResult false true "command skipped: creates path already exists", None))
  else
    let '(w, only_if) := if eqs (r_OnlyIf r) "" then (w, true) else run_guard 0 (r_OnlyIf r) w in
    if negb only_if
    then (w, (mkResult false true "command skipped: only_if condition failed", None))
    else
      let '(w, unless) := if eqs (r_Unless r) "" then (w, false) else run_guard 0 (r_Unless r) w in
      if unless : bool
      then (w, (mkResult false true "command skipped: unless condition succeeded", None))
      else
        let '(w, (out, err)) := Run ["sh"; "-c"; r_Command r] 0 w in
        match err with
        | Some e => (w, (zeroResult, Some ("command failed: " +:+ e +:+ ": " +:+ out)))
        | None => (w, (mkResult true false out, None))
        end.

Definition CommandHandler : Handler := mkHandler "command" CommandHandler_Apply.

Definition NewBuiltinRegistry : option Registry :=
  r ← MustRegister ∅ FileHandler; MustRegister r CommandHandler.

(** ** [CheckIdempotency] *)

Record ConformanceReport : Type := mkReport {
  cr_ProviderType : string;
  cr_IdempotentPass : bool;
  cr_Error : string;
}.

Definition CheckIdempotency (h : Handler) (sample : Resource) (w : W) : W * ConformanceReport :=
  let rep := mkReport (ph_Type h) false in
  let '(w, (_, err)) := ph_Apply h 0 sample w in
  match err with
  | Some e => (w, rep ("first apply failed: " +:+ e))
  | None =>
      let '(w, (second, err)) := ph_Apply h 0 sample w in
      match err with
      | Some e => (w, rep ("second apply failed: " +:+ e))
      | None =>
          if res_Changed second then (w, rep "second apply unexpectedly changed resource")
          else (w, mkReport (ph_Type h) true "")
      end
  end.

(** ** Properties *)

Lemma mkdir_none d w w1 e : MkdirAll d w = (w1, e) → e = None → MkdirAll d w = (w1, None).
Proof. by intros ? ->. Qed.

(** The file provider converges: when an apply succeeds the file holds
    the declared content, and a second apply succeeds, reports no change and
    keeps it, so that the provider passes the idempotency check from every
    state in which it does not fail. *)
Theorem file_provider_converges `{!MachineLaws W} (r : Resource) (t : Duration) (w : W) :
  let '(w1, (res, err)) := FileHandler_Apply t r w in
  err = None →
  ReadFile (Clean (r_Path r)) w1 = Ok (r_Content r) ∧
  (let '(w2, (res2, err2)) := FileHandler_Apply t r w1 in
   err2 = None ∧ res_Changed res2 = false ∧ res_Skipped res2 = false ∧
   ReadFile (Clean (r_Path r)) w2 = Ok (r_Content r)) ∧
  (t = 0 → (CheckIdempotency FileHandler r w).2 = mkReport "file" true "").
Proof.
  set (full := Clean (r_Path r)).
  assert (∀ w1, ReadFile full w1 = Ok (r_Content r) → (MkdirAll (Dir full) w1).2 = None →
    let '(w2, (res2, err2)) := FileHandler_Apply t r w1 in
    err2 = None ∧ res_Changed res2 = false ∧ res_Skipped res2 = false ∧
    ReadFile full w2 = Ok (r_Content r)) as Hsecond.
  { intros w1 Hread Hdir. unfold FileHandler_Apply. fold full.
    pose proof (proj2 (mkdir_keeps_files (Dir full) full _ w1) Hread) as Hkeep.
    destruct (MkdirAll (Dir full) w1) as [w2 e2]. simpl in *. subst e2.
    rewrite Hkeep, eqs_refl. done. }
  assert (let '(w1, (res, err)) := FileHandler_Apply t r w in err = None →
    ReadFile full w1 = Ok (r_Content r) ∧ (MkdirAll (Dir full) w1).2 = None) as Hfirst.
  { unfold FileHandler_Apply. fold full.
    destruct (MkdirAll (Dir full) w) as [w1 [e|]] eqn:Hm; [done|].
    destruct (ReadFile full w1) as [c|e] eqn:Hr; [destruct (eqs c (r_Content r)) eqn:Hc|].
    - apply eqs_true in Hc as ->. intros _. split; [done|]. by eapply mkdir_twice.
    - destruct (WriteFile _ _ _) as [w2 [e|]] eqn:Hw; [done|]. intros _.
      split; [by eapply read_after_write|by eapply mkdir_again].
    - destruct (WriteFile _ _ _) as [w2 [e'|]] eqn:Hw; [done|]. intros _.
      split; [by eapply read_after_write|by eapply mkdir_again]. }
  destruct (FileHandler_Apply t r w) as [w1 [res err]] eqn:H1. intros ->.
  destruct Hfirst as [Hread Hdir]; [done|]. specialize (Hsecond w1 Hread Hdir).
  split_and!; [done..|]. intros ->. unfold CheckIdempotency. cbn [ph_Apply ph_Type FileHandler].
  rewrite H1. destruct (FileHandler_Apply 0 r w1) as [w2 [res2 err2]].
  by destruct Hsecond as (-> & -> & _ & _).
Qed.
End provider.

Arguments Handler : clear implicits.
Arguments Registry : clear implicits.

Lemma file_provider_converges_witness :
  let r := zeroResource <| r_Type := "file" |> <| r_Path := "/etc/./motd" |>
             <| r_Content := "hello" |> in
  let w1 := (FileHandler_Apply 0 r empty_mem).1 in
  ReadFile "/etc/motd" w1 = Ok "hello" ∧
  (CheckIdempotency FileHandler r empty_mem).2 = mkReport "file" true "".
Proof.
  intros r w1. pose proof (file_provider_converges r 0 empty_mem) as Hc.
  change (FileHandler_Apply 0 r empty_mem) with (w1, (mkResult true false "file updated", @None string)) in Hc.
  destruct (Hc eq_refl) as (H1 & _ & H2). split; [exact H1|exact (H2 eq_refl)].
Defined.
