(* ===== verification/Executor.v ===== *)
(** * The executor

    [internal/executor/executor.go]: how one resource is applied on one host
    (transports, hooks, retries, the Windows shim, session records, file
    backups) and how [Apply] walks a plan.  The machine is the abstract world of
    [Machine.v]; every operation returns the world after it. *)

From S2P Require Import Prelude Model Planner Shell Retry Serial Path Machine Provider.

(** ** Records *)

Record ResourceRun : Type := mkRun {
  rr_ResourceID : string;
  rr_Type : string;
  rr_Host : string;
  rr_Changed : bool;
  rr_Skipped : bool;
  rr_Message : string;
}.
#[export] Instance ResourceRun_eta : Eta ResourceRun := λ r,
  mkRun (rr_ResourceID r) (rr_Type r) (rr_Host r) (rr_Changed r) (rr_Skipped r) (rr_Message r).
Definition zeroRun : ResourceRun := mkRun "" "" "" false false "".

Inductive RunStatus := RunSucceeded | RunFailed.
#[export] Instance RunStatus_dec : EqDecision RunStatus.
Proof. solve_decision. Defined.

Record RunRecord : Type := mkRecord {
  run_ID : string;
  run_StartedAt : Time;
  run_EndedAt : Time;
  run_Status : RunStatus;
  run_Results : list ResourceRun;
}.

Record filebucketSnapshot : Type := mkSnapshot {
  fb_Eligible : bool;
  fb_Path : string;
  fb_Content : string;
  fb_Checksum : string;
}.
Definition noSnapshot : filebucketSnapshot := mkSnapshot false "" "" "".

(** What a transport handler returns: changed, skipped, message and error. *)
Definition outcome : Type := bool * bool * string * option string.

(** [res.Message = appendAuditMessage(res.Message, m)] *)
Definition add_message (res : ResourceRun) (m : string) : ResourceRun :=
  res <| rr_Message := appendAuditMessage (rr_Message res) m |>.

(** The variables of the loop of [Apply] over the steps. *)
Record Progress : Type := mkProgress {
  pg_Results : list ResourceRun;
  pg_changedByResource : gmap string bool;
  pg_notifiedHandlers : gset string;
  pg_failedSteps : Z;
  pg_executedSteps : Z;
  pg_Status : RunStatus;
}.
#[export] Instance Progress_eta : Eta Progress := λ r,
  mkProgress (pg_Results r) (pg_changedByResource r) (pg_notifiedHandlers r)
    (pg_failedSteps r) (pg_executedSteps r) (pg_Status r).
Definition no_progress : Progress := mkProgress [] ∅ ∅ 0 0 RunSucceeded.

(** ** Refresh triggers *)

Definition addSource (index : gmap string (list string)) (target source : string)
    : gmap string (list string) :=
  let target := TrimSpace target in
  let source := TrimSpace source in
  if eqs target "" || eqs source "" then index
  else
    let sources := default [] (index !! target) in
    if decide (source ∈ sources) then index else <[target := sources ++ [source]]> index.

Definition step_sources (index : gmap string (list string)) (s : Step) : gmap string (list string) :=
  let r := s_Resource s in
  let index := foldl (λ index target, addSource index target (r_ID r)) index (r_Notify r) in
  foldl (λ index source, addSource index (r_ID r) source) index (r_Subscribe r).

Definition buildRefreshSourceIndex (steps : list Step) : gmap string (list string) :=
  sort_strings <$> foldl step_sources ∅ steps.

Definition refreshTriggeredSources (r : Resource) (refreshSources : gmap string (list string))
    (changed : gmap string bool) : list string :=
  filter (λ src, default false (changed !! src) = true) (default [] (refreshSources !! r_ID r)).

(** ** Sessions *)

Definition shouldRecordSession (h : Host) (r : Resource) : bool :=
  eqs (r_Type r) "command" && r_Become r && one_of (norm (h_Transport h)) ["ssh"; "winrm"].

Definition session_char (c : ascii) : ascii :=
  if in_range "a" "z" c || in_range "A" "Z" c || in_range "0" "9" c
     || bool_decide (c = "-"%char) || bool_decide (c = "_"%char)
  then c else "_"%char.

Definition sanitizeSessionToken (id : string) : string :=
  let id := TrimSpace id in
  if eqs id "" then "resource" else string_map session_char id.

(** Nanoseconds from the zero time to the Unix epoch. *)
Definition unix_epoch : Time := 62135596800 * Second.
Definition UnixNano (t : Time) : Z := wrap64 (t - unix_epoch).

Section executor.
Context {W : Type} `{Machine W} `{Codec}.

Definition transportApplyFunc : Type := Step → Resource → W → W * outcome.

Record Executor : Type := mkExecutor {
  ex_stepTimeout : Duration;
  ex_baseDir : string;
  ex_registry : Registry W;
  ex_transportHandlers : gmap string transportApplyFunc;
}.

(** ** Content integrity *)

Definition validateManagedFileIntegrity (r : Resource) : option string :=
  let checksum := TrimSpace (r_ContentChecksum r) in
  let computed := "sha256:" +:+ Sha256Hex (r_Content r) in
  if negb (eqs checksum "") && negb (EqualFold checksum computed)
  then Some ("content_checksum mismatch: expected " +:+ checksum +:+ " computed " +:+ computed)
  else
    let checksum := if eqs checksum "" then computed else checksum in
    let signature := TrimSpace (r_ContentSignature r) in
    let publicKey := TrimSpace (r_ContentSigningPubKey r) in
    if eqs signature "" && eqs publicKey "" then None
    else if eqs signature "" || eqs publicKey "" then
      Some "content_signature and content_signing_pubkey must be provided together"
    else
      match DecodeBase64 publicKey with
      | Err e => Some ("decode content_signing_pubkey: " +:+ e)
      | Ok pubBytes =>
          if negb (Nat.eqb (String.length pubBytes) 32) then
            Some "content_signing_pubkey must be a base64 ed25519 public key"
          else
            match DecodeBase64 signature with
            | Err e => Some ("decode content_signature: " +:+ e)
            | Ok sigBytes =>
                if Ed25519Verify pubBytes (ToLower checksum) sigBytes then None
                else Some "content_signature verification failed"
            end
      end.

(** ** Session records and file backups *)

Definition session_record (step : Step) (r : Resource) (output : string) (execErr : option string)
    (w : W) : json_value :=
  let opt name s := if eqs s "" then [] else [(name, JString s)] in
  JObject ([("timestamp", JTime (Now w)); ("host", JString (h_Name (s_Host step)));
            ("transport", JString (norm (h_Transport (s_Host step))));
            ("resource_id", JString (r_ID (s_Resource step)))] ++
           opt "command" (r_Command r) ++ [("become", JBool (r_Become r))] ++
           opt "become_user" (r_BecomeUser r) ++ opt "output" (TrimSpace output) ++
           opt "error" (default "" execErr)).

(** The path of the record ([""]: none) and the error. *)
Definition maybeRecordSession (e : Executor) (step : Step) (r : Resource) (output : string)
    (execErr : option string) (w : W) : W * (string * option string) :=
  if negb (shouldRecordSession (s_Host step) r) then (w, ("", None))
  else if blank (ex_baseDir e) then (w, ("", None))
  else
    let dir := filepath_Join [ex_baseDir e; ".masterchef"; "sessions"] in
    let '(w, err) := MkdirAll dir w in
    match err with
    | Some e => (w, ("", Some ("create session dir: " +:+ e)))
    | None =>
        let name := sanitizeSessionToken (r_ID (s_Resource step)) +:+ "-" +:+
                    FormatTime (Now w) +:+ ".json" in
        let path := filepath_Join [dir; name] in
        let '(w, err) := WriteFile path (Marshal (session_record step r output execErr w)) w in
        match err with
        | Some e => (w, ("", Some ("write session record: " +:+ e)))
        | None => (w, (path, None))
        end
    end.

Definition note_session (record : string * option string) (msg : string) : string :=
  match record with
  | (_, Some e) => appendAuditMessage msg ("session record error: " +:+ e)
  | (path, None) =>
      if eqs path "" then msg else appendAuditMessage msg ("session record: " +:+ path)
  end.

(** The transport of the shims: a local WinRM host counts as local. *)
Definition shim_transport (h : Host) : string :=
  let transport := norm (h_Transport h) in
  if eqs transport "winrm" && isLocalWinRMHost h then "local" else transport.

Definition captureFilebucketSnapshot (e : Executor) (step : Step) (w : W) : filebucketSnapshot :=
  let r := s_Resource step in
  if negb (eqs (r_Type r) "file") || blank (r_Path r) || blank (ex_baseDir e) then noSnapshot
  else if negb (eqs (shim_transport (s_Host step)) "local") then noSnapshot
  else
    let full := Clean (r_Path r) in
    match ReadFile full w with
    | Err _ => noSnapshot
    | Ok current =>
        if eqs current (r_Content r) then noSnapshot
        else mkSnapshot true full current ("sha256:" +:+ Sha256Hex current)
    end.

Definition filebucket_history (step : Step) (snap : filebucketSnapshot) (w : W) : json_value :=
  JObject [("time", JTime (Now w)); ("resource_id", JString (r_ID (s_Resource step)));
           ("host", JString (r_Host (s_Resource step))); ("path", JString (fb_Path snap));
           ("checksum", JString (fb_Checksum snap));
           ("size_bytes", JNumber (Z.of_nat (String.length (fb_Content snap))))].

(** The message, or the error. *)
Definition persistFilebucketBackup (e : Executor) (step : Step) (snap : filebucketSnapshot) (w : W)
    : W * result string string :=
  if negb (fb_Eligible snap) then (w, Ok "")
  else
    let base := filepath_Join [ex_baseDir e; ".masterchef"; "filebucket"] in
    let objectsDir := filepath_Join [base; "objects"] in
    let '(w, err) := MkdirAll objectsDir w in
    match err with
    | Some e => (w, Err ("create objects dir: " +:+ e))
    | None =>
        let objectPath := filepath_Join [objectsDir; replace_char ":" "-" (fb_Checksum snap)] in
        let '(w, err) := if decide (Stat objectPath w = Some false)
                         then WriteFile objectPath (fb_Content snap) w else (w, None) in
        match err with
        | Some e => (w, Err ("write object: " +:+ e))
        | None =>
            let line := Marshal (filebucket_history step snap w) in
            let historyPath := filepath_Join [base; "history.ndjson"] in
            let '(w, err) := OpenAppend historyPath w in
            match err with
            | Some e => (w, Err ("open history: " +:+ e))
            | None =>
                let '(w, err) := AppendFile historyPath (line +:+ newline) w in
                match err with
                | Some e => (w, Err ("append history: " +:+ e))
                | None => (w, Ok ("filebucket backup: " +:+ fb_Checksum snap))
                end
            end
        end
    end.

(** ** Transports *)

Definition applyLocalResource (e : Executor) (r : Resource) (w : W) : W * (Result * option string) :=
  match Lookup (ex_registry e) (r_Type r) with
  | None => (w, (zeroResult, Some ("no provider registered for type " +:+ Quote (r_Type r))))
  | Some h => ph_Apply h (ex_stepTimeout e) r w
  end.

Definition local_outcome (e : Executor) (r : Resource) (w : W) : W * outcome :=
  let '(w, (res, err)) := applyLocalResource e r w in
  (w, (res_Changed res, res_Skipped res, res_Message res, err)).

Definition runSSH (e : Executor) (h : Host) (script : string) (w : W) : W * (string * option string) :=
  let '(w, (out, err)) := Run ("ssh" :: buildSSHArgs h script) (ex_stepTimeout e) w in
  (w, (out, (λ err, "ssh apply failed: " +:+ err +:+ ": " +:+ out) <$> err)).

Definition applyOverSSH (e : Executor) (step : Step) (r : Resource) (w : W) : W * outcome :=
  if eqs (r_Type r) "file" then
    let marker := "MASTERCHEF_EOF_" +:+ Itoa (UnixNano (Now w)) in
    let '(w, (out, err)) := runSSH e (s_Host step) (sshFileScript marker (Dir (r_Path r)) r) w in
    match err with
    | Some err => (w, (false, false, out, Some err))
    | None => (w, (true, false, TrimSpace out, None))
    end
  else if eqs (r_Type r) "command" then
    let '(w, (out, err)) := runSSH e (s_Host step) (sshCommandScript r) w in
    (w, remote_outcome out err)
  else (w, (false, false, "",
            Some ("unsupported resource type " +:+ Quote (r_Type r) +:+ " for ssh transport"))).

Definition runWinRMPowerShell (e : Executor) (target script : string) (w : W)
    : W * (string * option string) :=
  let '(w, (out, err)) :=
    Run ["pwsh"; "-NoProfile"; "-Command";
         "Invoke-Command -ComputerName " +:+ quotePowerShell target +:+
         " -ScriptBlock { " +:+ script +:+ " }"] (ex_stepTimeout e) w in
  (w, (out, (λ err, "winrm apply failed: " +:+ err +:+ ": " +:+ out) <$> err)).

Definition applyOverWinRM (e : Executor) (step : Step) (r : Resource) (w : W) : W * outcome :=
  if isLocalWinRMHost (s_Host step) then local_outcome e r w
  else
    let target := h_Address (s_Host step) in
    let target := if eqs target "" then h_Name (s_Host step) else target in
    if blank target then (w, (false, false, "", Some "winrm host target is required"))
    else if eqs (r_Type r) "file" then
      let '(w, (out, err)) := runWinRMPowerShell e target (winrmFileScript r) w in
      match err with
      | Some err => (w, (false, false, TrimSpace out, Some err))
      | None => (w, (true, false, TrimSpace out, None))
      end
    else if eqs (r_Type r) "command" then
      let '(w, (out, err)) := runWinRMPowerShell e target (winrmCommandScript r) w in
      (w, remote_outcome out err)
    else (w, (false, false, "",
              Some ("unsupported resource type " +:+ Quote (r_Type r) +:+ " for winrm transport"))).

(** [registerBuiltinTransports]: the handlers read the executor they are
    registered in, except its transport table. *)
Definition registerBuiltinTransports (e : Executor) : Executor :=
  mkExecutor (ex_stepTimeout e) (ex_baseDir e) (ex_registry e)
    (<["local" := λ _, local_outcome e]>
     (<["ssh" := applyOverSSH e]> {["winrm" := applyOverWinRM e]})).

(** [New] and [NewWithRegistry]; [None] is the panic of [MustRegister]. *)
Definition New (baseDir : string) : option Executor :=
  reg ← NewBuiltinRegistry;
  Some (registerBuiltinTransports (mkExecutor (30 * Second) baseDir reg ∅)).

Definition NewWithRegistry (stepTimeout : Duration) (reg : option (Registry W)) : option Executor :=
  let stepTimeout := if stepTimeout <=? 0 then 30 * Second else stepTimeout in
  reg ← match reg with Some r => Some r | None => NewBuiltinRegistry end;
  Some (registerBuiltinTransports (mkExecutor stepTimeout "" reg ∅)).

Definition RegisterTransport (e : Executor) (name : string) (handler : option transportApplyFunc)
    : result string Executor :=
  let name := norm name in
  let? _ := fail_if (eqs name "") "transport name is required" in
  match handler with
  | None => Err "transport handler is required"
  | Some h => Ok (mkExecutor (ex_stepTimeout e) (ex_baseDir e) (ex_registry e)
                    (<[name := h]> (ex_transportHandlers e)))
  end.

(** ** The Windows shim

    Registry values and scheduled tasks kept in a JSON file of tables. *)

Definition blank_run (r : Resource) : ResourceRun :=
  zeroRun <| rr_ResourceID := r_ID r |> <| rr_Type := r_Type r |> <| rr_Host := r_Host r |>.

Definition load_table (path : string) (w : W) : gmap string (gmap string string) :=
  match ReadFile path w with
  | Ok raw => if eqs raw "" then ∅ else UnmarshalTable raw
  | Err _ => ∅
  end.

Definition field (entry : gmap string string) (name : string) : string := default "" (entry !! name).

Definition save_table (path what changed : string) (table : gmap string (gmap string string))
    (res : ResourceRun) (w : W) : W * (ResourceRun * bool) :=
  let '(w, err) := WriteFile path (Marshal (JTable table)) w in
  match err with
  | Some e => (w, (res <| rr_Message := "write " +:+ what +:+ " state: " +:+ e |>, true))
  | None => (w, (res <| rr_Changed := true |> <| rr_Message := changed |>, false))
  end.

Definition shim_registry (root : string) (r : Resource) (w : W) : W * (ResourceRun * bool) :=
  let res := blank_run r in
  let regPath := filepath_Join [root; "registry.json"] in
  let state := load_table regPath w in
  let key := norm (r_RegistryKey r) in
  if eqs key "" then (w, (res <| rr_Message := "registry_key is required" |>, true))
  else
    let entry := default ∅ (state !! key) in
    let valueType := norm (r_RegistryValueType r) in
    let valueType := if eqs valueType "" then "string" else valueType in
    if eqs (field entry "type") valueType && eqs (field entry "value") (r_RegistryValue r)
    then (w, (res <| rr_Message := "registry already in desired state" |>, false))
    else
      let entry := <["value" := r_RegistryValue r]> (<["type" := valueType]> entry) in
      save_table regPath "registry" "registry value updated" (<[key := entry]> state) res w.

Definition shim_scheduled_task (root : string) (r : Resource) (w : W) : W * (ResourceRun * bool) :=
  let res := blank_run r in
  let taskPath := filepath_Join [root; "scheduled_tasks.json"] in
  let state := load_table taskPath w in
  let name := TrimSpace (r_TaskName r) in
  if eqs name "" then (w, (res <| rr_Message := "task_name is required" |>, true))
  else
    let command := TrimSpace (r_TaskCommand r) in
    if eqs command "" then (w, (res <| rr_Message := "task_command is required" |>, true))
    else
      let schedule := TrimSpace (r_TaskSchedule r) in
      let schedule := if eqs schedule "" then "@daily" else schedule in
      let key := ToLower name in
      let same := match state !! key with
                  | Some current => eqs (field current "command") command
                                    && eqs (field current "schedule") schedule
                  | None => false
                  end in
      if same then (w, (res <| rr_Message := "scheduled task already in desired state" |>, false))
      else
        let entry := <["name" := name]> (<["schedule" := schedule]> {["command" := command]}) in
        save_table taskPath "scheduled task" "scheduled task updated" (<[key := entry]> state) res w.

Definition shim_root (e : Executor) : string :=
  let stateDir := TrimSpace (ex_baseDir e) in
  let stateDir := if eqs stateDir "" then "." else stateDir in
  filepath_Join [stateDir; ".masterchef"; "windows"].

Definition executeWindowsShimResource (e : Executor) (step : Step) (r : Resource) (w : W)
    : W * (ResourceRun * bool) :=
  let res := blank_run r in
  if negb (eqs (shim_transport (s_Host step)) "local") then
    (w, (res <| rr_Message := "windows resource type " +:+ r_Type r +:+
           " is only supported in local/winrm-localhost shim mode" |>, true))
  else
    let root := shim_root e in
    let '(w, err) := MkdirAll root w in
    match err with
    | Some e => (w, (res <| rr_Message := "create windows shim state dir: " +:+ e |>, true))
    | None =>
        if eqs (r_Type r) "registry" then shim_registry root r w
        else if eqs (r_Type r) "scheduled_task" then shim_scheduled_task root r w
        else (w, (res <| rr_Message :=
                    "unsupported windows shim resource type: " +:+ r_Type r |>, true))
    end.

(** ** One attempt *)

Definition hook_resource (base : Resource) (command : string) : Resource :=
  base <| r_Command := command |> <| r_Creates := "" |> <| r_OnlyIf := "" |> <| r_Unless := "" |>
    <| r_Retries := 0 |> <| r_RetryDelaySeconds := 0 |> <| r_RetryBackoff := "" |>
    <| r_RetryJitterSecs := 0 |> <| r_UntilContains := "" |> <| r_RescueCommand := "" |>
    <| r_AlwaysCommand := "" |>.

(** Message, changed, error. *)
Definition runCommandHook (e : Executor) (step : Step) (handler : transportApplyFunc)
    (base : Resource) (hookName command : string) (w : W) : W * (string * bool * option string) :=
  let command := TrimSpace command in
  if eqs command "" then (w, ("", false, None))
  else
    match prepareResourceForExecution (s_Host step) (hook_resource base command) with
    | Err prepErr => (w, (hookName +:+ ": " +:+ prepErr, false, Some prepErr))
    | Ok (prepared, audit) =>
        let '(w, (changed, _, msg, execErr)) := handler step prepared w in
        let msg := appendAuditMessage msg (hookName +:+ " hook") in
        let msg := appendAuditMessage msg audit in
        let '(w, record) := maybeRecordSession e step prepared msg execErr w in
        let msg := note_session record msg in
        match execErr with
        | Some err => (w, (if blank msg then err else msg, changed, Some err))
        | None => (w, (msg, changed, None))
        end
    end.

(** [if err != nil && RescueCommand != ""] *)
Definition run_rescue (e : Executor) (step : Step) (handler : transportApplyFunc)
    (res : ResourceRun) (err : option string) (w : W) : W * (ResourceRun * option string) :=
  let r := s_Resource step in
  match err with
  | Some cause =>
      if blank (r_RescueCommand r) then (w, (res, err))
      else
        let '(w, (hookMsg, hookChanged, hookErr)) :=
          runCommandHook e step handler r "rescue" (r_RescueCommand r) w in
        let res := add_message res hookMsg in
        let res := res <| rr_Changed := rr_Changed res || hookChanged |> in
        match hookErr with
        | None => (w, (res <| rr_Skipped := false |>, None))
        | Some he => (w, (res, Some (cause +:+ "; rescue hook failed: " +:+ he)))
        end
  | None => (w, (res, None))
  end.

(** [if AlwaysCommand != ""] *)
Definition run_always (e : Executor) (step : Step) (handler : transportApplyFunc)
    (res : ResourceRun) (err : option string) (w : W) : W * (ResourceRun * option string) :=
  let r := s_Resource step in
  if blank (r_AlwaysCommand r) then (w, (res, err))
  else
    let '(w, (hookMsg, hookChanged, hookErr)) :=
      runCommandHook e step handler r "always" (r_AlwaysCommand r) w in
    let res := add_message res hookMsg in
    let res := res <| rr_Changed := rr_Changed res || hookChanged |> in
    (w, (res, match hookErr, err with
              | None, _ => err
              | Some he, Some cause => Some (cause +:+ "; always hook failed: " +:+ he)
              | Some he, None => Some ("always hook failed: " +:+ he)
              end)).

Definition executeSingleStep (e : Executor) (step : Step) (w : W) : W * (ResourceRun * bool) :=
  let r := s_Resource step in
  let res := blank_run r in
  if eqs (r_Type r) "registry" || eqs (r_Type r) "scheduled_task"
  then executeWindowsShimResource e step r w
  else
    match (if eqs (r_Type r) "file" then validateManagedFileIntegrity r else None) with
    | Some err =>
        (w, (res <| rr_Message := "file integrity validation failed: " +:+ err |>, true))
    | None =>
        match ex_transportHandlers e !! norm (h_Transport (s_Host step)) with
        | None =>
            (w, (res <| rr_Message :=
                   "unsupported transport: " +:+ h_Transport (s_Host step) |>, true))
        | Some handler =>
            match prepareResourceForExecution (s_Host step) r with
            | Err prepErr => (w, (res <| rr_Message := prepErr |>, true))
            | Ok (prepared, audit) =>
                let '(w, (changed, skipped, msg, err)) := handler step prepared w in
                let res := res <| rr_Changed := changed |> <| rr_Skipped := skipped |>
                             <| rr_Message := appendAuditMessage msg audit |> in
                let '(w, record) := maybeRecordSession e step prepared msg err w in
                let res := res <| rr_Message := note_session record (rr_Message res) |> in
                let '(w, (res, err)) := run_rescue e step handler res err w in
                let '(w, (res, err)) := run_always e step handler res err w in
                match err with
                | None => (w, (res, false))
                | Some err =>
                    (w, (if blank (rr_Message res) then res <| rr_Message := err |> else res, true))
                end
            end
        end
    end.

(** ** Retries

    [attempts := 1; if Retries > 0 { attempts = Retries + 1 }] on 64 bits. *)

Definition attempts_of (r : Resource) : Z :=
  if 0 <? r_Retries r then wrap64 (r_Retries r + 1) else 1.

(** An attempt succeeded without the text [until_contains] asks for. *)
Definition check_until (until : string) (last : ResourceRun) (failed : bool) : ResourceRun * bool :=
  if negb failed && negb (eqs until "") && negb (Contains (rr_Message last) until) then
    (last <| rr_Message :=
       if blank (rr_Message last) then "until_contains condition not met: " +:+ until
       else TrimSpace (rr_Message last) +:+ "; until_contains condition not met: " +:+ until |>,
     true)
  else (last, failed).

(** One turn of the loop, up to the test of [failed]. *)
Definition attempt (e : Executor) (step : Step) (w : W) : W * (ResourceRun * bool) :=
  let '(w, (last, failed)) := executeSingleStep e step w in
  (w, check_until (TrimSpace (r_UntilContains (s_Resource step))) last failed).

(** The pause after failed attempt [n]. *)
Definition pause (r : Resource) (n : Z) (w : W) : W :=
  if n <? attempts_of r then
    let delay := wrap64 (retryDelayForAttempt (seconds (r_RetryDelaySeconds r)) n
                           (normalizeRetryBackoff (r_RetryBackoff r))
                         + retryJitterForAttempt (r_ID r) n (seconds (r_RetryJitterSecs r))) in
    if 0 <? delay then Sleep delay w else w
  else w.

(** The end of a successful attempt [n]: file backup and message. *)
Definition succeed (e : Executor) (step : Step) (snap : filebucketSnapshot) (n : Z)
    (last : ResourceRun) (w : W) : W * ResourceRun :=
  let '(w, last) :=
    if fb_Eligible snap && negb (rr_Skipped last) && rr_Changed last then
      let '(w, backup) := persistFilebucketBackup e step snap w in
      (w, add_message last (match backup with
                            | Ok msg => msg
                            | Err err => "filebucket backup failed: " +:+ err
                            end))
    else (w, last) in
  (w, if 1 <? n then
        last <| rr_Message := TrimSpace (rr_Message last +:+ " (succeeded after " +:+ Itoa n +:+
                                         " attempts)") |>
      else last).

(** [for attempt := 1; attempt <= attempts; attempt++]: the fuel is the number
    of attempts left. *)
Fixpoint attempt_loop (fuel : nat) (e : Executor) (step : Step) (snap : filebucketSnapshot)
    (n : Z) (last : ResourceRun) (w : W) : W * (ResourceRun * bool) :=
  match fuel with
  | O =>
      let attempts := attempts_of (s_Resource step) in
      (w, (if 1 <? attempts then
             last <| rr_Message := TrimSpace (rr_Message last +:+ " (failed after " +:+
                                              Itoa attempts +:+ " attempts)") |>
           else last, true))
  | S fuel =>
      let '(w, (last, failed)) := attempt e step w in
      if failed : bool then
        attempt_loop fuel e step snap (n + 1) last (pause (s_Resource step) n w)
      else
        let '(w, last) := succeed e step snap n last w in
        (w, (last, false))
  end.

Definition executeStep (e : Executor) (step : Step) (w : W) : W * (ResourceRun * bool) :=
  attempt_loop (Z.to_nat (attempts_of (s_Resource step))) e step
    (captureFilebucketSnapshot e step w) 1 zeroRun w.

(** ** [Apply] *)

Definition apply_strategy (policy : Execution) : string :=
  let strategy := norm (e_Strategy policy) in
  if eqs strategy "" then "linear" else strategy.

Definition ordered_steps (p : Plan) : list Step :=
  if eqs (apply_strategy (p_Execution p)) "serial"
  then serialOrderedSteps (p_Steps p) (e_Serial (p_Execution p)) (e_FailureDomain (p_Execution p))
  else p_Steps p.

Definition fail_fast (policy : Execution) : bool :=
  e_AnyErrorsFatal policy || one_of (apply_strategy policy) ["linear"; "serial"].

(** The counts of steps are lengths of slices, far below the width of [int]. *)
Definition shouldStop (policy : Execution) (pg : Progress) : bool :=
  if pg_failedSteps pg =? 0 then false
  else if fail_fast policy then true
  else if (0 <? e_MaxFailPercentage policy) && (0 <? pg_executedSteps pg) then
    e_MaxFailPercentage policy <? pg_failedSteps pg * 100 / pg_executedSteps pg
  else false.

Definition untriggered (r : Resource) : ResourceRun :=
  (blank_run r) <| rr_Skipped := true |> <| rr_Message := "refresh-only resource not triggered" |>.

(** A triggered command runs its refresh command, without its guards. *)
Definition refreshed (r : Resource) : Resource :=
  if eqs (r_Type r) "command" && negb (blank (r_RefreshCommand r)) then
    r <| r_Command := TrimSpace (r_RefreshCommand r) |> <| r_Creates := "" |>
      <| r_OnlyIf := "" |> <| r_Unless := "" |>
  else r.

Definition notify_names (r : Resource) : gset string :=
  list_to_set (filter (λ n, n ≠ "") (TrimSpace <$> r_NotifyHandlers r)).

(** The step as it is executed when [triggered] are its changed sources. *)
Definition triggered_step (triggered : list string) (step : Step) : Step :=
  match triggered with
  | [] => step
  | _ => step <| s_Resource := refreshed (s_Resource step) |>
  end.

(** One turn of the loop over the steps; [true] is the [break]. *)
Definition apply_step (e : Executor) (policy : Execution) (refreshSources : gmap string (list string))
    (step : Step) (w : W) (pg : Progress) : W * Progress * bool :=
  let r := s_Resource step in
  let triggered := refreshTriggeredSources r refreshSources (pg_changedByResource pg) in
  if r_RefreshOnly r && bool_decide (triggered = []) then
    (w, pg <| pg_Results := pg_Results pg ++ [untriggered r] |>
           <| pg_changedByResource := <[r_ID r := false]> (pg_changedByResource pg) |>
           <| pg_executedSteps := pg_executedSteps pg + 1 |>, false)
  else
    let '(w, (res, failed)) := executeStep e (triggered_step triggered step) w in
    let res := if bool_decide (triggered = []) then res
               else add_message res ("refresh triggered by: " +:+ Join triggered ", ") in
    let pg := pg <| pg_Results := pg_Results pg ++ [res] |>
                 <| pg_changedByResource := <[r_ID r := rr_Changed res]> (pg_changedByResource pg) |>
                 <| pg_notifiedHandlers :=
                      if rr_Changed res && negb (rr_Skipped res)
                      then pg_notifiedHandlers pg ∪ notify_names r else pg_notifiedHandlers pg |>
                 <| pg_executedSteps := pg_executedSteps pg + 1 |> in
    if failed : bool then
      let pg := pg <| pg_failedSteps := pg_failedSteps pg + 1 |> <| pg_Status := RunFailed |> in
      (w, pg, shouldStop policy pg)
    else (w, pg, false).

Fixpoint run_steps (e : Executor) (policy : Execution) (refreshSources : gmap string (list string))
    (steps : list Step) (w : W) (pg : Progress) : W * Progress :=
  match steps with
  | [] => (w, pg)
  | step :: steps =>
      let '(w, pg, stop) := apply_step e policy refreshSources step w pg in
      if stop : bool then (w, pg) else run_steps e policy refreshSources steps w pg
  end.

Definition missing_handler (id : string) : ResourceRun :=
  zeroRun <| rr_ResourceID := id |> <| rr_Type := "handler" |>
    <| rr_Message := "notified handler not found in plan" |>.

Fixpoint run_handlers (e : Executor) (handlers : gmap string Step) (ids : list string)
    (results : list ResourceRun) (w : W) : W * (list ResourceRun * RunStatus) :=
  match ids with
  | [] => (w, (results, RunSucceeded))
  | id :: ids =>
      match handlers !! id with
      | None => (w, (results ++ [missing_handler id], RunFailed))
      | Some step =>
          let '(w, (res, failed)) := executeStep e step w in
          let results := results ++ [add_message res "handler executed"] in
          if failed : bool then (w, (results, RunFailed))
          else run_handlers e handlers ids results w
      end
  end.

(** The loop over the steps of a plan, from the start. *)
Definition step_phase (e : Executor) (p : Plan) (w : W) : W * Progress :=
  run_steps e (p_Execution p) (buildRefreshSourceIndex (ordered_steps p)) (ordered_steps p) w
    no_progress.

Definition Apply (e : Executor) (p : Plan) (w : W) : W * RunRecord :=
  let start := Now w in
  let '(w, pg) := step_phase e p w in
  let '(w, (results, status)) :=
    if bool_decide (pg_Status pg = RunSucceeded) then
      run_handlers e (p_Handlers p) (sort_strings (elements (pg_notifiedHandlers pg)))
        (pg_Results pg) w
    else (w, (pg_Results pg, pg_Status pg)) in
  (w, mkRecord (FormatTime start) start (Now w) status results).
End executor.
