(* ===== verification/ExecutorSpec.v ===== *)
(** * What an apply guarantees

    The theorems on [Executor.v]: retries, hooks, the Windows shim, and the walk
    of a plan (fail fast, handlers, refresh-only resources). *)

From S2P Require Import Prelude Model Planner Shell Retry Serial Path Machine Provider Executor.

Section spec.
Context {W : Type} `{Machine W} `{Codec}.
Implicit Types (e : Executor (W := W)) (step : Step) (w : W) (pg : Progress).

(** ** One attempt *)

(** The result of an attempt is about the resource of the step. *)
Definition about (r : Resource) (res : ResourceRun) : Prop :=
  rr_ResourceID res = r_ID r ∧ rr_Type res = r_Type r ∧ rr_Host res = r_Host r.

Lemma about_blank r : about r (blank_run r).
Proof. done. Qed.
Lemma about_add_message r res m : about r res → about r (add_message res m).
Proof. done. Qed.

Lemma run_rescue_about e step h r res err w :
  about r res → about r (run_rescue e step h res err w).2.1.
Proof.
  intros Hr. unfold run_rescue. destruct err as [c|]; [|done]. destruct (blank _); [done|].
  destruct (runCommandHook _ _ _ _ _ _ _) as [w1 [[m ch] [he|]]]; done.
Qed.
Lemma run_always_about e step h r res err w :
  about r res → about r (run_always e step h res err w).2.1.
Proof.
  intros Hr. unfold run_always. destruct (blank _); [done|].
  destruct (runCommandHook _ _ _ _ _ _ _) as [w1 [[m ch] he]]; done.
Qed.

Lemma shim_about e step r w : about r (executeWindowsShimResource e step r w).2.1.
Proof.
  unfold executeWindowsShimResource. destruct (negb _); [done|].
  destruct (MkdirAll _ w) as [w1 [err|]]; [done|].
  destruct (eqs (r_Type r) "registry"); [|destruct (eqs (r_Type r) "scheduled_task"); [|done]].
  - unfold shim_registry, save_table. destruct (eqs _ ""); [done|]. destruct (_ && _); [done|].
    destruct (WriteFile _ _ _) as [w2 [err|]]; done.
  - unfold shim_scheduled_task, save_table. destruct (eqs _ ""); [done|]. destruct (eqs _ ""); [done|].
    destruct (match _ with Some _ => _ | None => _ end); [done|].
    destruct (WriteFile _ _ _) as [w2 [err|]]; done.
Qed.

Lemma executeSingleStep_about e step w :
  about (s_Resource step) (executeSingleStep e step w).2.1.
Proof.
  unfold executeSingleStep. destruct (_ || _); [apply shim_about|].
  destruct (if eqs _ "file" then _ else _); [done|].
  destruct (_ !! _) as [h|]; [|done]. destruct (prepareResourceForExecution _ _) as [[p a]|err]; [|done].
  destruct (h step p w) as [w1 [[[ch sk] m] err]]. destruct (maybeRecordSession _ _ _ _ _ _) as [w2 rec].
  match goal with |- context [run_rescue e step h ?r err w2] => set (res := r) end.
  assert (about (s_Resource step) res) as Hres by done. clearbody res.
  pose proof (run_rescue_about e step h _ res err w2 Hres) as Hr.
  destruct (run_rescue _ _ _ _ _ _) as [w3 [res3 err3]]. simpl in Hr.
  pose proof (run_always_about e step h _ res3 err3 w3 Hr) as Ha.
  destruct (run_always _ _ _ _ _ _) as [w4 [res4 [err4|]]]; simpl in *; [|done].
  by destruct (blank _).
Qed.

Lemma attempt_about e step w : about (s_Resource step) (attempt e step w).2.1.
Proof.
  unfold attempt. pose proof (executeSingleStep_about e step w) as Ha.
  destruct (executeSingleStep e step w) as [w1 [res f]]. simpl in *. unfold check_until.
  by destruct (_ && _).
Qed.

Lemma succeed_about e step snap n r last w :
  about r last → about r (succeed e step snap n last w).2.
Proof.
  intros Hl. unfold succeed. destruct (_ && _); [destruct (persistFilebucketBackup _ _ _ _)|];
    by destruct (1 <? n).
Qed.

(** ** Retries *)

(** [n] attempts failed one after the other, with the pauses of the back-off. *)
Inductive failed_attempts e step : nat → W → W → Prop :=
  | no_attempt w : failed_attempts e step 0 w w
  | one_more n w w1 w2 res :
      failed_attempts e step n w w1 → attempt e step w1 = (w2, (res, true)) →
      failed_attempts e step (S n) w (pause (s_Resource step) (Z.of_nat (S n)) w2).

Lemma attempt_loop_spec fuel e step snap n last w0 w :
  failed_attempts e step n w0 w →
  let '(w', (res, failed)) := attempt_loop fuel e step snap (Z.of_nat n + 1) last w in
  if failed : bool then failed_attempts e step (n + fuel) w0 w'
  else ∃ k w1 w2 last, (k < n + fuel)%nat ∧ failed_attempts e step k w0 w1 ∧
         attempt e step w1 = (w2, (last, false)) ∧
         succeed e step snap (Z.of_nat k + 1) last w2 = (w', res).
Proof.
  revert n last w; induction fuel as [|fuel IH]; intros n last w Hn; cbn [attempt_loop].
  - by rewrite Nat.add_0_r.
  - destruct (attempt e step w) as [w1 [res f]] eqn:Ha. destruct f.
    + replace (n + S fuel)%nat with (S n + fuel)%nat by lia.
      replace (Z.of_nat n + 1 + 1) with (Z.of_nat (S n) + 1) by lia.
      replace (Z.of_nat n + 1) with (Z.of_nat (S n)) by lia.
      apply IH. by econstructor.
    + destruct (succeed _ _ _ _ _ _) as [w2 last'] eqn:Hs. exists n, w, w1, res.
      split_and!; [lia|done..].
Qed.

Lemma attempts_of_bounds r : r_Retries r < max_int64 → 1 ≤ attempts_of r ≤ Z.max 0 (r_Retries r) + 1.
Proof.
  intros Hr. unfold attempts_of. destruct (Z.ltb_spec 0 (r_Retries r)) as [Hp|]; [|lia].
  rewrite wrap64_small; [lia|]. unfold int64, min_int64, max_int64 in *. lia.
Qed.

Lemma attempt_loop_about fuel e step snap n last w :
  (0 < fuel)%nat → about (s_Resource step) (attempt_loop fuel e step snap n last w).2.1.
Proof.
  revert n last w; induction fuel as [|fuel IH]; intros n last w Hf; cbn [attempt_loop]; [lia|].
  pose proof (attempt_about e step w) as Ha. destruct (attempt e step w) as [w1 [res [|]]].
  - destruct fuel as [|fuel]; [|apply IH; lia]. cbn [attempt_loop]. by destruct (1 <? _).
  - simpl in Ha. pose proof (succeed_about e step snap n _ res w1 Ha) as Hs.
    by destruct (succeed _ _ _ _ _ _) as [w2 last'].
Qed.

Lemma executeStep_about e step w :
  r_Retries (s_Resource step) < max_int64 → about (s_Resource step) (executeStep e step w).2.1.
Proof. intros Hr%attempts_of_bounds. apply attempt_loop_about. lia. Qed.

(** C6: a step is attempted at most [retries + 1] times, and at least once: it
    succeeds with its first successful attempt, every earlier attempt having
    failed, and fails only when all of them failed; between two attempts the
    executor waits for the back-off delay; the result is about the resource of
    the step. *)
Theorem executeStep_retries e step w :
  r_Retries (s_Resource step) < max_int64 →
  let n := Z.to_nat (attempts_of (s_Resource step)) in
  let snap := captureFilebucketSnapshot e step w in
  let '(w', (res, failed)) := executeStep e step w in
  Z.of_nat n = Z.max 0 (r_Retries (s_Resource step)) + 1 ∧
  about (s_Resource step) res ∧
  if failed : bool then failed_attempts e step n w w'
  else ∃ k w1 w2 last, (k < n)%nat ∧ failed_attempts e step k w w1 ∧
         attempt e step w1 = (w2, (last, false)) ∧
         succeed e step snap (Z.of_nat k + 1) last w2 = (w', res).
Proof.
  intros Hr n snap. pose proof (attempts_of_bounds _ Hr) as Hb.
  pose proof (executeStep_about e step w Hr) as Ha.
  pose proof (attempt_loop_spec n e step snap 0 zeroRun w w (no_attempt _ _ _)) as Hs.
  change (attempt_loop n e step snap (Z.of_nat 0 + 1) zeroRun w) with (executeStep e step w) in Hs.
  destruct (executeStep e step w) as [w' [res failed]]. simpl in Ha. split_and!; [|done|exact Hs].
  unfold n. rewrite Z2Nat.id by lia. unfold attempts_of in *.
  destruct (Z.ltb_spec 0 (r_Retries (s_Resource step))); [|lia].
  rewrite wrap64_small; [lia|]. unfold int64, min_int64, max_int64 in *. lia.
Qed.

(** [retries + 1] wraps around on the largest [int]: a step with that many
    retries is never attempted, and reported as failed with an empty result. *)
Theorem executeStep_retries_overflow e order host r w :
  executeStep e (mkStep order host (r <| r_Retries := max_int64 |>)) w = (w, (zeroRun, true)).
Proof. done. Qed.

(** ** Hooks *)

(** An attempt that reaches its transport runs the handler once; the
    rescue hook runs exactly when the handler failed, and its success cancels
    the failure; the always hook runs in every case, after them, and its
    failure fails the attempt.  The attempt changed something when any of them
    did, and is skipped only when the handler skipped and no rescue succeeded. *)
Theorem single_step_outcome e step h prepared audit w :
  let r := s_Resource step in
  one_of (r_Type r) ["registry"; "scheduled_task"] = false →
  (r_Type r = "file" → validateManagedFileIntegrity r = None) →
  ex_transportHandlers e !! norm (h_Transport (s_Host step)) = Some h →
  prepareResourceForExecution (s_Host step) r = Ok (prepared, audit) →
  let '(w1, (changed, skipped, msg, err)) := h step prepared w in
  let w2 := (maybeRecordSession e step prepared msg err w1).1 in
  let rescue := bool_decide (is_Some err) && negb (blank (r_RescueCommand r)) in
  let '(w3, (_, rescue_changed, rescue_err)) :=
    if rescue then runCommandHook e step h r "rescue" (r_RescueCommand r) w2
    else (w2, ("", false, err)) in
  let '(w4, (_, always_changed, always_err)) :=
    if blank (r_AlwaysCommand r) then (w3, ("", false, None))
    else runCommandHook e step h r "always" (r_AlwaysCommand r) w3 in
  let '(w', (res, failed)) := executeSingleStep e step w in
  w' = w4 ∧ about r res ∧
  rr_Changed res = changed || rescue_changed || always_changed ∧
  rr_Skipped res = skipped && negb (rescue && bool_decide (rescue_err = None)) ∧
  failed = bool_decide (is_Some rescue_err) || bool_decide (is_Some always_err).
Proof.
  intros r Htype Hfile Hh Hprep. pose proof (executeSingleStep_about e step w) as Ha.
  destruct (executeSingleStep e step w) as [w' [res failed]] eqn:Hx. simpl in Ha. fold r in Ha.
  assert ((eqs (r_Type r) "registry" || eqs (r_Type r) "scheduled_task") = false) as Hshim.
  { apply one_of_false in Htype. apply orb_false_iff. rewrite !eqs_false. set_solver. }
  assert ((if eqs (r_Type r) "file" then validateManagedFileIntegrity r else None) = None) as Hint.
  { destruct (eqs (r_Type r) "file") eqn:Hf; [|done]. by apply Hfile, eqs_true. }
  unfold executeSingleStep in Hx. fold r in Hx. rewrite Hshim, Hint, Hh, Hprep in Hx. revert Hx Ha.
  destruct (h step prepared w) as [w1 [[[changed skipped] msg] err]].
  destruct (maybeRecordSession e step prepared msg err w1) as [w2 rec]. cbn [fst].
  unfold run_rescue, run_always. fold r. cbn zeta.
  destruct err as [cause|]; cbn [andb negb];
    rewrite ?(bool_decide_true (is_Some (Some _))), ?(bool_decide_false (is_Some None))
      by (eauto || by intros [? [=]]); cbn [andb];
    [destruct (blank (r_RescueCommand r));
      [|destruct (runCommandHook e step h r "rescue" _ w2) as [w3 [[m3 ch3] [he3|]]]]|];
    cbn [negb]; (destruct (blank (r_AlwaysCommand r));
      [|destruct (runCommandHook e step h r "always" _ _) as [w4 [[m4 ch4] [he4|]]]]);
    try destruct (blank _); intros [= <- <- <-] Ha; cbn in *;
    rewrite ?orb_false_r, ?andb_true_r, ?andb_false_r; done.
Qed.

(** ** The Windows shim *)

Lemma load_table_mkdir `{!MachineLaws W} d p w :
  load_table p (MkdirAll d w).1 = load_table p w.
Proof.
  unfold load_table. destruct (ReadFile p w) as [c|err] eqn:Hr.
  - apply (mkdir_keeps_files d) in Hr. by rewrite Hr.
  - destruct (ReadFile p (MkdirAll d w).1) as [c|err'] eqn:Hr'; [|done].
    apply mkdir_keeps_files in Hr'. congruence.
Qed.

Lemma load_table_write `{!MachineLaws W, !JsonLaws} p t w w' :
  WriteFile p (Marshal (JTable t)) w = (w', None) → load_table p w' = t.
Proof.
  intros Hw%read_after_write. unfold load_table. rewrite Hw.
  destruct (eqs _ "") eqn:He; [by apply eqs_true, marshal_nonempty in He|]. apply unmarshal_marshal.
Qed.

(** The state a registry or scheduled task resource asks for, in its table. *)
Definition shim_file (r : Resource) : string :=
  if eqs (r_Type r) "registry" then "registry.json" else "scheduled_tasks.json".
Definition shim_key (r : Resource) : string :=
  if eqs (r_Type r) "registry" then norm (r_RegistryKey r) else norm (r_TaskName r).
Definition or_default (s d : string) : string := if eqs s "" then d else s.
Definition shim_desired (r : Resource) (entry : gmap string string) : Prop :=
  if eqs (r_Type r) "registry" then
    field entry "type" = or_default (norm (r_RegistryValueType r)) "string" ∧
    field entry "value" = r_RegistryValue r
  else
    field entry "command" = TrimSpace (r_TaskCommand r) ∧
    field entry "schedule" = or_default (TrimSpace (r_TaskSchedule r)) "@daily".

Definition shim_complete (r : Resource) : bool :=
  if eqs (r_Type r) "registry" then negb (eqs (norm (r_RegistryKey r)) "")
  else negb (blank (r_TaskName r)) && negb (blank (r_TaskCommand r)).

Definition shim_apply (root : string) (r : Resource) (w : W) : W * (ResourceRun * bool) :=
  if eqs (r_Type r) "registry" then shim_registry root r w else shim_scheduled_task root r w.

Lemma shim_apply_first `{!MachineLaws W, !JsonLaws} root r w :
  let path := filepath_Join [root; shim_file r] in
  let '(w', (res, failed)) := shim_apply root r w in
  failed = false →
  shim_complete r = true ∧
  (∃ entry, load_table path w' !! shim_key r = Some entry ∧ shim_desired r entry) ∧
  delete (shim_key r) (load_table path w') = delete (shim_key r) (load_table path w) ∧
  (w' = w ∨ ∃ c, WriteFile path c w = (w', None)).
Proof.
  intros path. unfold shim_apply, shim_desired, shim_key, shim_complete, shim_registry,
    shim_scheduled_task, save_table, blank. subst path. unfold shim_file.
  destruct (eqs (r_Type r) "registry").
  - set (path := filepath_Join [root; "registry.json"]). set (key := norm (r_RegistryKey r)).
    destruct (eqs key ""); [done|]. fold (or_default (norm (r_RegistryValueType r)) "string").
    set (ty := or_default _ "string"). assert (ty ≠ "") as Hty.
    { unfold ty, or_default. destruct (eqs _ "") eqn:He; [done|by apply eqs_false]. }
    destruct (_ && _) eqn:Hsame.
    + intros _. apply andb_true_iff in Hsame as [Ht%eqs_true Hv%eqs_true].
      destruct (load_table path w !! key) as [entry|] eqn:Hk; simpl in Ht, Hv; [|done].
      split_and!; [done|by eexists|done|by left].
    + destruct (WriteFile path _ w) as [w' [err|]] eqn:Hw; [done|]. intros _.
      rewrite (load_table_write _ _ _ _ Hw). rewrite lookup_insert_eq, delete_insert_eq.
      split_and!; [done| |done|by right; eexists]. eexists. split; [done|]. unfold field.
      by rewrite lookup_insert_ne, !lookup_insert_eq by done.
  - set (path := filepath_Join [root; "scheduled_tasks.json"]). set (name := TrimSpace (r_TaskName r)).
    destruct (eqs name ""); [done|]. set (command := TrimSpace (r_TaskCommand r)).
    destruct (eqs command ""); [done|]. fold (or_default (TrimSpace (r_TaskSchedule r)) "@daily").
    set (sched := or_default _ "@daily"). fold (norm (r_TaskName r)).
    change (ToLower name) with (norm (r_TaskName r)).
    destruct (match _ with Some _ => _ | None => _ end) eqn:Hsame.
    + intros _. destruct (load_table path w !! norm (r_TaskName r)) as [entry|] eqn:Hk; [|done].
      apply andb_true_iff in Hsame as [Ht%eqs_true Hv%eqs_true].
      split_and!; [done|by eexists|done|by left].
    + destruct (WriteFile path _ w) as [w' [err|]] eqn:Hw; [done|]. intros _.
      rewrite (load_table_write _ _ _ _ Hw). rewrite lookup_insert_eq, delete_insert_eq.
      split_and!; [done| |done|by right; eexists]. eexists. split; [done|]. unfold field.
      by rewrite !lookup_insert_ne, lookup_singleton_eq, lookup_insert_eq by done.
Qed.

Lemma shim_apply_again root r w entry :
  shim_complete r = true →
  load_table (filepath_Join [root; shim_file r]) w !! shim_key r = Some entry →
  shim_desired r entry →
  ∃ m, shim_apply root r w = (w, ((blank_run r) <| rr_Message := m |>, false)).
Proof.
  unfold shim_apply, shim_complete, shim_file, shim_key, shim_desired, shim_registry, shim_scheduled_task.
  destruct (eqs (r_Type r) "registry").
  - intros ->%negb_true_iff -> [Ht Hv]. simpl. unfold or_default in Ht. rewrite Ht, Hv, !eqs_refl.
    by eexists.
  - unfold blank. intros [->%negb_true_iff ->%negb_true_iff]%andb_true_iff Hk [Hc Hs].
    fold (norm (r_TaskName r)). rewrite Hk. unfold or_default in Hs. rewrite Hc, Hs, !eqs_refl.
    by eexists.
Qed.

(** The Windows shim converges: when a registry value or a scheduled task
    is applied without failure, the table on disk holds what the resource asks
    for under its key and its other entries are the previous ones; applying the
    resource again succeeds, reports no change and leaves the table as it is. *)
Theorem windows_shim_converges `{!MachineLaws W, !JsonLaws} e step w :
  let r := s_Resource step in
  let path := filepath_Join [shim_root e; shim_file r] in
  one_of (r_Type r) ["registry"; "scheduled_task"] = true →
  let '(w1, (res, failed)) := executeWindowsShimResource e step r w in
  failed = false →
  (∃ entry, load_table path w1 !! shim_key r = Some entry ∧ shim_desired r entry) ∧
  delete (shim_key r) (load_table path w1) = delete (shim_key r) (load_table path w) ∧
  let '(w2, (res2, failed2)) := executeWindowsShimResource e step r w1 in
  failed2 = false ∧ rr_Changed res2 = false ∧ load_table path w2 = load_table path w1.
Proof.
  intros r path Htype. unfold executeWindowsShimResource.
  destruct (eqs (shim_transport (s_Host step)) "local"); cbn [negb]; [|done].
  assert (∀ w, (if eqs (r_Type r) "registry" then shim_registry (shim_root e) r w
           else if eqs (r_Type r) "scheduled_task" then shim_scheduled_task (shim_root e) r w
           else (w, ((blank_run r) <| rr_Message := "unsupported windows shim resource type: "
                                                  +:+ r_Type r |>, true)))
          = shim_apply (shim_root e) r w) as Hsel.
  { intros w'. unfold shim_apply. destruct (eqs _ "registry") eqn:Hr; [done|].
    destruct (eqs _ "scheduled_task") eqn:Hs; [done|]. apply one_of_true in Htype.
    apply eqs_false in Hr, Hs. set_solver. }
  pose proof (load_table_mkdir (shim_root e) path) as Hmk.
  pose proof (Hmk w) as Hmk0. destruct (MkdirAll (shim_root e) w) as [w0 [err|]] eqn:Hm0; [done|].
  rewrite Hsel. pose proof (shim_apply_first (shim_root e) r w0) as Hfirst. cbn zeta in Hfirst.
  destruct (shim_apply (shim_root e) r w0) as [w1 [res failed]]. intros Hf.
  destruct (Hfirst Hf) as (Hc & (entry & Hk & Hd) & Hdel & Hw). fold path in Hk, Hdel, Hw.
  cbn [fst] in Hmk0. split_and!; [by eexists|by rewrite Hdel, Hmk0|].
  assert ((MkdirAll (shim_root e) w1).2 = None) as Hok.
  { destruct Hw as [->|[c Hw]]; [by eapply mkdir_twice|by eapply mkdir_again]. }
  pose proof (Hmk w1) as Hmk1. destruct (MkdirAll (shim_root e) w1) as [w2 e2]. cbn [fst snd] in Hmk1, Hok. subst e2.
  rewrite Hsel. destruct (shim_apply_again (shim_root e) r w2 entry) as [m Hagain]; [done| |done|].
  { fold path. by rewrite Hmk1. }
  by rewrite Hagain.
Qed.

(** ** One turn of the loop over the steps *)

Definition record_result (pg : Progress) (r : Resource) (res : ResourceRun) (failed : bool) : Progress :=
  mkProgress (pg_Results pg ++ [res]) (<[r_ID r := rr_Changed res]> (pg_changedByResource pg))
    (if rr_Changed res && negb (rr_Skipped res)
     then pg_notifiedHandlers pg ∪ notify_names r else pg_notifiedHandlers pg)
    (pg_failedSteps pg + Z.b2z failed) (pg_executedSteps pg + 1)
    (if failed then RunFailed else pg_Status pg).

Lemma apply_step_spec e policy src step w pg w' pg' stop :
  apply_step e policy src step w pg = (w', pg', stop) →
  let r := s_Resource step in
  let triggered := refreshTriggeredSources r src (pg_changedByResource pg) in
  ∃ res failed, pg' = record_result pg r res failed ∧ stop = failed && shouldStop policy pg' ∧
  (r_RefreshOnly r && bool_decide (triggered = []) = true ∧
     w' = w ∧ res = untriggered r ∧ failed = false ∨
   r_RefreshOnly r && bool_decide (triggered = []) = false ∧
     ∃ res0, executeStep e (triggered_step triggered step) w = (w', (res0, failed)) ∧
     res = if bool_decide (triggered = []) then res0
           else add_message res0 ("refresh triggered by: " +:+ Join triggered ", ")).
Proof.
  unfold apply_step. cbn zeta. set (r := s_Resource step). destruct (_ && bool_decide _) eqn:Hskip.
  - intros [= <- <- <-]. exists (untriggered r), false. split_and!; [|done|by left].
    unfold record_result. simpl. f_equal. lia.
  - destruct (executeStep _ _ w) as [w1 [res0 failed]] eqn:Hx.
    set (res := if bool_decide _ then res0 else _). destruct failed; intros [= <- <- <-].
    + exists res, true. split_and!; [done|done|]. right. split; [done|]. by exists res0.
    + exists res, false. split_and!; [|done|].
      * unfold record_result. simpl. f_equal. lia.
      * right. split; [done|]. by exists res0.
Qed.

Lemma triggered_step_about triggered step res :
  about (s_Resource (triggered_step triggered step)) res → about (s_Resource step) res.
Proof.
  unfold triggered_step. destruct triggered as [|t l]; [done|]. simpl. unfold refreshed.
  by destruct (_ && _).
Qed.

Lemma triggered_step_retries triggered step :
  r_Retries (s_Resource (triggered_step triggered step)) = r_Retries (s_Resource step).
Proof.
  unfold triggered_step. destruct triggered as [|t l]; [done|]. simpl. unfold refreshed.
  by destruct (_ && _).
Qed.

Lemma apply_step_about e policy src step w pg w' pg' stop :
  apply_step e policy src step w pg = (w', pg', stop) →
  r_Retries (s_Resource step) < max_int64 →
  ∃ res failed, pg' = record_result pg (s_Resource step) res failed ∧ about (s_Resource step) res.
Proof.
  intros (res & failed & Hpg & _ & Hcase)%apply_step_spec Hr. exists res, failed. split; [done|].
  destruct Hcase as [(_ & _ & -> & _)|(_ & res0 & Hx & ->)]; [done|].
  apply (triggered_step_about (refreshTriggeredSources (s_Resource step) src (pg_changedByResource pg))).
  assert (about (s_Resource (triggered_step (refreshTriggeredSources (s_Resource step) src
            (pg_changedByResource pg)) step)) res0) as Ha.
  { pose proof (executeStep_about e (triggered_step (refreshTriggeredSources (s_Resource step) src
      (pg_changedByResource pg)) step) w) as Ha. rewrite triggered_step_retries, Hx in Ha. by apply Ha. }
  by case_bool_decide.
Qed.

(** An invariant of the loop: the steps it went through are a prefix of the
    plan, a proper one only when the run had to stop. *)
Lemma run_steps_inv (P : list Step → W → Progress → Prop) e policy src steps :
  (∀ before step w pg w' pg' stop, P before w pg → step ∈ steps →
     apply_step e policy src step w pg = (w', pg', stop) → P (before ++ [step]) w' pg') →
  ∀ before w pg w' pg', P before w pg → run_steps e policy src steps w pg = (w', pg') →
  ∃ k, (k ≤ length steps)%nat ∧ P (before ++ take k steps) w' pg' ∧
       ((k < length steps)%nat → shouldStop policy pg' = true).
Proof.
  induction steps as [|s steps IH]; intros Hstep before w pg w' pg' HP Hrun; cbn [run_steps] in Hrun.
  - injection Hrun as <- <-. exists 0%nat. rewrite app_nil_r. split_and!; [simpl; lia|done|simpl; lia].
  - destruct (apply_step e policy src s w pg) as [[w1 pg1] stop] eqn:Hs.
    pose proof (Hstep _ _ _ _ _ _ _ HP ltac:(by left) Hs) as HP1. destruct stop.
    + injection Hrun as <- <-. exists 1%nat. simpl. split_and!; [lia|done|].
      apply apply_step_spec in Hs as (res & failed & _ & Hstop & _). intros _.
      by destruct failed.
    + destruct (IH ltac:(intros; eapply Hstep; [done|by right|done]) _ _ _ _ _ HP1 Hrun)
        as (k & Hk & HPk & Hend). exists (S k). simpl. rewrite <-app_assoc in HPk.
      split_and!; [lia|done|]. intros. apply Hend. lia.
Qed.

(** ** Fail fast *)

Lemma fail_fast_walk e policy src steps :
  fail_fast policy = true → ∀ w pg w' pg',
  pg_failedSteps pg = 0 → pg_Status pg = RunSucceeded →
  run_steps e policy src steps w pg = (w', pg') →
  (pg_failedSteps pg' = 0 ∧ pg_Status pg' = RunSucceeded ∧
     length (pg_Results pg') = (length (pg_Results pg) + length steps)%nat) ∨
  (∃ pre step post w1 pg1, steps = pre ++ step :: post ∧
     run_steps e policy src pre w pg = (w1, pg1) ∧ pg_failedSteps pg1 = 0 ∧
     apply_step e policy src step w1 pg1 = (w', pg', true) ∧
     pg_failedSteps pg' = 1 ∧ pg_Status pg' = RunFailed ∧
     length (pg_Results pg') = (length (pg_Results pg) + S (length pre))%nat).
Proof.
  intros Hff. induction steps as [|s steps IH]; intros w pg w' pg' Hf Hst Hrun; cbn [run_steps] in Hrun.
  - injection Hrun as <- <-. left. simpl. split_and!; [done..|lia].
  - destruct (apply_step e policy src s w pg) as [[w1 pg1] stop] eqn:Hs.
    pose proof (apply_step_spec _ _ _ _ _ _ _ _ _ Hs) as (res & failed & Hpg & Hstop & _).
    destruct failed.
    + assert (shouldStop policy pg1 = true) as Hsh.
      { rewrite Hpg. unfold shouldStop. simpl. rewrite Hf, Hff. done. }
      rewrite Hsh in Hstop. simpl in Hstop. subst stop. injection Hrun as <- <-. right.
      exists [], s, steps, w, pg. rewrite Hpg. simpl. rewrite length_app, Hf. simpl.
      split_and!; try done. by rewrite Hs, Hpg.
    + simpl in Hstop. subst stop.
      destruct (IH w1 pg1 w' pg') as [(H1 & H2 & H3)|(pre & st & post & w2 & pg2 & -> & H2 & H3 & H4 & H5 & H6 & H7)];
        [rewrite Hpg; simpl; lia|by rewrite Hpg|done| |].
      * left. split_and!; [done..|]. rewrite H3, Hpg. simpl. rewrite length_app. simpl. lia.
      * right. exists (s :: pre), st, post, w2, pg2. split_and!; try done.
        -- cbn [run_steps]. by rewrite Hs.
        -- rewrite H7, Hpg. simpl. rewrite length_app. simpl. lia.
Qed.

(** C7: under the linear and serial strategies and under [any_errors_fatal],
    a run that meets a failing step ends with it: exactly the steps before it
    were executed, all without failure; the world and the results are those
    right after the failing step, no handler runs and the run is failed. *)
Theorem apply_fail_fast e p w :
  fail_fast (p_Execution p) = true →
  let src := buildRefreshSourceIndex (ordered_steps p) in
  let '(w1, pg) := step_phase e p w in
  let '(w', run) := Apply e p w in
  (pg_failedSteps pg = 0 ∧ length (pg_Results pg) = length (ordered_steps p)) ∨
  (∃ pre step post w0 pg0, ordered_steps p = pre ++ step :: post ∧
     run_steps e (p_Execution p) src pre w no_progress = (w0, pg0) ∧ pg_failedSteps pg0 = 0 ∧
     apply_step e (p_Execution p) src step w0 pg0 = (w', pg, true) ∧
     run_Status run = RunFailed ∧ run_Results run = pg_Results pg ∧
     length (run_Results run) = S (length pre)).
Proof.
  intros Hff src. unfold Apply. destruct (step_phase e p w) as [w1 pg] eqn:Hph.
  unfold step_phase in Hph. fold src in Hph.
  destruct (fail_fast_walk e _ src _ Hff w no_progress w1 pg eq_refl eq_refl Hph)
    as [(H1 & H2 & H3)|(pre & st & post & w0 & pg0 & H1 & H2 & H3 & H4 & H5 & H6 & H7)].
  - destruct (if bool_decide _ then _ else _) as [w' [results status]]. left. by split.
  - rewrite H6. simpl. right. exists pre, st, post, w0, pg0. by split_and!.
Qed.

(** ** The state of the loop in terms of the results *)

(** The handlers the executed steps notify: those of the steps that changed
    something and were not skipped. *)
Definition notified_by (steps : list Step) (results : list ResourceRun) : gset string :=
  ⋃ zip_with (λ s res, if rr_Changed res && negb (rr_Skipped res)
                       then notify_names (s_Resource s) else ∅) steps results.

Definition changed_by (steps : list Step) (results : list ResourceRun) : gmap string bool :=
  foldl (λ m sr, <[r_ID (s_Resource sr.1) := rr_Changed sr.2]> m) ∅ (zip steps results).

Definition retries_ok (s : Step) : Prop := r_Retries (s_Resource s) < max_int64.

Record loop_inv (before : list Step) (w : W) (pg : Progress) : Prop := {
  li_about : Forall retries_ok before →
             Forall2 (λ s, about (s_Resource s)) before (pg_Results pg);
  li_length : length before = length (pg_Results pg);
  li_notified : pg_notifiedHandlers pg = notified_by before (pg_Results pg);
  li_changed : pg_changedByResource pg = changed_by before (pg_Results pg);
  li_failed : 0 ≤ pg_failedSteps pg;
  li_status : pg_Status pg = if pg_failedSteps pg =? 0 then RunSucceeded else RunFailed;
}.

Lemma loop_inv_init w : loop_inv [] w no_progress.
Proof. by split. Qed.

Lemma loop_inv_step e policy src before step w pg w' pg' stop :
  loop_inv before w pg → apply_step e policy src step w pg = (w', pg', stop) →
  loop_inv (before ++ [step]) w' pg'.
Proof.
  intros [Ha Hl Hn Hc Hf Hs] Hstep.
  pose proof (apply_step_about _ _ _ _ _ _ _ _ _ Hstep) as Habout.
  apply apply_step_spec in Hstep as (res & failed & -> & _ & _). split; simpl.
  - intros [Hb Hr]%Forall_app. apply Forall2_app; [by apply Ha|]. apply Forall_cons in Hr as [Hr _].
    destruct (Habout Hr) as (res' & failed' & Heq & Hres). unfold record_result in Heq.
    assert (pg_Results pg ++ [res] = pg_Results pg ++ [res']) as Hsame by congruence.
    apply app_inv_head in Hsame as [= ->]. by constructor.
  - rewrite !length_app. simpl. lia.
  - unfold notified_by. rewrite zip_with_app, union_list_app_L by done. simpl.
    rewrite Hn. unfold notified_by. destruct (_ && _); set_solver.
  - unfold changed_by. rewrite zip_with_app, foldl_app by done. simpl. by rewrite Hc.
  - destruct failed; simpl; lia.
  - destruct failed; simpl; [|by rewrite Z.add_0_r].
    destruct (Z.eqb_spec (pg_failedSteps pg + 1) 0); [lia|done].
Qed.

Lemma run_steps_loop_inv e policy src steps w w' pg' :
  run_steps e policy src steps w no_progress = (w', pg') →
  ∃ k, (k ≤ length steps)%nat ∧ loop_inv (take k steps) w' pg' ∧
       ((k < length steps)%nat → shouldStop policy pg' = true).
Proof.
  intros Hrun. apply (run_steps_inv (λ b w pg, loop_inv b w pg)) with (before := []) in Hrun.
  - exact Hrun.
  - intros. by eapply loop_inv_step.
  - apply loop_inv_init.
Qed.

(** ** Handlers *)

Lemma run_handlers_spec e handlers ids results w :
  map_Forall (λ id s, r_ID (s_Resource s) = id ∧ retries_ok s) handlers →
  let '(w', (results', status)) := run_handlers e handlers ids results w in
  ∃ ran, results' = results ++ ran ∧ rr_ResourceID <$> ran `prefix_of` ids ∧
  (status = RunSucceeded →
     rr_ResourceID <$> ran = ids ∧ Forall (λ id, is_Some (handlers !! id)) ids).
Proof.
  intros Hh. revert results w; induction ids as [|id ids IH]; intros results w; cbn [run_handlers].
  - exists []. rewrite app_nil_r. done.
  - destruct (handlers !! id) as [s|] eqn:Hid.
    + destruct (Hh _ _ Hid) as [Hsid Hret]. pose proof (executeStep_about e s w Hret) as [Ha _].
      destruct (executeStep e s w) as [w1 [res [|]]]; simpl in Ha.
      * exists [add_message res "handler executed"]. split_and!; [done| |done].
        simpl. rewrite Ha, Hsid. apply prefix_cons, prefix_nil.
      * specialize (IH (results ++ [add_message res "handler executed"]) w1).
        destruct (run_handlers _ _ ids _ w1) as [w2 [results' status]].
        destruct IH as (ran & -> & Hpre & Hok). exists (add_message res "handler executed" :: ran).
        rewrite <-app_assoc. simpl. rewrite Ha, Hsid. split_and!; [done|by apply prefix_cons|].
        intros Hst. destruct (Hok Hst) as [Heq ?]. split; [f_equal; exact Heq|]. constructor; eauto.
    + exists [missing_handler id]. split_and!; [done| |done]. simpl. apply prefix_cons, prefix_nil.
Qed.

(** C8: the results of a run are, in order, those of the steps it executed (a
    prefix of the plan, all of it unless a step failed) and of the handlers.  A
    handler runs only when no step failed; the handlers run in the order of
    their names, each once, and are those notified by steps that changed
    something without being skipped.  The run succeeds only when no step
    failed and all of these handlers exist and ran. *)
Theorem apply_runs_notified_handlers e p w :
  Forall retries_ok (ordered_steps p) →
  map_Forall (λ id s, r_ID (s_Resource s) = id ∧ retries_ok s) (p_Handlers p) →
  let '(w1, pg) := step_phase e p w in
  let '(w', run) := Apply e p w in
  ∃ executed ran, executed `prefix_of` ordered_steps p ∧
  Forall2 (λ s, about (s_Resource s)) executed (pg_Results pg) ∧
  run_Results run = pg_Results pg ++ ran ∧
  let notified := sort_strings (elements (notified_by executed (pg_Results pg))) in
  (0 < pg_failedSteps pg → run_Status run = RunFailed ∧ ran = [] ∧ w' = w1) ∧
  (pg_failedSteps pg = 0 → executed = ordered_steps p ∧ rr_ResourceID <$> ran `prefix_of` notified) ∧
  (run_Status run = RunSucceeded → pg_failedSteps pg = 0 ∧
     rr_ResourceID <$> ran = notified ∧ Forall (λ id, is_Some (p_Handlers p !! id)) notified).
Proof.
  intros Hret Hh. unfold Apply. destruct (step_phase e p w) as [w1 pg] eqn:Hph.
  apply run_steps_loop_inv in Hph as (k & Hk & [Ha _ Hn _ Hf Hs] & Hstop).
  pose proof (run_handlers_spec e _ (sort_strings (elements (pg_notifiedHandlers pg)))
                (pg_Results pg) w1 Hh) as Hrh.
  destruct (run_handlers _ _ _ _ w1) as [w2 [results status]].
  destruct Hrh as (ran & Hres & Hpre & Hok). rewrite Hn in Hpre, Hok.
  rewrite Hs. destruct (Z.eqb_spec (pg_failedSteps pg) 0) as [Hzero|Hpos]; simpl;
    exists (take k (ordered_steps p)).
  - exists ran. split_and!; [by apply prefix_take|by apply Ha, Forall_take|done|lia| |].
    + intros _. split; [|done]. apply take_ge. destruct (decide (k < length (ordered_steps p))%nat); [|lia].
      exfalso. revert Hstop. unfold shouldStop. rewrite Hzero. simpl. intros Hst. by specialize (Hst l).
    + intros ?. split; [done|by apply Hok].
  - exists []. rewrite app_nil_r.
    split_and!; [by apply prefix_take|by apply Ha, Forall_take|done|done|done|done].
Qed.

(** ** Refresh-only resources *)

Lemma addSource_lookup index t s id src :
  src ∈ default [] (addSource index t s !! id) ↔
  src ∈ default [] (index !! id) ∨
    (id = TrimSpace t ∧ src = TrimSpace s ∧ id ≠ "" ∧ src ≠ "").
Proof.
  unfold addSource. destruct (_ || _) eqn:Hb.
  { apply orb_true_iff in Hb. rewrite !eqs_true in Hb. naive_solver. }
  apply orb_false_iff in Hb as [Ht%eqs_false Hs%eqs_false]. case_decide as Hin.
  { split; [by left|]. by intros [?|(-> & -> & _)]. }
  destruct (decide (id = TrimSpace t)) as [->|Hid].
  - rewrite lookup_insert_eq. simpl. rewrite elem_of_app, list_elem_of_singleton. naive_solver.
  - rewrite lookup_insert_ne by done. naive_solver.
Qed.

Lemma foldl_sources {A} (f : gmap string (list string) → A → gmap string (list string))
    (P : A → string → string → Prop) l :
  (∀ index x id src, src ∈ default [] (f index x !! id) ↔ src ∈ default [] (index !! id) ∨ P x id src) →
  ∀ index id src, src ∈ default [] (foldl f index l !! id) ↔
    src ∈ default [] (index !! id) ∨ ∃ x, x ∈ l ∧ P x id src.
Proof.
  intros Hf. induction l as [|x l IH]; intros index id src; simpl; [set_solver|].
  rewrite IH, Hf. setoid_rewrite elem_of_cons. naive_solver.
Qed.

(** [src] notifies [id], or [id] subscribes to [src]. *)
Definition refresh_source (s : Step) (id src : string) : Prop :=
  id ≠ "" ∧ src ≠ "" ∧
  (TrimSpace (r_ID (s_Resource s)) = src ∧ id ∈ TrimSpace <$> r_Notify (s_Resource s) ∨
   TrimSpace (r_ID (s_Resource s)) = id ∧ src ∈ TrimSpace <$> r_Subscribe (s_Resource s)).

Lemma buildRefreshSourceIndex_spec steps id src :
  src ∈ default [] (buildRefreshSourceIndex steps !! id) ↔
  ∃ s, s ∈ steps ∧ refresh_source s id src.
Proof.
  unfold buildRefreshSourceIndex. rewrite lookup_fmap.
  assert (src ∈ default [] (sort_strings <$> foldl step_sources ∅ steps !! id) ↔
          src ∈ default [] (foldl step_sources ∅ steps !! id)) as ->.
  { destruct (_ !! id); simpl; [by rewrite sort_strings_perm|done]. }
  rewrite (foldl_sources step_sources refresh_source), lookup_empty; [set_solver|]. clear.
  intros index s id src. unfold step_sources.
  rewrite (foldl_sources _ (λ x id src, id = TrimSpace (r_ID (s_Resource s)) ∧ src = TrimSpace x ∧
             id ≠ "" ∧ src ≠ "")) by (intros; apply addSource_lookup).
  rewrite (foldl_sources _ (λ x id src, id = TrimSpace x ∧ src = TrimSpace (r_ID (s_Resource s)) ∧
             id ≠ "" ∧ src ≠ "")) by (intros; apply addSource_lookup).
  unfold refresh_source. rewrite !list_elem_of_fmap. naive_solver.
Qed.

Lemma changed_by_go (steps : list Step) (results : list ResourceRun) (acc : gmap string bool) src b :
  length steps = length results → NoDup ((λ s, r_ID (s_Resource s)) <$> steps) →
  foldl (λ m sr, <[r_ID (s_Resource sr.1) := rr_Changed sr.2]> m) acc (zip steps results) !! src
    = Some b ↔
  (∃ j s res, steps !! j = Some s ∧ results !! j = Some res ∧
     r_ID (s_Resource s) = src ∧ rr_Changed res = b) ∨
  (src ∉ (λ s, r_ID (s_Resource s)) <$> steps) ∧ acc !! src = Some b.
Proof.
  revert results acc; induction steps as [|s steps IH]; intros [|res results] acc; intros Hlen Hnd; try done.
  - simpl. split; [right; split; [set_solver|done]|].
    intros [(j & s & r & [=] & _)|[_ ?]]. done.
  - injection Hlen as Hlen. rewrite fmap_cons in Hnd |- *. apply NoDup_cons in Hnd as [Hs Hnd].
    cbn [zip_with foldl fst snd]. rewrite IH by done. split.
    + intros [(j & s' & r' & H1 & H2 & H3)|[Hn Hacc]]; [left; by exists (S j), s', r'|].
      destruct (decide (r_ID (s_Resource s) = src)) as [<-|Hne].
      * rewrite lookup_insert_eq in Hacc. injection Hacc as <-. left. by exists 0%nat, s, res.
      * rewrite lookup_insert_ne in Hacc by done. right. split; [set_solver|done].
    + intros [([|j] & s' & r' & H1 & H2 & H3 & H4)|[Hn Hacc]].
      * simpl in H1, H2. injection H1 as <-. injection H2 as <-. right. subst src.
        split; [done|]. by rewrite lookup_insert_eq, H4.
      * left. by exists j, s', r'.
      * right. split; [set_solver|]. rewrite lookup_insert_ne by set_solver. done.
Qed.

Lemma run_steps_length e policy src steps w pg w' pg' :
  run_steps e policy src steps w pg = (w', pg') →
  (length (pg_Results pg') ≤ length (pg_Results pg) + length steps)%nat.
Proof.
  revert w pg; induction steps as [|s steps IH]; intros w pg; cbn [run_steps]; [intros [= <- <-]; simpl; lia|].
  destruct (apply_step _ _ _ _ _ _) as [[w1 pg1] stop] eqn:Hs.
  apply apply_step_spec in Hs as (res & failed & Hpg & _).
  assert (length (pg_Results pg1) = S (length (pg_Results pg))) as Hl.
  { rewrite Hpg. simpl. rewrite length_app. simpl. lia. }
  destruct stop; [intros [= <- <-]; simpl; lia|]. intros Hr%IH. simpl. lia.
Qed.

(** A run that reached the last of its steps continues the run of the others. *)
Lemma run_steps_snoc e policy src steps s w pg w' pg' :
  run_steps e policy src (steps ++ [s]) w pg = (w', pg') →
  length (pg_Results pg') = (length (pg_Results pg) + S (length steps))%nat →
  ∃ w0 pg0 stop, run_steps e policy src steps w pg = (w0, pg0) ∧
    apply_step e policy src s w0 pg0 = (w', pg', stop).
Proof.
  revert w pg; induction steps as [|t steps IH]; intros w pg; cbn [run_steps app].
  - destruct (apply_step _ _ _ _ _ _) as [[w1 pg1] stop] eqn:Hs. intros Hr _.
    exists w, pg, stop. split; [done|]. destruct stop; congruence.
  - destruct (apply_step e policy src t w pg) as [[w1 pg1] stop] eqn:Hs.
    apply apply_step_spec in Hs as (res & failed & Hpg & _).
    assert (length (pg_Results pg1) = S (length (pg_Results pg))) as Hl.
    { rewrite Hpg. simpl. rewrite length_app. simpl. lia. }
    destruct stop; [intros [= <- <-]; simpl; lia|]. simpl. intros Hr Hlen. apply IH in Hr; [done|lia].
Qed.

Definition triggers (t s : Step) : Prop :=
  r_ID (s_Resource s) ∈ TrimSpace <$> r_Notify (s_Resource t) ∨
  r_ID (s_Resource t) ∈ TrimSpace <$> r_Subscribe (s_Resource s).

Definition clean_ids (steps : list Step) : Prop :=
  NoDup ((λ s, r_ID (s_Resource s)) <$> steps) ∧
  Forall (λ s, TrimSpace (r_ID (s_Resource s)) = r_ID (s_Resource s) ∧ r_ID (s_Resource s) ≠ "") steps.

Lemma triggered_iff steps before s w pg :
  clean_ids steps → s ∈ steps → (∃ k, before = take k steps) → loop_inv before w pg →
  refreshTriggeredSources (s_Resource s) (buildRefreshSourceIndex steps) (pg_changedByResource pg) ≠ []
  ↔ ∃ j t rt, before !! j = Some t ∧ pg_Results pg !! j = Some rt ∧ rr_Changed rt = true ∧ triggers t s.
Proof.
  intros [Hnd Htrim] Hs [k Hbefore] [_ Hlen _ Hc _ _]. rewrite Forall_forall in Htrim.
  assert (∀ t, t ∈ before → t ∈ steps) as Hsub by (intros t; rewrite Hbefore; apply subseteq_take).
  assert (NoDup ((λ s, r_ID (s_Resource s)) <$> before)) as Hnd'.
  { rewrite Hbefore, fmap_take. eapply sublist_NoDup; [done|]. apply sublist_take. }
  unfold refreshTriggeredSources. rewrite Hc. split.
  - intros Hne. destruct (filter _ _) as [|src l] eqn:Hf; [done|].
    assert (src ∈ src :: l) as Hsrc by left. rewrite <-Hf in Hsrc.
    apply list_elem_of_filter in Hsrc as [Hch Hidx].
    destruct (changed_by before (pg_Results pg) !! src) as [b|] eqn:Hb; [|done]. simpl in Hch. subst b.
    unfold changed_by in Hb. apply changed_by_go in Hb as [(j & t & rt & Ht & Hr & Hid & Hch)|[_ Hb]]; [|done..].
    exists j, t, rt. split_and!; [done..|]. apply buildRefreshSourceIndex_spec in Hidx.
    destruct Hidx as (u & Hu & _ & _ & [[Hu1 Hu2]|[Hu1 Hu2]]); destruct (Htrim _ Hu) as [Hut _];
      rewrite Hut in Hu1.
    + left. assert (u = t) as <-; [|done]. eapply NoDup_fmap_eq; [exact Hnd|done| |congruence].
      by eapply Hsub, list_elem_of_lookup_2.
    + right. assert (u = s) as <-; [|by rewrite Hid]. by eapply NoDup_fmap_eq; [exact Hnd|..].
  - intros (j & t & rt & Ht & Hr & Hch & Htr). intros Hnil.
    assert (r_ID (s_Resource t) ∈ @nil string) as Hbad; [|by apply elem_of_nil in Hbad].
    rewrite <-Hnil. apply list_elem_of_filter.
    assert (t ∈ steps) as Hts by (by eapply Hsub, list_elem_of_lookup_2).
    destruct (Htrim _ Hts) as [Htt Htne], (Htrim _ Hs) as [Hst Hsne]. split.
    + assert (changed_by before (pg_Results pg) !! r_ID (s_Resource t) = Some true) as ->; [|done].
      unfold changed_by. apply changed_by_go; [done..|]. left. by exists j, t, rt.
    + apply buildRefreshSourceIndex_spec. destruct Htr as [Htr|Htr]; [exists t|exists s];
        (split; [done|]); split_and!; auto.
Qed.

(** A refresh-only resource runs exactly when an earlier step of the run
    changed something and notifies it or is one it subscribes to.  Otherwise
    it is recorded as skipped and the world does not change; when it runs, a
    command runs its refresh command without its guards.  ([at_step i] is the
    run of the first [i] steps.) *)
Theorem refresh_only_iff_triggered e p w i s :
  let steps := ordered_steps p in
  let at_step i := run_steps e (p_Execution p) (buildRefreshSourceIndex steps) (take i steps) w no_progress in
  let '(w0, pg0) := at_step i in
  let '(w1, pg1) := at_step (S i) in
  let triggered := ∃ j t rt, (j < i)%nat ∧ steps !! j = Some t ∧ pg_Results pg0 !! j = Some rt ∧
                     rr_Changed rt = true ∧ triggers t s in
  clean_ids steps → steps !! i = Some s → r_RefreshOnly (s_Resource s) = true →
  length (pg_Results pg1) = S i →
  (¬ triggered → w1 = w0 ∧ pg_Results pg1 = pg_Results pg0 ++ [untriggered (s_Resource s)]) ∧
  (triggered → ∃ res0 res failed,
     executeStep e (s <| s_Resource := refreshed (s_Resource s) |>) w0 = (w1, (res0, failed)) ∧
     pg_Results pg1 = pg_Results pg0 ++ [res] ∧ rr_Changed res = rr_Changed res0).
Proof.
  cbn zeta. set (steps := ordered_steps p).
  destruct (run_steps e (p_Execution p) (buildRefreshSourceIndex steps) (take i steps) w no_progress) as [w0 pg0] eqn:H0'.
  destruct (run_steps e (p_Execution p) (buildRefreshSourceIndex steps) (take (S i) steps) w no_progress) as [w1 pg1] eqn:H1'.
  rewrite ?H0'. intros Hclean Hi Href Hlen. pose proof (lookup_lt_Some _ _ _ Hi) as Hil.
  rewrite (take_S_r _ _ _ Hi) in H1'. apply run_steps_snoc in H1'.
  2: { rewrite Hlen, length_take, Nat.min_l; [done|]. by apply Nat.lt_le_incl. }
  destruct H1' as (w0' & pg0' & stop & Hrun & Hstep). rewrite H0' in Hrun. injection Hrun as <- <-.
  assert (loop_inv (take i steps) w0 pg0) as Hinv.
  { destruct (run_steps_loop_inv _ _ _ _ _ _ _ H0') as (k & Hk & Hinv & _).
    apply apply_step_spec in Hstep as (res & failed & Hpg & _). pose proof (li_length _ _ _ Hinv) as Hl.
    rewrite Hpg in Hlen. simpl in Hlen. rewrite length_app in Hlen. simpl in Hlen.
    assert (k = length (take i steps)) as Hki by (rewrite !length_take in *; lia).
    by rewrite Hki, take_ge in Hinv. }
  pose proof (triggered_iff steps (take i steps) s w0 pg0 Hclean
                (list_elem_of_lookup_2 _ _ _ Hi) (ex_intro _ i eq_refl) Hinv) as Htrig.
  assert ((∃ j t rt, take i steps !! j = Some t ∧ pg_Results pg0 !! j = Some rt ∧
             rr_Changed rt = true ∧ triggers t s) ↔
          (∃ j t rt, (j < i)%nat ∧ steps !! j = Some t ∧ pg_Results pg0 !! j = Some rt ∧
             rr_Changed rt = true ∧ triggers t s)) as Heq.
  { setoid_rewrite lookup_take_Some. naive_solver. }
  rewrite Heq in Htrig. clear Heq.
  apply apply_step_spec in Hstep as (res & failed & -> & _ & Hcase). rewrite Href in Hcase. simpl in Hcase.
  destruct Hcase as [(Hno & -> & -> & ->)|(Hyes & res0 & Hx & ->)]; split; intros Ht.
  - done.
  - apply bool_decide_eq_true in Hno. by apply Htrig in Ht.
  - apply bool_decide_eq_false in Hyes. by apply Htrig in Hyes.
  - rewrite Hyes in *. apply bool_decide_eq_false in Hyes.
    destruct (refreshTriggeredSources _ _ _) as [|x l]; [done|]. simpl in Hx.
    by exists res0, (add_message res0 ("refresh triggered by: " +:+ Join (x :: l) ", ")), failed.
Qed.
End spec.

(** ** Witnesses: runs on the in-memory machine *)

Definition demo_executor : Executor (W := Mem) :=
  default (mkExecutor 0 "" ∅ ∅) (New "/srv").

Definition step_on (r : Resource) : Step := mkStep 0 (local_host "h") r.

(** Commands listed here fail on the demo machine. *)
Definition failing_mem (commands : list string) : Mem :=
  empty_mem <| m_Failing := (λ c, ["sh"; "-c"; c]) <$> commands |>.

Definition demo_steps : list Step :=
  [step_on ((command_on "h" "first" []) <| r_Notify := ["second"] |>
              <| r_NotifyHandlers := ["restart"; " audit "; "restart"] |>);
   step_on ((command_on "h" "second" []) <| r_RefreshOnly := true |>
              <| r_RefreshCommand := "reload" |>);
   step_on ((command_on "h" "third" []) <| r_RefreshOnly := true |>)].

Definition demo_plan (policy : Execution) : Plan :=
  mkPlan policy demo_steps
    (list_to_map ((λ id, (id, step_on (command_on "h" id []))) <$> ["restart"; "audit"; "unused"])).

Example demo_run :
  (λ res, (rr_ResourceID res, rr_Changed res, rr_Skipped res))
    <$> run_Results (Apply demo_executor (demo_plan zeroExecution) empty_mem).2
  = [("first", true, false); ("second", true, false); ("third", false, true);
     ("audit", true, false); ("restart", true, false)] ∧
  last <$> m_Log (Apply demo_executor (demo_plan zeroExecution) empty_mem).1
  = Some <$> ["true"; "reload"; "true"; "true"].
Proof. by vm_compute. Qed.

Lemma executeStep_retries_witness :
  let step := step_on ((command_on "h" "a" []) <| r_Retries := 2 |> <| r_RetryDelaySeconds := 3 |>) in
  let '(w', (res, failed)) := executeStep demo_executor step (failing_mem ["true"]) in
  failed = true ∧ m_Clock w' = 6 * Second ∧
  failed_attempts demo_executor step 3 (failing_mem ["true"]) w'.
Proof.
  intros step. assert (r_Retries (s_Resource step) < max_int64) as Hr by by vm_compute.
  pose proof (executeStep_retries demo_executor step (failing_mem ["true"]) Hr) as Ht.
  cbn zeta in Ht. revert Ht.
  destruct (executeStep demo_executor step (failing_mem ["true"])) as [w' [res failed]] eqn:Hx. intros Ht.
  vm_compute in Hx. injection Hx as <- <- <-. split_and!; [done..|]. exact (proj2 (proj2 Ht)).
Defined.

(** A step whose command fails and is rescued. *)
Definition rescued_step : Step :=
  step_on ((command_on "h" "a" []) <| r_Command := "boom" |> <| r_RescueCommand := "fix" |>
             <| r_AlwaysCommand := "clean" |>).

Lemma single_step_outcome_witness :
  let '(w', (res, failed)) := executeSingleStep demo_executor rescued_step (failing_mem ["boom"]) in
  last <$> m_Log w' = Some <$> ["boom"; "fix"; "clean"] ∧ failed = false ∧
  about (s_Resource rescued_step) res.
Proof.
  assert (is_Some (ex_transportHandlers demo_executor !! norm (h_Transport (s_Host rescued_step))))
    as [h Hh] by (apply (bool_decide_unpack _); by vm_compute).
  pose proof (single_step_outcome demo_executor rescued_step h (s_Resource rescued_step) ""
    (failing_mem ["boom"]) eq_refl) as Ht. cbn zeta in Ht. revert Ht.
  destruct (executeSingleStep demo_executor rescued_step (failing_mem ["boom"])) as [w' [res failed]] eqn:Hx.
  vm_compute in Hx. injection Hx as <- <- <-. intros Ht. split_and!; [by vm_compute..|].
  assert (prepareResourceForExecution (s_Host rescued_step) (s_Resource rescued_step)
          = Ok (s_Resource rescued_step, "")) as Hp by by vm_compute.
  specialize (Ht ltac:(done) Hh Hp). revert Ht.
  destruct (h _ _ _) as [w1 [[[c s] m] err]]. cbn zeta.
  destruct (if _ : bool then _ else _) as [w3 [[m3 c3] e3]].
  destruct (if _ : bool then _ else _) as [w4 [[m4 c4] e4]]. intros Ht. exact (proj1 (proj2 Ht)).
Defined.

Definition registry_step : Step :=
  step_on (zeroResource <| r_ID := "k" |> <| r_Type := "registry" |>
             <| r_RegistryKey := "HKLM\Software\X" |> <| r_RegistryValue := "1" |>).

Lemma windows_shim_converges_witness :
  let '(w1, (res, failed)) :=
    executeWindowsShimResource demo_executor registry_step (s_Resource registry_step) empty_mem in
  let '(w2, (res2, failed2)) :=
    executeWindowsShimResource demo_executor registry_step (s_Resource registry_step) w1 in
  failed = false ∧ rr_Changed res = true ∧ failed2 = false ∧ rr_Changed res2 = false.
Proof.
  pose proof (windows_shim_converges demo_executor registry_step empty_mem eq_refl) as Ht.
  cbn zeta in Ht. revert Ht.
  destruct (executeWindowsShimResource demo_executor registry_step (s_Resource registry_step) empty_mem)
    as [w1 [res failed]] eqn:Hx. intros Ht.
  assert (failed = false) as Hf by (vm_compute in Hx; by injection Hx as _ _ <-).
  assert (rr_Changed res = true) as Hc by (vm_compute in Hx; by injection Hx as _ <- _).
  destruct (Ht Hf) as (_ & _ & H2). revert H2. clear Ht.
  destruct (executeWindowsShimResource demo_executor registry_step (s_Resource registry_step) w1)
    as [w2 [res2 failed2]]. intros (? & ? & _). done.
Defined.

Lemma apply_fail_fast_witness :
  let w := failing_mem ["reload"] in
  let run := (Apply demo_executor (demo_plan zeroExecution) w).2 in
  run_Status run = RunFailed ∧ rr_ResourceID <$> run_Results run = ["first"; "second"] ∧
  ∃ pre step post, demo_steps = pre ++ step :: post ∧ length (run_Results run) = S (length pre).
Proof.
  intros w run. pose proof (apply_fail_fast demo_executor (demo_plan zeroExecution) w eq_refl) as Ht.
  cbn zeta in Ht. split_and!; [by vm_compute..|]. revert Ht.
  destruct (step_phase demo_executor (demo_plan zeroExecution) w) as [w1 pg] eqn:Hp.
  assert (pg_failedSteps pg = 1) as Hone by (vm_compute in Hp; by injection Hp as _ <-).
  unfold run. destruct (Apply demo_executor (demo_plan zeroExecution) w) as [w' r]. intros Ht.
  destruct Ht as [[Hz _]|(pre & st & post & w0 & pg0 & H1 & _ & _ & _ & _ & _ & H7)]; [lia|].
  assert (ordered_steps (demo_plan zeroExecution) = demo_steps) as Ho by by vm_compute.
  rewrite Ho in H1. by exists pre, st, post.
Defined.

Lemma apply_runs_notified_handlers_witness :
  let run := (Apply demo_executor (demo_plan zeroExecution) empty_mem).2 in
  run_Status run = RunSucceeded ∧
  ∃ executed ran, executed `prefix_of` demo_steps ∧ drop 3 (run_Results run) = ran ∧
    rr_ResourceID <$> ran = ["audit"; "restart"].
Proof.
  intros run.
  assert (Forall retries_ok (ordered_steps (demo_plan zeroExecution))) as Hr by (by repeat constructor).
  assert (map_Forall (λ id s, r_ID (s_Resource s) = id ∧ retries_ok s)
            (p_Handlers (demo_plan zeroExecution))) as Hh.
  { apply (bool_decide_unpack _). by vm_compute. }
  pose proof (apply_runs_notified_handlers demo_executor (demo_plan zeroExecution) empty_mem Hr Hh) as Ht.
  split; [by vm_compute|]. revert Ht.
  destruct (step_phase demo_executor (demo_plan zeroExecution) empty_mem) as [w1 pg].
  unfold run. destruct (Apply demo_executor (demo_plan zeroExecution) empty_mem) as [w' r] eqn:Ha.
  intros (executed & ran & Hpre & _). exists executed, (drop 3 (run_Results r)).
  split_and!; [exact Hpre|done|]. vm_compute in Ha. by injection Ha as _ <-.
Defined.

Lemma refresh_only_iff_triggered_witness :
  let p := demo_plan zeroExecution in
  let at_step i := run_steps demo_executor (p_Execution p) (buildRefreshSourceIndex (ordered_steps p))
                     (take i (ordered_steps p)) empty_mem no_progress in
  (∃ res0, (executeStep demo_executor
     (step_on (refreshed ((command_on "h" "second" []) <| r_RefreshOnly := true |>
                            <| r_RefreshCommand := "reload" |>))) (at_step 1%nat).1).2.1 = res0 ∧
     rr_Changed res0 = true) ∧
  (at_step 3%nat).1 = (at_step 2%nat).1.
Proof.
  intros p at_step. assert (clean_ids (ordered_steps p)) as Hclean.
  { split; [apply (bool_decide_unpack _); by vm_compute|]. by repeat constructor. }
  split; [eexists; split; [done|by vm_compute]|].
  pose proof (refresh_only_iff_triggered demo_executor p empty_mem 2
    (step_on ((command_on "h" "third" []) <| r_RefreshOnly := true |>))) as Ht. cbn zeta in Ht.
  unfold at_step. revert Ht. destruct (run_steps _ _ _ (take 2 _) _ _) as [w2 pg2] eqn:H2.
  destruct (run_steps _ _ _ (take 3 _) _ _) as [w3 pg3] eqn:H3. rewrite ?H2. intros Ht.
  assert (length (pg_Results pg3) = 3%nat) as Hlen by (vm_compute in H3; by injection H3 as _ <-).
  destruct (Ht Hclean ltac:(by vm_compute) ltac:(by vm_compute) Hlen) as [Hno _]. cbn [fst].
  apply Hno. intros (j & t & rt & Hj & Hs & _ & _ & Htr).
  assert (¬ triggers t (step_on ((command_on "h" "third" []) <| r_RefreshOnly := true |>))) as Hbad.
  { change (ordered_steps p) with demo_steps in Hs. apply (bool_decide_unpack _).
    destruct j as [|[|j]]; [injection Hs as <-; by vm_compute..|lia]. }
  by apply Hbad.
Defined.
