(* ===== verification/Queue.v ===== *)
(** * The job queue: [internal/control/queue.go]

    Jobs are queued in three bounded channels, one per priority, and executed by
    one worker.  Every method of [Queue] runs under its mutex, so it is one
    transition here; [runOne] is two, with the execution of the job between
    them.  The clock readings of one call are one value [now]. *)

From S2P Require Import Prelude.

(** ** Data *)

Inductive JobStatus := JobPending | JobRunning | JobSucceeded | JobFailed | JobCanceled.
#[export] Instance JobStatus_dec : EqDecision JobStatus.
Proof. solve_decision. Defined.

Record Job : Type := mkJob {
  j_ID : string;
  j_IdempotencyKey : string;
  j_ConfigPath : string;
  j_Priority : string;
  j_Status : JobStatus;
  j_Error : string;
  j_CreatedAt : Time;
  j_StartedAt : Time;
  j_EndedAt : Time;
}.
#[export] Instance Job_eta : Eta Job := λ r,
  mkJob (j_ID r) (j_IdempotencyKey r) (j_ConfigPath r) (j_Priority r) (j_Status r) (j_Error r)
    (j_CreatedAt r) (j_StartedAt r) (j_EndedAt r).

Record WorkerLifecyclePolicy : Type := mkPolicy {
  wp_Mode : string;
  wp_MaxJobsPerWorker : Z;
  wp_RestartDelayMS : Z;
  wp_UpdatedAt : Time;
}.

(** The subscribers are functions; they are named here, and [q_events] is the
    calls [publish] made: the subscriber and the job it was given. *)
Record Queue : Type := mkQueue {
  q_nextID : Z;
  q_jobs : gmap string Job;
  q_byIdempotency : gmap string string;
  q_buffer : nat;                                (* capacity of the channels *)
  q_pendingHigh : list string;
  q_pendingNormal : list string;
  q_pendingLow : list string;
  q_subscribers : list string;
  q_events : list (string * Job);
  q_emergencyStop : bool;
  q_emergencySince : Time;
  q_emergencyReason : string;
  q_freezeUntil : Time;
  q_freezeReason : string;
  q_paused : bool;
  q_running : Z;
  q_rrIndex : Z;
  q_workerPolicy : WorkerLifecyclePolicy;
  q_generation : Z;
  q_recycles : Z;
}.
#[export] Instance Queue_eta : Eta Queue := λ r,
  mkQueue (q_nextID r) (q_jobs r) (q_byIdempotency r) (q_buffer r) (q_pendingHigh r)
    (q_pendingNormal r) (q_pendingLow r) (q_subscribers r) (q_events r) (q_emergencyStop r)
    (q_emergencySince r) (q_emergencyReason r) (q_freezeUntil r) (q_freezeReason r) (q_paused r)
    (q_running r) (q_rrIndex r) (q_workerPolicy r) (q_generation r) (q_recycles r).

Definition NewQueue (buffer : Z) (now : Time) : Queue :=
  let buffer := if buffer <=? 0 then 128 else buffer in
  mkQueue 0 ∅ ∅ (Z.to_nat buffer) [] [] [] [] [] false 0 "" 0 "" false 0 0
    (mkPolicy "persistent" 0 0 now) 0 0.

(** ** Priorities *)

Definition normalizePriority (p : string) : string :=
  let p := norm p in
  if eqs p "high" then "high" else if eqs p "low" then "low" else "normal".

(** The channel of a class, by the position of the class in the polling order. *)
Inductive class := High | Normal | Low.
#[export] Instance class_dec : EqDecision class.
Proof. solve_decision. Defined.

Definition class_of (priority : string) : class :=
  let p := normalizePriority priority in
  if eqs p "high" then High else if eqs p "low" then Low else Normal.

Definition chan (c : class) (q : Queue) : list string :=
  match c with
  | High => q_pendingHigh q
  | Normal => q_pendingNormal q
  | Low => q_pendingLow q
  end.

Definition set_chan (c : class) (l : list string) (q : Queue) : Queue :=
  match c with
  | High => q <| q_pendingHigh := l |>
  | Normal => q <| q_pendingNormal := l |>
  | Low => q <| q_pendingLow := l |>
  end.

Definition class_name (c : class) : string :=
  match c with High => "high" | Normal => "normal" | Low => "low" end.

(** ** Publishing *)

Definition Subscribe (fn : option string) (q : Queue) : Queue :=
  match fn with
  | None => q
  | Some fn => q <| q_subscribers := q_subscribers q ++ [fn] |>
  end.

Definition publish (job : Job) (q : Queue) : Queue :=
  q <| q_events := q_events q ++ ((λ fn, (fn, job)) <$> q_subscribers q) |>.

Definition put_job (j : Job) (q : Queue) : Queue :=
  q <| q_jobs := <[j_ID j := j]> (q_jobs q) |>.

(** ** Enqueue *)

Inductive enqueue_error :=
  | EmergencyActive
  | FreezeActive (message : string)
  | QueueFull (message : string).

Section clock.
Context `{TimeFormat}.

Definition job_id (now : Time) (n : Z) : string :=
  "job-" +:+ FormatCompact now +:+ "-" +:+ itoa n.

(** The send on the channel, which fails when it is full. *)
Definition pushPending (id priority : string) (q : Queue) : result enqueue_error Queue :=
  let c := class_of priority in
  if (length (chan c q) <? q_buffer q)%nat then Ok (set_chan c (chan c q ++ [id]) q)
  else Err (QueueFull ("pending queue full for priority class: " +:+ class_name c)).

Definition freeze_message (q : Queue) : string :=
  let until := FormatRFC3339 (q_freezeUntil q) in
  let reason := TrimSpace (q_freezeReason q) in
  if negb (eqs reason "") then "change freeze active until " +:+ until +:+ ": " +:+ reason
  else "change freeze active until " +:+ until.

Definition frozen (now : Time) (q : Queue) : bool :=
  negb (IsZero (q_freezeUntil q)) && Before now (q_freezeUntil q).

(** The job with the idempotency key, when there is an entry for the key; the
    job is [None] where the Go code would return a nil pointer. *)
Definition existing_job (key : string) (q : Queue) : option (option Job) :=
  if eqs key "" then None
  else (λ existingID, q_jobs q !! existingID) <$> q_byIdempotency q !! key.

(** The new job, recorded before it is pushed. *)
Definition record_job (configPath key priority : string) (now : Time) (q : Queue) : Queue * Job :=
  let q := q <| q_nextID := q_nextID q + 1 |> in
  let j := mkJob (job_id now (q_nextID q)) key configPath (normalizePriority priority)
             JobPending "" now 0 0 in
  let q := put_job j q in
  (if eqs key "" then q else q <| q_byIdempotency := <[key := j_ID j]> (q_byIdempotency q) |>, j).

Definition Enqueue (configPath key : string) (force : bool) (priority : string) (now : Time)
    (q : Queue) : Queue * result enqueue_error (option Job) :=
  match existing_job key q with
  | Some existing => (q, Ok existing)
  | None =>
      if q_emergencyStop q && negb force then (q, Err EmergencyActive)
      else if negb force && frozen now q then (q, Err (FreezeActive (freeze_message q)))
      else
        let '(q', j) := record_job configPath key priority now q in
        match pushPending (j_ID j) (j_Priority j) q' with
        | Err e =>
            (q' <| q_jobs := delete (j_ID j) (q_jobs q') |>
                <| q_byIdempotency := delete key (q_byIdempotency q') |>, Err e)
        | Ok q' => (publish j q', Ok (Some j))
        end
  end.
End clock.

(** ** Reading and control of jobs *)

Definition Get (id : string) (q : Queue) : option Job := q_jobs q !! id.
Definition List (q : Queue) : list Job := (map_to_list (q_jobs q)).*2.

Inductive job_error := JobNotFound | JobFinished.

Definition finished (s : JobStatus) : bool :=
  bool_decide (s = JobSucceeded) || bool_decide (s = JobFailed).

Definition Cancel (id : string) (now : Time) (q : Queue) : Queue * result job_error unit :=
  match q_jobs q !! id with
  | None => (q, Err JobNotFound)
  | Some j =>
      if finished (j_Status j) then (q, Err JobFinished)
      else
        let j := j <| j_Status := JobCanceled |> <| j_EndedAt := now |> in
        (publish j (put_job j q), Ok tt)
  end.

(** [if q.running > 0 { q.running-- }] *)
Definition dec_running (q : Queue) : Queue :=
  if 0 <? q_running q then q <| q_running := q_running q - 1 |> else q.

Definition FailJob (id reason : string) (now : Time) (q : Queue) : Queue * result job_error Job :=
  match q_jobs q !! TrimSpace id with
  | None => (q, Err JobNotFound)
  | Some j =>
      if finished (j_Status j) then (q, Ok j)
      else
        let error := TrimSpace reason in
        let error := if eqs error "" then "job failed by operator action" else error in
        let j := j <| j_Status := JobFailed |> <| j_Error := error |> <| j_EndedAt := now |> in
        (publish j (dec_running (put_job j q)), Ok j)
  end.

Definition stuck_error := "stale run lease recovered by control plane".

(** One iteration over [q.jobs]; [recovered] are the jobs it failed. *)
Definition recover_job (maxAge : Duration) (now : Time) (st : Queue * list Job) (j : Job)
    : Queue * list Job :=
  let '(q, recovered) := st in
  if negb (bool_decide (j_Status j = JobRunning)) || IsZero (j_StartedAt j) then st
  else if Sub now (j_StartedAt j) <? maxAge then st
  else
    let j := j <| j_Status := JobFailed |> <| j_Error := stuck_error |> <| j_EndedAt := now |> in
    (dec_running (put_job j q), recovered ++ [j]).

(** The events are published by a goroutine, here at the end of the call; the
    order of the jobs is that of the iteration over the map. *)
Definition RecoverStuckJobs (maxAge : Duration) (now : Time) (q : Queue) : Queue * list Job :=
  let maxAge := if maxAge <=? 0 then 5 * 60 * Second else maxAge in
  let '(q, recovered) := foldl (recover_job maxAge now) (q, []) (List q) in
  (foldl (λ q j, publish j q) q recovered, recovered).

(** ** Emergency stop, freeze and pause *)

Record EmergencyStatus : Type := mkEmergency {
  es_Active : bool; es_Since : Time; es_Reason : string }.
Record FreezeStatus : Type := mkFreeze {
  fs_Active : bool; fs_Until : Time; fs_Reason : string }.

Definition emergency_status (q : Queue) : EmergencyStatus :=
  mkEmergency (q_emergencyStop q) (q_emergencySince q) (q_emergencyReason q).

Definition SetEmergencyStop (active : bool) (reason : string) (now : Time) (q : Queue)
    : Queue * EmergencyStatus :=
  let q := q <| q_emergencyStop := active |> in
  let q :=
    if active then
      (if IsZero (q_emergencySince q) then q <| q_emergencySince := now |> else q)
        <| q_emergencyReason := reason |>
    else q <| q_emergencySince := 0 |> <| q_emergencyReason := "" |> in
  (q, emergency_status q).

Definition no_freeze (q : Queue) : Queue := q <| q_freezeUntil := 0 |> <| q_freezeReason := "" |>.

Definition SetFreezeUntil (until : Time) (reason : string) (now : Time) (q : Queue)
    : Queue * FreezeStatus :=
  if IsZero until || negb (After until now) then (no_freeze q, mkFreeze false 0 "")
  else
    let q := q <| q_freezeUntil := until |> <| q_freezeReason := TrimSpace reason |> in
    (q, mkFreeze true (q_freezeUntil q) (q_freezeReason q)).

Definition ClearFreeze (now : Time) (q : Queue) : Queue * FreezeStatus := SetFreezeUntil 0 "" now q.

(** [FreezeStatus]: an expired freeze is cleared. *)
Definition freeze_status (now : Time) (q : Queue) : Queue * FreezeStatus :=
  if IsZero (q_freezeUntil q) then (q, mkFreeze false 0 "")
  else if negb (Before now (q_freezeUntil q)) then (no_freeze q, mkFreeze false 0 "")
  else (q, mkFreeze true (q_freezeUntil q) (q_freezeReason q)).

Record QueueControlStatus : Type := mkControlStatus {
  cs_Paused : bool; cs_Running : Z; cs_Pending : Z;
  cs_PendingHigh : Z; cs_PendingNormal : Z; cs_PendingLow : Z }.

Definition controlStatusLocked (q : Queue) : QueueControlStatus :=
  let len c := Z.of_nat (length (chan c q)) in
  mkControlStatus (q_paused q) (q_running q) (len High + len Normal + len Low)
    (len High) (len Normal) (len Low).

Definition Pause (q : Queue) : Queue * QueueControlStatus :=
  let q := q <| q_paused := true |> in (q, controlStatusLocked q).
Definition Resume (q : Queue) : Queue * QueueControlStatus :=
  let q := q <| q_paused := false |> in (q, controlStatusLocked q).

(** [SafeDrain] after its [Pause]: the successive control statuses it reads, with
    the time of each; [None] when it is still polling. *)
Fixpoint drain_poll (timeout : Duration) (deadline : Time) (reads : list (QueueControlStatus * Time))
    : option (result string QueueControlStatus) :=
  match reads with
  | [] => None
  | (st, now) :: reads =>
      if cs_Running st =? 0 then Some (Ok st)
      else if (0 <? timeout) && After now deadline
      then Some (Err "safe-drain timeout waiting for running jobs to complete")
      else drain_poll timeout deadline reads
  end.

(** ** Worker lifecycle *)

Definition SetWorkerLifecyclePolicy (mode : string) (maxJobs restart : Z) (now : Time) (q : Queue)
    : Queue * WorkerLifecyclePolicy :=
  let mode := norm mode in
  let mode := if eqs mode "" then "persistent" else mode in
  let mode := if one_of mode ["persistent"; "stateless"] then mode else "persistent" in
  let maxJobs := if eqs mode "stateless" && (maxJobs <=? 0) then 1 else maxJobs in
  let maxJobs := if maxJobs <? 0 then 0 else maxJobs in
  let restart := if restart <? 0 then 0 else restart in
  let policy := mkPolicy mode maxJobs restart now in
  (q <| q_workerPolicy := policy |>, policy).

Definition normalizedMaxJobs (policy : WorkerLifecyclePolicy) : Z :=
  if eqs (wp_Mode policy) "stateless" then
    if wp_MaxJobsPerWorker policy <=? 0 then 1 else wp_MaxJobsPerWorker policy
  else if wp_MaxJobsPerWorker policy <=? 0 then 0
  else wp_MaxJobsPerWorker policy.

(** [time.Duration(policy.RestartDelayMS) * time.Millisecond] *)
Definition restart_delay (policy : WorkerLifecyclePolicy) : Duration :=
  wrap64 (wp_RestartDelayMS policy * 1000000).

Record WorkerLifecycleStatus : Type := mkLifecycleStatus {
  ls_Policy : WorkerLifecyclePolicy;
  ls_Generation : Z;
  ls_Recycles : Z;
  ls_CurrentQueueLoad : QueueControlStatus;
}.

Definition lifecycle_status (q : Queue) : WorkerLifecycleStatus :=
  mkLifecycleStatus (q_workerPolicy q) (q_generation q) (q_recycles q) (controlStatusLocked q).

(** ** The worker's side of the queue *)

Definition class_at (i : Z) : class := if i =? 0 then High else if i =? 1 then Normal else Low.
Definition index_of (c : class) : Z := match c with High => 0 | Normal => 1 | Low => 2 end.

(** [case id := <-ch]: the head of a channel. *)
Definition receive (c : class) (q : Queue) : option (string * Queue) :=
  match chan c q with
  | [] => None
  | id :: rest => Some (id, set_chan c rest q)
  end.

(** One iteration of the polling loop of [nextPending]: the class at distance
    [i] from [rrIndex] is tried. *)
Definition poll_class (i : Z) (q : Queue) : option (string * Queue) :=
  let idx := (q_rrIndex q + i) mod 3 in
  match receive (class_at idx) q with
  | None => None
  | Some (id, q) => Some (id, q <| q_rrIndex := (idx + 1) mod 3 |>)
  end.

(** The loop, when nothing else touches the channels during it. *)
Definition poll (q : Queue) : option (string * Queue) :=
  match poll_class 0 q with
  | Some r => Some r
  | None => match poll_class 1 q with
            | Some r => Some r
            | None => poll_class 2 q
            end
  end.

(** [runOne] up to the execution: [None] when the job is not executed. *)
Definition start_job (id : string) (now : Time) (q : Queue) : Queue * option Job :=
  match q_jobs q !! id with
  | None => (q, None)
  | Some j =>
      if bool_decide (j_Status j = JobCanceled) then (q, None)
      else
        let j := j <| j_Status := JobRunning |> <| j_StartedAt := now |> in
        (publish j (put_job j q <| q_running := q_running q + 1 |>), Some j)
  end.

Definition finished_job (err : option string) (now : Time) (j : Job) : Job :=
  match err with
  | Some e => j <| j_Status := JobFailed |> <| j_Error := e |>
  | None => j <| j_Status := JobSucceeded |>
  end <| j_EndedAt := now |>.

(** [runOne] after the execution, which returned [err].  Jobs that were pushed
    are never removed, so the lookup does not fail. *)
Definition finish_job (id : string) (err : option string) (now : Time) (q : Queue) : Queue :=
  match q_jobs q !! id with
  | None => q
  | Some j =>
      if bool_decide (j_Status j = JobCanceled) then dec_running q
      else
        let j := finished_job err now j in
        publish j (dec_running (put_job j q))
  end.

(** ** The system: a queue and its worker

    The goroutine of [StartWorker] is a state machine; [ph] is where it is.
    [Looping] is the head of the loop of [runWorkerGeneration], [Polling i] the
    polling loop of [nextPending] at its [i]-th class, [Blocked] its final
    [select], [Holding id] the entry of [runOne], [Executing id] the call of
    [ApplyPath], [Recycling] the end of a generation and [Delaying] the pause
    before the next one. *)
Inductive phase :=
  | NotStarted
  | Top
  | Looping
  | Polling (i : Z)
  | Blocked
  | Holding (id : string)
  | Executing (id : string)
  | Recycling
  | Delaying
  | Stopped.

Record System : Type := mkSystem {
  sys_queue : Queue;
  sys_phase : phase;
  sys_maxJobs : Z;           (* of the policy the generation started with *)
  sys_delay : Duration;      (* its restart delay *)
  sys_processed : Z;
  sys_done : bool;           (* the context is cancelled *)
}.
#[export] Instance System_eta : Eta System := λ r,
  mkSystem (sys_queue r) (sys_phase r) (sys_maxJobs r) (sys_delay r) (sys_processed r) (sys_done r).

(** The calls other goroutines make. *)
Inductive op :=
  | OpEnqueue (configPath key : string) (force : bool) (priority : string)
  | OpCancel (id : string)
  | OpFail (id reason : string)
  | OpRecover (maxAge : Duration)
  | OpSubscribe (fn : option string)
  | OpEmergency (active : bool) (reason : string)
  | OpFreeze (until : Time) (reason : string)
  | OpFreezeStatus
  | OpPause
  | OpResume
  | OpPolicy (mode : string) (maxJobs restart : Z).

Definition run_op `{TimeFormat} (o : op) (now : Time) (q : Queue) : Queue :=
  match o with
  | OpEnqueue configPath key force priority => (Enqueue configPath key force priority now q).1
  | OpCancel id => (Cancel id now q).1
  | OpFail id reason => (FailJob id reason now q).1
  | OpRecover maxAge => (RecoverStuckJobs maxAge now q).1
  | OpSubscribe fn => Subscribe fn q
  | OpEmergency active reason => (SetEmergencyStop active reason now q).1
  | OpFreeze until reason => (SetFreezeUntil until reason now q).1
  | OpFreezeStatus => (freeze_status now q).1
  | OpPause => (Pause q).1
  | OpResume => (Resume q).1
  | OpPolicy mode maxJobs restart => (SetWorkerLifecyclePolicy mode maxJobs restart now q).1
  end.

(** What decides a step of the worker: nothing, the ready case of a [select],
    or the result of [ApplyPath]. *)
Inductive choice :=
  | Continue
  | Receive (c : class)
  | CtxDone
  | Applied (err : option string).

(** The end of an iteration of [runWorkerGeneration]. *)
Definition after_job (q : Queue) (s : System) : System :=
  let processed := sys_processed s + 1 in
  s <| sys_queue := q |> <| sys_processed := processed |>
    <| sys_phase := if (0 <? sys_maxJobs s) && (sys_maxJobs s <=? processed)
                    then Recycling else Looping |>.

Definition worker_step (ch : choice) (now : Time) (s : System) : option System :=
  let q := sys_queue s in
  match sys_phase s, ch with
  | NotStarted, Continue => Some (s <| sys_queue := q <| q_generation := 1 |> |> <| sys_phase := Top |>)
  | Top, Continue =>
      Some (s <| sys_maxJobs := normalizedMaxJobs (q_workerPolicy q) |>
              <| sys_delay := restart_delay (q_workerPolicy q) |> <| sys_processed := 0 |>
              <| sys_phase := Looping |>)
  | Looping, Continue =>
      if q_paused q then Some s else Some (s <| sys_phase := Polling 0 |>)
  | Looping, CtxDone =>
      if q_paused q && sys_done s then Some (s <| sys_phase := Stopped |>) else None
  | Polling i, Continue =>
      match poll_class i q with
      | Some (id, q) => Some (s <| sys_queue := q |> <| sys_phase := Holding id |>)
      | None => Some (s <| sys_phase := if i <? 2 then Polling (i + 1) else Blocked |>)
      end
  | Blocked, Receive c =>
      match receive c q with
      | Some (id, q) => Some (s <| sys_queue := q |> <| sys_phase := Holding id |>)
      | None => None
      end
  | Blocked, CtxDone => if sys_done s then Some (s <| sys_phase := Stopped |>) else None
  | Holding id, Continue =>
      match start_job id now q with
      | (q, Some _) => Some (s <| sys_queue := q |> <| sys_phase := Executing id |>)
      | (q, None) => Some (after_job q s)
      end
  | Executing id, Applied err => Some (after_job (finish_job id err now q) s)
  | Recycling, Continue =>
      let q := if 0 <? sys_processed s
               then q <| q_recycles := q_recycles q + 1 |> <| q_generation := q_generation q + 1 |>
               else q in
      Some (s <| sys_queue := q |> <| sys_phase := Delaying |>)
  | Delaying, Continue => Some (s <| sys_phase := Top |>)
  | Delaying, CtxDone => if (0 <? sys_delay s) && sys_done s then Some (s <| sys_phase := Stopped |>) else None
  | _, _ => None
  end.

Inductive step `{TimeFormat} : System → System → Prop :=
  | step_op o now s : step s (s <| sys_queue := run_op o now (sys_queue s) |>)
  | step_worker ch now s s' : worker_step ch now s = Some s' → step s s'
  | step_cancel s : step s (s <| sys_done := true |>).

Definition initial (buffer : Z) (now : Time) : System :=
  mkSystem (NewQueue buffer now) NotStarted 0 0 0 false.

Definition reachable `{TimeFormat} (s : System) : Prop :=
  ∃ buffer now, rtc step (initial buffer now) s.
