(* ===== verification/QueueInvariant.v ===== *)
(** * The invariant of the job queue

    What every reachable state of [Queue.v] satisfies, for any interleaving of
    calls with the steps of the worker. *)

From S2P Require Import Prelude Queue.

(** ** The invariant

    Stated on the parts of the state it is about, so that the operations on the
    other parts keep it by definition. *)

(** The job the worker was given and has not finished. *)
Definition held (ph : phase) : option string :=
  match ph with Holding id | Executing id => Some id | _ => None end.

Record qinv `{TimeFormat} (buffer : nat) (next : Z) (jobs : gmap string Job) (idem : gmap string string)
    (ch : class → list string) (running : Z) (ph : phase) : Prop := {
  qi_capacity c : (length (ch c) ≤ buffer)%nat;
  qi_nodup c : NoDup (ch c);
  qi_waiting c id : id ∈ ch c → held ph ≠ Some id ∧ ∃ j, jobs !! id = Some j ∧
    class_of (j_Priority j) = c ∧ j_Status j ≠ JobRunning ∧ j_Status j ≠ JobSucceeded;
  qi_holding id : ph = Holding id → ∃ j, jobs !! id = Some j ∧
    j_Status j ≠ JobRunning ∧ j_Status j ≠ JobSucceeded;
  qi_executing id : ph = Executing id → ∃ j, jobs !! id = Some j ∧ j_Status j ≠ JobPending;
  qi_pending id j : jobs !! id = Some j → j_Status j = JobPending →
    id ∈ ch (class_of (j_Priority j)) ∨ ph = Holding id;
  qi_active id j : jobs !! id = Some j → j_Status j = JobRunning → ph = Executing id;
  qi_running : 0 ≤ running ≤ (if ph is Executing _ then 1 else 0);
  qi_ids id j : jobs !! id = Some j → j_ID j = id ∧ ∃ t n, id = job_id t n ∧ 0 < n ≤ next;
  qi_next : 0 ≤ next;
  qi_keys key id : idem !! key = Some id ↔
    key ≠ "" ∧ ∃ j, jobs !! id = Some j ∧ j_IdempotencyKey j = key;
}.

Definition inv `{TimeFormat} (s : System) : Prop :=
  let q := sys_queue s in
  qinv (q_buffer q) (q_nextID q) (q_jobs q) (q_byIdempotency q) (λ c, chan c q) (q_running q)
    (sys_phase s).

(** *** Job ids are distinct *)

Fixpoint no_dash (s : string) : bool :=
  match s with
  | EmptyString => true
  | String c s => negb (bool_decide (c = "-"%char)) && no_dash s
  end.

Lemma digit_no_dash n : bool_decide (digit n = "-"%char) = false.
Proof.
  apply bool_decide_eq_false. intros Heq. apply (f_equal digit_val) in Heq.
  rewrite digit_val_digit in Heq. vm_compute (digit_val "-") in Heq.
  pose proof (Z.mod_pos_bound n 10). lia.
Qed.

Lemma no_dash_itoa n : no_dash (itoa n) = true.
Proof.
  unfold itoa. destruct (n =? 0); [done|].
  assert (∀ fuel n acc, no_dash acc = true → no_dash (itoa_loop fuel n acc) = true) as Hl; [|by apply Hl].
  induction fuel as [|fuel IH]; intros m acc Hacc; simpl; [done|]. destruct (0 <? m); [|done].
  apply IH. cbn [no_dash]. by rewrite digit_no_dash.
Qed.

Lemma split_last_dash s1 s2 d1 d2 :
  no_dash d1 = true → no_dash d2 = true → s1 +:+ "-" +:+ d1 = s2 +:+ "-" +:+ d2 → d1 = d2.
Proof.
  assert (∀ s d, no_dash (s +:+ "-" +:+ d) = false) as Hdash.
  { induction s as [|c s IH]; intros d; [done|]. rewrite append_cons. cbn [no_dash].
    by rewrite IH, andb_false_r. }
  assert (∀ d, "-" +:+ d = String "-" d) as Hone by done.
  intros H1 H2. revert s2; induction s1 as [|c s1 IH]; intros [|c2 s2] Heq;
    rewrite ?append_nil in Heq.
  - by rewrite !Hone in Heq; injection Heq.
  - rewrite Hone, (append_cons c2) in Heq. injection Heq as _ ->. by rewrite Hdash in H1.
  - rewrite (Hone d2), (append_cons c) in Heq. injection Heq as _ <-. by rewrite Hdash in H2.
  - rewrite (append_cons c), (append_cons c2) in Heq. injection Heq as _ Heq. by eapply IH.
Qed.

Lemma job_id_inj `{TimeFormat} t u n m :
  0 ≤ n ≤ max_int64 → 0 ≤ m ≤ max_int64 → job_id t n = job_id u m → n = m.
Proof.
  intros Hn Hm Heq. apply itoa_inj; [done..|]. unfold job_id in Heq.
  eapply (split_last_dash ("job-" +:+ FormatCompact t) ("job-" +:+ FormatCompact u));
    [apply no_dash_itoa..|]. by rewrite !append_assoc.
Qed.

(** *** Lemmas: one per kind of transition *)

Section qinv.
Context `{TimeFormat}.
Implicit Types (jobs : gmap string Job) (idem : gmap string string) (ch : class → list string)
  (ph : phase) (j : Job).

Lemma qinv_phase buffer next jobs idem ch run ph ph' :
  held ph = None → held ph' = None →
  qinv buffer next jobs idem ch run ph → qinv buffer next jobs idem ch run ph'.
Proof.
  intros Hh Hh' [? ? Hw Ho He Hp Ha Hr ? ? ?]. split; try done.
  - intros c id Hid. rewrite Hh'. split; [done|]. by apply Hw.
  - by destruct ph'.
  - by destruct ph'.
  - intros id j Hj Hs. destruct (Hp id j Hj Hs) as [?| ->]; [by left|done].
  - intros id j Hj Hs. by rewrite (Ha id j Hj Hs) in Hh.
  - destruct ph, ph'; done.
Qed.

(** A job that changes status: its identity, key and priority stay. *)
Lemma qinv_set_job buffer next jobs idem ch run run' ph ph' id j j' :
  jobs !! id = Some j →
  j_ID j' = j_ID j → j_IdempotencyKey j' = j_IdempotencyKey j → j_Priority j' = j_Priority j →
  j_Status j' ≠ JobPending →
  (j_Status j' = JobRunning → ph' = Executing id) →
  (j_Status j' = JobRunning ∨ j_Status j' = JobSucceeded → held ph = Some id ∧ ph' ≠ Holding id) →
  (ph' = ph ∨ held ph = Some id ∧ (ph' = Executing id ∨ held ph' = None)) →
  0 ≤ run' ≤ (if ph' is Executing _ then 1 else 0) →
  qinv buffer next jobs idem ch run ph →
  qinv buffer next (<[id := j']> jobs) idem ch run' ph'.
Proof.
  intros Hj Hid Hkey Hprio Hnp Hrun Hdone Hph Hr [Hcap Hnd Hw Ho He Hp Ha _ Hi Hn Hk]. split; try done.
  - intros c x Hx. destruct (Hw c x Hx) as [Hnh (jx & Hjx & Hc & Hs)]. split.
    + destruct Hph as [-> | [Heq [-> | ->]]]; [done|simpl; congruence|done].
    + destruct (decide (x = id)) as [->|Hne]; [|by rewrite lookup_insert_ne by done; eauto].
      rewrite lookup_insert_eq. exists j'. rewrite Hj in Hjx. injection Hjx as <-.
      split_and!; [done|congruence|tauto|tauto].
  - intros x ->. destruct Hph as [<- | [Heq [|]]]; [|done..].
    destruct (Ho x eq_refl) as (jx & Hjx & Hs). destruct (decide (x = id)) as [->|Hne].
    + rewrite lookup_insert_eq. exists j'. split_and!; [done|naive_solver..].
    + rewrite lookup_insert_ne by done. eauto.
  - intros x ->. destruct (decide (x = id)) as [->|Hne].
    + rewrite lookup_insert_eq. eauto.
    + rewrite lookup_insert_ne by done. apply He. by destruct Hph as [<- | [Heq [[=]|]]].
  - intros x jx Hjx Hs. destruct (decide (x = id)) as [->|Hne].
    { rewrite lookup_insert_eq in Hjx. congruence. }
    rewrite lookup_insert_ne in Hjx by done. destruct (Hp x jx Hjx Hs) as [?| ->]; [by left|].
    right. destruct Hph as [-> | [[=] _]]; [done|congruence].
  - intros x jx Hjx Hs. destruct (decide (x = id)) as [->|Hne].
    { rewrite lookup_insert_eq in Hjx. injection Hjx as <-. auto. }
    rewrite lookup_insert_ne in Hjx by done. pose proof (Ha x jx Hjx Hs) as ->.
    destruct Hph as [-> | [[=] _]]; [done|congruence].
  - intros x jx Hjx. destruct (decide (x = id)) as [->|Hne].
    { rewrite lookup_insert_eq in Hjx. injection Hjx as <-. rewrite Hid. by apply Hi. }
    rewrite lookup_insert_ne in Hjx by done. by apply Hi.
  - intros key x. rewrite Hk. destruct (decide (x = id)) as [->|Hne].
    + rewrite lookup_insert_eq, Hj. naive_solver.
    + by rewrite lookup_insert_ne by done.
Qed.

(** The worker drops the job it holds. *)
Lemma qinv_release buffer next jobs idem ch run run' ph ph' id j :
  held ph = Some id → held ph' = None → jobs !! id = Some j →
  j_Status j ≠ JobPending → j_Status j ≠ JobRunning → run' = 0 →
  qinv buffer next jobs idem ch run ph → qinv buffer next jobs idem ch run' ph'.
Proof.
  intros Hh Hh' Hj Hnp Hnr -> [? ? Hw Ho He Hp Ha Hr ? ? ?]. split; try done.
  - intros c x Hx. rewrite Hh'. split; [done|]. by apply Hw.
  - by destruct ph'.
  - by destruct ph'.
  - intros x jx Hjx Hs. destruct (Hp x jx Hjx Hs) as [?| ->]; [by left|]. simpl in Hh. congruence.
  - intros x jx Hjx Hs. rewrite (Ha x jx Hjx Hs) in Hh. simpl in Hh. congruence.
  - by destruct ph'.
Qed.

Lemma qinv_receive buffer next jobs idem ch ch' run ph c id rest :
  held ph = None → ch c = id :: rest →
  (∀ c', ch' c' = if decide (c' = c) then rest else ch c') →
  qinv buffer next jobs idem ch run ph → qinv buffer next jobs idem ch' run (Holding id).
Proof.
  intros Hh Hc Hch' [Hcap Hnd Hw Ho He Hp Ha Hr ? ? ?].
  assert (∀ c' x, x ∈ ch' c' → x ∈ ch c') as Hsub.
  { intros c' x. rewrite Hch'. case_decide as Heq; [subst; rewrite Hc; by right|done]. }
  assert (id ∈ ch c) as Hin by (rewrite Hc; left). pose proof (Hw c id Hin) as [_ (j & Hj & Hjc & Hs)].
  pose proof (Hnd c) as Hndc. rewrite Hc in Hndc. apply NoDup_cons in Hndc as [Hnot Hndr]. split; try done.
  - intros c'. rewrite Hch'. case_decide; [|done]. specialize (Hcap c). rewrite Hc in Hcap. simpl in Hcap. lia.
  - intros c'. rewrite Hch'. by case_decide.
  - intros c' x Hx. destruct (Hw c' x (Hsub _ _ Hx)) as [_ (jx & Hjx & Hcx & Hsx)]. split; [|eauto].
    intros [= <-]. rewrite Hj in Hjx. injection Hjx as <-. rewrite Hch', decide_True in Hx by congruence. done.
  - intros x [= <-]. eauto.
  - intros x jx Hjx Hsx. destruct (Hp x jx Hjx Hsx) as [Hx|Hx]; [|by rewrite Hx in Hh].
    rewrite Hch'. case_decide as Heq; [|by left]. rewrite Heq, Hc in Hx.
    apply elem_of_cons in Hx as [->|?]; [by right|by left].
  - intros x jx Hjx Hsx. by rewrite (Ha x jx Hjx Hsx) in Hh.
  - destruct ph; done.
Qed.

Lemma qinv_ch_ext buffer next jobs idem ch ch' run ph :
  (∀ c, ch' c = ch c) → qinv buffer next jobs idem ch run ph → qinv buffer next jobs idem ch' run ph.
Proof.
  intros Hch [? ? Hw ? ? Hp ? ? ? ? ?]. split; try done.
  - intros c. by rewrite Hch.
  - intros c. by rewrite Hch.
  - intros c id. rewrite Hch. apply Hw.
  - intros id j. rewrite Hch. apply Hp.
Qed.

Lemma qinv_bump buffer next jobs idem ch run ph :
  qinv buffer next jobs idem ch run ph → qinv buffer (next + 1) jobs idem ch run ph.
Proof.
  intros [? ? Hw Ho He Hp Ha Hr Hi ? ?]. split; try done; [|lia].
  intros id j Hj. destruct (Hi id j Hj) as [? (t & n & ? & ?)]. split; [done|]. exists t, n. split; [done|lia].
Qed.

Lemma qinv_fresh buffer next jobs idem ch run ph now :
  next < max_int64 → qinv buffer next jobs idem ch run ph → jobs !! job_id now (next + 1) = None.
Proof.
  intros Hmax Hq. destruct (jobs !! _) as [j0|] eqn:Hj0; [|done].
  destruct (qi_ids _ _ _ _ _ _ _ Hq _ _ Hj0) as [_ (t & n & Hn' & Hb)].
  pose proof (qi_next _ _ _ _ _ _ _ Hq). apply job_id_inj in Hn'; [lia|unfold max_int64 in *; lia..].
Qed.

Lemma qinv_enqueue buffer next jobs idem ch ch' run ph now key j :
  next < max_int64 → j_ID j = job_id now (next + 1) → j_IdempotencyKey j = key →
  j_Status j = JobPending → (key ≠ "" → idem !! key = None) →
  (length (ch (class_of (j_Priority j))) < buffer)%nat →
  (∀ c, ch' c = if decide (c = class_of (j_Priority j)) then ch c ++ [j_ID j] else ch c) →
  qinv buffer next jobs idem ch run ph →
  qinv buffer (next + 1) (<[j_ID j := j]> jobs)
    (if eqs key "" then idem else <[key := j_ID j]> idem) ch' run ph.
Proof.
  intros Hmax Hid Hkey Hst Hfresh Hroom Hch' Hq.
  pose proof (qinv_fresh _ _ _ _ _ _ _ now Hmax Hq) as Hnone. rewrite <-Hid in Hnone.
  destruct Hq as [Hcap Hnd Hw Ho He Hp Ha Hr Hi Hn Hk].
  assert (∀ x jx, jobs !! x = Some jx → <[j_ID j := j]> jobs !! x = Some jx) as Hold.
  { intros x jx Hx. rewrite lookup_insert_ne; [done|]. by intros <-; rewrite Hnone in Hx. }
  assert (∀ x jx, <[j_ID j := j]> jobs !! x = Some jx → (x = j_ID j ∧ jx = j) ∨ jobs !! x = Some jx) as Hnew.
  { intros x jx. rewrite lookup_insert_Some. naive_solver. }
  assert (∀ c, j_ID j ∉ ch c) as Hnotin.
  { intros c Hx. apply Hw in Hx as [_ (jx & Hjx & _)]. by rewrite Hnone in Hjx. }
  split; try done; try lia.
  - intros c. rewrite Hch'. case_decide as Heq; [|done]. subst c. rewrite length_app. simpl. lia.
  - intros c. rewrite Hch'. case_decide; [|done]. apply NoDup_app. split_and!; [done| |apply NoDup_singleton].
    intros x Hx ->%list_elem_of_singleton. by apply (Hnotin c).
  - intros c x Hx. assert (x ∈ ch c ∨ (x = j_ID j ∧ c = class_of (j_Priority j))) as [Hx'|[-> ->]].
    { rewrite Hch' in Hx. case_decide; [|by left]. apply elem_of_app in Hx as [?|?]; [by left|right; set_solver]. }
    + destruct (Hw c x Hx') as [Hh (jx & Hjx & ?)]. split; [done|]. exists jx. split; [by apply Hold|done].
    + split; [|exists j; rewrite lookup_insert_eq, Hst; done].
      intros Hh. destruct ph; simpl in Hh; try done; injection Hh as ->.
      * destruct (Ho _ eq_refl) as (? & Hbad & _). congruence.
      * destruct (He _ eq_refl) as (? & Hbad & _). congruence.
  - intros x Hx. destruct (Ho x Hx) as (jx & Hjx & ?). eauto.
  - intros x Hx. destruct (He x Hx) as (jx & Hjx & ?). eauto.
  - intros x jx [[-> ->]|Hjx]%Hnew Hs; [left|].
    + rewrite Hch', decide_True by done. set_solver.
    + destruct (Hp x jx Hjx Hs) as [Hx|Hx]; [left|by right]. rewrite Hch'. case_decide; set_solver.
  - intros x jx [[-> ->]|Hjx]%Hnew Hs; [congruence|by eapply Ha].
  - intros x jx [[-> ->]|Hjx]%Hnew; [|destruct (Hi _ _ Hjx) as [? (t & n & ? & ?)]]; (split; [done|]).
    + exists now, (next + 1). split; [done|lia].
    + exists t, n. split; [done|lia].
  - assert (∀ k x, (k ≠ "" ∧ ∃ jx, <[j_ID j := j]> jobs !! x = Some jx ∧ j_IdempotencyKey jx = k) ↔
      (k ≠ "" ∧ k = key ∧ x = j_ID j) ∨ idem !! k = Some x) as Hiff.
    { intros k x. rewrite Hk. split.
      - intros [Hne (jx & [[-> ->]|Hjx]%Hnew & <-)]; [left|right]; eauto.
      - intros [(Hne & -> & ->)|[Hne (jx & Hjx & Heq)]]; (split; [done|]).
        + exists j. by rewrite lookup_insert_eq.
        + exists jx. split; [by apply Hold|done]. }
    intros k x. rewrite Hiff. destruct (eqs key "") eqn:He'.
    + apply eqs_true in He' as ->. naive_solver.
    + apply eqs_false in He'. rewrite lookup_insert_Some. specialize (Hfresh He').
      destruct (decide (k = key)) as [->|]; naive_solver.
Qed.
End qinv.

(** *** The operations keep the invariant *)

Section preservation.
Context `{TimeFormat}.

Definition queue_inv (q : Queue) (ph : phase) : Prop :=
  qinv (q_buffer q) (q_nextID q) (q_jobs q) (q_byIdempotency q) (λ c, chan c q) (q_running q) ph.

Lemma chan_set_chan c l q c' : chan c' (set_chan c l q) = if decide (c' = c) then l else chan c' q.
Proof. by destruct c, c'. Qed.

Lemma set_chan_frame c l q :
  q_buffer (set_chan c l q) = q_buffer q ∧ q_nextID (set_chan c l q) = q_nextID q ∧
  q_jobs (set_chan c l q) = q_jobs q ∧ q_byIdempotency (set_chan c l q) = q_byIdempotency q ∧
  q_running (set_chan c l q) = q_running q ∧ q_rrIndex (set_chan c l q) = q_rrIndex q.
Proof. by destruct c. Qed.

Lemma normalizePriority_idemp p : normalizePriority (normalizePriority p) = normalizePriority p.
Proof.
  unfold normalizePriority at 2 3. destruct (eqs (norm p) "high"); [done|].
  by destruct (eqs (norm p) "low").
Qed.

Lemma publish_inv j q ph : queue_inv (publish j q) ph ↔ queue_inv q ph.
Proof. done. Qed.

Lemma dec_running_bounds q : 0 ≤ q_running q → 0 ≤ q_running (dec_running q) ≤ q_running q.
Proof. unfold dec_running. destruct (Z.ltb_spec 0 (q_running q)); simpl; lia. Qed.

Lemma dec_running_frame q :
  q_buffer (dec_running q) = q_buffer q ∧ q_nextID (dec_running q) = q_nextID q ∧
  q_jobs (dec_running q) = q_jobs q ∧ q_byIdempotency (dec_running q) = q_byIdempotency q ∧
  (∀ c, chan c (dec_running q) = chan c q).
Proof. unfold dec_running. destruct (0 <? q_running q); done. Qed.

Lemma pushPending_Ok id p q q' :
  pushPending id p q = Ok q' →
  (length (chan (class_of p) q) < q_buffer q)%nat ∧
  (∀ c, chan c q' = if decide (c = class_of p) then chan c q ++ [id] else chan c q) ∧
  q_buffer q' = q_buffer q ∧ q_nextID q' = q_nextID q ∧ q_jobs q' = q_jobs q ∧
  q_byIdempotency q' = q_byIdempotency q ∧ q_running q' = q_running q ∧ q_rrIndex q' = q_rrIndex q.
Proof.
  unfold pushPending. destruct (Nat.ltb_spec (length (chan (class_of p) q)) (q_buffer q)); [|done].
  intros [= <-]. split; [done|]. split; [|apply set_chan_frame].
  intros c. rewrite chan_set_chan. case_decide; by subst.
Qed.

Lemma record_job_spec configPath key priority now q :
  let '(q', j) := record_job configPath key priority now q in
  j = mkJob (job_id now (q_nextID q + 1)) key configPath (normalizePriority priority)
        JobPending "" now 0 0 ∧
  q_jobs q' = <[j_ID j := j]> (q_jobs q) ∧ q_buffer q' = q_buffer q ∧
  q_nextID q' = q_nextID q + 1 ∧ q_running q' = q_running q ∧ (∀ c, chan c q' = chan c q) ∧
  q_rrIndex q' = q_rrIndex q ∧
  q_byIdempotency q' = if eqs key "" then q_byIdempotency q
                       else <[key := j_ID j]> (q_byIdempotency q).
Proof. unfold record_job. destruct (eqs key ""); cbn; split_and!; try done; by intros []. Qed.

Lemma existing_job_None key q :
  existing_job key q = None → key ≠ "" → q_byIdempotency q !! key = None.
Proof.
  unfold existing_job. destruct (eqs key "") eqn:Hk; [by apply eqs_true in Hk|].
  by destruct (q_byIdempotency q !! key).
Qed.

Lemma Enqueue_inv configPath key force priority now q ph :
  queue_inv q ph → q_nextID (Enqueue configPath key force priority now q).1 ≤ max_int64 →
  queue_inv (Enqueue configPath key force priority now q).1 ph.
Proof.
  intros Hq. unfold Enqueue. destruct (existing_job key q) as [e|] eqn:He; [done|].
  pose proof (existing_job_None _ _ He) as Hfresh.
  destruct (_ && negb force); [done|]. destruct (_ && frozen now q); [done|].
  pose proof (record_job_spec configPath key priority now q) as Hrec.
  destruct (record_job configPath key priority now q) as [q1 j].
  destruct Hrec as (Hj & Hjobs & Hbuf & Hnext & Hrun & Hchan & _ & Hidem).
  destruct (pushPending (j_ID j) (j_Priority j) q1) as [q2|err] eqn:Hpush; cbn [fst].
  - apply pushPending_Ok in Hpush as (Hroom & Hch2 & Hb & Hn & Hjb & Hi & Hr & _).
    change (q_nextID (publish j q2)) with (q_nextID q2). intros Hmax. apply publish_inv.
    unfold queue_inv. rewrite Hb, Hn, Hjb, Hi, Hr, Hnext, Hbuf, Hjobs, Hidem, Hrun in *.
    eapply qinv_enqueue with (ch := λ c, chan c q) (now := now); try exact Hq; try done.
    + lia.
    + by rewrite Hj.
    + by rewrite Hj.
    + by rewrite Hj.
    + by rewrite <-Hchan.
    + intros c. rewrite Hch2. case_decide; by rewrite Hchan.
  - intros Hmax. change (q_nextID q1 ≤ max_int64) in Hmax. rewrite Hnext in Hmax.
    unfold queue_inv. cbn [q_buffer q_nextID q_jobs q_byIdempotency q_running update_field].
    rewrite Hbuf, Hnext, Hjobs, Hidem, Hrun.
    assert (q_jobs q !! j_ID j = None) as Hnone.
    { rewrite Hj. eapply qinv_fresh; [|exact Hq]. lia. }
    rewrite delete_insert_id by done.
    assert (delete key (if eqs key "" then q_byIdempotency q else <[key := j_ID j]> (q_byIdempotency q))
            = q_byIdempotency q) as ->.
    { destruct (eqs key "") eqn:Hk.
      - apply eqs_true in Hk as ->. apply delete_id.
        destruct (q_byIdempotency q !! "") as [x|] eqn:Hx; [|done].
        by apply (qi_keys _ _ _ _ _ _ _ Hq) in Hx as [? _].
      - apply delete_insert_id, Hfresh. by apply eqs_false. }
    apply qinv_bump. eapply qinv_ch_ext; [|exact Hq]. exact Hchan.
Qed.
Lemma set_status_inv j j' q q' ph ph' :
  queue_inv q ph → q_jobs q !! j_ID j = Some j →
  j_ID j' = j_ID j → j_IdempotencyKey j' = j_IdempotencyKey j → j_Priority j' = j_Priority j →
  q_jobs q' = <[j_ID j := j']> (q_jobs q) → q_buffer q' = q_buffer q → q_nextID q' = q_nextID q →
  q_byIdempotency q' = q_byIdempotency q → (∀ c, chan c q' = chan c q) →
  j_Status j' ≠ JobPending →
  (j_Status j' = JobRunning → ph' = Executing (j_ID j)) →
  (j_Status j' = JobRunning ∨ j_Status j' = JobSucceeded →
     held ph = Some (j_ID j) ∧ ph' ≠ Holding (j_ID j)) →
  (ph' = ph ∨ held ph = Some (j_ID j) ∧ (ph' = Executing (j_ID j) ∨ held ph' = None)) →
  0 ≤ q_running q' ≤ (if ph' is Executing _ then 1 else 0) →
  queue_inv q' ph'.
Proof.
  intros Hq Hj H1 H2 H3 Hjobs Hb Hn Hi Hc H4 H5 H6 H7 H8. unfold queue_inv.
  rewrite Hjobs, Hb, Hn, Hi. eapply qinv_ch_ext; [exact Hc|]. by eapply qinv_set_job.
Qed.

(** The job of an entry has the id of the entry. *)
Lemma queue_inv_id q ph id j : queue_inv q ph → q_jobs q !! id = Some j → j_ID j = id.
Proof. intros Hq Hj. by apply (qi_ids _ _ _ _ _ _ _ Hq). Qed.

Lemma Cancel_inv id now q ph : queue_inv q ph → queue_inv (Cancel id now q).1 ph.
Proof.
  intros Hq. unfold Cancel. destruct (q_jobs q !! id) as [j|] eqn:Hj; [|done].
  destruct (finished _); [done|]. pose proof (queue_inv_id _ _ _ _ Hq Hj) as <-.
  eapply set_status_inv with (j := j) (q := q)
    (j' := j <| j_Status := JobCanceled |> <| j_EndedAt := now |>); try done.
  - by intros [[=]|[=]].
  - by left.
  - apply (qi_running _ _ _ _ _ _ _ Hq).
Qed.

(** Failing a job that is neither finished nor given up. *)
Lemma fail_inv j j' q ph :
  queue_inv q ph → q_jobs q !! j_ID j = Some j →
  j_ID j' = j_ID j → j_IdempotencyKey j' = j_IdempotencyKey j → j_Priority j' = j_Priority j →
  j_Status j' = JobFailed → queue_inv (dec_running (put_job j' q)) ph.
Proof.
  intros Hq Hj H1 H2 H3 H4. destruct (dec_running_frame (put_job j' q)) as (Hb & Hn & Hjb & Hi & Hc).
  pose proof (qi_running _ _ _ _ _ _ _ Hq) as Hr.
  pose proof (dec_running_bounds (put_job j' q) ltac:(cbn; lia)) as Hd. cbn [put_job q_running update_field] in Hd.
  eapply set_status_inv with (j := j) (j' := j') (q := q); try done.
  - rewrite Hjb. unfold put_job. cbn. by rewrite H1.
  - by rewrite H4.
  - by rewrite H4.
  - rewrite H4. by intros [[=]|[=]].
  - by left.
  - lia.
Qed.

Lemma FailJob_inv id reason now q ph : queue_inv q ph → queue_inv (FailJob id reason now q).1 ph.
Proof.
  intros Hq. unfold FailJob. destruct (q_jobs q !! TrimSpace id) as [j|] eqn:Hj; [|done].
  destruct (finished _); [done|]. pose proof (queue_inv_id _ _ _ _ Hq Hj) as Hid.
  apply publish_inv. eapply fail_inv with (j := j); try done. by rewrite Hid.
Qed.

Lemma publish_all_inv js q ph :
  queue_inv q ph → queue_inv (foldl (λ q j, publish j q) q js) ph.
Proof. revert q; induction js as [|j js IH]; intros q Hq; simpl; [done|]. by apply IH. Qed.

Lemma recover_fold_inv maxAge now js q ph rec :
  queue_inv q ph → NoDup (j_ID <$> js) → Forall (λ j, q_jobs q !! j_ID j = Some j) js →
  queue_inv (foldl (recover_job maxAge now) (q, rec) js).1 ph.
Proof.
  revert q rec; induction js as [|j js IH]; intros q rec Hq Hnd Hall; cbn [foldl]; [done|].
  apply NoDup_cons in Hnd as [Hnot Hnd]. apply Forall_cons in Hall as [Hj Hall].
  unfold recover_job at 2. destruct (_ || _); [by apply IH|]. destruct (_ <? maxAge); [by apply IH|].
  apply IH; [|done|].
  - eapply fail_inv with (j := j); done.
  - rewrite Forall_forall in *. intros j0 Hj0. destruct (dec_running_frame (put_job
      (j <| j_Status := JobFailed |> <| j_Error := stuck_error |> <| j_EndedAt := now |>) q))
      as (_ & _ & -> & _). cbn. rewrite lookup_insert_ne; [by apply Hall|].
    intros Heq. apply Hnot. rewrite Heq. by apply list_elem_of_fmap_2.
Qed.

Lemma RecoverStuckJobs_inv maxAge now q ph :
  queue_inv q ph → queue_inv (RecoverStuckJobs maxAge now q).1 ph.
Proof.
  intros Hq. unfold RecoverStuckJobs.
  set (age := if maxAge <=? 0 then _ else _).
  pose proof (recover_fold_inv age now (List q) q ph [] Hq) as Hf.
  destruct (foldl _ _ _) as [q' recovered]. cbn [fst]. apply publish_all_inv, Hf.
  - assert (j_ID <$> List q = (map_to_list (q_jobs q)).*1) as ->; [|apply NoDup_fst_map_to_list].
    unfold List. rewrite <-list_fmap_compose. apply list_fmap_ext. intros i [id j] Hi.
    apply list_elem_of_lookup_2, elem_of_map_to_list in Hi. by apply (queue_inv_id _ _ _ _ Hq).
  - apply Forall_forall. intros j. unfold List. rewrite list_elem_of_fmap.
    intros ([id j'] & -> & Hin). apply elem_of_map_to_list in Hin.
    cbn [snd]. by rewrite (queue_inv_id _ _ _ _ Hq Hin).
Qed.

Lemma run_op_inv o now q ph :
  queue_inv q ph → q_nextID (run_op o now q) ≤ max_int64 → queue_inv (run_op o now q) ph.
Proof.
  intros Hq. destruct o; cbn [run_op]; intros Hmax.
  - by apply Enqueue_inv.
  - by apply Cancel_inv.
  - by apply FailJob_inv.
  - by apply RecoverStuckJobs_inv.
  - by destruct fn.
  - unfold SetEmergencyStop. destruct active; [|done]. by destruct (IsZero _).
  - unfold SetFreezeUntil. by destruct (_ || _).
  - unfold freeze_status. destruct (IsZero _); [done|]. by destruct (negb _).
  - done.
  - done.
  - done.
Qed.
End preservation.

Section worker.
Context `{TimeFormat}.

Lemma receive_spec c q id q' :
  receive c q = Some (id, q') →
  ∃ rest, chan c q = id :: rest ∧ (∀ c', chan c' q' = if decide (c' = c) then rest else chan c' q) ∧
  q_buffer q' = q_buffer q ∧ q_nextID q' = q_nextID q ∧ q_jobs q' = q_jobs q ∧
  q_byIdempotency q' = q_byIdempotency q ∧ q_running q' = q_running q ∧ q_rrIndex q' = q_rrIndex q.
Proof.
  unfold receive. destruct (chan c q) as [|x rest] eqn:Hc; [done|]. intros [= <- <-]. exists rest.
  split; [done|]. split; [intros; apply chan_set_chan|apply set_chan_frame].
Qed.

Lemma receive_inv c q id q' ph :
  held ph = None → receive c q = Some (id, q') → queue_inv q ph → queue_inv q' (Holding id).
Proof.
  intros Hh (rest & Hc & Hch & Hb & Hn & Hj & Hi & Hr & _)%receive_spec Hq.
  unfold queue_inv. rewrite Hb, Hn, Hj, Hi, Hr. eapply (qinv_receive _ _ _ _ (λ c, chan c q)); done.
Qed.

Lemma poll_class_spec i q id q' :
  poll_class i q = Some (id, q') →
  ∃ q0, receive (class_at ((q_rrIndex q + i) mod 3)) q = Some (id, q0) ∧
        q' = q0 <| q_rrIndex := ((q_rrIndex q + i) mod 3 + 1) mod 3 |>.
Proof.
  unfold poll_class. destruct (receive _ q) as [[x q0]|]; [|done]. intros [= <- <-]. by exists q0.
Qed.

Lemma dec_running_zero q : 0 ≤ q_running q ≤ 1 → q_running (dec_running q) = 0.
Proof. unfold dec_running. destruct (Z.ltb_spec 0 (q_running q)); simpl; lia. Qed.

Lemma start_job_inv id now q :
  queue_inv q (Holding id) →
  match start_job id now q with
  | (q', Some _) => queue_inv q' (Executing id)
  | (q', None) => ∀ ph, held ph = None → queue_inv q' ph
  end.
Proof.
  intros Hq. destruct (qi_holding _ _ _ _ _ _ _ Hq id eq_refl) as (j & Hj & Hnr & Hns).
  pose proof (qi_running _ _ _ _ _ _ _ Hq) as Hr. simpl in Hr.
  pose proof (queue_inv_id _ _ _ _ Hq Hj) as Hid. unfold start_job. rewrite Hj.
  case_bool_decide as Hc.
  - intros ph Hph. eapply (qinv_release _ _ _ _ _ _ _ (Holding id)); [done..| | |lia|exact Hq]; by rewrite Hc.
  - apply publish_inv. subst id. eapply set_status_inv with (j := j) (q := q) (ph := Holding (j_ID j))
      (j' := j <| j_Status := JobRunning |> <| j_StartedAt := now |>); try done.
    + by right; split; [|left].
    + cbn. lia.
Qed.

Lemma finish_job_inv id err now q ph :
  held ph = None → queue_inv q (Executing id) → queue_inv (finish_job id err now q) ph.
Proof.
  intros Hph Hq. destruct (qi_executing _ _ _ _ _ _ _ Hq id eq_refl) as (j & Hj & Hnp).
  pose proof (qi_running _ _ _ _ _ _ _ Hq) as Hr. simpl in Hr.
  pose proof (queue_inv_id _ _ _ _ Hq Hj) as Hid. unfold finish_job. rewrite Hj.
  case_bool_decide as Hc.
  - destruct (dec_running_frame q) as (Hb & Hn & Hjb & Hi & Hch). unfold queue_inv. rewrite Hb, Hn, Hjb, Hi.
    eapply qinv_ch_ext; [exact Hch|].
    eapply (qinv_release _ _ _ _ _ _ _ (Executing id)); [done..| | | |exact Hq]; [by rewrite Hc..|].
    by apply dec_running_zero.
  - set (j' := finished_job err now j).
    assert (j_ID j' = j_ID j ∧ j_IdempotencyKey j' = j_IdempotencyKey j ∧ j_Priority j' = j_Priority j ∧
            (j_Status j' = JobSucceeded ∨ j_Status j' = JobFailed)) as (H1 & H2 & H3 & H4).
    { unfold j', finished_job. destruct err; cbn; auto. }
    clearbody j'. apply publish_inv. destruct (dec_running_frame (put_job j' q)) as (Hb & Hn & Hjb & Hi & Hch).
    subst id. eapply set_status_inv with (j := j) (j' := j') (q := q) (ph := Executing (j_ID j)); try done.
    + rewrite Hjb. unfold put_job. cbn. by rewrite H1.
    + destruct H4 as [-> | ->]; done.
    + destruct H4 as [-> | ->]; done.
    + intros _. split; [done|]. by intros ->.
    + by right; split; [|right].
    + rewrite dec_running_zero by (cbn; lia). destruct ph; try done; lia.
Qed.

Lemma worker_step_inv ch now s s' : worker_step ch now s = Some s' → inv s → inv s'.
Proof.
  destruct s as [q ph maxJobs delay processed done]. unfold worker_step, inv. fold (queue_inv q ph).
  intros Hs Hq. change (queue_inv (sys_queue s') (sys_phase s')).
  assert (∀ ph', held ph = None → held ph' = None → queue_inv q ph') as Hmove.
  { intros ph' Hh Hh'. exact (qinv_phase _ _ _ _ _ _ _ _ Hh Hh' Hq). }
  destruct ph, ch; cbn in Hs; try discriminate Hs.
  - injection Hs as <-. by apply (Hmove Top).
  - injection Hs as <-. by apply (Hmove Looping).
  - destruct (q_paused q); injection Hs as <-; [done|by apply (Hmove (Polling 0))].
  - destruct (_ && _); [|done]. injection Hs as <-. by apply (Hmove Stopped).
  - destruct (poll_class i q) as [[id q']|] eqn:Hp; injection Hs as <-.
    + apply poll_class_spec in Hp as (q0 & Hrecv & ->).
      pose proof (receive_inv _ _ _ _ (Polling i) eq_refl Hrecv Hq) as Hq0. exact Hq0.
    + by destruct (i <? 2); [apply (Hmove (Polling (i + 1)))|apply (Hmove Blocked)].
  - destruct (receive c q) as [[id q']|] eqn:Hrecv; [|done]. injection Hs as <-.
    exact (receive_inv _ _ _ _ Blocked eq_refl Hrecv Hq).
  - destruct done; [|done]. injection Hs as <-. by apply (Hmove Stopped).
  - pose proof (start_job_inv id now q Hq) as Hst. destruct (start_job id now q) as [q' [j|]]; injection Hs as <-.
    + exact Hst.
    + apply Hst. cbn. by destruct (_ && _).
  - injection Hs as <-. apply finish_job_inv; [|done]. cbn. by destruct (_ && _).
  - injection Hs as <-. cbn. assert (queue_inv q Delaying) as Hd by by apply Hmove.
    by destruct (0 <? processed).
  - injection Hs as <-. by apply (Hmove Top).
  - destruct (_ && _); [|done]. injection Hs as <-. by apply (Hmove Stopped).
Qed.

Lemma poll_class_next i q id q' : poll_class i q = Some (id, q') → q_nextID q' = q_nextID q.
Proof. intros (q0 & (rest & _ & _ & _ & Hn & _)%receive_spec & ->)%poll_class_spec. done. Qed.

Lemma finish_job_next id err now q : q_nextID (finish_job id err now q) = q_nextID q.
Proof.
  unfold finish_job, dec_running. destruct (q_jobs q !! id); [|done].
  destruct (bool_decide _); by destruct (0 <? _).
Qed.

Lemma worker_step_next ch now s s' :
  worker_step ch now s = Some s' → q_nextID (sys_queue s') = q_nextID (sys_queue s).
Proof.
  destruct s as [q ph maxJobs delay processed done]. unfold worker_step.
  destruct ph, ch; cbn; intros Hs; try discriminate Hs.
  - by injection Hs as <-.
  - by injection Hs as <-.
  - by destruct (q_paused q); injection Hs as <-.
  - by destruct (_ && _); [injection Hs as <-|].
  - destruct (poll_class i q) as [[id q']|] eqn:Hp; injection Hs as <-; [by apply poll_class_next in Hp|done].
  - destruct (receive c q) as [[id q']|] eqn:Hp; [|done]. injection Hs as <-.
    by apply receive_spec in Hp as (rest & _ & _ & _ & Hn & _).
  - by destruct done; [injection Hs as <-|].
  - unfold start_job in Hs. destruct (q_jobs q !! id); [destruct (bool_decide _)|]; by injection Hs as <-.
  - injection Hs as <-. apply finish_job_next.
  - injection Hs as <-. cbn. by destruct (0 <? processed).
  - by injection Hs as <-.
  - by destruct (_ && _); [injection Hs as <-|].
Qed.

Lemma recover_fold_next maxAge now js q rec :
  q_nextID (foldl (recover_job maxAge now) (q, rec) js).1 = q_nextID q.
Proof.
  revert q rec; induction js as [|j js IH]; intros q rec; cbn [foldl]; [done|].
  unfold recover_job at 2. destruct (_ || _); [by apply IH|]. destruct (_ <? maxAge); [by apply IH|].
  rewrite IH. destruct (dec_running_frame (put_job (j <| j_Status := JobFailed |>
    <| j_Error := stuck_error |> <| j_EndedAt := now |>) q)) as (_ & -> & _). done.
Qed.

Lemma run_op_next o now q : q_nextID q ≤ q_nextID (run_op o now q).
Proof.
  destruct o; cbn [run_op].
  - unfold Enqueue. destruct (existing_job _ _); [done|]. destruct (_ && negb force); [done|].
    destruct (_ && frozen now q); [done|]. pose proof (record_job_spec configPath key priority now q) as Hr.
    destruct (record_job _ _ _ _ _) as [q1 j]. destruct Hr as (_ & _ & _ & Hn & _).
    destruct (pushPending _ _ q1) as [q2|] eqn:Hp; cbn; [|lia].
    apply pushPending_Ok in Hp as (_ & _ & _ & -> & _). lia.
  - unfold Cancel. destruct (_ !! _); [|done]. by destruct (finished _).
  - unfold FailJob. destruct (_ !! _); [|done]. destruct (finished _); [done|]. cbn [fst].
    match goal with |- _ ≤ q_nextID (publish ?j (dec_running ?q')) =>
      change (q_nextID q ≤ q_nextID (dec_running q')); destruct (dec_running_frame q') as (_ & -> & _) end.
    done.
  - unfold RecoverStuckJobs. set (age := if maxAge <=? 0 then _ else _).
    pose proof (recover_fold_next age now (List q) q []) as Hf. destruct (foldl _ _ _) as [q' rec].
    cbn [fst] in *. assert (∀ js q, q_nextID (foldl (λ q j, publish j q) q js) = q_nextID q) as ->; [|lia].
    clear. induction js as [|j js IH]; intros q; simpl; [done|]. by rewrite IH.
  - by destruct fn.
  - unfold SetEmergencyStop. destruct active; [|done]. by destruct (IsZero _).
  - unfold SetFreezeUntil. by destruct (_ || _).
  - unfold freeze_status. destruct (IsZero _); [done|]. by destruct (negb _).
  - done.
  - done.
  - done.
Qed.

Lemma initial_inv buffer now : inv (initial buffer now).
Proof.
  unfold inv. cbn. split; cbn; try done; try lia.
  - intros []; simpl; lia.
  - intros []; constructor.
  - intros [] id Hin; by apply elem_of_nil in Hin.
  - intros key id. rewrite lookup_empty. split; [done|]. intros [_ (j & Hj & _)]. by rewrite lookup_empty in Hj.
Qed.

(** C9: in every reachable state, for any interleaving of calls with the steps of
    the worker: the channels are within capacity and hold distinct jobs of their
    own class that are neither running nor succeeded (they may have failed or been
    cancelled meanwhile); a pending job is in its
    channel or in the worker's hands; a running job is the one being executed;
    the counter of running jobs is 0, or 1 during an execution; jobs are stored
    under distinct ids, and every non-empty idempotency key belongs to exactly one. *)
Theorem queue_invariant (s : System) :
  reachable s → q_nextID (sys_queue s) ≤ max_int64 → inv s.
Proof.
  intros (buffer & now & Hrtc). revert s Hrtc.
  apply (rtc_ind_r (λ s, q_nextID (sys_queue s) ≤ max_int64 → inv s) (initial buffer now)).
  { intros _. apply initial_inv. }
  intros s s' _ Hstep IH Hmax.
  inversion Hstep as [o t s0|ch t s0 s1 Hw|s0]; subst.
  - apply run_op_inv; [|done]. apply IH. exact (Z.le_trans _ _ _ (run_op_next o t _) Hmax).
  - eapply worker_step_inv; [done|]. apply IH. by erewrite <-worker_step_next.
  - by apply IH.
Qed.
End worker.

(** ** Runs that can be evaluated *)

(** A clock that prints its reading as a number. *)
Definition plain_time : TimeFormat := {| FormatCompact := itoa; FormatRFC3339 := itoa |}.

Inductive move := Op (o : op) (now : Time) | Work (ch : choice) (now : Time).

Fixpoint run_moves `{TimeFormat} (ms : list move) (s : System) : option System :=
  match ms with
  | [] => Some s
  | Op o now :: ms => run_moves ms (s <| sys_queue := run_op o now (sys_queue s) |>)
  | Work ch now :: ms =>
      match worker_step ch now s with
      | Some s' => run_moves ms s'
      | None => None
      end
  end.

Lemma run_moves_steps `{TimeFormat} ms s s' : run_moves ms s = Some s' → rtc step s s'.
Proof.
  revert s; induction ms as [|[o now|ch now] ms IH]; intros s; cbn [run_moves].
  - intros [= ->]. constructor.
  - intros Hr. eapply rtc_l; [apply (step_op o now)|by apply IH].
  - destruct (worker_step ch now s) as [s1|] eqn:Hw; [|done]. intros Hr.
    eapply rtc_l; [by eapply step_worker|by apply IH].
Qed.

(** Two jobs are queued with keys; the first is executed and fails. *)
Definition two_jobs : list move :=
  [Op (OpEnqueue "a.yaml" "ka" false "low") 5; Op (OpEnqueue "b.yaml" "kb" false "high") 6;
   Work Continue 7; Work Continue 7; Work Continue 7; Work Continue 7; Work Continue 7;
   Work (Applied (Some "boom")) 8].

Definition two_jobs_run : System :=
  default (initial 4 1) (@run_moves plain_time two_jobs (initial 4 1)).

Lemma queue_invariant_witness :
  @reachable plain_time two_jobs_run ∧ q_nextID (sys_queue two_jobs_run) = 2 ∧
  @inv plain_time two_jobs_run.
Proof.
  assert (@reachable plain_time two_jobs_run) as Hr.
  { exists 4, 1. apply (@run_moves_steps plain_time two_jobs). vm_compute. reflexivity. }
  split; [exact Hr|]. split; [vm_compute; reflexivity|].
  apply (@queue_invariant plain_time two_jobs_run Hr). vm_compute. discriminate.
Defined.
