(* ===== verification/QueueSpec.v ===== *)
(** * What the job queue promises

    The outcome of [Enqueue], the fairness of the priorities, the life of a job
    in runs without operator intervention, and what [FailJob] breaks. *)

From S2P Require Import Prelude Queue QueueInvariant.

(** ** Enqueue *)

Section enqueue.
Context `{TimeFormat}.

Lemma class_of_normalize p : class_of (normalizePriority p) = class_of p.
Proof. unfold class_of. by rewrite normalizePriority_idemp. Qed.

Lemma existing_job_Some q ph key e :
  queue_inv q ph → existing_job key q = Some e →
  key ≠ "" ∧ ∃ j, e = Some j ∧ q_jobs q !! j_ID j = Some j ∧ j_IdempotencyKey j = key ∧
                  q_byIdempotency q !! key = Some (j_ID j).
Proof.
  intros Hq. unfold existing_job. destruct (eqs key "") eqn:Hk; [done|]. apply eqs_false in Hk.
  destruct (q_byIdempotency q !! key) as [id|] eqn:Hid; [|done]. intros [= <-].
  split; [done|]. pose proof (proj1 (qi_keys _ _ _ _ _ _ _ Hq _ _) Hid) as (_ & j & Hj & Hkey).
  exists j. pose proof (queue_inv_id _ _ _ _ Hq Hj) as Heq. by rewrite Heq, Hj.
Qed.

Lemma enqueue_spec configPath key force priority now q ph :
  queue_inv q ph → q_nextID q < max_int64 →
  let c := class_of priority in
  let '(q', r) := Enqueue configPath key force priority now q in
  match r with
  | Ok None => False
  | Ok (Some j) =>
      (q' = q ∧ key ≠ "" ∧ q_jobs q !! j_ID j = Some j ∧ j_IdempotencyKey j = key ∨
       q_jobs q !! j_ID j = None ∧ q_jobs q' = <[j_ID j := j]> (q_jobs q) ∧
       j_Status j = JobPending ∧ j_ConfigPath j = configPath ∧ j_IdempotencyKey j = key ∧
       (∀ c', chan c' q' = if decide (c' = c) then chan c q ++ [j_ID j] else chan c' q) ∧
       (force = true ∨ q_emergencyStop q = false ∧ frozen now q = false)) ∧
      (key ≠ "" → ∀ configPath' force' priority' now',
         Enqueue configPath' key force' priority' now' q' = (q', Ok (Some j)))
  | Err e =>
      q_jobs q' = q_jobs q ∧ q_byIdempotency q' = q_byIdempotency q ∧ (∀ c', chan c' q' = chan c' q) ∧
      q_events q' = q_events q ∧
      match e with
      | EmergencyActive => q_emergencyStop q = true ∧ force = false
      | FreezeActive _ => frozen now q = true ∧ force = false
      | QueueFull _ => length (chan c q) = q_buffer q
      end
  end.
Proof.
  intros Hq Hmax c.
  assert (∀ q j, existing_job key q = Some (Some j) → ∀ configPath' force' priority' now',
    Enqueue configPath' key force' priority' now' q = (q, Ok (Some j))) as Hagain.
  { intros q0 j He configPath' force' priority' now'. unfold Enqueue. by rewrite He. }
  unfold Enqueue. destruct (existing_job key q) as [e|] eqn:He.
  { destruct (existing_job_Some _ _ _ _ Hq He) as (Hk & j & -> & Hj & Hkey & _).
    split; [by left|]. intros _. by apply Hagain. }
  pose proof (existing_job_None _ _ He) as Hfresh.
  destruct (q_emergencyStop q && negb force) eqn:Hem.
  { apply andb_true_iff in Hem as [-> Hf%negb_true_iff]. done. }
  destruct (negb force && frozen now q) eqn:Hfr.
  { apply andb_true_iff in Hfr as [Hf%negb_true_iff ->]. done. }
  pose proof (record_job_spec configPath key priority now q) as Hrec.
  assert (q_events (record_job configPath key priority now q).1 = q_events q) as Hev.
  { unfold record_job. by destruct (eqs key ""). }
  destruct (record_job configPath key priority now q) as [q1 j].
  destruct Hrec as (Hj & Hjobs & Hbuf & Hnext & Hrun & Hchan & _ & Hidem). cbn [fst] in Hev.
  assert (class_of (j_Priority j) = c) as Hc by (rewrite Hj; apply class_of_normalize).
  assert (q_jobs q !! j_ID j = None) as Hnone.
  { rewrite Hj. eapply qinv_fresh; [|exact Hq]. done. }
  destruct (pushPending (j_ID j) (j_Priority j) q1) as [q2|err] eqn:Hpush.
  - apply pushPending_Ok in Hpush as (Hroom & Hch2 & Hb & Hn & Hjb & Hi & Hr & _).
    rewrite Hc in Hch2. split.
    + right. change (q_jobs (publish j q2)) with (q_jobs q2). rewrite Hjb, Hjobs. split_and!; try done.
      * by rewrite Hj.
      * by rewrite Hj.
      * by rewrite Hj.
      * intros c'. change (chan c' (publish j q2)) with (chan c' q2). rewrite Hch2.
        by case_decide; rewrite Hchan; [subst|].
      * destruct force; [by left|]. right. rewrite andb_true_r in Hem. done.
    + intros Hk. apply Hagain. apply eqs_false in Hk. unfold existing_job. rewrite Hk.
      change (q_byIdempotency (publish j q2)) with (q_byIdempotency q2).
      change (q_jobs (publish j q2)) with (q_jobs q2).
      by rewrite Hi, Hidem, Hk, lookup_insert_eq, Hjb, Hjobs; cbn; rewrite lookup_insert_eq.
  - cbn [q_jobs q_byIdempotency q_events update_field]. rewrite Hjobs, Hidem, Hev, delete_insert_id by done.
    split_and!; try done.
    + destruct (eqs key "") eqn:Hk.
      * apply eqs_true in Hk as ->. apply delete_id.
        destruct (q_byIdempotency q !! "") as [x|] eqn:Hx; [|done].
        by apply (qi_keys _ _ _ _ _ _ _ Hq) in Hx as [? _].
      * apply delete_insert_id, Hfresh. by apply eqs_false.
    + unfold pushPending in Hpush. rewrite Hc in Hpush.
      destruct (Nat.ltb_spec (length (chan c q1)) (q_buffer q1)) as [|Hfull]; [done|].
      injection Hpush as <-. rewrite Hchan, Hbuf in Hfull.
      pose proof (qi_capacity _ _ _ _ _ _ _ Hq c). lia.
Qed.
(** What [Enqueue] does, on every branch.  A known idempotency key returns
    its job and changes nothing; otherwise a job is created only when it is
    forced or neither the emergency stop nor a freeze is on, at the end of the
    channel of its class; an error (stop, freeze, full channel) leaves jobs,
    keys and channels as they were.  A second call with the same key returns
    the same job, whatever its other arguments. *)
Theorem enqueue_outcome configPath key force priority now q ph :
  queue_inv q ph → q_nextID q < max_int64 →
  let c := class_of priority in
  let '(q', r) := Enqueue configPath key force priority now q in
  match r with
  | Ok None => False
  | Ok (Some j) =>
      (q' = q ∧ key ≠ "" ∧ q_jobs q !! j_ID j = Some j ∧ j_IdempotencyKey j = key ∨
       q_jobs q !! j_ID j = None ∧ q_jobs q' = <[j_ID j := j]> (q_jobs q) ∧
       j_Status j = JobPending ∧ j_ConfigPath j = configPath ∧ j_IdempotencyKey j = key ∧
       (∀ c', chan c' q' = if decide (c' = c) then chan c q ++ [j_ID j] else chan c' q) ∧
       (force = true ∨ q_emergencyStop q = false ∧ frozen now q = false)) ∧
      (key ≠ "" → ∀ configPath' force' priority' now',
         Enqueue configPath' key force' priority' now' q' = (q', Ok (Some j)))
  | Err e =>
      q_jobs q' = q_jobs q ∧ q_byIdempotency q' = q_byIdempotency q ∧ (∀ c', chan c' q' = chan c' q) ∧
      q_events q' = q_events q ∧
      match e with
      | EmergencyActive => q_emergencyStop q = true ∧ force = false
      | FreezeActive _ => frozen now q = true ∧ force = false
      | QueueFull _ => length (chan c q) = q_buffer q
      end
  end.
Proof. apply enqueue_spec. Qed.
End enqueue.

(** ** Ids and events of an enqueued job *)

Lemma trim_right_cons c s : Ascii.is_space c = false → trim_right (String c s) ≠ "".
Proof. intros Hc. cbn [trim_right]. destruct (trim_right s); [by rewrite Hc|done]. Qed.

Section events.
Context `{TimeFormat}.

Lemma job_id_not_blank t n : TrimSpace (job_id t n) ≠ "".
Proof. unfold job_id, TrimSpace. by apply trim_right_cons. Qed.

Lemma Enqueue_events configPath key force priority now q :
  ∃ j, j_Status j = JobPending ∧
    (q_events (Enqueue configPath key force priority now q).1 = q_events q ∨
     q_events (Enqueue configPath key force priority now q).1 =
       q_events q ++ ((λ fn, (fn, j)) <$> q_subscribers q)).
Proof.
  exists (mkJob (job_id now (q_nextID q + 1)) key configPath (normalizePriority priority) JobPending "" now 0 0).
  split; [done|]. unfold Enqueue. destruct (existing_job _ _); [by left|].
  destruct (_ && negb force); [by left|]. destruct (_ && frozen now q); [by left|].
  unfold record_job. destruct (eqs key ""); cbn [j_ID j_Priority]; unfold pushPending;
    (destruct (_ <? _)%nat; [right|by left]); destruct (class_of _); done.
Qed.

Lemma Enqueue_next configPath key force priority now q :
  q_nextID (Enqueue configPath key force priority now q).1 ≤ q_nextID q + 1.
Proof.
  unfold Enqueue. destruct (existing_job _ _); [cbn; lia|]. destruct (_ && negb force); [cbn; lia|].
  destruct (_ && frozen now q); [cbn; lia|].
  unfold record_job. destruct (eqs key ""); cbn [j_ID j_Priority]; unfold pushPending;
    (destruct (_ <? _)%nat; [|by cbn]); destruct (class_of _); by cbn.
Qed.

(** The job of a successful [Enqueue] has a proper id. *)
Lemma Enqueue_job_id configPath key force priority now q ph j :
  queue_inv q ph → q_nextID q < max_int64 →
  (Enqueue configPath key force priority now q).2 = Ok (Some j) → TrimSpace (j_ID j) ≠ "".
Proof.
  intros Hq Hmax Hr. pose proof (enqueue_spec configPath key force priority now q ph Hq Hmax) as Hs.
  cbn zeta in Hs.
  assert (queue_inv (Enqueue configPath key force priority now q).1 ph) as Hq'.
  { apply Enqueue_inv; [done|].
    pose proof (Enqueue_next configPath key force priority now q). lia. }
  destruct (Enqueue configPath key force priority now q) as [q' r]. cbn [fst snd] in *. subst r.
  assert (∃ t n, j_ID j = job_id t n) as (t & n & ->); [|apply job_id_not_blank].
  destruct Hs as [[(-> & _ & Hj & _)|(_ & Hj & _)] _].
  - destruct (qi_ids _ _ _ _ _ _ _ Hq _ _ Hj) as [_ (t & n & ? & _)]. eauto.
  - assert (q_jobs q' !! j_ID j = Some j) as Hj' by (by rewrite Hj, lookup_insert_eq).
    destruct (qi_ids _ _ _ _ _ _ _ Hq' _ _ Hj') as [_ (t & n & ? & _)]. eauto.
Qed.

End events.

(** ** Fairness of the priorities *)

Section fairness.
Context `{TimeFormat}.

(** A schedule: calls of the other goroutines and polls of the worker, which
    take a job when there is one. *)
Inductive event := Call (o : op) (now : Time) | Poll.

Fixpoint run_events (evs : list event) (q : Queue) : Queue * list string :=
  match evs with
  | [] => (q, [])
  | Call o now :: evs => run_events evs (run_op o now q)
  | Poll :: evs =>
      match poll q with
      | Some (id, q) => let '(q, ids) := run_events evs q in (q, id :: ids)
      | None => run_events evs q
      end
  end.

Fixpoint polls (evs : list event) : nat :=
  match evs with
  | [] => 0
  | Call _ _ :: evs => polls evs
  | Poll :: evs => S (polls evs)
  end.

(** How far class [c] is from its turn. *)
Definition distance (c : class) (q : Queue) : Z := (index_of c - q_rrIndex q) mod 3.

Lemma distance_bounds c q : 0 ≤ distance c q ≤ 2.
Proof. unfold distance. pose proof (Z.mod_pos_bound (index_of c - q_rrIndex q) 3). lia. Qed.
Lemma poll_spec c q :
  0 ≤ q_rrIndex q < 3 → chan c q ≠ [] →
  ∃ id q', poll q = Some (id, q') ∧ 0 ≤ q_rrIndex q' < 3 ∧
    ((∃ rest, chan c q = id :: rest ∧ chan c q' = rest) ∨
     (chan c q' = chan c q ∧ distance c q' < distance c q)).
Proof.
  intros Hr Hne. destruct q as [? ? ? ? h n l ? ? ? ? ? ? ? ? ? rr ? ? ?]. cbn in Hr.
  assert (rr = 0 ∨ rr = 1 ∨ rr = 2) as [-> | [-> | ->]] by lia;
    destruct c; cbn in Hne; destruct h as [|x h], n as [|y n], l as [|z l]; try done;
    eexists _, _; (split; [reflexivity|]); (split; [by vm_compute|]);
    first [left; eexists; split; reflexivity | right; split; [reflexivity|by vm_compute]].
Qed.

(** Calls keep the turn, and only add at the end of the channels. *)
Lemma run_op_chan o now q :
  q_rrIndex (run_op o now q) = q_rrIndex q ∧
  ∀ c, ∃ more, chan c (run_op o now q) = chan c q ++ more.
Proof.
  assert (∀ q', q_rrIndex q' = q_rrIndex q → (∀ c, chan c q' = chan c q) →
    q_rrIndex q' = q_rrIndex q ∧ ∀ c, ∃ more, chan c q' = chan c q ++ more) as Hsame.
  { intros q' Hr Hc. split; [done|]. intros c. exists []. by rewrite app_nil_r. }
  assert (∀ j q', q_rrIndex (dec_running (put_job j q')) = q_rrIndex q' ∧
    ∀ c, chan c (dec_running (put_job j q')) = chan c q') as Hdec.
  { intros j q'. unfold dec_running. destruct (_ <? _); split; try done; by intros []. }
  destruct o; cbn [run_op].
  - unfold Enqueue. destruct (existing_job _ _); [by apply Hsame|].
    destruct (_ && negb force); [by apply Hsame|]. destruct (_ && frozen now q); [by apply Hsame|].
    pose proof (record_job_spec configPath key priority now q) as Hrec.
    destruct (record_job _ _ _ _ _) as [q1 j].
    destruct Hrec as (_ & _ & _ & _ & _ & Hchan & Hrr & _).
    destruct (pushPending _ _ q1) as [q2|] eqn:Hp; cbn [fst].
    + apply pushPending_Ok in Hp as (_ & Hch2 & _ & _ & _ & _ & _ & Hrr2). split; [exact (eq_trans Hrr2 Hrr)|].
      intros c. change (chan c (publish j q2)) with (chan c q2). rewrite Hch2.
      case_decide; rewrite Hchan; [by eexists|]. exists []. by rewrite app_nil_r.
    + apply Hsame; [exact Hrr|]. intros c. rewrite <-Hchan. by destruct c.
  - unfold Cancel. destruct (_ !! _); [|by apply Hsame]. destruct (finished _); [by apply Hsame|].
    apply Hsame; [done|by intros []].
  - unfold FailJob. destruct (_ !! _); [|by apply Hsame]. destruct (finished _); [by apply Hsame|].
    cbn [fst]. match goal with |- context [publish ?j (dec_running (put_job ?j' ?q'))] =>
      destruct (Hdec j' q') as [H1 H2]; by apply (Hsame (publish j (dec_running (put_job j' q')))) end.
  - unfold RecoverStuckJobs. set (age := if maxAge <=? 0 then _ else _).
    assert (∀ js q rec, q_rrIndex (foldl (recover_job age now) (q, rec) js).1 = q_rrIndex q ∧
      ∀ c, chan c (foldl (recover_job age now) (q, rec) js).1 = chan c q) as Hf.
    { induction js as [|j js IH]; intros q0 rec; cbn [foldl]; [done|]. unfold recover_job at 2 4.
      destruct (_ || _); [apply IH|]. destruct (_ <? age); [apply IH|].
      match goal with |- context [dec_running (put_job ?j' q0)] => destruct (Hdec j' q0) as [H1 H2] end.
      destruct (IH (dec_running (put_job (j <| j_Status := JobFailed |> <| j_Error := stuck_error |>
        <| j_EndedAt := now |>) q0)) (rec ++ [j <| j_Status := JobFailed |> <| j_Error := stuck_error |>
        <| j_EndedAt := now |>])) as [H3 H4]. split; [exact (eq_trans H3 H1)|].
      intros c. exact (eq_trans (H4 c) (H2 c)). }
    destruct (Hf (List q) q []) as [H1 H2]. destruct (foldl _ _ _) as [q' rec]. cbn [fst] in *.
    assert (∀ js q, q_rrIndex (foldl (λ q j, publish j q) q js) = q_rrIndex q ∧
      ∀ c, chan c (foldl (λ q j, publish j q) q js) = chan c q) as Hp.
    { clear. induction js as [|j js IH]; intros q; [done|]. cbn [foldl]. destruct (IH (publish j q)) as [H3 H4].
      split; [exact H3|]. intros c. rewrite H4. by destruct c. }
    destruct (Hp rec q') as [H3 H4]. apply Hsame; [congruence|]. intros c. by rewrite H4.
  - apply Hsame; destruct fn; [done..|by intros []|done].
  - unfold SetEmergencyStop. destruct active; [destruct (IsZero _)|]; apply Hsame; try done; by intros [].
  - unfold SetFreezeUntil. destruct (_ || _); apply Hsame; try done; by intros [].
  - unfold freeze_status. destruct (IsZero _); [by apply Hsame|].
    destruct (negb _); apply Hsame; try done; by intros [].
  - apply Hsame; [done|by intros []].
  - apply Hsame; [done|by intros []].
  - apply Hsame; [done|by intros []].
Qed.

Lemma fair_go evs q c k id :
  0 ≤ q_rrIndex q < 3 → chan c q !! k = Some id →
  3 * Z.of_nat k + distance c q + 1 ≤ Z.of_nat (polls evs) → id ∈ (run_events evs q).2.
Proof.
  revert q k; induction evs as [|[o now|] evs IH]; intros q k Hr Hk Hn; cbn [polls run_events] in *.
  - pose proof (distance_bounds c q). lia.
  - destruct (run_op_chan o now q) as [Hrr Hc]. destruct (Hc c) as [more Hmore].
    apply (IH _ k); [by rewrite Hrr|by rewrite Hmore; apply lookup_app_l_Some|].
    unfold distance in *. by rewrite Hrr.
  - assert (chan c q ≠ []) as Hne by (by intros Heq; rewrite Heq in Hk).
    destruct (poll_spec c q Hr Hne) as (x & q' & -> & Hr' & Hcase).
    specialize (IH q'). destruct (run_events evs q') as [qf ids]. cbn [snd] in *.
    pose proof (distance_bounds c q'). pose proof (distance_bounds c q).
    destruct Hcase as [(rest & Hc & Hc')|[Hc Hd]].
    + rewrite Hc in Hk. destruct k as [|k]; [injection Hk as ->; left|]. right.
      apply (IH k); [done|by rewrite Hc'|lia].
    + right. apply (IH k); [done|by rewrite Hc|lia].
Qed.

(** C10: no class starves: a job that has [k] others before it in its channel is
    taken within [3 * (k + 1)] polls, whatever is enqueued, cancelled, failed or
    reconfigured in between and however full the other classes are. *)
Theorem nextPending_fair evs q c k id :
  0 ≤ q_rrIndex q < 3 → chan c q !! k = Some id →
  3 * (Z.of_nat k + 1) ≤ Z.of_nat (polls evs) → id ∈ (run_events evs q).2.
Proof.
  intros Hr Hk Hn. apply (fair_go evs q c k); [done..|]. pose proof (distance_bounds c q). lia.
Qed.
End fairness.

(** ** The life of a job without operator intervention *)

Section life.
Context `{TimeFormat}.

Inductive life : JobStatus → JobStatus → Prop :=
  | life_same s : life s s
  | life_start : life JobPending JobRunning
  | life_succeed : life JobRunning JobSucceeded
  | life_fail : life JobRunning JobFailed
  | life_cancel_pending : life JobPending JobCanceled
  | life_cancel_running : life JobRunning JobCanceled.

(** Calls other than [FailJob] and [RecoverStuckJobs]. *)
Definition calm (o : op) : Prop :=
  match o with OpFail _ _ | OpRecover _ => False | _ => True end.

Inductive calm_step : System → System → Prop :=
  | calm_op o now s : calm o → calm_step s (s <| sys_queue := run_op o now (sys_queue s) |>)
  | calm_worker ch now s s' : worker_step ch now s = Some s' → calm_step s s'
  | calm_cancel s : calm_step s (s <| sys_done := true |>).

Lemma calm_step_step s s' : calm_step s s' → step s s'.
Proof. destruct 1; by econstructor. Qed.

Definition calm_reachable (s : System) : Prop :=
  ∃ buffer now, rtc calm_step (initial buffer now) s.

Definition executing (s : System) : bool :=
  match sys_phase s with Executing _ => true | _ => false end.

(** Finished jobs have left the channels and the worker, and the counter is
    exactly the number of executions. *)
Record calm_inv (q : Queue) (ph : phase) : Prop := {
  ci_inv : queue_inv q ph;
  ci_finished id j : q_jobs q !! id = Some j → finished (j_Status j) = true →
    (∀ c, id ∉ chan c q) ∧ held ph ≠ Some id;
  ci_running : q_running q = Z.b2z (match ph with Executing _ => true | _ => false end);
}.

(** What becomes of the jobs of [q] in [q']. *)
Definition jobs_live (q q' : Queue) : Prop :=
  ∀ id j, q_jobs q !! id = Some j → ∃ j', q_jobs q' !! id = Some j' ∧
    life (j_Status j) (j_Status j') ∧ j_ConfigPath j' = j_ConfigPath j ∧
    j_IdempotencyKey j' = j_IdempotencyKey j ∧ j_Priority j' = j_Priority j.

Lemma jobs_live_refl q q' : q_jobs q' = q_jobs q → jobs_live q q'.
Proof. intros Heq id j Hj. exists j. rewrite Heq. by repeat constructor. Qed.

Lemma jobs_live_set q q' id j j' :
  q_jobs q !! id = Some j → q_jobs q' = <[id := j']> (q_jobs q) →
  life (j_Status j) (j_Status j') → j_ConfigPath j' = j_ConfigPath j →
  j_IdempotencyKey j' = j_IdempotencyKey j → j_Priority j' = j_Priority j → jobs_live q q'.
Proof.
  intros Hj Heq ???? x jx Hx. rewrite Heq. destruct (decide (x = id)) as [->|Hne].
  - rewrite lookup_insert_eq. exists j'. rewrite Hj in Hx. injection Hx as <-. done.
  - rewrite lookup_insert_ne by done. exists jx. by repeat constructor.
Qed.

(** The calls that leave jobs, channels and counter alone. *)
Lemma calm_frame q q' ph :
  q_jobs q' = q_jobs q → (∀ c, chan c q' = chan c q) → q_running q' = q_running q →
  calm_inv q ph → queue_inv q' ph → calm_inv q' ph ∧ jobs_live q q'.
Proof.
  intros Hj Hc Hr [_ Hf Hrun] Hq'. split; [split; [done| |by rewrite Hr]|by apply jobs_live_refl].
  intros id j. rewrite Hj. intros Hid Hfin. destruct (Hf id j Hid Hfin) as [H1 H2].
  split; [|done]. intros c. by rewrite Hc.
Qed.

Lemma Enqueue_calm configPath key force priority now q ph :
  calm_inv q ph → q_nextID (Enqueue configPath key force priority now q).1 ≤ max_int64 →
  q_nextID q < max_int64 →
  calm_inv (Enqueue configPath key force priority now q).1 ph ∧
  jobs_live q (Enqueue configPath key force priority now q).1.
Proof.
  intros Hci Hmax Hlt. pose proof (ci_inv _ _ Hci) as Hq.
  pose proof (Enqueue_inv configPath key force priority now q ph Hq Hmax) as Hq'.
  pose proof (enqueue_spec configPath key force priority now q ph Hq Hlt) as Hspec. cbn zeta in Hspec.
  assert (q_running (Enqueue configPath key force priority now q).1 = q_running q) as Hrun.
  { unfold Enqueue. destruct (existing_job _ _); [done|]. destruct (_ && negb force); [done|].
    destruct (_ && frozen now q); [done|]. pose proof (record_job_spec configPath key priority now q) as Hr.
    destruct (record_job _ _ _ _ _) as [q1 j]. destruct Hr as (_ & _ & _ & _ & Hr & _).
    destruct (pushPending _ _ q1) as [q2|] eqn:Hp; [|exact Hr].
    apply pushPending_Ok in Hp as (_ & _ & _ & _ & _ & _ & Hr2 & _). exact (eq_trans Hr2 Hr). }
  destruct (Enqueue configPath key force priority now q) as [q' [[j|]|err]]; cbn [fst] in *.
  - destruct Hspec as [[(-> & _)|(Hnone & Hjobs & Hst & _ & _ & Hch & _)] _];
      [split; [done|by apply jobs_live_refl]|].
    split; [split; [done| |rewrite Hrun; apply (ci_running _ _ Hci)]|].
    + intros id jx. rewrite Hjobs, lookup_insert_Some. intros [[<- <-]|[Hne Hjx]] Hfin; [by rewrite Hst in Hfin|].
      destruct (ci_finished _ _ Hci id jx Hjx Hfin) as [H1 H2]. split; [|done].
      intros c. rewrite Hch. case_decide; [|done]. subst c.
      rewrite elem_of_app, list_elem_of_singleton. intros [Hx|Hx]; [by eapply H1|congruence].
    + intros id jx Hjx. exists jx. rewrite Hjobs, lookup_insert_ne by congruence. by repeat constructor.
  - done.
  - destruct Hspec as (Hj & _ & Hc & _). by apply calm_frame.
Qed.

Lemma run_op_calm o now q ph :
  calm o → calm_inv q ph → q_nextID (run_op o now q) ≤ max_int64 → q_nextID q < max_int64 →
  calm_inv (run_op o now q) ph ∧ jobs_live q (run_op o now q).
Proof.
  intros Ho Hci Hmax Hlt. pose proof (run_op_inv o now q ph (ci_inv _ _ Hci) Hmax) as Hq'.
  destruct o; cbn [run_op] in *; try done.
  - by apply Enqueue_calm.
  - unfold Cancel in *. destruct (q_jobs q !! id) as [j|] eqn:Hj; [|by apply calm_frame].
    destruct (finished (j_Status j)) eqn:Hfin; [by apply calm_frame|]. cbn [fst] in *.
    pose proof (queue_inv_id _ _ _ _ (ci_inv _ _ Hci) Hj) as Hid.
    set (j' := j <| j_Status := JobCanceled |> <| j_EndedAt := now |>) in *.
    assert (q_jobs (publish j' (put_job j' q)) = <[id := j']> (q_jobs q)) as Hjobs by (by rewrite <-Hid).
    split; [split; [done| |apply (ci_running _ _ Hci)]|].
    + intros x jx. rewrite Hjobs, lookup_insert_Some. intros [[<- <-]|[Hne Hjx]]; [done|].
      intros Hfx. destruct (ci_finished _ _ Hci x jx Hjx Hfx) as [H1 H2]. split; [intros c; specialize (H1 c); by destruct c|done].
    + eapply jobs_live_set; [exact Hj|exact Hjobs| |done..]. cbn.
      destruct (j_Status j); try done; constructor.
  - apply calm_frame; destruct fn; try done; by intros [].
  - unfold SetEmergencyStop in *. destruct active; [destruct (IsZero _)|]; apply calm_frame; try done; by intros [].
  - unfold SetFreezeUntil in *. destruct (_ || _); apply calm_frame; try done; by intros [].
  - unfold freeze_status in *. destruct (IsZero _); [by apply calm_frame|].
    destruct (negb _); apply calm_frame; try done; by intros [].
  - apply calm_frame; try done; by intros [].
  - apply calm_frame; try done; by intros [].
  - apply calm_frame; try done; by intros [].
Qed.
Lemma calm_phase q ph ph' :
  held ph = None → held ph' = None → calm_inv q ph → calm_inv q ph' ∧ jobs_live q q.
Proof.
  intros Hh Hh' [Hq Hf Hr]. split; [|by apply jobs_live_refl]. split.
  - exact (qinv_phase _ _ _ _ _ _ _ _ Hh Hh' Hq).
  - intros id j Hj Hfin. rewrite Hh'. split; [|done]. by apply (Hf id j Hj Hfin).
  - destruct ph, ph'; done.
Qed.

Lemma receive_calm c q id q' ph :
  held ph = None → receive c q = Some (id, q') → calm_inv q ph →
  calm_inv q' (Holding id) ∧ jobs_live q q'.
Proof.
  intros Hh Hrecv [Hq Hf Hr]. pose proof (receive_inv _ _ _ _ _ Hh Hrecv Hq) as Hq'.
  apply receive_spec in Hrecv as (rest & Hc & Hch & _ & _ & Hj & _ & Hrun & _).
  split; [|by apply jobs_live_refl]. split; [done| |].
  - intros x j. rewrite Hj. intros Hx Hfin. destruct (Hf x j Hx Hfin) as [Hno _]. split.
    + intros c'. rewrite Hch. case_decide; [|by apply Hno]. intros Hin. apply (Hno c). rewrite Hc. by right.
    + intros [= ->]. apply (Hno c). rewrite Hc. left.
  - rewrite Hrun, Hr. by destruct ph.
Qed.

Lemma start_job_calm id now q :
  calm_inv q (Holding id) →
  match start_job id now q with
  | (q', Some _) => calm_inv q' (Executing id) ∧ jobs_live q q'
  | (q', None) => ∀ ph, held ph = None → calm_inv q' ph ∧ jobs_live q q'
  end.
Proof.
  intros [Hq Hf Hr]. pose proof (start_job_inv id now q Hq) as Hq'. unfold start_job in *.
  destruct (qi_holding _ _ _ _ _ _ _ Hq id eq_refl) as (j & Hj & Hnr & Hns). rewrite Hj in *.
  pose proof (queue_inv_id _ _ _ _ Hq Hj) as Hid.
  case_bool_decide as Hc.
  - intros ph Hph. split; [split; [by apply Hq'| |]|by apply jobs_live_refl].
    + intros x jx Hx Hfin. rewrite Hph. split; [|done]. by apply (Hf x jx Hx Hfin).
    + rewrite Hr. by destruct ph.
  - set (j' := j <| j_Status := JobRunning |> <| j_StartedAt := now |>) in *.
    assert (j_Status j = JobPending) as Hst.
    { assert (finished (j_Status j) = false) as Hfin.
      { destruct (finished (j_Status j)) eqn:Hfin; [|done]. by destruct (Hf id j Hj Hfin). }
      destruct (j_Status j); done. }
    assert (q_jobs (publish j' (put_job j' q <| q_running := q_running q + 1 |>)) = <[id := j']> (q_jobs q))
      as Hjobs by (by rewrite <-Hid).
    split; [split; [done| |cbn; rewrite Hr; done]|].
    + intros x jx. rewrite Hjobs, lookup_insert_Some. intros [[<- <-]|[Hne Hjx]]; [done|].
      intros Hfx. destruct (Hf x jx Hjx Hfx) as [H1 H2].
      split; [intros c; specialize (H1 c); by destruct c|exact H2].
    + eapply jobs_live_set; [exact Hj|exact Hjobs| |done..]. rewrite Hst. constructor.
Qed.

Lemma finish_job_calm id err now q ph :
  held ph = None → calm_inv q (Executing id) →
  calm_inv (finish_job id err now q) ph ∧ jobs_live q (finish_job id err now q).
Proof.
  intros Hph [Hq Hf Hr]. pose proof (finish_job_inv id err now q ph Hph Hq) as Hq'. unfold finish_job in *.
  destruct (qi_executing _ _ _ _ _ _ _ Hq id eq_refl) as (j & Hj & Hnp). rewrite Hj in *.
  pose proof (queue_inv_id _ _ _ _ Hq Hj) as Hid.
  assert (finished (j_Status j) = false) as Hfin.
  { destruct (finished (j_Status j)) eqn:Hfin; [|done]. by destruct (Hf id j Hj Hfin). }
  assert (∀ q', q_running q' = 1 → q_running (dec_running q') =
    Z.b2z (match ph with Executing _ => true | _ => false end)) as Hzero.
  { intros q' Hq1. rewrite dec_running_zero by lia. by destruct ph. }
  case_bool_decide as Hc.
  - destruct (dec_running_frame q) as (_ & _ & Hjb & _ & Hch).
    split; [split; [done| |by apply Hzero]|by apply jobs_live_refl].
    intros x jx. rewrite Hjb, Hph. intros Hx Hfx. split; [|done]. intros c. rewrite Hch.
    by apply (Hf x jx Hx Hfx).
  - set (j' := finished_job err now j) in *.
    destruct (dec_running_frame (put_job j' q)) as (_ & _ & Hjb & _ & Hch).
    assert (j_ID j' = id ∧ j_IdempotencyKey j' = j_IdempotencyKey j ∧ j_Priority j' = j_Priority j ∧
      j_ConfigPath j' = j_ConfigPath j ∧ (j_Status j' = JobSucceeded ∨ j_Status j' = JobFailed))
      as (H1 & H2 & H3 & H4 & H5).
    { unfold j', finished_job. destruct err; cbn; split_and!; auto. }
    assert (q_jobs (publish j' (dec_running (put_job j' q))) = <[id := j']> (q_jobs q)) as Hjobs.
    { change (q_jobs (dec_running (put_job j' q)) = <[id := j']> (q_jobs q)). rewrite Hjb.
      change (<[j_ID j' := j']> (q_jobs q) = <[id := j']> (q_jobs q)). by rewrite H1. }
    assert (∀ c, chan c (publish j' (dec_running (put_job j' q))) = chan c q) as Hchan.
    { intros c. change (chan c (dec_running (put_job j' q)) = chan c q). rewrite Hch. by destruct c. }
    split; [split; [done| |by apply Hzero]|].
    + intros x jx. rewrite Hjobs, Hph. intros Hx Hfx. split; [|done]. intros c. rewrite Hchan.
      apply lookup_insert_Some in Hx as [[<- <-]|[Hne Hx]]; [|by apply (Hf x jx Hx Hfx)].
      intros Hin. by destruct (qi_waiting _ _ _ _ _ _ _ Hq c id Hin).
    + eapply jobs_live_set; [exact Hj|exact Hjobs| |done..].
      destruct (j_Status j), (j_Status j'); try done; destruct H5; try done; constructor.
Qed.

Lemma worker_step_calm ch now s s' :
  worker_step ch now s = Some s' → calm_inv (sys_queue s) (sys_phase s) →
  calm_inv (sys_queue s') (sys_phase s') ∧ jobs_live (sys_queue s) (sys_queue s').
Proof.
  destruct s as [q ph maxJobs delay processed done']. unfold worker_step. cbn [sys_queue sys_phase].
  intros Hs Hq.
  assert (∀ ph', held ph = None → held ph' = None → calm_inv q ph' ∧ jobs_live q q) as Hmove.
  { intros ph' Hh Hh'. exact (calm_phase q ph ph' Hh Hh' Hq). }
  destruct ph, ch; cbn in Hs; try discriminate Hs.
  - injection Hs as <-. cbn. eapply calm_frame with (q := q); try done; [by apply (Hmove Top)|].
    by apply (Hmove Top).
  - injection Hs as <-. by apply (Hmove Looping).
  - destruct (q_paused q); injection Hs as <-; [by apply (Hmove Looping)|by apply (Hmove (Polling 0))].
  - destruct (_ && _); [|done]. injection Hs as <-. by apply (Hmove Stopped).
  - destruct (poll_class i q) as [[id q']|] eqn:Hp; injection Hs as <-.
    + apply poll_class_spec in Hp as (q0 & Hrecv & ->).
      destruct (receive_calm _ _ _ _ (Polling i) eq_refl Hrecv Hq) as [[? ? ?] Hlive]. by split.
    + by destruct (i <? 2); [apply (Hmove (Polling (i + 1)))|apply (Hmove Blocked)].
  - destruct (receive c q) as [[id q']|] eqn:Hrecv; [|done]. injection Hs as <-.
    exact (receive_calm _ _ _ _ Blocked eq_refl Hrecv Hq).
  - destruct done'; [|done]. injection Hs as <-. by apply (Hmove Stopped).
  - pose proof (start_job_calm id now q Hq) as Hst. destruct (start_job id now q) as [q' [j|]]; injection Hs as <-.
    + exact Hst.
    + apply Hst. cbn. by destruct (_ && _).
  - injection Hs as <-. cbn. apply finish_job_calm; [|done]. by destruct (_ && _).
  - injection Hs as <-. cbn. destruct (Hmove Delaying eq_refl eq_refl) as [Hd _].
    destruct (0 <? processed); [|by apply Hmove]. eapply calm_frame with (q := q); try done; apply Hd.
  - injection Hs as <-. by apply (Hmove Top).
  - destruct (_ && _); [|done]. injection Hs as <-. by apply (Hmove Stopped).
Qed.

Lemma calm_step_inv s s' :
  calm_step s s' → q_nextID (sys_queue s') < max_int64 →
  calm_inv (sys_queue s) (sys_phase s) →
  calm_inv (sys_queue s') (sys_phase s') ∧ jobs_live (sys_queue s) (sys_queue s').
Proof.
  intros Hstep Hmax Hci. destruct Hstep as [o now s Ho|ch now s s' Hw|s].
  - cbn in *. apply run_op_calm; [done..|lia|]. pose proof (run_op_next o now (sys_queue s)). lia.
  - by eapply worker_step_calm.
  - split; [exact Hci|by apply jobs_live_refl].
Qed.

Lemma calm_step_next s s' : calm_step s s' → q_nextID (sys_queue s) ≤ q_nextID (sys_queue s').
Proof.
  intros [o now s0 _|ch now s0 s1 Hw|s0]; cbn.
  - apply run_op_next.
  - apply worker_step_next in Hw. lia.
  - lia.
Qed.

Lemma calm_reachable_inv s :
  calm_reachable s → q_nextID (sys_queue s) < max_int64 → calm_inv (sys_queue s) (sys_phase s).
Proof.
  intros (buffer & now & Hrtc). revert s Hrtc.
  apply (rtc_ind_r (λ s, q_nextID (sys_queue s) < max_int64 → calm_inv (sys_queue s) (sys_phase s))
           (initial buffer now)).
  - intros _. split; [apply initial_inv|done|done].
  - intros s s' _ Hstep IH Hmax. apply (calm_step_inv s s' Hstep Hmax). apply IH.
    pose proof (calm_step_next _ _ Hstep). lia.
Qed.

(** C11: in a run without [FailJob] and [RecoverStuckJobs], every step keeps each
    job and moves it only along pending, running, succeeded or failed, or from
    pending or running to cancelled: finished and cancelled jobs never change
    status again.  The counter of running jobs is exactly the number of
    executions, so that a successful [SafeDrain] means that none is going on,
    and finished jobs are neither queued nor executed. *)
Theorem calm_job_life s s' :
  calm_reachable s → calm_step s s' → q_nextID (sys_queue s') < max_int64 →
  jobs_live (sys_queue s) (sys_queue s') ∧
  q_running (sys_queue s) = Z.b2z (executing s) ∧
  (∀ timeout deadline now st,
     drain_poll timeout deadline [(controlStatusLocked (sys_queue s), now)] = Some (Ok st) →
     executing s = false) ∧
  (∀ id j, q_jobs (sys_queue s) !! id = Some j → finished (j_Status j) = true →
     (∀ c, id ∉ chan c (sys_queue s)) ∧ held (sys_phase s) ≠ Some id).
Proof.
  intros Hreach Hstep Hmax. pose proof (calm_step_next _ _ Hstep) as Hn.
  pose proof (calm_reachable_inv s Hreach ltac:(lia)) as Hci.
  destruct (calm_step_inv s s' Hstep Hmax Hci) as [_ Hlive].
  pose proof (ci_running _ _ Hci) as Hr. change (q_running (sys_queue s) = Z.b2z (executing s)) in Hr.
  split_and!; [done|done| |apply Hci].
  intros timeout deadline now st. cbn. rewrite Hr. destruct (executing s); [|done]. cbn.
  by destruct (_ && _).
Qed.
End life.

(** ** Concrete runs *)

Lemma enqueue_outcome_witness :
  ∃ q' j, @Enqueue plain_time "site.yaml" "k1" false "HIGH" 9 (NewQueue 2 1) = (q', Ok (Some j)) ∧
    j_ID j = "job-9-1" ∧ chan High q' = ["job-9-1"] ∧
    @Enqueue plain_time "other.yaml" "k1" false "low" 10 q' = (q', Ok (Some j)).
Proof.
  pose proof (@enqueue_outcome plain_time "site.yaml" "k1" false "HIGH" 9 (NewQueue 2 1) NotStarted
    (initial_inv 2 1) ltac:(vm_compute; reflexivity)) as Ho.
  cbn zeta in Ho. destruct (@Enqueue plain_time "site.yaml" "k1" false "HIGH" 9 (NewQueue 2 1)) as [q' r] eqn:He.
  assert (r = (@Enqueue plain_time "site.yaml" "k1" false "HIGH" 9 (NewQueue 2 1)).2) as Hr by (by rewrite He).
  assert (q' = (@Enqueue plain_time "site.yaml" "k1" false "HIGH" 9 (NewQueue 2 1)).1) as Hq by (by rewrite He).
  vm_compute in Hr. subst r. exists q', (mkJob "job-9-1" "k1" "site.yaml" "high" JobPending "" 9 0 0).
  destruct Ho as [_ Hagain]. split_and!; [done|done|by rewrite Hq; vm_compute|].
  apply Hagain. discriminate.
Defined.

(** A low job behind a high one, while more high ones arrive. *)
Definition low_last : Queue :=
  (@run_events plain_time
    [Call (OpEnqueue "a" "" false "high") 1; Call (OpEnqueue "b" "" false "low") 2] (NewQueue 8 0)).1.

Definition busy : list event :=
  [Poll; Call (OpEnqueue "c" "" false "high") 3; Poll; Call (OpEnqueue "d" "" false "high") 4; Poll].

Lemma nextPending_fair_witness :
  chan Low low_last !! 0%nat = Some "job-2-2" ∧
  "job-2-2" ∈ (@run_events plain_time busy low_last).2.
Proof.
  split; [vm_compute; reflexivity|].
  apply (@nextPending_fair plain_time busy low_last Low 0 "job-2-2");
    [vm_compute; split; [discriminate|reflexivity]|vm_compute; reflexivity|vm_compute; discriminate].
Defined.

Definition first_call : System := (initial 4 1) <| sys_queue :=
  @run_op plain_time (OpEnqueue "a.yaml" "" false "") 2 (NewQueue 4 1) |>.

Lemma calm_job_life_witness :
  jobs_live (NewQueue 4 1) (sys_queue first_call) ∧ q_running (NewQueue 4 1) = 0.
Proof.
  destruct (@calm_job_life plain_time (initial 4 1) first_call) as (H1 & H2 & _).
  - exists 4, 1. constructor.
  - apply (@calm_op plain_time (OpEnqueue "a.yaml" "" false "") 2 (initial 4 1)). exact I.
  - vm_compute. reflexivity.
  - split; [exact H1|exact H2].
Defined.

(** ** What [FailJob] breaks

    Two jobs are queued and the first is being executed when the operator fails
    the second, which is still in its channel. *)
Definition job_a := "job-1-1".
Definition job_b := "job-2-2".

Definition fail_pending : list move :=
  [Op (OpEnqueue "a.yaml" "" false "") 1; Op (OpEnqueue "b.yaml" "" false "") 2;
   Work Continue 3; Work Continue 3; Work Continue 3; Work Continue 3; Work Continue 3; Work Continue 3;
   Op (OpFail job_b "bad change") 4].

Definition run_second : list move :=
  [Work (Applied None) 5;
   Work Continue 6; Work Continue 6; Work Continue 6; Work Continue 6; Work Continue 6; Work (Applied None) 7].

Definition status_in (id : string) (s : System) : option JobStatus :=
  j_Status <$> (q_jobs (sys_queue s) !! id).

(** Failing a job that is still pending decrements the counter of running
    jobs, so that while the worker executes job [a] the drain that [SafeDrain]
    waits for is reported complete; and the failed job stays in its channel: it
    is executed later and goes from failed to succeeded. *)
Theorem FailJob_pending_breaks_drain :
  ∃ s s', @reachable plain_time s ∧ rtc (@step plain_time) s s' ∧
    sys_phase s = Executing job_a ∧ status_in job_a s = Some JobRunning ∧
    status_in job_b s = Some JobFailed ∧
    (∃ st, drain_poll 10 100 [(controlStatusLocked (sys_queue s), 4)] = Some (Ok st) ∧ cs_Running st = 0) ∧
    status_in job_b s' = Some JobSucceeded.
Proof.
  set (s := default (initial 4 0) (@run_moves plain_time fail_pending (initial 4 0))).
  exists s, (default (initial 4 0) (@run_moves plain_time run_second s)). split_and!.
  - exists 4, 0. apply (@run_moves_steps plain_time fail_pending). vm_compute. reflexivity.
  - apply (@run_moves_steps plain_time run_second). vm_compute. reflexivity.
  - by vm_compute.
  - by vm_compute.
  - by vm_compute.
  - eexists. split; by vm_compute.
  - by vm_compute.
Qed.
