(* ===== verification/GraphQuery.v ===== *)
(** * Questions about a plan: [internal/planner/graph.go], [graph_query.go],
    [analysis.go] and [snapshot.go]

    The DOT rendering, the upstream and downstream traversal, the blast radius
    and the comparison of two plans. *)

From S2P Require Import Prelude Model Planner.

(** ** Rendering: [ToDOT] *)

Definition step_id (s : Step) : string := r_ID (s_Resource s).

Definition stepByID (p : Plan) : gmap string Step :=
  foldl (λ m s, <[step_id s := s]> m) ∅ (p_Steps p).

Definition dot_node (id : string) (s : Step) : string :=
  "  " +:+ dq +:+ id +:+ dq +:+ " [label=" +:+ dq +:+ id +:+ "\n(type=" +:+ r_Type (s_Resource s) +:+
  " host=" +:+ r_Host (s_Resource s) +:+ " order=" +:+ Itoa (s_Order s) +:+ ")" +:+ dq +:+ "];" +:+ newline.

Definition dot_edges (s : Step) : string :=
  String.concat "" ((λ dep, "  " +:+ dq +:+ dep +:+ dq +:+ " -> " +:+ dq +:+ step_id s +:+ dq +:+ ";" +:+ newline)
    <$> sort_strings (r_DependsOn (s_Resource s))).

Definition ToDOT (p : Plan) : string :=
  let ids := sort_strings (step_id <$> p_Steps p) in
  let step id := default (mkStep 0 zeroHost zeroResource) (stepByID p !! id) in
  "digraph masterchef_plan {" +:+ newline +:+ "  rankdir=LR;" +:+ newline +:+
  String.concat "" ((λ id, dot_node id (step id)) <$> ids) +:+
  String.concat "" ((λ id, dot_edges (step id)) <$> ids) +:+ "}" +:+ newline.

(** ** Traversal: [QueryGraph] *)

Record GraphQueryRequest : Type := mkQuery {
  gq_ResourceID : string;
  gq_Direction : string;
  gq_Depth : Z;
}.

Record GraphQueryResult : Type := mkQueryResult {
  gr_ResourceID : string;
  gr_Upstream : list string;
  gr_Downstream : list string;
  gr_Impacted : list string;
}.

Definition normalizeGraphDirection (d : string) : string :=
  if one_of d ["upstream"; "downstream"; "both"] then d else "both".

(** [m[k] = append(m[k], v)] and the initialisation of a missing entry. *)
Definition push (k v : string) (m : gmap string (list string)) : gmap string (list string) :=
  <[k := default [] (m !! k) ++ [v]]> m.
Definition touch (k : string) (m : gmap string (list string)) : gmap string (list string) :=
  match m !! k with Some _ => m | None => <[k := []]> m end.

Definition maps : Type := gmap string (list string) * gmap string (list string).

Definition add_dependency (id : string) (st : maps) (dep : string) : maps :=
  (push id dep st.1, push dep id st.2).
Definition add_step (st : maps) (s : Step) : maps :=
  let id := step_id s in
  foldl (add_dependency id) (touch id st.1, touch id st.2) (r_DependsOn (s_Resource s)).

Definition buildDependencyMaps (p : Plan) : maps :=
  let '(up, down) := foldl add_step (∅, ∅) (p_Steps p) in
  (sort_strings <$> up, sort_strings <$> down).

(** The body of the inner loop of [traverseDependencies], at a node of depth [d]. *)
Definition visit (d : Z) (st : list (string * Z) * gset string * list string) (next : string)
    : list (string * Z) * gset string * list string :=
  let '(queue, seen, out) := st in
  if decide (next ∈ seen) then st
  else (queue ++ [(next, d + 1)], {[next]} ∪ seen, out ++ [next]).

(** The breadth-first loop; [None] when the fuel is spent with nodes left. *)
Fixpoint traverse_loop (fuel : nat) (graph : gmap string (list string)) (depth : Z)
    (queue : list (string * Z)) (seen : gset string) (out : list string) : option (list string) :=
  match queue with
  | [] => Some (sort_strings out)
  | (id, d) :: queue =>
      match fuel with
      | O => None
      | S fuel =>
          if (0 <? depth) && (depth <=? d) then traverse_loop fuel graph depth queue seen out
          else
            let '(queue, seen, out) := foldl (visit d) (queue, seen, out) (default [] (graph !! id)) in
            traverse_loop fuel graph depth queue seen out
      end
  end.

(** Every node is dequeued once: the root and at most all the entries. *)
Definition targets (graph : gmap string (list string)) : gset string :=
  list_to_set (mjoin (map_to_list graph).*2).
Definition traverse_fuel (graph : gmap string (list string)) : nat := S (size (targets graph)).

Definition traverseDependencies (graph : gmap string (list string)) (root : string) (depth : Z)
    : option (list string) :=
  if eqs root "" then Some []
  else traverse_loop (traverse_fuel graph) graph depth [(root, 0)] {[root]} [].

Definition QueryGraph (plan : option Plan) (req : GraphQueryRequest) : option GraphQueryResult :=
  match plan with
  | None => Some (mkQueryResult (gq_ResourceID req) [] [] [])
  | Some plan =>
      let direction := normalizeGraphDirection (gq_Direction req) in
      let '(up, down) := buildDependencyMaps plan in
      upstream ← if one_of direction ["upstream"; "both"]
                 then traverseDependencies up (gq_ResourceID req) (gq_Depth req) else Some [];
      downstream ← if one_of direction ["downstream"; "both"]
                   then traverseDependencies down (gq_ResourceID req) (gq_Depth req) else Some [];
      let merged : gset string := list_to_set upstream ∪ list_to_set downstream in
      Some (mkQueryResult (gq_ResourceID req) upstream downstream (sort_strings (elements merged)))
  end.

(** ** Blast radius: [AnalyzeBlastRadius] *)

Record BlastRadius : Type := mkBlast {
  br_TotalSteps : Z;
  br_AffectedHosts : list string;
  br_AffectedTypes : list string;
  br_MaxOrder : Z;
  br_EstimatedScope : string;
}.

Definition key_set (f : Step → string) (p : Plan) : gset string := list_to_set (f <$> p_Steps p).

Definition AnalyzeBlastRadius (p : Plan) : BlastRadius :=
  let hosts := sort_strings (elements (key_set (λ s, r_Host (s_Resource s)) p)) in
  let types := sort_strings (elements (key_set (λ s, r_Type (s_Resource s)) p)) in
  let steps := Z.of_nat (length (p_Steps p)) in
  let nhosts := Z.of_nat (length hosts) in
  mkBlast steps hosts types
    (foldl (λ m s, if m <? s_Order s then s_Order s else m) 0 (p_Steps p))
    (if (25 <=? steps) || (10 <=? nhosts) then "high"
     else if (8 <=? steps) || (3 <=? nhosts) then "medium" else "low").

(** ** Comparison: [DiffPlans]

    The hexadecimal SHA-256 of the JSON of a step and of a plan are parameters. *)

Class Digests := {
  step_digest : Step → string;
  plan_digest : Plan → string;
}.

Record PlanSnapshotDiff : Type := mkDiff {
  pd_Match : bool;
  pd_AddedSteps : list string;
  pd_RemovedSteps : list string;
  pd_ChangedSteps : list string;
  pd_BaselineHash : string;
  pd_CurrentHash : string;
}.

Definition stepFingerprints `{Digests} (p : Plan) : gmap string string :=
  foldl (λ out s, let id := TrimSpace (step_id s) in
    if eqs id "" then out else <[id := step_digest s]> out) ∅ (p_Steps p).

Definition emptyPlan : Plan := mkPlan zeroExecution [] ∅.

Definition DiffPlans `{Digests} (baseline current : option Plan) : PlanSnapshotDiff :=
  let baseline := default emptyPlan baseline in
  let current := default emptyPlan current in
  let baseMap := stepFingerprints baseline in
  let curMap := stepFingerprints current in
  let added := (map_to_list (filter (λ kv, baseMap !! kv.1 = None) curMap)).*1 in
  let changed := (map_to_list (filter (λ kv, is_Some (baseMap !! kv.1) ∧ baseMap !! kv.1 ≠ Some kv.2) curMap)).*1 in
  let removed := (map_to_list (filter (λ kv, curMap !! kv.1 = None) baseMap)).*1 in
  mkDiff (bool_decide (length added = 0%nat) && bool_decide (length removed = 0%nat)
          && bool_decide (length changed = 0%nat))
    (sort_strings added) (sort_strings removed) (sort_strings changed)
    (plan_digest baseline) (plan_digest current).

(** ** The breadth-first traversal is reachability *)

Section bfs.
Context (graph : gmap string (list string)) (root : string) (depth : Z).
Implicit Types (queue : list (string * Z)) (seen : gset string) (out : list string).

Definition arc (x y : string) : Prop := y ∈ default [] (graph !! x).

Lemma arc_targets x y : arc x y → y ∈ targets graph.
Proof.
  unfold arc, targets. destruct (graph !! x) as [ys|] eqn:Hx; [|by intros ?%elem_of_nil]. intros Hy.
  rewrite elem_of_list_to_set, list_elem_of_join. exists ys. split; [done|].
  rewrite list_elem_of_fmap. exists (x, ys). by rewrite elem_of_map_to_list.
Qed.

Lemma visit_spec d ns queue seen out :
  ∃ new, foldl (visit d) (queue, seen, out) ns =
           (queue ++ ((λ x, (x, d + 1)) <$> new), list_to_set new ∪ seen, out ++ new) ∧
    NoDup new ∧ (∀ x, x ∈ new → x ∈ ns ∧ x ∉ seen) ∧ (∀ x, x ∈ ns → x ∈ new ∨ x ∈ seen).
Proof.
  revert queue seen out; induction ns as [|n ns IH]; intros queue seen out; cbn [foldl].
  { exists []. rewrite !app_nil_r. cbn. rewrite union_empty_l_L. split_and!; [done|constructor|set_solver..]. }
  unfold visit at 2. case_decide as Hn.
  { destruct (IH queue seen out) as (new & -> & Hnd & Hnew & Hall). exists new. set_solver. }
  destruct (IH (queue ++ [(n, d + 1)]) ({[n]} ∪ seen) (out ++ [n])) as (new & -> & Hnd & Hnew & Hall).
  exists (n :: new). rewrite <-!app_assoc. split_and!.
  - f_equal. f_equal. cbn. set_solver.
  - constructor; [set_solver|done].
  - set_solver.
  - set_solver.
Qed.

(** [dist] is the length of the walk that found a node. *)
Record bfs_inv (dist : string → nat) queue seen out : Prop := {
  bi_root : dist root = 0%nat;
  bi_seen : seen = {[root]} ∪ list_to_set out;
  bi_out : NoDup (root :: out);
  bi_walk x : x ∈ seen → nsteps arc (dist x) root x ∧ (0 < depth → Z.of_nat (dist x) ≤ depth);
  bi_queue x d : (x, d) ∈ queue → x ∈ seen ∧ d = Z.of_nat (dist x);
  bi_done x : x ∈ seen → x ∉ queue.*1 →
    (0 < depth ∧ depth ≤ Z.of_nat (dist x)) ∨ ∀ y, arc x y → y ∈ seen ∧ (dist y ≤ S (dist x))%nat;
  bi_sorted : StronglySorted Z.le queue.*2;
  bi_bound x d rest : queue = (x, d) :: rest → ∀ y, y ∈ seen → Z.of_nat (dist y) ≤ d + 1;
}.

Lemma bfs_skip dist id d queue seen out :
  0 < depth → depth ≤ d → bfs_inv dist ((id, d) :: queue) seen out → bfs_inv dist queue seen out.
Proof.
  intros Hd Hle [H0 Hs Ho Hw Hq Hdone Hsort Hb]. split; try done.
  - intros x e He. apply Hq. by right.
  - intros x Hx Hnot. destruct (decide (x = id)) as [->|Hne].
    + left. destruct (Hq id d) as [_ Hd']; [left|]. lia.
    + apply Hdone; [done|]. cbn. set_solver.
  - cbn in Hsort. by apply StronglySorted_inv in Hsort as [? _].
  - intros x e rest -> y Hy. specialize (Hb id d _ eq_refl y Hy). cbn in Hsort.
    apply StronglySorted_inv in Hsort as [_ Hall]. apply Forall_cons in Hall as [? _]. lia.
Qed.

Lemma bfs_expand dist id d queue seen out new :
  ¬ (0 < depth ∧ depth ≤ d) → NoDup new → (∀ x, x ∈ new → arc id x ∧ x ∉ seen) →
  (∀ x, arc id x → x ∈ new ∨ x ∈ seen) → bfs_inv dist ((id, d) :: queue) seen out →
  bfs_inv (λ x, if decide (x ∈ new) then S (dist id) else dist x)
    (queue ++ ((λ x, (x, d + 1)) <$> new)) (list_to_set new ∪ seen) (out ++ new).
Proof.
  intros Hlim Hnd Hnew Hall [H0 Hs Ho Hw Hq Hdone Hsort Hb].
  destruct (Hq id d) as [Hid Hd]; [left|].
  assert (∀ x, x ∈ seen → x ∉ new) as Hold by (intros x Hx Hn; by apply Hnew in Hn as [_ ?]).
  cbn in Hsort. apply StronglySorted_inv in Hsort as [Hsort Hge]. split.
  - rewrite decide_False; [done|]. apply Hold. set_solver.
  - subst seen. set_solver.
  - change (NoDup ((root :: out) ++ new)). apply NoDup_app. split_and!; [done| |done].
    intros x Hx. apply Hold. subst seen. set_solver.
  - intros x Hx. case_decide as Hn.
    + split; [|lia]. eapply nsteps_r; [by apply Hw|by apply Hnew].
    + apply Hw. set_solver.
  - intros x e [Hx|Hx]%elem_of_app.
    + destruct (Hq x e) as [Hxs ->]; [by right|]. split; [set_solver|]. by rewrite decide_False by auto.
    + apply list_elem_of_fmap in Hx as (y & [= -> ->] & Hy). split; [set_solver|].
      rewrite decide_True by done. lia.
  - intros x Hx Hnot. rewrite fmap_app, not_elem_of_app in Hnot. destruct Hnot as [Hnq Hnn].
    assert (x ∉ new) as Hxn.
    { intros Hn. apply Hnn. rewrite <-list_fmap_compose. apply list_elem_of_fmap. by exists x. }
    rewrite decide_False by done. assert (x ∈ seen) as Hxs by set_solver.
    destruct (decide (x = id)) as [->|Hne].
    + right. intros y Hy. destruct (Hall y Hy) as [Hyn|Hys].
      * rewrite decide_True by done. split; [set_solver|lia].
      * rewrite decide_False by auto. split; [set_solver|]. specialize (Hb id d _ eq_refl y Hys). lia.
    + destruct (Hdone x Hxs) as [?|Hcl]; [cbn; set_solver|by left|right].
      intros y Hy. destruct (Hcl y Hy) as [Hys Hle]. rewrite decide_False by auto. split; [set_solver|done].
  - rewrite fmap_app, <-list_fmap_compose. apply StronglySorted_app. split_and!; [|done|].
    + intros e1 e2 H1 (y & -> & _)%list_elem_of_fmap. apply list_elem_of_fmap in H1 as ([x e] & -> & Hx).
      destruct (Hq x e) as [Hxs ->]; [by right|]. by apply (Hb id d _ eq_refl).
    + clear. induction new as [|x new IH]; constructor; [done|]. apply Forall_forall.
      intros e (y & -> & _)%list_elem_of_fmap. done.
  - intros x e rest Heq y Hy. assert (d ≤ e) as Hde.
    { destruct queue as [|[x0 e0] queue].
      - destruct new as [|y0 new]; [done|]. injection Heq as _ <- _. lia.
      - injection Heq as -> -> _. by apply Forall_cons in Hge as [? _]. }
    case_decide as Hn; [lia|]. assert (y ∈ seen) as Hys by set_solver.
    specialize (Hb id d _ eq_refl y Hys). lia.
Qed.

(** Enough fuel: one unit per queued node and per node not seen yet. *)
Lemma traverse_loop_spec fuel dist queue seen out :
  bfs_inv dist queue seen out → (length queue + size (targets graph ∖ seen) ≤ fuel)%nat →
  ∃ dist' seen' out', bfs_inv dist' [] seen' out' ∧
    traverse_loop fuel graph depth queue seen out = Some (sort_strings out').
Proof.
  revert dist queue seen out; induction fuel as [|fuel IH]; intros dist queue seen out Hinv Hf.
  { destruct queue; [|cbn in Hf; lia]. by exists dist, seen, out. }
  destruct queue as [|[id d] queue]; [by exists dist, seen, out|]. cbn [traverse_loop].
  destruct ((0 <? depth) && (depth <=? d)) eqn:Hlim.
  { apply (IH dist); [|cbn in Hf; lia]. eapply bfs_skip; [| |done]; lia. }
  destruct (visit_spec d (default [] (graph !! id)) queue seen out) as (new & -> & Hnd & Hnew & Hall).
  eapply IH; [apply (bfs_expand dist id d); [lia|done..]|].
  rewrite length_app, length_fmap. cbn in Hf.
  assert (targets graph ∖ (list_to_set new ∪ seen) = (targets graph ∖ seen) ∖ list_to_set new) as -> by set_solver.
  rewrite size_difference.
  - rewrite (size_list_to_set new) by done.
    assert (length new ≤ size (targets graph ∖ seen))%nat; [|lia].
    rewrite <-(size_list_to_set (C := gset string) new) by done. apply subseteq_size.
    intros x Hx%elem_of_list_to_set. destruct (Hnew x Hx) as [Ha Hx']. apply arc_targets in Ha. set_solver.
  - intros x Hx%elem_of_list_to_set. destruct (Hnew x Hx) as [Ha Hx']. apply arc_targets in Ha. set_solver.
Qed.

(** [y] is within [depth] arcs of [x]; there is no limit when [depth] is not positive. *)
Definition within (x y : string) : Prop :=
  ∃ n, nsteps arc n x y ∧ (0 < depth → Z.of_nat n ≤ depth).

Lemma bfs_complete dist seen out x : bfs_inv dist [] seen out → x ∈ seen ↔ within root x.
Proof.
  intros [H0 Hs Ho Hw Hq Hdone Hsort Hb]. split; [intros Hx; exists (dist x); by apply Hw|].
  intros (n & Hn & Hd). assert (x ∈ seen ∧ (dist x ≤ n)%nat) as [? _]; [|done].
  revert x Hn Hd; induction n as [|n IH]; intros x Hn Hd.
  { inversion Hn; subst x. split; [set_solver|lia]. }
  apply nsteps_inv_r in Hn as (z & Hz & Hzx). destruct (IH z Hz) as [Hzs Hle]; [lia|].
  destruct (Hdone z Hzs) as [[Hp Hlim]|Hcl]; [by apply not_elem_of_nil|lia|].
  destruct (Hcl x Hzx). split; [done|lia].
Qed.

Lemma traverse_spec :
  ∃ out, traverseDependencies graph root depth = Some out ∧ NoDup out ∧ StronglySorted String.le out ∧
    ∀ x, x ∈ out ↔ root ≠ "" ∧ x ≠ root ∧ within root x.
Proof.
  unfold traverseDependencies. destruct (eqs root "") eqn:Hr.
  { apply eqs_true in Hr. exists []. split_and!; [done|constructor|constructor|].
    intros x. split; [by intros ?%elem_of_nil|by intros [? _]]. }
  apply eqs_false in Hr.
  assert (bfs_inv (λ _, 0%nat) [(root, 0)] {[root]} []) as Hinit.
  { split; try done.
    - set_solver.
    - apply NoDup_singleton.
    - intros x ->%elem_of_singleton. split; [constructor|lia].
    - intros x d [= -> ->]%list_elem_of_singleton. set_solver.
    - intros x ->%elem_of_singleton. cbn. set_solver.
    - repeat constructor.
    - intros x d rest [= <- <- <-] y _. lia. }
  destruct (traverse_loop_spec (traverse_fuel graph) _ _ _ _ Hinit) as (dist & seen & out & Hinv & ->).
  { unfold traverse_fuel. cbn [length]. assert (size (targets graph ∖ {[root]}) ≤ size (targets graph))%nat; [|lia].
    apply subseteq_size. set_solver. }
  pose proof (bi_out _ _ _ _ Hinv) as [Hnot Hnd]%NoDup_cons. exists (sort_strings out). split_and!; [done| | |].
  - by apply NoDup_sort_strings.
  - apply sort_strings_sorted.
  - intros x. rewrite elem_of_sort_strings, <-(bfs_complete _ _ _ _ Hinv), (bi_seen _ _ _ _ Hinv).
    set_solver.
Qed.
End bfs.

(** ** The dependency maps *)

Definition depends (p : Plan) (id dep : string) : Prop :=
  ∃ s, s ∈ p_Steps p ∧ step_id s = id ∧ dep ∈ r_DependsOn (s_Resource s).

Lemma arc_push k v m x y : arc (push k v m) x y ↔ x = k ∧ y = v ∨ arc m x y.
Proof.
  unfold arc, push. destruct (decide (x = k)) as [->|Hne].
  - rewrite lookup_insert_eq. cbn. set_solver.
  - rewrite lookup_insert_ne by done. naive_solver.
Qed.

Lemma arc_touch k m x y : arc (touch k m) x y ↔ arc m x y.
Proof.
  unfold arc, touch. destruct (m !! k) eqn:Hk; [done|]. destruct (decide (x = k)) as [->|Hne].
  - by rewrite lookup_insert_eq, Hk.
  - by rewrite lookup_insert_ne.
Qed.

Lemma arc_sorted m x y : arc (sort_strings <$> m) x y ↔ arc m x y.
Proof.
  unfold arc. rewrite lookup_fmap. destruct (m !! x); [|done]. cbn. apply elem_of_sort_strings.
Qed.

Lemma add_dependencies_spec id deps st x y :
  (arc (foldl (add_dependency id) st deps).1 x y ↔ (x = id ∧ y ∈ deps) ∨ arc st.1 x y) ∧
  (arc (foldl (add_dependency id) st deps).2 x y ↔ (y = id ∧ x ∈ deps) ∨ arc st.2 x y).
Proof.
  revert st; induction deps as [|dep deps IH]; intros st; cbn [foldl]; [set_solver|].
  destruct (IH (add_dependency id st dep)) as [-> ->]. cbn. rewrite !arc_push. set_solver.
Qed.

Lemma add_steps_spec steps st x y :
  (arc (foldl add_step st steps).1 x y ↔
     (∃ s, s ∈ steps ∧ step_id s = x ∧ y ∈ r_DependsOn (s_Resource s)) ∨ arc st.1 x y) ∧
  (arc (foldl add_step st steps).2 x y ↔
     (∃ s, s ∈ steps ∧ step_id s = y ∧ x ∈ r_DependsOn (s_Resource s)) ∨ arc st.2 x y).
Proof.
  revert st; induction steps as [|s steps IH]; intros st; cbn [foldl]; [set_solver|].
  destruct (IH (add_step st s)) as [-> ->]. unfold add_step.
  destruct (add_dependencies_spec (step_id s) (r_DependsOn (s_Resource s))
    (touch (step_id s) st.1, touch (step_id s) st.2) x y) as [-> ->]. cbn [fst snd].
  rewrite !arc_touch. setoid_rewrite elem_of_cons. naive_solver.
Qed.

Lemma buildDependencyMaps_spec p x y :
  (arc (buildDependencyMaps p).1 x y ↔ depends p x y) ∧
  (arc (buildDependencyMaps p).2 x y ↔ depends p y x).
Proof.
  unfold buildDependencyMaps. pose proof (add_steps_spec (p_Steps p) (∅, ∅) x y) as [H1 H2].
  destruct (foldl add_step (∅, ∅) (p_Steps p)) as [up down]. cbn [fst snd] in *.
  rewrite !arc_sorted, H1, H2. assert (∀ a b : string, ¬ arc ∅ a b) as He.
  { intros a b. unfold arc. rewrite lookup_empty. by intros ?%elem_of_nil. }
  pose proof (He x y). unfold depends. naive_solver.
Qed.

(** ** What a query answers *)

(** [y] is reached from [x] along [R] in at most [depth] arcs ([depth <= 0]: any number). *)
Definition reaches (R : string → string → Prop) (depth : Z) (x y : string) : Prop :=
  ∃ n, nsteps R n x y ∧ (0 < depth → Z.of_nat n ≤ depth).

Lemma nsteps_impl {A} (R S : A → A → Prop) n x y :
  (∀ a b, R a b → S a b) → nsteps R n x y → nsteps S n x y.
Proof. intros HRS. induction 1; econstructor; eauto. Qed.

Lemma nsteps_flip {A} (R : A → A → Prop) n x y : nsteps R n x y → nsteps (flip R) n y x.
Proof. induction 1; [constructor|]. by eapply nsteps_r. Qed.

Lemma reaches_flip R depth x y : reaches (flip R) depth x y ↔ reaches R depth y x.
Proof.
  split; intros (n & Hn & Hd); exists n; split; try done; by apply nsteps_flip in Hn.
Qed.

Lemma within_reaches graph (R : string → string → Prop) depth x y :
  (∀ a b, arc graph a b ↔ R a b) → within graph depth x y ↔ reaches R depth x y.
Proof.
  intros HR. split; intros (n & Hn & Hd); exists n; (split; [|done]);
    eapply nsteps_impl; [|exact Hn| |exact Hn]; naive_solver.
Qed.

Definition answer (R : string → string → Prop) (req : GraphQueryRequest) (out : list string) : Prop :=
  NoDup out ∧ StronglySorted String.le out ∧
  ∀ x, x ∈ out ↔ gq_ResourceID req ≠ "" ∧ x ≠ gq_ResourceID req ∧ reaches R (gq_Depth req) (gq_ResourceID req) x.

Lemma query_spec p req :
  ∃ res, QueryGraph (Some p) req = Some res ∧
    (if one_of (normalizeGraphDirection (gq_Direction req)) ["upstream"; "both"]
     then answer (depends p) req (gr_Upstream res) else gr_Upstream res = []) ∧
    (if one_of (normalizeGraphDirection (gq_Direction req)) ["downstream"; "both"]
     then answer (flip (depends p)) req (gr_Downstream res) else gr_Downstream res = []) ∧
    NoDup (gr_Impacted res) ∧ StronglySorted String.le (gr_Impacted res) ∧
    (∀ x, x ∈ gr_Impacted res ↔ x ∈ gr_Upstream res ∨ x ∈ gr_Downstream res).
Proof.
  unfold QueryGraph. pose proof (buildDependencyMaps_spec p) as Hm.
  destruct (buildDependencyMaps p) as [up down]. cbn [fst snd] in Hm.
  destruct (traverse_spec up (gq_ResourceID req) (gq_Depth req)) as (u & -> & Hu1 & Hu2 & Hu3).
  destruct (traverse_spec down (gq_ResourceID req) (gq_Depth req)) as (d & -> & Hd1 & Hd2 & Hd3).
  assert (answer (depends p) req u) as Hu.
  { split_and!; [done..|]. intros x. rewrite Hu3, within_reaches; [done|]. intros a b. apply (Hm a b). }
  assert (answer (flip (depends p)) req d) as Hd.
  { split_and!; [done..|]. intros x. rewrite Hd3, within_reaches; [done|]. intros a b. apply (Hm a b). }
  destruct (one_of _ ["upstream"; "both"]), (one_of _ ["downstream"; "both"]); cbn;
    (eexists; split; [reflexivity|]); cbn; split_and!; try done;
    try (by apply NoDup_sort_strings, NoDup_elements); try apply sort_strings_sorted;
    intros x; rewrite elem_of_sort_strings, elem_of_elements; set_solver.
Qed.

(** C12: [QueryGraph] terminates on every plan, cyclic ones included, and answers
    reachability: [Upstream] is the sorted list, without repetitions, of the other
    resources reached from the resource along [depends_on] within the depth,
    [Downstream] the same along the converse relation, and [Impacted] their union;
    a direction that was not asked for is empty.  A resource is upstream of
    another exactly when that one is downstream of it. *)
Theorem QueryGraph_reachability p req :
  ∃ res, QueryGraph (Some p) req = Some res ∧
    (if one_of (normalizeGraphDirection (gq_Direction req)) ["upstream"; "both"]
     then answer (depends p) req (gr_Upstream res) else gr_Upstream res = []) ∧
    (if one_of (normalizeGraphDirection (gq_Direction req)) ["downstream"; "both"]
     then answer (flip (depends p)) req (gr_Downstream res) else gr_Downstream res = []) ∧
    NoDup (gr_Impacted res) ∧ StronglySorted String.le (gr_Impacted res) ∧
    (∀ x, x ∈ gr_Impacted res ↔ x ∈ gr_Upstream res ∨ x ∈ gr_Downstream res) ∧
    (∀ x, reaches (flip (depends p)) (gq_Depth req) (gq_ResourceID req) x ↔
          reaches (depends p) (gq_Depth req) x (gq_ResourceID req)).
Proof.
  destruct (query_spec p req) as (res & Hq & Hu & Hd & H1 & H2 & H3). exists res.
  split_and!; try done; intros x; apply reaches_flip.
Qed.

(** ** Queries and plans *)

Lemma precedes_spec l u v :
  precedes l u v ↔ ∃ i j, (i < j)%nat ∧ l !! i = Some u ∧ l !! j = Some v.
Proof.
  split.
  - intros (l1 & l2 & l3 & ->). exists (length l1), (length l1 + S (length l2))%nat.
    split; [lia|]. split; [by apply list_lookup_middle|].
    rewrite lookup_app_r by lia. replace (_ + _ - _)%nat with (S (length l2)) by lia.
    by apply list_lookup_middle.
  - intros (i & j & Hij & Hi & Hj).
    assert (v ∈ drop (S i) l) as (l2 & l3 & Hd)%list_elem_of_split.
    { apply list_elem_of_lookup. exists (j - S i)%nat. rewrite lookup_drop.
      by replace (S i + (j - S i))%nat with j by lia. }
    exists (take i l), l2, l3. by rewrite <-Hd, take_drop_middle.
Qed.

Lemma precedes_trans l u v w : NoDup l → precedes l u v → precedes l v w → precedes l u w.
Proof.
  intros Hnd (i & j & Hij & Hi & Hj)%precedes_spec (j' & k & Hjk & Hj' & Hk)%precedes_spec.
  apply precedes_spec. exists i, k. split_and!; [|done..].
  assert (j = j') by by eapply NoDup_lookup. lia.
Qed.

Lemma walk_precedes (R : string → string → Prop) l n x y :
  NoDup l → (∀ a b, R a b → precedes l b a) → nsteps R n x y → x ≠ y → precedes l y x.
Proof.
  intros Hnd HR. induction 1 as [x|n x z y Hxz Hzy IH]; [done|]. intros _.
  destruct (decide (z = y)) as [->|Hne]; [by apply HR|].
  eapply precedes_trans; [done|by apply IH|by apply HR].
Qed.

(** On a plan that [Build] returned, the resources upstream of a resource
    run before it and the resources downstream of it run after it. *)
Theorem QueryGraph_follows_plan cfg p req res :
  plannable (c_Resources cfg) → arrow_free (c_Resources cfg) →
  (∀ r, r ∈ c_Resources cfg → blank (r_ID r) = false) →
  Build cfg = Ok p → QueryGraph (Some p) req = Some res →
  (∀ x, x ∈ gr_Upstream res → precedes (step_id <$> p_Steps p) x (gq_ResourceID req)) ∧
  (∀ x, x ∈ gr_Downstream res → precedes (step_id <$> p_Steps p) (gq_ResourceID req) x).
Proof.
  intros Hp Ha Hblank HB HQ. destruct (Build_sound cfg p Hp Ha HB) as (Hperm & Hprec & _).
  destruct (query_spec p req) as (res' & HQ' & Hu & Hd & _).
  rewrite HQ in HQ'. injection HQ' as <-.
  assert (NoDup (step_id <$> p_Steps p)) as Hnd.
  { unfold step_id. rewrite (list_fmap_compose s_Resource r_ID), Hperm. apply Hp. }
  assert (∀ a b, depends p a b → precedes (step_id <$> p_Steps p) b a) as Hdep.
  { intros a b (s & Hs & <- & Hb). apply Hprec.
    assert (s_Resource s ∈ c_Resources cfg) as Hr by (rewrite <-Hperm; by apply list_elem_of_fmap_2).
    assert ((b, step_id s) ∈ c_Resources cfg ≫= resource_edges) as He.
    { apply list_elem_of_bind. exists (s_Resource s). split; [|done]. unfold resource_edges. set_solver. }
    split_and!; [done| |by apply Hblank].
    destruct (pl_refs _ Hp _ _ He) as [(r & Hr' & <-)%elem_of_ids _]. by apply Hblank. }
  split; intros x Hx.
  - destruct (one_of _ ["upstream"; "both"]); [|rewrite Hu in Hx; by apply elem_of_nil in Hx].
    apply Hu in Hx as (_ & Hne & n & Hn & _). by eapply walk_precedes.
  - destruct (one_of _ ["downstream"; "both"]); [|rewrite Hd in Hx; by apply elem_of_nil in Hx].
    apply Hd in Hx as (_ & Hne & n & Hn%nsteps_flip & _). by eapply walk_precedes.
Qed.

(** ** Comparing plans *)

(** The step that [stepFingerprints] keeps for a trimmed id: the last one. *)
Definition step_for (p : Plan) (id : string) : option Step :=
  last (filter (λ s, TrimSpace (step_id s) = id) (p_Steps p)).

Lemma stepFingerprints_lookup `{Digests} p id :
  stepFingerprints p !! id = if eqs id "" then None else step_digest <$> step_for p id.
Proof.
  unfold stepFingerprints, step_for. induction (p_Steps p) as [|s steps IH] using rev_ind.
  { cbn. by destruct (eqs id ""). }
  rewrite foldl_app, filter_app. cbn [foldl]. unfold filter at 2. cbn.
  case_decide as Hid.
  - subst id. rewrite last_app. cbn. destruct (eqs (TrimSpace (step_id s)) "") eqn:He; [done|].
    by rewrite lookup_insert_eq.
  - rewrite app_nil_r. rewrite <-IH. destruct (eqs (TrimSpace (step_id s)) ""); [done|].
    by rewrite lookup_insert_ne.
Qed.

Lemma diff_keys (P : string * string → Prop) `{∀ kv, Decision (P kv)} (m : gmap string string) id :
  id ∈ (map_to_list (filter P m)).*1 ↔ ∃ v, m !! id = Some v ∧ P (id, v).
Proof.
  rewrite list_elem_of_fmap. split.
  - intros ([k v] & -> & Hkv%elem_of_map_to_list). apply map_lookup_filter_Some in Hkv. eauto.
  - intros (v & Hv & HP). exists (id, v). split; [done|]. apply elem_of_map_to_list.
    by apply map_lookup_filter_Some.
Qed.

(** The keys a comparison of the fingerprints selects, in terms of steps. *)
Ltac diff_case id :=
  cbn; rewrite elem_of_sort_strings, diff_keys, !stepFingerprints_lookup; cbn;
  rewrite stepFingerprints_lookup; destruct (decide (id = "")) as [->|He];
  [rewrite eqs_refl; naive_solver|rewrite (proj2 (eqs_false id "") He)].

Section diff.
Context `{Digests} (p q : Plan).
Implicit Types id : string.

Definition added id : Prop := id ≠ "" ∧ step_for p id = None ∧ is_Some (step_for q id).
Definition removed id : Prop := id ≠ "" ∧ is_Some (step_for p id) ∧ step_for q id = None.
Definition changed id : Prop :=
  id ≠ "" ∧ ∃ s t, step_for p id = Some s ∧ step_for q id = Some t ∧ s ≠ t.

Lemma step_for_in pl id s : step_for pl id = Some s → s ∈ p_Steps pl.
Proof. intros Hs%last_Some_elem_of. by apply list_elem_of_filter in Hs as [_ ?]. Qed.

Lemma AddedSteps_spec id : id ∈ pd_AddedSteps (DiffPlans (Some p) (Some q)) ↔ added id.
Proof. unfold added. diff_case id. destruct (step_for p id), (step_for q id); naive_solver. Qed.

Lemma RemovedSteps_spec id : id ∈ pd_RemovedSteps (DiffPlans (Some p) (Some q)) ↔ removed id.
Proof. unfold removed. diff_case id. destruct (step_for p id), (step_for q id); naive_solver. Qed.

Lemma ChangedSteps_spec id :
  (∀ s t, s ∈ p_Steps p → t ∈ p_Steps q → step_digest s = step_digest t → s = t) →
  id ∈ pd_ChangedSteps (DiffPlans (Some p) (Some q)) ↔ changed id.
Proof.
  intros Hinj. unfold changed. diff_case id.
  destruct (step_for p id) as [s|] eqn:Hs, (step_for q id) as [t|] eqn:Ht; try naive_solver.
  apply step_for_in in Hs, Ht. cbn. split.
  - intros (v & [= <-] & _ & Hne). split; [done|]. exists s, t. naive_solver.
  - intros (_ & s' & t' & [= <-] & [= <-] & Hne). exists (step_digest t). naive_solver.
Qed.

Lemma Match_spec : pd_Match (DiffPlans (Some p) (Some q)) = true ↔
  (∀ id, id ∉ pd_AddedSteps (DiffPlans (Some p) (Some q))) ∧
  (∀ id, id ∉ pd_RemovedSteps (DiffPlans (Some p) (Some q))) ∧
  (∀ id, id ∉ pd_ChangedSteps (DiffPlans (Some p) (Some q))).
Proof.
  assert (∀ l : list string, (∀ id, id ∉ sort_strings l) ↔ length l = 0%nat) as Hl.
  { intros l. setoid_rewrite elem_of_sort_strings. destruct l as [|x l]; [|split; [|done]].
    - split; [done|]. intros _ id. apply not_elem_of_nil.
    - intros Hx. destruct (Hx x). left. }
  cbn. rewrite !andb_true_iff, !bool_decide_eq_true, !Hl. tauto.
Qed.

Lemma DiffPlans_match :
  (∀ s t, s ∈ p_Steps p → t ∈ p_Steps q → step_digest s = step_digest t → s = t) →
  pd_Match (DiffPlans (Some p) (Some q)) = true ↔ ∀ id, id ≠ "" → step_for p id = step_for q id.
Proof.
  intros Hinj. rewrite Match_spec. setoid_rewrite AddedSteps_spec. setoid_rewrite RemovedSteps_spec.
  assert (∀ id, id ∉ pd_ChangedSteps (DiffPlans (Some p) (Some q)) ↔ ¬ changed id) as Hc.
  { intros id. by rewrite ChangedSteps_spec. }
  setoid_rewrite Hc. unfold added, removed, changed. split.
  - intros (H1 & H2 & H3) id Hid. specialize (H1 id). specialize (H2 id). specialize (H3 id).
    destruct (step_for p id) as [s|] eqn:Hs, (step_for q id) as [t|] eqn:Ht;
      [|by destruct H2|by destruct H1|done].
    f_equal. destruct (decide (step_digest s = step_digest t)) as [|Hne].
    + apply Hinj; [by eapply step_for_in..|done].
    + destruct H3. split; [done|]. exists s, t. split_and!; [done..|]. by intros ->.
  - intros Heq. split_and!; intros id; [intros (Hid & Hp & [s Hs])|intros (Hid & [s Hs] & Hp)|
      intros (Hid & s & t & Hp & Hs & Hne)]; specialize (Heq id Hid); congruence.
Qed.
End diff.

(** For [DiffPlans], when the digests tell the steps of the two plans apart:
    an id is added, removed or changed exactly when only the current plan, only
    the baseline, or both with different steps have it, and the plans match when
    every id has the same step in both.  Ids are trimmed, a blank id is not
    compared, and neither are handlers and execution settings: plans with the
    same steps match. *)
Theorem DiffPlans_exact `{Digests} (p q : Plan) :
  (∀ s t, s ∈ p_Steps p → t ∈ p_Steps q → step_digest s = step_digest t → s = t) →
  let d := DiffPlans (Some p) (Some q) in
  (∀ id, id ∈ pd_AddedSteps d ↔ added p q id) ∧
  (∀ id, id ∈ pd_RemovedSteps d ↔ removed p q id) ∧
  (∀ id, id ∈ pd_ChangedSteps d ↔ changed p q id) ∧
  (pd_Match d = true ↔ ∀ id, id ≠ "" → step_for p id = step_for q id) ∧
  (p_Steps p = p_Steps q → pd_Match d = true).
Proof.
  intros Hinj d. split_and!.
  - apply AddedSteps_spec.
  - apply RemovedSteps_spec.
  - intros id. by apply ChangedSteps_spec.
  - by apply DiffPlans_match.
  - intros Heq. apply DiffPlans_match; [done|]. intros id _. unfold step_for. by rewrite Heq.
Qed.

(** ** Concrete plans *)

Definition demo_query : GraphQueryRequest := mkQuery "a" "both" 0.
Definition demo_answer : GraphQueryResult := mkQueryResult "a" [] ["b"] ["b"].

Lemma QueryGraph_follows_plan_witness :
  QueryGraph (Some (plan_or_empty demo_config)) demo_query = Some demo_answer ∧
  precedes (step_id <$> p_Steps (plan_or_empty demo_config)) "a" "b".
Proof.
  assert (QueryGraph (Some (plan_or_empty demo_config)) demo_query = Some demo_answer) as HQ by by vm_compute.
  split; [exact HQ|].
  destruct (QueryGraph_follows_plan demo_config (plan_or_empty demo_config) demo_query demo_answer) as [_ Hd].
  - apply plannableb_spec. by vm_compute.
  - repeat constructor.
  - intros r Hr. repeat (apply elem_of_cons in Hr as [->|Hr]; [by vm_compute|]). by apply elem_of_nil in Hr.
  - by vm_compute.
  - exact HQ.
  - apply (Hd "b"). left.
Defined.

(** A cyclic plan: the traversal still ends, and leaves the resource itself out. *)
Definition cyclic_plan : Plan :=
  mkPlan zeroExecution [mkStep 1 zeroHost (command_on "h" "a" ["b"]); mkStep 2 zeroHost (command_on "h" "b" ["a"])] ∅.

Example cyclic_query :
  QueryGraph (Some cyclic_plan) (mkQuery "a" "upstream" 0) = Some (mkQueryResult "a" ["b"] [] ["b"]).
Proof. by vm_compute. Qed.

Definition plain_digests : Digests := {|
  step_digest s := Itoa (s_Order s) +:+ " " +:+ step_id s +:+ " " +:+ Join (r_DependsOn (s_Resource s)) ",";
  plan_digest p := Itoa (Z.of_nat (length (p_Steps p)));
|}.
Definition old_plan : Plan :=
  mkPlan zeroExecution [mkStep 1 zeroHost (command_on "h" "a" []); mkStep 2 zeroHost (command_on "h" "b" [])] ∅.
Definition new_plan : Plan :=
  mkPlan zeroExecution [mkStep 1 zeroHost (command_on "h" "b" []); mkStep 2 zeroHost (command_on "h" "c" [])] ∅.

Lemma DiffPlans_exact_witness :
  @changed old_plan new_plan "b" ∧ @DiffPlans plain_digests (Some old_plan) (Some new_plan) =
    mkDiff false ["c"] ["a"] ["b"] "2" "2".
Proof.
  assert (@DiffPlans plain_digests (Some old_plan) (Some new_plan) =
    mkDiff false ["c"] ["a"] ["b"] "2" "2") as HD by by vm_compute.
  split; [|exact HD].
  destruct (@DiffPlans_exact plain_digests old_plan new_plan) as (_ & _ & HC & _).
  - intros s t Hs Ht.
    repeat (apply elem_of_cons in Hs as [->|Hs]; [|]); [..|by apply elem_of_nil in Hs];
      (repeat (apply elem_of_cons in Ht as [->|Ht]; [|]); [..|by apply elem_of_nil in Ht]);
      vm_compute; discriminate.
  - cbn zeta in HC. rewrite HD in HC. apply (HC "b"). left.
Defined.
