(* ===== verification/ExecutionLocks.v ===== *)
(** * Execution locks: [internal/control/execution_locks.go]

    Named locks with a time to live, taken before a job is queued and bound to
    it.  The theorem is mutual exclusion: until it expires, a lock is lost only
    to a release of its key or of a job bound to its key. *)

From S2P Require Import Prelude.

Inductive LockStatus := LockActive | LockReleased | LockExpired.
#[export] Instance LockStatus_dec : EqDecision LockStatus.
Proof. solve_decision. Defined.

Record ExecutionLock : Type := mkLock {
  el_ID : string;
  el_Key : string;
  el_Holder : string;
  el_JobID : string;
  el_AcquiredAt : Time;
  el_ExpiresAt : Time;
  el_ReleasedAt : Time;
  el_Status : LockStatus;
}.
#[export] Instance ExecutionLock_eta : Eta ExecutionLock := λ r,
  mkLock (el_ID r) (el_Key r) (el_Holder r) (el_JobID r) (el_AcquiredAt r) (el_ExpiresAt r)
    (el_ReleasedAt r) (el_Status r).

Record ExecutionLockStore : Type := mkLockStore {
  ls_nextID : Z;
  ls_byKey : gmap string ExecutionLock;
  ls_byJob : gmap string string;
  ls_history : list ExecutionLock;
}.
#[export] Instance ExecutionLockStore_eta : Eta ExecutionLockStore := λ r,
  mkLockStore (ls_nextID r) (ls_byKey r) (ls_byJob r) (ls_history r).

Definition NewExecutionLockStore : ExecutionLockStore := mkLockStore 0 ∅ ∅ [].

Definition normalizeLockKey : string → string := norm.

Inductive lock_error := LockKeyRequired | LockHeld | LockNotActive | LockTimedOut.

(** The lock of a key ends: [status] and [released_at], and a copy in the history. *)
Definition end_lock (status : LockStatus) (now : Time) (l : ExecutionLock) : ExecutionLock :=
  l <| el_Status := status |> <| el_ReleasedAt := now |>.
Definition archive (l : ExecutionLock) (s : ExecutionLockStore) : ExecutionLockStore :=
  s <| ls_history := ls_history s ++ [l] |>.
Definition put_lock (l : ExecutionLock) (s : ExecutionLockStore) : ExecutionLockStore :=
  s <| ls_byKey := <[el_Key l := l]> (ls_byKey s) |>.

Definition is_active (l : ExecutionLock) : bool := bool_decide (el_Status l = LockActive).

Definition lock_ttl (ttl : Z) : Duration := seconds (if ttl <=? 0 then 600 else ttl).

Definition Acquire (key holder : string) (ttl : Z) (now : Time) (s : ExecutionLockStore)
    : ExecutionLockStore * result lock_error ExecutionLock :=
  let key := normalizeLockKey key in
  let holder := TrimSpace holder in
  if eqs key "" then (s, Err LockKeyRequired)
  else
    let holder := if eqs holder "" then "control-plane" else holder in
    let grant (s : ExecutionLockStore) :=
      let s := s <| ls_nextID := ls_nextID s + 1 |> in
      let l := mkLock ("exec-lock-" +:+ itoa (ls_nextID s)) key holder "" now (Add now (lock_ttl ttl)) 0 LockActive in
      (put_lock l s, Ok l) in
    match ls_byKey s !! key with
    | None => grant s
    | Some current =>
        if is_active current && Before now (el_ExpiresAt current) then (s, Err LockHeld)
        else if is_active current then
          let current := end_lock LockExpired now current in
          grant (archive current (put_lock current s))
        else grant s
    end.

Definition BindJob (key jobID : string) (now : Time) (s : ExecutionLockStore)
    : ExecutionLockStore * result lock_error ExecutionLock :=
  let key := normalizeLockKey key in
  let jobID := TrimSpace jobID in
  if eqs key "" || eqs jobID "" then (s, Err LockKeyRequired)
  else
    match ls_byKey s !! key with
    | None => (s, Err LockNotActive)
    | Some l =>
        if negb (is_active l) then (s, Err LockNotActive)
        else if negb (Before now (el_ExpiresAt l)) then
          let l := end_lock LockExpired now l in
          (archive l (put_lock l s), Err LockTimedOut)
        else
          let l := l <| el_JobID := jobID |> in
          (put_lock l s <| ls_byJob := <[jobID := key]> (ls_byJob s) |>, Ok l)
    end.

(** The key a release is about: its own, or the one its job was bound to. *)
Definition release_key (key jobID : string) (s : ExecutionLockStore) : string :=
  let key := normalizeLockKey key in
  let jobID := TrimSpace jobID in
  if eqs key "" && negb (eqs jobID "") then default "" (ls_byJob s !! jobID) else key.

Definition forget_job (l : ExecutionLock) (byJob : gmap string string) : gmap string string :=
  if eqs (el_JobID l) "" then byJob else delete (el_JobID l) byJob.

Definition Release (key jobID : string) (now : Time) (s : ExecutionLockStore)
    : ExecutionLockStore * option ExecutionLock :=
  let key := release_key key jobID s in
  if eqs key "" then (s, None)
  else
    match ls_byKey s !! key with
    | None => (s, None)
    | Some l =>
        let l := if is_active l then end_lock LockReleased now l else l in
        (mkLockStore (ls_nextID s) (delete key (ls_byKey s)) (forget_job l (ls_byJob s))
           (ls_history s ++ [l]), Some l)
    end.

(** One iteration of the loop of [CleanupExpired] over [s.byKey]. *)
Definition cleanup_one (now : Time) (st : ExecutionLockStore * list ExecutionLock)
    (kl : string * ExecutionLock) : ExecutionLockStore * list ExecutionLock :=
  let '(s, expired) := st in
  let '(key, l) := kl in
  if negb (is_active l) || Before now (el_ExpiresAt l) then st
  else
    let l := end_lock LockExpired now l in
    (mkLockStore (ls_nextID s) (delete key (ls_byKey s)) (forget_job l (ls_byJob s)) (ls_history s ++ [l]),
     expired ++ [l]).

Definition by_key (l k : ExecutionLock) : Prop := String.le (el_Key l) (el_Key k).
#[export] Instance by_key_dec l k : Decision (by_key l k).
Proof. unfold by_key. apply _. Defined.

Definition CleanupExpired (now : Time) (s : ExecutionLockStore) : ExecutionLockStore * list ExecutionLock :=
  let '(s, expired) := foldl (cleanup_one now) (s, []) (map_to_list (ls_byKey s)) in
  (s, merge_sort by_key expired).

(** [sort.Slice] leaves the order of equal elements open; here it is stable. *)
Definition released_later (l k : ExecutionLock) : Prop := el_ReleasedAt k ≤ el_ReleasedAt l.
#[export] Instance released_later_dec l k : Decision (released_later l k).
Proof. unfold released_later. apply _. Defined.

Definition List (includeHistory : bool) (s : ExecutionLockStore) : list ExecutionLock :=
  let active := merge_sort by_key (map_to_list (ls_byKey s)).*2 in
  if includeHistory then active ++ merge_sort released_later (ls_history s) else active.

(** ** Invariant *)

(** Locks are stored under their own key. *)
Definition lock_inv (s : ExecutionLockStore) : Prop :=
  ∀ key l, ls_byKey s !! key = Some l → el_Key l = key ∧ el_Status l ≠ LockReleased.

(** ** Calls *)

Inductive lock_op :=
  | OpAcquire (key holder : string) (ttl : Z)
  | OpBind (key jobID : string)
  | OpRelease (key jobID : string)
  | OpCleanup.

Definition run_lock_op (o : lock_op) (now : Time) (s : ExecutionLockStore) : ExecutionLockStore :=
  match o with
  | OpAcquire key holder ttl => (Acquire key holder ttl now s).1
  | OpBind key jobID => (BindJob key jobID now s).1
  | OpRelease key jobID => (Release key jobID now s).1
  | OpCleanup => (CleanupExpired now s).1
  end.

Definition run_lock_ops (ops : list (lock_op * Time)) (s : ExecutionLockStore) : ExecutionLockStore :=
  foldl (λ s oc, run_lock_op oc.1 oc.2 s) s ops.

(** [key] is held at [now]. *)
Definition held_at (key : string) (now : Time) (s : ExecutionLockStore) : option ExecutionLock :=
  match ls_byKey s !! key with
  | Some l => if is_active l && Before now (el_ExpiresAt l) then Some l else None
  | None => None
  end.

(** Whether a call releases [key] in the state it is made in. *)
Definition releases (key : string) (o : lock_op) (s : ExecutionLockStore) : Prop :=
  match o with OpRelease k j => release_key k j s = key | _ => False end.

Fixpoint never_releases (key : string) (ops : list (lock_op * Time)) (s : ExecutionLockStore) : Prop :=
  match ops with
  | [] => True
  | (o, now) :: ops => ¬ releases key o s ∧ never_releases key ops (run_lock_op o now s)
  end.

(** ** Lemmas *)

Lemma held_at_Some key now s l :
  held_at key now s = Some l ↔
  ls_byKey s !! key = Some l ∧ el_Status l = LockActive ∧ now < el_ExpiresAt l.
Proof.
  unfold held_at, is_active, Before. destruct (ls_byKey s !! key) as [k|]; [|by split; [|intros [? _]]].
  case_bool_decide as Ha; destruct (Z.ltb_spec now (el_ExpiresAt k)) as [Hn|Hn]; cbn.
  - split; [by intros [= <-]|by intros [? _]].
  - split; [done|]. intros ([= <-] & _ & ?). lia.
  - split; [done|]. by intros ([= <-] & ? & _).
  - split; [done|]. by intros ([= <-] & ? & _).
Qed.

Lemma lock_inv_insert l s s' :
  lock_inv s → el_Status l ≠ LockReleased → ls_byKey s' = <[el_Key l := l]> (ls_byKey s) → lock_inv s'.
Proof. intros Hs Hl Heq key k. rewrite Heq, lookup_insert_Some. intros [[<- <-]|[_ Hk]]; [done|by apply Hs]. Qed.

Lemma lock_inv_delete key s s' :
  lock_inv s → ls_byKey s' = delete key (ls_byKey s) → lock_inv s'.
Proof. intros Hs Heq k l. rewrite Heq, lookup_delete_Some. intros [_ Hk]. by apply Hs. Qed.

Lemma cleanup_deletes now kls s ex key l :
  ls_byKey (foldl (cleanup_one now) (s, ex) kls).1 !! key = Some l → ls_byKey s !! key = Some l.
Proof.
  revert s ex; induction kls as [|[k x] kls IH]; intros s ex; [done|]. cbn [foldl cleanup_one].
  destruct (_ || _); [apply IH|]. intros Hl%IH. cbn in Hl. by apply lookup_delete_Some in Hl as [_ ?].
Qed.

Lemma cleanup_keeps now kls s ex key l :
  ls_byKey s !! key = Some l → now < el_ExpiresAt l → (∀ k, (key, k) ∈ kls → k = l) →
  ls_byKey (foldl (cleanup_one now) (s, ex) kls).1 !! key = Some l.
Proof.
  intros Hl Hnow. revert s ex Hl; induction kls as [|[k x] kls IH]; intros s ex Hl Hkls; [done|].
  cbn [foldl cleanup_one]. destruct (_ || _) eqn:Hskip.
  - apply IH; [done|]. intros y Hy. apply Hkls. by right.
  - apply IH; [|intros y Hy; apply Hkls; by right]. cbn. rewrite lookup_delete_ne; [done|]. intros ->.
    assert (x = l) as -> by (apply Hkls; left).
    apply orb_false_iff in Hskip as [_ Hb]. unfold Before in Hb. lia.
Qed.

Lemma CleanupExpired_byKey now s key l :
  (ls_byKey (CleanupExpired now s).1 !! key = Some l → ls_byKey s !! key = Some l) ∧
  (ls_byKey s !! key = Some l → now < el_ExpiresAt l → ls_byKey (CleanupExpired now s).1 !! key = Some l).
Proof.
  unfold CleanupExpired. pose proof (cleanup_deletes now (map_to_list (ls_byKey s)) s [] key l) as Hd.
  pose proof (cleanup_keeps now (map_to_list (ls_byKey s)) s [] key l) as Hk.
  destruct (foldl (cleanup_one now) (s, []) (map_to_list (ls_byKey s))) as [s' ex]. cbn [fst] in *.
  split; [exact Hd|]. intros Hl Hnow. apply Hk; [done..|]. intros k Hin%elem_of_map_to_list. congruence.
Qed.

(** What [Acquire] does: it succeeds exactly when the key is not held. *)
Lemma Acquire_spec key holder ttl now s :
  let k := normalizeLockKey key in
  lock_inv s → k ≠ "" →
  match held_at k now s with
  | Some _ => Acquire key holder ttl now s = (s, Err LockHeld)
  | None => ∃ s' l, Acquire key holder ttl now s = (s', Ok l) ∧
      ls_byKey s' = <[k := l]> (ls_byKey s) ∧ ls_byJob s' = ls_byJob s ∧
      el_Key l = k ∧ el_Status l = LockActive ∧ el_JobID l = "" ∧
      el_Holder l = (if eqs (TrimSpace holder) "" then "control-plane" else TrimSpace holder) ∧
      el_AcquiredAt l = now ∧ el_ExpiresAt l = now + lock_ttl ttl
  end.
Proof.
  intros k Hinv Hk%eqs_false. unfold Acquire, held_at. fold k. rewrite Hk.
  destruct (ls_byKey s !! k) as [l|] eqn:Hl; [|by eexists _, _].
  destruct (is_active l) eqn:Ha; cbn; [|by eexists _, _].
  destruct (Before now (el_ExpiresAt l)); [done|]. eexists _, _. split; [reflexivity|].
  cbn. destruct (Hinv _ _ Hl) as [-> _]. by rewrite insert_insert_eq.
Qed.

Lemma Acquire_no_key key holder ttl now s :
  normalizeLockKey key = "" → Acquire key holder ttl now s = (s, Err LockKeyRequired).
Proof. unfold Acquire. by intros ->. Qed.

Lemma Acquire_cases key holder ttl now s :
  lock_inv s → (Acquire key holder ttl now s).1 = s ∨
  held_at (normalizeLockKey key) now s = None ∧ ∃ l, el_Key l = normalizeLockKey key ∧
    el_Status l = LockActive ∧
    ls_byKey (Acquire key holder ttl now s).1 = <[normalizeLockKey key := l]> (ls_byKey s).
Proof.
  intros Hinv. destruct (decide (normalizeLockKey key = "")) as [Hk|Hk].
  { left. by rewrite Acquire_no_key. }
  pose proof (Acquire_spec key holder ttl now s Hinv Hk) as Ha.
  destruct (held_at _ now s); [left; by rewrite Ha|right].
  destruct Ha as (s' & l & -> & Hb & _ & Hkey & Hst & _). split; [done|]. by exists l.
Qed.

Lemma run_lock_op_inv o now s : lock_inv s → lock_inv (run_lock_op o now s).
Proof.
  intros Hinv. destruct o; cbn [run_lock_op].
  - destruct (Acquire_cases key holder ttl now s Hinv) as [->|(_ & l & Hk & Hst & Hb)]; [done|].
    eapply (lock_inv_insert l s); [done|by rewrite Hst|by rewrite Hk].
  - unfold BindJob. destruct (_ || _); [done|]. destruct (_ !! _) as [l|] eqn:Hl; [|done].
    destruct (negb (is_active l)); [done|]. destruct (negb _); [by apply (lock_inv_insert (end_lock LockExpired now l) s)|].
    eapply (lock_inv_insert (l <| el_JobID := TrimSpace jobID |>) s); [done| |done]. by apply (Hinv _ _ Hl).
  - unfold Release. destruct (eqs _ ""); [done|]. destruct (_ !! _); [|done].
    by eapply lock_inv_delete.
  - intros key l Hl. apply (Hinv key l). by apply (CleanupExpired_byKey now).
Qed.

Lemma run_lock_ops_inv ops s : lock_inv s → lock_inv (run_lock_ops ops s).
Proof.
  revert s; induction ops as [|[o now] ops IH]; intros s Hs; [done|]. by apply IH, run_lock_op_inv.
Qed.

Lemma New_inv : lock_inv NewExecutionLockStore.
Proof. intros key l Hl. exact (False_ind _ (lookup_empty_Some _ _ Hl)). Qed.

(** The same grant: the job may have been bound since. *)
Definition same_grant (l k : ExecutionLock) : Prop :=
  el_ID l = el_ID k ∧ el_Key l = el_Key k ∧ el_Holder l = el_Holder k ∧
  el_AcquiredAt l = el_AcquiredAt k ∧ el_ExpiresAt l = el_ExpiresAt k ∧ el_Status l = el_Status k.

#[export] Instance same_grant_equiv : Equivalence same_grant.
Proof.
  unfold same_grant. split; [by intros l|by intros l k (? & ? & ? & ? & ? & ?)|].
  intros l k m (? & ? & ? & ? & ? & ?) (? & ? & ? & ? & ? & ?). split_and!; congruence.
Qed.

(** One call before the expiry keeps a lock it does not release. *)
Lemma run_lock_op_keeps o now s key l :
  lock_inv s → ls_byKey s !! key = Some l → el_Status l = LockActive → now < el_ExpiresAt l →
  ¬ releases key o s →
  ∃ l', ls_byKey (run_lock_op o now s) !! key = Some l' ∧ same_grant l' l.
Proof.
  intros Hinv Hl Hst Hnow Hrel.
  assert (held_at key now s = Some l) as Hheld by by apply held_at_Some.
  destruct o; cbn [run_lock_op].
  - destruct (Acquire_cases key0 holder ttl now s Hinv) as [->|(Hnot & k & _ & _ & ->)]; [by exists l|].
    exists l. split; [|done]. rewrite lookup_insert_ne; [done|]. intros <-. congruence.
  - unfold BindJob. destruct (_ || _); [by exists l|].
    destruct (ls_byKey s !! normalizeLockKey key0) as [k|] eqn:Hk; [|by exists l].
    destruct (Hinv _ _ Hk) as [Hkk _].
    destruct (negb (is_active k)); [by exists l|]. unfold Before.
    destruct (Z.ltb_spec now (el_ExpiresAt k)) as [Hb|Hb]; cbn; rewrite Hkk.
    + destruct (decide (normalizeLockKey key0 = key)) as [Heq|Hne].
      * rewrite Heq in *. rewrite Hk in Hl. injection Hl as ->. rewrite lookup_insert_eq. by eexists.
      * rewrite lookup_insert_ne by done. by exists l.
    + exists l. split; [|done]. rewrite lookup_insert_ne; [done|].
      intros <-. rewrite Hk in Hl. injection Hl as ->. lia.
  - unfold Release. cbn in Hrel. destruct (eqs _ ""); [by exists l|].
    destruct (ls_byKey s !! release_key key0 jobID s); [|by exists l].
    exists l. cbn. by rewrite lookup_delete_ne.
  - exists l. split; [|done]. by apply (CleanupExpired_byKey now s key l).
Qed.

Lemma run_lock_ops_keep ops s key l :
  lock_inv s → ls_byKey s !! key = Some l → el_Status l = LockActive →
  Forall (λ oc, oc.2 < el_ExpiresAt l) ops → never_releases key ops s →
  ∃ l', ls_byKey (run_lock_ops ops s) !! key = Some l' ∧ same_grant l' l.
Proof.
  revert s l; induction ops as [|[o now] ops IH]; intros s l Hinv Hl Hst Hnow Hrel; [by exists l|].
  apply Forall_cons in Hnow as [Hn Hnow]. destruct Hrel as [Hr Hrel].
  destruct (run_lock_op_keeps o now s key l Hinv Hl Hst Hn Hr) as (l1 & Hl1 & Hs1).
  destruct (IH (run_lock_op o now s) l1) as (l2 & Hl2 & Hs2).
  - by apply run_lock_op_inv.
  - done.
  - by rewrite (proj2 (proj2 (proj2 (proj2 (proj2 Hs1))))).
  - eapply Forall_impl; [done|]. intros [o' t']. by rewrite (proj1 (proj2 (proj2 (proj2 (proj2 Hs1))))).
  - done.
  - exists l2. split; [done|]. by transitivity l1.
Qed.

(** C13: mutual exclusion.  In any history of the store, [Acquire] of a key
    succeeds exactly when the key is not held, and grants it to the holder until
    [now + ttl].  After a grant, whatever calls are made before it expires and
    as long as none of them is a release that resolves to the key, the same
    grant is held and every other [Acquire] of the key is refused; from the
    expiry on it is granted again. *)
Theorem lock_excludes ops0 key holder ttl now0 :
  let s := run_lock_ops ops0 NewExecutionLockStore in
  let k := normalizeLockKey key in
  k ≠ "" →
  match held_at k now0 s with
  | Some _ => Acquire key holder ttl now0 s = (s, Err LockHeld)
  | None => ∃ s1 l, Acquire key holder ttl now0 s = (s1, Ok l) ∧
      el_Holder l = (if eqs (TrimSpace holder) "" then "control-plane" else TrimSpace holder) ∧
      el_ExpiresAt l = now0 + lock_ttl ttl ∧
      ∀ ops, Forall (λ oc, oc.2 < el_ExpiresAt l) ops → never_releases k ops s1 →
      let s2 := run_lock_ops ops s1 in
      (∀ now, now < el_ExpiresAt l →
         (∃ l', held_at k now s2 = Some l' ∧ same_grant l' l) ∧
         ∀ key' holder' ttl', normalizeLockKey key' = k →
           Acquire key' holder' ttl' now s2 = (s2, Err LockHeld)) ∧
      (∀ now, el_ExpiresAt l ≤ now → ∀ holder' ttl', ∃ s3 l3,
         Acquire key holder' ttl' now s2 = (s3, Ok l3))
  end.
Proof.
  intros s k Hk. assert (lock_inv s) as Hinv by apply run_lock_ops_inv, New_inv.
  pose proof (Acquire_spec key holder ttl now0 s Hinv Hk) as Ha. fold k in Ha.
  destruct (held_at k now0 s); [done|].
  destruct Ha as (s1 & l & -> & Hb & _ & Hlk & Hst & _ & Hh & _ & He). exists s1, l.
  split_and!; [done..|]. intros ops Hops Hrel s2.
  assert (lock_inv s1) as Hinv1 by (apply (lock_inv_insert l s); [done|by rewrite Hst|by rewrite Hlk]).
  assert (ls_byKey s1 !! k = Some l) as Hl by (by rewrite Hb, lookup_insert_eq).
  destruct (run_lock_ops_keep ops s1 k l Hinv1 Hl Hst Hops Hrel) as (l' & Hl' & Hsame).
  fold s2 in Hl'. assert (lock_inv s2) as Hinv2 by by apply run_lock_ops_inv.
  destruct Hsame as (H1 & H2 & H3 & H4 & H5 & H6). split; intros now Hnow.
  - assert (held_at k now s2 = Some l') as Hheld by (apply held_at_Some; split_and!; [done|congruence|lia]).
    split; [by exists l'|]. intros key' holder' ttl' Hk'.
    pose proof (Acquire_spec key' holder' ttl' now s2 Hinv2) as Ha. cbn zeta in Ha. rewrite Hk', Hheld in Ha.
    by apply Ha.
  - intros holder' ttl'. pose proof (Acquire_spec key holder' ttl' now s2 Hinv2 Hk) as Ha. fold k in Ha.
    destruct (held_at k now s2) as [l2|] eqn:Hheld.
    + apply held_at_Some in Hheld as (Hl2 & _ & Hlt). rewrite Hl' in Hl2. injection Hl2 as <-. lia.
    + destruct Ha as (s3 & l3 & -> & _). by eexists _, _.
Qed.

Lemma lock_excludes_witness :
  ∃ s1 l, Acquire " Deploy " "alice" 60 5 NewExecutionLockStore = (s1, Ok l) ∧ el_ExpiresAt l = 60000000005 ∧
    Acquire "deploy" "bob" 60 7 (run_lock_ops [(OpBind "deploy" "job-1", 6); (OpCleanup, 6)] s1) =
      (run_lock_ops [(OpBind "deploy" "job-1", 6); (OpCleanup, 6)] s1, Err LockHeld).
Proof.
  pose proof (lock_excludes [] " Deploy " "alice" 60 5 ltac:(vm_compute; discriminate)) as Hl.
  destruct (held_at _ 5 _) eqn:Hheld; [by vm_compute in Hheld|].
  destruct Hl as (s1 & l & Ha & _ & He & Hex). exists s1, l.
  assert (el_ExpiresAt l = 60000000005) as He' by (rewrite He; by vm_compute).
  split_and!; [exact Ha|exact He'|].
  apply (Hex [(OpBind "deploy" "job-1", 6); (OpCleanup, 6)]).
  - repeat constructor; cbn; lia.
  - cbn. tauto.
  - lia.
  - by vm_compute.
Defined.

(** ** What a stale binding breaks

    [Acquire] over an expired lock leaves the binding of its job in [byJob].
    When that job ends, its lock is released by job id: the lock of whoever
    holds the key by then. *)
Definition stale_binding : ExecutionLockStore :=
  run_lock_ops [(OpAcquire "db" "alice" 1, 0); (OpBind "db" "job-1", 1);
                (OpAcquire "db" "bob" 600, 2 * Second); (OpBind "db" "job-2", 2 * Second);
                (OpRelease "" "job-1", 3 * Second)] NewExecutionLockStore.

Theorem stale_job_releases_other_lock :
  held_at "db" (3 * Second) (run_lock_ops [(OpAcquire "db" "alice" 1, 0); (OpBind "db" "job-1", 1);
     (OpAcquire "db" "bob" 600, 2 * Second); (OpBind "db" "job-2", 2 * Second)] NewExecutionLockStore)
    ≠ None ∧
  held_at "db" (3 * Second) stale_binding = None ∧
  is_Ok (Acquire "db" "carol" 600 (3 * Second) stale_binding).2 = true.
Proof. split_and!; by vm_compute. Qed.
