(* ===== verification/LockedQueue.v ===== *)
(** * Jobs under a lock: [enqueueJobWithOptionalLock] of
    [internal/server/execution_locks.go] and the queue subscriber of
    [internal/server/server.go]

    The composition of [Queue.v] and [ExecutionLocks.v].  A submission takes the
    lock, queues the job and binds the lock to it in calls of their own: each
    runs under its own mutex and reads its own clock, and anything else may
    happen between them.  The subscriber releases the lock when the job has
    ended; it runs some time after the call that published the event. *)

From S2P Require Import Prelude Queue QueueInvariant QueueSpec ExecutionLocks.

(** [ct_due] is the events of jobs that the subscriber was not yet called with. *)
Record Control : Type := mkControl {
  ct_sys : System;
  ct_locks : ExecutionLockStore;
  ct_due : list Job;
}.
#[export] Instance Control_eta : Eta Control := λ r, mkControl (ct_sys r) (ct_locks r) (ct_due r).

Definition ct_queue (ct : Control) : Queue := sys_queue (ct_sys ct).

(** ** The subscriber *)

Definition server : string := "server".

Definition ended (j : Job) : bool :=
  bool_decide (j_Status j = JobSucceeded) || bool_decide (j_Status j = JobFailed)
  || bool_decide (j_Status j = JobCanceled).

Definition lock_subscriber (now : Time) (job : Job) (locks : ExecutionLockStore) : ExecutionLockStore :=
  if ended job then (Release "" (j_ID job) now locks).1 else locks.

(** The events for the server that the step from [q] to [q'] published. *)
Definition published (q q' : Queue) : list Job :=
  omap (λ ev : string * Job, if eqs ev.1 server then Some ev.2 else None) (drop (length (q_events q)) (q_events q')).

Definition with_ctl_system (s' : System) (ct : Control) : Control :=
  ct <| ct_sys := s' |> <| ct_due := ct_due ct ++ published (ct_queue ct) (sys_queue s') |>.

Definition with_ctl_queue (q' : Queue) (ct : Control) : Control :=
  with_ctl_system ((ct_sys ct) <| sys_queue := q' |>) ct.

(** ** Submission *)

Inductive submit_error :=
  | SubmitLock (e : lock_error)
  | SubmitQueue (e : enqueue_error)
  | SubmitBind (e : lock_error)
  | NilJob.      (* the nil dereference of [job.ID] *)

Record SubmitRequest : Type := mkSubmit {
  sr_configPath : string;
  sr_idempotencyKey : string;
  sr_force : bool;
  sr_priority : string;
  sr_lockKey : string;
  sr_lockTTLSeconds : Z;
  sr_lockOwner : string;
}.

(** Which call a submission makes next: [Acquire]; [Enqueue]; [Release] after a
    refused [Enqueue]; [BindJob]; [Release] and [Cancel] after a refused [BindJob]. *)
Inductive submit_phase :=
  | Submitting
  | Locked
  | Refused (e : enqueue_error)
  | Queued (job : Job)
  | Unbound (job : Job) (e : lock_error)
  | Unlocked (job : Job) (e : lock_error)
  | Returned (r : result submit_error Job).

Definition lock_owner (lockOwner idempotencyKey : string) : string :=
  let owner := TrimSpace lockOwner in
  let owner := if eqs owner "" then TrimSpace idempotencyKey else owner in
  if eqs owner "" then "control-plane" else owner.

Section submit.
Context `{TimeFormat}.

Definition submit_enqueue (r : SubmitRequest) (now : Time) (ct : Control) : Control * result enqueue_error (option Job) :=
  let '(q, res) := Enqueue (sr_configPath r) (sr_idempotencyKey r) (sr_force r) (sr_priority r) now (ct_queue ct) in
  (with_ctl_queue q ct, res).

(** The next call of [enqueueJobWithOptionalLock]. *)
Definition enqueueJobWithOptionalLock (r : SubmitRequest) (now : Time) (p : submit_phase) (ct : Control)
    : Control * submit_phase :=
  let lockKey := TrimSpace (sr_lockKey r) in
  match p with
  | Submitting =>
      if eqs lockKey "" then
        match submit_enqueue r now ct with
        | (ct, Ok (Some job)) => (ct, Returned (Ok job))
        | (ct, Ok None) => (ct, Returned (Err NilJob))
        | (ct, Err e) => (ct, Returned (Err (SubmitQueue e)))
        end
      else
        let owner := lock_owner (sr_lockOwner r) (sr_idempotencyKey r) in
        match Acquire lockKey owner (sr_lockTTLSeconds r) now (ct_locks ct) with
        | (locks, Err e) => (ct <| ct_locks := locks |>, Returned (Err (SubmitLock e)))
        | (locks, Ok _) => (ct <| ct_locks := locks |>, Locked)
        end
  | Locked =>
      match submit_enqueue r now ct with
      | (ct, Err e) => (ct, Refused e)
      | (ct, Ok None) => (ct, Returned (Err NilJob))
      | (ct, Ok (Some job)) => (ct, Queued job)
      end
  | Refused e => (ct <| ct_locks := (Release lockKey "" now (ct_locks ct)).1 |>, Returned (Err (SubmitQueue e)))
  | Queued job =>
      match BindJob lockKey (j_ID job) now (ct_locks ct) with
      | (locks, Err e) => (ct <| ct_locks := locks |>, Unbound job e)
      | (locks, Ok _) => (ct <| ct_locks := locks |>, Returned (Ok job))
      end
  | Unbound job e => (ct <| ct_locks := (Release lockKey "" now (ct_locks ct)).1 |>, Unlocked job e)
  | Unlocked job e => (with_ctl_queue (Cancel (j_ID job) now (ct_queue ct)).1 ct, Returned (Err (SubmitBind e)))
  | Returned _ => (ct, p)
  end.

(** ** Everything else: calls of the queue and of the locks, steps of the worker,
    the subscriber with one of the events that are due *)

Inductive ctl_call :=
  | CtlQueue (o : op)
  | CtlWorker (ch : choice)
  | CtlShutdown
  | CtlSubscriber (i : nat)
  | CtlLock (o : lock_op).

Definition run_ctl (c : ctl_call) (now : Time) (ct : Control) : Control :=
  match c with
  | CtlQueue o => with_ctl_queue (run_op o now (ct_queue ct)) ct
  | CtlWorker ch => match worker_step ch now (ct_sys ct) with Some s => with_ctl_system s ct | None => ct end
  | CtlShutdown => with_ctl_system ((ct_sys ct) <| sys_done := true |>) ct
  | CtlSubscriber i =>
      match ct_due ct !! i with
      | None => ct
      | Some job => ct <| ct_due := delete i (ct_due ct) |> <| ct_locks := lock_subscriber now job (ct_locks ct) |>
      end
  | CtlLock o => ct <| ct_locks := run_lock_op o now (ct_locks ct) |>
  end.

Definition run_ctls (cs : list (ctl_call * Time)) (ct : Control) : Control := foldl (λ ct c, run_ctl c.1 c.2 ct) ct cs.

Definition initial_control (buffer : Z) (now : Time) : Control :=
  with_ctl_queue (Subscribe (Some server) (NewQueue buffer now)) (mkControl (initial buffer now) NewExecutionLockStore []).

(** What a step does to the locks. *)
Definition lock_call (c : ctl_call) (ct : Control) : option lock_op :=
  match c with
  | CtlLock o => Some o
  | CtlSubscriber i => job ← ct_due ct !! i; if ended job then Some (OpRelease "" (j_ID job)) else None
  | _ => None
  end.

(** No step releases [key], and all of them come before [until]. *)
Fixpoint undisturbed (key : string) (until : Time) (cs : list (ctl_call * Time)) (ct : Control) : Prop :=
  match cs with
  | [] => True
  | (c, now) :: cs =>
      now < until ∧ (∀ o, lock_call c ct = Some o → ¬ releases key o (ct_locks ct)) ∧ undisturbed key until cs (run_ctl c now ct)
  end.
End submit.

(** ** Lemmas *)

Section control.
Context `{TimeFormat}.

Definition control_ok (ct : Control) : Prop := inv (ct_sys ct) ∧ lock_inv (ct_locks ct).

Lemma run_ctl_locks c now ct :
  ct_locks (run_ctl c now ct) = match lock_call c ct with Some o => run_lock_op o now (ct_locks ct) | None => ct_locks ct end.
Proof.
  destruct c; cbn; try done; [by destruct (worker_step _ _ _)|]. destruct (ct_due ct !! i) as [job|]; [|done]. cbn.
  unfold lock_subscriber. by destruct (ended job).
Qed.

Lemma run_ctl_next c now ct : q_nextID (ct_queue ct) ≤ q_nextID (ct_queue (run_ctl c now ct)).
Proof.
  destruct c; unfold ct_queue; cbn; try done.
  - apply run_op_next.
  - destruct (worker_step _ _ _) as [s|] eqn:Hs; [|done]. cbn. by erewrite (worker_step_next _ _ _ s).
  - by destruct (ct_due ct !! i).
Qed.

Lemma run_ctls_next cs ct : q_nextID (ct_queue ct) ≤ q_nextID (ct_queue (run_ctls cs ct)).
Proof. revert ct. induction cs as [|[c now] cs IH]; intros ct; [done|]. etrans; [apply run_ctl_next|apply IH]. Qed.

Lemma run_ctl_ok c now ct :
  q_nextID (ct_queue (run_ctl c now ct)) ≤ max_int64 → control_ok ct → control_ok (run_ctl c now ct).
Proof.
  intros Hmax [Hs Hl]. split.
  - destruct c; cbn in *; try done.
    + by apply run_op_inv.
    + destruct (worker_step _ _ _) as [s|] eqn:Hw; [|done]. by eapply worker_step_inv.
    + by destruct (ct_due ct !! i).
  - rewrite run_ctl_locks. destruct (lock_call c ct); [by apply run_lock_op_inv|done].
Qed.

Lemma run_ctls_ok cs ct : q_nextID (ct_queue (run_ctls cs ct)) ≤ max_int64 → control_ok ct → control_ok (run_ctls cs ct).
Proof.
  revert ct. induction cs as [|[c now] cs IH]; intros ct Hmax Hok; [done|]. apply IH; [done|]. apply run_ctl_ok; [|done].
  etrans; [apply run_ctls_next|exact Hmax].
Qed.

Lemma initial_control_ok buffer now : control_ok (initial_control buffer now).
Proof. split; [exact (initial_inv buffer now)|exact New_inv]. Qed.

Lemma undisturbed_keeps key cs ct l :
  lock_inv (ct_locks ct) → ls_byKey (ct_locks ct) !! key = Some l → el_Status l = LockActive →
  undisturbed key (el_ExpiresAt l) cs ct →
  ∃ l', ls_byKey (ct_locks (run_ctls cs ct)) !! key = Some l' ∧ same_grant l' l.
Proof.
  revert ct l. induction cs as [|[c now] cs IH]; intros ct l Hinv Hl Hst; [by exists l|]. intros (Hnow & Hrel & Hcs).
  assert (∃ l1, ls_byKey (ct_locks (run_ctl c now ct)) !! key = Some l1 ∧ same_grant l1 l) as (l1 & Hl1 & Hs1).
  { rewrite run_ctl_locks. destruct (lock_call c ct) as [o|] eqn:Ho; [|by exists l]. by apply run_lock_op_keeps; [..|apply Hrel]. }
  assert (lock_inv (ct_locks (run_ctl c now ct))) as Hinv1.
  { rewrite run_ctl_locks. destruct (lock_call c ct); [by apply run_lock_op_inv|done]. }
  pose proof Hs1 as (_ & _ & _ & _ & He & Hst1). destruct (IH (run_ctl c now ct) l1) as (l2 & Hl2 & Hs2).
  - done.
  - done.
  - by rewrite Hst1.
  - by rewrite He.
  - exists l2. split; [exact Hl2|]. by transitivity l1.
Qed.

Lemma undisturbed_grant key until cs ct l :
  lock_inv (ct_locks ct) → ls_byKey (ct_locks ct) !! key = Some l → el_Status l = LockActive → el_ExpiresAt l = until →
  undisturbed key until cs ct →
  ∃ l', ls_byKey (ct_locks (run_ctls cs ct)) !! key = Some l' ∧ same_grant l' l ∧ el_Status l' = LockActive ∧ el_ExpiresAt l' = until.
Proof.
  intros Hinv Hl Hst <- Hu. destruct (undisturbed_keeps key cs ct l Hinv Hl Hst Hu) as (l' & Hl' & Hs). exists l'.
  split_and!; [done|done| |]; destruct Hs as (_ & _ & _ & _ & ? & ?); congruence.
Qed.

Lemma Release_byKey lockKey now s :
  normalizeLockKey lockKey ≠ "" → ls_byKey (Release lockKey "" now s).1 = delete (normalizeLockKey lockKey) (ls_byKey s).
Proof.
  intros Hk. unfold Release, release_key. rewrite (proj2 (eqs_false _ _) Hk). cbn.
  rewrite (proj2 (eqs_false _ _) Hk).
  destruct (ls_byKey s !! normalizeLockKey lockKey) eqn:Hl; [done|]. cbn. by rewrite delete_id.
Qed.

Lemma normalize_trim k : normalizeLockKey (TrimSpace k) = normalizeLockKey k.
Proof. unfold normalizeLockKey, norm. by rewrite TrimSpace_idemp. Qed.

Lemma normalize_blank k : normalizeLockKey k ≠ "" → TrimSpace k ≠ "".
Proof. unfold normalizeLockKey, norm. intros Hne Heq. apply Hne. by rewrite Heq. Qed.

Lemma lock_owner_trimmed owner key :
  (if eqs (TrimSpace (lock_owner owner key)) "" then "control-plane" else TrimSpace (lock_owner owner key))
  = lock_owner owner key.
Proof.
  unfold lock_owner. destruct (eqs (TrimSpace owner) "") eqn:Ho; [destruct (eqs (TrimSpace key) "") eqn:Hk|].
  - done.
  - by rewrite TrimSpace_idemp, Hk.
  - by rewrite Ho, TrimSpace_idemp, Ho.
Qed.

(** [BindJob] succeeds exactly while the key is held. *)
Lemma BindJob_spec lockKey jobID now s :
  let k := normalizeLockKey lockKey in
  k ≠ "" → TrimSpace jobID ≠ "" → lock_inv s →
  match held_at k now s with
  | Some l => ∃ s', BindJob lockKey jobID now s = (s', Ok (l <| el_JobID := TrimSpace jobID |>)) ∧
      ls_byKey s' = <[k := l <| el_JobID := TrimSpace jobID |>]> (ls_byKey s) ∧ ls_byJob s' !! TrimSpace jobID = Some k
  | None => ∃ s' e, BindJob lockKey jobID now s = (s', Err e) ∧ lock_inv s' ∧ ∀ k', k' ≠ k → ls_byKey s' !! k' = ls_byKey s !! k'
  end.
Proof.
  intros k Hk Hj Hinv. pose proof (run_lock_op_inv (OpBind lockKey jobID) now s Hinv) as Hinv'. cbn [run_lock_op] in Hinv'.
  unfold BindJob, held_at in *. fold k in Hinv' |- *.
  rewrite (proj2 (eqs_false _ _) Hk), (proj2 (eqs_false _ _) Hj) in Hinv' |- *. cbn [orb] in *.
  destruct (ls_byKey s !! k) as [l|] eqn:Hl; [|by eexists _, _]. destruct (Hinv _ _ Hl) as [Hkey _].
  destruct (is_active l); cbn in *; [|by eexists _, _]. destruct (Before now (el_ExpiresAt l)); cbn in *.
  - eexists. split; [reflexivity|]. cbn. by rewrite Hkey, lookup_insert_eq.
  - eexists _, _. split; [reflexivity|]. split; [done|]. intros k' Hne. cbn. by rewrite Hkey, lookup_insert_ne.
Qed.

(** The subscriber releases the key that the job is bound to. *)
Lemma subscriber_releases now j s k :
  ls_byJob s !! TrimSpace (j_ID j) = Some k → k ≠ "" → TrimSpace (j_ID j) ≠ "" → ended j = true →
  ls_byKey (lock_subscriber now j s) !! k = None.
Proof.
  intros Hb Hk Hj Hend. unfold lock_subscriber. rewrite Hend.
  unfold Release, release_key. change (normalizeLockKey "") with "".
  rewrite eqs_refl, (proj2 (eqs_false _ _) Hj), Hb. cbn. rewrite (proj2 (eqs_false _ _) Hk).
  destruct (ls_byKey s !! k) eqn:Hl; [|done]. cbn. by rewrite lookup_delete_eq.
Qed.

Lemma held_at_None key now s : ls_byKey s !! key = None → held_at key now s = None.
Proof. unfold held_at. by intros ->. Qed.

Lemma other_keys o now s k' :
  lock_inv s → match o with OpAcquire key _ _ | OpBind key _ => k' ≠ normalizeLockKey key | OpRelease key job => k' ≠ release_key key job s | OpCleanup => False end →
  ls_byKey (run_lock_op o now s) !! k' = ls_byKey s !! k'.
Proof.
  intros Hinv. destruct o; cbn [run_lock_op]; intros Hne; [| | |done].
  - destruct (Acquire_cases key holder ttl now s Hinv) as [->|(_ & l & _ & _ & ->)]; [done|]. by rewrite lookup_insert_ne.
  - unfold BindJob. destruct (_ || _); [done|]. destruct (ls_byKey s !! normalizeLockKey key) as [l|] eqn:Hl; [|done].
    destruct (Hinv _ _ Hl) as [Hkey _]. destruct (negb (is_active l)); [done|].
    destruct (negb _); cbn; by rewrite Hkey, lookup_insert_ne.
  - unfold Release. destruct (eqs _ ""); [done|]. destruct (ls_byKey s !! release_key key jobID s); [|done]. cbn.
    by rewrite lookup_delete_ne.
Qed.

Lemma release_key_only key s : release_key key "" s = normalizeLockKey key.
Proof. unfold release_key. change (TrimSpace "") with "". by rewrite eqs_refl, andb_false_r. Qed.

Lemma submit_enqueue_locks r now ct : ct_locks (submit_enqueue r now ct).1 = ct_locks ct.
Proof. unfold submit_enqueue. by destruct (Enqueue _ _ _ _ _ _). Qed.

(** No call of a submission changes the lock of another key. *)
Lemma submission_other_keys r now p ct k' :
  lock_inv (ct_locks ct) → k' ≠ normalizeLockKey (sr_lockKey r) →
  ls_byKey (ct_locks (enqueueJobWithOptionalLock r now p ct).1) !! k' = ls_byKey (ct_locks ct) !! k'.
Proof.
  intros Hinv Hne. set (lockKey := TrimSpace (sr_lockKey r)).
  assert (k' ≠ normalizeLockKey lockKey) as Hne' by (unfold lockKey; by rewrite normalize_trim).
  pose proof (submit_enqueue_locks r now ct) as Heq. unfold enqueueJobWithOptionalLock. fold lockKey. destruct p.
  - destruct (eqs lockKey ""); [destruct (submit_enqueue r now ct) as [ct' [[job|]|e]]; cbn in *; by rewrite Heq|].
    pose proof (other_keys (OpAcquire lockKey (lock_owner (sr_lockOwner r) (sr_idempotencyKey r)) (sr_lockTTLSeconds r)) now
      (ct_locks ct) k' Hinv Hne') as Ho. cbn [run_lock_op] in Ho. by destruct (Acquire _ _ _ _ _) as [s [l|e]].
  - destruct (submit_enqueue r now ct) as [ct' [[job|]|e']]; cbn in *; by rewrite Heq.
  - apply (other_keys (OpRelease lockKey "") now _ _ Hinv). by rewrite release_key_only.
  - pose proof (other_keys (OpBind lockKey (j_ID job)) now (ct_locks ct) k' Hinv Hne') as Ho. cbn [run_lock_op] in Ho.
    by destruct (BindJob _ _ _ _) as [s [l|e]].
  - apply (other_keys (OpRelease lockKey "") now _ _ Hinv). by rewrite release_key_only.
  - done.
  - done.
Qed.

Lemma submission_next r now p ct : q_nextID (ct_queue ct) ≤ q_nextID (ct_queue (enqueueJobWithOptionalLock r now p ct).1).
Proof.
  assert (q_nextID (ct_queue ct) ≤ q_nextID (ct_queue (submit_enqueue r now ct).1)) as He.
  { pose proof (run_op_next (OpEnqueue (sr_configPath r) (sr_idempotencyKey r) (sr_force r) (sr_priority r)) now (ct_queue ct)) as Hn.
    unfold submit_enqueue. cbn [run_op] in Hn. by destruct (Enqueue _ _ _ _ _ _). }
  unfold enqueueJobWithOptionalLock. destruct p; try done.
  - destruct (eqs _ ""); [by destruct (submit_enqueue r now ct) as [ct' [[job|]|e]]|]. by destruct (Acquire _ _ _ _ _) as [s [l|e]].
  - by destruct (submit_enqueue r now ct) as [ct' [[job|]|e']].
  - by destruct (BindJob _ _ _ _) as [s [l|e]].
  - apply (run_op_next (OpCancel (j_ID job))).
Qed.

(** The calls of a submission keep the invariants. *)
Lemma submission_ok r now p ct :
  q_nextID (ct_queue ct) < max_int64 → control_ok ct → control_ok (enqueueJobWithOptionalLock r now p ct).1.
Proof.
  intros Hmax [Hs Hl]. set (lockKey := TrimSpace (sr_lockKey r)).
  assert (control_ok (submit_enqueue r now ct).1) as Henq.
  { split; [|by rewrite submit_enqueue_locks]. unfold submit_enqueue.
    pose proof (Enqueue_inv (sr_configPath r) (sr_idempotencyKey r) (sr_force r) (sr_priority r) now (ct_queue ct) (sys_phase (ct_sys ct))) as He.
    pose proof (Enqueue_next (sr_configPath r) (sr_idempotencyKey r) (sr_force r) (sr_priority r) now (ct_queue ct)).
    destruct (Enqueue _ _ _ _ _ _) as [q' res]. apply He; [done|cbn in *; lia]. }
  assert (∀ o, control_ok (ct <| ct_locks := run_lock_op o now (ct_locks ct) |>)) as Hlock.
  { intros o. split; [exact Hs|]. by apply run_lock_op_inv. }
  unfold enqueueJobWithOptionalLock. fold lockKey. destruct p.
  - destruct (eqs lockKey ""); [by destruct (submit_enqueue r now ct) as [ct' [[job|]|e]]|].
    specialize (Hlock (OpAcquire lockKey (lock_owner (sr_lockOwner r) (sr_idempotencyKey r)) (sr_lockTTLSeconds r))).
    cbn [run_lock_op] in Hlock. by destruct (Acquire _ _ _ _ _) as [s [l|e]].
  - by destruct (submit_enqueue r now ct) as [ct' [[job|]|e']].
  - exact (Hlock (OpRelease lockKey "")).
  - specialize (Hlock (OpBind lockKey (j_ID job))). cbn [run_lock_op] in Hlock. by destruct (BindJob _ _ _ _) as [s [l|e]].
  - exact (Hlock (OpRelease lockKey "")).
  - split; [|exact Hl]. by apply Cancel_inv.
  - done.
Qed.

(** *** The three calls *)

Definition submit_acquire_spec (r : SubmitRequest) (t1 : Time) (ct0 ct1 : Control) (p1 : submit_phase) : Prop :=
  let k := normalizeLockKey (sr_lockKey r) in
  match held_at k t1 (ct_locks ct0) with
  | Some _ => p1 = Returned (Err (SubmitLock LockHeld)) ∧ ct1 = ct0
  | None => p1 = Locked ∧ ∃ l, ls_byKey (ct_locks ct1) !! k = Some l ∧ el_Status l = LockActive ∧
      el_Holder l = lock_owner (sr_lockOwner r) (sr_idempotencyKey r) ∧ el_ExpiresAt l = t1 + lock_ttl (sr_lockTTLSeconds r) ∧
      ct_sys ct1 = ct_sys ct0 ∧ ct_due ct1 = ct_due ct0
  end.

Lemma submit_acquire r t1 ct0 :
  normalizeLockKey (sr_lockKey r) ≠ "" → lock_inv (ct_locks ct0) →
  let '(ct1, p1) := enqueueJobWithOptionalLock r t1 Submitting ct0 in submit_acquire_spec r t1 ct0 ct1 p1.
Proof.
  intros Hk Hinv. unfold enqueueJobWithOptionalLock, submit_acquire_spec. rewrite (proj2 (eqs_false _ _) (normalize_blank _ Hk)).
  pose proof (Acquire_spec (TrimSpace (sr_lockKey r)) (lock_owner (sr_lockOwner r) (sr_idempotencyKey r)) (sr_lockTTLSeconds r) t1 (ct_locks ct0) Hinv) as Ha.
  cbn zeta in Ha. rewrite normalize_trim in Ha. specialize (Ha Hk). destruct (held_at _ t1 (ct_locks ct0)).
  { rewrite Ha. split; [done|]. by destruct ct0. }
  destruct Ha as (s1 & l & -> & Hb1 & _ & _ & Hst & _ & Hown & _ & Hexp). split; [done|]. exists l. cbn.
  rewrite Hb1, lookup_insert_eq. split_and!; try done. by rewrite Hown, lock_owner_trimmed.
Qed.

Definition same_jobs (q q' : Queue) : Prop := q_jobs q' = q_jobs q ∧ ∀ c, chan c q' = chan c q.

Lemma submit_queue r t2 ct :
  control_ok ct → q_nextID (ct_queue ct) < max_int64 →
  let '(ct', p) := enqueueJobWithOptionalLock r t2 Locked ct in
  let '(q', res) := Enqueue (sr_configPath r) (sr_idempotencyKey r) (sr_force r) (sr_priority r) t2 (ct_queue ct) in
  ct_queue ct' = q' ∧ ct_locks ct' = ct_locks ct ∧
  match p with
  | Refused e => res = Err e ∧ same_jobs (ct_queue ct) q'
  | Queued job => res = Ok (Some job) ∧ TrimSpace (j_ID job) ≠ ""
  | _ => False
  end.
Proof.
  intros [Hs _] Hmax. unfold enqueueJobWithOptionalLock, submit_enqueue.
  pose proof (enqueue_spec (sr_configPath r) (sr_idempotencyKey r) (sr_force r) (sr_priority r) t2 (ct_queue ct) _ Hs Hmax) as He.
  pose proof (Enqueue_job_id (sr_configPath r) (sr_idempotencyKey r) (sr_force r) (sr_priority r) t2 (ct_queue ct) (sys_phase (ct_sys ct))) as Hid.
  cbn zeta in He. destruct (Enqueue _ _ _ _ _ _) as [q' [[job|]|e]]; cbn [snd] in *; [|done|].
  - split; [done|]. split; [done|]. split; [done|]. by apply Hid.
  - split; [done|]. split; [done|]. split; [done|]. split; apply He.
Qed.

Lemma submit_bind r t3 ct job :
  normalizeLockKey (sr_lockKey r) ≠ "" → lock_inv (ct_locks ct) → TrimSpace (j_ID job) ≠ "" →
  let k := normalizeLockKey (sr_lockKey r) in
  let '(ct', p) := enqueueJobWithOptionalLock r t3 (Queued job) ct in
  match held_at k t3 (ct_locks ct) with
  | Some l => p = Returned (Ok job) ∧ ls_byKey (ct_locks ct') !! k = Some (l <| el_JobID := TrimSpace (j_ID job) |>) ∧
      ls_byJob (ct_locks ct') !! TrimSpace (j_ID job) = Some k
  | None => ∃ e, p = Unbound job e
  end.
Proof.
  intros Hk Hinv Hj. pose proof (BindJob_spec (TrimSpace (sr_lockKey r)) (j_ID job) t3 (ct_locks ct)) as Hb. cbn zeta in Hb.
  rewrite normalize_trim in Hb. specialize (Hb Hk Hj Hinv). cbn [enqueueJobWithOptionalLock].
  destruct (held_at _ t3 (ct_locks ct)) as [l|].
  - destruct Hb as (s' & -> & Hs' & Hbj). cbn. by rewrite Hs', lookup_insert_eq.
  - destruct Hb as (s' & e & -> & _). by exists e.
Qed.

(** C14: a submission under a lock, with anything else happening between its
    calls.  It is refused, without effect, exactly when the lock is held at that
    moment.  Otherwise it holds the lock; when the queue refuses the job no job
    was added, and the next call frees the lock.  A job is returned exactly when
    the key is still held at the last call, and the lock then names the job.  As
    long as nobody releases the key and the lock does not expire, it is the lock
    that was taken: the job is returned, and the lock is held for it.  The
    subscriber that is called with the end of the job frees the key the job is
    bound to.  Locks of other keys are never touched. *)
Theorem submit_under_lock r buffer start ops0 t1 ops1 t2 ops2 t3 ops3 :
  let k := normalizeLockKey (sr_lockKey r) in
  let until := t1 + lock_ttl (sr_lockTTLSeconds r) in
  let ct0 := run_ctls ops0 (initial_control buffer start) in
  let '(ct1, p1) := enqueueJobWithOptionalLock r t1 Submitting ct0 in
  let ct1' := run_ctls ops1 ct1 in
  let '(ct2, p2) := enqueueJobWithOptionalLock r t2 p1 ct1' in
  let ct2' := run_ctls ops2 ct2 in
  let '(ct3, p3) := enqueueJobWithOptionalLock r t3 p2 ct2' in
  let ct4 := run_ctls ops3 ct3 in
  k ≠ "" → q_nextID (ct_queue ct2') < max_int64 →
  match held_at k t1 (ct_locks ct0) with
  | Some _ => p1 = Returned (Err (SubmitLock LockHeld)) ∧ ct1 = ct0
  | None =>
      ∃ l, ls_byKey (ct_locks ct1) !! k = Some l ∧ el_Status l = LockActive ∧
      el_Holder l = lock_owner (sr_lockOwner r) (sr_idempotencyKey r) ∧ el_ExpiresAt l = until ∧
      match p2 with
      | Refused e =>
          (Enqueue (sr_configPath r) (sr_idempotencyKey r) (sr_force r) (sr_priority r) t2 (ct_queue ct1')).2 = Err e ∧
          same_jobs (ct_queue ct1') (ct_queue ct2) ∧
          p3 = Returned (Err (SubmitQueue e)) ∧ ∀ t, held_at k t (ct_locks ct3) = None
      | Queued job =>
          (Enqueue (sr_configPath r) (sr_idempotencyKey r) (sr_force r) (sr_priority r) t2 (ct_queue ct1')).2 = Ok (Some job) ∧
          (if held_at k t3 (ct_locks ct2') is Some l'
           then p3 = Returned (Ok job) ∧ held_at k t3 (ct_locks ct3) = Some (l' <| el_JobID := TrimSpace (j_ID job) |>)
           else ∃ e, p3 = Unbound job e) ∧
          (undisturbed k until ops1 ct1 → undisturbed k until ops2 ct2 → t3 < until →
           p3 = Returned (Ok job) ∧
           (undisturbed k until ops3 ct3 →
            ∀ t, t < until → ∃ l', held_at k t (ct_locks ct4) = Some l' ∧ same_grant l' l)) ∧
          (∀ i job', ct_due ct4 !! i = Some job' → j_ID job' = j_ID job → ended job' = true →
           ls_byJob (ct_locks ct4) !! TrimSpace (j_ID job) = Some k →
           ∀ t t', held_at k t' (ct_locks (run_ctl (CtlSubscriber i) t ct4)) = None)
      | _ => False
      end
  end ∧
  ∀ k', k' ≠ k →
    ls_byKey (ct_locks ct1) !! k' = ls_byKey (ct_locks ct0) !! k' ∧
    ls_byKey (ct_locks ct2) !! k' = ls_byKey (ct_locks ct1') !! k' ∧
    ls_byKey (ct_locks ct3) !! k' = ls_byKey (ct_locks ct2') !! k'.
Proof.
  intros k until ct0. pose proof (submission_next r t1 Submitting ct0) as Hn1. pose proof (submission_other_keys r t1 Submitting ct0) as Ho1.
  pose proof (submit_acquire r t1 ct0) as Ha. destruct (enqueueJobWithOptionalLock r t1 Submitting ct0) as [ct1 p1] eqn:H1.
  intros ct1'. pose proof (submission_next r t2 p1 ct1') as Hn2. pose proof (submission_other_keys r t2 p1 ct1') as Ho2.
  destruct (enqueueJobWithOptionalLock r t2 p1 ct1') as [ct2 p2] eqn:H2. intros ct2'.
  pose proof (submission_other_keys r t3 p2 ct2') as Ho3.
  destruct (enqueueJobWithOptionalLock r t3 p2 ct2') as [ct3 p3] eqn:H3. intros ct4 Hk Hmax. cbn [fst] in *.
  pose proof (run_ctls_next ops1 ct1) as Hm1. fold ct1' in Hm1. pose proof (run_ctls_next ops2 ct2) as Hm2. fold ct2' in Hm2.
  assert (control_ok ct0) as Hok0 by (apply run_ctls_ok; [fold ct0; lia|apply initial_control_ok]).
  assert (control_ok ct1) as Hok.
  { pose proof (submission_ok r t1 Submitting ct0) as H0. rewrite H1 in H0. apply H0; [lia|done]. }
  assert (control_ok ct1') as Hok1 by (apply run_ctls_ok; [fold ct1'; lia|done]).
  assert (control_ok ct2') as Hok2.
  { apply run_ctls_ok; [fold ct2'; lia|]. pose proof (submission_ok r t2 p1 ct1') as H0. rewrite H2 in H0. apply H0; [lia|done]. }
  assert (lock_inv (ct_locks ct3)) as Hok3.
  { pose proof (submission_ok r t3 p2 ct2' Hmax Hok2) as H0. rewrite H3 in H0. apply H0. }
  split; [|intros k' Hk'; split_and!; [apply Ho1|apply Ho2|apply Ho3]; try done; apply Hok0 || apply Hok1 || apply Hok2].
  specialize (Ha Hk (proj2 Hok0)). unfold submit_acquire_spec in Ha. fold k in Ha.
  destruct (held_at k t1 (ct_locks ct0)); [done|]. destruct Ha as (-> & l & Hl & Hst & Hown & Hexp & _). fold until in Hexp. clearbody until. exists l. split_and!; try done.
  pose proof (submit_queue r t2 ct1' Hok1 ltac:(lia)) as Hq. rewrite H2 in Hq. destruct (Enqueue _ _ _ _ _ _) as [q' res].
  destruct Hq as (Hq' & Hlocks & Hq). destruct p2 as [| |e|job| | |]; try done.
  - destruct Hq as (-> & Hsame). rewrite Hq'. cbn in H3. injection H3 as <- <-. split_and!; try done.
    intros t. apply held_at_None. cbn. rewrite Release_byKey by by rewrite normalize_trim. rewrite normalize_trim. apply lookup_delete_eq.
  - destruct Hq as (-> & Hid). split; [done|].
    pose proof (submit_bind r t3 ct2' job Hk (proj2 Hok2) Hid) as Hb. cbn zeta in Hb. rewrite H3 in Hb. fold k in Hb.
    assert (∀ i job', ct_due ct4 !! i = Some job' → j_ID job' = j_ID job → ended job' = true →
      ls_byJob (ct_locks ct4) !! TrimSpace (j_ID job) = Some k →
      ∀ t t', held_at k t' (ct_locks (run_ctl (CtlSubscriber i) t ct4)) = None) as Hfree.
    { intros i job' Hi Heq Hend Hbj t t'. apply held_at_None. cbn [run_ctl]. rewrite Hi. cbn. apply subscriber_releases; by rewrite ?Heq. }
    split_and!; [| |exact Hfree].
    + destruct (held_at k t3 (ct_locks ct2')) as [l'|] eqn:Hheld; [|done]. destruct Hb as (-> & Hbk & _). split; [done|].
      apply held_at_Some in Hheld as (_ & ? & ?). by apply held_at_Some.
    + intros Hu1 Hu2 Ht3.
      destruct (undisturbed_grant k until ops1 ct1 l) as (l1 & Hl1 & Hs1 & Hst1 & Hexp1); [apply Hok|done..|].
      destruct (undisturbed_grant k until ops2 ct2 l1) as (l2 & Hl2 & Hs2 & Hst2 & Hexp2);
        [rewrite Hlocks; apply Hok1|by rewrite Hlocks|done..|]. fold ct2' in Hl2.
      assert (held_at k t3 (ct_locks ct2') = Some l2) as Hheld by (apply held_at_Some; split_and!; [done|done|lia]).
      rewrite Hheld in Hb. destruct Hb as (-> & Hbk & _). split; [done|]. intros Hu3 t Ht.
      destruct (undisturbed_grant k until ops3 ct3 _ Hok3 Hbk Hst2 Hexp2 Hu3) as (l3 & Hl3 & Hs3 & Hst3 & Hexp3).
      exists l3. split; [apply held_at_Some; split_and!; [done|done|lia]|].
      etrans; [exact Hs3|]. by transitivity l2; [|transitivity l1].
Qed.

(** A lock that was lost before the job could be bound: the next two calls free
    the key and cancel the job, unless it has finished. *)
Theorem failed_bind_undone r job e t4 ops t5 ct :
  normalizeLockKey (sr_lockKey r) ≠ "" → control_ok ct → 
  let '(ct1, p1) := enqueueJobWithOptionalLock r t4 (Unbound job e) ct in
  let '(ct2, p2) := enqueueJobWithOptionalLock r t5 p1 (run_ctls ops ct1) in
  q_nextID (ct_queue (run_ctls ops ct1)) ≤ max_int64 →
  (∀ t, held_at (normalizeLockKey (sr_lockKey r)) t (ct_locks ct1) = None) ∧ p2 = Returned (Err (SubmitBind e)) ∧
  ∀ j, q_jobs (ct_queue ct2) !! j_ID job = Some j → ended j = true.
Proof.
  intros Hk [Hs Hl]. cbn [enqueueJobWithOptionalLock]. set (ct1 := ct <| ct_locks := _ |>). intros Hmax.
  assert (control_ok (run_ctls ops ct1)) as [Hs1 _].
  { apply run_ctls_ok; [done|]. split; [exact Hs|]. by apply (run_lock_op_inv (OpRelease (TrimSpace (sr_lockKey r)) "")). }
  split_and!; [|done|].
  - intros t. apply held_at_None. cbn. rewrite Release_byKey by by rewrite normalize_trim. rewrite normalize_trim. apply lookup_delete_eq.
  - intros j. unfold ct_queue at 1. cbn [ct_sys with_ctl_queue with_ctl_system sys_queue update_field]. revert Hs1.
    change (inv (ct_sys (run_ctls ops ct1))) with (queue_inv (ct_queue (run_ctls ops ct1)) (sys_phase (ct_sys (run_ctls ops ct1)))).
    generalize (ct_queue (run_ctls ops ct1)), (sys_phase (ct_sys (run_ctls ops ct1))). clear. intros q ph Hq. cbn.
    unfold Cancel. destruct (q_jobs q !! j_ID job) as [j0|] eqn:Hj0; [|cbn; by rewrite Hj0].
    destruct (finished (j_Status j0)) eqn:Hf; cbn.
    + rewrite Hj0. intros [= ->]. unfold finished in Hf. unfold ended. by rewrite Hf.
    + rewrite (queue_inv_id _ _ _ _ Hq Hj0), lookup_insert_eq. by intros [= <-].
Qed.

(** A submission returns: it makes at most five calls. *)
Definition calls_left (p : submit_phase) : nat :=
  match p with
  | Submitting => 5 | Locked => 4 | Queued _ => 3 | Unbound _ _ => 2 | Refused _ | Unlocked _ _ => 1 | Returned _ => 0
  end%nat.

Lemma submission_returns r now p ct :
  (calls_left p = 0 ∨ calls_left (enqueueJobWithOptionalLock r now p ct).2 < calls_left p)%nat.
Proof.
  destruct p; cbn; try (right; lia); [| | |by left]; right.
  - destruct (eqs _ ""); [destruct (submit_enqueue r now ct) as [ct' [[job|]|e]]; cbn; lia|].
    destruct (Acquire _ _ _ _ _) as [s [l|e]]; cbn; lia.
  - destruct (submit_enqueue r now ct) as [ct' [[job|]|e']]; cbn; lia.
  - destruct (BindJob _ _ _ _) as [s [l|e]]; cbn; lia.
Qed.
End control.

(** ** Concrete submissions *)

#[local] Existing Instance plain_time.

Definition demo_request (owner : string) : SubmitRequest := mkSubmit "db.yaml" "release-7" false "" "DB " 600 owner.

(** The worker takes a job and executes it, successfully; the subscriber is then
    called with the events that are due. *)
Definition execute_one (now : Time) : list (ctl_call * Time) :=
  [(CtlWorker Continue, now); (CtlWorker Continue, now); (CtlWorker Continue, now); (CtlWorker Continue, now); 
   (CtlWorker Continue, now); (CtlWorker Continue, now); (CtlWorker (Applied None), now)].
Definition run_subscriber (n : nat) (now : Time) : list (ctl_call * Time) := replicate n (CtlSubscriber 0, now).

(** A submission with other steps before its second and third call. *)
Definition demo (r : SubmitRequest) (t1 : Time) (ops1 : list (ctl_call * Time)) (t2 : Time) (ops2 : list (ctl_call * Time)) (t3 : Time)
    (ct : Control) : Control * submit_phase :=
  let '(ct, p) := enqueueJobWithOptionalLock r t1 Submitting ct in
  let '(ct, p) := enqueueJobWithOptionalLock r t2 p (run_ctls ops1 ct) in
  enqueueJobWithOptionalLock r t3 p (run_ctls ops2 ct).

Definition demo_start : Control := initial_control 4 0.

Lemma submit_under_lock_witness :
  ∃ job ct l, demo (demo_request "") 1 [(CtlQueue OpPause, 1)] 2 [(CtlQueue OpResume, 2)] 3 demo_start = (ct, Returned (Ok job)) ∧
    (∃ l', held_at "db" 5 (ct_locks (run_ctls (execute_one 4) ct)) = Some l' ∧ same_grant l' l) ∧ el_Holder l = "release-7".
Proof.
  pose proof (submit_under_lock (demo_request "") 4 0 [] 1 [(CtlQueue OpPause, 1)] 2 [(CtlQueue OpResume, 2)] 3 (execute_one 4)) as Hs.
  unfold demo. change (run_ctls [] (initial_control 4 0)) with demo_start in Hs. cbv zeta in Hs.
  destruct (enqueueJobWithOptionalLock (demo_request "") 1 Submitting demo_start) as [ct1 p1] eqn:H1.
  destruct (enqueueJobWithOptionalLock (demo_request "") 2 p1 _) as [ct2 p2] eqn:H2.
  destruct (enqueueJobWithOptionalLock (demo_request "") 3 p2 _) as [ct3 p3] eqn:H3.
  vm_compute in H1. injection H1 as <- <-. vm_compute in H2. injection H2 as <- <-.
  destruct Hs as [Hs _]; [vm_compute; discriminate|vm_compute; reflexivity|].
  destruct (held_at _ 1 _) eqn:Hheld; [by vm_compute in Hheld|]. destruct Hs as (l & _ & _ & Hown & _ & _ & _ & Hu & _).
  destruct Hu as [-> Hu3]; [| |vm_compute; reflexivity|].
  - cbn. repeat split; try lia. intros o [=].
  - cbn. repeat split; try lia. intros o [=].
  - eexists _, ct3, l. split; [reflexivity|]. split; [|rewrite Hown; reflexivity].
    apply Hu3; [|vm_compute; reflexivity]. vm_compute in H3. injection H3 as <-.
    vm_compute. repeat split; intros o [=].
Defined.

(** Repeating a submission after its job has ended is answered with the finished
    job, but takes the lock for it: no event of that job is left to release it,
    so that the key stays locked until the lock expires. *)
Theorem resubmission_leaks_lock :
  let ct1 := run_ctls (execute_one 4 ++ run_subscriber 3 4) (demo (demo_request "") 1 [] 2 [] 3 demo_start).1 in
  held_at "db" 5 (ct_locks ct1) = None ∧
  let '(ct2, p) := demo (demo_request "") 5 [] 6 [] 7 ct1 in
  (∃ job, p = Returned (Ok job) ∧ j_Status job = JobSucceeded) ∧
  ct_due ct2 = [] ∧ is_Some (held_at "db" (500 * Second) (ct_locks ct2)).
Proof.
  split; [by vm_compute|]. vm_compute. split; [by eexists|]. split; [done|]. by eexists.
Qed.

(** So does a job that ends, and is reported, before it is bound. *)
Theorem early_end_leaks_lock :
  let '(ct, p) := demo (demo_request "") 1 [] 2 (execute_one 3 ++ run_subscriber 3 3) 4 demo_start in
  (∃ job, p = Returned (Ok job)) ∧ ct_due ct = [] ∧ is_Some (held_at "db" (500 * Second) (ct_locks ct)).
Proof. vm_compute. split; [by eexists|]. split; [done|]. by eexists. Qed.

Definition bob_acquires (now : Time) : list (ctl_call * Time) := [(CtlLock (OpAcquire "db" "bob" 600), now)].

(** [BindJob] does not look at the holder: after the lock has expired and was
    taken by another one, that lock is bound to the job and ends with it. *)
Theorem bind_takes_other_lock :
  let '(ct, p) := demo (demo_request "") 1 (bob_acquires (601 * Second)) (602 * Second) [] (603 * Second) demo_start in
  (∃ job, p = Returned (Ok job)) ∧
  (λ l, (el_Holder l, el_JobID l)) <$> held_at "db" (604 * Second) (ct_locks ct) = Some ("bob", "job-602000000000-1").
Proof. vm_compute. split; [by eexists|done]. Qed.

(** A submission whose lock had expired releases the key by name, also when
    another one has taken it in the meantime. *)
Theorem failed_bind_releases_other_lock :
  let '(ct1, p1) := demo (demo_request "") 1 [] 2 [] (601 * Second) demo_start in
  let ct2 := run_ctls (bob_acquires (602 * Second)) ct1 in
  let '(ct3, p3) := enqueueJobWithOptionalLock (demo_request "") (603 * Second) p1 ct2 in
  el_Holder <$> held_at "db" (602 * Second) (ct_locks ct2) = Some "bob" ∧ held_at "db" (603 * Second) (ct_locks ct3) = None.
Proof. vm_compute. done. Qed.
