(* ===== verification/RunLease.v ===== *)
(** * Run leases: [internal/control/run_lease.go]

    The lease an executor holds on a job, renewed by heartbeats and recovered by
    the control plane when it expires. *)

From S2P Require Import Prelude.

Inductive LeaseStatus := LeaseActive | LeaseReleased | LeaseRecovered.
#[export] Instance LeaseStatus_dec : EqDecision LeaseStatus.
Proof. solve_decision. Defined.

Record RunLease : Type := mkLease {
  rl_LeaseID : string;
  rl_JobID : string;
  rl_Holder : string;
  rl_TTLSeconds : Z;
  rl_CreatedAt : Time;
  rl_LastHeartbeat : Time;
  rl_ExpiresAt : Time;
  rl_RecoveredAt : Time;
  rl_Status : LeaseStatus;
}.
#[export] Instance RunLease_eta : Eta RunLease := λ r,
  mkLease (rl_LeaseID r) (rl_JobID r) (rl_Holder r) (rl_TTLSeconds r) (rl_CreatedAt r)
    (rl_LastHeartbeat r) (rl_ExpiresAt r) (rl_RecoveredAt r) (rl_Status r).

Record RunLeaseStore : Type := mkLeaseStore {
  rs_nextID : Z;
  rs_byLease : gmap string RunLease;
  rs_byJob : gmap string string;
}.
#[export] Instance RunLeaseStore_eta : Eta RunLeaseStore := λ r,
  mkLeaseStore (rs_nextID r) (rs_byLease r) (rs_byJob r).

Definition NewRunLeaseStore : RunLeaseStore := mkLeaseStore 0 ∅ ∅.

Inductive lease_error := LeaseInput | LeaseNotFound | LeaseNotActive.

Definition lease_active (l : RunLease) : bool := bool_decide (rl_Status l = LeaseActive).
Definition put_lease (l : RunLease) (s : RunLeaseStore) : RunLeaseStore :=
  s <| rs_byLease := <[rl_LeaseID l := l]> (rs_byLease s) |>.

(** A job that had a lease gets the same one back, whoever holds it. *)
Definition take_over (holder : string) (ttl : Z) (now : Time) (l : RunLease) : RunLease :=
  l <| rl_Holder := holder |> <| rl_TTLSeconds := ttl |> <| rl_LastHeartbeat := now |>
    <| rl_ExpiresAt := Add now (seconds ttl) |> <| rl_Status := LeaseActive |> <| rl_RecoveredAt := 0 |>.

Definition AcquireLease (jobID holder : string) (ttl : Z) (now : Time) (s : RunLeaseStore)
    : RunLeaseStore * result lease_error RunLease :=
  let jobID := TrimSpace jobID in
  let holder := TrimSpace holder in
  if eqs jobID "" || eqs holder "" then (s, Err LeaseInput)
  else
    let ttl := if ttl <=? 0 then 30 else ttl in
    match rs_byJob s !! jobID ≫= (λ id, rs_byLease s !! id) with
    | Some existing =>
        let l := take_over holder ttl now existing in
        (put_lease l s, Ok l)
    | None =>
        let s := s <| rs_nextID := rs_nextID s + 1 |> in
        let l := mkLease ("lease-" +:+ itoa (rs_nextID s)) jobID holder ttl now now
                   (Add now (seconds ttl)) 0 LeaseActive in
        (put_lease l s <| rs_byJob := <[jobID := rl_LeaseID l]> (rs_byJob s) |>, Ok l)
    end.

Definition resolveLeaseLocked (leaseID jobID : string) (s : RunLeaseStore) : result lease_error RunLease :=
  let found (id : string) :=
    match rs_byLease s !! id with Some l => Ok l | None => Err LeaseNotFound end in
  if negb (eqs leaseID "") then found leaseID
  else
    let mapped := default "" (rs_byJob s !! jobID) in
    if eqs mapped "" then Err LeaseNotFound else found mapped.

Definition Heartbeat (leaseID jobID : string) (now : Time) (s : RunLeaseStore)
    : RunLeaseStore * result lease_error RunLease :=
  let leaseID := TrimSpace leaseID in
  let jobID := TrimSpace jobID in
  if eqs leaseID "" && eqs jobID "" then (s, Err LeaseInput)
  else
    match resolveLeaseLocked leaseID jobID s with
    | Err e => (s, Err e)
    | Ok l =>
        if negb (lease_active l) then (s, Err LeaseNotActive)
        else
          let l := l <| rl_LastHeartbeat := now |> <| rl_ExpiresAt := Add now (seconds (rl_TTLSeconds l)) |> in
          (put_lease l s, Ok l)
    end.

Definition ReleaseLease (leaseID jobID : string) (now : Time) (s : RunLeaseStore)
    : RunLeaseStore * result lease_error RunLease :=
  let leaseID := TrimSpace leaseID in
  let jobID := TrimSpace jobID in
  if eqs leaseID "" && eqs jobID "" then (s, Err LeaseInput)
  else
    match resolveLeaseLocked leaseID jobID s with
    | Err e => (s, Err e)
    | Ok l =>
        let l := l <| rl_Status := LeaseReleased |> <| rl_ExpiresAt := now |> in
        (put_lease l s, Ok l)
    end.

(** [sort.Slice] leaves the order of equal elements open; here it is stable. *)
Definition created_later (l k : RunLease) : Prop := rl_CreatedAt k ≤ rl_CreatedAt l.
#[export] Instance created_later_dec l k : Decision (created_later l k).
Proof. unfold created_later. apply _. Defined.

Definition ListLeases (includeRecovered : bool) (s : RunLeaseStore) : list RunLease :=
  merge_sort created_later
    (filter (λ l, includeRecovered = true ∨ rl_Status l ≠ LeaseRecovered) (map_to_list (rs_byLease s)).*2).

Definition recover_lease (now : Time) (l : RunLease) : RunLease :=
  l <| rl_Status := LeaseRecovered |> <| rl_RecoveredAt := now |>.
Definition expired_lease (now : Time) (l : RunLease) : bool :=
  lease_active l && negb (Before now (rl_ExpiresAt l)).

(** One iteration of the loop of [RecoverExpired] over [s.byLease]. *)
Definition recover_one (now : Time) (st : RunLeaseStore * list RunLease) (kl : string * RunLease)
    : RunLeaseStore * list RunLease :=
  let '(s, recovered) := st in
  let '(id, l) := kl in
  if negb (lease_active l) then st
  else if Before now (rl_ExpiresAt l) then st
  else
    let l := recover_lease now l in
    (s <| rs_byLease := <[id := l]> (rs_byLease s) |>, recovered ++ [l]).

Definition by_lease_id (l k : RunLease) : Prop := String.le (rl_LeaseID l) (rl_LeaseID k).
#[export] Instance by_lease_id_dec l k : Decision (by_lease_id l k).
Proof. unfold by_lease_id. apply _. Defined.

#[export] Instance by_lease_id_trans : Transitive by_lease_id.
Proof. intros l k m. unfold by_lease_id. apply transitivity. Qed.
#[export] Instance by_lease_id_total : Total by_lease_id.
Proof. intros l k. apply (total String.le). Qed.

(** [clock] is read when [now] is the zero time. *)
Definition RecoverExpired (clock now : Time) (s : RunLeaseStore) : RunLeaseStore * list RunLease :=
  let now := if IsZero now then clock else now in
  let '(s, recovered) := foldl (recover_one now) (s, []) (map_to_list (rs_byLease s)) in
  (s, merge_sort by_lease_id recovered).

(** ** Calls and reachability *)

Inductive lease_op :=
  | LAcquire (jobID holder : string) (ttl : Z)
  | LHeartbeat (leaseID jobID : string)
  | LRelease (leaseID jobID : string)
  | LRecover (at_ : Time).

Definition run_lease_op (o : lease_op) (clock : Time) (s : RunLeaseStore) : RunLeaseStore :=
  match o with
  | LAcquire jobID holder ttl => (AcquireLease jobID holder ttl clock s).1
  | LHeartbeat leaseID jobID => (Heartbeat leaseID jobID clock s).1
  | LRelease leaseID jobID => (ReleaseLease leaseID jobID clock s).1
  | LRecover at_ => (RecoverExpired clock at_ s).1
  end.

Definition run_lease_ops (ops : list (lease_op * Time)) (s : RunLeaseStore) : RunLeaseStore :=
  foldl (λ s oc, run_lease_op oc.1 oc.2 s) s ops.

(** ** Invariant: one lease per job, one job per lease *)

Record lease_inv (s : RunLeaseStore) : Prop := {
  li_id id l : rs_byLease s !! id = Some l →
    rl_LeaseID l = id ∧ rl_JobID l ≠ "" ∧ rs_byJob s !! rl_JobID l = Some id ∧
    ∃ n, id = "lease-" +:+ itoa n ∧ 0 < n ≤ rs_nextID s;
  li_job j id : rs_byJob s !! j = Some id → ∃ l, rs_byLease s !! id = Some l ∧ rl_JobID l = j;
  li_next : 0 ≤ rs_nextID s;
}.

(** Changing a lease without its identity. *)
Lemma lease_inv_update s s' id l l' :
  lease_inv s → rs_byLease s !! id = Some l → rl_LeaseID l' = rl_LeaseID l → rl_JobID l' = rl_JobID l →
  rs_byLease s' = <[id := l']> (rs_byLease s) → rs_byJob s' = rs_byJob s → rs_nextID s' = rs_nextID s →
  lease_inv s'.
Proof.
  intros [Hi Hj Hn] Hl Hid Hjob Hb Hbj Hnx. split.
  - intros x k. rewrite Hb, Hbj, Hnx, lookup_insert_Some. intros [[<- <-]|[_ Hk]]; [|by apply Hi].
    rewrite Hid, Hjob. by apply Hi.
  - intros j x. rewrite Hb, Hbj. intros (k & Hk & Hkj)%Hj. destruct (decide (x = id)) as [->|Hne].
    + exists l'. rewrite lookup_insert_eq. split; [done|]. congruence.
    + exists k. by rewrite lookup_insert_ne.
  - by rewrite Hnx.
Qed.

Lemma resolve_found leaseID jobID s l :
  resolveLeaseLocked leaseID jobID s = Ok l → ∃ id, rs_byLease s !! id = Some l.
Proof.
  unfold resolveLeaseLocked. destruct (negb _).
  - destruct (rs_byLease s !! leaseID) eqn:Hl; [|done]. intros [= <-]. eauto.
  - destruct (eqs _ _); [done|]. destruct (rs_byLease s !! _) eqn:Hl; [|done]. intros [= <-]. eauto.
Qed.

Lemma put_lease_inv s id l l' :
  lease_inv s → rs_byLease s !! id = Some l → rl_LeaseID l' = rl_LeaseID l → rl_JobID l' = rl_JobID l →
  lease_inv (put_lease l' s).
Proof.
  intros Hs Hl Hid Hjob. eapply (lease_inv_update s); [done|exact Hl|done|done| |done..].
  cbn. by rewrite Hid, (proj1 (li_id _ Hs _ _ Hl)).
Qed.

Lemma AcquireLease_inv jobID holder ttl now s :
  rs_nextID s < max_int64 → lease_inv s → lease_inv (AcquireLease jobID holder ttl now s).1.
Proof.
  intros Hmax Hs. unfold AcquireLease. destruct (eqs (TrimSpace jobID) "") eqn:Hj0; [done|].
  apply eqs_false in Hj0. cbn [orb]. destruct (eqs (TrimSpace holder) ""); [done|].
  destruct (rs_byJob s !! TrimSpace jobID) as [id|] eqn:Hj; cbn [option_bind mbind].
  - destruct (li_job _ Hs _ _ Hj) as (l & Hl & Hlj). rewrite Hl. by eapply put_lease_inv.
  - destruct Hs as [Hi Hb Hn]. set (id := "lease-" +:+ itoa (rs_nextID s + 1)).
    assert (rs_byLease s !! id = None) as Hfresh.
    { destruct (rs_byLease s !! id) as [l|] eqn:Hl; [|done].
      destruct (Hi _ _ Hl) as (_ & _ & _ & n & Heq & Hb'). unfold id in Heq. injection Heq as Heq.
      apply itoa_inj in Heq; unfold max_int64 in *; lia. }
    cbn [fst]. split; cbn.
    + intros x l. fold id. rewrite lookup_insert_Some. intros [[<- <-]|[Hne Hl]]; cbn.
      * rewrite lookup_insert_eq. split_and!; [done..|]. exists (rs_nextID s + 1). split; [done|lia].
      * destruct (Hi _ _ Hl) as (? & ? & Hjl & n & ? & ?). rewrite lookup_insert_ne by congruence.
        split_and!; [done..|]. exists n. split; [done|lia].
    + intros j x. fold id. rewrite lookup_insert_Some. intros [[<- <-]|[Hne Hjx]].
      * rewrite lookup_insert_eq. by eexists.
      * destruct (Hb _ _ Hjx) as (l & Hl & Hlj). exists l. rewrite lookup_insert_ne; [done|].
        intros <-. congruence.
    + lia.
Qed.

(** The loop recovers the leases it visits, and only those. *)
Lemma recover_loop now kls s rec :
  (∀ k l, (k, l) ∈ kls → rs_byLease s !! k = Some l) → NoDup kls.*1 →
  let '(s', rec') := foldl (recover_one now) (s, rec) kls in
  rs_byJob s' = rs_byJob s ∧ rs_nextID s' = rs_nextID s ∧
  (∀ k l, rs_byLease s !! k = Some l → rs_byLease s' !! k = Some
     (if bool_decide (k ∈ kls.*1) && expired_lease now l then recover_lease now l else l)) ∧
  (∀ k, rs_byLease s !! k = None → rs_byLease s' !! k = None) ∧
  rec' = rec ++ (recover_lease now <$> filter (λ l, expired_lease now l = true) kls.*2).
Proof.
  revert s rec; induction kls as [|[k l] kls IH]; intros s rec Hin Hnd; cbn [foldl].
  { rewrite app_nil_r. split_and!; done. }
  cbn [fmap list_fmap fst snd] in Hnd |- *. apply NoDup_cons in Hnd as [Hk Hnd].
  assert (rs_byLease s !! k = Some l) as Hl by (apply Hin; left).
  assert (recover_one now (s, rec) (k, l) =
    if expired_lease now l
    then (s <| rs_byLease := <[k := recover_lease now l]> (rs_byLease s) |>, rec ++ [recover_lease now l])
    else (s, rec)) as ->.
  { unfold recover_one, expired_lease. destruct (lease_active l); [|done]. cbn. by destruct (Before _ _). }
  rewrite filter_cons. destruct (expired_lease now l) eqn:He.
  - specialize (IH (s <| rs_byLease := <[k := recover_lease now l]> (rs_byLease s) |>)
      (rec ++ [recover_lease now l])).
    destruct (foldl _ _ _) as [s' rec']. cbn [rs_byLease rs_byJob rs_nextID update_field] in IH.
    destruct IH as (H1 & H2 & H3 & H4 & H5); [|done|].
    { intros x y Hxy. rewrite lookup_insert_ne; [apply Hin; by right|].
      intros ->. apply Hk. apply list_elem_of_fmap. by exists (x, y). }
    split_and!; [done|done| | |].
    + intros x y Hy. destruct (decide (x = k)) as [->|Hne].
      * rewrite Hl in Hy. injection Hy as <-. rewrite (H3 k (recover_lease now l)) by apply lookup_insert_eq.
        rewrite (bool_decide_eq_false_2 (k ∈ kls.*1)) by done.
        rewrite bool_decide_eq_true_2 by left. cbn. by rewrite He.
      * rewrite (H3 x y) by (by rewrite lookup_insert_ne). f_equal.
        by rewrite (bool_decide_ext (x ∈ k :: kls.*1) (x ∈ kls.*1)) by set_solver.
    + intros x Hx. apply H4. rewrite lookup_insert_ne; [done|]. intros ->. congruence.
    + by rewrite H5, decide_True, <-app_assoc.
  - specialize (IH s rec). destruct (foldl _ _ _) as [s' rec'].
    destruct IH as (H1 & H2 & H3 & H4 & H5); [intros x y ?; apply Hin; by right|done|].
    split_and!; [done|done| |done|].
    + intros x y Hy. rewrite (H3 x y Hy). f_equal. destruct (decide (x = k)) as [->|Hne].
      * rewrite Hl in Hy. injection Hy as <-. by rewrite He, !andb_false_r.
      * by rewrite (bool_decide_ext (x ∈ k :: kls.*1) (x ∈ kls.*1)) by set_solver.
    + by rewrite H5, decide_False by congruence.
Qed.

(** The instant a recovery works with. *)
Definition recover_at (clock now : Time) : Time := if IsZero now then clock else now.

Lemma RecoverExpired_spec clock now s :
  let t := recover_at clock now in
  let '(s', rec) := RecoverExpired clock now s in
  rs_byJob s' = rs_byJob s ∧ rs_nextID s' = rs_nextID s ∧
  (∀ id, rs_byLease s' !! id =
     (λ l, if expired_lease t l then recover_lease t l else l) <$> rs_byLease s !! id) ∧
  StronglySorted by_lease_id rec ∧
  (∀ l, l ∈ rec ↔ ∃ id l0, rs_byLease s !! id = Some l0 ∧ expired_lease t l0 = true ∧ l = recover_lease t l0).
Proof.
  intros t. unfold RecoverExpired. fold (recover_at clock now). fold t.
  pose proof (recover_loop t (map_to_list (rs_byLease s)) s []) as Hl.
  destruct (foldl (recover_one t) (s, []) (map_to_list (rs_byLease s))) as [s' rec].
  destruct Hl as (H1 & H2 & H3 & H4 & ->).
  { intros k l. apply elem_of_map_to_list. }
  { apply NoDup_fst_map_to_list. }
  split_and!; [done|done| | |].
  - intros id. destruct (rs_byLease s !! id) as [l|] eqn:Hid; cbn; [|by apply H4].
    rewrite (H3 id l Hid), bool_decide_eq_true_2; [done|].
    apply list_elem_of_fmap. exists (id, l). by rewrite elem_of_map_to_list.
  - apply (StronglySorted_merge_sort by_lease_id).
  - intros l. rewrite (merge_sort_Permutation by_lease_id), app_nil_l, list_elem_of_fmap.
    setoid_rewrite list_elem_of_filter. setoid_rewrite list_elem_of_fmap. split.
    + intros (l0 & -> & He & ([id l1] & -> & Hin%elem_of_map_to_list)). by exists id, l1.
    + intros (id & l0 & Hid & He & ->). exists l0. split_and!; [done..|]. exists (id, l0).
      by rewrite elem_of_map_to_list.
Qed.

Lemma RecoverExpired_inv clock now s : lease_inv s → lease_inv (RecoverExpired clock now s).1.
Proof.
  intros Hs. pose proof (RecoverExpired_spec clock now s) as Hr. cbn zeta in Hr.
  destruct (RecoverExpired clock now s) as [s' rec]. destruct Hr as (H1 & H2 & H3 & _). cbn [fst].
  set (f := λ l, if expired_lease (recover_at clock now) l then recover_lease (recover_at clock now) l else l) in *.
  assert (∀ l, rl_LeaseID (f l) = rl_LeaseID l ∧ rl_JobID (f l) = rl_JobID l) as Hf.
  { intros l. unfold f. by destruct (expired_lease _ l). }
  destruct Hs as [Hi Hj Hn]. split.
  - intros id l. rewrite H1, H2, H3. intros (l0 & Hl0 & ->)%fmap_Some.
    destruct (Hf l0) as [-> ->]. by apply Hi.
  - intros j id. rewrite H1. intros (l & Hl & <-)%Hj. exists (f l). rewrite H3, Hl.
    split; [done|]. apply Hf.
  - by rewrite H2.
Qed.

Lemma run_lease_op_next o clock s : rs_nextID s ≤ rs_nextID (run_lease_op o clock s).
Proof.
  destruct o; cbn [run_lease_op].
  - unfold AcquireLease. destruct (_ || _); [done|]. destruct (_ ≫= _); cbn; lia.
  - unfold Heartbeat. destruct (_ && _); [done|]. destruct (resolveLeaseLocked _ _ _); [|done].
    by destruct (negb _).
  - unfold ReleaseLease. destruct (_ && _); [done|]. by destruct (resolveLeaseLocked _ _ _).
  - pose proof (RecoverExpired_spec clock at_ s) as Hr. cbn zeta in Hr.
    destruct (RecoverExpired clock at_ s) as [s' rec]. destruct Hr as (_ & Hn & _). cbn [fst]. lia.
Qed.

Lemma run_lease_op_inv o clock s :
  rs_nextID (run_lease_op o clock s) ≤ max_int64 → lease_inv s → lease_inv (run_lease_op o clock s).
Proof.
  intros Hmax Hs. destruct o; cbn [run_lease_op] in *.
  - destruct (decide (rs_nextID s < max_int64)) as [Hlt|Hge]; [by apply AcquireLease_inv|].
    assert (rs_byJob s !! TrimSpace jobID ≫= (λ id, rs_byLease s !! id) = None →
      (AcquireLease jobID holder ttl clock s).1 = s) as Hnone.
    { intros Hn. unfold AcquireLease in *. rewrite Hn in *. destruct (_ || _); [done|]. cbn in Hmax. lia. }
    destruct (rs_byJob s !! TrimSpace jobID ≫= (λ id, rs_byLease s !! id)) as [l|] eqn:Hb; [|by rewrite Hnone].
    unfold AcquireLease. rewrite Hb. destruct (_ || _); [done|].
    apply bind_Some in Hb as (id & _ & Hl). by eapply put_lease_inv.
  - unfold Heartbeat. destruct (_ && _); [done|].
    destruct (resolveLeaseLocked _ _ _) as [l|] eqn:Hr; [|done]. destruct (negb _); [done|].
    apply resolve_found in Hr as [id Hl]. by apply (put_lease_inv s id l).
  - unfold ReleaseLease. destruct (_ && _); [done|].
    destruct (resolveLeaseLocked _ _ _) as [l|] eqn:Hr; [|done].
    apply resolve_found in Hr as [id Hl]. by apply (put_lease_inv s id l).
  - by apply RecoverExpired_inv.
Qed.

Lemma run_lease_ops_inv ops s :
  rs_nextID (run_lease_ops ops s) ≤ max_int64 → lease_inv s → lease_inv (run_lease_ops ops s).
Proof.
  induction ops as [|[o t] ops IH] using rev_ind; [done|]. unfold run_lease_ops. rewrite foldl_app. cbn.
  intros Hmax Hs. apply run_lease_op_inv; [done|]. apply IH; [|done].
  exact (Z.le_trans _ _ _ (run_lease_op_next o t _) Hmax).
Qed.

Lemma NewRunLeaseStore_inv : lease_inv NewRunLeaseStore.
Proof.
  split; [|intros j id Hj; exact (False_ind _ (lookup_empty_Some _ _ Hj))|done].
  intros id l Hl. exact (False_ind _ (lookup_empty_Some _ _ Hl)).
Qed.

(** C15: the lease protocol, in every history of the store.  A job has at most one
    lease and a lease belongs to one job.  [RecoverExpired] recovers exactly the
    active leases that have expired, reports each once in the order of the ids,
    leaves the others as they are, and finds nothing more at that instant.  A
    heartbeat succeeds exactly on an active lease; it moves the expiry to a full
    time to live from now, and until then no recovery touches the lease. *)
Theorem run_lease_protocol ops :
  let s := run_lease_ops ops NewRunLeaseStore in
  rs_nextID s ≤ max_int64 →
  (∀ id k l m, rs_byLease s !! id = Some l → rs_byLease s !! k = Some m → rl_JobID l = rl_JobID m → id = k) ∧
  (∀ j id, rs_byJob s !! j = Some id ↔ ∃ l, rs_byLease s !! id = Some l ∧ rl_JobID l = j) ∧
  (∀ clock now, let t := recover_at clock now in
     let '(s', rec) := RecoverExpired clock now s in
     (∀ id, rs_byLease s' !! id =
        (λ l, if expired_lease t l then recover_lease t l else l) <$> rs_byLease s !! id) ∧
     StronglySorted by_lease_id rec ∧
     (∀ l, l ∈ rec ↔ ∃ id l0, rs_byLease s !! id = Some l0 ∧ expired_lease t l0 = true ∧ l = recover_lease t l0) ∧
     (RecoverExpired clock now s').2 = []) ∧
  (∀ leaseID jobID now l, resolveLeaseLocked (TrimSpace leaseID) (TrimSpace jobID) s = Ok l →
     (TrimSpace leaseID ≠ "" ∨ TrimSpace jobID ≠ "") →
     if lease_active l then
       ∃ s' l', Heartbeat leaseID jobID now s = (s', Ok l') ∧
         rl_ExpiresAt l' = now + seconds (rl_TTLSeconds l) ∧ rl_Holder l' = rl_Holder l ∧
         rs_byLease s' = <[rl_LeaseID l := l']> (rs_byLease s) ∧
         ∀ clock t, recover_at clock t < rl_ExpiresAt l' →
           rs_byLease (RecoverExpired clock t s').1 !! rl_LeaseID l = Some l'
     else Heartbeat leaseID jobID now s = (s, Err LeaseNotActive)).
Proof.
  intros s Hmax. assert (lease_inv s) as Hs by (apply run_lease_ops_inv; [done|apply NewRunLeaseStore_inv]).
  split_and!.
  - intros id k l m Hl Hm Heq. pose proof (li_id _ Hs _ _ Hl) as (_ & _ & H1 & _).
    pose proof (li_id _ Hs _ _ Hm) as (_ & _ & H2 & _). congruence.
  - intros j id. split; [apply (li_job _ Hs)|]. intros (l & Hl & <-). by apply (li_id _ Hs).
  - intros clock now. cbn zeta. pose proof (RecoverExpired_spec clock now s) as Hr. cbn zeta in Hr.
    destruct (RecoverExpired clock now s) as [s' rec]. destruct Hr as (_ & _ & H3 & H4 & H5).
    split_and!; [done..|].
    pose proof (RecoverExpired_spec clock now s') as Hr. cbn zeta in Hr.
    destruct (RecoverExpired clock now s') as [s2 rec2]. destruct Hr as (_ & _ & _ & _ & H6). cbn [snd].
    destruct rec2 as [|l rec2]; [done|]. exfalso.
    destruct (proj1 (H6 l)) as (id & l0 & Hl0 & He & _); [left|].
    rewrite H3 in Hl0. apply fmap_Some in Hl0 as (l1 & _ & ->).
    destruct (expired_lease (recover_at clock now) l1) eqn:He1; [done|]. by rewrite He1 in He.
  - intros leaseID jobID now l Hr Hne. unfold Heartbeat. rewrite Hr.
    assert (eqs (TrimSpace leaseID) "" && eqs (TrimSpace jobID) "" = false) as ->.
    { apply andb_false_iff. destruct Hne as [?%eqs_false|?%eqs_false]; auto. }
    destruct (lease_active l) eqn:Ha; cbn [negb]; [|done].
    set (l' := l <| rl_LastHeartbeat := now |> <| rl_ExpiresAt := Add now (seconds (rl_TTLSeconds l)) |>).
    exists (put_lease l' s), l'. split_and!; [done..|]. intros clock t Ht.
    pose proof (RecoverExpired_spec clock t (put_lease l' s)) as Hrec. cbn zeta in Hrec.
    destruct (RecoverExpired clock t (put_lease l' s)) as [s2 rec]. destruct Hrec as (_ & _ & H3 & _).
    cbn [fst]. rewrite H3. unfold put_lease. cbn [rs_byLease update_field]. rewrite lookup_insert_eq. cbn.
    unfold expired_lease, Before. cbn in Ht |- *.
    rewrite (proj2 (Z.ltb_lt _ _) Ht). by rewrite andb_false_r.
Qed.

Definition lease_history : list (lease_op * Time) :=
  [(LAcquire "job-1" "worker-a" 30, 10); (LAcquire "job-2" "worker-b" 0, 20); (LHeartbeat "" "job-1", 30)].

Lemma run_lease_protocol_witness :
  let s := run_lease_ops lease_history NewRunLeaseStore in
  rs_nextID s = 2 ∧
  (∃ l, resolveLeaseLocked "lease-1" "" s = Ok l ∧ lease_active l = true ∧
     ∃ s' l', Heartbeat "lease-1" "" 40 s = (s', Ok l') ∧ rl_ExpiresAt l' = 40 + 30 * Second).
Proof.
  intros s. split; [by vm_compute|].
  destruct (run_lease_protocol lease_history) as (_ & _ & _ & Hh); [by vm_compute|].
  assert (∃ l, resolveLeaseLocked "lease-1" "" s = Ok l ∧ lease_active l = true ∧ rl_TTLSeconds l = 30)
    as (l & Hl & Ha & Ht) by (eexists; split_and!; by vm_compute).
  exists l. split_and!; [done..|]. specialize (Hh "lease-1" "" 40 l Hl). rewrite Ha in Hh.
  destruct Hh as (s' & l' & H1 & H2 & _); [left; discriminate|]. exists s', l'. split; [exact H1|].
  rewrite H2, Ht. by vm_compute.
Defined.

(** A lease that is neither released nor expired changes hands: nothing in
    [Acquire] protects the current holder. *)
Theorem lease_taken_over :
  let s := run_lease_ops [(LAcquire "job-1" "worker-a" 600, 0)] NewRunLeaseStore in
  ∃ s' l, AcquireLease "job-1" "worker-b" 600 1 s = (s', Ok l) ∧
    rl_LeaseID l = "lease-1" ∧ rl_Holder l = "worker-b" ∧
    rl_Holder <$> rs_byLease s' !! "lease-1" = Some "worker-b".
Proof. eexists _, _. split_and!; by vm_compute. Qed.
