(* ===== verification/Load.v ===== *)
(** * Loading a configuration: [internal/config/load.go]

    A file is composed from the files it includes, imports and overlays,
    recursively.  The file system and the parsers are parameters. *)

From S2P Require Import Prelude Model Path.

(** [os.ReadFile], the decoders of a [Config] and the working directory. *)
Class ConfigSource := {
  ReadConfigFile : string → result string string;
  UnmarshalJSON : string → result string Config;
  UnmarshalYAML : string → result string Config;
  Getwd : option string;
}.

Inductive load_error :=
  | CompositionCycle (path : string)
  | ReadConfig (e : string)
  | ParseJSON (e : string)
  | ParseYAML (e : string).

(** ** Merging *)

(** [mergeInventory] and [mergeResources] are the same loop at two types: [key]
    is the name or the id, and the copies of [cloneHost] and [cloneResource] are
    the values themselves. *)
Section merge_list.
Context {A : Type} (key : A → string).

Definition index_list (dst : list A) : gmap string nat :=
  foldl (λ m kv, <[kv.1 := kv.2]> m) ∅ (imap (λ i x, (key x, i)) dst).

Definition merge_one (st : list A * gmap string nat) (x : A) : list A * gmap string nat :=
  let '(dst, index) := st in
  match index !! key x with
  | Some i => (<[i := x]> dst, index)
  | None => (dst ++ [x], <[key x := length dst]> index)
  end.

Definition merge_list (dst src : list A) : list A := (foldl merge_one (dst, index_list dst) src).1.
End merge_list.

Definition mergeInventory : list Host → list Host → list Host := merge_list h_Name.
Definition mergeResources : list Resource → list Resource → list Resource := merge_list r_ID.

Definition mergeExecution (dst src : Execution) : Execution :=
  let dst := if negb (blank (e_Strategy src)) then dst <| e_Strategy := e_Strategy src |> else dst in
  let dst := if negb (e_Serial src =? 0) then dst <| e_Serial := e_Serial src |> else dst in
  let dst := if negb (blank (e_FailureDomain src)) then dst <| e_FailureDomain := e_FailureDomain src |> else dst in
  let dst := if negb (e_MaxFailPercentage src =? 0)
             then dst <| e_MaxFailPercentage := e_MaxFailPercentage src |> else dst in
  if e_AnyErrorsFatal src then dst <| e_AnyErrorsFatal := true |> else dst.

Definition mergeConfig (dst src : Config) : Config :=
  let dst := if negb (blank (c_Version src)) then dst <| c_Version := c_Version src |> else dst in
  dst <| c_Inventory := mergeInventory (c_Inventory dst) (c_Inventory src) |>
      <| c_Execution := mergeExecution (c_Execution dst) (c_Execution src) |>
      <| c_Resources := mergeResources (c_Resources dst) (c_Resources src) |>
      <| c_Handlers := mergeResources (c_Handlers dst) (c_Handlers src) |>.

(** [cloneConfig], then its references cleared. *)
Definition own_layer (raw : Config) : Config :=
  raw <| c_Includes := [] |> <| c_Imports := [] |> <| c_Overlays := [] |>.

(** ** Loading *)

Section load.
Context `{ConfigSource}.

(** [filepath.Abs], falling back to the path itself. *)
Definition absolute (path : string) : string :=
  match Getwd with
  | Some cwd => Abs cwd path
  | None => if IsAbs path then Clean path else path
  end.

Definition parseConfigFile (path : string) : result load_error Config :=
  match ReadConfigFile path with
  | Err e => Err (ReadConfig e)
  | Ok b =>
      if eqs (ToLower (Ext path)) ".json" then
        match UnmarshalJSON b with Ok cfg => Ok cfg | Err e => Err (ParseJSON e) end
      else
        match UnmarshalYAML b with Ok cfg => Ok cfg | Err e => Err (ParseYAML e) end
  end.

Definition resolveConfigRef (baseDir ref : string) : string :=
  let ref := TrimSpace ref in
  if eqs ref "" then ref else if IsAbs ref then ref else filepath_Join [baseDir; ref].

(** One of the three loops over references: every child is loaded with the
    shared stack and merged. *)
Fixpoint merge_children (load : string → gset string → option (result load_error Config * gset string))
    (baseDir : string) (refs : list string) (merged : Config) (stack : gset string)
    : option (result load_error Config * gset string) :=
  match refs with
  | [] => Some (Ok merged, stack)
  | ref :: refs =>
      match load (resolveConfigRef baseDir ref) stack with
      | None => None
      | Some (Err e, stack) => Some (Err e, stack)
      | Some (Ok child, stack) => merge_children load baseDir refs (mergeConfig merged child) stack
      end
  end.

(** Continue with the next loop unless the last one failed. *)
Definition and_then (r : option (result load_error Config * gset string))
    (k : Config → gset string → option (result load_error Config * gset string))
    : option (result load_error Config * gset string) :=
  match r with
  | Some (Ok merged, stack) => k merged stack
  | r => r
  end.

(** The stack is shared by all the calls: the entry is added on the way in and
    deleted, by the [defer], on every way out. *)
Fixpoint loadComposedConfig (fuel : nat) (path : string) (stack : gset string)
    : option (result load_error Config * gset string) :=
  match fuel with
  | O => None
  | S fuel =>
      let resolved := absolute path in
      if decide (resolved ∈ stack) then Some (Err (CompositionCycle resolved), stack)
      else
        let stack := {[resolved]} ∪ stack in
        let body :=
          match parseConfigFile resolved with
          | Err e => Some (Err e, stack)
          | Ok raw =>
              let baseDir := Dir resolved in
              let children := merge_children (loadComposedConfig fuel) baseDir in
              and_then (children (c_Includes raw) zeroConfig stack) (λ merged stack,
              and_then (children (c_Imports raw) merged stack) (λ merged stack,
              children (c_Overlays raw) (mergeConfig merged (own_layer raw)) stack))
          end in
        match body with
        | Some (r, stack) => Some (r, stack ∖ {[resolved]})
        | None => None
        end
  end.
End load.

(** ** Merging lists is inserting or replacing by key *)

Section upsert.
Context {A : Type} (key : A → string).
Implicit Types (dst l m : list A) (x y : A).

Definition replace x dst : list A := (λ y, if decide (key y = key x) then x else y) <$> dst.
Definition upsert dst x : list A :=
  if decide (key x ∈ key <$> dst) then replace x dst else dst ++ [x].

Lemma replace_keys x dst : key <$> replace x dst = key <$> dst.
Proof.
  unfold replace. rewrite <-list_fmap_compose. apply list_fmap_ext. intros i y _. cbn. by case_decide.
Qed.

Lemma replace_absent x dst : key x ∉ key <$> dst → replace x dst = dst.
Proof.
  induction dst as [|y dst IH]; [done|]. cbn. rewrite not_elem_of_cons. intros [Hne Hx].
  rewrite decide_False by congruence. f_equal. by apply IH.
Qed.

Lemma upsert_keys dst x :
  key <$> upsert dst x = if decide (key x ∈ key <$> dst) then key <$> dst else (key <$> dst) ++ [key x].
Proof. unfold upsert. case_decide; [apply replace_keys|by rewrite fmap_app]. Qed.

Lemma elem_of_upsert_keys dst x k : k ∈ key <$> upsert dst x ↔ k = key x ∨ k ∈ key <$> dst.
Proof. rewrite upsert_keys. case_decide; set_solver. Qed.

Lemma upsert_nodup dst x : NoDup (key <$> dst) → NoDup (key <$> upsert dst x).
Proof.
  intros Hnd. rewrite upsert_keys. case_decide as Hx; [done|]. apply NoDup_app.
  split_and!; [done|set_solver|apply NoDup_singleton].
Qed.

Lemma upsert_same m x y : key x = key y → upsert (upsert m y) x = upsert m x.
Proof.
  intros Hk. unfold upsert at 1. rewrite decide_True by (apply elem_of_upsert_keys; auto).
  unfold upsert. rewrite Hk. case_decide as Hy.
  - unfold replace. rewrite <-list_fmap_compose. apply list_fmap_ext. intros i z _. cbn. rewrite Hk.
    by repeat case_decide.
  - unfold replace at 1. rewrite fmap_app. fold (replace x m). rewrite replace_absent by congruence.
    cbn. by rewrite decide_True.
Qed.

Lemma upsert_comm m x y :
  key x ≠ key y → key x ∈ key <$> m → upsert (upsert m y) x = upsert (upsert m x) y.
Proof.
  intros Hk Hx. unfold upsert at 1. rewrite decide_True by (apply elem_of_upsert_keys; auto).
  assert (upsert m x = replace x m) as -> by (unfold upsert; by rewrite decide_True).
  unfold upsert. rewrite replace_keys. case_decide as Hy.
  - unfold replace. rewrite <-!list_fmap_compose. apply list_fmap_ext. intros i z _. cbn.
    repeat case_decide; congruence.
  - unfold replace. rewrite fmap_app. cbn. by rewrite decide_False by congruence.
Qed.

Lemma fold_upsert_late m l x :
  key x ∈ key <$> m → key x ∉ key <$> l → upsert (foldl upsert m l) x = foldl upsert (upsert m x) l.
Proof.
  revert m; induction l as [|y l IH]; intros m Hm Hl; [done|]. cbn in *.
  apply not_elem_of_cons in Hl as [Hne Hl].
  rewrite IH; [|apply elem_of_upsert_keys; by right|done]. by rewrite upsert_comm.
Qed.

Lemma fold_replace m l x :
  NoDup (key <$> l) → key x ∈ key <$> l → foldl upsert m (replace x l) = upsert (foldl upsert m l) x.
Proof.
  revert m; induction l as [|y l IH]; intros m Hnd Hx; [by apply elem_of_nil in Hx|]. cbn in *.
  apply NoDup_cons in Hnd as [Hy Hnd]. case_decide as Hk.
  - rewrite Hk in Hy. fold (replace x l). rewrite replace_absent by done.
    rewrite fold_upsert_late; [by rewrite upsert_same|apply elem_of_upsert_keys; by left|done].
  - apply IH; [done|]. set_solver.
Qed.

Lemma fold_upsert_assoc m l k :
  NoDup (key <$> l) → foldl upsert m (foldl upsert l k) = foldl upsert (foldl upsert m l) k.
Proof.
  revert l; induction k as [|x k IH]; intros l Hnd; [done|]. cbn.
  rewrite IH by by apply upsert_nodup. f_equal. unfold upsert at 2. case_decide as Hx.
  - by apply fold_replace.
  - by rewrite foldl_app.
Qed.

Lemma fold_upsert_nodup m l : NoDup (key <$> m) → NoDup (key <$> foldl upsert m l).
Proof. revert m; induction l as [|x l IH]; intros m Hm; [done|]. by apply IH, upsert_nodup. Qed.

(** The keys, in the order of their first occurrence. *)
Fixpoint first_occurrences (seen : list string) (l : list string) : list string :=
  match l with
  | [] => []
  | k :: l => if decide (k ∈ seen) then first_occurrences seen l
              else k :: first_occurrences (seen ++ [k]) l
  end.

Lemma fold_upsert_keys m l :
  key <$> foldl upsert m l = (key <$> m) ++ first_occurrences (key <$> m) (key <$> l).
Proof.
  revert m; induction l as [|x l IH]; intros m; cbn; [by rewrite app_nil_r|].
  rewrite IH, upsert_keys. case_decide; [done|]. by rewrite <-app_assoc.
Qed.

(** The values: the last one of every key. *)
Lemma fold_upsert_values l x :
  x ∈ foldl upsert [] l ↔ last (filter (λ y, key y = key x) l) = Some x.
Proof.
  induction l as [|z l IH] using rev_ind; [cbn; split; [by intros ?%elem_of_nil|done]|].
  rewrite foldl_app, filter_app. cbn [foldl].
  assert (x ∈ upsert (foldl upsert [] l) z ↔ x = z ∨ (x ∈ foldl upsert [] l ∧ key x ≠ key z)) as ->.
  { unfold upsert. case_decide as Hz; [unfold replace|].
    - rewrite list_elem_of_fmap. split.
      + intros (y & -> & Hy). case_decide; [by left|by right].
      + intros [->|[Hx Hne]].
        * apply list_elem_of_fmap in Hz as (y & Hk & Hy). exists y. by rewrite decide_True.
        * exists x. by rewrite decide_False.
    - rewrite elem_of_app, list_elem_of_singleton. split; [|tauto]. intros [Hx|]; [right|by left].
      split; [done|]. intros Heq. apply Hz. rewrite <-Heq. by apply list_elem_of_fmap_2. }
  rewrite filter_cons. cbn. case_decide as Hk.
  - rewrite last_snoc. split; [intros [->|[_ ?]]; [done|congruence]|]. intros [= ->]. by left.
  - rewrite app_nil_r, <-IH. split; [|intros ?; right; split; [done|congruence]].
    intros [->|[? _]]; [congruence|done].
Qed.

(** The loop with the index is the insertion by key. *)
Definition index_ok dst (index : gmap string nat) : Prop :=
  ∀ k i, index !! k = Some i ↔ (key <$> dst) !! i = Some k.

Lemma index_list_ok dst : NoDup (key <$> dst) → index_ok dst (index_list key dst).
Proof.
  intros Hnd k i. unfold index_list.
  assert ((imap (λ i x, (key x, i)) dst).*1 = key <$> dst) as Hfst.
  { apply list_eq. intros j. rewrite !list_lookup_fmap, list_lookup_imap. by destruct (dst !! j). }
  rewrite foldl_insert_map by by rewrite Hfst.
  rewrite (right_id_L ∅ (∪)), <-elem_of_list_to_map by by rewrite Hfst.
  rewrite list_elem_of_lookup, list_lookup_fmap. setoid_rewrite list_lookup_imap. split.
  - intros [j Hj]. destruct (dst !! j) as [y|] eqn:Hy; [|done]. cbn in Hj. injection Hj as <- <-.
    by rewrite Hy.
  - intros Hi. exists i. destruct (dst !! i); [|done]. cbn in *. congruence.
Qed.

Lemma replace_insert dst i x :
  NoDup (key <$> dst) → (key <$> dst) !! i = Some (key x) → <[i := x]> dst = replace x dst.
Proof.
  intros Hnd Hi. apply list_eq. intros j. unfold replace. rewrite list_lookup_fmap.
  destruct (decide (i = j)) as [<-|Hne].
  - rewrite list_lookup_fmap in Hi. destruct (dst !! i) as [y|] eqn:Hy; [|done].
    cbn in Hi. injection Hi as Hk. rewrite list_lookup_insert_eq by by eapply lookup_lt_Some.
    cbn. by rewrite decide_True.
  - rewrite list_lookup_insert_ne by done. destruct (dst !! j) as [y|] eqn:Hy; [|done]. cbn.
    rewrite decide_False; [done|]. intros Hk. apply Hne. eapply NoDup_lookup; [exact Hnd|exact Hi|].
    by rewrite list_lookup_fmap, Hy; cbn; rewrite Hk.
Qed.

Lemma merge_one_spec dst index x :
  NoDup (key <$> dst) → index_ok dst index →
  let '(dst', index') := merge_one key (dst, index) x in
  dst' = upsert dst x ∧ index_ok dst' index'.
Proof.
  intros Hnd Hix. unfold merge_one. destruct (index !! key x) as [i|] eqn:Hi.
  - apply Hix in Hi. rewrite (replace_insert dst i x) by done. unfold upsert.
    rewrite decide_True by (by eapply list_elem_of_lookup_2). split; [done|].
    intros k j. rewrite replace_keys. apply Hix.
  - unfold upsert. rewrite decide_False.
    2: { intros [i Hi']%list_elem_of_lookup. apply Hix in Hi'. congruence. }
    split; [done|]. intros k j. rewrite fmap_app, lookup_insert_Some. cbn.
    rewrite lookup_app_Some, length_fmap, (Hix k j). split.
    + intros [[<- <-]|[Hne Hj]]; [right|by left]. by rewrite Nat.sub_diag.
    + intros [Hj|[Hge Hj]].
      * right. split; [|done]. intros <-. apply Hix in Hj. congruence.
      * left. apply list_lookup_singleton_Some in Hj as [Hj <-]. split; [done|lia].
Qed.

Lemma merge_list_upsert dst src : NoDup (key <$> dst) → merge_list key dst src = foldl upsert dst src.
Proof.
  intros Hnd. unfold merge_list. pose proof (index_list_ok dst Hnd) as Hix. revert Hix.
  generalize (index_list key dst). revert dst Hnd. induction src as [|x src IH]; intros dst Hnd index Hix; [done|].
  cbn [foldl]. pose proof (merge_one_spec dst index x Hnd Hix) as Hs.
  destruct (merge_one key (dst, index) x) as [dst' index']. destruct Hs as [-> Hix'].
  apply IH; [by apply upsert_nodup|done].
Qed.

Lemma merge_list_nodup dst src : NoDup (key <$> dst) → NoDup (key <$> merge_list key dst src).
Proof. intros Hnd. rewrite merge_list_upsert by done. by apply fold_upsert_nodup. Qed.

Lemma merge_list_assoc m l k :
  NoDup (key <$> m) → NoDup (key <$> l) →
  merge_list key m (merge_list key l k) = merge_list key (merge_list key m l) k.
Proof.
  intros Hm Hl. rewrite (merge_list_upsert (merge_list key m l)) by by apply merge_list_nodup.
  rewrite !merge_list_upsert by done. by apply fold_upsert_assoc.
Qed.
End upsert.

(** ** Merging configurations *)

Definition pick {A} (empty : A → bool) (d s : A) : A := if empty s then d else s.

Lemma pick_assoc {A} (empty : A → bool) (d a b : A) :
  pick empty d (pick empty a b) = pick empty (pick empty d a) b.
Proof. unfold pick. destruct (empty b) eqn:Hb; [done|]. by rewrite Hb. Qed.

Definition zero_int (n : Z) : bool := n =? 0.

Lemma mergeExecution_fields dst src :
  mergeExecution dst src =
  mkExecution (pick blank (e_Strategy dst) (e_Strategy src)) (pick zero_int (e_Serial dst) (e_Serial src))
    (pick blank (e_FailureDomain dst) (e_FailureDomain src))
    (pick zero_int (e_MaxFailPercentage dst) (e_MaxFailPercentage src))
    (e_AnyErrorsFatal dst || e_AnyErrorsFatal src).
Proof.
  destruct dst as [s1 n1 d1 m1 f1], src as [s2 n2 d2 m2 f2]. unfold mergeExecution, pick, zero_int. cbn.
  destruct (blank s2), (n2 =? 0), (blank d2), (m2 =? 0), f2; cbn; by rewrite ?orb_false_r, ?orb_true_r.
Qed.

Lemma mergeExecution_assoc d a b :
  mergeExecution d (mergeExecution a b) = mergeExecution (mergeExecution d a) b.
Proof. rewrite !mergeExecution_fields. cbn. by rewrite !pick_assoc, orb_assoc. Qed.

Lemma mergeConfig_fields dst src :
  mergeConfig dst src =
  mkConfig (pick blank (c_Version dst) (c_Version src)) (c_Includes dst) (c_Imports dst) (c_Overlays dst)
    (mergeInventory (c_Inventory dst) (c_Inventory src)) (mergeExecution (c_Execution dst) (c_Execution src))
    (mergeResources (c_Resources dst) (c_Resources src)) (mergeResources (c_Handlers dst) (c_Handlers src)).
Proof. destruct dst, src. unfold mergeConfig, pick. cbn. by destruct (blank _). Qed.

(** Names and ids are distinct, as in every merged configuration. *)
Record merged (c : Config) : Prop := {
  mg_hosts : NoDup (h_Name <$> c_Inventory c);
  mg_resources : NoDup (r_ID <$> c_Resources c);
  mg_handlers : NoDup (r_ID <$> c_Handlers c);
}.

Lemma merged_zero : merged zeroConfig.
Proof. split; constructor. Qed.

Lemma merged_merge dst src : merged dst → merged (mergeConfig dst src).
Proof.
  intros [Hh Hr Hd]. rewrite mergeConfig_fields. unfold mergeInventory, mergeResources.
  split; cbn; by apply merge_list_nodup.
Qed.

Lemma merged_fold dst l : merged dst → merged (foldl mergeConfig dst l).
Proof. revert dst; induction l as [|c l IH]; intros dst Hd; [done|]. by apply IH, merged_merge. Qed.

Lemma mergeConfig_assoc d a b :
  merged d → merged a → mergeConfig d (mergeConfig a b) = mergeConfig (mergeConfig d a) b.
Proof.
  intros [Hd1 Hd2 Hd3] [Ha1 Ha2 Ha3]. rewrite !mergeConfig_fields. cbn.
  rewrite pick_assoc, mergeExecution_assoc. unfold mergeInventory, mergeResources.
  by rewrite !merge_list_assoc.
Qed.

Lemma mergeConfig_zero d : merged d → mergeConfig d zeroConfig = d.
Proof.
  intros [H1 H2 H3]. rewrite mergeConfig_fields, mergeExecution_fields. cbn.
  unfold mergeInventory, mergeResources, merge_list. cbn. rewrite orb_false_r.
  destruct d as [? ? ? ? ? [] ? ?]. done.
Qed.

(** Merging a composed child is merging its layers one after the other. *)
Lemma merge_layers d l :
  merged d → mergeConfig d (foldl mergeConfig zeroConfig l) = foldl mergeConfig d l.
Proof.
  intros Hd. induction l as [|c l IH] using rev_ind; [by apply mergeConfig_zero|].
  rewrite !foldl_app. cbn. rewrite mergeConfig_assoc by (done || apply merged_fold, merged_zero).
  by rewrite IH.
Qed.

(** ** What a load computes *)

Section spec.
Context `{ConfigSource}.

(** The layers of a file, from the first merged to the last: those of its
    includes and imports, its own, those of its overlays. *)
Inductive composed : string → list Config → Prop :=
  | composed_file p raw li lm lo :
      parseConfigFile p = Ok raw →
      composed_refs (Dir p) (c_Includes raw) li → composed_refs (Dir p) (c_Imports raw) lm →
      composed_refs (Dir p) (c_Overlays raw) lo →
      composed p (li ++ lm ++ own_layer raw :: lo)
with composed_refs : string → list string → list Config → Prop :=
  | composed_none base : composed_refs base [] []
  | composed_one base ref refs l ls :
      composed (absolute (resolveConfigRef base ref)) l → composed_refs base refs ls →
      composed_refs base (ref :: refs) (l ++ ls).

Scheme composed_ind2 := Induction for composed Sort Prop
  with composed_refs_ind2 := Induction for composed_refs Sort Prop.

Definition references (raw : Config) : list string := c_Includes raw ++ c_Imports raw ++ c_Overlays raw.

(** [q] is loaded for a reference of the file [p]. *)
Definition loads (p q : string) : Prop :=
  ∃ raw ref, parseConfigFile p = Ok raw ∧ ref ∈ references raw ∧ q = absolute (resolveConfigRef (Dir p) ref).

(** Why the load of [p] fails with [e]. *)
Definition explains (p : string) (e : load_error) : Prop :=
  match e with
  | CompositionCycle q => rtc loads p q ∧ tc loads q q
  | e => ∃ q, rtc loads p q ∧ parseConfigFile q = Err e
  end.

Lemma explains_step p q e : loads p q → explains q e → explains p e.
Proof.
  intros Hpq. destruct e; cbn; [intros [? ?]; split; [by eapply rtc_l|done]|..];
    intros (x & ? & ?); exists x; (split; [by eapply rtc_l|done]).
Qed.

(** The loop over references, given what [load] does on each. *)
Lemma merge_children_spec (load : string → gset string → option (result load_error Config * gset string))
    base refs m stack :
  merged m →
  (∀ ref, ref ∈ refs → ∃ r, load (resolveConfigRef base ref) stack = Some (r, stack) ∧
     match r with
     | Ok c => ∃ l, composed (absolute (resolveConfigRef base ref)) l ∧ c = foldl mergeConfig zeroConfig l
     | Err e => explains (absolute (resolveConfigRef base ref)) e
     end) →
  ∃ r, merge_children load base refs m stack = Some (r, stack) ∧
    match r with
    | Ok c => ∃ l, composed_refs base refs l ∧ c = foldl mergeConfig m l
    | Err e => ∃ ref, ref ∈ refs ∧ explains (absolute (resolveConfigRef base ref)) e
    end.
Proof.
  revert m; induction refs as [|ref refs IH]; intros m Hm Hload; cbn [merge_children].
  { eexists. split; [done|]. exists []. split; [constructor|done]. }
  destruct (Hload ref) as ([c|e] & -> & Hr); [left| |].
  - destruct Hr as (l & Hl & ->). rewrite merge_layers by done.
    destruct (IH (foldl mergeConfig m l)) as (r & -> & Hr); [by apply merged_fold|set_solver|].
    exists r. split; [done|]. destruct r as [c|e].
    + destruct Hr as (ls & Hls & ->). exists (l ++ ls). split; [by constructor|]. by rewrite foldl_app.
    + destruct Hr as (x & ? & ?). exists x. split; [by right|done].
  - exists (Err e). split; [done|]. exists ref. split; [left|done].
Qed.

Lemma load_spec (F : gset string) fuel path stack :
  (∀ p raw, parseConfigFile p = Ok raw → p ∈ F) →
  (size (F ∖ stack) < fuel)%nat → (∀ s, s ∈ stack → tc loads s (absolute path)) →
  ∃ r, loadComposedConfig fuel path stack = Some (r, stack) ∧
    match r with
    | Ok c => ∃ l, composed (absolute path) l ∧ c = foldl mergeConfig zeroConfig l
    | Err e => explains (absolute path) e
    end.
Proof.
  intros HF. revert path stack; induction fuel as [|fuel IH]; intros path stack Hfuel Hstack; [lia|].
  cbn [loadComposedConfig]. cbn zeta. set (p := absolute path) in *.
  case_decide as Hin.
  { eexists. split; [done|]. cbn. split; [done|by apply Hstack]. }
  assert (({[p]} ∪ stack) ∖ {[p]} = stack) as Hback by set_solver.
  destruct (parseConfigFile p) as [raw|e] eqn:Hp.
  2: { exists (Err e). rewrite Hback. split; [done|].
       assert (∃ q, rtc loads p q ∧ parseConfigFile q = Err e) as Hq by by exists p.
       destruct e; try exact Hq. exfalso. unfold parseConfigFile in Hp.
       destruct (ReadConfigFile p) as [b|]; [|done].
       destruct (eqs _ _); [by destruct (UnmarshalJSON b)|by destruct (UnmarshalYAML b)]. }
  assert (∀ ref, ref ∈ references raw → ∃ r,
    loadComposedConfig fuel (resolveConfigRef (Dir p) ref) ({[p]} ∪ stack) = Some (r, {[p]} ∪ stack) ∧
    match r with
    | Ok c => ∃ l, composed (absolute (resolveConfigRef (Dir p) ref)) l ∧ c = foldl mergeConfig zeroConfig l
    | Err e => explains (absolute (resolveConfigRef (Dir p) ref)) e
    end) as Hchild.
  { intros ref Href. assert (loads p (absolute (resolveConfigRef (Dir p) ref))) as Hl by by exists raw, ref.
    apply IH.
    - assert (size (F ∖ ({[p]} ∪ stack)) < size (F ∖ stack))%nat; [|lia].
      apply subset_size. pose proof (HF _ _ Hp). set_solver.
    - intros s [->%elem_of_singleton|Hs]%elem_of_union; [by apply tc_once|].
      eapply tc_r; [by apply Hstack|done]. }
  assert (∀ ref e, ref ∈ references raw → explains (absolute (resolveConfigRef (Dir p) ref)) e → explains p e) as Hup.
  { intros ref e Href. apply explains_step. by exists raw, ref. }
  unfold references in Hchild, Hup.
  destruct (merge_children_spec (loadComposedConfig fuel) (Dir p) (c_Includes raw) zeroConfig ({[p]} ∪ stack))
    as ([m1|e] & -> & H1); [apply merged_zero|intros; apply Hchild; set_solver| |];
    cbn [and_then]; [|rewrite Hback; eexists; split; [done|]; destruct H1 as (ref & Href & Hex);
      apply (Hup ref); [set_solver|exact Hex]].
  destruct H1 as (li & Hli & ->).
  destruct (merge_children_spec (loadComposedConfig fuel) (Dir p) (c_Imports raw)
    (foldl mergeConfig zeroConfig li) ({[p]} ∪ stack))
    as ([m2|e] & -> & H2); [apply merged_fold, merged_zero|intros; apply Hchild; set_solver| |];
    cbn [and_then]; [|rewrite Hback; eexists; split; [done|]; destruct H2 as (ref & Href & Hex);
      apply (Hup ref); [set_solver|exact Hex]].
  destruct H2 as (lm & Hlm & ->). rewrite <-foldl_app.
  destruct (merge_children_spec (loadComposedConfig fuel) (Dir p) (c_Overlays raw)
    (mergeConfig (foldl mergeConfig zeroConfig (li ++ lm)) (own_layer raw)) ({[p]} ∪ stack))
    as ([m3|e] & -> & H3); [apply merged_merge, merged_fold, merged_zero|intros; apply Hchild; set_solver| |];
    rewrite Hback; eexists; (split; [done|]).
  - destruct H3 as (lo & Hlo & ->). exists (li ++ lm ++ own_layer raw :: lo). split; [by constructor|].
    by rewrite (app_assoc li lm), (foldl_app _ (li ++ lm)).
  - destruct H3 as (ref & Href & Hex). apply (Hup ref); [set_solver|exact Hex].
Qed.

(** A composition that exists is that of a finite tree of readable files. *)
Lemma composed_readable p l :
  composed p l → (∀ q, rtc loads p q → is_Ok (parseConfigFile q) = true) ∧ Acc (flip loads) p.
Proof.
  revert p l. apply (composed_ind2
    (λ p l _, (∀ q, rtc loads p q → is_Ok (parseConfigFile q) = true) ∧ Acc (flip loads) p)
    (λ base refs ls _, ∀ ref, ref ∈ refs →
       (∀ q, rtc loads (absolute (resolveConfigRef base ref)) q → is_Ok (parseConfigFile q) = true) ∧
       Acc (flip loads) (absolute (resolveConfigRef base ref)))).
  - intros p raw li lm lo Hp _ Hi _ Hm _ Ho.
    assert (∀ q, loads p q → (∀ x, rtc loads q x → is_Ok (parseConfigFile x) = true) ∧ Acc (flip loads) q) as Hc.
    { intros q (raw' & ref & Hp' & Href & ->). rewrite Hp in Hp'. injection Hp' as <-.
      unfold references in Href. apply elem_of_app in Href as [|[|]%elem_of_app]; auto. }
    split.
    + intros q Hq. inversion Hq as [|? y ? Hy Hyq]; subst; [by rewrite Hp|]. by eapply Hc.
    + constructor. intros q Hq. by apply Hc.
  - intros base ref Href. by apply elem_of_nil in Href.
  - intros base ref refs l ls _ Hl _ Hls x [->|Hx]%elem_of_cons; auto.
Qed.

Lemma acc_no_cycle {A} (R : A → A → Prop) p q : Acc (flip R) p → rtc R p q → ¬ tc R q q.
Proof.
  intros Hacc Hpq. assert (Acc (flip R) q) as Hq.
  { revert Hacc. induction Hpq as [|x y z Hxy _ IH]; [done|]. intros [Hx]. by apply IH, Hx. }
  clear Hpq Hacc p. induction Hq as [q _ IH]. intros Hc. inversion Hc as [? ? Hqq|? y ? Hqy Hyq]; subst.
  - by apply (IH q Hqq).
  - apply (IH y Hqy). by eapply tc_r.
Qed.

(** C16: loading terminates, cycles included, with the shared stack restored, on
    any set [F] of readable files; a fuel larger than their number is enough.
    It succeeds exactly when every file that can be reached from the root is
    readable and no reachable file includes itself; then the configuration is the
    merge, from left to right, of the layers of the files (includes, imports,
    the file itself, overlays, recursively).  An error names what is wrong: a
    reachable cycle, or a reachable file that cannot be read or parsed. *)
Theorem load_composes (F : gset string) fuel path :
  (∀ p raw, parseConfigFile p = Ok raw → p ∈ F) → (size F < fuel)%nat →
  let root := absolute path in
  ∃ r, loadComposedConfig fuel path ∅ = Some (r, ∅) ∧
    match r with
    | Ok cfg => ∃ layers, composed root layers ∧ cfg = foldl mergeConfig zeroConfig layers
    | Err e => explains root e
    end ∧
    (is_Ok r = true ↔ ∀ q, rtc loads root q → is_Ok (parseConfigFile q) = true ∧ ¬ tc loads q q).
Proof.
  intros HF Hfuel root. destruct (load_spec F fuel path ∅ HF) as (r & Hr & Hspec).
  { assert (F ∖ ∅ = F) as -> by set_solver. done. }
  { set_solver. }
  exists r. split_and!; [done|done|]. destruct r as [cfg|e]; cbn [is_Ok].
  - split; [|done]. intros _ q Hq. destruct Hspec as (l & Hl & _).
    destruct (composed_readable _ _ Hl) as [Hread Hacc]. split; [by apply Hread|].
    by eapply acc_no_cycle.
  - split; [done|]. intros Hall. exfalso. destruct e; cbn in Hspec;
      [destruct Hspec as [Hq Hc]; by apply (Hall _ Hq)|..];
      destruct Hspec as (q & Hq & He); destruct (Hall q Hq) as [Hok _]; by rewrite He in Hok.
Qed.
End spec.

(** ** What merged layers contain *)

Lemma fold_merge_list {A} (key : A → string) (part : Config → list A) (l : list Config) :
  (∀ d s, part (mergeConfig d s) = merge_list key (part d) (part s)) → part zeroConfig = [] →
  part (foldl mergeConfig zeroConfig l) = foldl (upsert key) [] (l ≫= part).
Proof.
  intros Hm Hz. induction l as [|c l IH] using rev_ind; [done|].
  rewrite foldl_app, bind_app. cbn [foldl]. rewrite Hm, IH, merge_list_upsert.
  - cbn. by rewrite app_nil_r, foldl_app.
  - apply fold_upsert_nodup. constructor.
Qed.

Lemma fold_pick {A} (empty : A → bool) (part : Config → A) (l : list Config) :
  (∀ d s, part (mergeConfig d s) = pick empty (part d) (part s)) →
  part (foldl mergeConfig zeroConfig l) =
    default (part zeroConfig) (last (filter (λ a, empty a = false) (part <$> l))).
Proof.
  intros Hm. induction l as [|c l IH] using rev_ind; [done|].
  rewrite foldl_app, fmap_app, filter_app. cbn [foldl]. rewrite Hm, IH. unfold pick.
  cbn [fmap list_fmap]. rewrite filter_cons. case_decide as He; cbn.
  - by rewrite last_snoc, He.
  - rewrite app_nil_r. by destruct (empty (part c)).
Qed.

(** [rs] are merged into [out]: ordered by the first layer that has an id, with
    the value of the last one. *)
Definition overlaid {A} (key : A → string) (rs out : list A) : Prop :=
  key <$> out = first_occurrences [] (key <$> rs) ∧
  ∀ x, x ∈ out ↔ last (filter (λ y, key y = key x) rs) = Some x.

Lemma overlaid_upsert {A} (key : A → string) (rs : list A) : overlaid key rs (foldl (upsert key) [] rs).
Proof. split; [apply (fold_upsert_keys key [] rs)|apply fold_upsert_values]. Qed.

Definition last_set {A} (empty : A → bool) (zero : A) (l : list A) : A :=
  default zero (last (filter (λ a, empty a = false) l)).

(** The result of merging layers.  Hosts, resources and handlers keep the
    place of the first layer that names them and take the whole definition of the
    last one; a scalar setting is that of the last layer that sets it, and
    [any_errors_fatal] is on when any layer turns it on. *)
Theorem merged_layers (l : list Config) :
  let cfg := foldl mergeConfig zeroConfig l in
  let ex := c_Execution cfg in
  overlaid h_Name (l ≫= c_Inventory) (c_Inventory cfg) ∧
  overlaid r_ID (l ≫= c_Resources) (c_Resources cfg) ∧
  overlaid r_ID (l ≫= c_Handlers) (c_Handlers cfg) ∧
  c_Version cfg = last_set blank "" (c_Version <$> l) ∧
  e_Strategy ex = last_set blank "" ((λ c, e_Strategy (c_Execution c)) <$> l) ∧
  e_Serial ex = last_set zero_int 0 ((λ c, e_Serial (c_Execution c)) <$> l) ∧
  e_FailureDomain ex = last_set blank "" ((λ c, e_FailureDomain (c_Execution c)) <$> l) ∧
  e_MaxFailPercentage ex = last_set zero_int 0 ((λ c, e_MaxFailPercentage (c_Execution c)) <$> l) ∧
  (e_AnyErrorsFatal ex = true ↔ ∃ c, c ∈ l ∧ e_AnyErrorsFatal (c_Execution c) = true).
Proof.
  intros cfg ex.
  assert (∀ d s, c_Inventory (mergeConfig d s) = merge_list h_Name (c_Inventory d) (c_Inventory s) ∧
    c_Resources (mergeConfig d s) = merge_list r_ID (c_Resources d) (c_Resources s) ∧
    c_Handlers (mergeConfig d s) = merge_list r_ID (c_Handlers d) (c_Handlers s) ∧
    c_Version (mergeConfig d s) = pick blank (c_Version d) (c_Version s)) as Hp.
  { intros d s. by rewrite mergeConfig_fields. }
  assert (∀ d s, c_Execution (mergeConfig d s) = mergeExecution (c_Execution d) (c_Execution s)) as He.
  { intros d s. by rewrite mergeConfig_fields. }
  unfold ex, cfg. split_and!.
  - rewrite (fold_merge_list h_Name c_Inventory) by (done || apply Hp). apply overlaid_upsert.
  - rewrite (fold_merge_list r_ID c_Resources) by (done || apply Hp). apply overlaid_upsert.
  - rewrite (fold_merge_list r_ID c_Handlers) by (done || apply Hp). apply overlaid_upsert.
  - rewrite (fold_pick blank c_Version); [done|apply Hp].
  - rewrite (fold_pick blank (λ c, e_Strategy (c_Execution c))); [done|].
    intros d s. by rewrite He, mergeExecution_fields.
  - rewrite (fold_pick zero_int (λ c, e_Serial (c_Execution c))); [done|].
    intros d s. by rewrite He, mergeExecution_fields.
  - rewrite (fold_pick blank (λ c, e_FailureDomain (c_Execution c))); [done|].
    intros d s. by rewrite He, mergeExecution_fields.
  - rewrite (fold_pick zero_int (λ c, e_MaxFailPercentage (c_Execution c))); [done|].
    intros d s. by rewrite He, mergeExecution_fields.
  - clear. induction l as [|c l IH] using rev_ind; [cbn; set_solver|].
    rewrite foldl_app. cbn [foldl]. rewrite mergeConfig_fields. cbn [c_Execution].
    rewrite mergeExecution_fields. cbn [e_AnyErrorsFatal]. rewrite orb_true_iff, IH.
    setoid_rewrite elem_of_app. setoid_rewrite list_elem_of_singleton. naive_solver.
Qed.

(** ** A composition on concrete files *)

Definition layer (includes overlays : list string) (rs : list Resource) : Config :=
  zeroConfig <| c_Includes := includes |> <| c_Overlays := overlays |> <| c_Resources := rs |>.

Definition cmd (id command : string) : Resource :=
  zeroResource <| r_ID := id |> <| r_Command := command |>.

(** A file is its own content; the decoder knows the files. *)
Definition demo_files : ConfigSource := {|
  ReadConfigFile p := if one_of p ["/etc/site.yaml"; "/etc/base.yaml"; "/etc/prod/over.yaml"; "/etc/loop.yaml"]
                      then Ok p else Err "no such file";
  UnmarshalYAML b :=
    if eqs b "/etc/site.yaml" then Ok (layer ["base.yaml"] ["prod/over.yaml"] [cmd "app" "run app"])
    else if eqs b "/etc/base.yaml" then Ok (layer [] [] [cmd "db" "run db"; cmd "app" "placeholder"])
    else if eqs b "/etc/prod/over.yaml" then Ok (layer [] [] [cmd "db" "run db --prod"])
    else Ok (layer ["loop.yaml"] [] []);
  UnmarshalJSON _ := Err "not json";
  Getwd := Some "/etc";
|}.

Definition demo_set : gset string :=
  list_to_set ["/etc/site.yaml"; "/etc/base.yaml"; "/etc/prod/over.yaml"; "/etc/loop.yaml"].

Lemma load_composes_witness :
  ∃ cfg, @loadComposedConfig demo_files 5 "site.yaml" ∅ = Some (Ok cfg, ∅) ∧
    c_Resources cfg = [cmd "db" "run db --prod"; cmd "app" "run app"] ∧
    (∃ layers, @composed demo_files "/etc/site.yaml" layers ∧ cfg = foldl mergeConfig zeroConfig layers) ∧
    (∃ q, @loadComposedConfig demo_files 5 "loop.yaml" ∅ = Some (Err (CompositionCycle q), ∅)).
Proof.
  assert (∀ p raw, @parseConfigFile demo_files p = Ok raw → p ∈ demo_set) as HF.
  { intros p raw. unfold parseConfigFile. cbn [ReadConfigFile demo_files].
    destruct (one_of p _) eqn:Hp; [|done]. apply one_of_true in Hp. intros _.
    by apply elem_of_list_to_set. }
  destruct (@load_composes demo_files demo_set 5 "site.yaml" HF) as (r & Hr & Hl & _);
    [vm_compute; lia|]. cbn zeta in *.
  assert (∃ cfg, r = Ok cfg ∧ c_Resources cfg = [cmd "db" "run db --prod"; cmd "app" "run app"])
    as (cfg & -> & Hcfg).
  { assert (Some (r, ∅) = @loadComposedConfig demo_files 5 "site.yaml" ∅) as He by (by rewrite Hr).
    vm_compute in He. injection He as ->. eexists. split; reflexivity. }
  exists cfg. split_and!; [exact Hr|exact Hcfg|exact Hl|]. eexists. vm_compute. reflexivity.
Defined.
