(* ===== verification/Expand.v ===== *)
(** * Expanding matrices and loops: [internal/config/expand.go], and [Load]

    A resource with a matrix or a loop becomes one resource per combination of
    their values, with the template tokens of its fields replaced.  [Load]
    composes a file, expands it and validates the outcome. *)

From S2P Require Import Prelude Model Path Planner Validate Load.

(** ** The matrix of a resource *)

Definition expansionMatrix (r : Resource) : gmap string (list string) * bool :=
  let matrix := r_Matrix r in
  let expanded := existsb (λ kv, negb (bool_decide (kv.2 = []))) (map_to_list matrix) in
  let key := if eqs (TrimSpace (r_LoopVar r)) "" then "item" else TrimSpace (r_LoopVar r) in
  if bool_decide (r_Loop r = []) then (matrix, expanded)
  else match matrix !! key with
       | Some _ => (matrix, expanded)
       | None => (<[key := r_Loop r]> matrix, true)
       end.

(** ** Combinations *)

Notation vars := (gmap string string) (only parsing).

(** One iteration over the entries of the matrix; [None] when an entry has no
    usable value. *)
Definition add_key (st : option (list string * gmap string (list string))) (kv : string * list string)
    : option (list string * gmap string (list string)) :=
  '(keys, normalized) ← st;
  let name := TrimSpace kv.1 in
  if eqs name "" then Some (keys, normalized)
  else
    let clean := clean_list TrimSpace kv.2 in
    if bool_decide (clean = []) then None
    else Some (keys ++ [name], <[name := clean]> normalized).

(** The recursive closure [walk]: [current] is the map it shares with itself. *)
Fixpoint walk (normalized : gmap string (list string)) (keys : list string) (st : vars * list vars)
    : vars * list vars :=
  match keys with
  | [] => (st.1, st.2 ++ [st.1])
  | key :: keys =>
      let '(current, combos) :=
        foldl (λ st value, walk normalized keys (<[key := value]> st.1, st.2)) st
          (default [] (normalized !! key)) in
      (delete key current, combos)
  end.

(** [entries] are the entries of the matrix in the order the map is iterated. *)
Definition combinations_of (entries : list (string * list string)) : list vars :=
  match foldl add_key (Some ([], ∅)) entries with
  | None => []
  | Some ([], _) => []
  | Some (keys, normalized) => (walk normalized (sort_strings keys) (∅, [])).2
  end.

Definition matrixCombinations (matrix : gmap string (list string)) : list vars :=
  combinations_of (map_to_list matrix).

(** ** Conditions *)

Fixpoint last_char (s : string) : option ascii :=
  match s with
  | EmptyString => None
  | String c EmptyString => Some c
  | String _ s => last_char s
  end.
Fixpoint but_last (s : string) : string :=
  match s with
  | EmptyString | String _ EmptyString => EmptyString
  | String c s => String c (but_last s)
  end.

Definition quoted_by (q : ascii) (s : string) : bool :=
  match s with
  | String c (String d s') => bool_decide (c = q) && bool_decide (last_char (String d s') = Some q)
  | _ => false
  end.

Definition resolveWhenOperand (token : string) (vs : vars) : string :=
  let token := TrimSpace token in
  if eqs token "" then ""
  else if quoted_by squote token || quoted_by dquote token then but_last (drop_str 1 token)
  else default token (vs !! token).

Definition evaluateResourceWhen (when : string) (vs : vars) : bool :=
  let expr := TrimSpace when in
  if eqs expr "" then true
  else if one_of (ToLower expr) ["true"; "1"; "yes"; "on"] then true
  else if one_of (ToLower expr) ["false"; "0"; "no"; "off"] then false
  else match Cut expr "==" with
       | Some (l, r) => eqs (resolveWhenOperand l vs) (resolveWhenOperand r vs)
       | None =>
           match Cut expr "!=" with
           | Some (l, r) => negb (eqs (resolveWhenOperand l vs) (resolveWhenOperand r vs))
           | None => negb (one_of (norm (resolveWhenOperand expr vs)) [""; "0"; "false"; "no"; "off"])
           end
       end.

(** ** Templates: the pattern [\{\{\s*([A-Za-z0-9_.-]+)\s*\}\}] *)

Definition key_char (c : ascii) : bool :=
  in_range "A" "Z" c || in_range "a" "z" c || in_range "0" "9" c
  || bool_decide (c = "_"%char) || bool_decide (c = "."%char) || bool_decide (c = "-"%char).

Fixpoint take_key (s : string) : string * string :=
  match s with
  | String c s' => if key_char c then let '(k, rest) := take_key s' in (String c k, rest) else ("", s)
  | EmptyString => ("", s)
  end.

(** A match at the start of [s]: the key and what follows. *)
Definition match_token (s : string) : option (string * string) :=
  if HasPrefix s "{{" then
    let '(k, rest) := take_key (skip_spaces (drop_str 2 s)) in
    let rest := skip_spaces rest in
    if negb (eqs k "") && HasPrefix rest "}}" then Some (k, drop_str 2 rest) else None
  else None.

(** [ReplaceAllStringFunc]; every round consumes a character at least. *)
Fixpoint replace_tokens (fuel : nat) (vs : vars) (s : string) : string :=
  match fuel with
  | O => s
  | S fuel =>
      match match_token s with
      | Some (k, rest) => default "" (vs !! k) +:+ replace_tokens fuel vs rest
      | None =>
          match s with
          | EmptyString => EmptyString
          | String c s' => String c (replace_tokens fuel vs s')
          end
      end
  end.

Definition replaceString (vs : vars) (s : string) : string := replace_tokens (String.length s) vs s.

Definition applyResourceTemplateVars (r : Resource) (vs : vars) : Resource :=
  if bool_decide (vs = ∅) then r
  else
    let f := replaceString vs in
    let fs := fmap f in
    mkResource (f (r_ID r)) (f (r_Type r)) (f (r_Host r)) (f (r_DelegateTo r)) (fs (r_DependsOn r))
      (fs (r_Require r)) (fs (r_Before r)) (fs (r_Notify r)) (fs (r_Subscribe r)) (fs (r_NotifyHandlers r))
      (r_When r) (r_Matrix r) (r_Loop r) (r_LoopVar r) (fs (r_Tags r)) (f (r_Path r)) (f (r_Content r))
      (f (r_Mode r)) (f (r_ContentChecksum r)) (f (r_ContentSignature r)) (f (r_ContentSigningPubKey r))
      (f (r_Command r)) (f (r_Creates r)) (f (r_OnlyIf r)) (f (r_Unless r)) (r_RefreshOnly r)
      (f (r_RefreshCommand r)) (r_Become r) (f (r_BecomeUser r)) (f (r_RescueCommand r))
      (f (r_AlwaysCommand r)) (r_Retries r) (r_RetryDelaySeconds r) (f (r_RetryBackoff r))
      (r_RetryJitterSecs r) (f (r_UntilContains r)) (f (r_RegistryKey r)) (f (r_RegistryValue r))
      (f (r_RegistryValueType r)) (f (r_TaskName r)) (f (r_TaskSchedule r)) (f (r_TaskCommand r)).

(** ** Ids of the copies *)

(** The loop of [sanitizeMatrixToken]; [dash] is its [lastDash]. *)
Fixpoint dashed (dash : bool) (s : string) : string :=
  match s with
  | EmptyString => EmptyString
  | String c s =>
      if in_range "a" "z" c || in_range "0" "9" c then String c (dashed false s)
      else if dash then dashed true s
      else String "-" (dashed true s)
  end.

Fixpoint trim_dashes_left (s : string) : string :=
  match s with
  | String c s' => if bool_decide (c = "-"%char) then trim_dashes_left s' else s
  | EmptyString => s
  end.
Fixpoint trim_dashes_right (s : string) : string :=
  match s with
  | EmptyString => EmptyString
  | String c s' =>
      match trim_dashes_right s' with
      | EmptyString => if bool_decide (c = "-"%char) then EmptyString else String c EmptyString
      | t => String c t
      end
  end.

Definition sanitizeMatrixToken (s : string) : string :=
  let s := TrimSpace (ToLower s) in
  if eqs s "" then "item"
  else
    let out := trim_dashes_right (trim_dashes_left (dashed false s)) in
    if eqs out "" then "item" else out.

Definition appendMatrixSuffix (id : string) (vs : vars) : string :=
  let keys := sort_strings (map_to_list vs).*1 in
  Join (sanitizeMatrixToken id ::
    (keys ≫= λ key, [sanitizeMatrixToken key; sanitizeMatrixToken (default "" (vs !! key))])) "-".

(** ** Expansion *)

(** The copy of [r] for one combination. *)
Definition instance (r : Resource) (expanded : bool) (vs : vars) : Resource :=
  let res := r <| r_When := "" |> <| r_Matrix := ∅ |> <| r_Loop := [] |> <| r_LoopVar := "" |> in
  let res := applyResourceTemplateVars res vs in
  if expanded && eqs (TrimSpace (r_ID res)) (TrimSpace (r_ID r))
  then res <| r_ID := appendMatrixSuffix (r_ID res) vs |> else res.

Definition expand_one (r : Resource) : list Resource :=
  let '(matrix, expanded) := expansionMatrix r in
  let combos := matrixCombinations matrix in
  let combos := if bool_decide (combos = []) then [∅] else combos in
  instance r expanded <$> filter (λ vs, evaluateResourceWhen (r_When r) vs = true) combos.

Definition expandResourceCollection (rs : list Resource) : list Resource := rs ≫= expand_one.

Definition expandConfigResources (cfg : Config) : Config :=
  cfg <| c_Resources := expandResourceCollection (c_Resources cfg) |>
      <| c_Handlers := expandResourceCollection (c_Handlers cfg) |>.

(** ** [Load] *)

Inductive load_failure :=
  | Compose (e : load_error)
  | Invalid (e : config_error).

Definition Load `{ConfigSource} (fuel : nat) (path : string) : option (result load_failure Config) :=
  match loadComposedConfig fuel (absolute path) ∅ with
  | None => None
  | Some (Err e, _) => Some (Err (Compose e))
  | Some (Ok cfg, _) =>
      match Validate (expandConfigResources cfg) with
      | Ok cfg => Some (Ok cfg)
      | Err e => Some (Err (Invalid e))
      end
  end.

(** ** The combinations are the product of the axes *)

(** The entries with a name: the name and its cleaned values. *)
Definition axes (entries : list (string * list string)) : list (string * list string) :=
  (λ kv, (TrimSpace kv.1, clean_list TrimSpace kv.2)) <$>
    filter (λ kv, TrimSpace kv.1 ≠ "") entries.

Definition axis_map (entries : list (string * list string)) : gmap string (list string) :=
  list_to_map (axes entries).

Lemma fold_add_key entries keys normalized :
  foldl add_key (Some (keys, normalized)) entries =
  if decide (Exists (λ kv, kv.2 = []) (axes entries)) then None
  else Some (keys ++ (axes entries).*1, foldl (λ m kv, <[kv.1 := kv.2]> m) normalized (axes entries)).
Proof.
  assert (∀ es, foldl add_key None es = None) as Hnone by (by induction es).
  revert keys normalized; induction entries as [|[k v] es IH]; intros keys normalized; cbn [foldl].
  { rewrite decide_False by by intros ?%Exists_nil. by rewrite app_nil_r. }
  unfold add_key at 2. cbn [mbind option_bind fst snd]. unfold axes. rewrite filter_cons. cbn [fst].
  destruct (eqs (TrimSpace k) "") eqn:Hk.
  { apply eqs_true in Hk. destruct (decide (TrimSpace k ≠ "")); [done|]. by rewrite IH. }
  apply eqs_false in Hk. destruct (decide (TrimSpace k ≠ "")); [|done]. cbn [fmap list_fmap fst snd]. fold (axes es).
  case_bool_decide as Hc.
  { rewrite Hnone, decide_True; [done|]. by apply Exists_cons_hd. }
  rewrite IH. destruct (decide (Exists _ (axes es))) as [He|He].
  - rewrite decide_True; [done|]. by apply Exists_cons_tl.
  - rewrite decide_False by by intros [?|?]%Exists_cons. by rewrite <-app_assoc.
Qed.

(** The product in lexicographic order. *)
Fixpoint product (values : gmap string (list string)) (keys : list string) : list vars :=
  match keys with
  | [] => [∅]
  | k :: keys => default [] (values !! k) ≫= λ v, (λ m, <[k := v]> m) <$> product values keys
  end.

Lemma elem_of_product values keys m :
  NoDup keys →
  m ∈ product values keys ↔ dom m = list_to_set keys ∧ ∀ k v, m !! k = Some v → v ∈ default [] (values !! k).
Proof.
  revert m; induction keys as [|k keys IH]; intros m Hnd; cbn [product].
  { rewrite list_elem_of_singleton. split.
    - intros ->. split; [set_solver|]. intros k v. by rewrite lookup_empty.
    - intros [Hd _]. by apply dom_empty_inv_L. }
  apply NoDup_cons in Hnd as [Hk Hnd]. rewrite list_elem_of_bind. split.
  - intros (v & (m' & -> & Hm')%list_elem_of_fmap & Hv). apply IH in Hm' as [Hd Hall]; [|done]. split.
    + rewrite dom_insert_L, Hd. done.
    + intros k' v'. rewrite lookup_insert_Some. intros [[<- <-]|[_ Hm]]; [done|by apply Hall].
  - intros [Hd Hall]. assert (k ∈ dom m) as [v Hv]%elem_of_dom by set_solver.
    exists v. split; [|by apply Hall]. apply list_elem_of_fmap. exists (delete k m).
    split; [by rewrite insert_delete_id|]. apply IH; [done|]. split.
    + rewrite dom_delete_L, Hd. cbn. set_solver.
    + intros k' v' [_ Hm]%lookup_delete_Some. by apply Hall.
Qed.

Lemma NoDup_product values keys :
  NoDup keys → (∀ k, NoDup (default [] (values !! k))) → NoDup (product values keys).
Proof.
  intros Hnd Hv. induction keys as [|k keys IH]; cbn [product]; [apply NoDup_singleton|].
  apply NoDup_cons in Hnd as [Hk Hnd]. apply NoDup_bind; [| |apply Hv].
  - intros v w m _ _ (m1 & -> & _)%list_elem_of_fmap (m2 & Heq & _)%list_elem_of_fmap.
    apply (f_equal (.!! k)) in Heq. rewrite !lookup_insert_eq in Heq. congruence.
  - intros v _. apply NoDup_fmap_2_strong; [|by apply IH]. intros m1 m2 H1 H2 Heq.
    apply elem_of_product in H1 as [Hd1 _]; [|done]. apply elem_of_product in H2 as [Hd2 _]; [|done].
    assert (m1 !! k = None ∧ m2 !! k = None) as [Hn1 Hn2].
    { split; apply not_elem_of_dom; set_solver. }
    rewrite <-(delete_insert_id m1 k v Hn1), Heq. by apply delete_insert_id.
Qed.

Lemma walk_product values keys cur combos :
  NoDup keys → (∀ k, k ∈ keys → cur !! k = None) →
  walk values keys (cur, combos) = (cur, combos ++ ((λ m, m ∪ cur) <$> product values keys)).
Proof.
  revert cur combos; induction keys as [|k keys IH]; intros cur combos Hnd Hcur; cbn [walk product].
  { cbn. by rewrite (left_id_L ∅ (∪)). }
  apply NoDup_cons in Hnd as [Hk Hnd].
  assert (∀ vs c0 combos, delete k c0 = cur → ∃ c1, delete k c1 = cur ∧
    foldl (λ st value, walk values keys (<[k := value]> st.1, st.2)) (c0, combos) vs =
      (c1, combos ++ ((λ m, m ∪ cur) <$> (vs ≫= λ v, (λ m, <[k := v]> m) <$> product values keys)))) as Hloop.
  { induction vs as [|v vs IHv]; intros c0 cs Hc0; cbn [foldl].
    { exists c0. by rewrite app_nil_r. }
    cbn [fst snd]. rewrite <-(insert_delete_eq c0), Hc0. rewrite IH; [|done|].
    2: { intros k' Hk'. rewrite lookup_insert_ne by (by intros ->). apply Hcur. by right. }
    destruct (IHv (<[k := v]> cur) (cs ++ ((λ m, m ∪ <[k := v]> cur) <$> product values keys))) as (c1 & Hc1 & ->).
    { apply delete_insert_id, Hcur. left. }
    exists c1. split; [done|]. f_equal. rewrite <-app_assoc. f_equal. cbn. rewrite fmap_app. f_equal.
    rewrite <-list_fmap_compose. apply list_fmap_ext. intros i m Hm%list_elem_of_lookup_2. cbn.
    apply elem_of_product in Hm as [Hd _]; [|done].
    rewrite <-insert_union_r, insert_union_l; [done|]. apply not_elem_of_dom. set_solver. }
  destruct (Hloop (default [] (values !! k)) cur combos) as (c1 & Hc1 & ->).
  { apply delete_id, Hcur. left. }
  by rewrite Hc1.
Qed.

Lemma combinations_product entries :
  NoDup (axes entries).*1 →
  combinations_of entries =
    if decide (axes entries = []) then []
    else if decide (Exists (λ kv, kv.2 = []) (axes entries)) then []
    else product (axis_map entries) (sort_strings (axes entries).*1).
Proof.
  intros Hnd. unfold combinations_of. rewrite fold_add_key.
  destruct (decide (axes entries = [])) as [->|Hne].
  { by rewrite decide_False by by intros ?%Exists_nil. }
  case_decide as He; [done|]. rewrite app_nil_l, foldl_insert_map, (right_id_L ∅ (∪)) by done.
  fold (axis_map entries). destruct (axes entries).*1 as [|k ks] eqn:Hks.
  { destruct (axes entries); [done|by cbn in Hks]. }
  rewrite walk_product; [|by apply NoDup_sort_strings|intros; apply lookup_empty].
  cbn [snd app]. rewrite (list_fmap_ext _ id), list_fmap_id; [done|].
  intros i m _. cbn. by rewrite (right_id_L ∅ (∪)).
Qed.

Lemma axes_Permutation es es' : es ≡ₚ es' → axes es ≡ₚ axes es'.
Proof. intros Hp. unfold axes. by rewrite Hp. Qed.

Lemma elem_of_axes matrix k l :
  (k, l) ∈ axes (map_to_list matrix) ↔
  k ≠ "" ∧ ∃ key values, matrix !! key = Some values ∧ TrimSpace key = k ∧ clean_list TrimSpace values = l.
Proof.
  unfold axes. rewrite list_elem_of_fmap. setoid_rewrite list_elem_of_filter. split.
  - intros ([key values] & [= -> ->] & Hne & Hin%elem_of_map_to_list). cbn in *. eauto 10.
  - intros (Hne & key & values & Hm & <- & <-). exists (key, values). by rewrite elem_of_map_to_list.
Qed.

Lemma combinations_Permutation es es' :
  es ≡ₚ es' → NoDup (axes es).*1 → combinations_of es = combinations_of es'.
Proof.
  intros Hp%axes_Permutation Hnd. assert ((axes es).*1 ≡ₚ (axes es').*1) as Hf by by rewrite Hp.
  rewrite !combinations_product by (done || by rewrite <-Hf).
  assert (axes es = [] ↔ axes es' = []) as He.
  { pose proof (Permutation_length Hp) as Hlen.
    split; intros Heq; rewrite Heq in Hlen; by apply nil_length_inv. }
  assert (Exists (λ kv : string * list string, kv.2 = []) (axes es) ↔
          Exists (λ kv : string * list string, kv.2 = []) (axes es')) as Hx by by rewrite Hp.
  rewrite (decide_ext (axes es = []) (axes es' = [])) by done. case_decide; [done|].
  rewrite (decide_ext _ _ _ _ Hx). case_decide; [done|].
  rewrite (sort_strings_Permutation _ _ Hf). f_equal. by apply list_to_map_proper.
Qed.

(** The combinations of a matrix whose names stay distinct when trimmed are
    exactly the assignments of one of its cleaned values to every name, each
    once; none when there is no name, or a name without values.  They, and
    their order, do not depend on the order in which the map is iterated. *)
Theorem matrixCombinations_product (matrix : gmap string (list string)) :
  let ax := axis_map (map_to_list matrix) in
  NoDup (axes (map_to_list matrix)).*1 →
  (∀ k l, ax !! k = Some l ↔ k ≠ "" ∧ ∃ key values, matrix !! key = Some values ∧
     TrimSpace key = k ∧ clean_list TrimSpace values = l) ∧
  NoDup (matrixCombinations matrix) ∧
  (ax = ∅ → matrixCombinations matrix = []) ∧
  (ax ≠ ∅ → ∀ vs, vs ∈ matrixCombinations matrix ↔
     dom vs = dom ax ∧ ∀ k v, vs !! k = Some v → v ∈ default [] (ax !! k)) ∧
  (∀ entries, entries ≡ₚ map_to_list matrix → combinations_of entries = matrixCombinations matrix).
Proof.
  intros ax Hnd. unfold matrixCombinations.
  assert (∀ k l, ax !! k = Some l ↔ (k, l) ∈ axes (map_to_list matrix)) as Hax.
  { intros k l. unfold ax, axis_map. by rewrite <-elem_of_list_to_map. }
  assert (∀ k, NoDup (default [] (ax !! k))) as Hvals.
  { intros k. destruct (ax !! k) as [l|] eqn:Hk; cbn; [|constructor].
    apply Hax, elem_of_axes in Hk as (_ & key & values & _ & _ & <-). apply NoDup_clean_list. }
  assert (dom ax = list_to_set (sort_strings (axes (map_to_list matrix)).*1)) as Hdom.
  { unfold ax, axis_map. rewrite dom_list_to_map_L. apply set_eq. intros k.
    by rewrite !elem_of_list_to_set, elem_of_sort_strings. }
  assert (ax = ∅ ↔ axes (map_to_list matrix) = []) as Hempty.
  { split; [|unfold ax, axis_map; by intros ->]. intros He.
    destruct (axes (map_to_list matrix)) as [|[k l] rest] eqn:Heq; [done|].
    assert (ax !! k = Some l) as Hk by (apply Hax; left). rewrite He in Hk. by rewrite lookup_empty in Hk. }
  split_and!.
  - intros k l. by rewrite Hax, elem_of_axes.
  - rewrite combinations_product by done. case_decide; [constructor|]. case_decide; [constructor|].
    apply NoDup_product; [by apply NoDup_sort_strings|exact Hvals].
  - intros He%Hempty. rewrite combinations_product by done. by rewrite decide_True.
  - intros Hne vs. rewrite combinations_product by done.
    rewrite decide_False by by intros ?%Hempty. case_decide as Hx.
    + split; [by intros ?%elem_of_nil|]. intros [Hd Hall]. exfalso.
      apply Exists_exists in Hx as ([k l] & Hkl & Hl). cbn in Hl. subst l. apply Hax in Hkl.
      assert (k ∈ dom vs) as [v Hv]%elem_of_dom by (rewrite Hd; by apply elem_of_dom_2 in Hkl).
      apply Hall in Hv. rewrite Hkl in Hv. by apply elem_of_nil in Hv.
    + fold ax. rewrite elem_of_product by by apply NoDup_sort_strings. by rewrite Hdom.
  - intros es Hp. apply combinations_Permutation; [done|].
    assert ((axes es).*1 ≡ₚ (axes (map_to_list matrix)).*1) as ->; [by rewrite (axes_Permutation _ _ Hp)|done].
Qed.

Definition demo_matrix : gmap string (list string) :=
  {[ " os " := ["linux"; " linux"; "bsd"]; "arch" := ["x86"; ""; "arm"] ]}.

Lemma matrixCombinations_product_witness :
  length (matrixCombinations demo_matrix) = 4%nat ∧
  ({[ "os" := "bsd"; "arch" := "arm" ]} : vars) ∈ matrixCombinations demo_matrix ∧
  combinations_of (reverse (map_to_list demo_matrix)) = matrixCombinations demo_matrix.
Proof.
  destruct (matrixCombinations_product demo_matrix) as (_ & _ & _ & Hin & Hord).
  { apply (bool_decide_unpack _). by vm_compute. }
  split_and!; [by vm_compute| |apply Hord; by rewrite reverse_Permutation].
  apply Hin; [by vm_compute|]. split; [by vm_compute|]. intros k v Hv.
  apply lookup_insert_Some in Hv as [[<- <-]|[_ Hv]].
  - apply (bool_decide_unpack _). by vm_compute.
  - apply lookup_singleton_Some in Hv as [<- <-]. apply (bool_decide_unpack _). by vm_compute.
Defined.

(** Names that collide when trimmed: the outcome depends on the iteration order. *)
Theorem colliding_matrix_names :
  let m : gmap string (list string) := {[ "env" := ["dev"]; "env " := ["prod"] ]} in
  ∃ es es', es ≡ₚ map_to_list m ∧ es' ≡ₚ map_to_list m ∧
    combinations_of es = [{[ "env" := "prod" ]}] ∧
    combinations_of es' = [{[ "env" := "dev" ]}].
Proof.
  exists [("env", ["dev"]); ("env ", ["prod"])], [("env ", ["prod"]); ("env", ["dev"])].
  assert (map_to_list ({[ "env" := ["dev"]; "env " := ["prod"] ]} : gmap string (list string)) ≡ₚ
    [("env", ["dev"]); ("env ", ["prod"])]) as Hp.
  { rewrite map_to_list_insert by by vm_compute. by rewrite map_to_list_singleton. }
  split_and!; [by rewrite Hp|rewrite Hp; apply Permutation_swap|by vm_compute|by vm_compute].
Qed.

(** ** Expanded resources *)

(** Nothing left to expand. *)
Definition plain (r : Resource) : Prop :=
  r_When r = "" ∧ r_Matrix r = ∅ ∧ r_Loop r = [] ∧ r_LoopVar r = "".

Lemma instance_plain r expanded vs : plain (instance r expanded vs).
Proof.
  unfold instance, applyResourceTemplateVars, plain.
  destruct (bool_decide (vs = ∅)); destruct (expanded && _); done.
Qed.

Lemma expand_plain r : plain r → expand_one r = [r].
Proof.
  intros (Hw & Hm & Hl & Hv). unfold expand_one, expansionMatrix. rewrite Hm, Hl.
  rewrite bool_decide_eq_true_2 by done. rewrite map_to_list_empty.
  change (matrixCombinations ∅) with ([] : list vars). rewrite bool_decide_eq_true_2 by done.
  rewrite Hw. cbn. unfold instance. cbn. f_equal. by destruct r; cbn in *; subst.
Qed.

Lemma expand_all_plain rs : Forall plain (expandResourceCollection rs).
Proof.
  apply Forall_forall. intros x (r & Hx & _)%list_elem_of_bind. unfold expand_one in Hx.
  destruct (expansionMatrix r) as [matrix expanded].
  apply list_elem_of_fmap in Hx as (vs & -> & _). apply instance_plain.
Qed.

Lemma expand_plain_list rs : Forall plain rs → expandResourceCollection rs = rs.
Proof.
  unfold expandResourceCollection. induction 1 as [|r rs Hr _ IH]; [done|].
  cbn. rewrite expand_plain by done. cbn. by rewrite IH.
Qed.

(** C17: [Load] end to end, on a finite set of readable files.  It terminates;
    when it succeeds, the configuration is the validation of the expansion of the
    composition of the files, nothing is left to expand, and it is well formed;
    and, if no id of a resource contains [->], [Build] either plans every resource
    after its dependencies or reports a cycle that the resources have.  When it
    fails, the files do not compose, for the reason given, or the expanded
    composition is invalid. *)
Theorem Load_pipeline `{ConfigSource} (F : gset string) fuel path :
  (∀ p raw, parseConfigFile p = Ok raw → p ∈ F) → (size F < fuel)%nat →
  let root := absolute (absolute path) in
  ∃ r, Load fuel path = Some r ∧
    match r with
    | Err (Compose e) => explains root e
    | Err (Invalid e) => ∃ layers, composed root layers ∧
        Validate (expandConfigResources (foldl mergeConfig zeroConfig layers)) = Err e
    | Ok cfg => ∃ layers, composed root layers ∧
        let ex := expandConfigResources (foldl mergeConfig zeroConfig layers) in
        Forall plain (c_Resources ex ++ c_Handlers ex) ∧ expandConfigResources ex = ex ∧
        Validate ex = Ok cfg ∧ well_formed cfg ∧
        (arrow_free (c_Resources cfg) →
           match Build cfg with
           | Ok p => s_Resource <$> p_Steps p ≡ₚ c_Resources cfg ∧
               ∀ u v, edge (c_Resources cfg) u v →
                 precedes ((λ s, r_ID (s_Resource s)) <$> p_Steps p) u v
           | Err ErrCycle => ∃ v, tc (edge (c_Resources cfg)) v v
           end)
    end.
Proof.
  intros HF Hfuel root. unfold Load.
  destruct (load_spec F fuel (absolute path) ∅ HF) as (r & -> & Hspec).
  { assert (F ∖ ∅ = F) as -> by set_solver. done. }
  { set_solver. }
  fold root in Hspec. destruct r as [cfg|e]; [|by eexists].
  destruct Hspec as (layers & Hl & ->). set (ex := expandConfigResources _).
  assert (Forall plain (c_Resources ex ++ c_Handlers ex)) as Hplain.
  { apply Forall_app; split; apply expand_all_plain. }
  assert (expandConfigResources ex = ex) as Hex.
  { apply Forall_app in Hplain as [H1 H2]. unfold expandConfigResources at 1.
    by rewrite (expand_plain_list _ H1), (expand_plain_list _ H2). }
  destruct (Validate ex) as [cfg|e] eqn:Hv; (eexists; split; [done|]); exists layers; (split; [done|]); [|done].
  pose proof (Validate_spec _ _ Hv) as [Hwf _]. split_and!; [done..|]. intros Ha.
  pose proof (well_formed_plannable _ Hwf) as Hp. destruct (Build cfg) as [p|[]] eqn:HB.
  - by destruct (Build_sound cfg p Hp Ha HB) as (? & ? & _).
  - by apply (Build_cycle cfg Hp Ha).
Qed.

(** ** Templates need no more fuel than their length *)

Lemma length_skip_spaces s : (String.length (skip_spaces s) ≤ String.length s)%nat.
Proof. induction s as [|c s IH]; cbn; [done|]. destruct (pattern_space c); cbn; lia. Qed.

Lemma length_take_key s : (String.length (take_key s).2 ≤ String.length s)%nat.
Proof.
  induction s as [|c s IH]; cbn; [done|]. destruct (key_char c); [|cbn; lia].
  destruct (take_key s) as [k rest]. cbn in *. lia.
Qed.

Lemma length_drop_str n s : String.length (drop_str n s) = (String.length s - n)%nat.
Proof. revert s; induction n as [|n IH]; intros [|c s]; cbn; done || apply IH. Qed.

Lemma match_token_shorter s k rest :
  match_token s = Some (k, rest) → (String.length rest < String.length s)%nat.
Proof.
  unfold match_token. destruct (HasPrefix s "{{") eqn:Hp; [|done].
  pose proof (length_take_key (skip_spaces (drop_str 2 s))) as H1.
  destruct (take_key _) as [k' rest']. cbn [snd] in H1.
  destruct (_ && _); [|done]. intros Heq.
  assert (rest = drop_str 2 (skip_spaces rest')) as -> by congruence.
  pose proof (length_skip_spaces (drop_str 2 s)) as H2. pose proof (length_skip_spaces rest') as H3.
  rewrite length_drop_str in H2 |- *. assert (0 < String.length s)%nat; [|lia].
  destruct s; [done|]. cbn. lia.
Qed.

Lemma replace_tokens_enough fuel fuel' vs s :
  (String.length s ≤ fuel)%nat → (String.length s ≤ fuel')%nat →
  replace_tokens fuel vs s = replace_tokens fuel' vs s.
Proof.
  revert fuel' s; induction fuel as [|fuel IH]; intros fuel' s H1 H2.
  { destruct s; [|cbn in H1; lia]. by destruct fuel'. }
  destruct fuel' as [|fuel']; [destruct s; [done|cbn in H2; lia]|].
  cbn [replace_tokens]. destruct (match_token s) as [[k rest]|] eqn:Hm.
  - apply match_token_shorter in Hm. f_equal. apply IH; lia.
  - destruct s as [|c s]; [done|]. f_equal. cbn in *. apply IH; lia.
Qed.

(** ** A directory on disk *)

Definition site_files : ConfigSource := {|
  ReadConfigFile p := if one_of p ["/srv/site.yaml"; "/srv/hosts.yaml"] then Ok p else Err "no such file";
  UnmarshalYAML b :=
    if eqs b "/srv/hosts.yaml" then Ok (config_of ["h"] [])
    else Ok (zeroConfig <| c_Version := "v0" |> <| c_Includes := [" hosts.yaml"] |>
      <| c_Resources := [(command_on "h" "web-{{ item }}" []) <| r_Loop := ["b"; "a"] |>
                            <| r_Command := "deploy {{item}}" |>;
                         (command_on "h" "db" []) <| r_When := "off" |>] |>);
  UnmarshalJSON _ := Err "not json";
  Getwd := Some "/srv";
|}.

Definition site_set : gset string := list_to_set ["/srv/site.yaml"; "/srv/hosts.yaml"].

Lemma Load_pipeline_witness :
  ∃ cfg, @Load site_files 3 "site.yaml" = Some (Ok cfg) ∧
    (λ r, (r_ID r, r_Command r)) <$> c_Resources cfg = [("web-a", "deploy a"); ("web-b", "deploy b")] ∧
    well_formed cfg.
Proof.
  assert (∀ p raw, @parseConfigFile site_files p = Ok raw → p ∈ site_set) as HF.
  { intros p raw. unfold parseConfigFile. cbn [ReadConfigFile site_files].
    destruct (one_of p _) eqn:Hp; [|done]. apply one_of_true in Hp. intros _.
    by apply elem_of_list_to_set. }
  destruct (@Load_pipeline site_files site_set 3 "site.yaml" HF) as (r & Hr & Hspec); [vm_compute; lia|].
  assert (∃ cfg, r = Ok cfg ∧
    (λ r, (r_ID r, r_Command r)) <$> c_Resources cfg = [("web-a", "deploy a"); ("web-b", "deploy b")])
    as (cfg & -> & Hcfg).
  { assert (Some r = @Load site_files 3 "site.yaml") as He by (by rewrite Hr).
    vm_compute in He. injection He as ->. eexists. split; reflexivity. }
  exists cfg. split_and!; [exact Hr|exact Hcfg|].
  destruct Hspec as (layers & _ & _ & _ & _ & Hwf & _). exact Hwf.
Defined.
