(* ===== verification/Workflow.v ===== *)
(** * Workflows: [internal/control/workflow.go] and the template store of
    [internal/control/templates.go]

    A workflow run dispatches its steps one after the other as jobs of the
    queue; the subscriber [onJob] of the queue dispatches the next step when the
    job of a step succeeds.  Events are published outside the mutex of the queue
    and [dispatchStep] enqueues before it records the job: both gaps are steps of
    the model ([fl_outbox], [fl_inflight]), so that any other call can fall in
    between. *)

From S2P Require Import Prelude Queue QueueInvariant QueueSpec.

(** ** Templates *)

Record SurveyField : Type := mkSurvey { sf_Type : string; sf_Required : bool; sf_Enum : list string }.

Record Template : Type := mkTemplate {
  tp_ID : string;
  tp_Name : string;
  tp_Description : string;
  tp_ConfigPath : string;
  tp_StrictMode : bool;
  tp_Defaults : gmap string string;
  tp_Survey : gmap string SurveyField;
  tp_CreatedAt : Time;
}.
#[export] Instance Template_eta : Eta Template := λ r,
  mkTemplate (tp_ID r) (tp_Name r) (tp_Description r) (tp_ConfigPath r) (tp_StrictMode r) (tp_Defaults r)
    (tp_Survey r) (tp_CreatedAt r).

Record TemplateStore : Type := mkTemplates { ts_nextID : Z; ts_templates : gmap string Template }.

Definition NewTemplateStore : TemplateStore := mkTemplates 0 ∅.

Definition CreateTemplate (t : Template) (now : Time) (s : TemplateStore) : TemplateStore * Template :=
  let next := ts_nextID s + 1 in
  let t := t <| tp_ID := "tpl-" +:+ itoa next |> <| tp_CreatedAt := now |> in
  (mkTemplates next (<[tp_ID t := t]> (ts_templates s)), t).

Definition GetTemplate (id : string) (s : TemplateStore) : option Template := ts_templates s !! id.
Definition ListTemplates (s : TemplateStore) : list Template := (map_to_list (ts_templates s)).*2.

Definition DeleteTemplate (id : string) (s : TemplateStore) : TemplateStore * bool :=
  match ts_templates s !! id with
  | None => (s, false)
  | Some _ => (mkTemplates (ts_nextID s) (delete id (ts_templates s)), true)
  end.

(** ** Workflows and runs *)

Inductive WorkflowStatus := WorkflowPending | WorkflowRunning | WorkflowSucceeded | WorkflowFailed.
#[export] Instance WorkflowStatus_dec : EqDecision WorkflowStatus.
Proof. solve_decision. Defined.

Record WorkflowStep : Type := mkWorkflowStep { wst_TemplateID : string; wst_Priority : string }.

Record WorkflowTemplate : Type := mkWorkflow {
  wt_ID : string;
  wt_Name : string;
  wt_Description : string;
  wt_Steps : list WorkflowStep;
  wt_CreatedAt : Time;
}.

Record WorkflowRun : Type := mkWorkflowRun {
  wr_ID : string;
  wr_WorkflowID : string;
  wr_Status : WorkflowStatus;
  wr_CurrentStep : Z;
  wr_TotalSteps : Z;
  wr_StepJobIDs : list string;
  wr_DefaultPriority : string;
  wr_Force : bool;
  wr_Error : string;
  wr_CreatedAt : Time;
  wr_StartedAt : Time;
  wr_EndedAt : Time;
}.
#[export] Instance WorkflowRun_eta : Eta WorkflowRun := λ r,
  mkWorkflowRun (wr_ID r) (wr_WorkflowID r) (wr_Status r) (wr_CurrentStep r) (wr_TotalSteps r)
    (wr_StepJobIDs r) (wr_DefaultPriority r) (wr_Force r) (wr_Error r) (wr_CreatedAt r) (wr_StartedAt r)
    (wr_EndedAt r).

Record WorkflowStore : Type := mkWorkflowStore {
  ws_nextWorkflowID : Z;
  ws_nextRunID : Z;
  ws_workflows : gmap string WorkflowTemplate;
  ws_runs : gmap string WorkflowRun;
  ws_jobRefs : gmap string (string * nat);     (* the run and the step of a job *)
}.
#[export] Instance WorkflowStore_eta : Eta WorkflowStore := λ r,
  mkWorkflowStore (ws_nextWorkflowID r) (ws_nextRunID r) (ws_workflows r) (ws_runs r) (ws_jobRefs r).

(** The job of a dispatch that is not recorded yet. *)
Record Inflight : Type := mkInflight {
  in_run : string;
  in_step : nat;
  in_job : string;
  in_runStarted : Time;
}.

Record Flow : Type := mkFlow {
  fl_sys : System;
  fl_store : WorkflowStore;
  fl_templates : TemplateStore;
  fl_outbox : list Job;                        (* events not delivered to [onJob] yet *)
  fl_inflight : list Inflight;
}.
#[export] Instance Flow_eta : Eta Flow := λ r,
  mkFlow (fl_sys r) (fl_store r) (fl_templates r) (fl_outbox r) (fl_inflight r).

Definition fl_queue (s : Flow) : Queue := sys_queue (fl_sys s).

Definition workflow_subscriber : string := "workflow".

Inductive workflow_error :=
  | WfName | WfNoSteps | WfTemplateRequired | WfUnknownTemplate (id : string)
  | WfNotFound | WfRunNotFound | WfStepRange | WfMissingTemplate | WfQueue (e : enqueue_error)
  | WfNilJob.

(** [err.Error()] of a failed [Enqueue]. *)
Definition enqueue_text (e : enqueue_error) : string :=
  match e with
  | EmergencyActive => "emergency stop active; new applies are halted"
  | FreezeActive m => m
  | QueueFull m => m
  end.

(** The state the events of a queue transition are added to. *)
Definition with_system (sys : System) (s : Flow) : Flow :=
  s <| fl_sys := sys |>
    <| fl_outbox := fl_outbox s ++ (filter (λ ev, ev.1 = workflow_subscriber)
         (drop (length (q_events (fl_queue s))) (q_events (sys_queue sys)))).*2 |>.

Definition with_flow_queue (q : Queue) (s : Flow) : Flow :=
  with_system ((fl_sys s) <| sys_queue := q |>) s.

Definition put_run (r : WorkflowRun) (s : Flow) : Flow :=
  s <| fl_store := (fl_store s) <| ws_runs := <[wr_ID r := r]> (ws_runs (fl_store s)) |> |>.

Definition over (st : WorkflowStatus) : bool :=
  bool_decide (st = WorkflowFailed) || bool_decide (st = WorkflowSucceeded).

Definition failRun (runID reason : string) (now : Time) (s : Flow) : Flow :=
  match ws_runs (fl_store s) !! runID with
  | None => s
  | Some run =>
      if over (wr_Status run) then s
      else put_run (run <| wr_Status := WorkflowFailed |> <| wr_Error := reason |> <| wr_EndedAt := now |>) s
  end.

Definition create_step (templates : TemplateStore) (step : WorkflowStep) : result workflow_error WorkflowStep :=
  if eqs (wst_TemplateID step) "" then Err WfTemplateRequired
  else match GetTemplate (wst_TemplateID step) templates with
       | None => Err (WfUnknownTemplate (wst_TemplateID step))
       | Some _ => Ok (mkWorkflowStep (wst_TemplateID step) (normalizePriority (wst_Priority step)))
       end.

Definition CreateWorkflow (name description : string) (steps : list WorkflowStep) (now : Time) (s : Flow)
    : Flow * result workflow_error WorkflowTemplate :=
  if eqs name "" then (s, Err WfName)
  else if bool_decide (steps = []) then (s, Err WfNoSteps)
  else
    match mapM_res (create_step (fl_templates s)) steps with
    | Err e => (s, Err e)
    | Ok steps =>
        let st := fl_store s in
        let next := ws_nextWorkflowID st + 1 in
        let wf := mkWorkflow ("wf-" +:+ itoa next) name description steps now in
        (s <| fl_store := st <| ws_nextWorkflowID := next |>
                             <| ws_workflows := <[wt_ID wf := wf]> (ws_workflows st) |> |>, Ok wf)
    end.

Definition GetWorkflow (id : string) (s : Flow) : option WorkflowTemplate := ws_workflows (fl_store s) !! id.
Definition ListWorkflows (s : Flow) : list WorkflowTemplate := (map_to_list (ws_workflows (fl_store s))).*2.
Definition GetRun (id : string) (s : Flow) : result workflow_error WorkflowRun :=
  match ws_runs (fl_store s) !! id with
  | Some run => Ok run
  | None => Err WfRunNotFound
  end.
Definition ListRuns (s : Flow) : list WorkflowRun := (map_to_list (ws_runs (fl_store s))).*2.

(** ** Dispatching a step *)

Definition step_key (runID : string) (step : nat) : string :=
  runID +:+ "-step-" +:+ itoa (Z.of_nat step).

Section flow.
Context `{TimeFormat}.

(** [dispatchStep] up to [Enqueue]: [Ok None] when the run is over, the dispatch
    to record otherwise.  Step indices are never negative. *)
Definition dispatch_enqueue (runID : string) (step : nat) (now : Time) (s : Flow)
    : Flow * result workflow_error (option Inflight) :=
  match ws_runs (fl_store s) !! runID with
  | None => (s, Err WfRunNotFound)
  | Some run =>
      if over (wr_Status run) then (s, Ok None)
      else
        match ws_workflows (fl_store s) !! wr_WorkflowID run with
        | None => (s, Err WfNotFound)
        | Some wf =>
            match wt_Steps wf !! step with
            | None => (s, Err WfStepRange)
            | Some st =>
                let priority := if one_of (wst_Priority st) [""; "normal"] then wr_DefaultPriority run
                                else wst_Priority st in
                match GetTemplate (wst_TemplateID st) (fl_templates s) with
                | None =>
                    (failRun runID ("workflow step references missing template: " +:+ wst_TemplateID st) now s,
                     Err WfMissingTemplate)
                | Some tpl =>
                    let '(q, r) := Enqueue (tp_ConfigPath tpl) (step_key runID step) (wr_Force run) priority now
                                     (fl_queue s) in
                    let s := with_flow_queue q s in
                    match r with
                    | Err e => (failRun runID (enqueue_text e) now s, Err (WfQueue e))
                    | Ok None => (s, Err WfNilJob)
                    | Ok (Some job) => (s, Ok (Some (mkInflight runID step (j_ID job) (wr_StartedAt run))))
                    end
                end
            end
        end
  end.

(** The rest of [dispatchStep]. *)
Definition record_run (d : Inflight) (now : Time) (run : WorkflowRun) : WorkflowRun :=
  run <| wr_StartedAt := if IsZero (in_runStarted d) then now else wr_StartedAt run |>
      <| wr_Status := WorkflowRunning |> <| wr_CurrentStep := Z.of_nat (in_step d) |>
      <| wr_StepJobIDs := <[in_step d := in_job d]> (wr_StepJobIDs run) |>.

Definition dispatch_record (d : Inflight) (now : Time) (s : Flow) : Flow :=
  match ws_runs (fl_store s) !! in_run d with
  | None => s
  | Some run =>
      if over (wr_Status run) then s
      else
        let s := put_run (record_run d now run) s in
        s <| fl_store := (fl_store s) <| ws_jobRefs := <[in_job d := (in_run d, in_step d)]> (ws_jobRefs (fl_store s)) |> |>
  end.

Definition begin_dispatch (runID : string) (step : nat) (now : Time) (s : Flow) : Flow :=
  match dispatch_enqueue runID step now s with
  | (s, Ok (Some d)) => s <| fl_inflight := fl_inflight s ++ [d] |>
  | (s, _) => s
  end.

(** [Launch], up to the [Enqueue] of the first step. *)
Definition Launch (workflowID priority : string) (force : bool) (now : Time) (s : Flow) : Flow :=
  match ws_workflows (fl_store s) !! workflowID with
  | None => s
  | Some wf =>
      let st := fl_store s in
      let next := ws_nextRunID st + 1 in
      let run := mkWorkflowRun ("wfrun-" +:+ itoa next) workflowID WorkflowPending 0
                   (Z.of_nat (length (wt_Steps wf))) (replicate (length (wt_Steps wf)) "")
                   (normalizePriority priority) force "" now 0 0 in
      let s := put_run run (s <| fl_store := st <| ws_nextRunID := next |> |>) in
      begin_dispatch (wr_ID run) 0 now s
  end.

(** ** The subscriber *)

Definition job_over (j : Job) : bool :=
  bool_decide (j_Status j = JobSucceeded) || bool_decide (j_Status j = JobFailed)
  || bool_decide (j_Status j = JobCanceled).

Definition onJob (job : Job) (now : Time) (s : Flow) : Flow :=
  if negb (job_over job) then s
  else
    match ws_jobRefs (fl_store s) !! j_ID job with
    | None => s
    | Some (runID, step) =>
        match ws_runs (fl_store s) !! runID with
        | None => s
        | Some run =>
            if over (wr_Status run) then s
            else
              match ws_workflows (fl_store s) !! wr_WorkflowID run with
              | None => failRun runID "workflow definition not found" now s
              | Some wf =>
                  if bool_decide (j_Status job = JobSucceeded) then
                    if (length (wt_Steps wf) <=? S step)%nat then
                      put_run (run <| wr_Status := WorkflowSucceeded |> <| wr_CurrentStep := wr_TotalSteps run |>
                                   <| wr_EndedAt := now |>) s
                    else begin_dispatch runID (S step) now s
                  else failRun runID ("workflow step job failed: " +:+ j_ID job) now s
              end
        end
    end.

(** ** The system: queue, worker, store, and what is on its way *)

Inductive flow_step : Flow → Flow → Prop :=
  | flow_call o now s :
      flow_step s (with_flow_queue (run_op o now (fl_queue s)) s)
  | flow_work ch now s sys : worker_step ch now (fl_sys s) = Some sys → flow_step s (with_system sys s)
  | flow_cancel s : flow_step s (s <| fl_sys := (fl_sys s) <| sys_done := true |> |>)
  | flow_template t now s :
      flow_step s (s <| fl_templates := (CreateTemplate t now (fl_templates s)).1 |>)
  | flow_delete id s : flow_step s (s <| fl_templates := (DeleteTemplate id (fl_templates s)).1 |>)
  | flow_create name description steps now s :
      flow_step s (CreateWorkflow name description steps now s).1
  | flow_launch workflowID priority force now s : flow_step s (Launch workflowID priority force now s)
  | flow_record d l1 l2 now s :
      fl_inflight s = l1 ++ d :: l2 →
      flow_step s (dispatch_record d now (s <| fl_inflight := l1 ++ l2 |>))
  | flow_deliver j l1 l2 now s :
      fl_outbox s = l1 ++ j :: l2 → flow_step s (onJob j now (s <| fl_outbox := l1 ++ l2 |>)).

(** [NewWorkflowStore] subscribes to the queue. *)
Definition initial_flow (buffer : Z) (now : Time) : Flow :=
  mkFlow ((initial buffer now) <| sys_queue := Subscribe (Some workflow_subscriber) (NewQueue buffer now) |>)
    (mkWorkflowStore 0 0 ∅ ∅ ∅) NewTemplateStore [] [].

Definition flow_reachable (s : Flow) : Prop := ∃ buffer now, rtc flow_step (initial_flow buffer now) s.
End flow.
