(* ===== verification/WorkflowSpec.v ===== *)
(** * What a workflow run guarantees

    Under any interleaving of calls, worker, deliveries and recordings: a step is
    dispatched only after the jobs of all the steps before it succeeded, and a
    run that succeeded has a succeeded job for every step.  A job that ends
    before its dispatch is recorded is lost. *)

From S2P Require Import Prelude Queue QueueInvariant QueueSpec Workflow.

(** ** The queue only adds events and keys *)

Definition grows (q q' : Queue) : Prop :=
  (∀ k id, q_byIdempotency q !! k = Some id → q_byIdempotency q' !! k = Some id) ∧
  ∃ evs, q_events q' = q_events q ++ evs.

#[export] Instance grows_preorder : PreOrder grows.
Proof.
  split.
  - intros q. split; [done|]. exists []. by rewrite app_nil_r.
  - intros q1 q2 q3 [H1 [e1 E1]] [H2 [e2 E2]]. split; [auto|]. exists (e1 ++ e2). by rewrite E2, E1, app_assoc.
Qed.

Lemma grows_same q q' :
  q_byIdempotency q' = q_byIdempotency q → q_events q' = q_events q → grows q q'.
Proof. intros Hi He. split; [by rewrite Hi|]. exists []. by rewrite He, app_nil_r. Qed.

Lemma grows_publish j q q' : grows q q' → grows q (publish j q').
Proof. intros [H1 [e He]]. split; [exact H1|]. eexists. cbn. rewrite He, <-app_assoc. done. Qed.

Lemma grows_dec_put j q : grows q (dec_running (put_job j q)).
Proof. unfold dec_running. by destruct (_ <? _); apply grows_same. Qed.

Section grows.
Context `{TimeFormat}.

Lemma Enqueue_grows configPath key force priority now q ph :
  queue_inv q ph → q_nextID q < max_int64 → grows q (Enqueue configPath key force priority now q).1.
Proof.
  intros Hq Hmax. split.
  2: { destruct (Enqueue_events configPath key force priority now q) as (j & _ & [Heq|Heq]); rewrite Heq; [|eauto].
       exists []. by rewrite app_nil_r. }
  pose proof (Enqueue_next configPath key force priority now q) as Hn.
  assert (queue_inv (Enqueue configPath key force priority now q).1 ph) as Hq' by (apply Enqueue_inv; [done|lia]).
  pose proof (enqueue_spec configPath key force priority now q ph Hq Hmax) as Hs. cbn zeta in Hs.
  destruct (Enqueue configPath key force priority now q) as [q' r]. cbn [fst] in *. intros k id Hk.
  destruct r as [[j|]|e]; [|done|].
  - destruct Hs as [[(-> & _)|(Hnone & Hjobs & _)] _]; [done|].
    apply (qi_keys _ _ _ _ _ _ _ Hq) in Hk as (Hne & j0 & Hj0 & Hkey).
    apply (qi_keys _ _ _ _ _ _ _ Hq'). split; [done|]. exists j0. split; [|done].
    rewrite Hjobs, lookup_insert_ne; [done|]. intros <-. congruence.
  - destruct Hs as (_ & -> & _). done.
Qed.

Lemma recover_grows maxAge now js q rec : grows q (foldl (recover_job maxAge now) (q, rec) js).1.
Proof.
  revert q rec; induction js as [|j js IH]; intros q rec; cbn [foldl]; [done|].
  unfold recover_job at 2. destruct (_ || _); [apply IH|]. destruct (_ <? maxAge); [apply IH|].
  etrans; [apply grows_dec_put|apply IH].
Qed.

Lemma publish_all_grows js q q' : grows q q' → grows q (foldl (λ q j, publish j q) q' js).
Proof. revert q'; induction js as [|j js IH]; intros q' Hq; [done|]. by apply IH, grows_publish. Qed.

Lemma run_op_grows o now q ph : queue_inv q ph → q_nextID q < max_int64 → grows q (run_op o now q).
Proof.
  intros Hq Hmax. destruct o; cbn [run_op].
  - by eapply Enqueue_grows.
  - unfold Cancel. destruct (_ !! _); [|done]. destruct (finished _); [done|].
    by apply grows_publish, grows_same.
  - unfold FailJob. destruct (_ !! _); [|done]. destruct (finished _); [done|].
    apply grows_publish, grows_dec_put.
  - unfold RecoverStuckJobs. set (age := if maxAge <=? 0 then _ else _).
    pose proof (recover_grows age now (List q) q []) as Hr. destruct (foldl _ _ _) as [q' rec].
    by apply publish_all_grows.
  - by destruct fn; apply grows_same.
  - unfold SetEmergencyStop. destruct active; [destruct (IsZero _)|]; by apply grows_same.
  - unfold SetFreezeUntil. destruct (_ || _); by apply grows_same.
  - unfold freeze_status. destruct (IsZero _); [done|]. destruct (negb _); [|done]. by apply grows_same.
  - by apply grows_same.
  - by apply grows_same.
  - by apply grows_same.
Qed.

Lemma receive_grows c q id q' : receive c q = Some (id, q') → grows q q'.
Proof. unfold receive. destruct (chan c q); [done|]. intros [= _ <-]. by destruct c; apply grows_same. Qed.

Lemma worker_step_grows ch now s s' : worker_step ch now s = Some s' → grows (sys_queue s) (sys_queue s').
Proof.
  destruct s as [q ph maxJobs delay processed done']. unfold worker_step. cbn [sys_queue sys_phase]. intros Hs.
  destruct ph, ch; cbn in Hs; try discriminate Hs.
  - injection Hs as <-. by apply grows_same.
  - by injection Hs as <-.
  - by destruct (q_paused q); injection Hs as <-.
  - destruct (_ && _); [|done]. by injection Hs as <-.
  - destruct (poll_class i q) as [[id q']|] eqn:Hp; injection Hs as <-; [|by destruct (i <? 2)].
    unfold poll_class in Hp. destruct (receive _ q) as [[x q0]|] eqn:Hr; [|done]. injection Hp as _ <-.
    apply receive_grows in Hr. etrans; [exact Hr|]. by apply grows_same.
  - destruct (receive c q) as [[id q']|] eqn:Hr; [|done]. injection Hs as <-. by eapply receive_grows.
  - destruct done'; [|done]. by injection Hs as <-.
  - unfold start_job in Hs. destruct (q_jobs q !! id) as [j|]; [|by injection Hs as <-].
    case_bool_decide; injection Hs as <-; [done|]. by apply grows_publish, grows_same.
  - injection Hs as <-. cbn. unfold finish_job. destruct (q_jobs q !! id) as [j|]; [|done].
    case_bool_decide; [|apply grows_publish, grows_dec_put].
    unfold dec_running. by destruct (_ <? _); apply grows_same.
  - injection Hs as <-. cbn. destruct (0 <? processed); by apply grows_same.
  - by injection Hs as <-.
  - destruct (_ && _); [|done]. by injection Hs as <-.
Qed.
End grows.

(** ** The invariant *)

(** The job [id] succeeded: its event was published. *)
Definition succeeded (q : Queue) (id : string) : Prop :=
  ∃ j, (workflow_subscriber, j) ∈ q_events q ∧ j_ID j = id ∧ j_Status j = JobSucceeded.

(** Step [i] of a run is done: its job is recorded and succeeded. *)
Definition done_step (q : Queue) (r : WorkflowRun) (i : nat) : Prop :=
  ∃ id, wr_StepJobIDs r !! i = Some id ∧ id ≠ "" ∧ succeeded q id.

Definition known (q : Queue) (rid : string) (i : nat) (id : string) : Prop :=
  q_byIdempotency q !! step_key rid i = Some id.

Section inv.
Context `{TimeFormat}.

Record run_ok (q : Queue) (st : WorkflowStore) (rid : string) (r : WorkflowRun) : Prop := {
  ro_id : wr_ID r = rid ∧ ∃ n, rid = "wfrun-" +:+ itoa n ∧ 0 < n ≤ ws_nextRunID st;
  ro_workflow : ∃ wf, ws_workflows st !! wr_WorkflowID r = Some wf ∧
    length (wt_Steps wf) = length (wr_StepJobIDs r);
  ro_total : wr_TotalSteps r = Z.of_nat (length (wr_StepJobIDs r));
  ro_jobs i id : wr_StepJobIDs r !! i = Some id → id ≠ "" → known q rid i id;
  ro_succeeded : wr_Status r = WorkflowSucceeded → ∀ i, (i < length (wr_StepJobIDs r))%nat → done_step q r i;
}.

Record store_inv (q : Queue) (st : WorkflowStore) (outbox : list Job) (inflight : list Inflight) : Prop := {
  fi_workflow id wf : ws_workflows st !! id = Some wf →
    ∃ n, id = "wf-" +:+ itoa n ∧ 0 < n ≤ ws_nextWorkflowID st;
  fi_run rid r : ws_runs st !! rid = Some r → run_ok q st rid r;
  fi_ref id rid step : ws_jobRefs st !! id = Some (rid, step) → ∃ r, ws_runs st !! rid = Some r ∧
    wr_StepJobIDs r !! step = Some id ∧ id ≠ "" ∧ ∀ i, (i < step)%nat → done_step q r i;
  fi_inflight d : d ∈ inflight → ∃ r, ws_runs st !! in_run d = Some r ∧
    (in_step d < length (wr_StepJobIDs r))%nat ∧ in_job d ≠ "" ∧ known q (in_run d) (in_step d) (in_job d) ∧
    ∀ i, (i < in_step d)%nat → done_step q r i;
  fi_outbox j : j ∈ outbox → (workflow_subscriber, j) ∈ q_events q;
  fi_next : 0 ≤ ws_nextWorkflowID st ∧ 0 ≤ ws_nextRunID st;
}.

Definition flow_inv (s : Flow) : Prop :=
  queue_inv (fl_queue s) (sys_phase (fl_sys s)) ∧
  store_inv (fl_queue s) (fl_store s) (fl_outbox s) (fl_inflight s).

Lemma succeeded_grows q q' id : grows q q' → succeeded q id → succeeded q' id.
Proof. intros [_ [e He]] (j & Hj & ?). exists j. rewrite He. set_solver. Qed.

Lemma done_step_mono q q' r r' i :
  grows q q' → (∀ i id, wr_StepJobIDs r !! i = Some id → id ≠ "" → wr_StepJobIDs r' !! i = Some id) →
  done_step q r i → done_step q' r' i.
Proof.
  intros Hg Hr (id & Hid & Hne & Hs). exists id. split_and!; [auto|done|by eapply succeeded_grows].
Qed.

Lemma done_step_grows q q' r i : grows q q' → done_step q r i → done_step q' r i.
Proof. intros Hg. by apply done_step_mono. Qed.

(** The queue moves on; new events may be added to the outbox. *)
Lemma store_inv_grows q q' st outbox outbox' inflight :
  grows q q' → (∀ j, j ∈ outbox' → j ∈ outbox ∨ (workflow_subscriber, j) ∈ q_events q') →
  store_inv q st outbox inflight → store_inv q' st outbox' inflight.
Proof.
  intros Hg Hout [Hw Hr Hf Hi Ho Hn]. assert (∀ rid i id, known q rid i id → known q' rid i id) as Hk.
  { intros rid i id. apply Hg. }
  split; [done| | | | |done].
  - intros rid r Hrid. destruct (Hr rid r Hrid) as [H1 H2 Ht H3 H4]. split; [done..| |].
    + intros i id Hid Hne. by apply Hk, H3.
    + intros Hs i Hlt. by eapply done_step_grows, H4.
  - intros id rid step Href. destruct (Hf id rid step Href) as (r & ? & ? & ? & Hd). exists r.
    split_and!; [done..|]. intros i Hlt. by eapply done_step_grows, Hd.
  - intros d Hd. destruct (Hi d Hd) as (r & ? & ? & ? & ? & Hdone). exists r.
    split_and!; [done..|by apply Hk|]. intros i Hlt. by eapply done_step_grows, Hdone.
  - intros j [Hj|Hj]%Hout; [|done]. destruct Hg as [_ [e ->]]. apply elem_of_app. left. by apply Ho.
Qed.

(** A run is rewritten: recorded jobs stay, and success is earned. *)
Lemma store_inv_run q st outbox inflight r r' :
  store_inv q st outbox inflight → ws_runs st !! wr_ID r' = Some r →
  wr_WorkflowID r' = wr_WorkflowID r → wr_TotalSteps r' = wr_TotalSteps r →
  length (wr_StepJobIDs r') = length (wr_StepJobIDs r) →
  (∀ i id, wr_StepJobIDs r !! i = Some id → id ≠ "" → wr_StepJobIDs r' !! i = Some id) →
  (∀ i id, wr_StepJobIDs r' !! i = Some id → id ≠ "" → known q (wr_ID r') i id) →
  (wr_Status r' = WorkflowSucceeded → ∀ i, (i < length (wr_StepJobIDs r'))%nat → done_step q r' i) →
  store_inv q (st <| ws_runs := <[wr_ID r' := r']> (ws_runs st) |>) outbox inflight.
Proof.
  intros [Hw Hr Hf Hi Ho Hn] Hold Hwf Htot Hlen Hmono Hkn Hsucc.
  assert (∀ rid x, ws_runs st !! rid = Some x → ∃ x', <[wr_ID r' := r']> (ws_runs st) !! rid = Some x' ∧
    length (wr_StepJobIDs x') = length (wr_StepJobIDs x) ∧
    (∀ i id, wr_StepJobIDs x !! i = Some id → id ≠ "" → wr_StepJobIDs x' !! i = Some id) ∧
    (∀ i, done_step q x i → done_step q x' i)) as Hup.
  { intros rid x Hx. destruct (decide (rid = wr_ID r')) as [->|Hne].
    - exists r'. rewrite lookup_insert_eq. rewrite Hold in Hx. injection Hx as <-.
      split_and!; [done..|]. intros i. by apply done_step_mono.
    - exists x. by rewrite lookup_insert_ne. }
  split; cbn; [done| | | |done|done].
  - intros rid x. rewrite lookup_insert_Some. intros [[<- <-]|[_ Hx]].
    + destruct (Hr _ _ Hold) as [[_ H1] (wf & H2 & H2') Ht H3 H4]. split; [done| | |done|done].
      * exists wf. rewrite Hwf. split; [done|lia].
      * lia.
    + destruct (Hr _ _ Hx). by split.
  - intros id rid step Href. destruct (Hf id rid step Href) as (x & Hx & Hid & Hne & Hd).
    destruct (Hup rid x Hx) as (x' & Hx' & _ & Hm & Hdone). exists x'. split_and!; [done|by apply Hm|done|auto].
  - intros d Hin. destruct (Hi d Hin) as (x & Hx & Hlt & Hne & Hk & Hd).
    destruct (Hup (in_run d) x Hx) as (x' & Hx' & Hl & _ & Hdone). exists x'. split_and!; [done|lia|done|done|auto].
Qed.

Lemma store_inv_ref q st outbox inflight id rid step r :
  store_inv q st outbox inflight → ws_runs st !! rid = Some r → wr_StepJobIDs r !! step = Some id → id ≠ "" →
  (∀ i, (i < step)%nat → done_step q r i) →
  store_inv q (st <| ws_jobRefs := <[id := (rid, step)]> (ws_jobRefs st) |>) outbox inflight.
Proof.
  intros [Hw Hr Hf Hi Ho Hn] Hrun Hid Hne Hd. split; cbn; try done.
  - intros rid' x Hx. destruct (Hr rid' x Hx). by split.
  - intros id' rid' step'. rewrite lookup_insert_Some. intros [[<- [= <- <-]]|[_ Hx]]; [by exists r|by apply Hf].
Qed.

Lemma store_inv_lists q st outbox outbox' inflight inflight' :
  (∀ j, j ∈ outbox' → j ∈ outbox) → (∀ d, d ∈ inflight' → d ∈ inflight) →
  store_inv q st outbox inflight → store_inv q st outbox' inflight'.
Proof. intros Ho' Hi' [Hw Hr Hf Hi Ho Hn]. split; auto. Qed.

Lemma over_false st : over st = false → st ≠ WorkflowSucceeded ∧ st ≠ WorkflowFailed.
Proof. by destruct st. Qed.

Lemma failRun_inv runID reason now s : flow_inv s → flow_inv (failRun runID reason now s).
Proof.
  intros [Hq Hs]. unfold failRun. destruct (ws_runs (fl_store s) !! runID) as [r|] eqn:Hr; [|done].
  destruct (over (wr_Status r)); [done|]. split; [done|].
  pose proof (fi_run _ _ _ _ Hs _ _ Hr) as [[Hid _] _ _ Hj _].
  apply (store_inv_run _ _ _ _ r); cbn; try done; [by rewrite Hid|by rewrite Hid].
Qed.

Lemma failRun_queue runID reason now s : fl_queue (failRun runID reason now s) = fl_queue s.
Proof. unfold failRun. destruct (_ !! _); [|done]. by destruct (over _). Qed.

Lemma with_system_inv sys s :
  queue_inv (sys_queue sys) (sys_phase sys) → grows (fl_queue s) (sys_queue sys) →
  flow_inv s → flow_inv (with_system sys s).
Proof.
  intros Hq Hg [_ Hs]. split; [exact Hq|]. unfold with_system. cbn.
  eapply store_inv_grows; [exact Hg| |exact Hs]. intros j [Hj|Hj]%elem_of_app; [by left|right].
  apply list_elem_of_fmap in Hj as ([fn j'] & -> & Hin). apply list_elem_of_filter in Hin as [Hfn Hin].
  cbn in Hfn. subst fn. destruct Hg as [_ [e He]]. rewrite He, drop_app_length in Hin.
  change ((workflow_subscriber, j') ∈ q_events (sys_queue sys)). rewrite He. apply elem_of_app. by right.
Qed.

(** ** The operations keep the invariant *)

Lemma step_key_not_empty rid step : step_key rid step ≠ "".
Proof. unfold step_key. by destruct rid. Qed.

(** The job of a dispatch is the one its key belongs to. *)
Lemma Enqueue_known configPath key force priority now q ph j :
  queue_inv q ph → q_nextID q < max_int64 → key ≠ "" →
  (Enqueue configPath key force priority now q).2 = Ok (Some j) →
  q_byIdempotency (Enqueue configPath key force priority now q).1 !! key = Some (j_ID j) ∧ j_ID j ≠ "".
Proof.
  intros Hq Hmax Hkey Hr.
  pose proof (Enqueue_job_id configPath key force priority now q ph j Hq Hmax Hr) as Hid.
  pose proof (Enqueue_next configPath key force priority now q) as Hn.
  assert (queue_inv (Enqueue configPath key force priority now q).1 ph) as Hq' by (apply Enqueue_inv; [done|lia]).
  pose proof (enqueue_spec configPath key force priority now q ph Hq Hmax) as Hs. cbn zeta in Hs.
  destruct (Enqueue configPath key force priority now q) as [q' r]. cbn [fst snd] in *. subst r.
  split; [|by intros Heq; rewrite Heq in Hid]. apply (qi_keys _ _ _ _ _ _ _ Hq'). split; [done|]. exists j.
  destruct Hs as [[(-> & _ & Hj & Hk)|(_ & Hj & _ & _ & Hk & _)] _]; [done|].
  by rewrite Hj, lookup_insert_eq.
Qed.

Lemma begin_dispatch_inv rid step now s r :
  flow_inv s → ws_runs (fl_store s) !! rid = Some r →
  (∀ i, (i < step)%nat → done_step (fl_queue s) r i) → q_nextID (fl_queue s) < max_int64 →
  flow_inv (begin_dispatch rid step now s).
Proof.
  intros Hinv Hr Hdone Hmax. unfold begin_dispatch, dispatch_enqueue. rewrite Hr.
  destruct (over (wr_Status r)); [done|]. pose proof Hinv as [Hq Hs].
  destruct (fi_run _ _ _ _ Hs _ _ Hr) as [_ (wf & Hwf & Hlen) _ _ _]. rewrite Hwf.
  destruct (wt_Steps wf !! step) as [st|] eqn:Hst; [|done].
  destruct (GetTemplate _ _) as [tpl|]; [|by apply failRun_inv].
  set (prio := if one_of (wst_Priority st) [""; "normal"] then _ else _).
  pose proof (Enqueue_known (tp_ConfigPath tpl) (step_key rid step) (wr_Force r) prio now (fl_queue s)
    (sys_phase (fl_sys s))) as Hk.
  pose proof (Enqueue_grows (tp_ConfigPath tpl) (step_key rid step) (wr_Force r) prio now (fl_queue s) _ Hq Hmax) as Hg.
  pose proof (Enqueue_next (tp_ConfigPath tpl) (step_key rid step) (wr_Force r) prio now (fl_queue s)) as Hn.
  assert (queue_inv (Enqueue (tp_ConfigPath tpl) (step_key rid step) (wr_Force r) prio now (fl_queue s)).1
    (sys_phase (fl_sys s))) as Hq' by (apply Enqueue_inv; [done|lia]).
  destruct (Enqueue _ _ _ _ _ _) as [q' res]. cbn [fst snd] in *.
  assert (flow_inv (with_flow_queue q' s)) as [Hq2 Hs2] by (by apply with_system_inv).
  destruct res as [[j|]|e]; [|done|by apply failRun_inv]. split; [exact Hq2|].
  destruct (Hk j Hq Hmax (step_key_not_empty rid step) eq_refl) as [Hknown Hid].
  destruct Hs2 as [Hw2 Hr2 Hf2 Hi2 Ho2 Hn2]. split; try done.
  intros d [Hd| ->%list_elem_of_singleton]%elem_of_app; [by apply Hi2|]. cbn. exists r.
  split_and!; [done| |done|done|].
  - rewrite <-Hlen. by eapply lookup_lt_Some.
  - intros i Hlt. by eapply done_step_grows, Hdone.
Qed.

Lemma record_run_fields d now r :
  wr_ID (record_run d now r) = wr_ID r ∧ wr_WorkflowID (record_run d now r) = wr_WorkflowID r ∧
  wr_TotalSteps (record_run d now r) = wr_TotalSteps r ∧ wr_Status (record_run d now r) = WorkflowRunning ∧
  wr_StepJobIDs (record_run d now r) = <[in_step d := in_job d]> (wr_StepJobIDs r).
Proof. done. Qed.

Lemma dispatch_record_inv d l1 l2 now s :
  fl_inflight s = l1 ++ d :: l2 → flow_inv s →
  flow_inv (dispatch_record d now (s <| fl_inflight := l1 ++ l2 |>)).
Proof.
  intros Hin [Hq Hs]. destruct (fi_inflight _ _ _ _ Hs d) as (r & Hr & Hlt & Hne & Hk & Hdone).
  { rewrite Hin. set_solver. }
  assert (store_inv (fl_queue s) (fl_store s) (fl_outbox s) (l1 ++ l2)) as Hs'.
  { eapply store_inv_lists; [done| |exact Hs]. intros x. rewrite Hin. set_solver. }
  unfold dispatch_record. cbn [fl_store update_field]. rewrite Hr.
  pose proof (fi_run _ _ _ _ Hs _ _ Hr) as [[Hid _] _ _ Hjobs _].
  pose proof (record_run_fields d now r) as (H1 & H2 & H3 & H4 & H5).
  rewrite Hid in H1. destruct (over (wr_Status r)); [by split|]. cbv zeta. revert H1 H2 H3 H4 H5.
  generalize (record_run d now r). intros r' H1 H2 H3 H4 H5.
  assert (∀ i id, wr_StepJobIDs r !! i = Some id → id ≠ "" → wr_StepJobIDs r' !! i = Some id) as Hmono.
  { intros i id Hi Hid'. rewrite H5. destruct (decide (i = in_step d)) as [->|Hni].
    - rewrite list_lookup_insert_eq by done. pose proof (Hjobs _ _ Hi Hid') as Hk'. unfold known in *. congruence.
    - by rewrite list_lookup_insert_ne. }
  split; [exact Hq|].
  refine (store_inv_ref (fl_queue s) ((fl_store s) <| ws_runs := <[wr_ID r' := r']> (ws_runs (fl_store s)) |>)
    (fl_outbox s) (l1 ++ l2) (in_job d) (in_run d) (in_step d) r' _ _ _ _ _).
  - apply (store_inv_run _ _ _ _ r); try done; [by rewrite H1|by rewrite H5, length_insert| |by rewrite H4].
    intros i id. rewrite H5, H1. intros [(<- & <- & _)|[_ Hi]]%list_lookup_insert_Some Hid'; [done|by apply Hjobs].
  - cbn. by rewrite H1, lookup_insert_eq.
  - by rewrite H5, list_lookup_insert_eq.
  - done.
  - intros i Hi. by eapply done_step_mono, Hdone.
Qed.

Lemma onJob_inv j l1 l2 now s :
  fl_outbox s = l1 ++ j :: l2 → flow_inv s → q_nextID (fl_queue s) < max_int64 →
  flow_inv (onJob j now (s <| fl_outbox := l1 ++ l2 |>)).
Proof.
  intros Hout [Hq Hs] Hmax.
  assert ((workflow_subscriber, j) ∈ q_events (fl_queue s)) as Hev.
  { apply (fi_outbox _ _ _ _ Hs). rewrite Hout. set_solver. }
  set (s1 := s <| fl_outbox := l1 ++ l2 |>). assert (flow_inv s1) as Hinv.
  { split; [exact Hq|]. eapply store_inv_lists; [|done|exact Hs]. intros x. rewrite Hout. set_solver. }
  unfold onJob. destruct (negb (job_over j)); [done|].
  destruct (ws_jobRefs (fl_store s1) !! j_ID j) as [[rid step]|] eqn:Href; [|done].
  destruct (fi_ref _ _ _ _ Hs _ _ _ Href) as (r & Hr & Hid & Hne & Hdone).
  change (ws_runs (fl_store s1)) with (ws_runs (fl_store s)). rewrite Hr.
  destruct (over (wr_Status r)); [done|].
  pose proof (fi_run _ _ _ _ Hs _ _ Hr) as [[Hrid _] (wf & Hwf & Hlen) _ Hjobs _].
  change (ws_workflows (fl_store s1)) with (ws_workflows (fl_store s)). rewrite Hwf.
  case_bool_decide as Hok; [|by apply failRun_inv].
  assert (∀ i, (i < S step)%nat → done_step (fl_queue s) r i) as Hdone'.
  { intros i Hi. destruct (decide (i = step)) as [->|Hni]; [|apply Hdone; lia].
    exists (j_ID j). split_and!; [done|done|]. by exists j. }
  destruct (Nat.leb_spec (length (wt_Steps wf)) (S step)) as [Hlast|Hmore].
  - split; [exact Hq|].
    apply (store_inv_run _ _ _ _ r); cbn; try done; [apply Hinv|by rewrite Hrid|by rewrite Hrid|].
    intros _ i Hi. apply Hdone'. lia.
  - by apply (begin_dispatch_inv _ _ _ _ r).
Qed.
End inv.

(** ** Reachable states *)

Section reachable.
Context `{TimeFormat}.

(** The counters have not run over. *)
Definition bounded (s : Flow) : Prop :=
  q_nextID (fl_queue s) < max_int64 ∧ ws_nextRunID (fl_store s) ≤ max_int64 ∧
  ws_nextWorkflowID (fl_store s) ≤ max_int64.

Definition counters_le (s s' : Flow) : Prop :=
  q_nextID (fl_queue s) ≤ q_nextID (fl_queue s') ∧ ws_nextRunID (fl_store s) ≤ ws_nextRunID (fl_store s') ∧
  ws_nextWorkflowID (fl_store s) ≤ ws_nextWorkflowID (fl_store s').

#[local] Instance counters_le_preorder : PreOrder counters_le.
Proof.
  split; [intros s; split_and!; done|]. intros s1 s2 s3 (?&?&?) (?&?&?). split_and!; lia.
Qed.

Lemma failRun_counters runID reason now s : counters_le s (failRun runID reason now s).
Proof. unfold failRun. destruct (_ !! _); [|done]. destruct (over _); done. Qed.

Lemma begin_dispatch_counters rid step now s : counters_le s (begin_dispatch rid step now s).
Proof.
  unfold begin_dispatch, dispatch_enqueue. destruct (_ !! _) as [r|]; [|done].
  destruct (over _); [done|]. destruct (ws_workflows _ !! _) as [wf|]; [|done].
  destruct (wt_Steps wf !! step) as [st|]; [|done].
  destruct (GetTemplate _ _) as [tpl|]; [|apply failRun_counters].
  set (prio := if one_of (wst_Priority st) [""; "normal"] then _ else _).
  pose proof (run_op_next (OpEnqueue (tp_ConfigPath tpl) (step_key rid step) (wr_Force r) prio) now (fl_queue s)) as Hn.
  cbn [run_op] in Hn. destruct (Enqueue _ _ _ _ _ _) as [q' res]. cbn [fst] in Hn.
  assert (counters_le s (with_flow_queue q' s)) as Hc by (by split_and!).
  destruct res as [[j|]|e]; [exact Hc|exact Hc|]. etrans; [exact Hc|apply failRun_counters].
Qed.

Lemma dispatch_record_counters d now s : counters_le s (dispatch_record d now s).
Proof.
  unfold dispatch_record. destruct (_ !! _) as [r|]; [|done]. by destruct (over (wr_Status r)).
Qed.

Lemma onJob_counters j now s : counters_le s (onJob j now s).
Proof.
  unfold onJob. destruct (negb _); [done|]. destruct (ws_jobRefs _ !! _) as [[rid step]|]; [|done].
  destruct (ws_runs _ !! _); [|done]. destruct (over _); [done|].
  destruct (ws_workflows _ !! _); [|apply failRun_counters].
  case_bool_decide; [|apply failRun_counters]. destruct (_ <=? _)%nat; [done|apply begin_dispatch_counters].
Qed.

Lemma flow_step_counters s s' : flow_step s s' → counters_le s s'.
Proof.
  destruct 1 as [o now s|ch now s sys Hw|s|t now s|id s|name description steps now s|wf prio force now s
    |d l1 l2 now s _|j l1 l2 now s _].
  - split_and!; [apply run_op_next|done..].
  - split_and!; [|done..]. apply worker_step_next in Hw.
    change (q_nextID (sys_queue (fl_sys s)) ≤ q_nextID (sys_queue sys)). lia.
  - done.
  - done.
  - done.
  - unfold CreateWorkflow. destruct (eqs _ _); [done|]. case_bool_decide; [done|].
    destruct (mapM_res _ _); [|done]. split_and!; cbn; [done|done|lia].
  - unfold Launch. destruct (_ !! _) as [w|]; [|done]. etrans; [|apply begin_dispatch_counters].
    split_and!; cbn; [done|lia|done].
  - etrans; [|apply (dispatch_record_counters _ now)]. done.
  - etrans; [|apply (onJob_counters _ now)]. done.
Qed.

Lemma bounded_back s s' : counters_le s s' → bounded s' → bounded s.
Proof. intros (?&?&?) (?&?&?). split_and!; lia. Qed.

Lemma CreateWorkflow_inv name description steps now s :
  ws_nextWorkflowID (fl_store (CreateWorkflow name description steps now s).1) ≤ max_int64 →
  flow_inv s → flow_inv (CreateWorkflow name description steps now s).1.
Proof.
  unfold CreateWorkflow. destruct (eqs name ""); [done|]. case_bool_decide; [done|].
  destruct (mapM_res _ steps) as [steps'|]; [|done]. cbn. intros Hmax [Hq Hs]. split; [exact Hq|].
  destruct Hs as [Hw Hr Hf Hi Ho [Hn1 Hn2]].
  set (id := "wf-" +:+ itoa (ws_nextWorkflowID (fl_store s) + 1)).
  assert (ws_workflows (fl_store s) !! id = None) as Hfresh.
  { destruct (ws_workflows (fl_store s) !! id) as [wf|] eqn:Hid; [|done].
    destruct (Hw _ _ Hid) as (n & Heq & Hb). unfold id in Heq. injection Heq as Heq.
    apply itoa_inj in Heq; unfold max_int64 in *; lia. }
  split; cbn; [| |done|done|done|lia].
  - intros x wf. fold id. rewrite lookup_insert_Some. intros [[<- _]|[_ Hx]].
    + exists (ws_nextWorkflowID (fl_store s) + 1). split; [done|lia].
    + destruct (Hw _ _ Hx) as (n & ? & ?). exists n. split; [done|lia].
  - intros rid r Hrid. destruct (Hr rid r Hrid) as [H1 (wf & H2 & H2') H3 H4 H5]. split; cbn; try done.
    exists wf. fold id. rewrite lookup_insert_ne by congruence. done.
Qed.

Lemma Launch_inv workflowID priority force now s :
  bounded (Launch workflowID priority force now s) → flow_inv s →
  flow_inv (Launch workflowID priority force now s).
Proof.
  intros Hb Hinv. unfold Launch in *. destruct (ws_workflows (fl_store s) !! workflowID) as [wf|] eqn:Hwf; [|done].
  set (rid := "wfrun-" +:+ itoa (ws_nextRunID (fl_store s) + 1)) in *.
  match goal with |- context [put_run ?r ?x] => set (run := r) in *; set (s1 := put_run r x) in * end.
  pose proof (bounded_back _ _ (begin_dispatch_counters rid 0 now s1) Hb) as (Hmax1 & Hmax2 & _).
  change (ws_nextRunID (fl_store s) + 1 ≤ max_int64) in Hmax2.
  destruct Hinv as [Hq Hs]. destruct Hs as [Hw Hr Hf Hi Ho [Hn1 Hn2]].
  assert (ws_runs (fl_store s) !! rid = None) as Hfresh.
  { destruct (ws_runs (fl_store s) !! rid) as [r|] eqn:Hid; [|done].
    destruct (Hr _ _ Hid) as [[_ (n & Heq & Hb')] _ _ _ _]. unfold rid in Heq. injection Heq as Heq.
    apply itoa_inj in Heq; unfold max_int64 in *; lia. }
  assert (∀ x r, ws_runs (fl_store s) !! x = Some r → <[rid := run]> (ws_runs (fl_store s)) !! x = Some r) as Hold.
  { intros x r Hx. rewrite lookup_insert_ne; [done|]. congruence. }
  assert (flow_inv s1) as Hinv1.
  { split; [exact Hq|]. split; cbn; [done| | | |done|lia].
    - intros x r. rewrite lookup_insert_Some. intros [[<- <-]|[_ Hx]].
      + split; cbn; [| | | |done].
        * split; [done|]. exists (ws_nextRunID (fl_store s) + 1). split; [done|lia].
        * exists wf. split; [done|]. by rewrite length_replicate.
        * by rewrite length_replicate.
        * intros i id Hid Hne. by apply lookup_replicate in Hid as [-> _].
      + destruct (Hr _ _ Hx) as [[H1 (n & H2 & H2')] H3 H4 H5 H6]. split; [|done..].
        split; [done|]. exists n. split; [done|]. cbn. lia.
    - intros id x step Href. destruct (Hf id x step Href) as (r & Hx & ?). exists r. split; [by apply Hold|done].
    - intros d Hd. destruct (Hi d Hd) as (r & Hx & ?). exists r. split; [by apply Hold|done]. }
  apply (begin_dispatch_inv _ _ _ _ run); [exact Hinv1| |lia|exact Hmax1].
  cbn. by rewrite lookup_insert_eq.
Qed.

Lemma flow_step_inv s s' : flow_step s s' → bounded s' → flow_inv s → flow_inv s'.
Proof.
  intros Hstep Hb Hinv. pose proof (bounded_back _ _ (flow_step_counters _ _ Hstep) Hb) as (Hmax & _ & _).
  pose proof Hinv as [Hq Hs].
  destruct Hstep as [o now s|ch now s sys Hw|s|t now s|id s|name description steps now s|wf prio force now s
    |d l1 l2 now s Hin|j l1 l2 now s Hout].
  - apply with_system_inv; [|by eapply run_op_grows|done]. apply run_op_inv; [done|].
    destruct Hb as (Hb & _). cbn in Hb. lia.
  - apply with_system_inv; [|by eapply worker_step_grows|done]. by eapply worker_step_inv.
  - by split.
  - by split.
  - by split.
  - apply CreateWorkflow_inv; [apply Hb|done].
  - by apply Launch_inv.
  - by apply dispatch_record_inv.
  - by apply onJob_inv.
Qed.

Lemma flow_inv_reachable s : flow_reachable s → bounded s → flow_inv s.
Proof.
  intros (buffer & now & Hrtc). revert s Hrtc.
  apply (rtc_ind_r (λ s, bounded s → flow_inv s) (initial_flow buffer now)).
  - intros _. split; [exact (initial_inv buffer now)|].
    split; cbn; try (intros ? ? Hl; exact (False_ind _ (lookup_empty_Some _ _ Hl))).
    + intros ? ? ? Hl. exact (False_ind _ (lookup_empty_Some _ _ Hl)).
    + intros d Hd. by apply elem_of_nil in Hd.
    + intros d Hd. by apply elem_of_nil in Hd.
    + done.
  - intros s s' _ Hstep IH Hb. eapply flow_step_inv; [done..|]. apply IH.
    by eapply bounded_back; [apply flow_step_counters|].
Qed.

(** C20: in every reachable state, whatever calls, cancellations and deliveries
    are interleaved: a job is recorded for a step of a run only after the jobs of
    all the steps before it succeeded; the recorded job of a step is the one its
    idempotency key belongs to; and a run that succeeded has, for every one of
    its steps, a recorded job that succeeded. *)
Theorem workflow_steps_in_order s :
  flow_reachable s → bounded s →
  (∀ id rid step, ws_jobRefs (fl_store s) !! id = Some (rid, step) →
     ∃ r, ws_runs (fl_store s) !! rid = Some r ∧ wr_StepJobIDs r !! step = Some id ∧
       known (fl_queue s) rid step id ∧ ∀ i, (i < step)%nat → done_step (fl_queue s) r i) ∧
  (∀ rid r, ws_runs (fl_store s) !! rid = Some r →
     wr_TotalSteps r = Z.of_nat (length (wr_StepJobIDs r)) ∧
     (wr_Status r = WorkflowSucceeded →
        ∀ i, (i < length (wr_StepJobIDs r))%nat → done_step (fl_queue s) r i)).
Proof.
  intros Hreach Hb. destruct (flow_inv_reachable s Hreach Hb) as [_ Hs]. split.
  - intros id rid step Href. destruct (fi_ref _ _ _ _ Hs _ _ _ Href) as (r & Hr & Hid & Hne & Hd).
    exists r. split_and!; [done..| |done]. by apply (fi_run _ _ _ _ Hs _ _ Hr).
  - intros rid r Hr. destruct (fi_run _ _ _ _ Hs _ _ Hr) as [_ _ Ht _ Hd]. by split.
Qed.
End reachable.

(** ** Concrete runs *)

Inductive flow_move :=
  | FCall (o : op) (now : Time)
  | FWork (ch : choice) (now : Time)
  | FTemplate (t : Template) (now : Time)
  | FCreate (name : string) (steps : list WorkflowStep) (now : Time)
  | FLaunch (workflowID : string) (now : Time)
  | FRecord (now : Time)                       (* the oldest dispatch *)
  | FDeliver (now : Time).                     (* the oldest event *)

Definition play1 `{TimeFormat} (m : flow_move) (s : Flow) : option Flow :=
  match m with
  | FCall o now => Some (with_flow_queue (run_op o now (fl_queue s)) s)
  | FWork ch now => sys ← worker_step ch now (fl_sys s); Some (with_system sys s)
  | FTemplate t now => Some (s <| fl_templates := (CreateTemplate t now (fl_templates s)).1 |>)
  | FCreate name steps now => Some (CreateWorkflow name "" steps now s).1
  | FLaunch workflowID now => Some (Launch workflowID "" false now s)
  | FRecord now =>
      match fl_inflight s with
      | d :: l => Some (dispatch_record d now (s <| fl_inflight := l |>))
      | [] => None
      end
  | FDeliver now =>
      match fl_outbox s with
      | j :: l => Some (onJob j now (s <| fl_outbox := l |>))
      | [] => None
      end
  end.

Fixpoint play `{TimeFormat} (ms : list flow_move) (s : Flow) : option Flow :=
  match ms with
  | [] => Some s
  | m :: ms => s' ← play1 m s; play ms s'
  end.

Lemma play1_step `{TimeFormat} m s s' : play1 m s = Some s' → flow_step s s'.
Proof.
  destruct m as [o now|ch now|t now|name steps now|wf now|now|now]; cbn [play1].
  - intros [= <-]. constructor.
  - destruct (worker_step ch now (fl_sys s)) as [sys|] eqn:Hw; [|done]. intros [= <-].
    by apply flow_work in Hw.
  - intros [= <-]. constructor.
  - intros [= <-]. constructor.
  - intros [= <-]. constructor.
  - destruct (fl_inflight s) as [|d l] eqn:Hl; [done|]. intros [= <-]. by apply (flow_record d [] l).
  - destruct (fl_outbox s) as [|j l] eqn:Hl; [done|]. intros [= <-]. by apply (flow_deliver j [] l).
Qed.

Lemma play_steps `{TimeFormat} ms s s' : play ms s = Some s' → rtc flow_step s s'.
Proof.
  revert s; induction ms as [|m ms IH]; intros s; cbn [play].
  - intros [= ->]. constructor.
  - destruct (play1 m s) as [s1|] eqn:Hm; [|done]. intros Hp.
    eapply rtc_l; [by apply play1_step in Hm|by apply IH].
Qed.

(** A workflow of two steps. *)
Definition site_template : Template := mkTemplate "" "site" "" "site.yaml" false ∅ ∅ 0.
Definition two_steps : list WorkflowStep := [mkWorkflowStep "tpl-1" "high"; mkWorkflowStep "tpl-1" ""].

Definition set_up : list flow_move :=
  [FTemplate site_template 1; FCreate "deploy" two_steps 2; FLaunch "wf-1" 3].

(** The worker executes the next job. *)
Definition work_one : list flow_move :=
  [FWork Continue 4; FWork Continue 4; FWork Continue 4; FWork (Applied None) 5].

Definition both_steps : list flow_move :=
  set_up ++ [FRecord 3; FWork Continue 3; FWork Continue 3] ++ work_one ++
  [FDeliver 5; FDeliver 5; FDeliver 5; FRecord 6] ++ work_one ++ [FDeliver 8; FDeliver 8; FDeliver 8].

(** The same, but the job of the first step ends before its dispatch is recorded. *)
Definition early_end : list flow_move :=
  set_up ++ [FWork Continue 3; FWork Continue 3] ++ work_one ++
  [FDeliver 5; FDeliver 5; FDeliver 5; FRecord 6] ++ replicate 4 (FWork Continue 7).

Definition after_moves (ms : list flow_move) : Flow :=
  default (initial_flow 4 0) (@play plain_time ms (initial_flow 4 0)).

Definition run_status (rid : string) (s : Flow) : option WorkflowStatus := wr_Status <$> (ws_runs (fl_store s) !! rid).

Lemma after_moves_reachable ms :
  is_Some (@play plain_time ms (initial_flow 4 0)) → @flow_reachable plain_time (after_moves ms).
Proof. intros [s Hs]. unfold after_moves. rewrite Hs. exists 4, 0. by apply (@play_steps plain_time ms). Qed.

Lemma workflow_steps_in_order_witness :
  run_status "wfrun-1" (after_moves both_steps) = Some WorkflowSucceeded ∧
  ∃ r, ws_runs (fl_store (after_moves both_steps)) !! "wfrun-1" = Some r ∧
    done_step (fl_queue (after_moves both_steps)) r 0 ∧ done_step (fl_queue (after_moves both_steps)) r 1.
Proof.
  assert (@flow_reachable plain_time (after_moves both_steps)) as Hr.
  { apply after_moves_reachable. exists (after_moves both_steps). by vm_compute. }
  destruct (@workflow_steps_in_order plain_time (after_moves both_steps) Hr) as [_ Hruns].
  { split_and!; by vm_compute. }
  split; [by vm_compute|].
  destruct (ws_runs (fl_store (after_moves both_steps)) !! "wfrun-1") as [r|] eqn:Hrun.
  2: { exfalso. vm_compute in Hrun. discriminate Hrun. }
  exists r. split; [reflexivity|]. destruct (Hruns "wfrun-1" r Hrun) as [_ Hd].
  assert (wr_Status r = WorkflowSucceeded ∧ length (wr_StepJobIDs r) = 2%nat) as [Hs Hl].
  { vm_compute in Hrun. injection Hrun as <-. by split. }
  specialize (Hd Hs). rewrite Hl in Hd. split; [exact (Hd 0%nat ltac:(lia))|exact (Hd 1%nat ltac:(lia))].
Defined.

(** No event, dispatch or pending job is left, and the worker waits. *)
Definition quiet (s : Flow) : bool :=
  bool_decide (fl_outbox s = []) && bool_decide (fl_inflight s = []) &&
  bool_decide (chan High (fl_queue s) = []) && bool_decide (chan Normal (fl_queue s) = []) &&
  bool_decide (chan Low (fl_queue s) = []) && match sys_phase (fl_sys s) with Blocked => true | _ => false end.

(** The gap between [Enqueue] and the recording of the job loses runs: when the
    job of a step ends in between, its event finds no reference and the run stays
    [running] with a succeeded job and nothing left that could move it. *)
Theorem early_end_loses_run :
  @flow_reachable plain_time (after_moves early_end) ∧ quiet (after_moves early_end) = true ∧
  run_status "wfrun-1" (after_moves early_end) = Some WorkflowRunning ∧
  ∃ j, q_jobs (fl_queue (after_moves early_end)) !! "job-3-1" = Some j ∧ j_Status j = JobSucceeded.
Proof.
  split_and!.
  - apply after_moves_reachable. exists (after_moves early_end). by vm_compute.
  - by vm_compute.
  - by vm_compute.
  - eexists. split; by vm_compute.
Qed.
