(* ===== verification/Scheduler.v ===== *)
(** * The scheduler: [internal/control/scheduler.go] and
    [internal/control/maintenance.go]

    Every enabled schedule has a goroutine that waits for its interval, passes
    five gates and enqueues a job.  The goroutines are part of the state and
    step between the calls of the scheduler, of the maintenance store and of the
    queue; each gate reads its own state under its own lock, so each is a step. *)

From S2P Require Import Prelude Queue QueueInvariant QueueSpec.

(** ** Maintenance *)

Record MaintenanceTarget : Type := mkTarget {
  mt_Kind : string;
  mt_Name : string;
  mt_Enabled : bool;
  mt_Reason : string;
  mt_Since : Time;
}.
#[export] Instance MaintenanceTarget_eta : Eta MaintenanceTarget := λ r,
  mkTarget (mt_Kind r) (mt_Name r) (mt_Enabled r) (mt_Reason r) (mt_Since r).

Abbreviation MaintenanceStore := (gmap string MaintenanceTarget).
Definition NewMaintenanceStore : MaintenanceStore := ∅.

Definition validMaintenanceKinds : list string := ["host"; "cluster"; "environment"].

Inductive maintenance_error := MaintenanceKind | MaintenanceName.

(** [kind + ":" + strings.ToLower(name)] *)
Definition target_key (kind name : string) : string := kind +:+ ":" +:+ ToLower name.

Definition set_target (enabled : bool) (reason : string) (now : Time) (t : MaintenanceTarget) : MaintenanceTarget :=
  let t := t <| mt_Enabled := enabled |> in
  if enabled then
    t <| mt_Since := if IsZero (mt_Since t) then now else mt_Since t |> <| mt_Reason := TrimSpace reason |>
  else t <| mt_Since := 0 |> <| mt_Reason := "" |>.

Definition SetMaintenance (kind name : string) (enabled : bool) (reason : string) (now : Time)
    (m : MaintenanceStore) : MaintenanceStore * result maintenance_error MaintenanceTarget :=
  let kind := norm kind in
  let name := TrimSpace name in
  if negb (one_of kind validMaintenanceKinds) then (m, Err MaintenanceKind)
  else if eqs name "" then (m, Err MaintenanceName)
  else
    let key := target_key kind name in
    let cur := set_target enabled reason now (default (mkTarget kind name false "" 0) (m !! key)) in
    (<[key := cur]> m, Ok cur).

Definition IsActive (kind name : string) (m : MaintenanceStore) : bool :=
  let kind := norm kind in
  let name := norm name in
  if eqs kind "" || eqs name "" then false
  else match m !! (kind +:+ ":" +:+ name) with
       | Some t => mt_Enabled t
       | None => false
       end.

Definition by_kind_name (t u : MaintenanceTarget) : Prop :=
  if eqs (mt_Kind t) (mt_Kind u) then String.le (mt_Name t) (mt_Name u) else String.le (mt_Kind t) (mt_Kind u).
#[export] Instance by_kind_name_dec t u : Decision (by_kind_name t u).
Proof. unfold by_kind_name. destruct (eqs _ _); apply _. Defined.

Definition ListMaintenance (m : MaintenanceStore) : list MaintenanceTarget :=
  merge_sort by_kind_name (map_to_list m).*2.

(** ** Schedules *)

Record Schedule : Type := mkSchedule {
  sc_ID : string;
  sc_ConfigPath : string;
  sc_Priority : string;
  sc_ExecutionCost : Z;
  sc_Host : string;
  sc_Cluster : string;
  sc_Environment : string;
  sc_Interval : Duration;
  sc_Jitter : Duration;
  sc_Enabled : bool;
  sc_CreatedAt : Time;
  sc_LastRunAt : Time;
  sc_NextRunAt : Time;
}.
#[export] Instance Schedule_eta : Eta Schedule := λ r,
  mkSchedule (sc_ID r) (sc_ConfigPath r) (sc_Priority r) (sc_ExecutionCost r) (sc_Host r) (sc_Cluster r)
    (sc_Environment r) (sc_Interval r) (sc_Jitter r) (sc_Enabled r) (sc_CreatedAt r) (sc_LastRunAt r)
    (sc_NextRunAt r).

Record ScheduleOptions : Type := mkScheduleOptions {
  so_ConfigPath : string;
  so_Priority : string;
  so_ExecutionCost : Z;
  so_Host : string;
  so_Cluster : string;
  so_Environment : string;
  so_Interval : Duration;
  so_Jitter : Duration;
}.
#[export] Instance ScheduleOptions_eta : Eta ScheduleOptions := λ r,
  mkScheduleOptions (so_ConfigPath r) (so_Priority r) (so_ExecutionCost r) (so_Host r) (so_Cluster r)
    (so_Environment r) (so_Interval r) (so_Jitter r).

(** The conditions of [allowDispatch], in the order they are read; the limit of
    the backlog is read with the capacity, before the queue. *)
Inductive gate := GateHost | GateCluster | GateEnvironment | GateCapacity | GateBacklog (limit : Z).

(** Where the goroutine of a schedule is: in the [select], at a gate, at
    [Enqueue], before the times are written, returned. *)
Inductive loop_phase := LoopWaiting | LoopGate (g : gate) | LoopEnqueue | LoopRan | LoopReturned.

Record Loop : Type := mkLoop {
  lp_schedule : string;
  lp_cancelled : bool;                         (* its context is done *)
  lp_phase : loop_phase;
}.
#[export] Instance Loop_eta : Eta Loop := λ r, mkLoop (lp_schedule r) (lp_cancelled r) (lp_phase r).

Record Scheduler : Type := mkScheduler {
  sd_maint : MaintenanceStore;
  sd_schedules : gmap string Schedule;
  sd_cancel : gmap string nat;                 (* the loop a [CancelFunc] belongs to *)
  sd_loops : list Loop;                        (* every goroutine started *)
  sd_shut : list nat;                          (* those [Shutdown] took to cancel *)
  sd_nextID : Z;
  sd_maxBacklog : Z;
  sd_maxExecutionCost : Z;
  sd_hostHealth : gmap string bool;
}.
#[export] Instance Scheduler_eta : Eta Scheduler := λ r,
  mkScheduler (sd_maint r) (sd_schedules r) (sd_cancel r) (sd_loops r) (sd_shut r) (sd_nextID r)
    (sd_maxBacklog r) (sd_maxExecutionCost r) (sd_hostHealth r).

Definition NewScheduler : Scheduler := mkScheduler NewMaintenanceStore ∅ ∅ [] [] 0 100 10 ∅.

Definition normalizeExecutionCost (cost : Z) : Z :=
  if cost <=? 0 then 1 else if 1000 <? cost then 1000 else cost.

(** [startLocked]: a context, its entry in [cancel] and a goroutine. *)
Definition startLocked (sc : Schedule) (s : Scheduler) : Scheduler :=
  if negb (sc_Enabled sc) then s
  else s <| sd_cancel := <[sc_ID sc := length (sd_loops s)]> (sd_cancel s) |>
         <| sd_loops := sd_loops s ++ [mkLoop (sc_ID sc) false LoopWaiting] |>.

Definition put_schedule (sc : Schedule) (s : Scheduler) : Scheduler :=
  s <| sd_schedules := <[sc_ID sc := sc]> (sd_schedules s) |>.

Definition Minute : Duration := 60 * Second.

Definition CreateWithOptions (opts : ScheduleOptions) (now : Time) (s : Scheduler) : Scheduler * Schedule :=
  let interval := if so_Interval opts <=? 0 then Minute else so_Interval opts in
  let jitter := if so_Jitter opts <? 0 then 0 else so_Jitter opts in
  let next := sd_nextID s + 1 in
  let sc := mkSchedule ("sched-" +:+ itoa next) (so_ConfigPath opts) (normalizePriority (so_Priority opts))
              (normalizeExecutionCost (so_ExecutionCost opts)) (so_Host opts) (so_Cluster opts)
              (so_Environment opts) interval jitter true now 0 (Add now interval) in
  (startLocked sc (put_schedule sc (s <| sd_nextID := next |>)), sc).

Definition CreateWithPriority (configPath : string) (interval jitter : Duration) (priority : string) (now : Time)
    (s : Scheduler) : Scheduler * Schedule :=
  CreateWithOptions (mkScheduleOptions configPath priority 0 "" "" "" interval jitter) now s.

Definition CreateSchedule (configPath : string) (interval jitter : Duration) (now : Time) (s : Scheduler)
    : Scheduler * Schedule :=
  CreateWithPriority configPath interval jitter "normal" now s.

Definition GetSchedule (id : string) (s : Scheduler) : option Schedule := sd_schedules s !! TrimSpace id.
Definition ListSchedules (s : Scheduler) : list Schedule := (map_to_list (sd_schedules s)).*2.

(** Calling the [CancelFunc] of loop [n]. *)
Definition cancel_loop (n : nat) (s : Scheduler) : Scheduler :=
  s <| sd_loops := alter (λ l, l <| lp_cancelled := true |>) n (sd_loops s) |>.

Definition Disable (id : string) (s : Scheduler) : Scheduler * bool :=
  match sd_schedules s !! id with
  | None => (s, false)
  | Some sc =>
      let s := s <| sd_schedules := <[id := sc <| sc_Enabled := false |>]> (sd_schedules s) |> in
      match sd_cancel s !! id with
      | Some n => (cancel_loop n s <| sd_cancel := delete id (sd_cancel s) |>, true)
      | None => (s, true)
      end
  end.

Definition Enable (id : string) (s : Scheduler) : Scheduler * bool :=
  match sd_schedules s !! id with
  | None => (s, false)
  | Some sc =>
      if sc_Enabled sc then (s, true)
      else
        let sc := sc <| sc_Enabled := true |> in
        (startLocked sc (s <| sd_schedules := <[id := sc]> (sd_schedules s) |>), true)
  end.

(** [Shutdown] under the mutex; the functions it took are called afterwards. *)
Definition Shutdown (s : Scheduler) : Scheduler :=
  s <| sd_shut := sd_shut s ++ (map_to_list (sd_cancel s)).*2 |> <| sd_cancel := ∅ |>.

(** ** Capacity *)

Record SchedulerCapacityStatus : Type := mkCapacity {
  cap_MaxBacklog : Z;
  cap_MaxExecutionCost : Z;
  cap_HostHealth : gmap string bool;
}.

Definition capacityStatusLocked (s : Scheduler) : SchedulerCapacityStatus :=
  mkCapacity (sd_maxBacklog s) (sd_maxExecutionCost s) (sd_hostHealth s).

Definition SetCapacity (maxBacklog maxExecutionCost : Z) (s : Scheduler) : Scheduler * SchedulerCapacityStatus :=
  let s := if 0 <? maxBacklog then s <| sd_maxBacklog := maxBacklog |> else s in
  let s := if 0 <? maxExecutionCost then s <| sd_maxExecutionCost := maxExecutionCost |> else s in
  (s, capacityStatusLocked s).

Definition SetHostHealth (host : string) (healthy : bool) (s : Scheduler) : Scheduler * SchedulerCapacityStatus :=
  let host := norm host in
  let s := if eqs host "" then s else s <| sd_hostHealth := <[host := healthy]> (sd_hostHealth s) |> in
  (s, capacityStatusLocked s).

(** ** The decision to dispatch *)

Definition skipForMaintenance (sc : Schedule) (m : MaintenanceStore) : bool :=
  IsActive "host" (sc_Host sc) m || IsActive "cluster" (sc_Cluster sc) m
  || IsActive "environment" (sc_Environment sc) m.

(** The host is healthy as far as is known, and the cost is within the limit. *)
Definition capacity_allows (sc : Schedule) (s : Scheduler) : bool :=
  negb (match sd_hostHealth s !! norm (sc_Host sc) with Some healthy => negb healthy | None => false end)
  && negb (sd_maxExecutionCost s <? sc_ExecutionCost sc).

Definition backlog_allows (sc : Schedule) (maxBacklog pending : Z) : bool :=
  if maxBacklog <=? pending then false
  else if eqs (sc_Priority sc) "low" && (1 <? maxBacklog) && (Z.quot maxBacklog 2 <=? pending) then false
  else true.

Definition allowDispatch (sc : Schedule) (s : Scheduler) (q : Queue) : bool :=
  if skipForMaintenance sc (sd_maint s) then false
  else if negb (capacity_allows sc s) then false
  else backlog_allows sc (sd_maxBacklog s) (cs_Pending (controlStatusLocked q)).

(** One condition of [allowDispatch], on the state at the time it is read: where
    the loop goes. *)
Definition pass_gate (g : gate) (sc : Schedule) (s : Scheduler) (q : Queue) : loop_phase :=
  match g with
  | GateHost => if IsActive "host" (sc_Host sc) (sd_maint s) then LoopRan else LoopGate GateCluster
  | GateCluster => if IsActive "cluster" (sc_Cluster sc) (sd_maint s) then LoopRan else LoopGate GateEnvironment
  | GateEnvironment =>
      if IsActive "environment" (sc_Environment sc) (sd_maint s) then LoopRan else LoopGate GateCapacity
  | GateCapacity => if capacity_allows sc s then LoopGate (GateBacklog (sd_maxBacklog s)) else LoopRan
  | GateBacklog limit =>
      if backlog_allows sc limit (cs_Pending (controlStatusLocked q)) then LoopEnqueue else LoopRan
  end.

(** ** The wait of a loop

    [randomJitter]; [draw] is what [rand.Int63n] returned.  [rand.Int63n] panics
    when its argument is not positive. *)
Definition randomJitter (j : Duration) (draw : Z) : option Duration :=
  if j <=? 0 then Some 0 else if wrap64 (j + 1) <=? 0 then None else Some draw.

Definition loop_wait (sc : Schedule) (draw : Z) : option Duration :=
  match randomJitter (sc_Jitter sc) draw with
  | Some d => Some (wrap64 (sc_Interval sc + d))
  | None => None
  end.

(** ** The system *)

Record SchedSys : Type := mkSchedSys { ss_sys : System; ss_sched : Scheduler }.
#[export] Instance SchedSys_eta : Eta SchedSys := λ r, mkSchedSys (ss_sys r) (ss_sched r).

Definition ss_queue (s : SchedSys) : Queue := sys_queue (ss_sys s).

Definition set_phase (n : nat) (ph : loop_phase) (s : Scheduler) : Scheduler :=
  s <| sd_loops := alter (λ l, l <| lp_phase := ph |>) n (sd_loops s) |>.

Definition with_sched_phase (n : nat) (ph : loop_phase) (s : SchedSys) : SchedSys :=
  s <| ss_sched := set_phase n ph (ss_sched s) |>.

(** The times a loop writes after a run. *)
Definition record_times (id : string) (now : Time) (s : Scheduler) : Scheduler :=
  match sd_schedules s !! id with
  | None => s
  | Some cur =>
      s <| sd_schedules := <[id := cur <| sc_LastRunAt := now |> <| sc_NextRunAt := Add now (sc_Interval cur) |>]>
             (sd_schedules s) |>
  end.

Inductive select_case := TimerFired | ContextDone.

(** One step of the goroutine [n].  When the timer has fired and the context is
    done, the [select] may take either case. *)
Definition loop_step `{TimeFormat} (n : nat) (c : select_case) (now : Time) (s : SchedSys) : option SchedSys :=
  match sd_loops (ss_sched s) !! n with
  | None => None
  | Some l =>
      match sd_schedules (ss_sched s) !! lp_schedule l, lp_phase l with
      | Some sc, LoopWaiting =>
          match c with
          | TimerFired => Some (with_sched_phase n (LoopGate GateHost) s)
          | ContextDone => if lp_cancelled l then Some (with_sched_phase n LoopReturned s) else None
          end
      | Some sc, LoopGate g => Some (with_sched_phase n (pass_gate g sc (ss_sched s) (ss_queue s)) s)
      | Some sc, LoopEnqueue =>
          let '(q, _) := Enqueue (sc_ConfigPath sc) "" false (sc_Priority sc) now (ss_queue s) in
          Some (with_sched_phase n LoopRan (s <| ss_sys := (ss_sys s) <| sys_queue := q |> |>))
      | Some sc, LoopRan =>
          Some (with_sched_phase n LoopWaiting (s <| ss_sched := record_times (sc_ID sc) now (ss_sched s) |>))
      | _, _ => None
      end
  end.

Inductive sched_op :=
  | SchedCreate (opts : ScheduleOptions)
  | SchedEnable (id : string)
  | SchedDisable (id : string)
  | SchedShutdown
  | SchedMaintenance (kind name : string) (enabled : bool) (reason : string)
  | SchedCapacity (maxBacklog maxExecutionCost : Z)
  | SchedHealth (host : string) (healthy : bool).

Definition run_sched_op (o : sched_op) (now : Time) (s : Scheduler) : Scheduler :=
  match o with
  | SchedCreate opts => (CreateWithOptions opts now s).1
  | SchedEnable id => (Enable id s).1
  | SchedDisable id => (Disable id s).1
  | SchedShutdown => Shutdown s
  | SchedMaintenance kind name enabled reason =>
      s <| sd_maint := (SetMaintenance kind name enabled reason now (sd_maint s)).1 |>
  | SchedCapacity b c => (SetCapacity b c s).1
  | SchedHealth host healthy => (SetHostHealth host healthy s).1
  end.

Inductive sched_step `{TimeFormat} : SchedSys → SchedSys → Prop :=
  | sched_system s sys : step (ss_sys s) sys → sched_step s (s <| ss_sys := sys |>)
  | sched_call o now s : sched_step s (s <| ss_sched := run_sched_op o now (ss_sched s) |>)
  | sched_cancel n s :
      n ∈ sd_shut (ss_sched s) → sched_step s (s <| ss_sched := cancel_loop n (ss_sched s) |>)
  | sched_loop n c now s s' : loop_step n c now s = Some s' → sched_step s s'.

Definition initial_sched (buffer : Z) (now : Time) : SchedSys := mkSchedSys (initial buffer now) NewScheduler.

Definition sched_reachable `{TimeFormat} (s : SchedSys) : Prop :=
  ∃ buffer now, rtc sched_step (initial_sched buffer now) s.
