(* ===== verification/SchedulerSpec.v ===== *)
(** * What the scheduler guarantees

    A schedule never has two loops at work, a disabled one has none, and an
    enabled one has one unless [Shutdown] took it; a schedule that is held back
    all along is not dispatched; a loop that is alone does what the code of its
    goroutine reads like. *)

From S2P Require Import Prelude Queue QueueInvariant QueueSpec Scheduler.

(** ** Maintenance *)

Lemma ToLower_empty s : ToLower s = "" ↔ s = "".
Proof. by destruct s. Qed.

Lemma norm_TrimSpace s : norm (TrimSpace s) = norm s.
Proof. unfold norm. by rewrite TrimSpace_idemp. Qed.

Lemma target_key_inj k1 k2 n1 n2 :
  k1 ∈ validMaintenanceKinds → k2 ∈ validMaintenanceKinds →
  k1 +:+ ":" +:+ n1 = k2 +:+ ":" +:+ n2 → k1 = k2 ∧ n1 = n2.
Proof.
  unfold validMaintenanceKinds. rewrite !elem_of_cons, !elem_of_nil.
  intros [->|[->|[->|[]]]] [->|[->|[->|[]]]] Heq; by simplify_eq/=.
Qed.

(** A target is under maintenance exactly as it was last set, under any spelling
    of its name. *)
Lemma SetMaintenance_IsActive kind name enabled reason now m kind' name' :
  norm kind ∈ validMaintenanceKinds → TrimSpace name ≠ "" → norm kind' ∈ validMaintenanceKinds →
  IsActive kind' name' (SetMaintenance kind name enabled reason now m).1 =
    if bool_decide (norm kind' = norm kind ∧ norm name' = norm name) then enabled else IsActive kind' name' m.
Proof.
  intros Hk Hn Hk'. unfold SetMaintenance, IsActive, target_key. rewrite (proj2 (one_of_true _ _) Hk). cbn [negb].
  rewrite (proj2 (eqs_false _ _) Hn). cbn zeta. cbn [fst]. change (ToLower (TrimSpace name)) with (norm name).
  case_bool_decide as Heq.
  - destruct Heq as [-> ->]. rewrite lookup_insert_eq.
    assert (eqs (norm kind) "" = false) as ->.
    { apply eqs_false. intros Heq. rewrite Heq in Hk. by vm_compute in Hk; set_solver. }
    assert (eqs (norm name) "" = false) as ->.
    { apply eqs_false. unfold norm. by rewrite ToLower_empty. }
    by destruct enabled.
  - destruct (eqs _ _ || _); [done|]. rewrite lookup_insert_ne; [done|].
    intros Hkey. apply Heq. symmetry in Hkey. by apply target_key_inj in Hkey.
Qed.

(** ** The skeleton of a scheduler *)

Record Skeleton : Type := mkSkeleton {
  sk_enabled : gmap string bool;
  sk_cancel : gmap string nat;
  sk_loops : list (string * bool);             (* schedule and whether cancelled *)
  sk_shut : list nat;
  sk_next : Z;
}.

Definition loop_skeleton (l : Loop) : string * bool := (lp_schedule l, lp_cancelled l).

Definition skeleton (s : Scheduler) : Skeleton :=
  mkSkeleton (sc_Enabled <$> sd_schedules s) (sd_cancel s) (loop_skeleton <$> sd_loops s) (sd_shut s) (sd_nextID s).

Record skeleton_ok (k : Skeleton) : Prop := {
  so_id id b : sk_enabled k !! id = Some b → ∃ n, id = "sched-" +:+ itoa n ∧ 0 < n ≤ sk_next k;
  so_cancel id n : sk_cancel k !! id = Some n →
    sk_loops k !! n = Some (id, false) ∧ sk_enabled k !! id = Some true ∧ n ∉ sk_shut k;
  so_live n id : sk_loops k !! n = Some (id, false) → sk_cancel k !! id = Some n ∨ n ∈ sk_shut k;
  so_shut n : n ∈ sk_shut k → (n < length (sk_loops k))%nat;
  so_enabled id : sk_enabled k !! id = Some true →
    is_Some (sk_cancel k !! id) ∨ ∃ n b, n ∈ sk_shut k ∧ sk_loops k !! n = Some (id, b);
  so_known n id b : sk_loops k !! n = Some (id, b) → is_Some (sk_enabled k !! id);
  so_next : 0 ≤ sk_next k;
}.

Lemma alter_lookup_Some {A} (f : A → A) i (l : list A) j y :
  alter f i l !! j = Some y ↔ (i = j ∧ ∃ x, l !! j = Some x ∧ y = f x) ∨ (i ≠ j ∧ l !! j = Some y).
Proof.
  destruct (decide (i = j)) as [->|Hne].
  - rewrite list_lookup_alter_eq, fmap_Some. naive_solver.
  - rewrite list_lookup_alter_ne by done. naive_solver.
Qed.

Lemma fmap_alter_keep {A B} (g : A → B) (f : A → A) i (l : list A) :
  (∀ x, g (f x) = g x) → g <$> alter f i l = g <$> l.
Proof.
  intros Hg. apply list_eq. intros j. rewrite !list_lookup_fmap.
  destruct (decide (i = j)) as [->|Hne]; [|by rewrite list_lookup_alter_ne].
  rewrite list_lookup_alter_eq. destruct (l !! j); cbn; [by rewrite Hg|done].
Qed.

(** A loop is started for a schedule that has none. *)
Lemma skeleton_start k id next :
  skeleton_ok k → sk_enabled k !! id ≠ Some true → sk_next k ≤ next →
  (∃ n, id = "sched-" +:+ itoa n ∧ 0 < n ≤ next) →
  skeleton_ok (mkSkeleton (<[id := true]> (sk_enabled k)) (<[id := length (sk_loops k)]> (sk_cancel k))
    (sk_loops k ++ [(id, false)]) (sk_shut k) next).
Proof.
  intros [Hid Hc Hl Hs He Hk Hn] Hoff Hnext Hfresh.
  assert (∀ i n, sk_cancel k !! i = Some n → i ≠ id) as Hnone.
  { intros i n Hi ->. by apply Hc in Hi as (_ & ? & _). }
  split; cbn.
  - intros i b. rewrite lookup_insert_Some. intros [[<- _]|[_ Hi]]; [done|].
    apply Hid in Hi as (n & ? & ?). exists n. split; [done|lia].
  - intros i n. rewrite lookup_insert_Some. intros [[<- <-]|[Hne Hi]].
    + rewrite lookup_insert_eq, lookup_app_r, Nat.sub_diag by done. split_and!; [done..|].
      intros Hin%Hs. lia.
    + rewrite lookup_insert_ne by done. apply Hc in Hi as (Hi & ? & ?). split_and!; [|done..].
      by apply lookup_app_l_Some.
  - intros n i Hi. apply lookup_app_Some in Hi as [Hi|[Hlen Hi]].
    + apply Hl in Hi as [Hi|Hi]; [left|by right]. rewrite lookup_insert_ne; [done|]. by apply not_eq_sym, (Hnone _ n).
    + apply list_lookup_singleton_Some in Hi as [Hi [= <-]]. left. rewrite lookup_insert_eq. f_equal. lia.
  - intros n Hin%Hs. rewrite length_app. lia.
  - intros i Hi. destruct (decide (i = id)) as [->|Hne]; [left; rewrite lookup_insert_eq; by eexists|].
    rewrite lookup_insert_ne in Hi by done. rewrite lookup_insert_ne by done.
    destruct (He i Hi) as [?|(n & b & ? & ?)]; [by left|right]. exists n, b. split; [done|].
    by apply lookup_app_l_Some.
  - intros n i b Hi. rewrite lookup_insert_is_Some. destruct (decide (id = i)) as [|Hne]; [by left|right].
    split; [done|]. apply lookup_app_Some in Hi as [Hi|[_ Hi]]; [by eapply Hk|].
    apply list_lookup_singleton_Some in Hi as [_ [= Heq _]]. congruence.
  - lia.
Qed.

Definition cancelled_at (n : nat) (ls : list (string * bool)) : list (string * bool) :=
  alter (λ l, (l.1, true)) n ls.

Lemma cancelled_at_false n ls m id :
  cancelled_at n ls !! m = Some (id, false) ↔ n ≠ m ∧ ls !! m = Some (id, false).
Proof.
  unfold cancelled_at. rewrite alter_lookup_Some. split; [|by right].
  intros [(-> & [x b] & _ & [=])|?]; done.
Qed.

Lemma cancelled_at_known n ls m id b :
  cancelled_at n ls !! m = Some (id, b) → ∃ b', ls !! m = Some (id, b').
Proof.
  unfold cancelled_at. rewrite alter_lookup_Some.
  intros [(-> & [x b'] & Hm & [= -> _])|[_ ?]]; [by exists b'|by exists b].
Qed.

Lemma cancelled_at_lookup n ls m id b :
  ls !! m = Some (id, b) → ∃ b', cancelled_at n ls !! m = Some (id, b').
Proof.
  intros Hm. unfold cancelled_at. destruct (decide (n = m)) as [->|Hne].
  - exists true. by rewrite list_lookup_alter_eq, Hm.
  - exists b. by rewrite list_lookup_alter_ne.
Qed.

Lemma skeleton_cancel k n :
  skeleton_ok k → n ∈ sk_shut k →
  skeleton_ok (mkSkeleton (sk_enabled k) (sk_cancel k) (cancelled_at n (sk_loops k)) (sk_shut k) (sk_next k)).
Proof.
  intros [Hid Hc Hl Hs He Hk Hn] Hin. split; cbn; try done.
  - intros i m Hi. apply Hc in Hi as (? & ? & ?). split_and!; [|done..]. apply cancelled_at_false.
    split; [congruence|done].
  - intros m i Hi. apply cancelled_at_false in Hi as [_ Hi]. by apply Hl.
  - intros m Hm. unfold cancelled_at. rewrite length_alter. by apply Hs.
  - intros i Hi. destruct (He i Hi) as [?|(m & b & ? & Hm)]; [by left|right].
    apply (cancelled_at_lookup n) in Hm as [b' Hm]. eauto.
  - intros m i b Hm. apply cancelled_at_known in Hm as [b' Hm]. by eapply Hk.
Qed.

Lemma skeleton_disable k id b :
  skeleton_ok k → sk_enabled k !! id = Some b →
  skeleton_ok (mkSkeleton (<[id := false]> (sk_enabled k)) (delete id (sk_cancel k))
    (match sk_cancel k !! id with Some n => cancelled_at n (sk_loops k) | None => sk_loops k end)
    (sk_shut k) (sk_next k)).
Proof.
  intros [Hid Hc Hl Hs He Hk Hn] Hb.
  set (ls := match sk_cancel k !! id with Some n => _ | None => _ end).
  assert (∀ m i, ls !! m = Some (i, false) → sk_loops k !! m = Some (i, false) ∧ sk_cancel k !! id ≠ Some m) as Hlive.
  { unfold ls. destruct (sk_cancel k !! id) as [n|]; intros m i Hm; [|done].
    apply cancelled_at_false in Hm as [? ?]. split; [done|congruence]. }
  assert (∀ m i b', sk_loops k !! m = Some (i, b') → ∃ b'', ls !! m = Some (i, b'')) as Hto.
  { unfold ls. intros m i b' Hm. destruct (sk_cancel k !! id) as [n|]; [by eapply cancelled_at_lookup|by eexists]. }
  assert (∀ m i, ls !! m = Some (i, false) ∨ i ≠ id → ls !! m = Some (i, false) ↔
    sk_loops k !! m = Some (i, false)) as Hother.
  { unfold ls. intros m i Hor. destruct (sk_cancel k !! id) as [n|] eqn:Hn'; [|done].
    rewrite cancelled_at_false in *. split; [by intros [_ ?]|]. intros Hm. split; [|done]. intros ->.
    destruct Hor as [[? _]|Hor]; [done|]. apply Hc in Hn' as (Hn' & _). congruence. }
  split; cbn.
  - intros i b'. rewrite lookup_insert_Some. intros [[<- _]|[_ Hi]]; [by eapply Hid|by eapply Hid].
  - intros i m. rewrite lookup_delete_Some. intros [Hne Hi]. rewrite lookup_insert_ne by done.
    apply Hc in Hi as (Hi & ? & ?). split_and!; [|done..]. apply Hother; [by right|done].
  - intros m i Hm. apply Hlive in Hm as [Hm Hneq]. destruct (Hl _ _ Hm) as [Hi|?]; [left|by right].
    rewrite lookup_delete_ne; [done|]. congruence.
  - intros m Hin. unfold ls. destruct (sk_cancel k !! id); [|by apply Hs].
    unfold cancelled_at. rewrite length_alter. by apply Hs.
  - intros i. rewrite lookup_insert_Some. intros [[_ [=]]|[Hne Hi]]. rewrite lookup_delete_ne by done.
    destruct (He i Hi) as [?|(m & b' & ? & Hm)]; [by left|right]. apply Hto in Hm as [b'' Hm]. eauto.
  - intros m i b' Hm. rewrite lookup_insert_is_Some. destruct (decide (id = i)); [by left|right; split; [done|]].
    assert (∃ b'', sk_loops k !! m = Some (i, b'')) as [b'' Hm'].
    { revert Hm. unfold ls. destruct (sk_cancel k !! id); [apply cancelled_at_known|by eexists]. }
    by eapply Hk.
  - done.
Qed.

Lemma skeleton_shutdown k :
  skeleton_ok k →
  skeleton_ok (mkSkeleton (sk_enabled k) ∅ (sk_loops k) (sk_shut k ++ (map_to_list (sk_cancel k)).*2) (sk_next k)).
Proof.
  intros [Hid Hc Hl Hs He Hk Hn].
  assert (∀ id n, sk_cancel k !! id = Some n → n ∈ (map_to_list (sk_cancel k)).*2) as Hin.
  { intros id n Hi. apply list_elem_of_fmap. exists (id, n). by rewrite elem_of_map_to_list. }
  split; cbn; try done.
  - intros n id Hm. right. apply elem_of_app. destruct (Hl _ _ Hm) as [Hi|?]; [right; by eapply Hin|by left].
  - intros n [?|Hi]%elem_of_app; [by apply Hs|]. apply list_elem_of_fmap in Hi as ([id m] & -> & Hi).
    apply elem_of_map_to_list, Hc in Hi as (Hi & _). by apply lookup_lt_Some in Hi.
  - intros id Hi. right. destruct (He id Hi) as [[n Hn']|(n & b & ? & ?)].
    + exists n, false. rewrite elem_of_app. split; [right; by eapply Hin|by apply Hc in Hn' as (? & _)].
    + exists n, b. rewrite elem_of_app. eauto.
Qed.

(** ** The operations on the skeleton *)

Definition sched_ok (s : Scheduler) : Prop :=
  skeleton_ok (skeleton s) ∧
  ∀ id sc, sd_schedules s !! id = Some sc → sc_ID sc = id.

Lemma sched_ok_same s s' :
  skeleton s' = skeleton s → (∀ id sc, sd_schedules s' !! id = Some sc → sc_ID sc = id) → sched_ok s → sched_ok s'.
Proof. intros Heq Hid [Hok _]. split; [by rewrite Heq|done]. Qed.

Lemma skeleton_set_phase n ph s : skeleton (set_phase n ph s) = skeleton s.
Proof. unfold skeleton, set_phase. cbn. by rewrite fmap_alter_keep. Qed.

Lemma skeleton_cancel_loop n s :
  skeleton (cancel_loop n s) = mkSkeleton (sk_enabled (skeleton s)) (sk_cancel (skeleton s))
    (cancelled_at n (sk_loops (skeleton s))) (sk_shut (skeleton s)) (sk_next (skeleton s)).
Proof.
  unfold skeleton, cancel_loop, cancelled_at. cbn. f_equal. apply list_eq. intros j. rewrite list_lookup_fmap.
  destruct (decide (n = j)) as [->|Hne].
  - rewrite !list_lookup_alter_eq, list_lookup_fmap. by destruct (sd_loops s !! j).
  - by rewrite !list_lookup_alter_ne, list_lookup_fmap by done.
Qed.

Lemma skeleton_record_times id now s : skeleton (record_times id now s) = skeleton s.
Proof.
  unfold record_times. destruct (sd_schedules s !! id) as [sc|] eqn:Hsc; [|done].
  unfold skeleton. cbn. f_equal. rewrite fmap_insert. cbn. apply insert_id. by rewrite lookup_fmap, Hsc.
Qed.

Lemma skeleton_startLocked sc s :
  sc_Enabled sc = true →
  skeleton (startLocked sc (put_schedule sc s)) =
    mkSkeleton (<[sc_ID sc := true]> (sk_enabled (skeleton s)))
      (<[sc_ID sc := length (sk_loops (skeleton s))]> (sk_cancel (skeleton s)))
      (sk_loops (skeleton s) ++ [(sc_ID sc, false)]) (sk_shut (skeleton s)) (sk_next (skeleton s)).
Proof.
  intros He. unfold startLocked. rewrite He. cbn [negb]. unfold skeleton. cbn.
  by rewrite fmap_insert, He, fmap_app, length_fmap.
Qed.

Lemma put_schedule_ids sc s :
  (∀ id x, sd_schedules s !! id = Some x → sc_ID x = id) →
  ∀ id x, sd_schedules (put_schedule sc s) !! id = Some x → sc_ID x = id.
Proof. intros Hs id x. cbn. rewrite lookup_insert_Some. intros [[<- <-]|[_ Hx]]; [done|by apply Hs]. Qed.

Lemma startLocked_schedules sc s : sd_schedules (startLocked sc s) = sd_schedules s.
Proof. unfold startLocked. by destruct (sc_Enabled sc). Qed.

Lemma CreateWithOptions_ok opts now s :
  sched_ok s → sd_nextID s < max_int64 → sched_ok (CreateWithOptions opts now s).1.
Proof.
  intros [Hok Hids] Hmax. unfold CreateWithOptions. cbn zeta. cbn [fst].
  match goal with |- context [startLocked ?x (put_schedule _ ?y)] => set (sc := x); set (s1 := y) end.
  split.
  - rewrite skeleton_startLocked by done.
    apply (skeleton_start (skeleton s) (sc_ID sc) (sd_nextID s + 1)); [done| |cbn; lia|].
    + intros Hon. apply (so_id _ Hok) in Hon as (n & Heq & Hn). cbn in Heq, Hn. injection Heq as Heq.
      pose proof (so_next _ Hok) as Hnext. cbn in Hnext.
      apply itoa_inj in Heq; unfold max_int64 in *; lia.
    + exists (sd_nextID s + 1). split; [done|]. pose proof (so_next _ Hok) as Hnext. cbn in Hnext. lia.
  - intros id x. rewrite startLocked_schedules. by apply put_schedule_ids.
Qed.

Lemma Enable_ok id s : sched_ok s → sched_ok (Enable id s).1.
Proof.
  intros Hs. pose proof Hs as [Hok Hids]. unfold Enable.
  destruct (sd_schedules s !! id) as [sc|] eqn:Hsc; [|done].
  destruct (sc_Enabled sc) eqn:He; [done|]. cbn [fst]. set (sc' := sc <| sc_Enabled := true |>).
  assert (sc_ID sc' = id) as Hid by by apply Hids in Hsc.
  assert (s <| sd_schedules := <[id:=sc']> (sd_schedules s) |> = put_schedule sc' s) as Hput.
  { unfold put_schedule. by rewrite Hid. }
  fold sc'. rewrite Hput.
  split.
  - rewrite skeleton_startLocked by done. apply (skeleton_start (skeleton s) (sc_ID sc')); [done| |done|].
    + rewrite Hid. cbn. by rewrite lookup_fmap, Hsc; cbn; rewrite He.
    + apply (so_id _ Hok _ false). rewrite Hid. cbn. by rewrite lookup_fmap, Hsc; cbn; rewrite He.
  - intros i x. rewrite startLocked_schedules. by apply put_schedule_ids.
Qed.

Lemma Disable_ok id s : sched_ok s → sched_ok (Disable id s).1.
Proof.
  intros [Hok Hids]. unfold Disable. destruct (sd_schedules s !! id) as [sc|] eqn:Hsc; [|by split].
  assert (∀ i x, <[id:=sc <| sc_Enabled := false |>]> (sd_schedules s) !! i = Some x → sc_ID x = i) as Hids'.
  { intros i x. rewrite lookup_insert_Some. intros [[<- <-]|[_ Hx]]; [by apply Hids in Hsc|by apply Hids]. }
  pose proof (skeleton_disable (skeleton s) id (sc_Enabled sc) Hok) as Hd. cbn in Hd.
  rewrite lookup_fmap, Hsc in Hd. specialize (Hd eq_refl).
  cbn [sd_cancel update_field]. destruct (sd_cancel s !! id) as [n|] eqn:Hn; cbn [fst].
  - split; [|exact Hids']. eapply eq_ind; [exact Hd|].
    pose proof (skeleton_cancel_loop n s) as Hc. unfold skeleton in *. cbn in *. injection Hc as Hc. rewrite Hc.
    by rewrite fmap_insert.
  - split; [|exact Hids']. eapply eq_ind; [exact Hd|]. unfold skeleton. cbn. rewrite fmap_insert. cbn.
    by rewrite delete_id.
Qed.

Lemma Shutdown_ok s : sched_ok s → sched_ok (Shutdown s).
Proof. intros [Hok Hids]. split; [|done]. by apply skeleton_shutdown in Hok. Qed.

Lemma cancel_loop_ok n s : n ∈ sd_shut s → sched_ok s → sched_ok (cancel_loop n s).
Proof.
  intros Hn [Hok Hids]. split; [|done]. rewrite skeleton_cancel_loop. by apply skeleton_cancel.
Qed.

Lemma SetCapacity_ok b c s : sched_ok s → sched_ok (SetCapacity b c s).1.
Proof.
  intros Hs. unfold SetCapacity. cbn [fst].
  apply (sched_ok_same s); [| |done]; destruct (0 <? b), (0 <? c); done || exact (proj2 Hs).
Qed.

Lemma SetHostHealth_ok host healthy s : sched_ok s → sched_ok (SetHostHealth host healthy s).1.
Proof.
  intros Hs. unfold SetHostHealth. cbn [fst].
  apply (sched_ok_same s); [| |done]; destruct (eqs _ _); done || exact (proj2 Hs).
Qed.

Lemma run_sched_op_ok o now s :
  sd_nextID (run_sched_op o now s) ≤ max_int64 → sched_ok s → sched_ok (run_sched_op o now s).
Proof.
  intros Hmax Hs. destruct o as [opts|id|id| |kind name enabled reason|b c|host healthy]; cbn [run_sched_op].
  - apply CreateWithOptions_ok; [done|]. cbn in Hmax. lia.
  - by apply Enable_ok.
  - by apply Disable_ok.
  - by apply Shutdown_ok.
  - by apply (sched_ok_same s); [|exact (proj2 Hs)|].
  - by apply SetCapacity_ok.
  - by apply SetHostHealth_ok.
Qed.

Lemma set_phase_ok n ph s : sched_ok s → sched_ok (set_phase n ph s).
Proof. intros Hs. apply (sched_ok_same s); [apply skeleton_set_phase|apply Hs|done]. Qed.

Lemma record_times_ok id now s : sched_ok s → sched_ok (record_times id now s).
Proof.
  intros Hs. apply (sched_ok_same s); [apply skeleton_record_times| |done].
  unfold record_times. destruct (sd_schedules s !! id) as [sc|] eqn:Hsc; [|apply Hs].
  intros i x. cbn. rewrite lookup_insert_Some. intros [[<- <-]|[_ Hx]]; [exact (proj2 Hs _ _ Hsc)|exact (proj2 Hs _ _ Hx)].
Qed.

(** ** Reachable states *)

Section reachable.
Context `{TimeFormat}.

Definition sched_inv (s : SchedSys) : Prop := sched_ok (ss_sched s).

Lemma record_times_next id now s : sd_nextID (record_times id now s) = sd_nextID s.
Proof. unfold record_times. by destruct (_ !! _). Qed.

(** What a step of a loop does to the system and to the scheduler. *)
Lemma loop_step_inv n c now s s' :
  loop_step n c now s = Some s' →
  sd_nextID (ss_sched s') = sd_nextID (ss_sched s) ∧ rtc step (ss_sys s) (ss_sys s') ∧
  (sched_ok (ss_sched s) → sched_ok (ss_sched s')) ∧ skeleton (ss_sched s') = skeleton (ss_sched s).
Proof.
  unfold loop_step. destruct (sd_loops (ss_sched s) !! n) as [l|]; [|done].
  destruct (sd_schedules _ !! _) as [sc|]; [|done]. destruct (lp_phase l) as [|g| | |].
  - destruct c; [|destruct (lp_cancelled l); [|done]]; intros [= <-];
      (split_and!; [done|done|apply set_phase_ok|apply skeleton_set_phase]).
  - intros [= <-]. split_and!; [done|done|apply set_phase_ok|apply skeleton_set_phase].
  - destruct (Enqueue _ _ _ _ _ _) as [q r] eqn:Heq. intros [= <-].
    split_and!; [done| |apply set_phase_ok|apply skeleton_set_phase].
    apply rtc_once. pose proof (step_op (OpEnqueue (sc_ConfigPath sc) "" false (sc_Priority sc)) now (ss_sys s)) as Hst.
    cbn [run_op] in Hst. unfold ss_queue in Heq. by rewrite Heq in Hst.
  - intros [= <-]. split_and!; [apply record_times_next|done| |].
    + intros Hs. by apply set_phase_ok, record_times_ok.
    + etrans; [apply skeleton_set_phase|apply skeleton_record_times].
  - done.
Qed.

Lemma run_sched_op_next o now s : sd_nextID s ≤ sd_nextID (run_sched_op o now s).
Proof.
  destruct o as [opts|id|id| |kind name enabled reason|b c|host healthy]; cbn [run_sched_op]; try done.
  - cbn. lia.
  - unfold Enable. destruct (_ !! _) as [sc|]; [|done]. by destruct (sc_Enabled sc).
  - unfold Disable. destruct (_ !! _) as [sc|]; [|done]. cbn [sd_cancel update_field]. by destruct (sd_cancel s !! id).
  - unfold SetCapacity. cbn. by destruct (0 <? b), (0 <? c).
  - unfold SetHostHealth. cbn. by destruct (eqs _ _).
Qed.

Lemma sched_step_next s s' : sched_step s s' → sd_nextID (ss_sched s) ≤ sd_nextID (ss_sched s').
Proof.
  destruct 1 as [s sys Hs|o now s|n s Hn|n c now s s' Hl]; [done|apply run_sched_op_next|done|].
  apply loop_step_inv in Hl as (-> & _). done.
Qed.

Lemma sched_step_inv s s' :
  sched_step s s' → sd_nextID (ss_sched s') ≤ max_int64 → sched_inv s → sched_inv s'.
Proof.
  unfold sched_inv. destruct 1 as [s sys Hs|o now s|n s Hn|n c now s s' Hl]; intros Hmax Hinv.
  - exact Hinv.
  - by apply run_sched_op_ok.
  - by apply cancel_loop_ok.
  - apply loop_step_inv in Hl as (_ & _ & Hl & _). by apply Hl.
Qed.

Lemma sched_inv_reachable s :
  sched_reachable s → sd_nextID (ss_sched s) ≤ max_int64 → sched_inv s ∧ reachable (ss_sys s).
Proof.
  intros (buffer & now & Hrtc). revert s Hrtc.
  apply (rtc_ind_r (λ s, sd_nextID (ss_sched s) ≤ max_int64 → sched_inv s ∧ reachable (ss_sys s)) (initial_sched buffer now)).
  - intros _. split; [|by exists buffer, now]. split; [|done].
    split; cbn; try done; try (intros ? ? Hl; by rewrite lookup_empty in Hl); try (intros ? Hl; by rewrite lookup_empty in Hl).
    intros n Hn. by apply elem_of_nil in Hn.
  - intros s s' _ Hst IH Hmax. pose proof (sched_step_next _ _ Hst) as Hle.
    destruct IH as [Hinv (b & t & Hr)]; [lia|]. split; [by eapply sched_step_inv|]. exists b, t.
    etrans; [exact Hr|]. destruct Hst as [s sys Hs|o now' s|n s Hn|n c now' s s' Hl]; [by apply rtc_once|done|done|].
    by apply loop_step_inv in Hl as (_ & Hl & _).
Qed.

(** ** Being held back *)

(** Why a schedule is not dispatched.  For the backlog: at least [pending] jobs
    wait all along, and that is too many for a schedule of its priority. *)
Inductive cause := CauseHost | CauseCluster | CauseEnvironment | CauseCapacity | CauseBacklog (low : bool) (pending : Z).

Definition too_many (low : bool) (limit pending : Z) : bool :=
  (limit <=? pending) || low && (1 <? limit) && (Z.quot limit 2 <=? pending).

Definition holds_back (c : cause) (id : string) (s : SchedSys) : Prop :=
  ∀ sc, sd_schedules (ss_sched s) !! id = Some sc →
  match c with
  | CauseHost => IsActive "host" (sc_Host sc) (sd_maint (ss_sched s)) = true
  | CauseCluster => IsActive "cluster" (sc_Cluster sc) (sd_maint (ss_sched s)) = true
  | CauseEnvironment => IsActive "environment" (sc_Environment sc) (sd_maint (ss_sched s)) = true
  | CauseCapacity => capacity_allows sc (ss_sched s) = false
  | CauseBacklog low pending =>
      eqs (sc_Priority sc) "low" = low ∧ too_many low (sd_maxBacklog (ss_sched s)) pending = true ∧
      pending ≤ cs_Pending (controlStatusLocked (ss_queue s))
  end.

(** The loop has not passed the gate of [c] yet in this round. *)
Definition before_gate (c : cause) (ph : loop_phase) : Prop :=
  match ph with
  | LoopEnqueue => False
  | LoopGate (GateBacklog limit) =>
      match c with CauseBacklog low pending => too_many low limit pending = true | _ => False end
  | LoopGate GateCapacity => match c with CauseCapacity | CauseBacklog _ _ => True | _ => False end
  | LoopGate GateEnvironment => match c with CauseHost | CauseCluster => False | _ => True end
  | LoopGate GateCluster => match c with CauseHost => False | _ => True end
  | _ => True
  end.

Lemma backlog_too_many sc limit pending :
  backlog_allows sc limit pending = negb (too_many (eqs (sc_Priority sc) "low") limit pending).
Proof.
  unfold backlog_allows, too_many. destruct (limit <=? pending); [done|]. cbn [orb].
  by destruct (_ && _ && _).
Qed.

Lemma too_many_more low limit p p' : p ≤ p' → too_many low limit p = true → too_many low limit p' = true.
Proof.
  unfold too_many. rewrite !orb_true_iff, !andb_true_iff, !Z.leb_le. intros Hle [?|[? ?]]; [left; lia|right; split; [done|lia]].
Qed.

Lemma pass_gate_held c g sc s id :
  sd_schedules (ss_sched s) !! id = Some sc → holds_back c id s → before_gate c (LoopGate g) →
  before_gate c (pass_gate g sc (ss_sched s) (ss_queue s)).
Proof.
  intros Hsc Hh Hb. specialize (Hh sc Hsc). destruct c as [| | | |low p], g as [| | | |limit]; cbn in *; try done;
    rewrite ?Hh; try (exact I); try (by case_match).
  - destruct Hh as (_ & Hh & _). by case_match.
  - destruct Hh as (<- & _ & Hp). rewrite backlog_too_many. by rewrite (too_many_more _ _ _ _ Hp).
Qed.

Definition held_step (c : cause) (id : string) (s s' : SchedSys) : Prop :=
  sched_step s s' ∧ holds_back c id s.

(** Loop [n] runs schedule [id] and has not passed the gate of [c]. *)
Definition loop_before (c : cause) (n : nat) (id : string) (s : SchedSys) : Prop :=
  ∃ l, sd_loops (ss_sched s) !! n = Some l ∧ lp_schedule l = id ∧ before_gate c (lp_phase l).

Lemma loop_before_loops c n id s s' :
  (∀ l, sd_loops (ss_sched s) !! n = Some l → ∃ l', sd_loops (ss_sched s') !! n = Some l' ∧
     lp_schedule l' = lp_schedule l ∧ lp_phase l' = lp_phase l) →
  loop_before c n id s → loop_before c n id s'.
Proof. intros Hl (l & Hn & Hid & Hb). destruct (Hl l Hn) as (l' & ? & Hs & Hp). exists l'. by rewrite Hs, Hp. Qed.

Lemma cancel_loop_lookup m s n l :
  sd_loops s !! n = Some l → ∃ l', sd_loops (cancel_loop m s) !! n = Some l' ∧
    lp_schedule l' = lp_schedule l ∧ lp_phase l' = lp_phase l.
Proof.
  intros Hn. cbn. destruct (decide (m = n)) as [->|Hne].
  - rewrite list_lookup_alter_eq, Hn. by eexists.
  - rewrite list_lookup_alter_ne by done. by eexists.
Qed.

Lemma startLocked_lookup sc s n l :
  sd_loops s !! n = Some l → sd_loops (startLocked sc s) !! n = Some l.
Proof. intros Hn. unfold startLocked. destruct (negb _); [done|]. by apply lookup_app_l_Some. Qed.

Lemma run_sched_op_lookup o now s n l :
  sd_loops s !! n = Some l → ∃ l', sd_loops (run_sched_op o now s) !! n = Some l' ∧
    lp_schedule l' = lp_schedule l ∧ lp_phase l' = lp_phase l.
Proof.
  intros Hn. destruct o as [opts|id|id| |kind name enabled reason|b c|host healthy]; cbn [run_sched_op].
  - exists l. split; [|done]. by apply startLocked_lookup.
  - unfold Enable. destruct (sd_schedules s !! id) as [sc|]; [|by exists l]. destruct (sc_Enabled sc); [by exists l|].
    exists l. split; [|done]. by apply startLocked_lookup.
  - unfold Disable. destruct (sd_schedules s !! id) as [sc|]; [|by exists l]. cbn [sd_cancel update_field].
    destruct (sd_cancel s !! id) as [m|]; [|by exists l]. by apply (cancel_loop_lookup m s).
  - by exists l.
  - by exists l.
  - exists l. unfold SetCapacity. cbn. by destruct (0 <? b), (0 <? c).
  - exists l. unfold SetHostHealth. cbn. by destruct (eqs _ _).
Qed.

Lemma held_step_before c n id s s' : held_step c id s s' → loop_before c n id s → loop_before c n id s'.
Proof.
  intros [Hst Hh] Hb. destruct Hst as [s sys Hs|o now s|m s Hm|m ch now s s' Hl].
  - exact Hb.
  - eapply loop_before_loops; [|exact Hb]. intros l. apply run_sched_op_lookup.
  - eapply loop_before_loops; [|exact Hb]. intros l. apply cancel_loop_lookup.
  - destruct Hb as (l & Hn & Hid & Hb). unfold loop_step in Hl.
    destruct (sd_loops (ss_sched s) !! m) as [lm|] eqn:Hm; [|done].
    destruct (sd_schedules (ss_sched s) !! lp_schedule lm) as [sc|] eqn:Hsc; [|done].
    assert (∀ ph s1, sd_loops (ss_sched s1) = sd_loops (ss_sched s) → (m = n → before_gate c ph) →
      loop_before c n id (with_sched_phase m ph s1)) as Hset.
    { intros ph s1 Hs1 Hph. unfold loop_before. cbn. rewrite Hs1.
      destruct (decide (m = n)) as [->|Hne].
      - rewrite list_lookup_alter_eq, Hn. exists (l <| lp_phase := ph |>). by split_and!; [| |apply Hph].
      - rewrite list_lookup_alter_ne by done. by exists l. }
    assert (m = n → lm = l) as Hml by (intros ->; congruence).
    destruct (lp_phase lm) as [|g| | |] eqn:Hph.
    + destruct ch; [|destruct (lp_cancelled lm); [|done]]; injection Hl as <-; by apply Hset.
    + injection Hl as <-. apply Hset; [done|]. intros Heq. pose proof (Hml Heq) as ->.
      rewrite Hph in Hb. eapply pass_gate_held; [|exact Hh|exact Hb]. by rewrite <-Hid.
    + destruct (Enqueue _ _ _ _ _ _) as [q r]. injection Hl as <-. by apply Hset.
    + injection Hl as <-. apply Hset; [|done]. cbn. unfold record_times. by destruct (sd_schedules (ss_sched s) !! sc_ID sc).
    + done.
Qed.

Lemma held_before c n id s s' : rtc (held_step c id) s s' → loop_before c n id s → loop_before c n id s'.
Proof. induction 1 as [|s s1 s' Hst _ IH]; [done|]. intros Hb. by eapply IH, held_step_before. Qed.

(** Loop [n] runs schedule [id], is not cancelled and is not about to be. *)
Definition live (s : SchedSys) (id : string) (n : nat) : Prop :=
  ∃ l, sd_loops (ss_sched s) !! n = Some l ∧ lp_schedule l = id ∧ lp_cancelled l = false ∧
    n ∉ sd_shut (ss_sched s).

Lemma live_skeleton s id n :
  live s id n ↔ sk_loops (skeleton (ss_sched s)) !! n = Some (id, false) ∧ n ∉ sd_shut (ss_sched s).
Proof.
  unfold live, skeleton. cbn. rewrite list_lookup_fmap. split.
  - intros (l & -> & <- & Hc & ?). cbn. unfold loop_skeleton. by rewrite Hc.
  - intros [(l & Hl & [= -> Hc])%fmap_Some Hn]. by exists l.
Qed.

(** C21: in every reachable state of scheduler, queue and worker: the queue is in
    a state its own theorems speak of; a schedule has at most one live loop; a
    disabled schedule has none, and an enabled one has one unless [Shutdown] took
    its loop.  And a schedule that is held back all along, by the maintenance of
    its target, by the health of its host, by its cost or by a backlog that stays
    too long, is not dispatched: none of its loops that was before the gate comes
    to enqueue. *)
Theorem scheduler_loops s :
  sched_reachable s → sd_nextID (ss_sched s) ≤ max_int64 →
  reachable (ss_sys s) ∧
  (∀ id n1 n2, live s id n1 → live s id n2 → n1 = n2) ∧
  (∀ id sc, sd_schedules (ss_sched s) !! id = Some sc →
     if sc_Enabled sc
     then (∃ n, live s id n) ∨
          ∃ n l, n ∈ sd_shut (ss_sched s) ∧ sd_loops (ss_sched s) !! n = Some l ∧ lp_schedule l = id
     else ∀ n, ¬ live s id n) ∧
  (∀ c n id s', loop_before c n id s → rtc (held_step c id) s s' →
     ∃ l, sd_loops (ss_sched s') !! n = Some l ∧ lp_phase l ≠ LoopEnqueue).
Proof.
  intros Hreach Hmax. destruct (sched_inv_reachable s Hreach Hmax) as [[Hok Hids] Hr].
  assert (∀ id n, live s id n → sd_cancel (ss_sched s) !! id = Some n) as Hlive.
  { intros id n [Hl Hn]%live_skeleton. by destruct (so_live _ Hok _ _ Hl). }
  split; [exact Hr|]. split; [|split].
  - intros id n1 n2 H1%Hlive H2%Hlive. congruence.
  - intros id sc Hsc. destruct (sc_Enabled sc) eqn:He.
    + destruct (so_enabled _ Hok id) as [[n Hn]|(n & b & Hn & Hl)].
      * cbn. by rewrite lookup_fmap, Hsc; cbn; rewrite He.
      * left. exists n. apply live_skeleton. by apply (so_cancel _ Hok) in Hn as (? & _ & ?).
      * right. cbn in Hl. rewrite list_lookup_fmap in Hl. apply fmap_Some in Hl as (l & Hl & [= -> _]). by exists n, l.
    + intros n Hn%Hlive. apply (so_cancel _ Hok) in Hn as (_ & Hon & _). cbn in Hon.
      rewrite lookup_fmap, Hsc in Hon. cbn in Hon. congruence.
  - intros c n id s' Hb Hrtc. destruct (held_before c n id s s' Hrtc Hb) as (l & Hl & _ & Hg).
    exists l. split; [done|]. by intros Hp; rewrite Hp in Hg.
Qed.
End reachable.

(** ** A loop that is alone *)

Section cycle.
Context `{TimeFormat}.

Definition lone_step (n : nat) (now : Time) (s s' : SchedSys) : Prop := loop_step n TimerFired now s = Some s'.

(** The body of the loop as it reads. *)
Definition cycle (n : nat) (sc : Schedule) (now : Time) (s : SchedSys) : SchedSys :=
  let s := if allowDispatch sc (ss_sched s) (ss_queue s)
           then s <| ss_sys := (ss_sys s) <| sys_queue :=
                  (Enqueue (sc_ConfigPath sc) "" false (sc_Priority sc) now (ss_queue s)).1 |> |>
           else s in
  with_sched_phase n LoopWaiting (s <| ss_sched := record_times (sc_ID sc) now (ss_sched s) |>).

Lemma alter_twice {A} (f g : A → A) i (l : list A) : alter f i (alter g i l) = alter (f ∘ g) i l.
Proof.
  apply list_eq. intros j. destruct (decide (i = j)) as [->|Hne].
  - rewrite !list_lookup_alter_eq. by destruct (l !! j).
  - by rewrite !list_lookup_alter_ne.
Qed.

Lemma set_phase_twice n ph ph' s : set_phase n ph (set_phase n ph' s) = set_phase n ph s.
Proof. unfold set_phase. cbn. by rewrite alter_twice. Qed.

Lemma with_sched_phase_twice n ph ph' s :
  with_sched_phase n ph (with_sched_phase n ph' s) = with_sched_phase n ph s.
Proof. unfold with_sched_phase. cbn. by rewrite set_phase_twice. Qed.

Lemma with_sched_phase_same n l s :
  sd_loops (ss_sched s) !! n = Some l → with_sched_phase n (lp_phase l) s = s.
Proof.
  intros Hn. destruct s as [sys sd]. unfold with_sched_phase, set_phase. cbn in *.
  assert (alter (λ x, x <| lp_phase := lp_phase l |>) n (sd_loops sd) = sd_loops sd) as Heq.
  { apply list_eq. intros j. destruct (decide (n = j)) as [->|Hne]; [|by rewrite list_lookup_alter_ne].
    rewrite list_lookup_alter_eq, Hn. by destruct l. }
  cbn in Heq. rewrite Heq. by destruct sd.
Qed.

Lemma record_times_set_phase id now n ph s :
  record_times id now (set_phase n ph s) = set_phase n ph (record_times id now s).
Proof. unfold record_times. cbn. by destruct (sd_schedules s !! id). Qed.

(** The state of loop [n] at a phase, everything else as in [s]. *)
Lemma lone_at n now ph s l sc :
  sd_loops (ss_sched s) !! n = Some l → sd_schedules (ss_sched s) !! lp_schedule l = Some sc →
  loop_step n TimerFired now (with_sched_phase n ph s) =
    match ph with
    | LoopWaiting => Some (with_sched_phase n (LoopGate GateHost) s)
    | LoopGate g => Some (with_sched_phase n (pass_gate g sc (ss_sched s) (ss_queue s)) s)
    | LoopEnqueue => Some (with_sched_phase n LoopRan (s <| ss_sys := (ss_sys s) <| sys_queue :=
                       (Enqueue (sc_ConfigPath sc) "" false (sc_Priority sc) now (ss_queue s)).1 |> |>))
    | LoopRan => Some (with_sched_phase n LoopWaiting
                   (s <| ss_sched := record_times (sc_ID sc) now (ss_sched s) |>))
    | LoopReturned => None
    end.
Proof.
  intros Hn Hsc. unfold loop_step. cbn [ss_sched with_sched_phase update_field].
  assert (sd_loops (set_phase n ph (ss_sched s)) !! n = Some (l <| lp_phase := ph |>)) as ->.
  { cbn. by rewrite list_lookup_alter_eq, Hn. }
  assert (sd_schedules (set_phase n ph (ss_sched s)) !! lp_schedule (l <| lp_phase := ph |>) = Some sc) as ->.
  { exact Hsc. }
  cbn [lp_phase update_field]. destruct ph as [|g| | |].
  - by rewrite with_sched_phase_twice.
  - rewrite with_sched_phase_twice. by destruct g.
  - change (ss_queue (with_sched_phase n LoopEnqueue s)) with (ss_queue s).
    destruct (Enqueue _ _ _ _ _ _) as [q r]. unfold with_sched_phase.
    cbn [fst ss_sched ss_sys update_field]. by rewrite set_phase_twice.
  - change (ss_sched (with_sched_phase n LoopRan s)) with (set_phase n LoopRan (ss_sched s)).
    rewrite record_times_set_phase. unfold with_sched_phase. cbn [ss_sched ss_sys update_field].
    by rewrite set_phase_twice.
  - done.
Qed.

(** Left alone from its timer on, a loop evaluates [allowDispatch] once, enqueues
    the configuration of its schedule exactly if that holds, writes the times and
    waits again. *)
Theorem lone_cycle n now s l sc :
  sd_loops (ss_sched s) !! n = Some l → lp_phase l = LoopWaiting →
  sd_schedules (ss_sched s) !! lp_schedule l = Some sc →
  rtc (lone_step n now) s (cycle n sc now s).
Proof.
  intros Hn Hph Hsc. pose proof (with_sched_phase_same n l s Hn) as Hsame. rewrite Hph in Hsame.
  assert (∀ ph s', loop_step n TimerFired now (with_sched_phase n ph s) = Some s' →
    lone_step n now (with_sched_phase n ph s) s') as Hstep by done.
  assert (∀ ph, rtc (lone_step n now) (with_sched_phase n (LoopGate GateHost) s) (with_sched_phase n ph s) →
    rtc (lone_step n now) s (with_sched_phase n ph s)) as Hstart.
  { intros ph Hr. eapply rtc_l; [|exact Hr]. rewrite <-Hsame at 1. apply Hstep. by erewrite lone_at. }
  assert (∀ g, lone_step n now (with_sched_phase n (LoopGate g) s)
    (with_sched_phase n (pass_gate g sc (ss_sched s) (ss_queue s)) s)) as Hgate.
  { intros g. apply Hstep. by erewrite lone_at. }
  assert (rtc (lone_step n now) (with_sched_phase n (LoopGate GateHost) s) (with_sched_phase n
    (if allowDispatch sc (ss_sched s) (ss_queue s) then LoopEnqueue else LoopRan) s)) as Hgates.
  { unfold allowDispatch, skipForMaintenance.
    eapply rtc_l; [apply Hgate|]. cbn [pass_gate]. destruct (IsActive "host" _ _); [done|]. cbn [orb].
    eapply rtc_l; [apply Hgate|]. cbn [pass_gate]. destruct (IsActive "cluster" _ _); [done|]. cbn [orb].
    eapply rtc_l; [apply Hgate|]. cbn [pass_gate]. destruct (IsActive "environment" _ _); [done|].
    eapply rtc_l; [apply Hgate|]. cbn [pass_gate]. destruct (capacity_allows _ _); [|done]. cbn [negb].
    apply rtc_once. by apply Hgate. }
  etrans; [by apply Hstart|]. unfold cycle. destruct (allowDispatch _ _ _).
  - eapply rtc_l; [apply Hstep; by erewrite lone_at|].
    set (s1 := s <| ss_sys := _ |>). apply rtc_once. unfold lone_step.
    by rewrite (lone_at n now LoopRan s1 l sc).
  - apply rtc_once, Hstep. by erewrite lone_at.
Qed.
End cycle.

(** ** The wait *)

(** A loop waits at least its interval, as long as interval and jitter fit. *)
Lemma loop_wait_bounds sc draw :
  0 < sc_Interval sc → 0 ≤ sc_Jitter sc → 0 ≤ draw ≤ sc_Jitter sc → sc_Interval sc + sc_Jitter sc ≤ max_int64 →
  ∃ d, loop_wait sc draw = Some d ∧ sc_Interval sc ≤ d ≤ sc_Interval sc + sc_Jitter sc.
Proof.
  intros Hi Hj Hd Hmax. unfold loop_wait, randomJitter.
  destruct (Z.leb_spec (sc_Jitter sc) 0) as [Hz|Hz].
  { exists (sc_Interval sc). rewrite Z.add_0_r, wrap64_small; unfold int64, min_int64 in *; [split; [done|lia]|lia]. }
  rewrite (wrap64_small (sc_Jitter sc + 1)) by (unfold int64, min_int64 in *; lia).
  destruct (Z.leb_spec (sc_Jitter sc + 1) 0); [lia|].
  exists (sc_Interval sc + draw). rewrite wrap64_small; unfold int64, min_int64 in *; [split; [done|lia]|lia].
Qed.

(** The sum wraps around for an interval and a jitter of 250 years: the wait is
    negative, and the timer fires at once, for ever. *)
Definition distant : ScheduleOptions :=
  mkScheduleOptions "site.yaml" "" 1 "" "" "" (seconds 7884000000) (seconds 7884000000).

Theorem distant_schedule_spins :
  ∃ d, loop_wait (CreateWithOptions distant 0 NewScheduler).2 (seconds 1600000000) = Some d ∧ d < 0.
Proof. eexists. split; by vm_compute. Qed.

(** ** Concrete runs *)

Definition db_schedule : ScheduleOptions := mkScheduleOptions "db.yaml" "high" 1 "db1" "" "" (60 * Second) 0.

Definition sched_calls (os : list sched_op) (s : SchedSys) : SchedSys :=
  foldl (λ s o, s <| ss_sched := run_sched_op o 1 (ss_sched s) |>) s os.

Lemma sched_calls_steps `{TimeFormat} os s : rtc sched_step s (sched_calls os s).
Proof.
  unfold sched_calls. revert s; induction os as [|o os IH]; intros s; cbn [foldl]; [constructor|].
  eapply rtc_l; [apply (sched_call o 1)|apply IH].
Qed.

(** A schedule on a host under maintenance. *)
Definition maintained : SchedSys :=
  sched_calls [SchedCreate db_schedule; SchedMaintenance "host" "DB1 " true "patching"] (initial_sched 4 0).

Lemma scheduler_loops_witness :
  @live maintained "sched-1" 0 ∧
  ∃ l, sd_loops (ss_sched maintained) !! 0%nat = Some l ∧ lp_phase l ≠ LoopEnqueue.
Proof.
  assert (@sched_reachable plain_time maintained) as Hr.
  { exists 4, 0. apply (@sched_calls_steps plain_time). }
  destruct (@scheduler_loops plain_time maintained Hr) as (_ & Huniq & Hon & Hheld).
  { vm_compute. discriminate. }
  split.
  - eexists. split_and!; [by vm_compute|by vm_compute|by vm_compute|]. vm_compute. by intros Hn%elem_of_nil.
  - apply (Hheld CauseHost 0%nat "sched-1" maintained); [|constructor].
    eexists. split_and!; [by vm_compute|by vm_compute|exact I].
Defined.

(** After [Shutdown] an enabled schedule stays enabled without a loop: [Enable]
    reports success and starts nothing. *)
Theorem shutdown_schedules_stay_enabled :
  let s := cancel_loop 0 (Shutdown (CreateWithOptions db_schedule 1 NewScheduler).1) in
  (∃ sc, sd_schedules s !! "sched-1" = Some sc ∧ sc_Enabled sc = true) ∧
  lp_cancelled <$> sd_loops s = [true] ∧ Enable "sched-1" s = (s, true).
Proof. split; [eexists; split; by vm_compute|]. split; by vm_compute. Qed.
