(* ===== verification/Association.v ===== *)
(** * Associations: [internal/control/association.go]

    An association keeps a configuration applied to a target: it owns a schedule,
    and every change is recorded as a revision that can be replayed. *)

From S2P Require Import Prelude Queue QueueInvariant QueueSpec Scheduler SchedulerSpec.

Record Association : Type := mkAssociation {
  as_ID : string;
  as_ConfigPath : string;
  as_TargetKind : string;
  as_TargetName : string;
  as_Priority : string;
  as_Backend : string;
  as_Interval : Duration;
  as_Jitter : Duration;
  as_Enabled : bool;
  as_ScheduleID : string;
  as_Revision : Z;
  as_CreatedAt : Time;
  as_UpdatedAt : Time;
}.
#[export] Instance Association_eta : Eta Association := λ r,
  mkAssociation (as_ID r) (as_ConfigPath r) (as_TargetKind r) (as_TargetName r) (as_Priority r) (as_Backend r)
    (as_Interval r) (as_Jitter r) (as_Enabled r) (as_ScheduleID r) (as_Revision r) (as_CreatedAt r)
    (as_UpdatedAt r).

Record AssociationRevision : Type := mkRevision {
  ar_Revision : Z;
  ar_Action : string;
  ar_CreatedAt : Time;
  ar_Snapshot : Association;
}.

Record AssociationCreate : Type := mkAssociationCreate {
  ac_ConfigPath : string;
  ac_TargetKind : string;
  ac_TargetName : string;
  ac_Priority : string;
  ac_Backend : string;
  ac_Interval : Duration;
  ac_Jitter : Duration;
  ac_Enabled : bool;
}.

Record AssociationStore : Type := mkAssociationStore {
  at_nextID : Z;
  at_items : gmap string Association;
  at_history : gmap string (list AssociationRevision);
}.
#[export] Instance AssociationStore_eta : Eta AssociationStore := λ r,
  mkAssociationStore (at_nextID r) (at_items r) (at_history r).

Definition NewAssociationStore : AssociationStore := mkAssociationStore 0 ∅ ∅.

Inductive association_error :=
  | AssocConfigPath | AssocTargetKind | AssocTargetName | AssocNotFound | AssocRevision.

Definition applyTargetToScheduleOptions (kind name : string) (opts : ScheduleOptions) : ScheduleOptions :=
  if eqs kind "host" then opts <| so_Host := name |>
  else if eqs kind "cluster" then opts <| so_Cluster := name |>
  else if eqs kind "environment" then opts <| so_Environment := name |>
  else opts.

Definition schedule_options (configPath priority kind name : string) (interval jitter : Duration) : ScheduleOptions :=
  applyTargetToScheduleOptions kind name (mkScheduleOptions configPath priority 0 "" "" "" interval jitter).

(** [history[id] = append(history[id], ...)] *)
Definition add_revision (action : string) (now : Time) (a : Association) (st : AssociationStore) : AssociationStore :=
  let h := default [] (at_history st !! as_ID a) in
  st <| at_history := <[as_ID a := h ++ [mkRevision (as_Revision a) action now a]]> (at_history st) |>.

Definition put_association (a : Association) (st : AssociationStore) : AssociationStore :=
  st <| at_items := <[as_ID a := a]> (at_items st) |>.

(** ** The operations

    [Create], [SetEnabled] and [Replay] call the scheduler, whose mutex they take
    for one call at a time, so each is a sequence of calls.  [SetEnabled] and
    [Replay] hold the mutex of the store from their first call to their last;
    [Create] takes it for its last one. *)

Inductive create_phase :=
  | Creating (i : AssociationCreate)
  | CreateOff (i : AssociationCreate) (scID : string)
  | CreateStore (i : AssociationCreate) (scID : string).

(** [a] and [snap] are the association and the snapshot of the revision that the
    call has looked up. *)
Inductive enable_phase :=
  | Enabling (id : string) (enabled : bool)
  | EnableStore (a : Association) (enabled : bool).

Inductive replay_phase :=
  | Replaying (id : string) (revision : Z)
  | ReplayCreate (a snap : Association)
  | ReplayOff (a snap : Association) (scID : string)
  | ReplayStore (a snap : Association) (scID : string).

Inductive assoc_phase :=
  | InCreate (p : create_phase)
  | InEnable (p : enable_phase)
  | InReplay (p : replay_phase)
  | AssocReturned (r : result association_error Association).

(** The checks of [Create]; the input as the rest of it uses it. *)
Definition check_create (i : AssociationCreate) : result association_error AssociationCreate :=
  if blank (ac_ConfigPath i) then Err AssocConfigPath
  else
    let kind := norm (ac_TargetKind i) in
    if negb (one_of kind ["host"; "cluster"; "environment"]) then Err AssocTargetKind
    else if blank (ac_TargetName i) then Err AssocTargetName
    else Ok (mkAssociationCreate (ac_ConfigPath i) kind (ac_TargetName i) (ac_Priority i) (ac_Backend i)
               (if ac_Interval i <=? 0 then 60 * Second else ac_Interval i) (ac_Jitter i) (ac_Enabled i)).

Definition new_association (i : AssociationCreate) (scID : string) (next : Z) (now : Time) : Association :=
  mkAssociation ("assoc-" +:+ itoa next) (ac_ConfigPath i) (ac_TargetKind i) (ac_TargetName i)
    (normalizePriority (ac_Priority i)) (norm (ac_Backend i)) (ac_Interval i) (ac_Jitter i) (ac_Enabled i)
    scID 1 now now.

Definition CreateAssociation (p : create_phase) (now : Time) (sd : Scheduler) (st : AssociationStore)
    : Scheduler * AssociationStore * assoc_phase :=
  match p with
  | Creating i =>
      match check_create i with
      | Err e => (sd, st, AssocReturned (Err e))
      | Ok i =>
          let '(sd, sc) := CreateWithOptions (schedule_options (ac_ConfigPath i) (ac_Priority i) (ac_TargetKind i)
                             (ac_TargetName i) (ac_Interval i) (ac_Jitter i)) now sd in
          (sd, st, InCreate (if ac_Enabled i then CreateStore i (sc_ID sc) else CreateOff i (sc_ID sc)))
      end
  | CreateOff i scID => ((Disable scID sd).1, st, InCreate (CreateStore i scID))
  | CreateStore i scID =>
      let next := at_nextID st + 1 in
      let a := new_association i scID next now in
      (sd, add_revision "create" now a (put_association a (st <| at_nextID := next |>)), AssocReturned (Ok a))
  end.

Definition by_association_id (a b : Association) : Prop := String.le (as_ID a) (as_ID b).
#[export] Instance by_association_id_dec a b : Decision (by_association_id a b).
Proof. unfold by_association_id. apply _. Defined.

Definition ListAssociations (st : AssociationStore) : list Association :=
  merge_sort by_association_id (map_to_list (at_items st)).*2.

Definition GetAssociation (id : string) (st : AssociationStore) : result association_error Association :=
  match at_items st !! TrimSpace id with
  | Some a => Ok a
  | None => Err AssocNotFound
  end.

Definition Revisions (id : string) (st : AssociationStore) : result association_error (list AssociationRevision) :=
  match at_history st !! id with
  | Some rev => Ok rev
  | None => Err AssocNotFound
  end.

Definition switched_association (a : Association) (enabled : bool) (now : Time) : Association :=
  a <| as_Enabled := enabled |> <| as_Revision := as_Revision a + 1 |> <| as_UpdatedAt := now |>.

Definition SetEnabled (p : enable_phase) (now : Time) (sd : Scheduler) (st : AssociationStore)
    : Scheduler * AssociationStore * assoc_phase :=
  match p with
  | Enabling id enabled =>
      match at_items st !! id with
      | None => (sd, st, AssocReturned (Err AssocNotFound))
      | Some a =>
          ((if enabled then Enable (as_ScheduleID a) sd else Disable (as_ScheduleID a) sd).1, st,
           InEnable (EnableStore a enabled))
      end
  | EnableStore a enabled =>
      let a := switched_association a enabled now in
      (sd, add_revision (if enabled then "enable" else "disable") now a (put_association a st), AssocReturned (Ok a))
  end.

(** The first revision with the given number. *)
Fixpoint find_revision (revision : Z) (h : list AssociationRevision) : option AssociationRevision :=
  match h with
  | [] => None
  | r :: h => if ar_Revision r =? revision then Some r else find_revision revision h
  end.

Definition replayed_association (a snap : Association) (scID : string) (now : Time) : Association :=
  a <| as_ConfigPath := as_ConfigPath snap |> <| as_TargetKind := as_TargetKind snap |>
    <| as_TargetName := as_TargetName snap |> <| as_Priority := as_Priority snap |>
    <| as_Interval := as_Interval snap |> <| as_Jitter := as_Jitter snap |>
    <| as_Enabled := as_Enabled snap |> <| as_ScheduleID := scID |>
    <| as_Revision := as_Revision a + 1 |> <| as_UpdatedAt := now |>.

Definition Replay (p : replay_phase) (now : Time) (sd : Scheduler) (st : AssociationStore)
    : Scheduler * AssociationStore * assoc_phase :=
  match p with
  | Replaying id revision =>
      match at_items st !! id with
      | None => (sd, st, AssocReturned (Err AssocNotFound))
      | Some a =>
          match find_revision revision (default [] (at_history st !! id)) with
          | None => (sd, st, AssocReturned (Err AssocRevision))
          | Some target => ((Disable (as_ScheduleID a) sd).1, st, InReplay (ReplayCreate a (ar_Snapshot target)))
          end
      end
  | ReplayCreate a snap =>
      let '(sd, sc) := CreateWithOptions (schedule_options (as_ConfigPath snap) (as_Priority snap) (as_TargetKind snap)
                         (as_TargetName snap) (as_Interval snap) (as_Jitter snap)) now sd in
      (sd, st, InReplay (if as_Enabled snap then ReplayStore a snap (sc_ID sc) else ReplayOff a snap (sc_ID sc)))
  | ReplayOff a snap scID => ((Disable scID sd).1, st, InReplay (ReplayStore a snap scID))
  | ReplayStore a snap scID =>
      let a := replayed_association a snap scID now in
      (sd, add_revision "replay" now a (put_association a st), AssocReturned (Ok a))
  end.

(** ** The system

    Any number of calls at work, and the scheduler with its loops, the queue and
    the worker, whose own calls switch any schedule: [POST /v1/schedules/{id}/enable]
    and [disable] and the bulk operations do not ask whose schedule it is.
    [ay_switched] is not in the code: the schedules that were switched that way
    since their association last switched them. *)

Record AssocSys : Type := mkAssocSys {
  ay_sys : SchedSys;
  ay_store : AssociationStore;
  ay_locked : bool;                            (* the mutex of the store is held *)
  ay_calls : list assoc_phase;                 (* every call made *)
  ay_switched : gset string;
}.
#[export] Instance AssocSys_eta : Eta AssocSys := λ r,
  mkAssocSys (ay_sys r) (ay_store r) (ay_locked r) (ay_calls r) (ay_switched r).

Definition ay_sched (s : AssocSys) : Scheduler := ss_sched (ay_sys s).

(** The schedule of the association that a call is changing, the mutex held. *)
Definition changing (p : assoc_phase) : option string :=
  match p with
  | InEnable (EnableStore a _) | InReplay (ReplayCreate a _) | InReplay (ReplayOff a _ _)
  | InReplay (ReplayStore a _ _) => Some (as_ScheduleID a)
  | _ => None
  end.

Definition takes_mutex (p : assoc_phase) : bool :=
  match p with
  | InCreate (CreateStore _ _) | InEnable (Enabling _ _) | InReplay (Replaying _ _) => true
  | _ => false
  end.

Definition next_call (p : assoc_phase) (now : Time) (sd : Scheduler) (st : AssociationStore)
    : Scheduler * AssociationStore * assoc_phase :=
  match p with
  | InCreate p => CreateAssociation p now sd st
  | InEnable p => SetEnabled p now sd st
  | InReplay p => Replay p now sd st
  | AssocReturned _ => (sd, st, p)
  end.

(** The schedules whose switch differs. *)
Definition switched_in (m m' : gmap string Schedule) : gset string :=
  filter (λ id, sc_Enabled <$> m' !! id ≠ sc_Enabled <$> m !! id) (dom m).

(** The schedule that an operation switches in its call from [p] to [p']. *)
Definition own_switch (p p' : assoc_phase) : gset string :=
  match p, p' with
  | InCreate (CreateOff _ scID), _ | InReplay (ReplayOff _ _ scID), _ => {[ scID ]}
  | _, InEnable (EnableStore a _) | _, InReplay (ReplayCreate a _) => {[ as_ScheduleID a ]}
  | _, _ => ∅
  end.

(** The next call of operation [n]; [None] when it waits for the mutex or has
    returned. *)
Definition assoc_call (n : nat) (now : Time) (s : AssocSys) : option AssocSys :=
  match ay_calls s !! n with
  | None | Some (AssocReturned _) => None
  | Some p =>
      if takes_mutex p && ay_locked s then None
      else
        let '(sd, st, p') := next_call p now (ay_sched s) (ay_store s) in
        Some (mkAssocSys ((ay_sys s) <| ss_sched := sd |>) st
                (if changing p' then true else if changing p then false else ay_locked s)
                (<[n := p']> (ay_calls s)) (ay_switched s ∖ own_switch p p'))
  end.

Definition call_begins (p : assoc_phase) : bool :=
  match p with
  | InCreate (Creating _) | InEnable (Enabling _ _) | InReplay (Replaying _ _) => true
  | _ => false
  end.

Inductive assoc_step `{TimeFormat} : AssocSys → AssocSys → Prop :=
  | assoc_around s s' :
      sched_step (ay_sys s) s' →
      assoc_step s (s <| ay_sys := s' |>
        <| ay_switched := ay_switched s ∪ switched_in (sd_schedules (ay_sched s)) (sd_schedules (ss_sched s')) |>)
  | assoc_begin p s : call_begins p = true → assoc_step s (s <| ay_calls := ay_calls s ++ [p] |>)
  | assoc_next n now s s' : assoc_call n now s = Some s' → assoc_step s s'.

Definition initial_assoc (buffer : Z) (now : Time) : AssocSys :=
  mkAssocSys (initial_sched buffer now) NewAssociationStore false [] ∅.

Definition assoc_reachable `{TimeFormat} (s : AssocSys) : Prop :=
  ∃ buffer now, rtc assoc_step (initial_assoc buffer now) s.
