(* ===== verification/AssociationSpec.v ===== *)
(** * What an association guarantees *)

From S2P Require Import Prelude Queue QueueInvariant QueueSpec Scheduler SchedulerSpec Association.

(** ** What the scheduler does to its schedules *)

Definition switched (b : bool) (sc : Schedule) : Schedule := sc <| sc_Enabled := b |>.

Lemma Disable_schedules id s : sd_schedules (Disable id s).1 = alter (switched false) id (sd_schedules s).
Proof.
  unfold Disable. apply map_eq. intros i. destruct (sd_schedules s !! id) as [sc|] eqn:Hsc.
  - cbn [sd_cancel update_field]. destruct (decide (i = id)) as [->|Hne].
    + rewrite lookup_alter_eq, Hsc. destruct (sd_cancel s !! id); cbn; by rewrite lookup_insert_eq.
    + rewrite lookup_alter_ne by done. destruct (sd_cancel s !! id); cbn; by rewrite lookup_insert_ne.
  - cbn. destruct (decide (i = id)) as [->|Hne]; [by rewrite lookup_alter_eq, Hsc|by rewrite lookup_alter_ne].
Qed.

Lemma Enable_schedules id s : sd_schedules (Enable id s).1 = alter (switched true) id (sd_schedules s).
Proof.
  unfold Enable. apply map_eq. intros i. destruct (sd_schedules s !! id) as [sc|] eqn:Hsc.
  - destruct (sc_Enabled sc) eqn:He; cbn [fst]; [|rewrite startLocked_schedules; cbn].
    + destruct (decide (i = id)) as [->|Hne]; [|by rewrite lookup_alter_ne].
      rewrite lookup_alter_eq, Hsc. cbn. f_equal. destruct sc; cbn in *. by subst.
    + destruct (decide (i = id)) as [->|Hne].
      * by rewrite lookup_alter_eq, Hsc, lookup_insert_eq.
      * by rewrite lookup_alter_ne, lookup_insert_ne.
  - cbn. destruct (decide (i = id)) as [->|Hne]; [by rewrite lookup_alter_eq, Hsc|by rewrite lookup_alter_ne].
Qed.

Lemma CreateWithOptions_schedules opts t s :
  sched_ok s → sd_nextID s < max_int64 →
  let '(s', sc) := CreateWithOptions opts t s in
  sd_schedules s' = <[sc_ID sc := sc]> (sd_schedules s) ∧ sd_schedules s !! sc_ID sc = None ∧
  sd_nextID s' = sd_nextID s + 1.
Proof.
  intros [Hok Hids] Hmax. unfold CreateWithOptions. cbn zeta. split_and!; [done| |done]. cbn [sc_ID].
  destruct (_ !! _) as [sc|] eqn:Hsc; [|done]. pose proof (so_id _ Hok ("sched-" +:+ itoa (sd_nextID s + 1))) as Hid.
  unfold skeleton in Hid. cbn [sk_enabled sk_next] in Hid. rewrite lookup_fmap, Hsc in Hid. cbn in Hid.
  destruct (Hid _ eq_refl) as (n & [= Heq] & Hn). pose proof (so_next _ Hok) as Hnext. cbn in Hnext.
  apply itoa_inj in Heq; unfold max_int64 in *; lia.
Qed.

Lemma Disable_next id s : sd_nextID (Disable id s).1 = sd_nextID s.
Proof.
  unfold Disable. destruct (sd_schedules s !! id); [|done]. cbn [sd_cancel update_field]. by destruct (sd_cancel s !! id).
Qed.

Lemma Enable_next id s : sd_nextID (Enable id s).1 = sd_nextID s.
Proof. unfold Enable. destruct (sd_schedules s !! id) as [sc|]; [|done]. by destruct (sc_Enabled sc). Qed.

(** ** What a step leaves of a schedule *)

(** All but the switch and the times of the runs. *)
Definition same_setup (x y : Schedule) : Prop :=
  sc_ConfigPath y = sc_ConfigPath x ∧ sc_Priority y = sc_Priority x ∧ sc_Interval y = sc_Interval x ∧
  sc_Jitter y = sc_Jitter x ∧ sc_Host y = sc_Host x ∧ sc_Cluster y = sc_Cluster x ∧
  sc_Environment y = sc_Environment x.
#[export] Instance same_setup_preorder : PreOrder same_setup.
Proof.
  split; [intros x; by split_and!|]. intros x y z (H1 & H2 & H3 & H4 & H5 & H6 & H7) (K1 & K2 & K3 & K4 & K5 & K6 & K7).
  unfold same_setup. by rewrite K1, K2, K3, K4, K5, K6, K7.
Qed.

Definition keeps_setup (m m' : gmap string Schedule) : Prop :=
  ∀ id sc, m !! id = Some sc → ∃ sc', m' !! id = Some sc' ∧ same_setup sc sc'.

Lemma keeps_setup_refl m : keeps_setup m m.
Proof. intros id sc Hsc. by exists sc. Qed.

Lemma keeps_setup_alter f i m : (∀ sc, same_setup sc (f sc)) → keeps_setup m (alter f i m).
Proof.
  intros Hf id sc Hsc. destruct (decide (i = id)) as [->|Hne].
  - exists (f sc). by rewrite lookup_alter_eq, Hsc.
  - exists sc. by rewrite lookup_alter_ne.
Qed.

Lemma keeps_setup_insert i sc' m : (∀ sc, m !! i = Some sc → same_setup sc sc') → keeps_setup m (<[i := sc']> m).
Proof.
  intros Hf id sc Hsc. destruct (decide (i = id)) as [->|Hne].
  - exists sc'. rewrite lookup_insert_eq. split; [done|by apply Hf].
  - exists sc. by rewrite lookup_insert_ne.
Qed.

Lemma switched_setup b sc : same_setup sc (switched b sc).
Proof. by split_and!. Qed.

Lemma run_sched_op_setup o now s :
  sched_ok s → sd_nextID s < max_int64 → keeps_setup (sd_schedules s) (sd_schedules (run_sched_op o now s)).
Proof.
  intros Hok Hmax. destruct o; cbn [run_sched_op]; try apply keeps_setup_refl.
  - pose proof (CreateWithOptions_schedules opts now s Hok Hmax) as Hs.
    destruct (CreateWithOptions opts now s) as [s' sc]. destruct Hs as (Hs & Hnone & _). cbn [fst].
    rewrite Hs. apply keeps_setup_insert. congruence.
  - rewrite Enable_schedules. apply keeps_setup_alter, switched_setup.
  - rewrite Disable_schedules. apply keeps_setup_alter, switched_setup.
  - unfold SetCapacity. destruct (0 <? maxBacklog), (0 <? maxExecutionCost); apply keeps_setup_refl.
  - unfold SetHostHealth. destruct (eqs _ ""); apply keeps_setup_refl.
Qed.

Lemma record_times_setup id now s : keeps_setup (sd_schedules s) (sd_schedules (record_times id now s)).
Proof.
  unfold record_times. destruct (sd_schedules s !! id) as [sc|] eqn:Hsc; [|apply keeps_setup_refl].
  apply keeps_setup_insert. intros x Hx. rewrite Hsc in Hx. by injection Hx as <-.
Qed.

Lemma loop_step_setup `{TimeFormat} n c now s s' :
  loop_step n c now s = Some s' → keeps_setup (sd_schedules (ss_sched s)) (sd_schedules (ss_sched s')).
Proof.
  unfold loop_step. destruct (sd_loops _ !! n) as [l|]; [|done].
  destruct (sd_schedules _ !! lp_schedule l) as [sc|], (lp_phase l) as [|g| | |]; try done.
  - destruct c; [intros [= <-]; apply keeps_setup_refl|]. destruct (lp_cancelled l); [intros [= <-]; apply keeps_setup_refl|done].
  - intros [= <-]. apply keeps_setup_refl.
  - destruct (Enqueue _ _ _ _ _ _) as [q r]. intros [= <-]. apply keeps_setup_refl.
  - intros [= <-]. apply record_times_setup.
Qed.

Lemma sched_step_setup `{TimeFormat} s s' :
  sched_step s s' → sched_ok (ss_sched s) → sd_nextID (ss_sched s) < max_int64 →
  keeps_setup (sd_schedules (ss_sched s)) (sd_schedules (ss_sched s')).
Proof.
  intros Hst Hok Hmax. destruct Hst as [s sys Hst|o now s|n s Hn|n c now s s' Hst].
  - apply keeps_setup_refl.
  - by apply run_sched_op_setup.
  - apply keeps_setup_refl.
  - by eapply loop_step_setup.
Qed.

(** Schedule [i] keeps its setup in the step from [m] to [m'], and its switch
    unless it is exempt: by [w] before the step, by [w'] after it. *)
Definition carries (m : gmap string Schedule) (w : string → Prop) (m' : gmap string Schedule) (w' : string → Prop)
    (i : string) : Prop :=
  (w i → w' i) ∧
  ∀ sc, m !! i = Some sc → ∃ sc', m' !! i = Some sc' ∧ same_setup sc sc' ∧ (¬ w' i → sc_Enabled sc' = sc_Enabled sc).

Lemma carries_same m (w w' : string → Prop) i : (w i → w' i) → carries m w m w' i.
Proof. intros Hw. split; [done|]. intros sc Hsc. by exists sc. Qed.

Lemma carries_alter b j m (w w' : string → Prop) i :
  (w i → w' i) → (j = i → w' i) → carries m w (alter (switched b) j m) w' i.
Proof.
  intros Hw Hj. split; [done|]. intros sc Hsc. destruct (decide (j = i)) as [->|Hne].
  - exists (switched b sc). rewrite lookup_alter_eq, Hsc. split_and!; [done|apply switched_setup|naive_solver].
  - exists sc. by rewrite lookup_alter_ne.
Qed.

Lemma carries_insert j sc' m (w w' : string → Prop) i :
  m !! j = None → (w i → w' i) → carries m w (<[j := sc']> m) w' i.
Proof.
  intros Hj Hw. split; [done|]. intros sc Hsc. exists sc. by rewrite lookup_insert_ne by congruence.
Qed.

Lemma carries_switched m m' (w w' : string → Prop) i :
  keeps_setup m m' → (w i → w' i) → (i ∈ switched_in m m' → w' i) → carries m w m' w' i.
Proof.
  intros Hk Hw Hs. split; [done|]. intros sc Hsc. destruct (Hk i sc Hsc) as (sc' & Hsc' & Hset). exists sc'.
  split_and!; [done|done|]. intros Hn. destruct (decide (sc_Enabled sc' = sc_Enabled sc)) as [|Hne]; [done|].
  exfalso. apply Hn, Hs. unfold switched_in. rewrite elem_of_filter, elem_of_dom, Hsc, Hsc'.
  split; [cbn; congruence|by exists sc].
Qed.

(** ** An association and its schedule *)

Definition targets (kind k name : string) : string := if eqs kind k then name else "".

Definition follows (a : Association) (sc : Schedule) : Prop :=
  sc_ConfigPath sc = as_ConfigPath a ∧ sc_Priority sc = as_Priority a ∧ sc_Interval sc = as_Interval a ∧
  sc_Jitter sc = Z.max 0 (as_Jitter a) ∧ sc_Host sc = targets (as_TargetKind a) "host" (as_TargetName a) ∧
  sc_Cluster sc = targets (as_TargetKind a) "cluster" (as_TargetName a) ∧
  sc_Environment sc = targets (as_TargetKind a) "environment" (as_TargetName a).

(** What the checks of [Create] establish. *)
Definition well_formed (a : Association) : Prop :=
  0 < as_Interval a ∧ normalizePriority (as_Priority a) = as_Priority a ∧
  as_TargetKind a ∈ ["host"; "cluster"; "environment"].

Lemma follows_setup a sc sc' : same_setup sc sc' → follows a sc → follows a sc'.
Proof. intros (H1 & H2 & H3 & H4 & H5 & H6 & H7). unfold follows. by rewrite H1, H2, H3, H4, H5, H6, H7. Qed.

Lemma apply_target kind name o :
  kind ∈ ["host"; "cluster"; "environment"] → so_Host o = "" → so_Cluster o = "" → so_Environment o = "" →
  let o' := applyTargetToScheduleOptions kind name o in
  so_ConfigPath o' = so_ConfigPath o ∧ so_Priority o' = so_Priority o ∧ so_Interval o' = so_Interval o ∧
  so_Jitter o' = so_Jitter o ∧ so_Host o' = targets kind "host" name ∧ so_Cluster o' = targets kind "cluster" name ∧
  so_Environment o' = targets kind "environment" name.
Proof. rewrite !elem_of_cons, elem_of_nil. by intros [->|[->|[->|[]]]]. Qed.

(** [a] asks for the schedule with these options. *)
Definition asks (a : Association) (configPath priority kind name : string) (interval jitter : Duration) : Prop :=
  as_ConfigPath a = configPath ∧ as_Priority a = normalizePriority priority ∧ as_Interval a = interval ∧
  as_Jitter a = jitter ∧ as_TargetKind a = kind ∧ as_TargetName a = name.

Lemma create_schedule_spec configPath priority kind name interval jitter t s :
  sched_ok s → sd_nextID s < max_int64 → 0 < interval → kind ∈ ["host"; "cluster"; "environment"] →
  let '(s', sc) := CreateWithOptions (schedule_options configPath priority kind name interval jitter) t s in
  sched_ok s' ∧ sd_schedules s !! sc_ID sc = None ∧ sd_schedules s' = <[sc_ID sc := sc]> (sd_schedules s) ∧
  sc_Enabled sc = true ∧ ∀ a, asks a configPath priority kind name interval jitter → follows a sc.
Proof.
  intros Hok Hmax Hint Hkind. set (opts := schedule_options _ _ _ _ _ _).
  pose proof (CreateWithOptions_schedules opts t s Hok Hmax) as Hs.
  pose proof (CreateWithOptions_ok opts t s Hok Hmax) as Hok'.
  destruct (CreateWithOptions opts t s) as [s1 sc] eqn:Hc. destruct Hs as (Hs & Hfresh & _). cbn [fst] in Hok'.
  split_and!; [done..|unfold CreateWithOptions in Hc; by injection Hc as _ <-|].
  intros a (<- & Hp & <- & <- & <- & <-). unfold follows. rewrite Hp.
  destruct (apply_target (as_TargetKind a) (as_TargetName a)
    (mkScheduleOptions (as_ConfigPath a) priority 0 "" "" "" (as_Interval a) (as_Jitter a)))
    as (H1 & H2 & H3 & H4 & H5 & H6 & H7); [done..|]. unfold schedule_options in opts. fold opts in H1, H2, H3, H4, H5, H6, H7.
  unfold CreateWithOptions in Hc. rewrite H3, H4 in Hc. cbn [so_Interval so_Jitter] in Hc.
  rewrite (proj2 (Z.leb_gt _ _) Hint) in Hc. injection Hc as _ <-. cbn.
  split_and!; [done|by rewrite H2|done|destruct (Z.ltb_spec (as_Jitter a) 0); lia|done..].
Qed.

Lemma find_revision_in revision h r : find_revision revision h = Some r → r ∈ h.
Proof.
  induction h as [|x h IH]; [done|]. cbn. destruct (_ =? _); [intros [= ->]; by left|]. intros Hr. right. by apply IH.
Qed.

(** ** The associations and their schedules

    [x] holds of the schedules whose switch is not claimed to be right. *)

Definition revision_schedule (r : AssociationRevision) : string := as_ScheduleID (ar_Snapshot r).

Definition switch_is (b : bool) (m : gmap string Schedule) (x : string → Prop) (i : string) : Prop :=
  ¬ x i → sc_Enabled <$> m !! i = Some b.

(** The history [h] of [a], whose schedules are in [m]: numbered from 1, ends with
    [a], and every schedule but the current one is disabled. *)
Record history_ok (m : gmap string Schedule) (x : string → Prop) (a : Association) (h : list AssociationRevision) : Prop := {
  ho_last : ar_Snapshot <$> last h = Some a;
  ho_count : as_Revision a = Z.of_nat (length h);
  ho_number i r : h !! i = Some r → ar_Revision r = Z.of_nat (S i);
  ho_form r : r ∈ h → well_formed (ar_Snapshot r);
  ho_known r : r ∈ h → is_Some (m !! revision_schedule r);
  ho_old r : r ∈ h → revision_schedule r ≠ as_ScheduleID a → switch_is false m x (revision_schedule r);
  ho_follows : ∃ sc, m !! as_ScheduleID a = Some sc ∧ follows a sc;
  ho_switch : switch_is (as_Enabled a) m x (as_ScheduleID a);
}.

Definition in_history (st : AssociationStore) (id i : string) : Prop :=
  ∃ h r, at_history st !! id = Some h ∧ r ∈ h ∧ revision_schedule r = i.

Record assoc_ok (m : gmap string Schedule) (x : string → Prop) (st : AssociationStore) : Prop := {
  ao_item id a : at_items st !! id = Some a → as_ID a = id ∧
    (∃ n, id = "assoc-" +:+ itoa n ∧ 0 < n ≤ at_nextID st) ∧
    ∃ h, at_history st !! id = Some h ∧ history_ok m x a h;
  ao_history id h : at_history st !! id = Some h → is_Some (at_items st !! id);
  ao_owner id1 id2 i : in_history st id1 i → in_history st id2 i → id1 = id2;
  ao_next : 0 ≤ at_nextID st;
}.

Lemma switch_is_carries b m x m' x' i : carries m x m' x' i → switch_is b m x i → switch_is b m' x' i.
Proof.
  intros [Hx Hc] Hs Hx'. assert (sc_Enabled <$> m !! i = Some b) as (sc & Hsc & ->)%fmap_Some by (apply Hs; naive_solver).
  destruct (Hc sc Hsc) as (y & -> & _ & Hy). cbn. by rewrite Hy.
Qed.

Lemma history_current m x a h : history_ok m x a h → ∃ r, r ∈ h ∧ ar_Snapshot r = a.
Proof.
  intros Hok. pose proof (ho_last _ _ _ _ Hok) as Hl. destruct (last h) as [r|] eqn:Hlast; [|done].
  injection Hl as Hl. exists r. split; [by apply last_Some_elem_of|done].
Qed.

Lemma history_ok_carries m x m' x' a h :
  (∀ r, r ∈ h → carries m x m' x' (revision_schedule r)) → history_ok m x a h → history_ok m' x' a h.
Proof.
  intros Hc Hok. destruct (history_current _ _ _ _ Hok) as (ra & Hra & Hsnap).
  assert (revision_schedule ra = as_ScheduleID a) as Hcur by (unfold revision_schedule; by rewrite Hsnap).
  pose proof (Hc ra Hra) as Hca. rewrite Hcur in Hca.
  destruct Hok as [Hl Hn Hnum Hf Hk Ho (sc & Hsc & Hfo) Hs]. split; try done.
  - intros r Hr. destruct (Hk r Hr) as [y Hy]. destruct (proj2 (Hc r Hr) y Hy) as (y' & Hy' & _). by exists y'.
  - intros r Hr Hne. eapply switch_is_carries; [by apply Hc|by apply Ho].
  - destruct (proj2 Hca sc Hsc) as (sc' & Hsc' & Hset & _). exists sc'. split; [done|by eapply follows_setup].
  - eapply switch_is_carries; [exact Hca|exact Hs].
Qed.

Lemma assoc_ok_carries m x m' x' st :
  (∀ id i, in_history st id i → carries m x m' x' i) → assoc_ok m x st → assoc_ok m' x' st.
Proof.
  intros Hc [Hi Hh Ho Hn]. split; try done. intros id a Ha. destruct (Hi id a Ha) as (Hid & Hname & h & Hhist & Hok).
  split_and!; [done|done|]. exists h. split; [done|]. eapply history_ok_carries; [|exact Hok].
  intros r Hr. apply (Hc id). by exists h, r.
Qed.

Lemma assoc_ok_current m x st id a : assoc_ok m x st → at_items st !! id = Some a → in_history st id (as_ScheduleID a).
Proof.
  intros Hst Ha. destruct (ao_item _ _ _ Hst _ _ Ha) as (_ & _ & h & Hh & Hok).
  destruct (history_current _ _ _ _ Hok) as (r & Hr & Hsnap). exists h, r. unfold revision_schedule. by rewrite Hsnap.
Qed.

Lemma assoc_ok_known m x st id i : assoc_ok m x st → in_history st id i → is_Some (m !! i).
Proof.
  intros Hst (h & r & Hh & Hr & <-). destruct (ao_history _ _ _ Hst _ _ Hh) as [a Ha].
  destruct (ao_item _ _ _ Hst _ _ Ha) as (_ & _ & h' & Hh' & Hok). rewrite Hh in Hh'. injection Hh' as <-.
  by apply (ho_known _ _ _ _ Hok).
Qed.

(** ** Recording a revision *)

Lemma in_history_add action now a st id i :
  in_history (add_revision action now a st) id i ↔ in_history st id i ∨ id = as_ID a ∧ i = as_ScheduleID a.
Proof.
  unfold in_history, add_revision. cbn. split.
  - intros (h & r & Hh & Hr & <-). apply lookup_insert_Some in Hh as [[<- <-]|[Hne Hh]]; [|left; by exists h, r].
    apply elem_of_app in Hr as [Hr| ->%list_elem_of_singleton]; [left|by right].
    destruct (at_history st !! as_ID a) as [h|]; [by exists h, r|by apply elem_of_nil in Hr].
  - intros [(h & r & Hh & Hr & <-)|[-> ->]].
    + destruct (decide (as_ID a = id)) as [<-|Hne]; [|exists h, r; by rewrite lookup_insert_ne].
      exists (h ++ [mkRevision (as_Revision a) action now a]), r. rewrite lookup_insert_eq, Hh.
      split_and!; [done|apply elem_of_app; by left|done].
    + eexists _, (mkRevision (as_Revision a) action now a). rewrite lookup_insert_eq.
      split_and!; [done|apply elem_of_app; right; by apply list_elem_of_singleton|done].
Qed.

Lemma in_history_put a st id i : in_history (put_association a st) id i ↔ in_history st id i.
Proof. done. Qed.

(** Schedule [i] belongs to association [id] or to none. *)
Definition free_for (st : AssociationStore) (id i : string) : Prop := ∀ id', in_history st id' i → id' = id.

Lemma record_owner st action now a :
  (∀ id1 id2 i, in_history st id1 i → in_history st id2 i → id1 = id2) → free_for st (as_ID a) (as_ScheduleID a) →
  ∀ id1 id2 i, in_history (add_revision action now a (put_association a st)) id1 i →
    in_history (add_revision action now a (put_association a st)) id2 i → id1 = id2.
Proof.
  intros Ho Hf id1 id2 i [H1|[-> ->]]%in_history_add [H2|[-> E2]]%in_history_add; try done.
  - by eapply Ho.
  - subst i. by apply Hf.
  - symmetry. by apply Hf.
Qed.

(** Association [a] becomes [a'] and its revision is recorded: before, its
    schedule was exempt.  [a'] has the same schedule or a new one, and the one of
    [a] is disabled when it is given up. *)
Record revises (m : gmap string Schedule) (x w : string → Prop) (st : AssociationStore) (a a' : Association) : Prop := {
  rv_id : as_ID a' = as_ID a;
  rv_count : as_Revision a' = as_Revision a + 1;
  rv_form : well_formed a';
  rv_follows : ∃ sc, m !! as_ScheduleID a' = Some sc ∧ follows a' sc;
  rv_switch : switch_is (as_Enabled a') m w (as_ScheduleID a');
  rv_exempt i : x i → w i ∨ i = as_ScheduleID a;
  rv_schedule : as_ScheduleID a' = as_ScheduleID a ∨
    (∀ id, ¬ in_history st id (as_ScheduleID a')) ∧ switch_is false m w (as_ScheduleID a);
}.

Lemma history_snoc m x w st a a' h action now :
  history_ok m x a h → revises m x w st a a' →
  history_ok m w a' (h ++ [mkRevision (as_Revision a') action now a']).
Proof.
  intros [Hl Hc Hnum Hf Hk Hold _ _] [Hid Hrev Hwf Hfol Hsw Hx Hsched]. split; try done.
  - by rewrite last_snoc.
  - rewrite length_app. cbn. lia.
  - intros i r Hr. apply lookup_app_Some in Hr as [Hr|[Hlen Hr]]; [by apply Hnum|].
    apply list_lookup_singleton_Some in Hr as [Hi0 <-]. cbn. lia.
  - intros r [Hr| ->%list_elem_of_singleton]%elem_of_app; [by apply Hf|done].
  - intros r [Hr| ->%list_elem_of_singleton]%elem_of_app; [by apply Hk|]. destruct Hfol as (y & Hy & _). by exists y.
  - intros r [Hr| ->%list_elem_of_singleton]%elem_of_app Hne; [|done].
    destruct (decide (revision_schedule r = as_ScheduleID a)) as [Heq|Hne'].
    + rewrite Heq in Hne |- *. destruct Hsched as [Hs|[_ Hoff]]; [congruence|done].
    + intros Hw. apply Hold; [done..|]. intros [?|?]%Hx; done.
Qed.

Lemma record_ok m x w st a a' action now :
  assoc_ok m x st → at_items st !! as_ID a = Some a → revises m x w st a a' →
  assoc_ok m w (add_revision action now a' (put_association a' st)).
Proof.
  intros Hst Ha Hrv. pose proof Hst as [Hi Hh Ho Hn].
  destruct (Hi _ _ Ha) as (_ & Hname & h & Hhist & Hok). pose proof (history_snoc _ _ _ _ _ _ _ action now Hok Hrv) as Hok'.
  pose proof (assoc_ok_current _ _ _ _ _ Hst Ha) as Hcur. destruct Hrv as [Hid Hrev Hwf Hfol Hsw Hx Hsched].
  split.
  - intros id y. cbn. rewrite Hid, lookup_insert_Some, Hhist. intros [[<- <-]|[Hne Hy]].
    + split_and!; [done|done|]. eexists. by rewrite lookup_insert_eq.
    + destruct (Hi _ _ Hy) as (Hidy & Hny & hy & Hhy & Hoky). split_and!; [done|done|]. exists hy.
      rewrite lookup_insert_ne by done. split; [done|]. eapply history_ok_carries; [|exact Hoky].
      intros r Hr. apply carries_same. intros [Hw|Heq]%Hx; [done|]. exfalso. apply Hne.
      eapply (Ho _ _ (as_ScheduleID a)); [done|]. by exists hy, r.
  - intros id hx. cbn. rewrite Hid, lookup_insert_is_Some, lookup_insert_Some.
    intros [[-> _]|[Hne Hhx]]; [by left|right]. split; [done|by eapply Hh].
  - apply record_owner; [done|]. intros id' Hin. rewrite Hid. destruct Hsched as [Heq|[Hnew _]]; [|by destruct (Hnew id')].
    rewrite Heq in Hin. by eapply Ho.
  - done.
Qed.

(** A new association, with a schedule that no other one has. *)
Lemma create_ok m x st a now :
  assoc_ok m x st → at_nextID st < max_int64 → as_ID a = "assoc-" +:+ itoa (at_nextID st + 1) → as_Revision a = 1 →
  well_formed a → (∃ sc, m !! as_ScheduleID a = Some sc ∧ follows a sc) →
  switch_is (as_Enabled a) m x (as_ScheduleID a) → (∀ id, ¬ in_history st id (as_ScheduleID a)) →
  assoc_ok m x (add_revision "create" now a (put_association a (st <| at_nextID := at_nextID st + 1 |>))).
Proof.
  intros Hst Hmax Hid Hrev Hwf Hfol Hsw Hfresh. pose proof Hst as [Hi Hh Ho Hn].
  assert (at_items st !! as_ID a = None) as Hnew.
  { destruct (at_items st !! as_ID a) as [y|] eqn:Hy; [|done]. destruct (Hi _ _ Hy) as (_ & (n & Heq & Hb) & _).
    rewrite Hid in Heq. injection Heq as Heq. apply itoa_inj in Heq; unfold max_int64 in *; lia. }
  assert (at_history st !! as_ID a = None) as Hnewh.
  { destruct (at_history st !! as_ID a) as [y|] eqn:Hy; [|done]. apply Hh in Hy as [z Hz]. congruence. }
  set (st1 := st <| at_nextID := at_nextID st + 1 |>). split.
  - intros id y. cbn. rewrite Hnewh, lookup_insert_Some. intros [[<- <-]|[Hne Hy]].
    + split_and!; [done|exists (at_nextID st + 1); split; [done|lia]|]. exists [mkRevision (as_Revision a) "create" now a].
      rewrite lookup_insert_eq. split; [done|].
      assert (∀ r, r ∈ [mkRevision (as_Revision a) "create" now a] → r = mkRevision (as_Revision a) "create" now a) as Hone
        by (by intros r ->%list_elem_of_singleton).
      destruct Hfol as (sc & Hsc & Hfo). split; try done.
      * intros [|k] r; [|done]. intros [= <-]. exact Hrev.
      * by intros r ->%Hone.
      * intros r ->%Hone. by exists sc.
      * by intros r ->%Hone.
      * by exists sc.
    + destruct (Hi _ _ Hy) as (Hidy & (n & ? & ?) & hy & Hhy & Hoky).
      split_and!; [done|exists n; split; [done|lia]|]. exists hy. by rewrite lookup_insert_ne.
  - intros id hx. cbn. rewrite lookup_insert_is_Some, lookup_insert_Some.
    intros [[-> _]|[Hne Hhx]]; [by left|right]. split; [done|by eapply Hh].
  - apply record_owner; [exact Ho|]. intros id' Hin. by destruct (Hfresh id').
  - cbn. lia.
Qed.

(** ** The calls at work *)

(** The schedule a call has made and not yet recorded. *)
Definition prepared (p : assoc_phase) : option string :=
  match p with
  | InCreate (CreateOff _ scID) | InCreate (CreateStore _ scID)
  | InReplay (ReplayOff _ _ scID) | InReplay (ReplayStore _ _ scID) => Some scID
  | _ => None
  end.

Definition made (m : gmap string Schedule) (a : Association) (i : string) : Prop := ∃ sc, m !! i = Some sc ∧ follows a sc.

Definition create_input_ok (i : AssociationCreate) : Prop := well_formed (new_association i "" 0 0).

Definition phase_ok (m : gmap string Schedule) (w : string → Prop) (st : AssociationStore) (p : assoc_phase) : Prop :=
  match p with
  | InCreate (CreateOff i scID) => create_input_ok i ∧ made m (new_association i scID 0 0) scID ∧ ac_Enabled i = false
  | InCreate (CreateStore i scID) =>
      create_input_ok i ∧ made m (new_association i scID 0 0) scID ∧ switch_is (ac_Enabled i) m w scID
  | InEnable (EnableStore a b) => at_items st !! as_ID a = Some a ∧ switch_is b m w (as_ScheduleID a)
  | InReplay (ReplayCreate a snap) =>
      at_items st !! as_ID a = Some a ∧ well_formed snap ∧ switch_is false m w (as_ScheduleID a)
  | InReplay (ReplayOff a snap scID) =>
      at_items st !! as_ID a = Some a ∧ well_formed snap ∧ switch_is false m w (as_ScheduleID a) ∧
      made m snap scID ∧ as_Enabled snap = false
  | InReplay (ReplayStore a snap scID) =>
      at_items st !! as_ID a = Some a ∧ well_formed snap ∧ switch_is false m w (as_ScheduleID a) ∧
      made m snap scID ∧ switch_is (as_Enabled snap) m w scID
  | _ => True
  end.

Lemma made_carries m w m' w' a i : carries m w m' w' i → made m a i → made m' a i.
Proof.
  intros [_ Hc] (sc & Hsc & Hf). destruct (Hc sc Hsc) as (sc' & Hsc' & Hs & _). exists sc'.
  split; [done|by eapply follows_setup].
Qed.

Lemma phase_ok_carries m w m' w' st p :
  (∀ i, prepared p = Some i ∨ changing p = Some i → carries m w m' w' i) → phase_ok m w st p → phase_ok m' w' st p.
Proof.
  intros Hc. destruct p as [[]|[]|[]|]; cbn in *; try done; intros; destruct_and?; split_and?; try done;
    ((eapply made_carries || eapply switch_is_carries); [apply Hc; by auto|done]).
Qed.

(** Without the mutex, a call does not depend on the store. *)
Lemma phase_ok_store m w st st' p : changing p = None → phase_ok m w st p → phase_ok m w st' p.
Proof. by destruct p as [[]|[]|[]|]. Qed.

(** A schedule is exempt that was switched directly, or that is being changed. *)
Definition exempt (s : AssocSys) (i : string) : Prop :=
  i ∈ ay_switched s ∨ ∃ n p, ay_calls s !! n = Some p ∧ changing p = Some i.

Record assoc_inv (s : AssocSys) : Prop := {
  ai_sched : sched_ok (ay_sched s);
  ai_ok : assoc_ok (sd_schedules (ay_sched s)) (exempt s) (ay_store s);
  ai_phase n p : ay_calls s !! n = Some p → phase_ok (sd_schedules (ay_sched s)) (.∈ ay_switched s) (ay_store s) p;
  ai_prepared n1 n2 p1 p2 i : ay_calls s !! n1 = Some p1 → ay_calls s !! n2 = Some p2 →
    prepared p1 = Some i → prepared p2 = Some i → n1 = n2;
  ai_fresh n p i id : ay_calls s !! n = Some p → prepared p = Some i → ¬ in_history (ay_store s) id i;
  ai_mutex n p i : ay_calls s !! n = Some p → changing p = Some i →
    ay_locked s = true ∧ ∀ n' p' i', ay_calls s !! n' = Some p' → changing p' = Some i' → n' = n;
}.

(** The state after call [n] went from [p] to [p']. *)
Definition after_call (s : AssocSys) (n : nat) (p p' : assoc_phase) (sd : Scheduler) (st : AssociationStore) : AssocSys :=
  mkAssocSys ((ay_sys s) <| ss_sched := sd |>) st (if changing p' then true else if changing p then false else ay_locked s)
    (<[n := p']> (ay_calls s)) (ay_switched s ∖ own_switch p p').

Lemma calls_insert (l : list assoc_phase) n p q k r :
  l !! n = Some p → <[n := q]> l !! k = Some r → (k = n ∧ r = q) ∨ (k ≠ n ∧ l !! k = Some r).
Proof. intros Hn Hk. apply list_lookup_insert_Some in Hk as [(-> & -> & _)|[Hne Hk]]; [by left|right]. by split. Qed.

Lemma exempt_at s n p i : ay_calls s !! n = Some p → changing p = Some i → exempt s i.
Proof. intros Hn Hb. right. by exists n, p. Qed.

(** A call that holds the mutex is changing the present schedule of an association. *)
Lemma changing_current s n p i :
  assoc_inv s → ay_calls s !! n = Some p → changing p = Some i → ∃ a, at_items (ay_store s) !! as_ID a = Some a ∧ as_ScheduleID a = i.
Proof.
  intros Hinv Hn Hb. pose proof (ai_phase s Hinv n p Hn) as Hp.
  destruct p as [[]|[]|[]|]; try done; injection Hb as <-; cbn in Hp; destruct_and? Hp; by eexists.
Qed.

Lemma changing_history s n p i :
  assoc_inv s → ay_calls s !! n = Some p → changing p = Some i → ∃ id, in_history (ay_store s) id i.
Proof.
  intros Hinv Hn Hb. destruct (changing_current s n p i Hinv Hn Hb) as (a & Ha & <-). exists (as_ID a).
  by eapply assoc_ok_current; [apply Hinv|].
Qed.

Lemma prepared_made s n p i : assoc_inv s → ay_calls s !! n = Some p → prepared p = Some i → is_Some (sd_schedules (ay_sched s) !! i).
Proof.
  intros Hinv Hn Hp. pose proof (ai_phase s Hinv n p Hn) as Hok.
  destruct p as [[]|[]|[]|]; try done; injection Hp as <-; cbn in Hok; destruct_and? Hok;
    match goal with H : made _ _ _ |- _ => destruct H as (sc & Hsc & _); by exists sc end.
Qed.

Lemma unlocked_idle s n p : assoc_inv s → ay_locked s = false → ay_calls s !! n = Some p → changing p = None.
Proof.
  intros Hinv Hl Hn. destruct (changing p) as [i|] eqn:Hb; [|done]. destruct (ai_mutex s Hinv n p i Hn Hb) as [? _]. congruence.
Qed.

(** *** A call of the scheduler *)
Record scheduler_call (s : AssocSys) (p p' : assoc_phase) (sd : Scheduler) : Prop := {
  sy_sched : sched_ok sd;
  sy_carries i : carries (sd_schedules (ay_sched s)) (.∈ ay_switched s) (sd_schedules sd)
    (λ i, i ∈ ay_switched s ∨ i ∈ own_switch p p') i;
  sy_own i : i ∈ own_switch p p' → prepared p = Some i ∨ changing p' = Some i;
  sy_phase : phase_ok (sd_schedules sd) (.∈ ay_switched s ∖ own_switch p p') (ay_store s) p';
  sy_prepared i : prepared p' = Some i → prepared p = Some i ∨ sd_schedules (ay_sched s) !! i = None;
  sy_keeps i : changing p = Some i → changing p' = Some i;
  sy_takes i : changing p = None → changing p' = Some i → ay_locked s = false;
}.

Section scheduler_call.
Context (s : AssocSys) (n : nat) (p p' : assoc_phase) (sd : Scheduler).
Hypotheses (Hinv : assoc_inv s) (Hn : ay_calls s !! n = Some p) (Hcall : scheduler_call s p p' sd).

Let s' := after_call s n p p' sd (ay_store s).

Lemma next_history i : changing p' = Some i → ∃ id, in_history (ay_store s) id i.
Proof.
  intros Hb. pose proof (sy_phase _ _ _ _ Hcall) as Hp.
  assert (∃ a, at_items (ay_store s) !! as_ID a = Some a ∧ as_ScheduleID a = i) as (a & Ha & <-).
  { destruct p' as [[]|[]|[]|]; try done; injection Hb as <-; cbn in Hp; destruct_and? Hp; by eexists. }
  exists (as_ID a). by eapply assoc_ok_current; [apply Hinv|].
Qed.

Lemma others_idle k q i j : k ≠ n → ay_calls s !! k = Some q → changing q = Some i → changing p' = Some j → False.
Proof.
  intros Hne Hk Hq Hp'. destruct (ai_mutex s Hinv k q i Hk Hq) as [Hl Huniq]. destruct (changing p) as [b|] eqn:Hp.
  - apply Hne. symmetry. by eapply Huniq.
  - pose proof (sy_takes _ _ _ _ Hcall j Hp Hp'). congruence.
Qed.

Lemma call_carries i :
  (i ∈ own_switch p p' → False) →
  carries (sd_schedules (ay_sched s)) (.∈ ay_switched s) (sd_schedules sd) (.∈ ay_switched s ∖ own_switch p p') i.
Proof.
  intros Hout. destruct (sy_carries _ _ _ _ Hcall i) as [_ Hc]. split; [set_solver|]. intros sc Hsc.
  destruct (Hc sc Hsc) as (sc' & Hsc' & Hs & He). exists sc'. split_and!; [done|done|]. intros Hw. apply He. set_solver.
Qed.

Lemma call_exempt id i : in_history (ay_store s) id i → exempt s i → exempt s' i.
Proof.
  intros Hin. intros [Hw|(k & q & Hk & Hq)].
  - destruct (decide (i ∈ own_switch p p')) as [Ho|Ho]; [|left; unfold s'; cbn; set_solver].
    destruct (sy_own _ _ _ _ Hcall i Ho) as [Hp|Hb]; [by destruct (ai_fresh s Hinv n p i id Hn Hp)|].
    apply (exempt_at s' n p'); [|done]. cbn. by apply list_lookup_insert_eq; eapply lookup_lt_Some.
  - destruct (decide (k = n)) as [->|Hne].
    + rewrite Hn in Hk. injection Hk as <-. apply (exempt_at s' n p'); [|by apply (sy_keeps _ _ _ _ Hcall)]. cbn.
      by apply list_lookup_insert_eq; eapply lookup_lt_Some.
    + apply (exempt_at s' k q); [|done]. cbn. by rewrite list_lookup_insert_ne.
Qed.

Lemma scheduler_call_ok : assoc_ok (sd_schedules sd) (exempt s') (ay_store s).
Proof.
  eapply assoc_ok_carries; [|apply Hinv]. intros id i Hin. destruct (sy_carries _ _ _ _ Hcall i) as [_ Hc].
  split; [by eapply call_exempt|]. intros sc Hsc. destruct (Hc sc Hsc) as (sc' & Hsc' & Hs & He). exists sc'.
  split_and!; [done|done|]. intros Hx. apply He. intros [Hw|Ho].
  - apply Hx. eapply call_exempt; [done|by left].
  - destruct (sy_own _ _ _ _ Hcall i Ho) as [Hp|Hb]; [by destruct (ai_fresh s Hinv n p i id Hn Hp)|]. apply Hx.
    apply (exempt_at s' n p'); [|done]. cbn. by apply list_lookup_insert_eq; eapply lookup_lt_Some.
Qed.

Lemma scheduler_call_phase k q :
  k ≠ n → ay_calls s !! k = Some q → phase_ok (sd_schedules sd) (.∈ ay_switched s ∖ own_switch p p') (ay_store s) q.
Proof.
  intros Hne Hk. eapply phase_ok_carries; [|by apply (ai_phase s Hinv k)]. intros i Hi. apply call_carries. intros Ho.
  destruct (sy_own _ _ _ _ Hcall i Ho) as [Hp|Hb], Hi as [Hq|Hq].
  - apply Hne. symmetry. by eapply (ai_prepared s Hinv).
  - destruct (changing_history s k q i Hinv Hk Hq) as [id Hin]. by apply (ai_fresh s Hinv n p i id).
  - destruct (next_history i Hb) as [id Hin]. by apply (ai_fresh s Hinv k q i id).
  - by eapply others_idle.
Qed.

Lemma scheduler_call_inv : assoc_inv s'.
Proof.
  split.
  - apply Hcall.
  - exact scheduler_call_ok.
  - intros k q Hk. destruct (calls_insert _ _ _ _ _ _ Hn Hk) as [[-> ->]|[Hne Hk']]; [apply Hcall|].
    by apply (scheduler_call_phase k).
  - assert (∀ k q i, k ≠ n → ay_calls s !! k = Some q → prepared q = Some i → prepared p' = Some i → False) as Hdiff.
    { intros k q i Hne Hk Hq [Hp|Hnone]%(sy_prepared _ _ _ _ Hcall).
      - apply Hne. by eapply (ai_prepared s Hinv).
      - destruct (prepared_made s k q i Hinv Hk Hq). congruence. }
    intros k1 k2 q1 q2 i Hk1 Hk2 Hq1 Hq2.
    destruct (calls_insert _ _ _ _ _ _ Hn Hk1) as [[-> ->]|[Hne1 Hk1']],
             (calls_insert _ _ _ _ _ _ Hn Hk2) as [[-> ->]|[Hne2 Hk2']]; [done| | |by eapply (ai_prepared s Hinv)];
      exfalso; by eapply Hdiff.
  - intros k q i id Hk Hq. destruct (calls_insert _ _ _ _ _ _ Hn Hk) as [[-> ->]|[Hne Hk']]; [|by eapply (ai_fresh s Hinv)].
    destruct (sy_prepared _ _ _ _ Hcall i Hq) as [Hp|Hnone]; [by eapply (ai_fresh s Hinv)|]. intros Hin.
    destruct (assoc_ok_known _ _ _ _ _ (ai_ok s Hinv) Hin). congruence.
  - intros k q i Hk Hq. destruct (calls_insert _ _ _ _ _ _ Hn Hk) as [[-> ->]|[Hne Hk']].
    + cbn. rewrite Hq. split; [done|]. intros k2 q2 j Hk2 Hq2.
      destruct (calls_insert _ _ _ _ _ _ Hn Hk2) as [[-> _]|[Hne2 Hk2']]; [done|]. exfalso. by eapply others_idle.
    + cbn. destruct (ai_mutex s Hinv k q i Hk' Hq) as [Hl Huniq].
      destruct (changing p') as [j|] eqn:Hp'; [exfalso; by eapply others_idle|].
      destruct (changing p) as [j|] eqn:Hp; [exfalso; apply Hne; symmetry; by eapply Huniq|]. split; [done|].
      intros k2 q2 j Hk2 Hq2. destruct (calls_insert _ _ _ _ _ _ Hn Hk2) as [[-> ->]|[Hne2 Hk2']]; [congruence|by eapply Huniq].
Qed.
End scheduler_call.

(** *** A call that records *)
Lemma store_call_inv s n p st' r :
  assoc_inv s → ay_calls s !! n = Some p → (is_Some (changing p) ∨ ay_locked s = false) →
  own_switch p (AssocReturned r) = ∅ →
  (∀ id i, in_history st' id i → in_history (ay_store s) id i ∨ prepared p = Some i) →
  assoc_ok (sd_schedules (ay_sched s)) (.∈ ay_switched s) st' →
  assoc_inv (after_call s n p (AssocReturned r) (ay_sched s) st').
Proof.
  intros Hinv Hn Hmu Hown Hhist Hok.
  assert (∀ k q, k ≠ n → ay_calls s !! k = Some q → changing q = None) as Hidle.
  { intros k q Hne Hk. destruct Hmu as [[i Hb]|Hl]; [|by eapply unlocked_idle]. destruct (changing q) as [j|] eqn:Hq; [|done].
    destruct Hne. by eapply (ai_mutex s Hinv n p i). }
  unfold after_call. rewrite Hown, difference_empty_L.
  split; cbn.
  - apply Hinv.
  - eapply assoc_ok_carries; [|exact Hok]. intros id i _. apply carries_same. by left.
  - intros k q Hk. destruct (calls_insert _ _ _ _ _ _ Hn Hk) as [[-> ->]|[Hne Hk']]; [done|].
    eapply phase_ok_store; [by eapply Hidle|by apply (ai_phase s Hinv k)].
  - intros k1 k2 q1 q2 i Hk1 Hk2.
    destruct (calls_insert _ _ _ _ _ _ Hn Hk1) as [[-> ->]|[Hne1 Hk1']], (calls_insert _ _ _ _ _ _ Hn Hk2) as [[-> ->]|[Hne2 Hk2']];
      [done..|]. by eapply (ai_prepared s Hinv).
  - intros k q i id Hk Hq. destruct (calls_insert _ _ _ _ _ _ Hn Hk) as [[-> ->]|[Hne Hk']]; [done|].
    intros [Hin|Hp]%Hhist; [by eapply (ai_fresh s Hinv)|]. apply Hne. by eapply (ai_prepared s Hinv).
  - intros k q i Hk Hq. destruct (calls_insert _ _ _ _ _ _ Hn Hk) as [[-> ->]|[Hne Hk']]; [done|].
    by rewrite (Hidle k q) in Hq.
Qed.

(** ** The operations *)

Lemma check_create_ok i j : check_create i = Ok j → create_input_ok j.
Proof.
  unfold check_create. destruct (blank (ac_ConfigPath i)); [done|].
  destruct (one_of (norm (ac_TargetKind i)) _) eqn:Hkind; [|done]. cbn [negb]. apply one_of_true in Hkind.
  destruct (blank (ac_TargetName i)); [done|]. intros [= <-]. unfold create_input_ok, well_formed. cbn.
  split_and!; [unfold Second; destruct (Z.leb_spec (ac_Interval i) 0); lia|apply normalizePriority_idemp|done].
Qed.

Lemma after_return s n p r :
  assoc_inv s → ay_calls s !! n = Some p → changing p = None →
  own_switch p (AssocReturned r) = ∅ → assoc_inv (after_call s n p (AssocReturned r) (ay_sched s) (ay_store s)).
Proof.
  intros Hinv Hn Hb Hown. apply scheduler_call_inv; [done..|]. split; try done.
  - apply Hinv.
  - intros i. apply carries_same. by left.
  - by rewrite Hown.
  - by rewrite Hb.
Qed.

Section operations.
Context (s : AssocSys) (n : nat) (now : Time).
Hypotheses (Hinv : assoc_inv s) (Hmax : sd_nextID (ay_sched s) < max_int64) (Hmaxa : at_nextID (ay_store s) < max_int64).

Lemma call_switches (b : bool) p p' i :
  own_switch p p' = {[ i ]} → (prepared p = Some i ∨ changing p' = Some i) →
  (∀ j, changing p = Some j → changing p' = Some j) → (∀ j, changing p = None → changing p' = Some j → ay_locked s = false) →
  (∀ j, prepared p' = Some j → prepared p = Some j) →
  let sd := (if b then Enable i (ay_sched s) else Disable i (ay_sched s)).1 in
  phase_ok (alter (switched b) i (sd_schedules (ay_sched s))) (.∈ ay_switched s ∖ {[ i ]}) (ay_store s) p' →
  ay_calls s !! n = Some p → assoc_inv (after_call s n p p' sd (ay_store s)).
Proof.
  intros Hown Hi Hkeep Htake Hprep sd Hph Hn.
  assert (sd_schedules sd = alter (switched b) i (sd_schedules (ay_sched s))) as Hsd.
  { unfold sd. destruct b; [apply Enable_schedules|apply Disable_schedules]. }
  apply scheduler_call_inv; [done..|]. split; rewrite ?Hown, ?Hsd; try done.
  - unfold sd. destruct b; [apply Enable_ok|apply Disable_ok]; apply Hinv.
  - intros j. apply carries_alter; [by left|intros ->; right; set_solver].
  - intros j ->%elem_of_singleton. done.
  - intros j Hj. left. by apply Hprep.
Qed.

Lemma switch_is_alter (b : bool) i m (w : string → Prop) : is_Some (m !! i) → switch_is b (alter (switched b) i m) w i.
Proof. intros [sc Hsc] _. by rewrite lookup_alter_eq, Hsc. Qed.

Lemma made_alter (b : bool) j m a i : made m a i → made (alter (switched b) j m) a i.
Proof. apply (made_carries m (λ _ : string, True) _ (λ _ : string, True)). by apply carries_alter. Qed.

Lemma current_known id a : at_items (ay_store s) !! id = Some a → is_Some (sd_schedules (ay_sched s) !! as_ScheduleID a).
Proof. intros Ha. eapply assoc_ok_known; [apply Hinv|]. by eapply assoc_ok_current; [apply Hinv|]. Qed.

(** A call that makes a schedule. *)
Lemma call_makes p (p' : string → assoc_phase) configPath priority kind name interval jitter :
  ay_calls s !! n = Some p → 0 < interval → kind ∈ ["host"; "cluster"; "environment"] →
  let '(sd, sc) := CreateWithOptions (schedule_options configPath priority kind name interval jitter) now (ay_sched s) in
  own_switch p (p' (sc_ID sc)) = ∅ → changing (p' (sc_ID sc)) = changing p → prepared (p' (sc_ID sc)) = Some (sc_ID sc) →
  (∀ m, (∀ i, carries (sd_schedules (ay_sched s)) (.∈ ay_switched s) m (.∈ ay_switched s) i) →
    sc_Enabled <$> m !! sc_ID sc = Some true →
    (∀ a, asks a configPath priority kind name interval jitter → made m a (sc_ID sc)) →
    phase_ok m (.∈ ay_switched s) (ay_store s) (p' (sc_ID sc))) →
  assoc_inv (after_call s n p (p' (sc_ID sc)) sd (ay_store s)).
Proof.
  intros Hn Hint Hkind. pose proof (create_schedule_spec configPath priority kind name interval jitter now (ay_sched s)
    (ai_sched s Hinv) Hmax Hint Hkind) as Hs. destruct (CreateWithOptions _ _ _) as [sd sc].
  destruct Hs as (Hok & Hfresh & Hsd & Hen & Hf). intros Hown Hb Hp Hph.
  assert (∀ i, carries (sd_schedules (ay_sched s)) (.∈ ay_switched s) (sd_schedules sd) (.∈ ay_switched s) i) as Hc.
  { intros i. rewrite Hsd. by apply carries_insert. }
  apply scheduler_call_inv; [done..|]. split; rewrite ?Hown; try done.
  - intros i. destruct (Hc i) as [_ Hci]. split; [by left|]. intros x Hx. destruct (Hci x Hx) as (y & ? & ? & Hy).
    exists y. split_and!; [done..|]. intros Hw. apply Hy. intros ?. apply Hw. by left.
  - assert (ay_switched s ∖ ∅ = ay_switched s) as -> by set_solver. apply Hph; [done| |].
    + by rewrite Hsd, lookup_insert_eq, <-Hen.
    + intros a Ha. exists sc. rewrite Hsd, lookup_insert_eq. split; [done|by apply Hf].
  - rewrite Hp. intros i [= <-]. by right.
  - by rewrite Hb.
  - rewrite Hb. intros i -> [=].
Qed.
(** What is exempt when the mutex is held by call [n], or by nobody. *)
Lemma exempt_changing p i : ay_calls s !! n = Some p → (is_Some (changing p) ∨ ay_locked s = false) → exempt s i →
  i ∈ ay_switched s ∨ changing p = Some i.
Proof.
  intros Hn Hmu [Hw|(k & q & Hk & Hq)]; [by left|right]. destruct Hmu as [[j Hj]|Hl].
  - assert (k = n) as -> by (by eapply (ai_mutex s Hinv n p j)). congruence.
  - by rewrite (unlocked_idle s k q Hinv Hl Hk) in Hq.
Qed.

Lemma Create_call_inv p :
  ay_calls s !! n = Some (InCreate p) → (takes_mutex (InCreate p) = true → ay_locked s = false) →
  let '(sd, st, p') := CreateAssociation p now (ay_sched s) (ay_store s) in assoc_inv (after_call s n (InCreate p) p' sd st).
Proof.
  intros Hn Hmu. pose proof (ai_phase s Hinv _ _ Hn) as Hp. destruct p as [i|i scID|i scID]; cbn [CreateAssociation].
  - destruct (check_create i) as [j|e] eqn:Hc; [|by apply after_return]. apply check_create_ok in Hc as Hj.
    pose proof Hj as (Hint & Hprio & Hkind).
    pose proof (call_makes (InCreate (Creating i)) (λ sc, InCreate (if ac_Enabled j then CreateStore j sc else CreateOff j sc))
      (ac_ConfigPath j) (ac_Priority j) (ac_TargetKind j) (ac_TargetName j) (ac_Interval j) (ac_Jitter j) Hn Hint Hkind) as Hm.
    destruct (CreateWithOptions _ _ _) as [sd sc]. apply Hm; try by destruct (ac_Enabled j).
    intros m _ Hen Hmade. assert (made m (new_association j (sc_ID sc) 0 0) (sc_ID sc)) by (by apply Hmade).
    destruct (ac_Enabled j) eqn:He; cbn; (split_and!; [done..|]); [|done]. intros _. by rewrite He.
  - destruct Hp as (Hok & Hm & Hoff). apply (call_switches false _ _ scID); try done; [by left|]. cbn.
    split_and!; [done|by apply made_alter|]. rewrite Hoff. apply switch_is_alter. destruct Hm as (sc & Hsc & _). by exists sc.
  - destruct Hp as (Hok & Hm & Hsw). specialize (Hmu eq_refl). apply store_call_inv; try done; [by right| |].
    + intros id k Hin. apply in_history_add in Hin as [Hin|[_ ->]]; [by left|by right].
    + apply create_ok; try done.
      * eapply assoc_ok_carries; [|apply Hinv]. intros id k _. apply carries_same. intros Hx.
        by destruct (exempt_changing _ k Hn (or_intror Hmu) Hx).
      * intros id. by eapply (ai_fresh s Hinv).
Qed.

Lemma Enable_call_inv p :
  ay_calls s !! n = Some (InEnable p) → (takes_mutex (InEnable p) = true → ay_locked s = false) →
  let '(sd, st, p') := SetEnabled p now (ay_sched s) (ay_store s) in assoc_inv (after_call s n (InEnable p) p' sd st).
Proof.
  intros Hn Hmu. pose proof (ai_phase s Hinv _ _ Hn) as Hp. destruct p as [id enabled|a enabled]; cbn [SetEnabled].
  - specialize (Hmu eq_refl). destruct (at_items (ay_store s) !! id) as [a|] eqn:Ha; [|by apply after_return].
    apply (call_switches enabled _ _ (as_ScheduleID a)); try done; [by right|]. cbn.
    destruct (ao_item _ _ _ (ai_ok s Hinv) _ _ Ha) as (-> & _). split; [done|]. by eapply switch_is_alter, current_known.
  - destruct Hp as (Ha & Hsw). apply store_call_inv; try done; [left; by eexists| |].
    + intros id k [Hin|[-> ->]]%in_history_add; left; [done|].
      exact (assoc_ok_current _ _ _ _ _ (ai_ok s Hinv) Ha).
    + eapply record_ok; [apply Hinv|exact Ha|]. destruct (ao_item _ _ _ (ai_ok s Hinv) _ _ Ha) as (_ & _ & h & Hh & Hok).
      destruct (history_current _ _ _ _ Hok) as (r & Hr & Hsnap). pose proof (ho_form _ _ _ _ Hok r Hr) as Hf.
      rewrite Hsnap in Hf. split; try done; [apply (ho_follows _ _ _ _ Hok)| |by left].
      intros i Hx. destruct (exempt_changing _ i Hn (or_introl (ex_intro _ _ eq_refl)) Hx) as [|[= <-]]; [by left|by right].
Qed.

Lemma Replay_call_inv p :
  ay_calls s !! n = Some (InReplay p) → (takes_mutex (InReplay p) = true → ay_locked s = false) →
  let '(sd, st, p') := Replay p now (ay_sched s) (ay_store s) in assoc_inv (after_call s n (InReplay p) p' sd st).
Proof.
  intros Hn Hmu. pose proof (ai_phase s Hinv _ _ Hn) as Hp. destruct p as [id rev|a snap|a snap scID|a snap scID]; cbn [Replay].
  - specialize (Hmu eq_refl). destruct (at_items (ay_store s) !! id) as [a|] eqn:Ha; [|by apply after_return].
    destruct (ao_item _ _ _ (ai_ok s Hinv) _ _ Ha) as (Hid & _ & h & Hh & Hok). rewrite Hh. change (default [] (Some h)) with h.
    destruct (find_revision rev h) as [target|] eqn:Hfind; [|by apply after_return]. apply find_revision_in in Hfind.
    apply (call_switches false _ _ (as_ScheduleID a)); try done; [by right|]. cbn. subst id.
    split_and!; [done|by apply (ho_form _ _ _ _ Hok)|]. by eapply switch_is_alter, current_known.
  - destruct Hp as (Ha & Hwf & Hoff). pose proof Hwf as (Hint & Hprio & Hkind).
    pose proof (call_makes (InReplay (ReplayCreate a snap))
      (λ sc, InReplay (if as_Enabled snap then ReplayStore a snap sc else ReplayOff a snap sc))
      (as_ConfigPath snap) (as_Priority snap) (as_TargetKind snap) (as_TargetName snap) (as_Interval snap) (as_Jitter snap)
      Hn Hint Hkind) as Hm.
    destruct (CreateWithOptions _ _ _) as [sd sc]. apply Hm; try by destruct (as_Enabled snap).
    intros m Hc Hen Hmade. assert (made m snap (sc_ID sc)) by (by apply Hmade).
    assert (switch_is false m (.∈ ay_switched s) (as_ScheduleID a)) by (by eapply switch_is_carries; [apply Hc|]).
    destruct (as_Enabled snap) eqn:He; cbn; (split_and!; [done..|]); [|done]. intros _. by rewrite He.
  - destruct Hp as (Ha & Hwf & Hoff & Hm & Hen). apply (call_switches false _ _ scID); try done; [by left|]. cbn.
    assert (as_ScheduleID a ≠ scID) as Hne.
    { intros <-. eapply (ai_fresh s Hinv n _ _ (as_ID a) Hn eq_refl). by eapply assoc_ok_current; [apply Hinv|]. }
    split_and!; [done..| |by apply made_alter|].
    + intros Hw. rewrite lookup_alter_ne by done. apply Hoff. set_solver.
    + rewrite Hen. apply switch_is_alter. destruct Hm as (sc & Hsc & _). by exists sc.
  - destruct Hp as (Ha & Hwf & Hoff & Hm & Hsw). apply store_call_inv; try done; [left; by eexists| |].
    + intros id k [Hin|[_ ->]]%in_history_add; [by left|by right].
    + eapply record_ok; [apply Hinv|exact Ha|]. split; try done.
      * intros i Hx. destruct (exempt_changing _ i Hn (or_introl (ex_intro _ _ eq_refl)) Hx) as [|[= <-]]; [by left|by right].
      * right. split; [|done]. intros id. by eapply (ai_fresh s Hinv).
Qed.
End operations.

(** ** Reachable states *)

Definition assoc_bounded (s : AssocSys) : Prop :=
  sd_nextID (ay_sched s) < max_int64 ∧ at_nextID (ay_store s) < max_int64.

Lemma next_call_grows p now sd st :
  let '(sd', st', _) := next_call p now sd st in sd_nextID sd ≤ sd_nextID sd' ∧ at_nextID st ≤ at_nextID st'.
Proof.
  destruct p as [[]|[]|[]|]; cbn [next_call CreateAssociation SetEnabled Replay]; try (cbn; rewrite ?Disable_next; lia).
  - destruct (check_create i); [|done]. cbn. lia.
  - destruct (at_items st !! id); [|done]. destruct enabled; rewrite ?Enable_next, ?Disable_next; done.
  - destruct (at_items st !! id); [|done]. destruct (find_revision _ _); [|done]. by rewrite Disable_next.
Qed.

Lemma assoc_call_cases n now s s' :
  assoc_call n now s = Some s' →
  ∃ p, ay_calls s !! n = Some p ∧ (takes_mutex p = true → ay_locked s = false) ∧
    let '(sd, st, p') := next_call p now (ay_sched s) (ay_store s) in s' = after_call s n p p' sd st.
Proof.
  unfold assoc_call. destruct (ay_calls s !! n) as [p|]; [|done]. intros Hs. exists p. split; [done|].
  destruct (takes_mutex p && ay_locked s) eqn:Hmu; [by destruct p|].
  split; [intros Ht; by rewrite Ht in Hmu|]. destruct (next_call p now (ay_sched s) (ay_store s)) as [[sd st] p'].
  destruct p; try done; by injection Hs as <-.
Qed.

Lemma assoc_call_inv n now s s' :
  assoc_call n now s = Some s' → sd_nextID (ay_sched s) < max_int64 → at_nextID (ay_store s) < max_int64 →
  assoc_inv s → assoc_inv s'.
Proof.
  intros (p & Hn & Hmu & Hs)%assoc_call_cases Hmax Hmaxa Hinv.
  destruct p as [p|p|p|r]; cbn [next_call] in Hs.
  - pose proof (Create_call_inv s n now Hinv Hmax Hmaxa p Hn Hmu) as Ho.
    destruct (CreateAssociation _ _ _ _) as [[sd st] p']. by subst s'.
  - pose proof (Enable_call_inv s n now Hinv Hmax Hmaxa p Hn Hmu) as Ho. destruct (SetEnabled _ _ _ _) as [[sd st] p']. by subst s'.
  - pose proof (Replay_call_inv s n now Hinv Hmax Hmaxa p Hn Hmu) as Ho. destruct (Replay _ _ _ _) as [[sd st] p']. by subst s'.
  - subst s'. by apply after_return.
Qed.

Lemma assoc_begin_inv s p : call_begins p = true → assoc_inv s → assoc_inv (s <| ay_calls := ay_calls s ++ [p] |>).
Proof.
  intros Hp Hinv. assert (changing p = None ∧ prepared p = None) as [Hb Hpr] by by destruct p as [[]|[]|[]|].
  assert (∀ k q, (ay_calls s ++ [p]) !! k = Some q → ay_calls s !! k = Some q ∨ q = p) as Hcalls.
  { intros k q [Hk|[_ [_ <-]%list_lookup_singleton_Some]]%lookup_app_Some; [by left|by right]. }
  split; cbn.
  - apply Hinv.
  - eapply assoc_ok_carries; [|apply Hinv]. intros id i _. apply carries_same. intros [Hw|(k & q & Hk & Hq)]; [by left|].
    apply (exempt_at _ k q); [|done]. cbn. by apply lookup_app_l_Some.
  - intros k q [Hk| ->]%Hcalls; [by apply (ai_phase s Hinv k)|]. by destruct p as [[]|[]|[]|].
  - intros k1 k2 q1 q2 i [H1| ->]%Hcalls [H2| ->]%Hcalls; try congruence. by eapply (ai_prepared s Hinv).
  - intros k q i id [Hk| ->]%Hcalls; [|congruence]. by eapply (ai_fresh s Hinv).
  - intros k q i [Hk| ->]%Hcalls Hq; [|congruence]. destruct (ai_mutex s Hinv k q i Hk Hq) as [Hl Hu].
    split; [done|]. intros k' q' i' [Hk'| ->]%Hcalls; [by apply Hu|congruence].
Qed.

Section reachable.
Context `{TimeFormat}.

Lemma assoc_around_inv s s' :
  sched_step (ay_sys s) s' → sd_nextID (ay_sched s) < max_int64 → sd_nextID (ss_sched s') ≤ max_int64 → assoc_inv s →
  assoc_inv (s <| ay_sys := s' |>
    <| ay_switched := ay_switched s ∪ switched_in (sd_schedules (ay_sched s)) (sd_schedules (ss_sched s')) |>).
Proof.
  intros Hst Hmax Hmax' Hinv. pose proof (sched_step_setup _ _ Hst (ai_sched s Hinv) Hmax) as Hk.
  split; cbn; try apply Hinv.
  - by apply (sched_step_inv (ay_sys s)); [|..|apply Hinv].
  - eapply assoc_ok_carries; [|apply Hinv]. intros id i _. apply carries_switched; [done| |].
    + intros [Hw|Hb]; [left; cbn; set_solver|by right].
    + left. cbn. set_solver.
  - intros k q Hq. eapply phase_ok_carries; [|by apply (ai_phase s Hinv k)]. intros i _.
    apply carries_switched; [done|set_solver|set_solver].
Qed.

Lemma assoc_step_bounded s s' : assoc_step s s' → assoc_bounded s' → assoc_bounded s.
Proof.
  intros Hst [H1 H2]. destruct Hst as [s s' Hst|p s Hp|n now s s' Hst].
  - apply sched_step_next in Hst. unfold assoc_bounded, ay_sched in *. cbn in *. lia.
  - done.
  - apply assoc_call_cases in Hst as (p & _ & _ & Hs). pose proof (next_call_grows p now (ay_sched s) (ay_store s)) as Hg.
    destruct (next_call _ _ _ _) as [[sd st] p']. subst s'. unfold assoc_bounded, ay_sched in *. cbn in *. lia.
Qed.

Lemma assoc_step_inv s s' : assoc_step s s' → assoc_bounded s' → assoc_inv s → assoc_inv s'.
Proof.
  intros Hst Hb Hinv. pose proof (assoc_step_bounded _ _ Hst Hb) as [Hb1 Hb2].
  destruct Hst as [s s' Hst|p s Hp|n now s s' Hst].
  - apply assoc_around_inv; [done..| |done]. apply Z.lt_le_incl, Hb.
  - by apply assoc_begin_inv.
  - by eapply assoc_call_inv.
Qed.

Lemma assoc_inv_reachable s : assoc_reachable s → assoc_bounded s → assoc_inv s.
Proof.
  intros (buffer & now & Hrtc). revert s Hrtc.
  apply (rtc_ind_r (λ s, assoc_bounded s → assoc_inv s) (initial_assoc buffer now)).
  - intros _. split; try done.
    + apply (sched_inv_reachable (initial_sched buffer now)); [by exists buffer, now|done].
    + split; cbn; [done|done| |done]. intros id1 id2 i (h & r & Hh & _). done.
  - intros s s' _ Hst IH Hb. eapply assoc_step_inv; [done..|]. apply IH. by eapply assoc_step_bounded.
Qed.

(** The schedules given up by an association are off, also while it is changed. *)
Lemma former_schedule_off s id a h r :
  assoc_inv s → at_items (ay_store s) !! id = Some a → at_history (ay_store s) !! id = Some h → r ∈ h →
  revision_schedule r ≠ as_ScheduleID a → revision_schedule r ∉ ay_switched s →
  sc_Enabled <$> sd_schedules (ay_sched s) !! revision_schedule r = Some false.
Proof.
  intros Hinv Ha Hh Hr Hne Hw. pose proof (ai_ok s Hinv) as Hst.
  destruct (ao_item _ _ _ Hst _ _ Ha) as (_ & _ & h' & Hh' & Hok). rewrite Hh in Hh'. injection Hh' as <-.
  apply (ho_old _ _ _ _ Hok r Hr Hne). intros [|(n & p & Hn & Hb)]; [done|].
  destruct (changing_current s n p _ Hinv Hn Hb) as (b & Hb' & Heq).
  assert (as_ID b = id) as Hid.
  { eapply (ao_owner _ _ _ Hst _ _ (as_ScheduleID b)); [by eapply assoc_ok_current|]. rewrite Heq. by exists h, r. }
  rewrite Hid, Ha in Hb'. injection Hb' as <-. congruence.
Qed.

Lemma live_enabled s id n : sched_ok (ay_sched s) → live (ay_sys s) id n →
  sd_cancel (ay_sched s) !! id = Some n ∧ sc_Enabled <$> sd_schedules (ay_sched s) !! id = Some true.
Proof.
  intros Hsd [Hl Hn]%live_skeleton. destruct (so_live _ (proj1 Hsd) _ _ Hl) as [Hc|]; [|done].
  split; [exact Hc|]. apply (so_cancel _ (proj1 Hsd)) in Hc as (_ & Hon & _). cbn in Hon. by rewrite lookup_fmap in Hon.
Qed.

(** C22: in every reachable state, whatever calls, loops and worker steps are
    interleaved, and whatever schedules are switched directly by the endpoints of
    the schedules: the schedule of an association exists, belongs to no other
    one, and has its configuration, priority, interval, jitter and target; its
    revisions are numbered 1, 2, ... up to the current one, and the last is its
    present state.  A schedule is on or off as the association says while nobody
    holds the mutex of the store (then requests can see it) and unless it was
    switched directly since the association last switched it.  A schedule that
    the association had before is off unless it was switched directly; unless
    that happened, no two live loops belong to the schedules of one association. *)
Theorem association_follows s :
  assoc_reachable s → assoc_bounded s →
  ∀ id a, at_items (ay_store s) !! id = Some a →
  let m := sd_schedules (ay_sched s) in
  let direct i := i ∈ ay_switched s in
  (∃ sc, m !! as_ScheduleID a = Some sc ∧ follows a sc ∧
     (ay_locked s = false → ¬ direct (as_ScheduleID a) → sc_Enabled sc = as_Enabled a)) ∧
  (∀ id' a', at_items (ay_store s) !! id' = Some a' → as_ScheduleID a' = as_ScheduleID a → id' = id) ∧
  ∃ h, Revisions id (ay_store s) = Ok h ∧ ar_Revision <$> h = (λ i, Z.of_nat (S i)) <$> seq 0 (length h) ∧
    as_Revision a = Z.of_nat (length h) ∧ ar_Snapshot <$> last h = Some a ∧
    (∀ r, r ∈ h → revision_schedule r ≠ as_ScheduleID a → ¬ direct (revision_schedule r) →
       sc_Enabled <$> m !! revision_schedule r = Some false) ∧
    ((∀ r, r ∈ h → direct (revision_schedule r) → revision_schedule r = as_ScheduleID a) →
     ∀ r1 r2 n1 n2, r1 ∈ h → r2 ∈ h → live (ay_sys s) (revision_schedule r1) n1 →
       live (ay_sys s) (revision_schedule r2) n2 → n1 = n2).
Proof.
  intros Hreach Hb id a Ha m direct. pose proof (assoc_inv_reachable s Hreach Hb) as Hinv.
  pose proof (ai_ok s Hinv) as Hst. destruct (ao_item _ _ _ Hst _ _ Ha) as (Hid & _ & h & Hh & Hok).
  assert (∀ r, r ∈ h → revision_schedule r ≠ as_ScheduleID a → ¬ direct (revision_schedule r) →
    sc_Enabled <$> m !! revision_schedule r = Some false) as Hold by (intros; by eapply former_schedule_off).
  split_and!.
  - destruct (ho_follows _ _ _ _ Hok) as (sc & Hsc & Hf). exists sc. split_and!; [done..|]. intros Hl Hw.
    assert (sc_Enabled <$> m !! as_ScheduleID a = Some (as_Enabled a)) as Hsw.
    { apply (ho_switch _ _ _ _ Hok). intros [|(n & p & Hn & Hp)]; [done|]. by rewrite (unlocked_idle s n p) in Hp. }
    unfold m in Hsw. rewrite Hsc in Hsw. by injection Hsw.
  - intros id' a' Ha' Heq. eapply (ao_owner _ _ _ Hst _ _ (as_ScheduleID a)); [rewrite <-Heq|]; by eapply assoc_ok_current.
  - exists h. unfold Revisions. rewrite Hh.
    split_and!; [done| |apply (ho_count _ _ _ _ Hok)|apply (ho_last _ _ _ _ Hok)|done|].
    + apply list_eq. intros i. rewrite !list_lookup_fmap. destruct (h !! i) as [r|] eqn:Hr.
      * pose proof (lookup_lt_Some _ _ _ Hr). rewrite lookup_seq_lt by done. cbn. f_equal.
        by apply (ho_number _ _ _ _ Hok).
      * rewrite lookup_seq_ge; [done|]. by apply lookup_ge_None.
    + intros Hdir. assert (∀ r n, r ∈ h → live (ay_sys s) (revision_schedule r) n →
        sd_cancel (ay_sched s) !! as_ScheduleID a = Some n) as Hlive.
      { intros r n Hr [Hc Hon]%live_enabled; [|apply Hinv].
        destruct (decide (revision_schedule r = as_ScheduleID a)) as [<-|Hne]; [done|].
        assert (sc_Enabled <$> m !! revision_schedule r = Some false) as Hoff.
        { apply Hold; [done..|]. intros Hd. by apply Hne, Hdir. }
        unfold m in Hoff. congruence. }
      intros r1 r2 n1 n2 Hr1 Hr2 H1%Hlive H2%Hlive; [congruence|done..].
Qed.
End reachable.

(** ** The calls return *)

Definition assoc_calls_left (p : assoc_phase) : nat :=
  match p with
  | InReplay (Replaying _ _) => 4
  | InCreate (Creating _) | InReplay (ReplayCreate _ _) => 3
  | InCreate (CreateOff _ _) | InEnable (Enabling _ _) | InReplay (ReplayOff _ _ _) => 2
  | InCreate (CreateStore _ _) | InEnable (EnableStore _ _) | InReplay (ReplayStore _ _ _) => 1
  | AssocReturned _ => 0
  end%nat.

Definition mutex_held (s : AssocSys) : Prop :=
  ay_locked s = true → ∃ n p i, ay_calls s !! n = Some p ∧ changing p = Some i.

Lemma next_call_left p now sd st :
  let '(_, _, p') := next_call p now sd st in assoc_calls_left p = 0%nat ∨ (assoc_calls_left p' < assoc_calls_left p)%nat.
Proof.
  destruct p as [[i| |]|[id b|]|[id r|a snap| |]|]; cbn [next_call CreateAssociation SetEnabled Replay]; try (cbn; lia).
  - destruct (check_create i) as [j|]; [|cbn; lia]. cbn. destruct (ac_Enabled j); cbn; lia.
  - destruct (at_items st !! id); cbn; lia.
  - destruct (at_items st !! id); [|cbn; lia]. destruct (find_revision _ _); cbn; lia.
  - cbn. destruct (as_Enabled snap); cbn; lia.
Qed.

(** A call that neither waits nor has returned can go on, and comes closer to its
    end. *)
Lemma assoc_call_progress n now s p :
  ay_calls s !! n = Some p → assoc_calls_left p ≠ 0%nat → (takes_mutex p = true → ay_locked s = false) →
  ∃ s' p', assoc_call n now s = Some s' ∧ ay_calls s' !! n = Some p' ∧ (assoc_calls_left p' < assoc_calls_left p)%nat.
Proof.
  intros Hn Hleft Hmu. pose proof (next_call_left p now (ay_sched s) (ay_store s)) as Hl. unfold assoc_call. rewrite Hn.
  assert (takes_mutex p && ay_locked s = false) as -> by (destruct (takes_mutex p); [by apply Hmu|done]).
  destruct (next_call _ _ _ _) as [[sd st] p']. destruct Hl as [|Hl]; [done|].
  destruct p; try done; eexists _, p'; (split_and!; [done|cbn; apply list_lookup_insert_eq; by eapply lookup_lt_Some|done]).
Qed.

Section progress.
Context `{TimeFormat}.

Lemma mutex_held_step s s' : assoc_step s s' → mutex_held s → mutex_held s'.
Proof.
  intros Hst Hm. destruct Hst as [s s' Hst|p s Hp|n now s s' Hst].
  - exact Hm.
  - intros Hl. destruct (Hm Hl) as (n & q & i & Hn & Hq). exists n, q, i. cbn. split; [by apply lookup_app_l_Some|done].
  - apply assoc_call_cases in Hst as (p & Hn & Hmu & Hs). destruct (next_call _ _ _ _) as [[sd st] p']. subst s'.
    intros Hl. cbn in Hl. destruct (changing p') as [i|] eqn:Hp'.
    + exists n, p', i. cbn. split; [apply list_lookup_insert_eq; by eapply lookup_lt_Some|done].
    + destruct (changing p) as [i|] eqn:Hp; [done|]. destruct (Hm Hl) as (k & q & i & Hk & Hq). exists k, q, i. cbn.
      rewrite list_lookup_insert_ne; [done|]. intros ->. congruence.
Qed.

(** In every reachable state a call that has not returned can go on, or waits for
    the mutex of the store and another one that holds it can go on: since each
    step of a call brings it closer to its end, no call waits forever. *)
Theorem association_calls_return s n p now :
  assoc_reachable s → ay_calls s !! n = Some p → assoc_calls_left p ≠ 0%nat →
  ∃ k q s' q', (k = n ∨ takes_mutex p = true ∧ ay_locked s = true) ∧ ay_calls s !! k = Some q ∧
    assoc_call k now s = Some s' ∧ ay_calls s' !! k = Some q' ∧ (assoc_calls_left q' < assoc_calls_left q)%nat.
Proof.
  intros (buffer & start & Hrtc) Hn Hleft.
  assert (mutex_held s) as Hm.
  { clear Hn. revert s Hrtc. apply (rtc_ind_r mutex_held (initial_assoc buffer start)); [done|].
    intros s s' _ Hst Hm. by eapply mutex_held_step. }
  destruct (takes_mutex p && ay_locked s) eqn:Hw.
  - apply andb_true_iff in Hw as [Ht Hl]. destruct (Hm Hl) as (k & q & i & Hk & Hq).
    destruct (assoc_call_progress k now s q Hk) as (s' & q' & Hs & Hq' & Hlt); [by destruct q as [[]|[]|[]|]..|].
    exists k, q, s', q'. split_and!; [by right|done..].
  - destruct (assoc_call_progress n now s p Hn Hleft) as (s' & q' & Hs & Hq' & Hlt).
    + intros Ht. by rewrite Ht in Hw.
    + exists n, p, s', q'. split_and!; [by left|done..].
Qed.
End progress.

(** ** Concrete runs *)

Inductive assoc_event := Begin (p : assoc_phase) | Next (n : nat) | Direct (o : sched_op).

Definition assoc_event_step (s : AssocSys) (e : assoc_event) : AssocSys :=
  match e with
  | Begin p => if call_begins p then s <| ay_calls := ay_calls s ++ [p] |> else s
  | Next n => default s (assoc_call n 1 s)
  | Direct o =>
      let s' := (ay_sys s) <| ss_sched := run_sched_op o 1 (ay_sched s) |> in
      s <| ay_sys := s' |>
        <| ay_switched := ay_switched s ∪ switched_in (sd_schedules (ay_sched s)) (sd_schedules (ss_sched s')) |>
  end.

Definition assoc_events (es : list assoc_event) (s : AssocSys) : AssocSys := foldl assoc_event_step s es.

Lemma assoc_events_steps `{TimeFormat} es s : rtc assoc_step s (assoc_events es s).
Proof.
  unfold assoc_events. revert s; induction es as [|e es IH]; intros s; cbn [foldl]; [constructor|].
  etrans; [|apply IH]. destruct e as [p|n|o]; cbn [assoc_event_step].
  - destruct (call_begins p) eqn:Hp; [|done]. by apply rtc_once, assoc_begin.
  - destruct (assoc_call n 1 s) as [s'|] eqn:Hs; [|done]. by eapply rtc_once, assoc_next.
  - apply rtc_once, assoc_around, sched_call.
Qed.

Definition web : AssociationCreate := mkAssociationCreate "web.yaml" "Host " "web1" "high" "" 0 5 true.

(** An association is created, switched off while its replay waits for the mutex,
    and its first revision replayed. *)
Definition replayed : AssocSys :=
  assoc_events [Begin (InCreate (Creating web)); Next 0; Next 0;
                Begin (InEnable (Enabling "assoc-1" false)); Next 1;
                Begin (InReplay (Replaying "assoc-1" 1)); Next 2; Next 1;
                Next 2; Next 2; Next 2] (initial_assoc 4 0).

Lemma association_follows_witness :
  ∃ a sc, at_items (ay_store replayed) !! "assoc-1" = Some a ∧ as_Revision a = 3 ∧
    sd_schedules (ay_sched replayed) !! "sched-2" = Some sc ∧ follows a sc ∧ sc_Enabled sc = true ∧
    sc_Enabled <$> sd_schedules (ay_sched replayed) !! "sched-1" = Some false.
Proof.
  assert (@assoc_reachable plain_time replayed) as Hr.
  { exists 4, 0. apply (@assoc_events_steps plain_time). }
  assert (assoc_bounded replayed) as Hb by (split; by vm_compute).
  destruct (at_items (ay_store replayed) !! "assoc-1") as [a|] eqn:Ha.
  2: { exfalso. vm_compute in Ha. discriminate Ha. }
  pose proof (@association_follows plain_time replayed Hr Hb "assoc-1" a Ha) as [(sc & Hsc & Hf & Hen) [_ (h & Hh & _ & _ & _ & Hold & _)]].
  assert (as_ScheduleID a = "sched-2" ∧ as_Revision a = 3 ∧ as_Enabled a = true) as (Hid & Hrev & Hon).
  { vm_compute in Ha. injection Ha as <-. by split_and!. }
  assert (ay_switched replayed = ∅) as Hw by by vm_compute.
  rewrite Hid, Hw in Hen. rewrite Hid in Hsc. exists a, sc. split_and!; [done..| |].
  - rewrite Hen; [exact Hon|by vm_compute|apply not_elem_of_empty].
  - assert (match Revisions "assoc-1" (ay_store replayed) with Ok h => revision_schedule <$> head h | Err _ => None end
            = Some "sched-1") as Hfirst by by vm_compute.
    rewrite Hh in Hfirst. destruct h as [|r h]; [discriminate Hfirst|]. injection Hfirst as Hr1.
    rewrite <-Hr1. apply Hold; [by left|rewrite Hid, Hr1; discriminate|rewrite Hw; apply not_elem_of_empty].
Defined.

(** The endpoints of the schedules do not look for an association: one that is
    enabled has a schedule that is off, and never runs. *)
Theorem endpoint_disagrees :
  let s := assoc_events [Begin (InCreate (Creating web)); Next 0; Next 0; Direct (SchedDisable "sched-1")] (initial_assoc 4 0) in
  as_Enabled <$> at_items (ay_store s) !! "assoc-1" = Some true ∧
  sc_Enabled <$> sd_schedules (ay_sched s) !! "sched-1" = Some false ∧ ay_locked s = false.
Proof. by vm_compute. Qed.

(** A schedule that a replay gave up can be switched on again: two loops dispatch
    for one association. *)
Theorem former_schedule_revived :
  let s := assoc_events [Direct (SchedEnable "sched-1")] replayed in
  as_ScheduleID <$> at_items (ay_store s) !! "assoc-1" = Some "sched-2" ∧
  live (ay_sys s) "sched-1" 2 ∧ live (ay_sys s) "sched-2" 1.
Proof.
  split; [by vm_compute|]. split; (eexists; split_and!; [by vm_compute|done|done|by apply not_elem_of_nil]).
Qed.
