(* ===== verification/Approvals.v ===== *)
(** * Approval policies and break-glass requests:
    [internal/control/access_approvals.go]

    A request passes the stages of its policy one after the other, each with its
    number of approvals, and is then active for its time to live.  Every method
    runs under the mutex; a clock reading is an argument.  Proved: activation
    needs the full quorum of every stage, and a request follows its life cycle. *)

From S2P Require Import Prelude.

Record ApprovalStageRule : Type := mkStageRule { sr_Name : string; sr_RequiredApprovals : Z }.

Record QuorumApprovalPolicy : Type := mkApprovalPolicy {
  qp_ID : string;
  qp_Name : string;
  qp_Stages : list ApprovalStageRule;
  qp_CreatedAt : Time;
  qp_UpdatedAt : Time;
}.

Inductive BreakGlassStatus :=
  | BreakGlassPending | BreakGlassActive | BreakGlassRejected | BreakGlassRevoked | BreakGlassExpired.
#[export] Instance BreakGlassStatus_dec : EqDecision BreakGlassStatus.
Proof. solve_decision. Defined.

Record BreakGlassApproval : Type := mkApproval {
  ba_Actor : string;
  ba_Decision : string;
  ba_Comment : string;
  ba_StageIndex : Z;
  ba_StageName : string;
  ba_CreatedAt : Time;
}.

Record BreakGlassRequest : Type := mkBreakGlass {
  bg_ID : string;
  bg_RequestedBy : string;
  bg_Reason : string;
  bg_Scope : string;
  bg_PolicyID : string;
  bg_PolicyName : string;
  bg_Stages : list ApprovalStageRule;
  bg_CurrentStage : Z;
  bg_Status : BreakGlassStatus;
  bg_Approvals : list BreakGlassApproval;
  bg_TTLSeconds : Z;
  bg_CreatedAt : Time;
  bg_UpdatedAt : Time;
  bg_ActivatedAt : option Time;
  bg_ExpiresAt : option Time;
  bg_RejectedAt : option Time;
  bg_RevokedAt : option Time;
  bg_RejectionReason : string;
}.
#[export] Instance BreakGlassRequest_eta : Eta BreakGlassRequest := λ r,
  mkBreakGlass (bg_ID r) (bg_RequestedBy r) (bg_Reason r) (bg_Scope r) (bg_PolicyID r) (bg_PolicyName r)
    (bg_Stages r) (bg_CurrentStage r) (bg_Status r) (bg_Approvals r) (bg_TTLSeconds r) (bg_CreatedAt r)
    (bg_UpdatedAt r) (bg_ActivatedAt r) (bg_ExpiresAt r) (bg_RejectedAt r) (bg_RevokedAt r)
    (bg_RejectionReason r).

Record AccessApprovalStore : Type := mkAccessApprovals {
  aa_nextPolicy : Z;
  aa_nextRequest : Z;
  aa_policies : gmap string QuorumApprovalPolicy;
  aa_requests : gmap string BreakGlassRequest;
}.
#[export] Instance AccessApprovalStore_eta : Eta AccessApprovalStore := λ r,
  mkAccessApprovals (aa_nextPolicy r) (aa_nextRequest r) (aa_policies r) (aa_requests r).

Definition NewAccessApprovalStore : AccessApprovalStore := mkAccessApprovals 0 0 ∅ ∅.

Inductive approval_error :=
  | ApprovalNoName | ApprovalNoStages | BreakGlassFields | BreakGlassShort | BreakGlassLong
  | ApprovalNoPolicy | ApprovalNoActor | BreakGlassNotFound | BreakGlassNotPending | BreakGlassStageRange
  | BreakGlassTwice | BreakGlassNotRevocable.

(** ** Policies *)

Definition normalize_stage (i : nat) (st : ApprovalStageRule) : ApprovalStageRule :=
  let name := TrimSpace (sr_Name st) in
  mkStageRule (if eqs name "" then "stage-" +:+ itoa (Z.of_nat (S i)) else name)
    (if sr_RequiredApprovals st <=? 0 then 1 else sr_RequiredApprovals st).

Definition normalizeApprovalStages (l : list ApprovalStageRule) : result approval_error (list ApprovalStageRule) :=
  if bool_decide (l = []) then Err ApprovalNoStages else Ok (imap normalize_stage l).

Definition CreateApprovalPolicy (name : string) (stages : list ApprovalStageRule) (now : Time)
    (s : AccessApprovalStore) : AccessApprovalStore * result approval_error QuorumApprovalPolicy :=
  let name := TrimSpace name in
  if eqs name "" then (s, Err ApprovalNoName)
  else
    match normalizeApprovalStages stages with
    | Err e => (s, Err e)
    | Ok stages =>
        let next := aa_nextPolicy s + 1 in
        let p := mkApprovalPolicy ("approval-policy-" +:+ itoa next) name stages now now in
        (s <| aa_nextPolicy := next |> <| aa_policies := <[qp_ID p := p]> (aa_policies s) |>, Ok p)
    end.

Definition policy_later (p q : QuorumApprovalPolicy) : Prop := qp_CreatedAt q ≤ qp_CreatedAt p.
#[export] Instance policy_later_dec p q : Decision (policy_later p q).
Proof. unfold policy_later. apply _. Defined.

Definition ListApprovalPolicies (s : AccessApprovalStore) : list QuorumApprovalPolicy :=
  merge_sort policy_later (map_to_list (aa_policies s)).*2.

Definition GetApprovalPolicy (id : string) (s : AccessApprovalStore) : option QuorumApprovalPolicy :=
  aa_policies s !! TrimSpace id.

(** ** Requests *)

Definition put_request (r : BreakGlassRequest) (s : AccessApprovalStore) : AccessApprovalStore :=
  s <| aa_requests := <[bg_ID r := r]> (aa_requests s) |>.

Definition CreateBreakGlassRequest (requestedBy reason scope policyID : string) (ttl : Z) (now : Time)
    (s : AccessApprovalStore) : AccessApprovalStore * result approval_error BreakGlassRequest :=
  let requestedBy := TrimSpace requestedBy in
  let reason := TrimSpace reason in
  let scope := TrimSpace scope in
  let policyID := TrimSpace policyID in
  if eqs requestedBy "" || eqs reason "" || eqs scope "" || eqs policyID "" then (s, Err BreakGlassFields)
  else
    let ttl := if ttl <=? 0 then 3600 else ttl in
    if ttl <? 300 then (s, Err BreakGlassShort)
    else if 86400 <? ttl then (s, Err BreakGlassLong)
    else
      match aa_policies s !! policyID with
      | None => (s, Err ApprovalNoPolicy)
      | Some policy =>
          let next := aa_nextRequest s + 1 in
          let req := mkBreakGlass ("breakglass-" +:+ itoa next) requestedBy reason scope (qp_ID policy)
                       (qp_Name policy) (qp_Stages policy) 0 BreakGlassPending [] ttl now now None None None None "" in
          (put_request req (s <| aa_nextRequest := next |>), Ok req)
      end.

Definition expire_request (now : Time) (r : BreakGlassRequest) : BreakGlassRequest :=
  match bg_Status r, bg_ExpiresAt r with
  | BreakGlassActive, Some expires =>
      if negb (Before now expires) then r <| bg_Status := BreakGlassExpired |> <| bg_UpdatedAt := now |> else r
  | _, _ => r
  end.

Definition expireBreakGlassRequestsLocked (now : Time) (s : AccessApprovalStore) : AccessApprovalStore :=
  s <| aa_requests := expire_request now <$> aa_requests s |>.

Definition request_later (r q : BreakGlassRequest) : Prop := bg_CreatedAt q ≤ bg_CreatedAt r.
#[export] Instance request_later_dec r q : Decision (request_later r q).
Proof. unfold request_later. apply _. Defined.

Definition ListBreakGlassRequests (now : Time) (s : AccessApprovalStore)
    : AccessApprovalStore * list BreakGlassRequest :=
  let s := expireBreakGlassRequestsLocked now s in
  (s, merge_sort request_later (map_to_list (aa_requests s)).*2).

Definition GetBreakGlassRequest (id : string) (now : Time) (s : AccessApprovalStore)
    : AccessApprovalStore * option BreakGlassRequest :=
  let s := expireBreakGlassRequestsLocked now s in
  (s, aa_requests s !! TrimSpace id).

Definition stage_of (r : BreakGlassRequest) : option ApprovalStageRule :=
  if bg_CurrentStage r <? 0 then None else bg_Stages r !! Z.to_nat (bg_CurrentStage r).

Definition is_approval (i : Z) (a : BreakGlassApproval) : bool :=
  (ba_StageIndex a =? i) && eqs (ba_Decision a) "approve".

Definition countApprovalsForStage (r : BreakGlassRequest) (i : Z) : Z :=
  Z.of_nat (length (filter (λ a, is_approval i a = true) (bg_Approvals r))).

(** [req.Approvals = append(req.Approvals, ...)] at the current stage. *)
Definition add_approval (actor decision comment stageName : string) (now : Time) (r : BreakGlassRequest)
    : BreakGlassRequest :=
  r <| bg_Approvals := bg_Approvals r ++
         [mkApproval actor decision (TrimSpace comment) (bg_CurrentStage r) stageName now] |>.

(** The end of a stage, and of the last one. *)
Definition finish_stage (now : Time) (r : BreakGlassRequest) : BreakGlassRequest :=
  let next := bg_CurrentStage r + 1 in
  let r := r <| bg_CurrentStage := next |> in
  if Z.of_nat (length (bg_Stages r)) <=? next then
    r <| bg_Status := BreakGlassActive |> <| bg_ActivatedAt := Some now |>
      <| bg_ExpiresAt := Some (Add now (seconds (bg_TTLSeconds r))) |>
  else r.

Definition complete_stage (stage : ApprovalStageRule) (now : Time) (r : BreakGlassRequest) : BreakGlassRequest :=
  if sr_RequiredApprovals stage <=? countApprovalsForStage r (bg_CurrentStage r) then finish_stage now r else r.

Definition ApproveBreakGlassRequest (id actor comment : string) (now : Time) (s : AccessApprovalStore)
    : AccessApprovalStore * result approval_error BreakGlassRequest :=
  let id := TrimSpace id in
  let actor := TrimSpace actor in
  if eqs actor "" then (s, Err ApprovalNoActor)
  else
    let s := expireBreakGlassRequestsLocked now s in
    match aa_requests s !! id with
    | None => (s, Err BreakGlassNotFound)
    | Some req =>
        if bool_decide (bg_Status req ≠ BreakGlassPending) then (s, Err BreakGlassNotPending)
        else
          match stage_of req with
          | None => (s, Err BreakGlassStageRange)
          | Some stage =>
              if existsb (λ a, (ba_StageIndex a =? bg_CurrentStage req) && EqualFold (ba_Actor a) actor)
                   (bg_Approvals req)
              then (s, Err BreakGlassTwice)
              else
                let req := complete_stage stage now (add_approval actor "approve" comment (sr_Name stage) now req) in
                let req := req <| bg_UpdatedAt := now |> in
                (put_request req s, Ok req)
          end
    end.

Definition stage_name (default_name : string) (r : BreakGlassRequest) : string :=
  match stage_of r with
  | Some st => sr_Name st
  | None => default_name
  end.

Definition RejectBreakGlassRequest (id actor comment : string) (now : Time) (s : AccessApprovalStore)
    : AccessApprovalStore * result approval_error BreakGlassRequest :=
  let id := TrimSpace id in
  let actor := TrimSpace actor in
  if eqs actor "" then (s, Err ApprovalNoActor)
  else
    let s := expireBreakGlassRequestsLocked now s in
    match aa_requests s !! id with
    | None => (s, Err BreakGlassNotFound)
    | Some req =>
        if bool_decide (bg_Status req ≠ BreakGlassPending) then (s, Err BreakGlassNotPending)
        else
          let req := add_approval actor "reject" comment (stage_name "pending" req) now req in
          let req := req <| bg_Status := BreakGlassRejected |> <| bg_RejectedAt := Some now |>
                         <| bg_RejectionReason := TrimSpace comment |> <| bg_UpdatedAt := now |> in
          (put_request req s, Ok req)
    end.

Definition RevokeBreakGlassRequest (id actor reason : string) (now : Time) (s : AccessApprovalStore)
    : AccessApprovalStore * result approval_error BreakGlassRequest :=
  let id := TrimSpace id in
  let actor := TrimSpace actor in
  if eqs actor "" then (s, Err ApprovalNoActor)
  else
    let s := expireBreakGlassRequestsLocked now s in
    match aa_requests s !! id with
    | None => (s, Err BreakGlassNotFound)
    | Some req =>
        if bool_decide (bg_Status req ≠ BreakGlassPending) && bool_decide (bg_Status req ≠ BreakGlassActive)
        then (s, Err BreakGlassNotRevocable)
        else
          let req := add_approval actor "revoke" reason (stage_name "revoke" req) now req in
          let req := req <| bg_Status := BreakGlassRevoked |> <| bg_RevokedAt := Some now |>
                         <| bg_UpdatedAt := now |> in
          (put_request req s, Ok req)
    end.

Inductive approval_op :=
  | OpPolicyCreate (name : string) (stages : list ApprovalStageRule)
  | OpRequest (requestedBy reason scope policyID : string) (ttl : Z)
  | OpRead
  | OpApprove (id actor comment : string)
  | OpReject (id actor comment : string)
  | OpRevoke (id actor reason : string).

Definition run_approval_op (o : approval_op) (now : Time) (s : AccessApprovalStore) : AccessApprovalStore :=
  match o with
  | OpPolicyCreate name stages => (CreateApprovalPolicy name stages now s).1
  | OpRequest by_ reason scope policyID ttl => (CreateBreakGlassRequest by_ reason scope policyID ttl now s).1
  | OpRead => (ListBreakGlassRequests now s).1
  | OpApprove id actor comment => (ApproveBreakGlassRequest id actor comment now s).1
  | OpReject id actor comment => (RejectBreakGlassRequest id actor comment now s).1
  | OpRevoke id actor reason => (RevokeBreakGlassRequest id actor reason now s).1
  end.

Definition run_approval_ops (os : list (approval_op * Time)) (s : AccessApprovalStore) : AccessApprovalStore :=
  foldl (λ s o, run_approval_op o.1 o.2 s) s os.

(** ** The life of a request *)

(** Those who approved stage [i], up to the case of their names. *)
Definition approvers (i : Z) (r : BreakGlassRequest) : list string :=
  (λ a, ToLower (ba_Actor a)) <$> filter (λ a, is_approval i a = true) (bg_Approvals r).

Definition nstages (r : BreakGlassRequest) : Z := Z.of_nat (length (bg_Stages r)).

Record request_ok (id : string) (r : BreakGlassRequest) : Prop := {
  rq_id : bg_ID r = id;
  rq_stages : bg_Stages r ≠ [] ∧ ∀ i st, bg_Stages r !! i = Some st → 1 ≤ sr_RequiredApprovals st;
  rq_ttl : 300 ≤ bg_TTLSeconds r ≤ 86400;
  rq_current : 0 ≤ bg_CurrentStage r ≤ nstages r;
  rq_active : is_Some (bg_ActivatedAt r) ↔ bg_CurrentStage r = nstages r;
  rq_pending : bg_Status r = BreakGlassPending → bg_CurrentStage r < nstages r;
  rq_open : bg_Status r = BreakGlassActive ∨ bg_Status r = BreakGlassExpired → bg_CurrentStage r = nstages r;
  rq_expires : bg_ExpiresAt r = (λ t, Add t (seconds (bg_TTLSeconds r))) <$> bg_ActivatedAt r;
  rq_nodup i : NoDup (approvers i r);
  rq_done i st : bg_Stages r !! i = Some st → Z.of_nat i < bg_CurrentStage r →
    Z.of_nat (length (approvers (Z.of_nat i) r)) = sr_RequiredApprovals st;
  rq_open_stage i st : bg_Stages r !! i = Some st → Z.of_nat i = bg_CurrentStage r →
    Z.of_nat (length (approvers (Z.of_nat i) r)) < sr_RequiredApprovals st;
  rq_later i : bg_CurrentStage r < i → approvers i r = [];
}.

(** What a status may become. *)
Definition becomes (a b : BreakGlassStatus) : bool :=
  match a, b with
  | BreakGlassPending, _ => true
  | BreakGlassActive, (BreakGlassActive | BreakGlassExpired | BreakGlassRevoked) => true
  | _, _ => bool_decide (a = b)
  end.

(** [r'] is [r] at a later time. *)
Record evolves (r r' : BreakGlassRequest) : Prop := {
  ev_status : becomes (bg_Status r) (bg_Status r') = true;
  ev_same : bg_ID r' = bg_ID r ∧ bg_RequestedBy r' = bg_RequestedBy r ∧ bg_Scope r' = bg_Scope r ∧
    bg_PolicyID r' = bg_PolicyID r ∧ bg_Stages r' = bg_Stages r ∧ bg_TTLSeconds r' = bg_TTLSeconds r;
  ev_approvals : ∃ l, bg_Approvals r' = bg_Approvals r ++ l;
  ev_activated t : bg_ActivatedAt r = Some t → bg_ActivatedAt r' = Some t;
}.

#[export] Instance evolves_preorder : PreOrder evolves.
Proof.
  split.
  - intros r. split; [by destruct (bg_Status r)|done|by exists []; rewrite app_nil_r|done].
  - intros r1 r2 r3 [H1 (A1 & A2 & A3 & A4 & A5 & A6) [l1 L1] T1] [H2 (B1 & B2 & B3 & B4 & B5 & B6) [l2 L2] T2].
    split; [|split_and!; congruence|exists (l1 ++ l2); by rewrite L2, L1, app_assoc|auto].
    by destruct (bg_Status r1), (bg_Status r2), (bg_Status r3).
Qed.

Lemma approvers_app i r r' l :
  bg_Approvals r' = bg_Approvals r ++ l →
  approvers i r' = approvers i r ++ ((λ a, ToLower (ba_Actor a)) <$> filter (λ a, is_approval i a = true) l).
Proof. intros Heq. unfold approvers. by rewrite Heq, filter_app, fmap_app. Qed.

Lemma approvers_add actor decision comment name now r i :
  approvers i (add_approval actor decision comment name now r) =
    approvers i r ++ (if (bg_CurrentStage r =? i) && eqs decision "approve" then [ToLower actor] else []).
Proof.
  erewrite approvers_app by done. f_equal. unfold is_approval. rewrite filter_cons, filter_nil. cbn.
  by destruct ((bg_CurrentStage r =? i) && eqs decision "approve").
Qed.

Lemma count_approvers i r : countApprovalsForStage r i = Z.of_nat (length (approvers i r)).
Proof. unfold countApprovalsForStage, approvers. by rewrite length_fmap. Qed.

Lemma expire_request_ok id now r : request_ok id r → request_ok id (expire_request now r) ∧ evolves r (expire_request now r).
Proof.
  intros Hok. unfold expire_request. destruct (bg_Status r) eqn:Hst; try by split.
  destruct (bg_ExpiresAt r) as [e|] eqn:He; [|by split]. destruct (negb _); [|by split]. split.
  - destruct Hok as [H1 H2 H3 H4 H5 H6 H7 H8 H9 H10 H11 H12]. split; try done. intros _. apply H7. by left.
  - split; [by rewrite Hst|done|exists []; by rewrite app_nil_r|done].
Qed.

(** A request is ended without being approved. *)
Lemma ended_ok id actor decision comment name now r r' st :
  request_ok id r → decision ≠ "approve" → st = BreakGlassRejected ∨ st = BreakGlassRevoked →
  becomes (bg_Status r) st = true →
  r' = add_approval actor decision comment name now r <| bg_Status := st |> <| bg_RejectedAt := bg_RejectedAt r' |>
         <| bg_RevokedAt := bg_RevokedAt r' |> <| bg_RejectionReason := bg_RejectionReason r' |>
         <| bg_UpdatedAt := now |> →
  request_ok id r' ∧ evolves r r'.
Proof.
  intros Hok Hd Hst Hb ->. split.
  - assert (∀ i, approvers i (add_approval actor decision comment name now r) = approvers i r) as Ha.
    { intros i. rewrite approvers_add, (proj2 (eqs_false _ _) Hd), andb_false_r. apply app_nil_r. }
    destruct Hok as [H1 H2 H3 H4 H5 H6 H7 H8 H9 H10 H11 H12]. split; try done.
    + by destruct Hst as [-> | ->].
    + by destruct Hst as [-> | ->]; intros [|].
    + intros i. specialize (H9 i). by rewrite <-Ha in H9.
    + intros i x Hx Hi. specialize (H10 i x Hx Hi). by rewrite <-Ha in H10.
    + intros i x Hx Hi. specialize (H11 i x Hx Hi). by rewrite <-Ha in H11.
    + intros i Hi. specialize (H12 i Hi). by rewrite <-Ha in H12.
  - split; [done|done|by eexists|done].
Qed.

Lemma not_yet_approved i actor r :
  existsb (λ a, (ba_StageIndex a =? i) && EqualFold (ba_Actor a) actor) (bg_Approvals r) = false →
  ToLower actor ∉ approvers i r.
Proof.
  intros He Hin. unfold approvers in Hin. apply list_elem_of_fmap in Hin as (a & Heq & Ha).
  apply list_elem_of_filter in Ha as [Hi Ha]. apply not_true_iff_false in He. apply He, existsb_exists.
  exists a. split; [by apply list_elem_of_In|]. unfold is_approval in Hi. apply andb_true_iff in Hi as [-> _].
  by apply bool_decide_eq_true.
Qed.

Lemma stage_of_Some r st :
  stage_of r = Some st ↔ 0 ≤ bg_CurrentStage r ∧ bg_Stages r !! Z.to_nat (bg_CurrentStage r) = Some st.
Proof. unfold stage_of. destruct (Z.ltb_spec (bg_CurrentStage r) 0); [split; [done|lia]|]. naive_solver. Qed.

(** The approvals of [r1] are those of [r] with one more at the current stage [c]. *)
Lemma approved_stage id r r1 actor st c :
  request_ok id r → c = bg_CurrentStage r → stage_of r = Some st → ToLower actor ∉ approvers c r →
  (∀ i, approvers i r1 = approvers i r ++ (if c =? i then [ToLower actor] else [])) →
  (∀ i, NoDup (approvers i r1)) ∧
  (∀ i x, bg_Stages r !! i = Some x → Z.of_nat i < c →
     Z.of_nat (length (approvers (Z.of_nat i) r1)) = sr_RequiredApprovals x) ∧
  Z.of_nat (length (approvers c r1)) = Z.of_nat (length (approvers c r)) + 1 ∧
  Z.of_nat (length (approvers c r)) < sr_RequiredApprovals st ∧ (∀ i, c < i → approvers i r1 = []).
Proof.
  intros Hok -> Hst Hnew Ha. apply stage_of_Some in Hst as [Hpos Hst]. split_and!.
  - intros i. rewrite Ha. destruct (Z.eqb_spec (bg_CurrentStage r) i) as [<-|].
    + apply NoDup_app. split_and!; [apply (rq_nodup _ _ Hok)| |apply NoDup_singleton].
      by intros x Hx ->%list_elem_of_singleton.
    + rewrite app_nil_r. apply (rq_nodup _ _ Hok).
  - intros i x Hx Hi. rewrite Ha. destruct (Z.eqb_spec (bg_CurrentStage r) (Z.of_nat i)); [lia|].
    rewrite app_nil_r. by apply (rq_done _ _ Hok).
  - rewrite Ha, Z.eqb_refl, length_app. cbn. lia.
  - pose proof (rq_open_stage _ _ Hok _ _ Hst) as Hlt. rewrite Z2Nat.id in Hlt by done. by apply Hlt.
  - intros i Hi. rewrite Ha. destruct (Z.eqb_spec (bg_CurrentStage r) i); [lia|].
    by rewrite (rq_later _ _ Hok).
Qed.

(** Where one more approval leads. *)
Definition advanced (r r' : BreakGlassRequest) (required approved : Z) : Prop :=
  let c := bg_CurrentStage r in
  (bg_CurrentStage r' = c ∧ approved < required ∧ bg_Status r' = BreakGlassPending ∧ bg_ActivatedAt r' = None ∧
   bg_ExpiresAt r' = None) ∨
  (bg_CurrentStage r' = c + 1 ∧ required ≤ approved ∧
   (c + 1 < nstages r ∧ bg_Status r' = BreakGlassPending ∧ bg_ActivatedAt r' = None ∧ bg_ExpiresAt r' = None ∨
    nstages r ≤ c + 1 ∧ bg_Status r' = BreakGlassActive ∧
      ∃ t, bg_ActivatedAt r' = Some t ∧ bg_ExpiresAt r' = Some (Add t (seconds (bg_TTLSeconds r))))).

Lemma advanced_ok id actor r r' st :
  request_ok id r → bg_Status r = BreakGlassPending → stage_of r = Some st →
  ToLower actor ∉ approvers (bg_CurrentStage r) r →
  bg_ID r' = bg_ID r → bg_Stages r' = bg_Stages r → bg_TTLSeconds r' = bg_TTLSeconds r →
  (∀ i, approvers i r' = approvers i r ++ (if bg_CurrentStage r =? i then [ToLower actor] else [])) →
  advanced r r' (sr_RequiredApprovals st) (Z.of_nat (length (approvers (bg_CurrentStage r) r)) + 1) →
  request_ok id r'.
Proof.
  intros Hok Hpend Hst Hnew Hid Hstages Httl Ha Hadv.
  destruct (approved_stage _ _ _ _ _ _ Hok eq_refl Hst Hnew Ha) as (Hnd & Hdone & Hlen & Hlt & Hlater).
  apply stage_of_Some in Hst as [Hpos Hst]. pose proof (rq_pending _ _ Hok Hpend) as Hc.
  assert (nstages r' = nstages r) as Hn by (unfold nstages; by rewrite Hstages).
  assert (∀ i x, bg_Stages r !! i = Some x → Z.of_nat i = bg_CurrentStage r → x = st) as Hcur.
  { intros i x Hx Heq. rewrite <-Heq, Nat2Z.id in Hst. congruence. }
  assert (∀ i x, bg_Stages r !! i = Some x → Z.of_nat i < nstages r) as Hin.
  { intros i x Hx%lookup_lt_Some. unfold nstages. lia. }
  split; rewrite ?Hid, ?Hstages, ?Httl, ?Hn.
  - apply Hok.
  - apply Hok.
  - apply Hok.
  - destruct Hadv as [(-> & _)|(-> & _)]; lia.
  - destruct Hadv as [(-> & _ & _ & -> & _)|(-> & _ & [(? & _ & -> & _)|(? & _ & t & -> & _)])];
      (split; [intros [? ?]|intros ?]; try done; try lia; by eexists).
  - destruct Hadv as [(-> & _)|(-> & _ & [?|(_ & -> & _)])]; [lia|lia|done].
  - destruct Hadv as [(_ & _ & -> & _)|(-> & _ & [(_ & -> & _)|?])]; [by intros []|by intros []|lia].
  - destruct Hadv as [(_ & _ & _ & -> & ->)|(_ & _ & [(_ & _ & -> & ->)|(_ & _ & t & -> & ->)])]; done.
  - done.
  - intros i x Hx Hi. destruct (decide (Z.of_nat i = bg_CurrentStage r)) as [Heq|Hne].
    + destruct Hadv as [(Hr & _)|(_ & Hfull & _)]; [lia|]. rewrite Heq, Hlen. pose proof (Hcur _ _ Hx Heq) as ->. lia.
    + apply Hdone; [done|]. destruct Hadv as [(Hr & _)|(Hr & _)]; lia.
  - intros i x Hx Hi. destruct Hadv as [(Hr & Hmore & _)|(Hr & _ & Hend)].
    + rewrite Hi, Hr, Hlen. rewrite Hr in Hi. pose proof (Hcur _ _ Hx Hi) as ->. lia.
    + rewrite Hi, Hlater by lia. cbn. destruct (rq_stages _ _ Hok) as [_ Hreq]. specialize (Hreq _ _ Hx). lia.
  - intros i Hi. apply Hlater. destruct Hadv as [(Hr & _)|(Hr & _)]; lia.
Qed.

(** [r'] is [r] with another status, stage, and times. *)
Definition same_request (r r' : BreakGlassRequest) : Prop :=
  bg_ID r' = bg_ID r ∧ bg_RequestedBy r' = bg_RequestedBy r ∧ bg_Scope r' = bg_Scope r ∧
  bg_PolicyID r' = bg_PolicyID r ∧ bg_Stages r' = bg_Stages r ∧ bg_TTLSeconds r' = bg_TTLSeconds r.

Lemma complete_stage_spec st now r :
  bg_Status r = BreakGlassPending → bg_ActivatedAt r = None → bg_ExpiresAt r = None →
  let r' := complete_stage st now r in
  same_request r r' ∧ bg_Approvals r' = bg_Approvals r ∧
  advanced r r' (sr_RequiredApprovals st) (countApprovalsForStage r (bg_CurrentStage r)).
Proof.
  intros Hp Ha He. unfold complete_stage, advanced, finish_stage, nstages.
  destruct (Z.leb_spec (sr_RequiredApprovals st) (countApprovalsForStage r (bg_CurrentStage r))).
  2: { split_and!; [by split_and!|done|]. left. by split_and!. }
  destruct r as [id by_ reason scope pid pname stages c status approvals ttl created updated act exp rej rev why].
  cbn in *. subst. destruct (Z.leb_spec (Z.of_nat (length stages)) (c + 1)); cbn.
  - split_and!; [by split_and!|done|right]. split_and!; [done|done|right]. split_and!; [done|done|by eexists].
  - split_and!; [by split_and!|done|right]. split_and!; [done|done|left]. by split_and!.
Qed.

Lemma approve_ok id actor comment now r st :
  request_ok id r → bg_Status r = BreakGlassPending → stage_of r = Some st →
  ToLower actor ∉ approvers (bg_CurrentStage r) r →
  let r' := (complete_stage st now (add_approval actor "approve" comment (sr_Name st) now r)) <| bg_UpdatedAt := now |> in
  request_ok id r' ∧ evolves r r'.
Proof.
  intros Hok Hpend Hst Hnew.
  assert (bg_ActivatedAt r = None ∧ bg_ExpiresAt r = None) as [Hna Hne].
  { rewrite (rq_expires _ _ Hok). destruct (bg_ActivatedAt r) eqn:He; [|done]. pose proof (rq_pending _ _ Hok Hpend).
    pose proof (proj1 (rq_active _ _ Hok)) as Hact. rewrite He in Hact. rewrite Hact in * by done. lia. }
  pose proof (approvers_add actor "approve" comment (sr_Name st) now r) as Ha.
  assert (bg_Approvals (add_approval actor "approve" comment (sr_Name st) now r) = bg_Approvals r ++
    [mkApproval actor "approve" (TrimSpace comment) (bg_CurrentStage r) (sr_Name st) now]) as Happ by done.
  pose proof (complete_stage_spec st now (add_approval actor "approve" comment (sr_Name st) now r) Hpend Hna Hne) as Hc.
  assert (same_request r (add_approval actor "approve" comment (sr_Name st) now r)) as Hsame by by split_and!.
  assert (bg_CurrentStage (add_approval actor "approve" comment (sr_Name st) now r) = bg_CurrentStage r) as Hcur by done.
  revert Ha Happ Hc Hsame Hcur. generalize (add_approval actor "approve" comment (sr_Name st) now r). intros r1.
  generalize (complete_stage st now r1). intros r2 Ha Happ (Hs2 & Happ2 & Hadv) Hs1 Hcur.
  rewrite count_approvers, Hcur, Ha, Z.eqb_refl, length_app in Hadv. cbn in Hadv.
  destruct Hs1 as (A1 & A2 & A3 & A4 & A5 & A6), Hs2 as (B1 & B2 & B3 & B4 & B5 & B6).
  assert (advanced r (r2 <| bg_UpdatedAt := now |>) (sr_RequiredApprovals st)
    (Z.of_nat (length (approvers (bg_CurrentStage r) r)) + 1)) as Hadv'.
  { unfold advanced, nstages in *. cbn. rewrite Hcur, A5, A6 in Hadv. by rewrite Nat2Z.inj_add in Hadv. }
  split.
  - apply (advanced_ok id actor r _ st); [done..|cbn; congruence|cbn; congruence|cbn; congruence| |done].
    intros i. pose proof (Ha i) as Hi. rewrite andb_true_r in Hi. rewrite <-Hi. unfold approvers. cbn. by rewrite Happ2.
  - split; cbn; [by rewrite Hpend|split_and!; congruence|eexists; by rewrite Happ2|congruence].
Qed.

(** ** The store *)

Record approvals_inv (s : AccessApprovalStore) : Prop := {
  ai_policy id p : aa_policies s !! id = Some p →
    qp_Stages p ≠ [] ∧ ∀ i st, qp_Stages p !! i = Some st → 1 ≤ sr_RequiredApprovals st;
  ai_request id r : aa_requests s !! id = Some r →
    request_ok id r ∧ ∃ n, id = "breakglass-" +:+ itoa n ∧ 0 < n ≤ aa_nextRequest s;
  ai_next : 0 ≤ aa_nextRequest s;
}.

(** Every request of [s] is in [s'], later. *)
Definition later (s s' : AccessApprovalStore) : Prop :=
  ∀ id r, aa_requests s !! id = Some r → ∃ r', aa_requests s' !! id = Some r' ∧ evolves r r'.

#[export] Instance later_preorder : PreOrder later.
Proof.
  split; [intros s id r Hr; by exists r|]. intros s1 s2 s3 H1 H2 id r Hr.
  destruct (H1 id r Hr) as (r2 & Hr2 & He). destruct (H2 id r2 Hr2) as (r3 & Hr3 & He').
  exists r3. split; [done|]. by etrans.
Qed.

Lemma expire_inv now s :
  approvals_inv s → approvals_inv (expireBreakGlassRequestsLocked now s) ∧
  later s (expireBreakGlassRequestsLocked now s).
Proof.
  intros [Hp Hr Hn]. split.
  - split; [done| |done]. intros id r'. cbn. rewrite lookup_fmap. intros (r & Hlk & ->)%fmap_Some.
    destruct (Hr id r Hlk) as [Hok ?]. split; [by apply expire_request_ok|done].
  - intros id r Hlk. exists (expire_request now r). cbn. rewrite lookup_fmap, Hlk. split; [done|].
    by eapply (expire_request_ok id), Hr.
Qed.

Lemma put_request_inv id r r' s :
  approvals_inv s → aa_requests s !! id = Some r → request_ok id r' → evolves r r' →
  approvals_inv (put_request r' s) ∧ later s (put_request r' s).
Proof.
  intros [Hp Hr Hn] Hlk Hok He. unfold put_request. rewrite (rq_id _ _ Hok). split.
  - split; [done| |done]. intros i x. cbn. rewrite lookup_insert_Some. intros [[<- <-]|[_ Hx]]; [|by apply Hr].
    split; [done|]. by apply (Hr _ _ Hlk).
  - intros i x Hx. cbn. destruct (decide (i = id)) as [->|Hne].
    + exists r'. rewrite lookup_insert_eq. rewrite Hlk in Hx. by injection Hx as <-.
    + exists x. by rewrite lookup_insert_ne.
Qed.

Lemma CreateApprovalPolicy_inv name stages now s :
  approvals_inv s → approvals_inv (CreateApprovalPolicy name stages now s).1 ∧
  later s (CreateApprovalPolicy name stages now s).1.
Proof.
  intros Hs. unfold CreateApprovalPolicy. destruct (eqs _ ""); [done|]. unfold normalizeApprovalStages.
  case_bool_decide as Hnil; [done|]. cbn [fst]. split; [|intros id r Hr; by exists r].
  destruct Hs as [Hp Hr Hn]. split; [|done|done]. intros id p. cbn. rewrite lookup_insert_Some.
  intros [[_ <-]|[_ Hx]]; [|by eapply Hp]. cbn. split.
  - intros He. apply (f_equal length) in He. rewrite length_imap in He. by destruct stages.
  - intros i st. rewrite list_lookup_imap. intros (x & _ & ->)%fmap_Some. cbn.
    destruct (Z.leb_spec (sr_RequiredApprovals x) 0); lia.
Qed.

Lemma CreateBreakGlassRequest_inv by_ reason scope policyID ttl now s :
  approvals_inv s → aa_nextRequest s < max_int64 →
  approvals_inv (CreateBreakGlassRequest by_ reason scope policyID ttl now s).1 ∧
  later s (CreateBreakGlassRequest by_ reason scope policyID ttl now s).1.
Proof.
  intros Hs Hmax. unfold CreateBreakGlassRequest. destruct (_ || _); [done|].
  set (ttl' := if ttl <=? 0 then 3600 else ttl). destruct (Z.ltb_spec ttl' 300) as [|Hlo]; [done|].
  destruct (Z.ltb_spec 86400 ttl') as [|Hhi]; [done|].
  destruct (aa_policies s !! _) as [p|] eqn:Hpol; [|done]. cbn [fst].
  set (r := mkBreakGlass _ _ _ _ _ _ _ _ _ _ _ _ _ _ _ _ _ _). destruct Hs as [Hp Hr Hn].
  assert (aa_requests s !! bg_ID r = None) as Hfresh.
  { destruct (aa_requests s !! bg_ID r) as [x|] eqn:Hx; [|done]. destruct (Hr _ _ Hx) as (_ & n & Heq & Hb).
    unfold r in Heq. cbn in Heq. injection Heq as Heq. apply itoa_inj in Heq; unfold max_int64 in *; lia. }
  destruct (Hp _ _ Hpol) as [Hne Hreq].
  assert (0 < Z.of_nat (length (qp_Stages p))) as Hpos by (destruct (qp_Stages p); cbn; [done|lia]).
  split; [split; [done| |cbn; lia]|].
  - intros id x. cbn [aa_requests put_request update_field]. rewrite lookup_insert_Some. intros [[<- <-]|[_ Hx]].
    + split; [|exists (aa_nextRequest s + 1); split; [done|cbn; lia]].
      split; unfold nstages; cbn; try done; try lia.
      * split; [by intros [? ?]|lia].
      * by intros [].
      * intros i. apply NoDup_nil_2.
      * intros i st Hst _. specialize (Hreq i st Hst). lia.
    + destruct (Hr _ _ Hx) as (Hok & n & ? & ?). split; [done|]. exists n. split; [done|cbn; lia].
  - intros id x Hx. exists x. cbn [aa_requests put_request update_field]. split; [|done].
    rewrite lookup_insert_ne; [done|congruence].
Qed.

(** The request an operation works on, after expiry. *)
Lemma decision_inv now s s' id :
  approvals_inv s → (let s1 := expireBreakGlassRequestsLocked now s in
    s' = s1 ∨ ∃ r r', aa_requests s1 !! id = Some r ∧ s' = put_request r' s1 ∧
      (request_ok id r → request_ok id r' ∧ evolves r r')) →
  approvals_inv s' ∧ later s s'.
Proof.
  intros Hs Hcase. destruct (expire_inv now s Hs) as [Hs1 Hl1]. cbn zeta in Hcase.
  destruct Hcase as [->|(r & r' & Hr & -> & Hok)]; [done|].
  destruct Hok as [Hok He]; [by apply (ai_request _ Hs1)|].
  destruct (put_request_inv id r r' _ Hs1 Hr Hok He) as [? ?]. split; [done|]. by etrans.
Qed.

Lemma run_approval_op_inv o now s :
  approvals_inv s → aa_nextRequest s < max_int64 →
  approvals_inv (run_approval_op o now s) ∧ later s (run_approval_op o now s).
Proof.
  intros Hs Hmax. destruct o as [name stages|by_ reason scope policyID ttl| |id actor comment|id actor comment|id actor comment];
    cbn [run_approval_op].
  - by apply CreateApprovalPolicy_inv.
  - by apply CreateBreakGlassRequest_inv.
  - by apply expire_inv.
  - unfold ApproveBreakGlassRequest. destruct (eqs _ ""); [done|]. apply (decision_inv now s _ (TrimSpace id) Hs). cbn zeta.
    destruct (aa_requests _ !! TrimSpace id) as [r|] eqn:Hr; [|by left].
    case_bool_decide as Hp; [by left|]. destruct (stage_of r) as [st|] eqn:Hst; [|by left].
    destruct (existsb _ _) eqn:Hx; [by left|]. right. exists r. eexists. split; [done|]. split; [done|].
    intros Hok. apply approve_ok; [done..|]. by apply not_yet_approved.
  - unfold RejectBreakGlassRequest. destruct (eqs _ ""); [done|]. apply (decision_inv now s _ (TrimSpace id) Hs). cbn zeta.
    destruct (aa_requests _ !! TrimSpace id) as [r|] eqn:Hr; [|by left].
    case_bool_decide as Hp; [by left|]. right. exists r. eexists. split; [done|]. split; [done|].
    intros Hok. eapply (ended_ok _ (TrimSpace actor) "reject" comment (stage_name "pending" r) now r _ BreakGlassRejected);
      [done|done|by left|by rewrite Hp|reflexivity].
  - unfold RevokeBreakGlassRequest. destruct (eqs _ ""); [done|]. apply (decision_inv now s _ (TrimSpace id) Hs). cbn zeta.
    destruct (aa_requests _ !! TrimSpace id) as [r|] eqn:Hr; [|by left].
    destruct (bool_decide _ && bool_decide _) eqn:Hp; [by left|]. right. exists r. eexists. split; [done|]. split; [done|].
    intros Hok. eapply (ended_ok _ (TrimSpace actor) "revoke" comment (stage_name "revoke" r) now r _ BreakGlassRevoked);
      [done|done|by right| |reflexivity].
    apply andb_false_iff in Hp as [Hp|Hp]; apply bool_decide_eq_false, dec_stable in Hp; by rewrite Hp.
Qed.

Lemma run_approval_op_next o now s : aa_nextRequest s ≤ aa_nextRequest (run_approval_op o now s).
Proof.
  destruct o as [name stages|by_ reason scope policyID ttl| |id actor comment|id actor comment|id actor comment];
    cbn [run_approval_op].
  - unfold CreateApprovalPolicy. destruct (eqs _ ""); [done|]. by destruct (normalizeApprovalStages _).
  - unfold CreateBreakGlassRequest. destruct (_ || _); [done|].
    destruct (_ <? 300); [done|]. destruct (86400 <? _); [done|]. destruct (_ !! _); [cbn; lia|done].
  - done.
  - unfold ApproveBreakGlassRequest. destruct (eqs _ ""); [done|]. destruct (_ !! _); [|done].
    case_bool_decide; [done|]. destruct (stage_of _); [|done]. by destruct (existsb _ _).
  - unfold RejectBreakGlassRequest. destruct (eqs _ ""); [done|]. destruct (_ !! _); [|done]. by case_bool_decide.
  - unfold RevokeBreakGlassRequest. destruct (eqs _ ""); [done|]. destruct (_ !! _); [|done].
    by destruct (bool_decide _ && bool_decide _).
Qed.

Lemma run_approval_ops_next os s : aa_nextRequest s ≤ aa_nextRequest (run_approval_ops os s).
Proof.
  unfold run_approval_ops. revert s; induction os as [|o os IH]; intros s; cbn [foldl]; [done|].
  etrans; [apply run_approval_op_next|apply IH].
Qed.

Lemma run_approval_ops_inv os s :
  approvals_inv s → aa_nextRequest (run_approval_ops os s) < max_int64 →
  approvals_inv (run_approval_ops os s) ∧ later s (run_approval_ops os s).
Proof.
  unfold run_approval_ops. revert s; induction os as [|o os IH]; intros s Hs Hmax; cbn [foldl] in *; [done|].
  destruct (run_approval_op_inv o.1 o.2 s Hs) as [Hs1 Hl1].
  { pose proof (run_approval_op_next o.1 o.2 s). pose proof (run_approval_ops_next os (run_approval_op o.1 o.2 s)) as Hn.
    unfold run_approval_ops in Hn. lia. }
  destruct (IH _ Hs1 Hmax) as [Hs2 Hl2]. split; [done|]. by etrans.
Qed.

Lemma New_approvals_inv : approvals_inv NewAccessApprovalStore.
Proof. split; [| |done]; cbn; intros *; by rewrite lookup_empty. Qed.

(** C23: whatever is called, at whatever times: a request that is or was active
    has, for every stage of the policy it was made under, exactly the required
    number of approvals, by actors whose names differ even up to case, and
    expires its time to live after the activation; a pending or rejected one was
    never active; [Get] never shows a request as active at or after its expiry;
    and from any point on, a request keeps its identity, scope and stages, only
    gains decisions, and changes its status only forward. *)
Theorem break_glass_quorum os os' :
  let s := run_approval_ops os NewAccessApprovalStore in
  let s' := run_approval_ops os' s in
  aa_nextRequest s' < max_int64 →
  ∀ id r, aa_requests s !! id = Some r →
  (bg_Status r ∈ [BreakGlassActive; BreakGlassExpired] → is_Some (bg_ActivatedAt r)) ∧
  (bg_Status r = BreakGlassPending → bg_ActivatedAt r = None) ∧
  (∀ t, bg_ActivatedAt r = Some t →
     bg_ExpiresAt r = Some (t + bg_TTLSeconds r * Second) ∧ 300 ≤ bg_TTLSeconds r ≤ 86400 ∧ bg_Stages r ≠ [] ∧
     ∀ i st, bg_Stages r !! i = Some st →
       1 ≤ sr_RequiredApprovals st ∧ Z.of_nat (length (approvers (Z.of_nat i) r)) = sr_RequiredApprovals st ∧
       NoDup (approvers (Z.of_nat i) r)) ∧
  (∀ now x, (GetBreakGlassRequest id now s).2 = Some x → bg_Status x = BreakGlassActive →
     ∃ e, bg_ExpiresAt x = Some e ∧ now < e) ∧
  ∃ r', aa_requests s' !! id = Some r' ∧ evolves r r'.
Proof.
  intros s s' Hmax id r Hr.
  destruct (run_approval_ops_inv os _ New_approvals_inv) as [Hs _].
  { pose proof (run_approval_ops_next os' s). fold s. fold s' in H. lia. }
  fold s in Hs. destruct (run_approval_ops_inv os' s Hs Hmax) as [_ Hl]. fold s' in Hl.
  destruct (ai_request _ Hs _ _ Hr) as [Hok _].
  assert (is_Some (bg_ActivatedAt r) → ∀ i st, bg_Stages r !! i = Some st →
    Z.of_nat (length (approvers (Z.of_nat i) r)) = sr_RequiredApprovals st) as Hfull.
  { intros Hact i st Hst. apply (rq_done _ _ Hok); [done|]. apply (rq_active _ _ Hok) in Hact. rewrite Hact.
    apply lookup_lt_Some in Hst. unfold nstages. lia. }
  split_and!.
  - intros Hst. apply (rq_active _ _ Hok), (rq_open _ _ Hok). rewrite !elem_of_cons, elem_of_nil in Hst. naive_solver.
  - intros Hp. apply (rq_pending _ _ Hok) in Hp. destruct (bg_ActivatedAt r) eqn:Ha; [|done].
    pose proof (proj1 (rq_active _ _ Hok)) as Hact. rewrite Ha in Hact. rewrite Hact in Hp by done. lia.
  - intros t Ht. rewrite (rq_expires _ _ Hok), Ht. pose proof (rq_ttl _ _ Hok) as Httl.
    rewrite seconds_small by lia. split_and!; [done|lia|lia|apply Hok|]. intros i st Hst.
    split_and!; [by eapply (rq_stages _ _ Hok)|by apply Hfull; [rewrite Ht; eexists|]|apply (rq_nodup _ _ Hok)].
  - intros now x. cbn. rewrite lookup_fmap. intros (y & Hy & ->)%fmap_Some Hact.
    destruct (ai_request _ Hs _ _ Hy) as [Hoky _]. revert Hact. unfold expire_request.
    destruct (bg_Status y) eqn:Hsy; try (intros Hact; congruence).
    pose proof (rq_expires _ _ Hoky) as He. pose proof (rq_open _ _ Hoky (or_introl Hsy)) as Ho.
    apply (rq_active _ _ Hoky) in Ho as [t Ht]. rewrite Ht in He. rewrite He. cbn. unfold Before.
    destruct (Z.ltb_spec now (Add t (seconds (bg_TTLSeconds y)))); cbn; [|done].
    intros _. by eexists.
  - by apply Hl.
Qed.

(** ** A concrete request *)

Definition two_stages : list (approval_op * Time) :=
  [(OpPolicyCreate "prod" [mkStageRule "team" 1; mkStageRule " " 2], 1);
   (OpRequest "eve" "outage" "prod/db" "approval-policy-1" 600, 2);
   (OpApprove "breakglass-1" "ann" "ok", 3); (OpApprove "breakglass-1" "bob" "", 4);
   (OpApprove "breakglass-1" "BOB " "again", 5); (OpApprove "breakglass-1" "cy" "", 6)].

Lemma break_glass_quorum_witness :
  ∃ r, aa_requests (run_approval_ops two_stages NewAccessApprovalStore) !! "breakglass-1" = Some r ∧
    bg_Status r = BreakGlassActive ∧ bg_ExpiresAt r = Some (6 + 600 * Second) ∧
    approvers 0 r = ["ann"] ∧ approvers 1 r = ["bob"; "cy"] ∧
    Z.of_nat (length (approvers 1 r)) = 2.
Proof.
  destruct (aa_requests (run_approval_ops two_stages NewAccessApprovalStore) !! "breakglass-1") as [r|] eqn:Hr.
  2: { exfalso. vm_compute in Hr. discriminate Hr. }
  destruct (break_glass_quorum two_stages [] ltac:(vm_compute; reflexivity) "breakglass-1" r Hr) as (_ & _ & Hact & _).
  assert (bg_Status r = BreakGlassActive ∧ bg_ActivatedAt r = Some 6 ∧ bg_TTLSeconds r = 600 ∧
    bg_Stages r = [mkStageRule "team" 1; mkStageRule "stage-2" 2] ∧ approvers 0 r = ["ann"] ∧
    approvers 1 r = ["bob"; "cy"]) as (H1 & H2 & H3 & H4 & H5 & H6).
  { vm_compute in Hr. injection Hr as <-. by split_and!. }
  destruct (Hact 6 H2) as (He & _ & _ & Hq). rewrite H3 in He.
  exists r. split; [reflexivity|]. split; [exact H1|]. split; [exact He|]. split; [exact H5|]. split; [exact H6|].
  apply (Hq 1%nat (mkStageRule "stage-2" 2)). rewrite H4. reflexivity.
Defined.
