(* ===== verification/EventLog.v ===== *)
(** * The event log: [internal/control/events.go]

    Events are numbered and chained by hashes when they are appended; the oldest
    are dropped beyond a limit; subscribers get copies through channels that are
    written outside the mutex.  SHA-256 of the JSON of an event is a parameter:
    a function of what is hashed, whose result has no blanks around it.  Proved:
    an honest log verifies exactly until its first eviction, and two logs that
    verify with the same last hash hold the same events. *)

From S2P Require Import Prelude.

(** What [computeEventHash] hashes: strings are trimmed first. *)
Record Preimage {Fields : Type} : Type := mkPreimage {
  pi_index : Z;
  pi_time : Time;
  pi_type : string;
  pi_message : string;
  pi_fields : Fields;
  pi_prev : string;
}.
Arguments Preimage : clear implicits.
Arguments mkPreimage {Fields}.

Record Event {Fields : Type} : Type := mkEvent {
  ev_Index : Z;
  ev_Time : Time;
  ev_Type : string;
  ev_Message : string;
  ev_Fields : Fields;
  ev_PrevHash : string;
  ev_Hash : string;
}.
Arguments Event : clear implicits.
Arguments mkEvent {Fields}.

(** A channel of the given capacity; the store holds references to channels. *)
Record Chan {Fields : Type} : Type := mkChan { ch_cap : Z; ch_buf : list (Event Fields); ch_closed : bool }.
Arguments Chan : clear implicits.
Arguments mkChan {Fields}.

Record EventStore {Fields : Type} : Type := mkEventStore {
  es_events : list (Event Fields);
  es_limit : Z;
  es_nextIndex : Z;
  es_lastHash : string;
  es_nextSubscriberID : Z;
  es_subscribers : gmap Z Z;
}.
Arguments EventStore : clear implicits.
Arguments mkEventStore {Fields}.
#[export] Instance EventStore_eta Fields : Eta (EventStore Fields) := λ r,
  mkEventStore (es_events r) (es_limit r) (es_nextIndex r) (es_lastHash r) (es_nextSubscriberID r) (es_subscribers r).

Record EventQuery : Type := mkEventQuery {
  eq_Since : Time;
  eq_Until : Time;
  eq_TypePrefix : string;
  eq_Contains : string;
  eq_Limit : Z;
  eq_Desc : bool;
}.

Inductive violation_reason := IndexMismatch | PrevHashMismatch | HashMismatch (expected actual : string).

Record EventIntegrityViolation : Type := mkViolation { iv_Index : Z; iv_Reason : violation_reason }.

Record EventIntegrityReport : Type := mkReport {
  ir_Valid : bool;
  ir_Checked : Z;
  ir_LastHash : string;
  ir_Violations : list EventIntegrityViolation;
}.

Section log.
Context {Fields : Type}.
(** [hex.EncodeToString] of [sha256.Sum256] of the JSON of a preimage. *)
Variable digest : Preimage Fields → string.

Definition NewEventStore (limit : Z) : EventStore Fields :=
  mkEventStore [] (if limit <=? 0 then 10000 else limit) 0 "" 0 ∅.

Definition preimage (index : Z) (ts : Time) (eventType message : string) (fields : Fields) (prevHash : string)
    : Preimage Fields :=
  mkPreimage index ts (TrimSpace eventType) (TrimSpace message) fields (TrimSpace prevHash).

Definition hash_of (p : Preimage Fields) : string := "sha256:" +:+ digest p.

Definition computeEventHash (index : Z) (ts : Time) (eventType message : string) (fields : Fields)
    (prevHash : string) : string :=
  hash_of (preimage index ts eventType message fields prevHash).

Definition sealEventLocked (e : Event Fields) (now : Time) (s : EventStore Fields) : EventStore Fields * Event Fields :=
  let ts := if IsZero (ev_Time e) then now else ev_Time e in
  let next := es_nextIndex s + 1 in
  let hash := computeEventHash next ts (ev_Type e) (ev_Message e) (ev_Fields e) (es_lastHash s) in
  (s <| es_nextIndex := next |> <| es_lastHash := hash |>,
   mkEvent next ts (ev_Type e) (ev_Message e) (ev_Fields e) (es_lastHash s) hash).

(** [Append] under the mutex; the channels to send to are those of [subs]. *)
Definition append_locked (e : Event Fields) (now : Time) (s : EventStore Fields)
    : EventStore Fields * Event Fields * list Z :=
  let '(s, sealed) := sealEventLocked e now s in
  let events := if es_limit s <=? Z.of_nat (length (es_events s)) then tail (es_events s) ++ [sealed]
                else es_events s ++ [sealed] in
  (s <| es_events := events |>, sealed, (map_to_list (es_subscribers s)).*2).

Definition seal_next (now : Time) (s : EventStore Fields) (e : Event Fields) : EventStore Fields :=
  let '(s, sealed) := sealEventLocked e now s in s <| es_events := es_events s ++ [sealed] |>.

(** [items] is [nil] for [None]. *)
Definition Replace (items : option (list (Event Fields))) (now : Time) (s : EventStore Fields) : EventStore Fields :=
  let s := s <| es_events := [] |> <| es_lastHash := "" |> <| es_nextIndex := 0 |> in
  match items with
  | None => s
  | Some items =>
      let items := if es_limit s <? Z.of_nat (length items)
                   then drop (length items - Z.to_nat (es_limit s)) items else items in
      foldl (seal_next now) s items
  end.

Definition ListEvents (s : EventStore Fields) : list (Event Fields) := es_events s.

(** ** Queries *)

Definition event_matches (q : EventQuery) (e : Event Fields) : bool :=
  let typePrefix := norm (eq_TypePrefix q) in
  let contains := norm (eq_Contains q) in
  if negb (IsZero (eq_Since q)) && Before (ev_Time e) (eq_Since q) then false
  else if negb (IsZero (eq_Until q)) && After (ev_Time e) (eq_Until q) then false
  else if negb (eqs typePrefix "") && negb (HasPrefix (norm (ev_Type e)) typePrefix) then false
  else if negb (eqs contains "") && negb (Contains (ToLower (ev_Message e)) contains)
          && negb (Contains (ToLower (ev_Type e)) contains) then false
  else true.

(** The loop of [Query] over the events in the chosen order. *)
Fixpoint collect (q : EventQuery) (limit : Z) (out evs : list (Event Fields)) : list (Event Fields) :=
  match evs with
  | [] => out
  | e :: evs =>
      if event_matches q e then
        let out := out ++ [e] in
        if limit <=? Z.of_nat (length out) then out else collect q limit out evs
      else collect q limit out evs
  end.

Definition Query (q : EventQuery) (s : EventStore Fields) : list (Event Fields) :=
  let limit := if eq_Limit q <=? 0 then 200 else eq_Limit q in
  collect q limit [] (if eq_Desc q then reverse (es_events s) else es_events s).

(** ** Integrity *)

Definition check_event (i : nat) (prevHash : string) (e : Event Fields) : list EventIntegrityViolation :=
  let expectedHash := computeEventHash (ev_Index e) (ev_Time e) (ev_Type e) (ev_Message e) (ev_Fields e) prevHash in
  (if negb (ev_Index e =? Z.of_nat i + 1) then [mkViolation (ev_Index e) IndexMismatch] else []) ++
  (if negb (eqs (TrimSpace (ev_PrevHash e)) (TrimSpace prevHash))
   then [mkViolation (ev_Index e) PrevHashMismatch] else []) ++
  (if negb (eqs (TrimSpace (ev_Hash e)) expectedHash)
   then [mkViolation (ev_Index e) (HashMismatch expectedHash (ev_Hash e))] else []).

(** The loop from position [i] on: the violations, and the last hash computed. *)
Fixpoint verify_loop (i : nat) (prevHash : string) (evs : list (Event Fields))
    : list EventIntegrityViolation * string :=
  match evs with
  | [] => ([], prevHash)
  | e :: evs =>
      let expectedHash := computeEventHash (ev_Index e) (ev_Time e) (ev_Type e) (ev_Message e) (ev_Fields e) prevHash in
      let '(vs, last) := verify_loop (S i) expectedHash evs in
      (check_event i prevHash e ++ vs, last)
  end.

Definition VerifyIntegrity (s : EventStore Fields) : EventIntegrityReport :=
  let '(vs, last) := verify_loop 0 "" (es_events s) in
  mkReport (bool_decide (vs = [])) (Z.of_nat (length (es_events s))) last vs.

(** ** Subscribers

    [Append] writes to the channels after it has released the mutex, and
    [Unsubscribe] closes one after it has released it.  [sys_sending] are the
    calls of [Append] past their unlock, each with the channels left to write
    to; [sys_closing] are the calls of [Unsubscribe] past theirs. *)

Definition new_chan (buffer : Z) : Chan Fields := mkChan (if buffer <=? 0 then 64 else buffer) [] false.

(** [ch] is the reference to the channel made. *)
Definition Subscribe (ch : Z) (s : EventStore Fields) : EventStore Fields * Z :=
  let id := es_nextSubscriberID s + 1 in
  (s <| es_nextSubscriberID := id |> <| es_subscribers := <[id := ch]> (es_subscribers s) |>, id).

(** The channel to close after the unlock, if any. *)
Definition unsubscribe_locked (id : Z) (s : EventStore Fields) : EventStore Fields * option Z :=
  (s <| es_subscribers := delete id (es_subscribers s) |>, es_subscribers s !! id).

(** [select { case ch <- e: default: }]: dropped when the buffer is full;
    [None] is the panic of a send on a closed channel. *)
Definition try_send (e : Event Fields) (ch : Chan Fields) : option (Chan Fields) :=
  if ch_closed ch then None
  else if Z.of_nat (length (ch_buf ch)) <? ch_cap ch then Some (mkChan (ch_cap ch) (ch_buf ch ++ [e]) false)
  else Some ch.
End log.

Record LogSys {Fields : Type} : Type := mkLogSys {
  sys_store : EventStore Fields;
  sys_chans : gmap Z (Chan Fields);
  sys_sending : list (Event Fields * list Z);
  sys_closing : list Z;
  sys_panic : bool;
}.
Arguments LogSys : clear implicits.
Arguments mkLogSys {Fields}.
#[export] Instance LogSys_eta Fields : Eta (LogSys Fields) := λ r,
  mkLogSys (sys_store r) (sys_chans r) (sys_sending r) (sys_closing r) (sys_panic r).

Inductive log_label {Fields : Type} :=
  | AppendCall (e : Event Fields) (now : Time)
  | SendNext (k : nat)                     (* the [k]-th pending [Append] *)
  | SubscribeCall (buffer : Z)
  | UnsubscribeCall (id : Z)
  | CloseNext                              (* the oldest pending [Unsubscribe] *)
  | Receive (ch : Z).
Arguments log_label : clear implicits.

Section system.
Context {Fields : Type}.
Variable digest : Preimage Fields → string.

Definition send_next (k : nat) (w : LogSys Fields) : option (LogSys Fields) :=
  '(e, chs) ← sys_sending w !! k;
  match chs with
  | [] => Some (w <| sys_sending := delete k (sys_sending w) |>)
  | c :: chs =>
      ch ← sys_chans w !! c;
      let w := w <| sys_sending := <[k := (e, chs)]> (sys_sending w) |> in
      match try_send e ch with
      | Some ch => Some (w <| sys_chans := <[c := ch]> (sys_chans w) |>)
      | None => Some (w <| sys_panic := true |>)
      end
  end.

(** One step; [None] when it is not enabled.  After a panic nothing runs. *)
Definition log_exec (w : LogSys Fields) (l : log_label Fields) : option (LogSys Fields) :=
  if sys_panic w then None else
  match l with
  | AppendCall e now =>
      let '(s, sealed, subs) := append_locked digest e now (sys_store w) in
      Some (w <| sys_store := s |> <| sys_sending := sys_sending w ++ [(sealed, subs)] |>)
  | SendNext k => send_next k w
  | SubscribeCall buffer =>
      let c := Z.of_nat (size (sys_chans w)) in
      Some (w <| sys_store := (Subscribe c (sys_store w)).1 |>
              <| sys_chans := <[c := new_chan buffer]> (sys_chans w) |>)
  | UnsubscribeCall id =>
      let '(s, ch) := unsubscribe_locked id (sys_store w) in
      Some (w <| sys_store := s |> <| sys_closing := sys_closing w ++ option_list ch |>)
  | CloseNext =>
      match sys_closing w with
      | [] => None
      | c :: cs =>
          ch ← sys_chans w !! c;
          Some (w <| sys_closing := cs |> <| sys_chans := <[c := mkChan (ch_cap ch) (ch_buf ch) true]> (sys_chans w) |>)
      end
  | Receive c =>
      ch ← sys_chans w !! c;
      match ch_buf ch with
      | [] => None
      | _ :: buf => Some (w <| sys_chans := <[c := mkChan (ch_cap ch) buf (ch_closed ch)]> (sys_chans w) |>)
      end
  end.

Definition log_run (w : LogSys Fields) (ls : list (log_label Fields)) : option (LogSys Fields) :=
  foldl (λ w l, w ≫= λ w, log_exec w l) (Some w) ls.

Definition log_init (limit : Z) : LogSys Fields := mkLogSys (NewEventStore limit) ∅ [] [] false.
End system.

(** ** An honest log *)

Section theorems.
Context {Fields : Type}.
Variable digest : Preimage Fields → string.

(** Hexadecimal digits. *)
Hypothesis digest_no_blanks : ∀ p, no_blanks (digest p) = true.

(** What event [e] hashes to after [prev]. *)
Definition event_hash (prev : string) (e : Event Fields) : string :=
  computeEventHash digest (ev_Index e) (ev_Time e) (ev_Type e) (ev_Message e) (ev_Fields e) prev.

Lemma TrimSpace_event_hash prev e : TrimSpace (event_hash prev e) = event_hash prev e.
Proof. apply TrimSpace_no_blanks. simpl. apply digest_no_blanks. Qed.

(** The events from position [i] on, sealed one after the other from [prev]. *)
Fixpoint sealed_from (prev : string) (i : Z) (evs : list (Event Fields)) : Prop :=
  match evs with
  | [] => True
  | e :: evs =>
      ev_Index e = i + 1 ∧ ev_PrevHash e = prev ∧ ev_Hash e = event_hash prev e ∧
      sealed_from (ev_Hash e) (i + 1) evs
  end.

Definition last_hash (prev : string) (evs : list (Event Fields)) : string :=
  foldl (λ _ e, ev_Hash e) prev evs.

Lemma sealed_from_app prev i evs1 evs2 :
  sealed_from prev i (evs1 ++ evs2) ↔
  sealed_from prev i evs1 ∧ sealed_from (last_hash prev evs1) (i + Z.of_nat (length evs1)) evs2.
Proof.
  revert prev i; induction evs1 as [|e evs1 IH]; intros prev i; simpl.
  - rewrite Z.add_0_r. naive_solver.
  - rewrite IH. replace (i + 1 + Z.of_nat (length evs1)) with (i + Z.of_nat (S (length evs1))) by lia. tauto.
Qed.

(** The log is the end of everything sealed since it was last replaced: [gone]
    are the events evicted. *)
Definition LogInv (s : EventStore Fields) : Prop :=
  ∃ gone, sealed_from "" 0 (gone ++ es_events s) ∧
    es_nextIndex s = Z.of_nat (length (gone ++ es_events s)) ∧
    es_lastHash s = last_hash "" (gone ++ es_events s) ∧
    Z.of_nat (length (es_events s)) ≤ es_limit s ∧ 0 < es_limit s ∧
    (gone ≠ [] → Z.of_nat (length (es_events s)) = es_limit s).

Lemma LogInv_new limit : LogInv (NewEventStore limit).
Proof. exists []. unfold NewEventStore. simpl. destruct (Z.leb_spec limit 0); split_and!; try done; lia. Qed.

(** Sealing extends the chain. *)
Lemma sealed_from_snoc evs s e now :
  sealed_from "" 0 evs → es_nextIndex s = Z.of_nat (length evs) → es_lastHash s = last_hash "" evs →
  let '(s', sealed) := sealEventLocked digest e now s in
  sealed_from "" 0 (evs ++ [sealed]) ∧ es_nextIndex s' = Z.of_nat (length (evs ++ [sealed])) ∧
  es_lastHash s' = last_hash "" (evs ++ [sealed]).
Proof.
  intros Hevs Hi Hh. simpl. rewrite sealed_from_app, length_app. unfold last_hash in *. rewrite foldl_app. simpl.
  rewrite Hi, Hh. split_and!; try done. lia.
Qed.

Lemma LogInv_append e now s : LogInv s → LogInv (append_locked digest e now s).1.1.
Proof.
  intros (gone & Hevs & Hi & Hh & Hlen & Hpos & Hgone).
  pose proof (sealed_from_snoc _ s e now Hevs Hi Hh) as Hsnoc.
  unfold append_locked. destruct (sealEventLocked digest e now s) as [s' sealed] eqn:Hs.
  assert (es_events s' = es_events s ∧ es_limit s' = es_limit s) as [He Hl].
  { unfold sealEventLocked in Hs. injection Hs as <- <-. by destruct s. }
  simpl. rewrite He, Hl. destruct (Z.leb_spec (es_limit s) (Z.of_nat (length (es_events s)))).
  - destruct (es_events s) as [|d evs]; [simpl in *; lia|]. exists (gone ++ [d]). destruct s'. simpl in *.
    rewrite <-(assoc_L (++)). cbn [app]. rewrite !length_app in *. simpl in *. rewrite <-!(assoc_L (++)) in Hsnoc.
    destruct Hsnoc as (?&?&?). split_and!; try done; try lia. rewrite length_app in *. simpl in *. lia.
  - exists gone. destruct s'. simpl in *. rewrite !length_app in *. rewrite <-!(assoc_L (++)) in Hsnoc. simpl in *.
    destruct Hsnoc as (?&?&?). split_and!; try done; try lia. intros ?%Hgone. lia.
Qed.

Lemma seal_next_loop now items s :
  sealed_from "" 0 (es_events s) → es_nextIndex s = Z.of_nat (length (es_events s)) →
  es_lastHash s = last_hash "" (es_events s) →
  let s' := foldl (seal_next digest now) s items in
  sealed_from "" 0 (es_events s') ∧ es_nextIndex s' = Z.of_nat (length (es_events s')) ∧
  es_lastHash s' = last_hash "" (es_events s') ∧
  length (es_events s') = (length (es_events s) + length items)%nat ∧ es_limit s' = es_limit s.
Proof.
  revert s; induction items as [|e items IH]; intros s Hevs Hi Hh; simpl; [rewrite Nat.add_0_r; done|].
  pose proof (sealed_from_snoc _ s e now Hevs Hi Hh) as Hsnoc.
  destruct (IH (seal_next digest now s e)) as (?&?&?&Hl&?); [destruct s; simpl in *; tauto ..|].
  split_and!; try done. rewrite Hl. destruct s. simpl. rewrite length_app. simpl. lia.
Qed.

Lemma LogInv_replace items now s : 0 < es_limit s → LogInv (Replace digest items now s).
Proof.
  intros Hpos. exists []. unfold Replace. destruct items as [items|]; cycle 1.
  { destruct s; simpl in *. split_and!; try done. lia. }
  simpl app. cbv zeta. set (items' := if _ <? _ then _ else _).
  destruct s as [evs lim next last sid subs]. simpl in *.
  destruct (seal_next_loop now items' (mkEventStore [] lim 0 "" sid subs)) as (?&?&?&Hl&Hlim); [done..|].
  simpl in *. split_and!; [done..|rewrite Hl, Hlim|by rewrite Hlim|done].
  subst items'. case_match eqn:Hlt; rewrite ?length_drop; lia.
Qed.

(** The calls that write the log; [Subscribe] and [Unsubscribe] keep it. *)
Inductive log_op := AppendOp (e : Event Fields) (now : Time) | ReplaceOp (items : option (list (Event Fields))) (now : Time).

Definition run_log_op (s : EventStore Fields) (op : log_op) : EventStore Fields :=
  match op with
  | AppendOp e now => (append_locked digest e now s).1.1
  | ReplaceOp items now => Replace digest items now s
  end.

Lemma LogInv_ops ops s : LogInv s → LogInv (foldl run_log_op s ops).
Proof.
  revert s; induction ops as [|op ops IH]; intros s Hs; [done|]. simpl. apply IH.
  destruct op; [by apply LogInv_append|]. destruct Hs as (?&?&?&?&?&?&?). by apply LogInv_replace.
Qed.

(** ** What verification accepts *)

Lemma verify_loop_cons i prev e evs :
  verify_loop digest i prev (e :: evs) =
  (check_event digest i prev e ++ (verify_loop digest (S i) (event_hash prev e) evs).1,
   (verify_loop digest (S i) (event_hash prev e) evs).2).
Proof. simpl. unfold event_hash. by destruct verify_loop. Qed.

Lemma check_event_nil i prev e :
  check_event digest i prev e = [] ↔
  ev_Index e = Z.of_nat i + 1 ∧ TrimSpace (ev_PrevHash e) = TrimSpace prev ∧
  TrimSpace (ev_Hash e) = event_hash prev e.
Proof.
  unfold check_event. cbv zeta. fold (event_hash prev e). rewrite !app_nil. f_equiv; [|f_equiv].
  - destruct (Z.eqb_spec (ev_Index e) (Z.of_nat i + 1)); simpl; naive_solver.
  - destruct (eqs (TrimSpace (ev_PrevHash e)) _) eqn:H; rewrite ?eqs_true, ?eqs_false in H; simpl; naive_solver.
  - destruct (eqs (TrimSpace (ev_Hash e)) _) eqn:H; rewrite ?eqs_true, ?eqs_false in H; simpl; naive_solver.
Qed.

(** An honest chain passes, from the place it starts at. *)
Lemma verify_sealed prev i evs :
  sealed_from prev (Z.of_nat i) evs → verify_loop digest i prev evs = ([], last_hash prev evs).
Proof.
  revert prev i; induction evs as [|e evs IH]; intros prev i; [done|]. intros (Hi & Hp & Hh & Hevs).
  rewrite verify_loop_cons, <-Hh, IH; cycle 1. { by replace (Z.of_nat (S i)) with (Z.of_nat i + 1) by lia. }
  simpl. f_equal. rewrite app_nil_r. apply check_event_nil. rewrite Hh, Hp. by rewrite TrimSpace_event_hash.
Qed.

Lemma hash_of_inj p q : hash_of digest p = hash_of digest q → digest p = digest q.
Proof. by intros [=]. Qed.

(** What an accepted event says: the hashes are read with their blanks off. *)
Definition content (e : Event Fields) : Preimage Fields * string :=
  (preimage (ev_Index e) (ev_Time e) (ev_Type e) (ev_Message e) (ev_Fields e) (ev_PrevHash e), TrimSpace (ev_Hash e)).

Lemma event_hash_content prev e :
  TrimSpace (ev_PrevHash e) = TrimSpace prev → event_hash prev e = hash_of digest (content e).1.
Proof. intros Hp. unfold event_hash, computeEventHash, content, preimage. simpl. by rewrite Hp. Qed.

Lemma verify_snoc i prev evs e vs last :
  verify_loop digest i prev (evs ++ [e]) = (vs, last) →
  vs = (verify_loop digest i prev evs).1 ++ check_event digest (i + length evs) (verify_loop digest i prev evs).2 e ∧
  last = event_hash (verify_loop digest i prev evs).2 e.
Proof.
  revert prev i vs last; induction evs as [|e' evs IH]; intros prev i vs last; cbn [app].
  - rewrite verify_loop_cons. intros [= <- <-]. simpl. by rewrite Nat.add_0_r, app_nil_r.
  - rewrite !verify_loop_cons. destruct (verify_loop digest (S i) _ (evs ++ [e])) as [vs' last'] eqn:Hv.
    apply IH in Hv as [-> ->]. intros [= <- <-]. simpl. rewrite (assoc_L (++)).
    split; [|done]. do 2 f_equal. simpl. lia.
Qed.

Lemma verify_snoc_nil evs e last :
  verify_loop digest 0 "" (evs ++ [e]) = ([], last) →
  verify_loop digest 0 "" evs = ([], (verify_loop digest 0 "" evs).2) ∧
  ev_Index e = Z.of_nat (length evs) + 1 ∧ last = hash_of digest (content e).1 ∧
  (content e).2 = last ∧ pi_prev (content e).1 = TrimSpace (verify_loop digest 0 "" evs).2.
Proof.
  intros [Hnil ->]%verify_snoc. symmetry in Hnil. apply app_nil in Hnil as [Hvs (?&?&?)%check_event_nil].
  destruct (verify_loop digest 0 "" evs) as [vs last]. simpl in *. subst. split_and!; try done.
  by apply event_hash_content.
Qed.

Lemma verify_last_blanks evs vs last : verify_loop digest 0 "" evs = (vs, last) → TrimSpace last = last.
Proof.
  destruct evs as [|e evs _] using rev_ind; [by intros [= <- <-]|].
  intros [_ ->]%verify_snoc. apply TrimSpace_event_hash.
Qed.

(** Two preimages of the logs with the same digest are the same. *)
Definition collision_free (ps : list (Preimage Fields)) : Prop :=
  ∀ p q, p ∈ ps → q ∈ ps → digest p = digest q → p = q.

Lemma verified_same_content evs1 evs2 last :
  collision_free (((λ e, (content e).1) <$> evs1) ++ ((λ e, (content e).1) <$> evs2)) →
  verify_loop digest 0 "" evs1 = ([], last) → verify_loop digest 0 "" evs2 = ([], last) →
  content <$> evs1 = content <$> evs2.
Proof.
  revert evs2 last; induction evs1 as [|e1 evs1 IH] using rev_ind; intros evs2 last Hcf.
  - intros [= <-]. destruct evs2 as [|e2 evs2 _] using rev_ind; [done|].
    by intros (?&?&?&?&?)%verify_snoc_nil.
  - intros (Hv1 & Hi1 & Hl1 & Hh1 & Hp1)%verify_snoc_nil.
    destruct evs2 as [|e2 evs2 _] using rev_ind; [by intros [= <-]|].
    intros (Hv2 & Hi2 & Hl2 & Hh2 & Hp2)%verify_snoc_nil. rewrite !fmap_app in Hcf. simpl in Hcf.
    assert ((content e1).1 = (content e2).1) as Hc.
    { apply Hcf; [set_solver..|]. apply hash_of_inj. congruence. }
    rewrite !fmap_app. simpl. f_equal.
    + apply (IH evs2 (verify_loop digest 0 "" evs1).2); [|done|].
      * intros p q Hp Hq. apply Hcf; set_solver.
      * rewrite Hv2. f_equal. simpl. rewrite Hc, Hp2 in Hp1. symmetry.
        rewrite <-(verify_last_blanks _ _ _ Hv1), <-(verify_last_blanks _ _ _ Hv2). done.
    + f_equal. rewrite (surjective_pairing (content e1)), (surjective_pairing (content e2)). by rewrite Hc, Hh1, Hh2.
Qed.

Lemma evicted_not_first gone evs :
  gone ≠ [] → evs ≠ [] → sealed_from "" 0 (gone ++ evs) → (verify_loop digest 0 "" evs).1 ≠ [].
Proof.
  intros Hg Hne. rewrite sealed_from_app. intros [_ Hevs]. destruct evs as [|e evs]; [done|].
  destruct Hevs as (Hi & _). rewrite verify_loop_cons. simpl. intros [(Hi' & _)%check_event_nil _]%app_nil.
  destruct gone; [done|]. simpl in *. lia.
Qed.

(** C24: The event log is tamper evident.  After any calls of [Append] and
    [Replace] it holds at most [limit] events, and it verifies exactly as long
    as nothing was evicted, with the last hash it handed out.  Two logs of any
    origin that both verify with the same last hash have the same contents: the
    same number of events, with the same index, time and fields, and the same
    type, message and hashes once the blanks around them are trimmed, as they are
    before they are hashed; unless SHA-256 collides on what they hash. *)
Theorem event_integrity :
  (∀ limit ops,
     let s := foldl run_log_op (NewEventStore limit) ops in
     Z.of_nat (length (es_events s)) ≤ es_limit s ∧
     (ir_Valid (VerifyIntegrity digest s) = true ↔ es_nextIndex s = Z.of_nat (length (es_events s))) ∧
     (ir_Valid (VerifyIntegrity digest s) = true → ir_LastHash (VerifyIntegrity digest s) = es_lastHash s)) ∧
  (∀ s1 s2 : EventStore Fields,
     collision_free (((λ e, (content e).1) <$> es_events s1) ++ ((λ e, (content e).1) <$> es_events s2)) →
     ir_Valid (VerifyIntegrity digest s1) = true → ir_Valid (VerifyIntegrity digest s2) = true →
     ir_LastHash (VerifyIntegrity digest s1) = ir_LastHash (VerifyIntegrity digest s2) →
     content <$> es_events s1 = content <$> es_events s2).
Proof.
  split.
  - intros limit ops s. destruct (LogInv_ops ops _ (LogInv_new limit)) as (gone & Hevs & Hi & Hh & Hlen & Hpos & Hgone).
    fold s in Hevs, Hi, Hh, Hlen, Hpos, Hgone. split; [done|]. unfold VerifyIntegrity.
    destruct (decide (gone = [])) as [->|Hne].
    + simpl in *. rewrite (verify_sealed "" 0) by done. simpl. naive_solver.
    + assert (es_events s ≠ []) as Hnil by (intros Hnil; rewrite Hnil in Hgone; specialize (Hgone Hne); simpl in *; lia).
      pose proof (evicted_not_first _ _ Hne Hnil Hevs) as Hbad. destruct verify_loop as [vs last]. simpl in *.
      rewrite bool_decide_eq_true, length_app in *. destruct gone; [done|]. simpl in *.
      split; [|done]. split; [done|lia].
  - intros s1 s2 Hcf. unfold VerifyIntegrity. destruct (verify_loop _ _ _ (es_events s1)) as [vs1 last1] eqn:H1.
    destruct (verify_loop _ _ _ (es_events s2)) as [vs2 last2] eqn:H2. simpl. rewrite !bool_decide_eq_true.
    intros -> -> ->. by eapply verified_same_content.
Qed.
End theorems.

Definition wit_digest (p : Preimage unit) : string :=
  if pi_index p =? 1 then "a1" else if pi_index p =? 2 then "b2" else "c3".
Definition wit_log (typ : string) : EventStore unit :=
  foldl (run_log_op wit_digest) (NewEventStore 2)
    [AppendOp (mkEvent 7 5 typ "queued" tt "" "") 9; AppendOp (mkEvent 0 0 "job" "done" tt "" "") 10].

Lemma event_integrity_witness :
  content <$> es_events (wit_log "job") = content <$> es_events (wit_log " job ") ∧
  wit_log "job" ≠ wit_log " job ".
Proof.
  split; [|by vm_compute].
  refine (proj2 (event_integrity wit_digest _) (wit_log "job") (wit_log " job ") _ eq_refl eq_refl eq_refl).
  - intros p. unfold wit_digest. by repeat case_match.
  - match goal with |- collision_free _ ?l => let l' := eval vm_compute in l in change l with l' end.
    intros p q Hp Hq. refine (proj1 (Forall_forall (λ q, wit_digest p = wit_digest q → p = q) _) _ q Hq). clear q Hq.
    refine (proj1 (Forall_forall (λ p, Forall (λ q, wit_digest p = wit_digest q → p = q) _) _) _ p Hp).
    repeat constructor; by vm_compute.
Defined.

(** ** Queries and subscribers *)

Section more.
Context {Fields : Type}.
Variable digest : Preimage Fields → string.

Lemma collect_spec q limit (out evs : list (Event Fields)) :
  Z.of_nat (length out) < limit →
  collect q limit out evs = take (Z.to_nat limit) (out ++ filter (λ e, event_matches q e = true) evs).
Proof.
  revert out; induction evs as [|e evs IH]; intros out Hout; simpl.
  { rewrite app_nil_r, take_ge; [done|lia]. }
  rewrite filter_cons. destruct (event_matches q e) eqn:He; simpl; [|by apply IH].
  pose proof (assoc_L (++) out [e] (filter (λ e, event_matches q e = true) evs)) as Hassoc. cbn [app] in Hassoc. rewrite Hassoc.
  destruct (Z.leb_spec limit (Z.of_nat (length (out ++ [e])))) as [Hge|]; [|by apply IH].
  rewrite take_app_length'; [done|]. rewrite length_app in *. simpl in *. lia.
Qed.

(** [Query] answers with the first [limit] matches, oldest or newest first. *)
Theorem Query_spec q (s : EventStore Fields) :
  Query q s = take (Z.to_nat (if eq_Limit q <=? 0 then 200 else eq_Limit q))
    (filter (λ e, event_matches q e = true) (if eq_Desc q then reverse (es_events s) else es_events s)).
Proof. unfold Query. rewrite collect_spec; [done|]. simpl. case_match; lia. Qed.

(** While no subscriber leaves, no channel is closed and no send panics. *)
Definition leaves (l : log_label Fields) : bool := match l with UnsubscribeCall _ => true | _ => false end.

Definition open_sys (w : LogSys Fields) : Prop :=
  sys_panic w = false ∧ sys_closing w = [] ∧ map_Forall (λ _ ch, ch_closed ch = false) (sys_chans w).

Lemma open_sys_exec w l w' : open_sys w → leaves l = false → log_exec digest w l = Some w' → open_sys w'.
Proof.
  destruct w as [s chans sending closing panic]. intros (Hp & Hc & Hch) Hl. unfold log_exec. simpl in *. subst.
  destruct l as [e now|k|buffer|id| |c]; simpl in *; try done.
  - by intros [= <-].
  - unfold send_next. simpl. destruct (sending !! k) as [[e [|c chs]]|]; simpl; [by intros [= <-]| |done].
    destruct (chans !! c) as [ch|] eqn:Hget; simpl; [|done]. unfold try_send. rewrite (Hch _ _ Hget).
    case_match eqn:Hsend; [|by destruct (_ <? _)]. intros [= <-]. split_and!; try done. simpl.
    apply map_Forall_insert_2; [|done]. destruct (_ <? _); injection Hsend as <-; [done|by apply (Hch c)].
  - intros [= <-]. split_and!; try done. simpl. by apply map_Forall_insert_2.
  - destruct (chans !! c) as [ch|] eqn:Hget; simpl; [|done]. destruct (ch_buf ch) eqn:Hb; [done|].
    intros [= <-]. split_and!; try done. simpl. apply map_Forall_insert_2; [|done]. simpl. by apply (Hch c).
Qed.

(** No panic without [Unsubscribe], whatever the interleaving. *)
Theorem append_safe_without_unsubscribe limit ls w :
  Forall (λ l, leaves l = false) ls → log_run digest (log_init limit) ls = Some w → sys_panic w = false.
Proof.
  intros Hls. unfold log_run. assert (open_sys (log_init (Fields := Fields) limit)) as Hinit by done.
  revert Hinit. generalize (log_init (Fields := Fields) limit). induction Hls as [|l ls Hl Hls IH]; intros w0 Hw0; simpl.
  - intros [= <-]. apply Hw0.
  - destruct (log_exec digest w0 l) as [w1|] eqn:Hexec.
    + apply IH. by eapply open_sys_exec.
    + clear. simpl. by induction ls.
Qed.

(** With it, a send and a close can meet: [Append] has copied the channels,
    the subscriber leaves and its channel is closed, and the send panics. *)
Theorem append_panics e now limit :
  ∃ w, log_run digest (log_init limit)
         [SubscribeCall 1; AppendCall e now; UnsubscribeCall 1; CloseNext; SendNext 0] = Some w ∧
       sys_panic w = true.
Proof. eexists. split; reflexivity. Qed.

(** Two appenders past their unlock may write to a subscriber in the other
    order than they sealed. *)
Theorem subscriber_sees_reordered e1 e2 now :
  (w ← log_run digest (log_init 10)
         [SubscribeCall 4; AppendCall e1 now; AppendCall e2 now; SendNext 1; SendNext 0];
   ch ← sys_chans w !! 0; Some (ev_Index <$> ch_buf ch)) = Some [2; 1].
Proof. by vm_compute. Qed.
End more.
