(* ===== verification/Tokens.v ===== *)
(** * Tokens that grant access: [internal/control/delegation_tokens.go] and
      [jit_grants.go]

    Two stores of the same shape: a grant is issued with a random token, of
    which only the SHA-256 is kept, and a token is validated until its grant
    expires, is revoked or (for delegations) is used up.  The class [GrantKind]
    is what differs between the two; the operations and the theorems are proved
    once against it, and [Delegation] and [JIT] instantiate it.  The hash is a
    parameter, and the token drawn (or the failure to draw one) an argument. *)

From S2P Require Import Prelude.

(** Why a recognised token is refused. *)
Inductive refusal := Revoked | Expired | Mismatch (reason : string).

(** What [Validate] finds out, before it is put in a result. *)
Inductive validation (G : Type) :=
  | TokenRequired
  | NotRecognized
  | Refused (g : G) (why : refusal)
  | Allowed (g : G).
Arguments TokenRequired {G}.
Arguments NotRecognized {G}.
Arguments Refused {G} g why.
Arguments Allowed {G} g.

Definition is_allowed {G} (v : validation G) : bool := match v with Allowed _ => true | _ => false end.

(** A kind of grant [G], issued from [In] and asked for with [V]. *)
Class GrantKind (G In V : Type) := {
  gk_prefix : string;
  gk_make : In → Time → string + G;         (* the checks of [Issue]; the id is still empty *)
  gk_id : G → string;
  gk_set_id : string → G → G;
  gk_expires : G → Time;
  gk_revoked : G → option Time;
  gk_revoke : Time → G → G;                 (* sets [RevokedAt] *)
  gk_later : relation G;                    (* the order of [List] *)
  gk_check : V → G → option string;         (* the reason to refuse, last *)
  gk_use : G → G;                           (* what a granted validation changes *)
}.

(** A record of the store: the grant and the hash of its token. *)
Record grant_store {G : Type} : Type := mkGrants {
  gs_nextID : Z;
  gs_grants : gmap string (G * string);
  gs_tokenIndex : gmap string string;
}.
Arguments grant_store : clear implicits.
Arguments mkGrants {G}.
#[export] Instance grant_store_eta G : Eta (grant_store G) := λ r, mkGrants (gs_nextID r) (gs_grants r) (gs_tokenIndex r).

Definition rand_failed : string := "entropy".

Section store.
Context {G In V : Type} `{GrantKind G In V} `{∀ x y, Decision (gk_later x y)}.
(** [hex.EncodeToString] of [sha256.Sum256]. *)
Variable hash : string → string.

Definition new_grants : grant_store G := mkGrants 0 ∅ ∅.

Definition put_grant (g : G) (h : string) (s : grant_store G) : grant_store G :=
  s <| gs_grants := <[gk_id g := (g, h)]> (gs_grants s) |> <| gs_tokenIndex := <[h := gk_id g]> (gs_tokenIndex s) |>.

(** [token] is what [rand.Read] gives, [None] when it fails. *)
Definition issue (i : In) (token : option string) (now : Time) (s : grant_store G)
    : grant_store G * (string + string * G) :=
  match gk_make i now, token with
  | inl e, _ => (s, inl e)
  | inr _, None => (s, inl rand_failed)
  | inr g, Some token =>
      let next := gs_nextID s + 1 in
      let g := gk_set_id (gk_prefix +:+ itoa next) g in
      (put_grant g (hash token) (s <| gs_nextID := next |>), inr (token, g))
  end.

Definition expire_one (now : Time) (r : G * string) : G * string :=
  match gk_revoked r.1 with
  | Some _ => r
  | None => if negb (Before now (gk_expires r.1)) then (gk_revoke (gk_expires r.1) r.1, r.2) else r
  end.

Definition expire_grants (now : Time) (s : grant_store G) : grant_store G :=
  s <| gs_grants := expire_one now <$> gs_grants s |>.

Definition list_grants (now : Time) (s : grant_store G) : grant_store G * list G :=
  let s := expire_grants now s in (s, merge_sort gk_later (map_to_list (gs_grants s)).*2.*1).

Definition get_grant (id : string) (now : Time) (s : grant_store G) : grant_store G * option G :=
  let s := expire_grants now s in (s, fst <$> gs_grants s !! TrimSpace id).

(** [None] is the error for a blank or unknown id. *)
Definition revoke_grant (id : string) (now : Time) (s : grant_store G) : grant_store G * option G :=
  if eqs (TrimSpace id) "" then (s, None) else
  match gs_grants s !! TrimSpace id with
  | None => (s, None)
  | Some (g, h) =>
      let g := match gk_revoked g with None => gk_revoke now g | Some _ => g end in
      (s <| gs_grants := <[TrimSpace id := (g, h)]> (gs_grants s) |>, Some g)
  end.

Definition validate_grant (token : string) (v : V) (now : Time) (s : grant_store G)
    : grant_store G * validation G :=
  let token := TrimSpace token in
  if eqs token "" then (s, TokenRequired) else
  let s := expire_grants now s in
  match gs_tokenIndex s !! hash token with
  | None => (s, NotRecognized)
  | Some id =>
      match gs_grants s !! id with
      | None => (s, NotRecognized)
      | Some (g, h) =>
          if bool_decide (is_Some (gk_revoked g)) then (s, Refused g Revoked)
          else if negb (Before now (gk_expires g)) then (s, Refused g Expired)
          else match gk_check v g with
               | Some reason => (s, Refused g (Mismatch reason))
               | None => (s <| gs_grants := <[id := (gk_use g, h)]> (gs_grants s) |>, Allowed (gk_use g))
               end
      end
  end.
End store.

(** ** Histories

    Any sequence of calls, each with the clock reading it takes, and what was
    granted: the tokens issued, the grants revoked and the validations allowed. *)

Inductive grant_op (In V : Type) :=
  | OpIssue (i : In) (token : option string) (now : Time)
  | OpRevoke (id : string) (now : Time)
  | OpValidate (token : string) (v : V) (now : Time)
  | OpList (now : Time)
  | OpGet (id : string) (now : Time).
Arguments OpIssue {In V} i token now.
Arguments OpRevoke {In V} id now.
Arguments OpValidate {In V} token v now.
Arguments OpList {In V} now.
Arguments OpGet {In V} id now.

Inductive grant_event (G : Type) :=
  | EvIssued (token : string) (g : G)
  | EvRevoked (id : string)
  | EvAllowed (id : string).
Arguments EvIssued {G} token g.
Arguments EvRevoked {G} id.
Arguments EvAllowed {G} id.

Definition op_now {In V} (op : grant_op In V) : Time :=
  match op with
  | OpIssue _ _ now | OpRevoke _ now | OpValidate _ _ now | OpList now | OpGet _ now => now
  end.

Section history.
Context {G In V : Type} `{GrantKind G In V} `{∀ x y, Decision (gk_later x y)}.
Variable hash : string → string.

Definition run_grant_op (s : grant_store G) (op : grant_op In V) : grant_store G * list (grant_event G) :=
  match op with
  | OpIssue i token now =>
      let '(s, r) := issue hash i token now s in
      (s, match r with inr (token, g) => [EvIssued token g] | inl _ => [] end)
  | OpRevoke id now =>
      let '(s, r) := revoke_grant id now s in (s, match r with Some g => [EvRevoked (gk_id g)] | None => [] end)
  | OpValidate token v now =>
      let '(s, r) := validate_grant hash token v now s in
      (s, match r with Allowed g => [EvAllowed (gk_id g)] | _ => [] end)
  | OpList now => ((list_grants now s).1, [])
  | OpGet id now => ((get_grant id now s).1, [])
  end.

Fixpoint run_grants (s : grant_store G) (h : list (grant_event G)) (ops : list (grant_op In V))
    : grant_store G * list (grant_event G) :=
  match ops with
  | [] => (s, h)
  | op :: ops => let '(s, evs) := run_grant_op s op in run_grants s (h ++ evs) ops
  end.
End history.

Definition is_use {G} (id : string) (e : grant_event G) : bool :=
  match e with EvAllowed id' => eqs id' id | _ => false end.
Definition uses {G} (id : string) (h : list (grant_event G)) : nat := length (filter (λ e, is_use id e = true) h).

Definition hashes {G} (hash : string → string) (h : list (grant_event G)) : list string :=
  omap (λ e, match e with EvIssued token _ => Some (hash token) | _ => None end) h.

(** What the operations of a kind of grant have to satisfy. *)
Class GrantLaws (G In V : Type) `{GrantKind G In V} := {
  gk_made_unrevoked i now g : gk_make i now = inr g → gk_revoked g = None;
  gk_revoked_set_id id g : gk_revoked (gk_set_id id g) = gk_revoked g;
  gk_id_set_id id g : gk_id (gk_set_id id g) = id;
  gk_id_revoke t g : gk_id (gk_revoke t g) = gk_id g;
  gk_id_use g : gk_id (gk_use g) = gk_id g;
  gk_expires_revoke t g : gk_expires (gk_revoke t g) = gk_expires g;
  gk_expires_use g : gk_expires (gk_use g) = gk_expires g;
  gk_revoked_revoke t g : gk_revoked (gk_revoke t g) = Some t;
  gk_revoked_use g : gk_revoked (gk_use g) = gk_revoked g;
}.

(** ** The life of a grant *)

Section laws.
Context {G In V : Type} `{GrantLaws G In V} `{∀ x y, Decision (gk_later x y)}.
Variable hash : string → string.
Implicit Types (g : G) (s : grant_store G) (h : list (grant_event G)) (op : grant_op In V).

Definition used (n : nat) (g : G) : G := Nat.iter n gk_use g.
Definition revoked_at (t : option Time) (g : G) : G := match t with Some t => gk_revoke t g | None => g end.

Lemma used_proj n g :
  gk_id (used n g) = gk_id g ∧ gk_expires (used n g) = gk_expires g ∧ gk_revoked (used n g) = gk_revoked g.
Proof.
  induction n as [|n (?&?&?)]; [done|]. simpl. by rewrite gk_id_use, gk_expires_use, gk_revoked_use.
Qed.

(** A record of the store: grant [g], used [n] times, perhaps revoked. *)
Definition record (g : G) (n : nat) (t : option Time) (token : string) : G * string :=
  (revoked_at t (used n g), hash token).

Lemma record_proj g n t token :
  gk_revoked g = None → let r := record g n t token in
  gk_id r.1 = gk_id g ∧ gk_expires r.1 = gk_expires g ∧ gk_revoked r.1 = t.
Proof.
  intros Hg. destruct (used_proj n g) as (?&?&?). destruct t; simpl; [|by rewrite Hg in *].
  by rewrite gk_id_revoke, gk_expires_revoke, gk_revoked_revoke.
Qed.

(** [g] passed the checks of [Issue]. *)
Definition made (g : G) : Prop := ∃ i now g0, gk_make i now = inr g0 ∧ g = gk_set_id (gk_id g) g0.

(** The store after a history: one record per token issued, revoked exactly when
    it was revoked by a call or its expiry was noticed. *)
Record GrantInv (clocks : list Time) (s : grant_store G) (h : list (grant_event G)) : Prop := {
  gi_record token g : EvIssued token g ∈ h → ∃ t,
    gs_grants s !! gk_id g = Some (record g (uses (gk_id g) h) t token) ∧ gk_revoked g = None ∧
    (t = None → EvRevoked (gk_id g) ∉ h) ∧
    (t ≠ None → EvRevoked (gk_id g) ∈ h ∨ ∃ c, c ∈ clocks ∧ gk_expires g ≤ c);
  gi_grants id r : gs_grants s !! id = Some r → ∃ token g, EvIssued token g ∈ h ∧ gk_id g = id;
  gi_index hh id : gs_tokenIndex s !! hh = Some id → ∃ token g, EvIssued token g ∈ h ∧ gk_id g = id ∧ hash token = hh;
  gi_indexed token g : NoDup (hashes hash h) → EvIssued token g ∈ h → gs_tokenIndex s !! hash token = Some (gk_id g);
  gi_ids token g : EvIssued token g ∈ h →
    made g ∧ ∃ k, 1 ≤ k ≤ gs_nextID s ∧ gk_id g = gk_prefix +:+ itoa k;
  gi_next : 0 ≤ gs_nextID s;
  gi_events id : EvAllowed id ∈ h ∨ EvRevoked id ∈ h → is_Some (gs_grants s !! id);
}.

Lemma uses_app id h h' : uses id (h ++ h') = (uses id h + uses id h')%nat.
Proof. unfold uses. by rewrite filter_app, length_app. Qed.

Lemma GrantInv_new : GrantInv [] new_grants [].
Proof.
  split; simpl; try done; try set_solver.
Qed.

(** Noticing an expiry keeps everything but the revocation of expired grants. *)
Lemma expire_one_record now g n t token :
  gk_revoked g = None →
  ∃ t', expire_one now (record g n t token) = record g n t' token ∧
        (t = None → t' ≠ None → gk_expires g ≤ now) ∧ (t ≠ None → t' = t) ∧
        (t' = None → t = None ∧ now < gk_expires g).
Proof.
  intros Hg. destruct (record_proj g n t token Hg) as (_ & He & Hr). unfold expire_one. rewrite Hr.
  destruct t as [t|]; [by exists (Some t)|]. rewrite He.
  unfold Before. destruct (Z.ltb_spec now (gk_expires g)); simpl; [by exists None|].
  exists (Some (gk_expires g)). by split_and!.
Qed.

Lemma GrantInv_expire clocks now s h :
  GrantInv clocks s h → GrantInv (now :: clocks) (expire_grants now s) h.
Proof.
  intros [Hrec Hgr Hix Hixd Hids Hnext Hev]. split; simpl; try done.
  - intros token g Hin. destruct (Hrec token g Hin) as (t & Hget & Hg & Hnone & Hsome).
    destruct (expire_one_record now g (uses (gk_id g) h) t token Hg) as (t' & Ht' & Hexp & Hkeep & Hno).
    exists t'. rewrite lookup_fmap, Hget. simpl. rewrite Ht'. split_and!; [done..| |].
    + intros (?&_)%Hno. auto.
    + intros Hne. destruct t as [t|].
      * destruct Hsome as [|(c&?&?)]; [done|by left|]. right. exists c. set_solver.
      * right. exists now. split; [set_solver|auto].
  - intros id r. rewrite lookup_fmap. destruct (gs_grants s !! id) eqn:Hget; [|done]. eauto.
  - intros id ?. rewrite lookup_fmap. apply fmap_is_Some. auto.
Qed.

(** A history only grows; the clocks only have to contain what was noticed. *)
Lemma GrantInv_clocks clocks clocks' s h : clocks ⊆ clocks' → GrantInv clocks s h → GrantInv clocks' s h.
Proof.
  intros Hsub [Hrec ??????]. split; try done. intros token g Hin.
  destruct (Hrec token g Hin) as (t & ? & ? & ? & Ht). exists t. split_and!; [done..|].
  intros [|(c&?&?)]%Ht; [by left|]. right. exists c. set_solver.
Qed.

Lemma GrantInv_fresh clocks s h :
  GrantInv clocks s h → gs_nextID s + 1 ≤ max_int64 → gs_grants s !! (gk_prefix +:+ itoa (gs_nextID s + 1)) = None.
Proof.
  intros [_ Hgr _ _ Hids Hnext _] Hmax. apply eq_None_not_Some. intros [r (token & g & Hin & Hid)%Hgr].
  destruct (Hids _ _ Hin) as (_ & k & Hk & Hid'). rewrite Hid in Hid'.
  apply (inj (String.app gk_prefix)) in Hid'. apply itoa_inj in Hid'; lia.
Qed.

Lemma hashes_app h h' : hashes hash (h ++ h') = hashes hash h ++ hashes hash h'.
Proof. unfold hashes. by rewrite omap_app. Qed.

Lemma elem_of_hashes token g h : EvIssued token g ∈ h → hash token ∈ hashes hash h.
Proof. intros Hin. apply list_elem_of_omap. eauto. Qed.

Lemma uses_none id h : EvAllowed id ∉ h → uses id h = 0%nat.
Proof.
  intros Hno. unfold uses. rewrite filter_none; [done|]. intros [| |id'] Hin; simpl; [done..|].
  rewrite eqs_true. by intros ->.
Qed.

Lemma GrantInv_issue clocks i token now s h s' r :
  GrantInv clocks s h → gs_nextID s + 1 ≤ max_int64 → issue hash i token now s = (s', r) →
  gs_nextID s' ≤ gs_nextID s + 1 ∧
  GrantInv clocks s' (h ++ match r with inr (token, g) => [EvIssued token g] | inl _ => [] end).
Proof.
  intros Hinv Hmax. unfold issue. destruct (gk_make i now) as [e|g0] eqn:Hmk.
  { intros [= <- <-]. rewrite app_nil_r. split; [lia|done]. }
  destruct token as [token|]; [|intros [= <- <-]; rewrite app_nil_r; split; [lia|done]].
  pose proof (GrantInv_fresh _ _ _ Hinv Hmax) as Hfresh. destruct Hinv as [Hrec Hgr Hix Hixd Hids Hnext Hev].
  set (g := gk_set_id _ g0). assert (gk_id g = gk_prefix +:+ itoa (gs_nextID s + 1)) as Hid by apply gk_id_set_id.
  assert (gk_revoked g = None) as Hg by (subst g; rewrite gk_revoked_set_id; eauto using gk_made_unrevoked).
  assert (made g) as Hmade by (exists i, now, g0; split; [done|by rewrite Hid]).
  rewrite <-Hid in Hfresh. clearbody g. intros [= <- <-]. destruct s as [next grants idx]. simpl in *.
  split; [lia|]. assert (∀ id, uses id (h ++ [EvIssued token g]) = uses id h) as Huses.
  { intros id. rewrite uses_app. unfold uses at 2. simpl. lia. }
  assert (∀ token' g', EvIssued token' g' ∈ h → gk_id g' ≠ gk_id g) as Hother.
  { intros token' g' (t & Hget & _)%Hrec Heq. rewrite Heq in Hget. congruence. }
  split; simpl; try done.
  - intros token' g' [Hin|[= -> ->]%list_elem_of_singleton]%elem_of_app.
    + destruct (Hrec _ _ Hin) as (t & Hget & Hg' & Hnone & Hsome). exists t. rewrite Huses.
      rewrite lookup_insert_ne by (intros Heq; by apply (Hother _ _ Hin)). split_and!; [done..|set_solver|].
      intros [|(c&?&?)]%Hsome; [left; set_solver|right; eauto].
    + exists None. rewrite lookup_insert_eq, Huses. rewrite uses_none; [|].
      * split_and!; try done. intros _ [Hin|?%list_elem_of_singleton]%elem_of_app; [|done].
        destruct (Hev (gk_id g)); [by right|congruence].
      * intros Hin. destruct (Hev (gk_id g)); [by left|congruence].
  - intros id r. destruct (decide (id = gk_id g)) as [->|]; [|rewrite lookup_insert_ne by done].
    + intros _. exists token, g. set_solver.
    + intros (token' & g' & ? & ?)%Hgr. exists token', g'. set_solver.
  - intros hh id. destruct (decide (hh = hash token)) as [->|]; [|rewrite lookup_insert_ne by done].
    + rewrite lookup_insert_eq. intros [= <-]. exists token, g. set_solver.
    + intros (token' & g' & ? & ? & ?)%Hix. exists token', g'. set_solver.
  - intros token' g'. rewrite hashes_app. intros (Hnd & Hdis & _)%NoDup_app.
    intros [Hin|[= -> ->]%list_elem_of_singleton]%elem_of_app; [|by rewrite lookup_insert_eq].
    rewrite lookup_insert_ne; [by apply Hixd|]. intros Heq. apply (Hdis (hash token')).
    + by eapply elem_of_hashes.
    + simpl. rewrite Heq. set_solver.
  - intros token' g' [Hin|[= -> ->]%list_elem_of_singleton]%elem_of_app.
    + destruct (Hids _ _ Hin) as (? & k&?&?). split; [done|]. exists k. split; [lia|done].
    + split; [done|]. exists (next + 1). split; [lia|done].
  - lia.
  - intros id Hin. destruct (decide (id = gk_id g)) as [->|]; [by rewrite lookup_insert_eq|].
    rewrite lookup_insert_ne by done. apply Hev. set_solver.
Qed.

Lemma GrantInv_revoke clocks id now s h s' r :
  GrantInv clocks s h → revoke_grant id now s = (s', r) →
  gs_nextID s' = gs_nextID s ∧
  GrantInv clocks s' (h ++ match r with Some g => [EvRevoked (gk_id g)] | None => [] end).
Proof.
  intros Hinv. unfold revoke_grant. destruct (eqs (TrimSpace id) ""); [intros [= <- <-]; by rewrite app_nil_r|].
  destruct (gs_grants s !! TrimSpace id) as [[g hh]|] eqn:Hget.
  2: { intros [= <- <-]. by rewrite app_nil_r. }
  destruct Hinv as [Hrec Hgr Hix Hixd Hids Hnext Hev].
  set (g' := match gk_revoked g with None => gk_revoke now g | Some _ => g end). intros [= <- <-].
  assert (gk_id g' = TrimSpace id) as Hid.
  { destruct (Hgr _ _ Hget) as (token & g0 & Hin & Hid0). destruct (Hrec _ _ Hin) as (t & Hget0 & Hg0 & _).
    rewrite Hid0, Hget in Hget0. injection Hget0 as -> ->. destruct (record_proj g0 (uses (TrimSpace id) h) t token Hg0) as (Hi & _).
    rewrite Hid0 in Hi. simpl in Hi. subst g'. case_match; by rewrite ?gk_id_revoke. }
  assert (∀ id, uses id (h ++ [EvRevoked (gk_id g')]) = uses id h) as Huses.
  { intros id'. rewrite uses_app. unfold uses at 2. simpl. lia. }
  destruct s as [next grants idx]. simpl in *. split; [done|]. rewrite Hid in *. split; simpl; try done.
  - intros token g0 [Hin|?%list_elem_of_singleton]%elem_of_app; [|done].
    destruct (Hrec _ _ Hin) as (t & Hget0 & Hg0 & Hnone & Hsome). rewrite Huses.
    destruct (decide (gk_id g0 = TrimSpace id)) as [Heq|Hne].
    + rewrite Heq in *. rewrite Hget in Hget0. injection Hget0 as -> ->.
      destruct (record_proj g0 (uses (TrimSpace id) h) t token Hg0) as (_ & _ & Hr). rewrite lookup_insert_eq.
      exists (Some (default now t)). subst g'. simpl in Hr. rewrite Hr. split_and!; [by destruct t|done|done|set_solver].
    + rewrite lookup_insert_ne by done. exists t. split_and!; [done..| |].
      * intros ?%Hnone [|[= ?]%list_elem_of_singleton]%elem_of_app; done.
      * intros [|(c&?&?)]%Hsome; [left; set_solver|right; eauto].
  - intros id' r. destruct (decide (id' = TrimSpace id)) as [->|]; [|rewrite lookup_insert_ne by done].
    + intros _. destruct (Hgr _ _ Hget) as (token & g0 & ? & ?). exists token, g0. set_solver.
    + intros (token & g0 & ? & ?)%Hgr. exists token, g0. set_solver.
  - intros hh' id' (token & g0 & ? & ? & ?)%Hix. exists token, g0. set_solver.
  - intros token g0. rewrite hashes_app, app_nil_r. intros Hnd [Hin|?%list_elem_of_singleton]%elem_of_app; [|done]. auto.
  - intros token g0 [Hin|?%list_elem_of_singleton]%elem_of_app; [|done]. eauto.
  - intros id' Hin. destruct (decide (id' = TrimSpace id)) as [->|]; [by rewrite lookup_insert_eq|].
    rewrite lookup_insert_ne by done. apply Hev. set_solver.
Qed.

(** A validation is allowed for the grant found under the hash of the token. *)
Lemma validate_spec token v now s s' r :
  validate_grant hash token v now s = (s', r) →
  (∃ id g hh, r = Allowed (gk_use g) ∧ TrimSpace token ≠ "" ∧
     gs_tokenIndex s !! hash (TrimSpace token) = Some id ∧ gs_grants s !! id = Some (g, hh) ∧
     gk_revoked g = None ∧ now < gk_expires g ∧ gk_check v g = None ∧
     s' = (expire_grants now s) <| gs_grants := <[id := (gk_use g, hh)]> (gs_grants (expire_grants now s)) |>) ∨
  is_allowed r = false ∧ (s' = s ∨ s' = expire_grants now s).
Proof.
  unfold validate_grant. destruct (eqs (TrimSpace token) "") eqn:Hblank; [intros [= <- <-]; right; auto|].
  apply eqs_false in Hblank.
  destruct (gs_tokenIndex (expire_grants now s) !! _) as [id|] eqn:Hidx; [|intros [= <- <-]; right; auto].
  destruct (gs_grants (expire_grants now s) !! id) as [[g hh]|] eqn:Hget; [|intros [= <- <-]; right; auto].
  destruct (bool_decide_reflect (is_Some (gk_revoked g))) as [|Hr]; [intros [= <- <-]; right; auto|].
  destruct (Before now (gk_expires g)) eqn:He; simpl; [|intros [= <- <-]; right; auto].
  destruct (gk_check v g) eqn:Hc; [intros [= <- <-]; right; auto|]. intros [= <- <-]. left.
  simpl in Hget, Hidx. rewrite lookup_fmap in Hget. destruct (gs_grants s !! id) as [[g0 hh0]|] eqn:Hget0; [|done].
  simpl in Hget. unfold expire_one in Hget. simpl in Hget. apply eq_None_not_Some in Hr.
  exists id, g, hh. split_and!; try done; [|by apply Z.ltb_lt].
  destruct (gk_revoked g0) eqn:Hr0; [naive_solver|]. rewrite Hget0 in *. destruct (negb _); simplify_eq; [|done].
  by rewrite gk_revoked_revoke in Hr.
Qed.

Lemma GrantInv_use clocks id g hh s h :
  GrantInv clocks s h → gs_grants s !! id = Some (g, hh) → gk_revoked g = None →
  gk_id (gk_use g) = id ∧
  GrantInv clocks (s <| gs_grants := <[id := (gk_use g, hh)]> (gs_grants s) |>) (h ++ [EvAllowed id]).
Proof.
  intros [Hrec Hgr Hix Hixd Hids Hnext Hev] Hget Hr. destruct s as [next grants idx]. simpl in *.
  destruct (Hgr _ _ Hget) as (tok0 & g0 & Hin0 & Hid0). split.
  { destruct (Hrec _ _ Hin0) as (t & Hget0 & Hg0 & _). rewrite Hid0, Hget in Hget0. injection Hget0 as -> ->.
    destruct (record_proj g0 (uses id h) t tok0 Hg0) as (Hi & _). simpl in Hi. by rewrite gk_id_use, Hi. }
  assert (∀ id', uses id' (h ++ [EvAllowed id]) = if decide (id = id') then S (uses id h) else uses id' h) as Huses.
  { intros id'. rewrite uses_app. unfold uses at 2. rewrite filter_cons. cbn [is_use]. unfold eqs.
    destruct (decide (id = id')) as [->|].
    - rewrite bool_decide_eq_true_2 by done. simpl. lia.
    - rewrite bool_decide_eq_false_2 by done. simpl. lia. }
  split; simpl; try done.
  - intros token g1 [Hin|?%list_elem_of_singleton]%elem_of_app; [|done].
    destruct (Hrec _ _ Hin) as (t & Hget1 & Hg1 & Hnone & Hsome). rewrite Huses. exists t.
    destruct (decide (id = gk_id g1)) as [->|]; [rewrite lookup_insert_eq|rewrite lookup_insert_ne by done].
    + rewrite Hget in Hget1. injection Hget1 as -> ->.
      destruct (record_proj g1 (uses (gk_id g1) h) t token Hg1) as (_ & _ & Hr1). simpl in Hr1.
      rewrite Hr1 in Hr. subst t. split_and!; [done..| |done]. intros _ [Hin'|?%list_elem_of_singleton]%elem_of_app; [|done].
      by apply Hnone.
    + split_and!; [done..| |].
      * intros ?%Hnone. intros [|?%list_elem_of_singleton]%elem_of_app; done.
      * intros [|(c&?&?)]%Hsome; [left; set_solver|right; eauto].
  - intros id' r. destruct (decide (id = id')) as [->|]; [|rewrite lookup_insert_ne by done].
    + intros _. exists tok0, g0. set_solver.
    + intros (token & g1 & ? & ?)%Hgr. exists token, g1. set_solver.
  - intros hh' id' (token & g1 & ? & ? & ?)%Hix. exists token, g1. set_solver.
  - intros token g1. rewrite hashes_app, app_nil_r. intros Hnd [Hin|?%list_elem_of_singleton]%elem_of_app; [|done]. auto.
  - intros token g1 [Hin|?%list_elem_of_singleton]%elem_of_app; [|done]. eauto.
  - intros id' Hin. destruct (decide (id = id')) as [->|]; [by rewrite lookup_insert_eq|].
    rewrite lookup_insert_ne by done. apply Hev. set_solver.
Qed.

Lemma GrantInv_validate clocks token v now s h s' r :
  GrantInv clocks s h → validate_grant hash token v now s = (s', r) →
  gs_nextID s' = gs_nextID s ∧
  GrantInv (now :: clocks) s' (h ++ match r with Allowed g => [EvAllowed (gk_id g)] | _ => [] end).
Proof.
  intros Hinv Hv. pose proof (GrantInv_expire _ now _ _ Hinv) as Hexp.
  apply validate_spec in Hv as [(id & g & hh & -> & _ & Hidx & Hget & Hr & He & Hc & ->)|[Hr Hs]].
  - split; [done|]. apply (GrantInv_use _ id g hh) in Hexp as [-> Hexp]; [done| |done].
    simpl. rewrite lookup_fmap, Hget. simpl. unfold expire_one. simpl. rewrite Hr. unfold Before.
    by destruct (Z.ltb_spec now (gk_expires g)); [|lia].
  - destruct r; try discriminate Hr; rewrite app_nil_r; destruct Hs as [-> | ->]; (split; [done|]); try done;
      (eapply GrantInv_clocks; [|done]); set_solver.
Qed.

(** When a validation is allowed, in terms of the history alone. *)
Lemma validate_iff clocks token v now s h :
  GrantInv clocks s h → (∀ c, c ∈ clocks → c ≤ now) → NoDup (hashes hash h) →
  is_allowed (validate_grant hash token v now s).2 = true ↔
  TrimSpace token ≠ "" ∧
  ∃ issued g, EvIssued issued g ∈ h ∧ hash issued = hash (TrimSpace token) ∧ EvRevoked (gk_id g) ∉ h ∧
    now < gk_expires g ∧ gk_check v (used (uses (gk_id g) h) g) = None.
Proof.
  intros Hinv Hclk Hnd. split.
  - destruct (validate_grant hash token v now s) as [s' r] eqn:Hv. simpl. intros Hr.
    apply validate_spec in Hv as [(id & g & hh & -> & Hne & Hidx & Hget & Hrev & He & Hc & _)|[? _]]; [|congruence].
    split; [done|]. destruct (gi_index _ _ _ Hinv _ _ Hidx) as (issued & g0 & Hin & <- & Hh). exists issued, g0.
    destruct (gi_record _ _ _ Hinv _ _ Hin) as (t & Hget0 & Hg0 & Hnone & _). rewrite Hget in Hget0.
    injection Hget0 as -> ->. destruct (record_proj g0 (uses (gk_id g0) h) t issued Hg0) as (_ & He0 & Hr0).
    simpl in He0, Hr0. rewrite Hr0 in Hrev. subst t. simpl in *. rewrite He0 in He. split_and!; auto.
  - intros (Hne & issued & g & Hin & Hh & Hnrev & He & Hc). pose proof (gi_indexed _ _ _ Hinv _ _ Hnd Hin) as Hidx.
    destruct (gi_record _ _ _ Hinv _ _ Hin) as (t & Hget & Hg & _ & Hsome).
    assert (t = None) as ->.
    { destruct t as [t|]; [|done]. destruct Hsome as [?|(c & Hcin & ?)]; [done..|]. specialize (Hclk c Hcin). lia. }
    unfold validate_grant. apply eqs_false in Hne. rewrite Hne. simpl. rewrite <-Hh, Hidx, lookup_fmap, Hget. simpl.
    destruct (record_proj g (uses (gk_id g) h) None issued Hg) as (_ & He0 & Hr0). simpl in He0, Hr0.
    assert (Before now (gk_expires g) = true) as Hb by by apply Z.ltb_lt.
    unfold expire_one, record. simpl. rewrite !Hr0, !He0, Hb. simpl. rewrite !Hr0, !He0, Hb. simpl. by rewrite Hc.
Qed.

Lemma GrantInv_run clocks s h ops :
  GrantInv clocks s h → gs_nextID s + Z.of_nat (length ops) ≤ max_int64 →
  let '(s', h') := run_grants hash s h ops in GrantInv (reverse (op_now <$> ops) ++ clocks) s' h'.
Proof.
  revert clocks s h; induction ops as [|op ops IH]; intros clocks s h Hinv Hmax; [done|]. simpl in *.
  rewrite reverse_cons, <-(assoc_L (++)). cbn [app].
  assert (gs_nextID (run_grant_op hash s op).1 ≤ gs_nextID s + 1 ∧
          GrantInv (op_now op :: clocks) (run_grant_op hash s op).1 (h ++ (run_grant_op hash s op).2)) as [Hn Hinv'].
  { destruct op as [i token now|id now|token v now|now|id now]; simpl.
    - destruct (issue hash i token now s) as [s' r] eqn:Hop. apply (GrantInv_issue clocks _ _ _ _ h) in Hop as [? Hop]; [|done|lia].
      split; [done|]. eapply GrantInv_clocks; [|done]. set_solver.
    - destruct (revoke_grant id now s) as [s' r] eqn:Hop. apply (GrantInv_revoke clocks _ _ _ h) in Hop as [Heq Hop]; [|done].
      simpl. split; [lia|]. eapply GrantInv_clocks; [|done]. set_solver.
    - destruct (validate_grant hash token v now s) as [s' r] eqn:Hop. apply (GrantInv_validate clocks _ _ _ _ h) in Hop as [Heq Hop]; [|done].
      simpl. split; [lia|done].
    - rewrite app_nil_r. split; [lia|]. by apply GrantInv_expire.
    - rewrite app_nil_r. split; [lia|]. by apply GrantInv_expire. }
  destruct (run_grant_op hash s op) as [s' evs]. simpl in *. apply IH; [done|lia].
Qed.

Lemma validate_mismatch token v now s s' g reason :
  validate_grant hash token v now s = (s', Refused g (Mismatch reason)) → ∃ g, gk_check v g = Some reason.
Proof. unfold validate_grant. repeat case_match; intros [= ? <- <-]; eauto. Qed.

(** The store after any calls since it was made: when a validation is allowed. *)
Lemma grant_history ops token v now :
  Z.of_nat (length ops) ≤ max_int64 → Forall (λ op, op_now op ≤ now) ops →
  let '(s, h) := run_grants hash new_grants [] ops in
  NoDup (hashes hash h) →
  is_allowed (validate_grant hash token v now s).2 = true ↔
  TrimSpace token ≠ "" ∧
  ∃ issued g, EvIssued issued g ∈ h ∧ hash issued = hash (TrimSpace token) ∧ EvRevoked (gk_id g) ∉ h ∧
    now < gk_expires g ∧ gk_check v (used (uses (gk_id g) h) g) = None.
Proof.
  intros Hlen Hclk. pose proof (GrantInv_run [] new_grants [] ops GrantInv_new Hlen) as Hinv.
  destruct (run_grants hash new_grants [] ops) as [s h]. intros Hnd. eapply validate_iff; [done| |done].
  intros c. rewrite app_nil_r, elem_of_reverse, list_elem_of_fmap. intros (op & -> & Hop).
  by apply (proj1 (Forall_forall _ _) Hclk).
Qed.

Lemma issued_made ops token g :
  Z.of_nat (length ops) ≤ max_int64 → EvIssued token g ∈ (run_grants hash new_grants [] ops).2 → made g.
Proof.
  intros Hlen. pose proof (GrantInv_run [] new_grants [] ops GrantInv_new Hlen) as Hinv.
  destruct (run_grants hash new_grants [] ops) as [s h]. intros Hin. by apply (gi_ids _ _ _ Hinv) in Hin as [? _].
Qed.

(** An expired grant is marked revoked before it is looked at, so that no
    validation ever answers that a grant has expired. *)
Lemma never_expired token v now s g : (validate_grant hash token v now s).2 ≠ Refused g Expired.
Proof.
  unfold validate_grant. destruct (eqs (TrimSpace token) ""); [done|].
  destruct (gs_tokenIndex _ !! _) as [id|]; [|done]. simpl. rewrite lookup_fmap.
  destruct (gs_grants s !! id) as [[g0 hh]|]; [|done]. simpl. unfold expire_one. simpl.
  destruct (gk_revoked g0) as [t|] eqn:Hr; simpl; [by rewrite Hr|].
  destruct (Before now (gk_expires g0)) eqn:He; simpl; [rewrite Hr; simpl; rewrite He; simpl; by destruct (gk_check v g0)|].
  by rewrite gk_revoked_revoke.
Qed.
End laws.

(** ** Delegation tokens *)

Module Delegation.
Record DelegationToken : Type := mkDelegation {
  dt_ID : string;
  dt_Grantor : string;
  dt_Delegatee : string;
  dt_PipelineID : string;
  dt_Scopes : list string;
  dt_TTLSeconds : Z;
  dt_MaxUses : Z;
  dt_UsedCount : Z;
  dt_CreatedAt : Time;
  dt_ExpiresAt : Time;
  dt_RevokedAt : option Time;
}.
#[export] Instance DelegationToken_eta : Eta DelegationToken := λ r,
  mkDelegation (dt_ID r) (dt_Grantor r) (dt_Delegatee r) (dt_PipelineID r) (dt_Scopes r) (dt_TTLSeconds r)
    (dt_MaxUses r) (dt_UsedCount r) (dt_CreatedAt r) (dt_ExpiresAt r) (dt_RevokedAt r).

Record DelegationTokenIssueInput : Type := mkDelegationInput {
  di_Grantor : string;
  di_Delegatee : string;
  di_PipelineID : string;
  di_Scopes : list string;
  di_TTLSeconds : Z;
  di_MaxUses : Z;
}.

Record DelegationTokenValidationResult : Type := mkDelegationResult {
  dv_Allowed : bool;
  dv_Reason : string;
  dv_DelegationID : string;
  dv_Grantor : string;
  dv_Delegatee : string;
  dv_ExpiresAt : Time;
  dv_UsesRemaining : Z;
}.

Definition normalizeStringSlice (l : list string) : list string := clean_list norm l.

Definition sliceContains (values : list string) (needle : string) : bool :=
  let needle := TrimSpace needle in
  if eqs needle "" then false else existsb (λ value, eqs (TrimSpace value) needle) values.

(** The body of [Issue] up to the lock. *)
Definition make_delegation (i : DelegationTokenIssueInput) (now : Time) : string + DelegationToken :=
  let grantor := TrimSpace (di_Grantor i) in
  let delegatee := TrimSpace (di_Delegatee i) in
  if eqs grantor "" || eqs delegatee "" then inl "grantor and delegatee are required" else
  let ttl := if di_TTLSeconds i <=? 0 then 900 else di_TTLSeconds i in
  if ttl <? 60 then inl "ttl_seconds must be >= 60" else
  if 86400 <? ttl then inl "ttl_seconds must be <= 86400" else
  let maxUses := if di_MaxUses i <=? 0 then 1 else di_MaxUses i in
  if 100 <? maxUses then inl "max_uses must be <= 100" else
  let scopes := normalizeStringSlice (di_Scopes i) in
  if bool_decide (scopes = []) then inl "at least one scope is required" else
  inr (mkDelegation "" grantor delegatee (TrimSpace (di_PipelineID i)) scopes ttl maxUses 0 now
         (Add now (seconds ttl)) None).

(** The last two checks of [validateAt]. *)
Definition check_delegation (requiredScope : string) (d : DelegationToken) : option string :=
  let requiredScope := TrimSpace requiredScope in
  if negb (eqs requiredScope "") && negb (sliceContains (dt_Scopes d) requiredScope)
  then Some "required scope not granted"
  else if dt_MaxUses d <=? dt_UsedCount d then Some "delegation token exhausted"
  else None.

Definition delegation_later (d d' : DelegationToken) : Prop := dt_CreatedAt d' ≤ dt_CreatedAt d.
#[export] Instance delegation_later_dec d d' : Decision (delegation_later d d').
Proof. unfold delegation_later. apply _. Defined.

#[export] Instance delegation_kind : GrantKind DelegationToken DelegationTokenIssueInput string := {
  gk_prefix := "delegation-";
  gk_make := make_delegation;
  gk_id := dt_ID;
  gk_set_id := λ id d, d <| dt_ID := id |>;
  gk_expires := dt_ExpiresAt;
  gk_revoked := dt_RevokedAt;
  gk_revoke := λ t d, d <| dt_RevokedAt := Some t |>;
  gk_later := delegation_later;
  gk_check := check_delegation;
  gk_use := λ d, d <| dt_UsedCount := dt_UsedCount d + 1 |>;
}.

#[export] Instance delegation_gk_later_dec (d d' : DelegationToken) : Decision (gk_later d d').
Proof. simpl. apply _. Defined.

#[export] Instance delegation_laws : GrantLaws DelegationToken DelegationTokenIssueInput string.
Proof.
  split; try by intros; destruct g.
  intros i now g. simpl. unfold make_delegation. repeat case_match; by intros [= <-].
Qed.

Abbreviation DelegationTokenStore := (grant_store DelegationToken).

Definition NewDelegationTokenStore : DelegationTokenStore := new_grants.

Definition validationFromDelegation (d : DelegationToken) (allowed : bool) (reason : string)
    : DelegationTokenValidationResult :=
  let remaining := dt_MaxUses d - dt_UsedCount d in
  let remaining := if remaining <? 0 then 0 else remaining in
  mkDelegationResult allowed reason (dt_ID d) (dt_Grantor d) (dt_Delegatee d) (dt_ExpiresAt d) remaining.

Definition delegation_result (v : validation DelegationToken) : DelegationTokenValidationResult :=
  match v with
  | TokenRequired => mkDelegationResult false "token is required" "" "" "" 0 0
  | NotRecognized => mkDelegationResult false "delegation token not recognized" "" "" "" 0 0
  | Refused d Revoked => validationFromDelegation d false "delegation token revoked"
  | Refused d Expired => validationFromDelegation d false "delegation token expired"
  | Refused d (Mismatch reason) => validationFromDelegation d false reason
  | Allowed d => validationFromDelegation d true ""
  end.

Section ops.
Variable hashDelegationToken : string → string.

Definition Issue (i : DelegationTokenIssueInput) (token : option string) (now : Time) (s : DelegationTokenStore) :=
  issue hashDelegationToken i token now s.
Definition cleanupExpiredLocked (now : Time) (s : DelegationTokenStore) : DelegationTokenStore := expire_grants now s.
Definition ListTokens (now : Time) (s : DelegationTokenStore) : DelegationTokenStore * list DelegationToken :=
  list_grants now s.
Definition GetToken (id : string) (now : Time) (s : DelegationTokenStore) : DelegationTokenStore * option DelegationToken :=
  get_grant id now s.
Definition Revoke (id : string) (now : Time) (s : DelegationTokenStore) : DelegationTokenStore * option DelegationToken :=
  revoke_grant id now s.
Definition validateAt (token requiredScope : string) (now : Time) (s : DelegationTokenStore)
    : DelegationTokenStore * DelegationTokenValidationResult :=
  let '(s, v) := validate_grant hashDelegationToken token requiredScope now s in (s, delegation_result v).
End ops.

Lemma made_delegation d :
  made d → dt_UsedCount d = 0 ∧ 1 ≤ dt_MaxUses d ≤ 100 ∧
           dt_CreatedAt d + 60 * Second ≤ dt_ExpiresAt d ≤ dt_CreatedAt d + 86400 * Second.
Proof.
  intros (i & now & d0 & Hmk & ->). simpl in Hmk. unfold make_delegation in Hmk.
  destruct (_ || _); [done|]. set (ttl := if di_TTLSeconds i <=? 0 then 900 else _) in Hmk.
  set (uses := if di_MaxUses i <=? 0 then 1 else _) in Hmk.
  destruct (Z.ltb_spec ttl 60); [done|]. destruct (Z.ltb_spec 86400 ttl); [done|].
  destruct (Z.ltb_spec 100 uses); [done|]. case_bool_decide; [done|]. injection Hmk as <-. simpl.
  assert (1 ≤ uses) by (subst uses; destruct (Z.leb_spec (di_MaxUses i) 0); lia).
  unfold Add. rewrite seconds_small by lia. unfold Second. lia.
Qed.

Lemma result_allowed v : dv_Allowed (delegation_result v) = is_allowed v.
Proof. by destruct v as [| |? []|]. Qed.

Lemma used_delegation n d :
  dt_Scopes (used n d) = dt_Scopes d ∧ dt_MaxUses (used n d) = dt_MaxUses d ∧
  dt_UsedCount (used n d) = dt_UsedCount d + Z.of_nat n.
Proof.
  induction n as [|n (?&?&IH)]; [simpl; by rewrite Z.add_0_r|]. simpl in *. destruct (used n d). simpl in *.
  split_and!; try done. lia.
Qed.

Lemma check_used scope n d :
  check_delegation scope (used n d) = None ↔
  (TrimSpace scope = "" ∨ sliceContains (dt_Scopes d) (TrimSpace scope) = true) ∧
  dt_UsedCount d + Z.of_nat n < dt_MaxUses d.
Proof.
  destruct (used_delegation n d) as (Hs & Hm & Hu). unfold check_delegation. rewrite Hs, Hm, Hu.
  destruct (eqs (TrimSpace scope) "") eqn:Hb; rewrite ?eqs_true, ?eqs_false in Hb; simpl.
  - destruct (Z.leb_spec (dt_MaxUses d) (dt_UsedCount d + Z.of_nat n)); naive_solver lia.
  - destruct (sliceContains _ _); simpl; [|naive_solver].
    destruct (Z.leb_spec (dt_MaxUses d) (dt_UsedCount d + Z.of_nat n)); naive_solver lia.
Qed.
End Delegation.

(** ** Just-in-time access grants *)

Module JIT.
Record JITAccessGrant : Type := mkJIT {
  jg_ID : string;
  jg_Subject : string;
  jg_Resource : string;
  jg_Action : string;
  jg_IssuedBy : string;
  jg_Reason : string;
  jg_BreakGlassRequestID : string;
  jg_TTLSeconds : Z;
  jg_CreatedAt : Time;
  jg_ExpiresAt : Time;
  jg_RevokedAt : option Time;
}.
#[export] Instance JITAccessGrant_eta : Eta JITAccessGrant := λ r,
  mkJIT (jg_ID r) (jg_Subject r) (jg_Resource r) (jg_Action r) (jg_IssuedBy r) (jg_Reason r)
    (jg_BreakGlassRequestID r) (jg_TTLSeconds r) (jg_CreatedAt r) (jg_ExpiresAt r) (jg_RevokedAt r).

Record JITAccessGrantIssueInput : Type := mkJITInput {
  ji_Subject : string;
  ji_Resource : string;
  ji_Action : string;
  ji_IssuedBy : string;
  ji_Reason : string;
  ji_BreakGlassRequestID : string;
  ji_TTLSeconds : Z;
}.

(** The resource and action of a validation. *)
Record JITAccessGrantValidationInput : Type := mkJITAsk { ja_Resource : string; ja_Action : string }.

Record JITAccessGrantValidationResult : Type := mkJITResult {
  jv_Allowed : bool;
  jv_Reason : string;
  jv_GrantID : string;
  jv_Subject : string;
  jv_Resource : string;
  jv_Action : string;
  jv_ExpiresAt : Time;
}.

Definition make_jit_grant (i : JITAccessGrantIssueInput) (now : Time) : string + JITAccessGrant :=
  let subject := TrimSpace (ji_Subject i) in
  let resource := TrimSpace (ji_Resource i) in
  let action := TrimSpace (ji_Action i) in
  let issuedBy := TrimSpace (ji_IssuedBy i) in
  let reason := TrimSpace (ji_Reason i) in
  if eqs subject "" || eqs resource "" || eqs action "" || eqs issuedBy "" || eqs reason ""
  then inl "subject, resource, action, issued_by, and reason are required" else
  let ttl := if ji_TTLSeconds i <=? 0 then 900 else ji_TTLSeconds i in
  if ttl <? 60 then inl "ttl_seconds must be >= 60" else
  if 3600 <? ttl then inl "ttl_seconds must be <= 3600" else
  inr (mkJIT "" subject resource action issuedBy reason (TrimSpace (ji_BreakGlassRequestID i)) ttl now
         (Add now (seconds ttl)) None).

Definition check_jit_grant (a : JITAccessGrantValidationInput) (g : JITAccessGrant) : option string :=
  let reqResource := TrimSpace (ja_Resource a) in
  let reqAction := TrimSpace (ja_Action a) in
  if negb (eqs reqResource "") && negb (eqs reqResource (jg_Resource g))
  then Some "jit access grant resource mismatch"
  else if negb (eqs reqAction "") && negb (eqs reqAction (jg_Action g))
  then Some "jit access grant action mismatch"
  else None.

Definition jit_later (g g' : JITAccessGrant) : Prop := jg_CreatedAt g' ≤ jg_CreatedAt g.
#[export] Instance jit_later_dec g g' : Decision (jit_later g g').
Proof. unfold jit_later. apply _. Defined.

#[export] Instance jit_kind : GrantKind JITAccessGrant JITAccessGrantIssueInput JITAccessGrantValidationInput := {
  gk_prefix := "jit-grant-";
  gk_make := make_jit_grant;
  gk_id := jg_ID;
  gk_set_id := λ id g, g <| jg_ID := id |>;
  gk_expires := jg_ExpiresAt;
  gk_revoked := jg_RevokedAt;
  gk_revoke := λ t g, g <| jg_RevokedAt := Some t |>;
  gk_later := jit_later;
  gk_check := check_jit_grant;
  gk_use := λ g, g;
}.

#[export] Instance jit_gk_later_dec (g g' : JITAccessGrant) : Decision (gk_later g g').
Proof. simpl. apply _. Defined.

#[export] Instance jit_laws : GrantLaws JITAccessGrant JITAccessGrantIssueInput JITAccessGrantValidationInput.
Proof.
  split; try by intros; destruct g.
  intros i now g. simpl. unfold make_jit_grant. repeat case_match; by intros [= <-].
Qed.

Abbreviation JITAccessGrantStore := (grant_store JITAccessGrant).

Definition NewJITAccessGrantStore : JITAccessGrantStore := new_grants.

Definition resultFromJITGrant (g : JITAccessGrant) (allowed : bool) (reason : string)
    : JITAccessGrantValidationResult :=
  mkJITResult allowed reason (jg_ID g) (jg_Subject g) (jg_Resource g) (jg_Action g) (jg_ExpiresAt g).

Definition jit_result (v : validation JITAccessGrant) : JITAccessGrantValidationResult :=
  match v with
  | TokenRequired => mkJITResult false "token is required" "" "" "" "" 0
  | NotRecognized => mkJITResult false "jit access grant token not recognized" "" "" "" "" 0
  | Refused g Revoked => resultFromJITGrant g false "jit access grant revoked"
  | Refused g Expired => resultFromJITGrant g false "jit access grant expired"
  | Refused g (Mismatch reason) => resultFromJITGrant g false reason
  | Allowed g => resultFromJITGrant g true ""
  end.

Section ops.
Variable hashJITAccessGrantToken : string → string.

Definition IssueJIT (i : JITAccessGrantIssueInput) (token : option string) (now : Time) (s : JITAccessGrantStore) :=
  issue hashJITAccessGrantToken i token now s.
Definition expireLocked (now : Time) (s : JITAccessGrantStore) : JITAccessGrantStore := expire_grants now s.
Definition ListJIT (now : Time) (s : JITAccessGrantStore) : JITAccessGrantStore * list JITAccessGrant :=
  list_grants now s.
Definition GetJIT (id : string) (now : Time) (s : JITAccessGrantStore) : JITAccessGrantStore * option JITAccessGrant :=
  get_grant id now s.
Definition RevokeJIT (id : string) (now : Time) (s : JITAccessGrantStore) : JITAccessGrantStore * option JITAccessGrant :=
  revoke_grant id now s.
Definition validateJITAt (token : string) (a : JITAccessGrantValidationInput) (now : Time) (s : JITAccessGrantStore)
    : JITAccessGrantStore * JITAccessGrantValidationResult :=
  let '(s, v) := validate_grant hashJITAccessGrantToken token a now s in (s, jit_result v).
End ops.

Lemma jit_result_allowed v : jv_Allowed (jit_result v) = is_allowed v.
Proof. by destruct v as [| |? []|]. Qed.

Lemma used_jit n g : used n g = g.
Proof. by induction n. Qed.

Lemma check_jit_grant_ok a g :
  check_jit_grant a g = None ↔
  (TrimSpace (ja_Resource a) = "" ∨ TrimSpace (ja_Resource a) = jg_Resource g) ∧
  (TrimSpace (ja_Action a) = "" ∨ TrimSpace (ja_Action a) = jg_Action g).
Proof.
  unfold check_jit_grant, eqs. repeat case_bool_decide; simpl; naive_solver.
Qed.
End JIT.

Import Delegation JIT.

(** C25: Access tokens, after any history of calls with a clock that does not go
    back, and while no two tokens issued have the same hash.  A delegation token
    is accepted exactly when its hash is that of a token issued for a delegation
    that was not revoked since, has not expired, grants the scope asked for and
    was accepted less often than its [MaxUses], which is between 1 and 100; it
    lives between a minute and a day.  A just-in-time grant is accepted exactly
    when it was issued, was not revoked, has not expired, and is for the resource
    and the action. *)
Theorem access_tokens hash :
  (∀ ops token scope now,
     Z.of_nat (length ops) ≤ max_int64 → Forall (λ op, op_now op ≤ now) ops →
     let '(s, h) := run_grants hash NewDelegationTokenStore [] ops in
     NoDup (hashes hash h) →
     dv_Allowed (validateAt hash token scope now s).2 = true ↔
     TrimSpace token ≠ "" ∧
     ∃ issued d, EvIssued issued d ∈ h ∧ hash issued = hash (TrimSpace token) ∧ EvRevoked (dt_ID d) ∉ h ∧
       now < dt_ExpiresAt d ∧ (TrimSpace scope = "" ∨ sliceContains (dt_Scopes d) (TrimSpace scope) = true) ∧
       Z.of_nat (uses (dt_ID d) h) < dt_MaxUses d ∧ 1 ≤ dt_MaxUses d ≤ 100 ∧
       dt_CreatedAt d + 60 * Second ≤ dt_ExpiresAt d ≤ dt_CreatedAt d + 86400 * Second) ∧
  (∀ ops token a now,
     Z.of_nat (length ops) ≤ max_int64 → Forall (λ op, op_now op ≤ now) ops →
     let '(s, h) := run_grants hash NewJITAccessGrantStore [] ops in
     NoDup (hashes hash h) →
     jv_Allowed (validateJITAt hash token a now s).2 = true ↔
     TrimSpace token ≠ "" ∧
     ∃ issued g, EvIssued issued g ∈ h ∧ hash issued = hash (TrimSpace token) ∧ EvRevoked (jg_ID g) ∉ h ∧
       now < jg_ExpiresAt g ∧ (TrimSpace (ja_Resource a) = "" ∨ TrimSpace (ja_Resource a) = jg_Resource g) ∧
       (TrimSpace (ja_Action a) = "" ∨ TrimSpace (ja_Action a) = jg_Action g)).
Proof.
  split.
  - intros ops token scope now Hlen Hclk. pose proof (grant_history hash ops token scope now Hlen Hclk) as Hh.
    pose proof (λ tok d, issued_made hash ops tok d Hlen) as Hmade. unfold NewDelegationTokenStore.
    destruct (run_grants hash new_grants [] ops) as [s h]. intros Hnd. specialize (Hh Hnd). unfold validateAt.
    destruct (validate_grant hash token scope now s) as [s' v]. simpl in *. rewrite result_allowed, Hh. clear Hh.
    f_equiv. apply exist_proper; intros tok. apply exist_proper; intros d. rewrite check_used.
    split; intros (Hin & ? & ? & ? & Hc); pose proof (made_delegation d (Hmade _ _ Hin)) as (Hu & ? & ?);
      rewrite Hu in *; naive_solver lia.
  - intros ops token a now Hlen Hclk. pose proof (grant_history hash ops token a now Hlen Hclk) as Hh.
    unfold NewJITAccessGrantStore. destruct (run_grants hash new_grants [] ops) as [s h]. intros Hnd. specialize (Hh Hnd).
    unfold validateJITAt. destruct (validate_grant hash token a now s) as [s' v]. simpl in *.
    rewrite jit_result_allowed, Hh. clear Hh. f_equiv. apply exist_proper; intros tok. apply exist_proper; intros g.
    by rewrite used_jit, check_jit_grant_ok.
Qed.

Definition wit_delegation : DelegationTokenIssueInput := mkDelegationInput "ann" "ci" "" ["Deploy"] 60 2.
Definition wit_calls : list (grant_op DelegationTokenIssueInput string) :=
  [OpIssue wit_delegation (Some "t1") 5; OpValidate "t1" "deploy" 6].

Lemma access_tokens_witness :
  dv_Allowed (validateAt (λ t, t) " t1 " "deploy" 7 (run_grants (λ t, t) NewDelegationTokenStore [] wit_calls).1).2
    = true.
Proof.
  pose proof (proj1 (access_tokens (λ t, t)) wit_calls " t1 " "deploy" 7) as H.
  destruct (run_grants (λ t, t) NewDelegationTokenStore [] wit_calls) as [s h] eqn:Hrun.
  vm_compute in Hrun. injection Hrun as <- <-. apply H.
  - by vm_compute.
  - repeat constructor; by vm_compute.
  - by apply NoDup_singleton.
  - split; [by vm_compute|]. eexists "t1", _. split; [by left|]. split; [by vm_compute|].
    split; [by rewrite !elem_of_cons, elem_of_nil; intros [?|[?|?]]|].
    split; [by vm_compute|]. split; [right; by vm_compute|]. repeat split; by vm_compute.
Defined.

(** Scopes are lower-cased when a token is issued, but not when one is asked
    for: the very scope a token was issued for is refused if it has a capital. *)
Theorem granted_scope_refused :
  delegation_result (validate_grant (λ t, t) "t1" "Deploy" 7
    (Issue (λ t, t) wit_delegation (Some "t1") 5 NewDelegationTokenStore).1).2
  = mkDelegationResult false "required scope not granted" "delegation-1" "ann" "ci" 60000000005 2.
Proof. by vm_compute. Qed.

(** The answer that a token has expired is never given: looking one up marks an
    expired grant as revoked first. *)
Theorem tokens_never_expire hash token scope now s :
  dv_Reason (validateAt hash token scope now s).2 ≠ "delegation token expired".
Proof.
  unfold validateAt. pose proof (never_expired hash token scope now s) as Hne.
  destruct (validate_grant hash token scope now s) as [s' [| |d [| |reason]|d]] eqn:Hv; simpl; try done.
  - by destruct (Hne d).
  - apply validate_mismatch in Hv as (d' & Hc).
    intros ->. simpl in Hc. unfold check_delegation in Hc. destruct (_ && _); [discriminate Hc|]. destruct (_ <=? _); discriminate Hc.
Qed.
