(* ===== verification/Access.v ===== *)
(** * Access control: [internal/control/rbac.go] and [abac.go]

    Roles bound to subjects, and attribute policies ordered by priority.  Both
    decisions run over Go maps, so the functions that decide take the entries as
    a list, and the theorem is about every order that [range] or [sort.Slice]
    may give. *)

From S2P Require Import Prelude.

(** [rbacTokenMatches] and [abacTokenMatch] are the same function. *)
Definition token_matches (pattern value : string) : bool :=
  let pattern := TrimSpace pattern in
  let value := TrimSpace value in
  if eqs pattern "*" then true else eqs pattern value.

Module RBAC.
Record RBACPermission : Type := mkPermission { rp_Resource : string; rp_Action : string; rp_Scope : string }.

Record RBACRole : Type := mkRole {
  rr_ID : string;
  rr_Name : string;
  rr_Description : string;
  rr_Permissions : list RBACPermission;
  rr_CreatedAt : Time;
  rr_UpdatedAt : Time;
}.

Record RBACBinding : Type := mkBinding {
  rb_ID : string;
  rb_Subject : string;
  rb_RoleID : string;
  rb_Scope : string;
  rb_CreatedAt : Time;
  rb_UpdatedAt : Time;
}.

Record RBACStore : Type := mkRBAC {
  rs_nextRoleID : Z;
  rs_nextBindID : Z;
  rs_roles : gmap string RBACRole;
  rs_bindings : gmap string RBACBinding;
}.
#[export] Instance RBACStore_eta : Eta RBACStore := λ r,
  mkRBAC (rs_nextRoleID r) (rs_nextBindID r) (rs_roles r) (rs_bindings r).

Record RBACAccessCheckInput : Type := mkRBACInput {
  ri_Subject : string;
  ri_Resource : string;
  ri_Action : string;
  ri_Scope : string;
}.

Record RBACAccessCheckResult : Type := mkRBACResult {
  ra_Allowed : bool;
  ra_Reason : string;
  ra_MatchedRoleID : string;
  ra_MatchedBindID : string;
}.

Inductive rbac_error := NameRequired | NoPermissions | PermissionFields | BindingFields | RoleNotFound.

Definition NewRBACStore : RBACStore := mkRBAC 0 0 ∅ ∅.

Definition normalize_permission (p : RBACPermission) : result rbac_error RBACPermission :=
  let resource := TrimSpace (rp_Resource p) in
  let action := TrimSpace (rp_Action p) in
  if eqs resource "" || eqs action "" then Err PermissionFields
  else Ok (mkPermission resource action (TrimSpace (rp_Scope p))).

Definition normalizeRBACPermissions (l : list RBACPermission) : result rbac_error (list RBACPermission) :=
  if bool_decide (l = []) then Err NoPermissions else mapM_res normalize_permission l.

Definition CreateRole (name description : string) (permissions : list RBACPermission) (now : Time) (s : RBACStore)
    : RBACStore * result rbac_error RBACRole :=
  let name := TrimSpace name in
  if eqs name "" then (s, Err NameRequired) else
  match normalizeRBACPermissions permissions with
  | Err e => (s, Err e)
  | Ok permissions =>
      let next := rs_nextRoleID s + 1 in
      let role := mkRole ("rbac-role-" +:+ itoa next) name (TrimSpace description) permissions now now in
      (s <| rs_nextRoleID := next |> <| rs_roles := <[rr_ID role := role]> (rs_roles s) |>, Ok role)
  end.

Definition role_later (r q : RBACRole) : Prop := rr_CreatedAt q ≤ rr_CreatedAt r.
#[export] Instance role_later_dec r q : Decision (role_later r q).
Proof. unfold role_later. apply _. Defined.
Definition ListRoles (s : RBACStore) : list RBACRole := merge_sort role_later (map_to_list (rs_roles s)).*2.

Definition GetRole (id : string) (s : RBACStore) : option RBACRole := rs_roles s !! TrimSpace id.

Definition CreateBinding (subject roleID scope : string) (now : Time) (s : RBACStore)
    : RBACStore * result rbac_error RBACBinding :=
  let subject := TrimSpace subject in
  let roleID := TrimSpace roleID in
  let scope := TrimSpace scope in
  if eqs subject "" || eqs roleID "" then (s, Err BindingFields) else
  let scope := if eqs scope "" then "*" else scope in
  match rs_roles s !! roleID with
  | None => (s, Err RoleNotFound)
  | Some _ =>
      let next := rs_nextBindID s + 1 in
      let binding := mkBinding ("rbac-binding-" +:+ itoa next) subject roleID scope now now in
      (s <| rs_nextBindID := next |> <| rs_bindings := <[rb_ID binding := binding]> (rs_bindings s) |>, Ok binding)
  end.

Definition binding_later (b q : RBACBinding) : Prop := rb_CreatedAt q ≤ rb_CreatedAt b.
#[export] Instance binding_later_dec b q : Decision (binding_later b q).
Proof. unfold binding_later. apply _. Defined.
Definition ListBindings (s : RBACStore) : list RBACBinding :=
  merge_sort binding_later (map_to_list (rs_bindings s)).*2.

Definition rbacScopeMatches (pattern scope : string) : bool :=
  let pattern := TrimSpace pattern in
  let scope := TrimSpace scope in
  if eqs pattern "" || eqs pattern "*" then true
  else if eqs scope pattern then true
  else HasPrefix scope (pattern +:+ "/").

Definition permission_matches (resource action scope : string) (p : RBACPermission) : bool :=
  token_matches (rp_Resource p) resource && token_matches (rp_Action p) action &&
  negb (negb (blank (rp_Scope p)) && negb (rbacScopeMatches (TrimSpace (rp_Scope p)) scope)).

(** The two loops of [CheckAccess]: the first binding with a permission that
    matches, among [bindings] in the order they are visited. *)
Fixpoint scan_bindings (s : RBACStore) (subject resource action scope : string) (bindings : list RBACBinding)
    : RBACAccessCheckResult :=
  match bindings with
  | [] => mkRBACResult false "no matching role binding permission" "" ""
  | b :: bindings =>
      let continue := scan_bindings s subject resource action scope bindings in
      if negb (eqs (rb_Subject b) subject) then continue
      else if negb (rbacScopeMatches (rb_Scope b) scope) then continue
      else match rs_roles s !! rb_RoleID b with
           | None => continue
           | Some role =>
               if existsb (permission_matches resource action scope) (rr_Permissions role)
               then mkRBACResult true "" (rr_ID role) (rb_ID b) else continue
           end
  end.

(** [bindings] are the values of the map in the order of [range]. *)
Definition check_in_order (s : RBACStore) (i : RBACAccessCheckInput) (bindings : list RBACBinding)
    : RBACAccessCheckResult :=
  let subject := TrimSpace (ri_Subject i) in
  let resource := TrimSpace (ri_Resource i) in
  let action := TrimSpace (ri_Action i) in
  let scope := TrimSpace (ri_Scope i) in
  if eqs subject "" || eqs resource "" || eqs action ""
  then mkRBACResult false "subject, resource, and action are required" "" ""
  else scan_bindings s subject resource action scope bindings.

Definition CheckAccess (s : RBACStore) (i : RBACAccessCheckInput) : RBACAccessCheckResult :=
  check_in_order s i (map_to_list (rs_bindings s)).*2.

(** ** What a decision means *)

(** A pattern covers a scope: it is a wildcard, the scope itself, or a path
    above it. *)
Definition covers (pattern scope : string) : Prop :=
  TrimSpace pattern = "" ∨ TrimSpace pattern = "*" ∨ TrimSpace scope = TrimSpace pattern ∨
  ∃ rest, TrimSpace scope = TrimSpace pattern +:+ "/" +:+ rest.

Definition names (pattern value : string) : Prop := TrimSpace pattern = "*" ∨ TrimSpace pattern = TrimSpace value.

Lemma token_matches_names pattern value : token_matches pattern value = true ↔ names pattern value.
Proof. unfold token_matches, names. rewrite <-!eqs_true. destruct (eqs (TrimSpace pattern) "*"); naive_solver. Qed.

Lemma rbacScopeMatches_covers pattern scope : rbacScopeMatches pattern scope = true ↔ covers pattern scope.
Proof.
  unfold rbacScopeMatches, covers. rewrite <-!eqs_true. setoid_rewrite <-append_assoc.
  destruct (eqs (TrimSpace pattern) "") eqn:H1; simpl; [naive_solver|].
  destruct (eqs (TrimSpace pattern) "*") eqn:H2; simpl; [naive_solver|].
  destruct (eqs (TrimSpace scope) (TrimSpace pattern)) eqn:H3; simpl; [naive_solver|].
  rewrite HasPrefix_true. naive_solver.
Qed.

(** Permission [p] grants the request. *)
Definition grants (i : RBACAccessCheckInput) (p : RBACPermission) : Prop :=
  names (rp_Resource p) (ri_Resource i) ∧ names (rp_Action p) (ri_Action i) ∧ covers (rp_Scope p) (ri_Scope i).

Lemma names_trim pattern value : names pattern (TrimSpace value) ↔ names pattern value.
Proof. unfold names. by rewrite TrimSpace_idemp. Qed.
Lemma covers_trim pattern scope : covers pattern (TrimSpace scope) ↔ covers pattern scope.
Proof. unfold covers. by rewrite TrimSpace_idemp. Qed.
Lemma covers_trim_l pattern scope : covers (TrimSpace pattern) scope ↔ covers pattern scope.
Proof. unfold covers. by rewrite TrimSpace_idemp. Qed.

Lemma permission_matches_grants i p :
  permission_matches (TrimSpace (ri_Resource i)) (TrimSpace (ri_Action i)) (TrimSpace (ri_Scope i)) p = true ↔
  grants i p.
Proof.
  unfold permission_matches, grants. rewrite !andb_true_iff, !token_matches_names, !names_trim, negb_true_iff.
  rewrite (assoc (∧)). f_equiv. rewrite andb_false_iff, !negb_false, blank_true, rbacScopeMatches_covers.
  rewrite covers_trim, covers_trim_l. unfold covers. tauto.
Qed.

(** Binding [b] grants the request, through a role of the store. *)
Definition binding_grants (s : RBACStore) (i : RBACAccessCheckInput) (b : RBACBinding) (role : RBACRole) : Prop :=
  rb_Subject b = TrimSpace (ri_Subject i) ∧ covers (rb_Scope b) (ri_Scope i) ∧
  rs_roles s !! rb_RoleID b = Some role ∧ ∃ p, p ∈ rr_Permissions role ∧ grants i p.

Lemma existsb_grants i l :
  existsb (permission_matches (TrimSpace (ri_Resource i)) (TrimSpace (ri_Action i)) (TrimSpace (ri_Scope i))) l = true
  ↔ ∃ p, p ∈ l ∧ grants i p.
Proof. rewrite existsb_exists. setoid_rewrite permission_matches_grants. by setoid_rewrite <-list_elem_of_In. Qed.

Lemma scan_bindings_spec s i bs :
  let r := scan_bindings s (TrimSpace (ri_Subject i)) (TrimSpace (ri_Resource i)) (TrimSpace (ri_Action i))
             (TrimSpace (ri_Scope i)) bs in
  (∃ b role, b ∈ bs ∧ binding_grants s i b role ∧ r = mkRBACResult true "" (rr_ID role) (rb_ID b)) ∨
  (∀ b role, b ∈ bs → ¬ binding_grants s i b role) ∧ ra_Allowed r = false.
Proof.
  induction bs as [|b bs IH]; simpl; [right; set_solver|].
  assert (∀ r, (∃ b' role, b' ∈ bs ∧ binding_grants s i b' role ∧ r = mkRBACResult true "" (rr_ID role) (rb_ID b')) ∨
               (∀ b' role, b' ∈ bs → ¬ binding_grants s i b' role) ∧ ra_Allowed r = false →
               (∀ role, ¬ binding_grants s i b role) →
               (∃ b' role, b' ∈ b :: bs ∧ binding_grants s i b' role ∧ r = mkRBACResult true "" (rr_ID role) (rb_ID b')) ∨
               (∀ b' role, b' ∈ b :: bs → ¬ binding_grants s i b' role) ∧ ra_Allowed r = false) as Hskip by set_solver.
  destruct (eqs (rb_Subject b) _) eqn:Hs; simpl; [apply eqs_true in Hs|apply eqs_false in Hs; apply Hskip; [done|by intros ? []]].
  destruct (rbacScopeMatches (rb_Scope b) _) eqn:Hc; simpl.
  2: { apply Hskip; [done|]. intros role (_ & Hcov & _). apply covers_trim, rbacScopeMatches_covers in Hcov. congruence. }
  rewrite rbacScopeMatches_covers, covers_trim in Hc.
  destruct (rs_roles s !! rb_RoleID b) as [role|] eqn:Hrole; [|apply Hskip; [done|intros ? (_ & _ & ? & _); congruence]].
  destruct (existsb _ _) eqn:He.
  - apply existsb_grants in He. left. exists b, role. split; [by left|]. split; [|done]. by split_and!.
  - apply Hskip; [done|]. intros role' (_ & _ & Hr & Hp). assert (role' = role) as -> by congruence.
    apply existsb_grants in Hp. congruence.
Qed.
End RBAC.

Module ABAC.
Record ABACPolicy : Type := mkPolicy {
  ap_ID : string;
  ap_Name : string;
  ap_Effect : string;
  ap_Subject : string;
  ap_Resource : string;
  ap_Action : string;
  ap_Conditions : gmap string string;
  ap_Priority : Z;
  ap_CreatedAt : Time;
  ap_UpdatedAt : Time;
}.

Record ABACPolicyInput : Type := mkPolicyInput {
  ai_Name : string;
  ai_Effect : string;
  ai_Subject : string;
  ai_Resource : string;
  ai_Action : string;
  ai_Conditions : gmap string string;
  ai_Priority : Z;
}.

Record ABACCheckInput : Type := mkCheckInput {
  ac_Subject : string;
  ac_Resource : string;
  ac_Action : string;
  ac_Context : gmap string string;
}.

Record ABACCheckResult : Type := mkCheckResult { ar_Allowed : bool; ar_Reason : string; ar_MatchedPolicy : string }.

Record ABACStore : Type := mkABAC { ab_nextID : Z; ab_policy : gmap string ABACPolicy }.

Inductive abac_error := PolicyFields | PolicyEffect.

Definition NewABACStore : ABACStore := mkABAC 0 ∅.

Definition put_condition (acc : gmap string string) (kv : string * string) : gmap string string :=
  let key := TrimSpace kv.1 in
  if eqs key "" then acc else <[key := TrimSpace kv.2]> acc.

Definition CreatePolicy (i : ABACPolicyInput) (now : Time) (s : ABACStore) : ABACStore * result abac_error ABACPolicy :=
  let name := TrimSpace (ai_Name i) in
  let effect := norm (ai_Effect i) in
  let subject := TrimSpace (ai_Subject i) in
  let resource := TrimSpace (ai_Resource i) in
  let action := TrimSpace (ai_Action i) in
  if eqs name "" || eqs effect "" || eqs subject "" || eqs resource "" || eqs action ""
  then (s, Err PolicyFields) else
  if negb (eqs effect "allow") && negb (eqs effect "deny") then (s, Err PolicyEffect) else
  let conditions := foldl put_condition ∅ (map_to_list (ai_Conditions i)) in
  let next := ab_nextID s + 1 in
  let item := mkPolicy ("abac-policy-" +:+ itoa next) name effect subject resource action conditions
                (ai_Priority i) now now in
  (mkABAC next (<[ap_ID item := item]> (ab_policy s)), Ok item).

(** The [less] of [ListPolicies]: by priority, then newest first. *)
Definition policy_less (p q : ABACPolicy) : bool :=
  if negb (ap_Priority p =? ap_Priority q) then ap_Priority q <? ap_Priority p
  else After (ap_CreatedAt p) (ap_CreatedAt q).

Definition policy_le (p q : ABACPolicy) : Prop := policy_less q p = false.
#[export] Instance policy_le_dec p q : Decision (policy_le p q).
Proof. unfold policy_le. apply _. Defined.

Definition ListPolicies (s : ABACStore) : list ABACPolicy := merge_sort policy_le (map_to_list (ab_policy s)).*2.

Definition abacConditionsMatch (conditions context : gmap string string) : bool :=
  forallb (λ kv, eqs (TrimSpace (default "" (context !! kv.1))) kv.2) (map_to_list conditions).

Definition policy_matches (i : ABACCheckInput) (p : ABACPolicy) : bool :=
  token_matches (ap_Subject p) (TrimSpace (ac_Subject i)) && token_matches (ap_Resource p) (TrimSpace (ac_Resource i)) &&
  token_matches (ap_Action p) (TrimSpace (ac_Action i)) && abacConditionsMatch (ap_Conditions p) (ac_Context i).

(** The loop of [Check]. *)
Fixpoint first_match (i : ABACCheckInput) (policies : list ABACPolicy) : ABACCheckResult :=
  match policies with
  | [] => mkCheckResult false "no matching abac policy" ""
  | p :: policies =>
      if negb (policy_matches i p) then first_match i policies
      else if eqs (ap_Effect p) "deny" then mkCheckResult false "denied by policy" (ap_ID p)
      else mkCheckResult true "" (ap_ID p)
  end.

(** [policies] are those of the store as [ListPolicies] sorted them. *)
Definition check_listed (i : ABACCheckInput) (policies : list ABACPolicy) : ABACCheckResult :=
  let subject := TrimSpace (ac_Subject i) in
  let resource := TrimSpace (ac_Resource i) in
  let action := TrimSpace (ac_Action i) in
  if eqs subject "" || eqs resource "" || eqs action ""
  then mkCheckResult false "subject, resource, and action are required" ""
  else first_match i policies.

Definition Check (i : ABACCheckInput) (s : ABACStore) : ABACCheckResult := check_listed i (ListPolicies s).

(** ** What a decision means *)

(** A store filled by [CreatePolicy] only holds the two effects. *)
Definition create_all (calls : list (ABACPolicyInput * Time)) : ABACStore :=
  foldl (λ s c, (CreatePolicy c.1 c.2 s).1) NewABACStore calls.

Lemma effects_created calls :
  map_Forall (λ _ p, ap_Effect p = "allow" ∨ ap_Effect p = "deny") (ab_policy (create_all calls)).
Proof.
  unfold create_all. assert (map_Forall (λ _ p, ap_Effect p = "allow" ∨ ap_Effect p = "deny") (ab_policy NewABACStore)) as H by done.
  revert H. generalize NewABACStore. induction calls as [|c calls IH]; intros s Hs; [done|]. simpl. apply IH.
  unfold CreatePolicy. destruct (_ || _); [done|].
  destruct (eqs (norm _) "allow") eqn:Ha, (eqs (norm _) "deny") eqn:Hd; simpl; try done;
    (apply map_Forall_insert_2; [|done]); simpl; rewrite <-!eqs_true; auto.
Qed.

(** What a policy asks of a request. *)
Definition applies (i : ABACCheckInput) (p : ABACPolicy) : Prop :=
  RBAC.names (ap_Subject p) (ac_Subject i) ∧ RBAC.names (ap_Resource p) (ac_Resource i) ∧
  RBAC.names (ap_Action p) (ac_Action i) ∧
  ∀ key expected, ap_Conditions p !! key = Some expected → TrimSpace (default "" (ac_Context i !! key)) = expected.

Lemma policy_matches_applies i p : policy_matches i p = true ↔ applies i p.
Proof.
  unfold policy_matches, applies. rewrite !andb_true_iff, !RBAC.token_matches_names, !RBAC.names_trim, <-!(assoc (∧)).
  do 3 f_equiv. unfold abacConditionsMatch. rewrite forallb_forall. split.
  - intros Hall key expected Hget. apply eqs_true. apply (Hall (key, expected)).
    by apply list_elem_of_In, elem_of_map_to_list.
  - intros Hall [key expected] Hin. apply eqs_true, Hall. by apply elem_of_map_to_list, list_elem_of_In.
Qed.

(** [p] comes before [q] in every list [sort.Slice] may return. *)
Definition precedes (p q : ABACPolicy) : Prop :=
  ap_Priority q < ap_Priority p ∨ ap_Priority p = ap_Priority q ∧ ap_CreatedAt q < ap_CreatedAt p.

Lemma policy_less_precedes p q : policy_less p q = true ↔ precedes p q.
Proof.
  unfold policy_less, precedes, After. destruct (Z.eqb_spec (ap_Priority p) (ap_Priority q)); simpl;
    rewrite Z.ltb_lt; lia.
Qed.
Lemma policy_le_not p q : policy_le p q ↔ ¬ precedes q p.
Proof. unfold policy_le. rewrite <-policy_less_precedes. by destruct (policy_less q p). Qed.

#[export] Instance policy_le_trans : Transitive policy_le.
Proof. intros p q r. rewrite !policy_le_not. unfold precedes. lia. Qed.
#[export] Instance policy_le_total : Total policy_le.
Proof. intros p q. rewrite !policy_le_not. unfold precedes. lia. Qed.

Lemma first_match_spec i l :
  (∃ l1 p l2, l = l1 ++ p :: l2 ∧ applies i p ∧ (∀ q, q ∈ l1 → ¬ applies i q) ∧
     first_match i l = if eqs (ap_Effect p) "deny" then mkCheckResult false "denied by policy" (ap_ID p)
                       else mkCheckResult true "" (ap_ID p)) ∨
  (∀ q, q ∈ l → ¬ applies i q) ∧ first_match i l = mkCheckResult false "no matching abac policy" "".
Proof.
  induction l as [|p l IH]; simpl; [right; set_solver|].
  destruct (policy_matches i p) eqn:Hp; simpl.
  - left. exists [], p, l. split_and!; [done|by apply policy_matches_applies|set_solver|done].
  - assert (¬ applies i p) as Hn by (rewrite <-policy_matches_applies; congruence).
    destruct IH as [(l1 & p' & l2 & -> & Ha & Hl1 & Hr)|[Hall Hr]]; [left|right; set_solver].
    exists (p :: l1), p', l2. split_and!; [done..|set_solver|done].
Qed.

(** The first that applies precedes the others that do. *)
Lemma first_precedes i ps l1 p l2 :
  StronglySorted policy_le ps → ps = l1 ++ p :: l2 → applies i p → (∀ q, q ∈ l1 → ¬ applies i q) →
  (∀ p q, p ∈ ps → q ∈ ps → applies i p → applies i q → p = q ∨ precedes p q ∨ precedes q p) →
  ∀ q, q ∈ ps → applies i q → q = p ∨ precedes p q.
Proof.
  intros Hsorted -> Hp Hl1 Htie q Hq Haq. apply StronglySorted_app in Hsorted as (_ & _ & Hsorted).
  apply StronglySorted_inv in Hsorted as [_ Hle]. rewrite Forall_forall in Hle.
  destruct (Htie p q) as [->|[?|Hpre]]; [set_solver|done..|by left|by right|].
  apply elem_of_app in Hq as [Hq|[->|Hq]%elem_of_cons]; [by destruct (Hl1 q)|by left|].
  apply Hle, policy_le_not in Hq. done.
Qed.

Lemma elem_of_map_values {A} (m : gmap string A) x : x ∈ (map_to_list m).*2 ↔ ∃ id, m !! id = Some x.
Proof.
  rewrite list_elem_of_fmap. split.
  - intros ([id y] & -> & Hin%elem_of_map_to_list). eauto.
  - intros [id Hid]. exists (id, x). by rewrite elem_of_map_to_list.
Qed.
End ABAC.

Import RBAC ABAC.

(** C26: Access decisions do not depend on the iteration order of maps.  Roles:
    whatever the order of the bindings, a request is allowed exactly when some
    binding of its subject covers its scope and names a role with a permission
    for its resource, action and scope, and the answer names such a binding and
    its role.  Attribute policies: in any order consistent with the comparison of
    [ListPolicies], a request is allowed exactly when it is complete and the
    policies that apply include an allowing one that comes before all the others,
    provided that no two of those that apply tie. *)
Theorem access_decisions :
  (∀ s i bs, bs ≡ₚ (map_to_list (rs_bindings s)).*2 →
     let r := check_in_order s i bs in
     (ra_Allowed r = true ↔
        TrimSpace (ri_Subject i) ≠ "" ∧ TrimSpace (ri_Resource i) ≠ "" ∧ TrimSpace (ri_Action i) ≠ "" ∧
        ∃ id b role, rs_bindings s !! id = Some b ∧ binding_grants s i b role) ∧
     (ra_Allowed r = true → ∃ id b role, rs_bindings s !! id = Some b ∧ binding_grants s i b role ∧
        ra_MatchedBindID r = rb_ID b ∧ ra_MatchedRoleID r = rr_ID role)) ∧
  (∀ calls i ps, let s := create_all calls in
     ps ≡ₚ (map_to_list (ab_policy s)).*2 → StronglySorted policy_le ps →
     (∀ p q, p ∈ ps → q ∈ ps → applies i p → applies i q → p = q ∨ precedes p q ∨ precedes q p) →
     ar_Allowed (check_listed i ps) = true ↔
       TrimSpace (ac_Subject i) ≠ "" ∧ TrimSpace (ac_Resource i) ≠ "" ∧ TrimSpace (ac_Action i) ≠ "" ∧
       ∃ id p, ab_policy s !! id = Some p ∧ applies i p ∧ ap_Effect p = "allow" ∧
         ∀ id' q, ab_policy s !! id' = Some q → applies i q → q = p ∨ precedes p q).
Proof.
  split.
  - intros s i bs Hperm r.
    assert (∀ b, b ∈ bs ↔ ∃ id, rs_bindings s !! id = Some b) as Hin by (intros b; rewrite Hperm; apply elem_of_map_values).
    unfold check_in_order in r. pose proof (scan_bindings_spec s i bs) as Hscan.
    destruct (eqs (TrimSpace (ri_Subject i)) "") eqn:H1; [subst r; simpl; rewrite eqs_true in H1; naive_solver|].
    destruct (eqs (TrimSpace (ri_Resource i)) "") eqn:H2; [subst r; simpl; rewrite eqs_true in H2; naive_solver|].
    destruct (eqs (TrimSpace (ri_Action i)) "") eqn:H3; [subst r; simpl; rewrite eqs_true in H3; naive_solver|].
    cbn [orb] in r. rewrite eqs_false in H1, H2, H3. destruct Hscan as [(b & role & Hb & Hg & Hr)|[Hno Hr]].
    + apply Hin in Hb as [id Hid]. subst r. rewrite Hr. simpl. split; [naive_solver|]. intros _. by exists id, b, role.
    + fold r in Hr. rewrite Hr. split; [|done]. split; [done|].
      intros (_ & _ & _ & id & b & role & Hid & Hg). destruct (Hno b role); [apply Hin; eauto|done].
  - intros calls i ps s Hperm Hsorted Htie. pose proof (effects_created calls) as Heff. fold s in Heff.
    assert (∀ p, p ∈ ps ↔ ∃ id, ab_policy s !! id = Some p) as Hin by (intros p; rewrite Hperm; apply elem_of_map_values).
    unfold check_listed.
    destruct (eqs (TrimSpace (ac_Subject i)) "") eqn:H1; [simpl; rewrite eqs_true in H1; naive_solver|].
    destruct (eqs (TrimSpace (ac_Resource i)) "") eqn:H2; [simpl; rewrite eqs_true in H2; naive_solver|].
    destruct (eqs (TrimSpace (ac_Action i)) "") eqn:H3; [simpl; rewrite eqs_true in H3; naive_solver|].
    cbn [orb]. rewrite eqs_false in H1, H2, H3.
    destruct (first_match_spec i ps) as [(l1 & p & l2 & Hps & Ha & Hl1 & ->)|[Hno ->]].
    + assert (∀ q, q ∈ ps → applies i q → q = p ∨ precedes p q) as Hfirst by by eapply first_precedes.
      assert (p ∈ ps) as Hp by (rewrite Hps; set_solver). apply Hin in Hp as [id Hid].
      destruct (eqs (ap_Effect p) "deny") eqn:He; [apply eqs_true in He|apply eqs_false in He]; simpl.
      * split; [done|]. intros (_ & _ & _ & id' & p' & Hid' & Ha' & He' & Hbest).
        destruct (Hbest id p Hid Ha) as [->|Hpre]; [congruence|].
        destruct (Hfirst p') as [->|Hpre']; [apply Hin; eauto|done|congruence|]. unfold precedes in *. lia.
      * split; [|done]. intros _. split_and!; [done..|]. exists id, p. split_and!; [done..| |].
        -- by destruct (Heff id p Hid).
        -- intros id' q Hid'. apply Hfirst, Hin. eauto.
    + simpl. split; [done|]. intros (_ & _ & _ & id & p & Hid & Ha & _). destruct (Hno p); [apply Hin; eauto|done].
Qed.

Definition wit_calls (priority : Z) : list (ABACPolicyInput * Time) :=
  [(mkPolicyInput "p" " Allow" "ann" "*" "run" ∅ 0, 5);
   (mkPolicyInput "q" "deny" "*" "prod" "run" ∅ priority, 5)].
Definition wit_request : ABACCheckInput := mkCheckInput "ann " "prod" "run" ∅.

Lemma access_decisions_witness : ar_Allowed (Check wit_request (create_all (wit_calls (-1)))) = true.
Proof.
  apply (proj2 access_decisions (wit_calls (-1)) wit_request (ListPolicies (create_all (wit_calls (-1))))).
  - apply merge_sort_Permutation.
  - apply (StronglySorted_merge_sort policy_le).
  - intros p q Hp Hq _ _.
    assert (ListPolicies (create_all (wit_calls (-1))) =
      [mkPolicy "abac-policy-1" "p" "allow" "ann" "*" "run" ∅ 0 5 5;
       mkPolicy "abac-policy-2" "q" "deny" "*" "prod" "run" ∅ (-1) 5 5]) as Hl by (vm_compute; reflexivity).
    rewrite Hl, !elem_of_cons, elem_of_nil in Hp, Hq. unfold precedes.
    destruct Hp as [->|[->|[]]], Hq as [->|[->|[]]]; simpl; auto; lia.
  - split_and!; [by vm_compute..|]. eexists "abac-policy-1", _. split; [by vm_compute|]. split; [|split; [done|]].
    + apply policy_matches_applies. by vm_compute.
    + intros id q Hq _. apply elem_of_map_to_list in Hq.
      assert (map_to_list (ab_policy (create_all (wit_calls (-1)))) =
        [("abac-policy-1", mkPolicy "abac-policy-1" "p" "allow" "ann" "*" "run" ∅ 0 5 5);
         ("abac-policy-2", mkPolicy "abac-policy-2" "q" "deny" "*" "prod" "run" ∅ (-1) 5 5)]) as Hl
        by (vm_compute; reflexivity).
      rewrite Hl, !elem_of_cons, elem_of_nil in Hq. unfold precedes.
      destruct Hq as [[= -> ->]|[[= -> ->]|[]]]; simpl; auto; lia.
Defined.

(** Two policies of the same priority created at the same instant are in no
    particular order: both answers are possible. *)
Theorem tied_policies_undetermined :
  ∃ ps ps', ps ≡ₚ (map_to_list (ab_policy (create_all (wit_calls 0)))).*2 ∧ ps' ≡ₚ ps ∧
    StronglySorted policy_le ps ∧ StronglySorted policy_le ps' ∧
    ar_Allowed (check_listed wit_request ps) ≠ ar_Allowed (check_listed wit_request ps').
Proof.
  set (ps := (map_to_list (ab_policy (create_all (wit_calls 0)))).*2). vm_compute in ps.
  exists ps, (reverse ps). split_and!; [by vm_compute|apply reverse_Permutation|..|by vm_compute];
    repeat constructor; by vm_compute.
Qed.
