(* ===== verification/Canary.v ===== *)
(** * Canaries: [internal/control/canary.go]

    A canary enqueues its configuration periodically and derives a health from
    how its jobs end.  The goroutines are steps of a system with the queue and
    its worker; so are the gaps between the critical sections: a goroutine
    enqueues before it records the job, [Create] and [SetEnabled] unlock before
    they start one, [Shutdown] cancels after it unlocks, and events are delivered
    after they were published.  [cy_results] is a ghost: what counted, newest
    first.  Proved: the health is a function of the results, each job counts at
    most once, and an enabled canary has exactly one live goroutine. *)

From S2P Require Import Prelude Queue QueueInvariant QueueSpec Scheduler SchedulerSpec WorkflowSpec.

Inductive CanaryStatus := CanaryUnknown | CanaryHealthy | CanaryUnhealthy.
#[export] Instance CanaryStatus_dec : EqDecision CanaryStatus.
Proof. solve_decision. Defined.

Record CanaryCheck : Type := mkCanary {
  cc_ID : string;
  cc_Name : string;
  cc_ConfigPath : string;
  cc_Priority : string;
  cc_Interval : Duration;
  cc_Jitter : Duration;
  cc_Enabled : bool;
  cc_FailureThreshold : Z;
  cc_ConsecutiveFailures : Z;
  cc_LastRunAt : Time;
  cc_LastStatus : option JobStatus;             (* [None] is the empty string *)
  cc_Health : CanaryStatus;
  cc_CreatedAt : Time;
}.
#[export] Instance CanaryCheck_eta : Eta CanaryCheck := λ r,
  mkCanary (cc_ID r) (cc_Name r) (cc_ConfigPath r) (cc_Priority r) (cc_Interval r) (cc_Jitter r) (cc_Enabled r)
    (cc_FailureThreshold r) (cc_ConsecutiveFailures r) (cc_LastRunAt r) (cc_LastStatus r) (cc_Health r)
    (cc_CreatedAt r).

Record CanaryCreate : Type := mkCanaryCreate {
  cr_Name : string;
  cr_ConfigPath : string;
  cr_Priority : string;
  cr_Interval : Duration;
  cr_Jitter : Duration;
  cr_FailureThreshold : Z;
}.

(** Where a goroutine is: before its timer, after an [Enqueue] that failed or
    gave a job, or gone. *)
Inductive canary_phase := CanaryWaiting | CanaryRefused | CanaryQueued (job : string) | CanaryReturned.

Record CanaryLoop : Type := mkCanaryLoop {
  cl_canary : string;
  cl_ConfigPath : string;                       (* captured when it started *)
  cl_Priority : string;
  cl_cancelled : bool;
  cl_phase : canary_phase;
}.
#[export] Instance CanaryLoop_eta : Eta CanaryLoop := λ r,
  mkCanaryLoop (cl_canary r) (cl_ConfigPath r) (cl_Priority r) (cl_cancelled r) (cl_phase r).

Record CanaryStore : Type := mkCanaries {
  cn_nextID : Z;
  cn_canaries : gmap string CanaryCheck;
  cn_cancels : gmap string nat;                 (* the goroutine a [CancelFunc] belongs to *)
  cn_jobRefs : gmap string string;
}.
#[export] Instance CanaryStore_eta : Eta CanaryStore := λ r,
  mkCanaries (cn_nextID r) (cn_canaries r) (cn_cancels r) (cn_jobRefs r).

Record CanarySys : Type := mkCanarySys {
  cy_sys : System;
  cy_store : CanaryStore;
  cy_loops : list CanaryLoop;
  cy_starting : list string;                    (* calls that will [start] *)
  cy_shut : list nat;                           (* goroutines [Shutdown] took to cancel *)
  cy_outbox : list Job;                         (* events not delivered yet *)
  cy_results : list (string * (option string * bool));
}.
#[export] Instance CanarySys_eta : Eta CanarySys := λ r,
  mkCanarySys (cy_sys r) (cy_store r) (cy_loops r) (cy_starting r) (cy_shut r) (cy_outbox r) (cy_results r).

Inductive canary_error := CanaryName | CanaryConfigPath | CanaryNotFound.

Definition cy_queue (s : CanarySys) : Queue := sys_queue (cy_sys s).

Definition canary_subscriber : string := "canary".

Definition NewCanaryStore : CanaryStore := mkCanaries 0 ∅ ∅ ∅.

(** The defaults of [Create]. *)
Definition new_canary (i : CanaryCreate) (id : string) (now : Time) : CanaryCheck :=
  mkCanary id (cr_Name i) (cr_ConfigPath i) (normalizePriority (cr_Priority i))
    (if cr_Interval i <=? 0 then 60 * Second else cr_Interval i) (if cr_Jitter i <? 0 then 0 else cr_Jitter i)
    true (if cr_FailureThreshold i <=? 0 then 3 else cr_FailureThreshold i) 0 0 None CanaryUnknown now.

(** [Create] up to its call of [start]. *)
Definition create_canary (i : CanaryCreate) (now : Time) (s : CanarySys) : CanarySys * result canary_error string :=
  if eqs (cr_Name i) "" then (s, Err CanaryName)
  else if eqs (cr_ConfigPath i) "" then (s, Err CanaryConfigPath)
  else
    let st := cy_store s in
    let next := cn_nextID st + 1 in
    let id := "canary-" +:+ itoa next in
    (s <| cy_store := st <| cn_nextID := next |> <| cn_canaries := <[id := new_canary i id now]> (cn_canaries st) |> |>
       <| cy_starting := cy_starting s ++ [id] |>, Ok id).

(** Calling the [CancelFunc] of goroutine [n]. *)
Definition cancel_canary (n : nat) (s : CanarySys) : CanarySys :=
  s <| cy_loops := alter (λ l, l <| cl_cancelled := true |>) n (cy_loops s) |>.

Definition start_canary (id : string) (s : CanarySys) : CanarySys :=
  match cn_canaries (cy_store s) !! id with
  | None => s
  | Some c =>
      if negb (cc_Enabled c) then s
      else
        let s := match cn_cancels (cy_store s) !! id with Some n => cancel_canary n s | None => s end in
        let n := length (cy_loops s) in
        s <| cy_store := (cy_store s) <| cn_cancels := <[id := n]> (cn_cancels (cy_store s)) |> |>
          <| cy_loops := cy_loops s ++ [mkCanaryLoop id (cc_ConfigPath c) (cc_Priority c) false CanaryWaiting] |>
  end.

Definition put_canary (c : CanaryCheck) (s : CanarySys) : CanarySys :=
  s <| cy_store := (cy_store s) <| cn_canaries := <[cc_ID c := c]> (cn_canaries (cy_store s)) |> |>.

(** One more failure. *)
Definition note_failure (c : CanaryCheck) : CanaryCheck :=
  let failures := cc_ConsecutiveFailures c + 1 in
  c <| cc_ConsecutiveFailures := failures |> <| cc_LastStatus := Some JobFailed |>
    <| cc_Health := if cc_FailureThreshold c <=? failures then CanaryUnhealthy else cc_Health c |>.

Definition note_success (c : CanaryCheck) : CanaryCheck :=
  c <| cc_LastStatus := Some JobSucceeded |> <| cc_ConsecutiveFailures := 0 |> <| cc_Health := CanaryHealthy |>.

Definition add_result (id : string) (r : option string * bool) (s : CanarySys) : CanarySys :=
  s <| cy_results := (id, r) :: cy_results s |>.

Definition markFailure (canaryID : string) (s : CanarySys) : CanarySys :=
  match cn_canaries (cy_store s) !! canaryID with
  | None => s
  | Some c => add_result canaryID (None, false) (put_canary (note_failure c) s)
  end.

Definition onCanaryJob (job : Job) (s : CanarySys) : CanarySys :=
  if negb (bool_decide (j_Status job = JobSucceeded)) && negb (bool_decide (j_Status job = JobFailed)) then s
  else
    match cn_jobRefs (cy_store s) !! j_ID job with
    | None => s
    | Some canaryID =>
        let s := s <| cy_store := (cy_store s) <| cn_jobRefs := delete (j_ID job) (cn_jobRefs (cy_store s)) |> |> in
        match cn_canaries (cy_store s) !! canaryID with
        | None => s
        | Some c =>
            if bool_decide (j_Status job = JobSucceeded)
            then add_result canaryID (Some (j_ID job), true) (put_canary (note_success c) s)
            else add_result canaryID (Some (j_ID job), false) (put_canary (note_failure c) s)
        end
    end.

Definition ListCanaries (s : CanarySys) : list CanaryCheck := (map_to_list (cn_canaries (cy_store s))).*2.

Definition GetCanary (id : string) (s : CanarySys) : result canary_error CanaryCheck :=
  match cn_canaries (cy_store s) !! id with Some c => Ok c | None => Err CanaryNotFound end.

(** [SetEnabled] up to its call of [start]. *)
Definition set_enabled (id : string) (enabled : bool) (s : CanarySys) : CanarySys :=
  match cn_canaries (cy_store s) !! id with
  | None => s
  | Some c =>
      let s := put_canary (c <| cc_Enabled := enabled |>) s in
      if enabled then s <| cy_starting := cy_starting s ++ [id] |>
      else
        match cn_cancels (cy_store s) !! id with
        | None => s
        | Some n =>
            (cancel_canary n s) <| cy_store := (cy_store s) <| cn_cancels := delete id (cn_cancels (cy_store s)) |> |>
        end
  end.

Record HealthSummary : Type := mkSummary {
  hs_ok : bool;                                 (* "ok", otherwise "degraded" *)
  hs_total : Z;
  hs_healthy : Z;
  hs_unhealthy : Z;
  hs_unknown : Z;
}.

Definition count_health (st : CanaryStatus) (l : list CanaryCheck) : Z :=
  Z.of_nat (length (filter (λ c, cc_Health c = st) l)).

Definition health_summary (s : CanarySys) : HealthSummary :=
  let l := ListCanaries s in
  let unhealthy := count_health CanaryUnhealthy l in
  mkSummary (negb (0 <? unhealthy)) (Z.of_nat (length l)) (count_health CanaryHealthy l) unhealthy
    (count_health CanaryUnknown l).

Definition shutdown_canaries (s : CanarySys) : CanarySys :=
  s <| cy_shut := cy_shut s ++ (map_to_list (cn_cancels (cy_store s))).*2 |>
    <| cy_store := (cy_store s) <| cn_cancels := ∅ |> |>.

(** ** The system *)

(** A transition of the queue, whose events go to the outbox. *)
Definition with_canary_system (sys : System) (s : CanarySys) : CanarySys :=
  s <| cy_sys := sys |>
    <| cy_outbox := cy_outbox s ++ (filter (λ ev, ev.1 = canary_subscriber)
         (drop (length (q_events (cy_queue s))) (q_events (sys_queue sys)))).*2 |>.

Definition set_canary_phase (n : nat) (ph : canary_phase) (s : CanarySys) : CanarySys :=
  s <| cy_loops := alter (λ l, l <| cl_phase := ph |>) n (cy_loops s) |>.

Section system.
Context `{TimeFormat}.

(** The assignment after a successful [Enqueue]. *)
Definition record_ref (canaryID job : string) (now : Time) (s : CanarySys) : CanarySys :=
  match cn_canaries (cy_store s) !! canaryID with
  | None => s
  | Some c =>
      let s := put_canary (c <| cc_LastRunAt := now |>) s in
      s <| cy_store := (cy_store s) <| cn_jobRefs := <[job := canaryID]> (cn_jobRefs (cy_store s)) |> |>
  end.

(** One step of goroutine [n]; when the timer has fired and the context is done,
    the [select] may take either case. *)
Definition canary_loop_step (n : nat) (c : select_case) (now : Time) (s : CanarySys) : option CanarySys :=
  match cy_loops s !! n with
  | None => None
  | Some l =>
      match cl_phase l with
      | CanaryWaiting =>
          match c with
          | ContextDone => if cl_cancelled l then Some (set_canary_phase n CanaryReturned s) else None
          | TimerFired =>
              let '(q, r) := Enqueue (cl_ConfigPath l) "" false (cl_Priority l) now (cy_queue s) in
              let s := with_canary_system ((cy_sys s) <| sys_queue := q |>) s in
              match r with
              | Err _ => Some (set_canary_phase n CanaryRefused s)
              | Ok (Some job) => Some (set_canary_phase n (CanaryQueued (j_ID job)) s)
              | Ok None => None
              end
          end
      | CanaryRefused => Some (set_canary_phase n CanaryWaiting (markFailure (cl_canary l) s))
      | CanaryQueued job => Some (set_canary_phase n CanaryWaiting (record_ref (cl_canary l) job now s))
      | CanaryReturned => None
      end
  end.

Inductive canary_step : CanarySys → CanarySys → Prop :=
  | canary_system sys s : step (cy_sys s) sys → canary_step s (with_canary_system sys s)
  | canary_create i now s : canary_step s (create_canary i now s).1
  | canary_enable id enabled s : canary_step s (set_enabled id enabled s)
  | canary_start id l1 l2 s :
      cy_starting s = l1 ++ id :: l2 → canary_step s (start_canary id (s <| cy_starting := l1 ++ l2 |>))
  | canary_shutdown s : canary_step s (shutdown_canaries s)
  | canary_cancel n s : n ∈ cy_shut s → canary_step s (cancel_canary n s)
  | canary_loop n c now s s' : canary_loop_step n c now s = Some s' → canary_step s s'
  | canary_deliver j l1 l2 s :
      cy_outbox s = l1 ++ j :: l2 → canary_step s (onCanaryJob j (s <| cy_outbox := l1 ++ l2 |>)).

(** [NewCanaryStore] subscribes to the queue. *)
Definition initial_canaries (buffer : Z) (now : Time) : CanarySys :=
  mkCanarySys ((initial buffer now) <| sys_queue := Subscribe (Some canary_subscriber) (NewQueue buffer now) |>)
    NewCanaryStore [] [] [] [] [].

Definition canary_reachable (s : CanarySys) : Prop := ∃ buffer now, rtc canary_step (initial_canaries buffer now) s.
End system.

(** ** What the results say *)

Definition oks (id : string) (rs : list (string * (option string * bool))) : list bool :=
  omap (λ r, if eqs r.1 id then Some r.2.2 else None) rs.

(** The failures since the last success, newest first. *)
Fixpoint failures (l : list bool) : nat := match l with false :: l => S (failures l) | _ => 0 end.

Definition health_of (threshold : Z) (l : list bool) : CanaryStatus :=
  if threshold <=? Z.of_nat (failures l) then CanaryUnhealthy
  else if existsb id l then CanaryHealthy else CanaryUnknown.

Definition status_of (l : list bool) : option JobStatus :=
  (λ ok : bool, if ok then JobSucceeded else JobFailed) <$> head l.

Definition canary_ok (l : list bool) (c : CanaryCheck) : Prop :=
  0 < cc_FailureThreshold c ∧ cc_ConsecutiveFailures c = Z.of_nat (failures l) ∧
  cc_Health c = health_of (cc_FailureThreshold c) l ∧ cc_LastStatus c = status_of l.

Lemma note_failure_ok l c : canary_ok l c → canary_ok (false :: l) (note_failure c).
Proof.
  destruct c as [cid name path prio int jit en thr cf lr ls h cr]. unfold canary_ok, note_failure. simpl.
  intros (Hthr & -> & -> & _). split_and!; [done|lia| |done].
  unfold health_of. cbn [failures existsb]. unfold id at 1. simpl orb.
  replace (Z.of_nat (failures l) + 1) with (Z.of_nat (S (failures l))) by lia.
  destruct (Z.leb_spec thr (Z.of_nat (S (failures l)))); [done|].
  destruct (Z.leb_spec thr (Z.of_nat (failures l))); [lia|done].
Qed.

Lemma note_success_ok l c : canary_ok l c → canary_ok (true :: l) (note_success c).
Proof.
  destruct c as [cid name path prio int jit en thr cf lr ls h cr]. unfold canary_ok, note_success. simpl.
  intros (Hthr & _). split_and!; [done..| |done]. unfold health_of. simpl. destruct (Z.leb_spec thr (Z.of_nat 0)); [lia|done].
Qed.

Lemma canary_ok_frame l c c' :
  cc_FailureThreshold c' = cc_FailureThreshold c → cc_ConsecutiveFailures c' = cc_ConsecutiveFailures c →
  cc_Health c' = cc_Health c → cc_LastStatus c' = cc_LastStatus c → canary_ok l c → canary_ok l c'.
Proof. unfold canary_ok. by intros -> -> -> ->. Qed.

Lemma note_failure_ID c : cc_ID (note_failure c) = cc_ID c.
Proof. by destruct c. Qed.
Lemma note_success_ID c : cc_ID (note_success c) = cc_ID c.
Proof. by destruct c. Qed.
Lemma note_failure_Enabled c : cc_Enabled (note_failure c) = cc_Enabled c.
Proof. by destruct c. Qed.
Lemma note_success_Enabled c : cc_Enabled (note_success c) = cc_Enabled c.
Proof. by destruct c. Qed.

Lemma oks_cons id id' r rs : oks id ((id', r) :: rs) = (if eqs id' id then [r.2] else []) ++ oks id rs.
Proof. unfold oks. simpl. by destruct (eqs id' id). Qed.

Lemma oks_none id rs : (∀ r, (id, r) ∉ rs) → oks id rs = [].
Proof.
  induction rs as [|[id' r] rs IH]; intros Hno; [done|]. rewrite oks_cons, IH by set_solver.
  destruct (eqs id' id) eqn:Heq; [|done]. apply eqs_true in Heq. subst id'. destruct (Hno r). by left.
Qed.

(** ** Invariants *)

Implicit Types (canaries : gmap string CanaryCheck) (loops : list CanaryLoop) (refs : gmap string string).

Record health_inv (next : Z) canaries (rs : list (string * (option string * bool))) : Prop := {
  hi_next : 0 ≤ next;
  hi_id id c : canaries !! id = Some c → cc_ID c = id ∧ ∃ n, id = "canary-" +:+ itoa n ∧ 0 < n ≤ next;
  hi_ok id c : canaries !! id = Some c → canary_ok (oks id rs) c;
  hi_known id r : (id, r) ∈ rs → is_Some (canaries !! id);
}.

Definition queued_job (l : CanaryLoop) : option string :=
  match cl_phase l with CanaryQueued j => Some j | _ => None end.

(** The jobs canaries enqueued that were not lost: to be recorded, recorded, counted. *)
Definition known loops refs (rs : list (string * (option string * bool))) : list string :=
  omap queued_job loops ++ (map_to_list refs).*1 ++ omap (λ r, r.2.1) rs.

Section inv.
Context `{TimeFormat}.

Record jobs_inv (q : Queue) loops refs (rs : list (string * (option string * bool))) (outbox : list Job) : Prop := {
  ji_nodup : NoDup (known loops refs rs);
  ji_ids j : j ∈ known loops refs rs → ∃ t n, j = job_id t n ∧ 0 ≤ n ≤ q_nextID q;
  ji_results id j ok : (id, (Some j, ok)) ∈ rs →
    ∃ job, (canary_subscriber, job) ∈ q_events q ∧ j_ID job = j ∧ j_Status job = if (ok : bool) then JobSucceeded else JobFailed;
  ji_outbox job : job ∈ outbox → (canary_subscriber, job) ∈ q_events q;
}.

Record loops_inv canaries (cancels : gmap string nat) loops (shut : list nat) (starting : list string) refs : Prop := {
  li_cancel id n : cancels !! id = Some n →
    n ∉ shut ∧ (∃ l, loops !! n = Some l ∧ cl_canary l = id ∧ cl_cancelled l = false) ∧
    ∃ c, canaries !! id = Some c ∧ cc_Enabled c = true;
  li_live n l : loops !! n = Some l → cl_cancelled l = false → cancels !! cl_canary l = Some n ∨ n ∈ shut;
  li_enabled id c : canaries !! id = Some c → cc_Enabled c = true →
    is_Some (cancels !! id) ∨ id ∈ starting ∨ ∃ n l, n ∈ shut ∧ loops !! n = Some l ∧ cl_canary l = id;
  li_known n l : loops !! n = Some l → is_Some (canaries !! cl_canary l);
  li_shut n : n ∈ shut → (n < length loops)%nat;
  li_refs j id : refs !! j = Some id → is_Some (canaries !! id);
  li_starting id : id ∈ starting → is_Some (canaries !! id);
}.

Definition canary_inv (s : CanarySys) : Prop :=
  inv (cy_sys s) ∧ health_inv (cn_nextID (cy_store s)) (cn_canaries (cy_store s)) (cy_results s) ∧
  jobs_inv (cy_queue s) (cy_loops s) (cn_jobRefs (cy_store s)) (cy_results s) (cy_outbox s) ∧
  loops_inv (cn_canaries (cy_store s)) (cn_cancels (cy_store s)) (cy_loops s) (cy_shut s) (cy_starting s)
    (cn_jobRefs (cy_store s)).

Lemma canary_inv_initial buffer now : canary_inv (initial_canaries buffer now).
Proof.
  split; [exact (initial_inv buffer now)|]. split; [|split].
  - split; simpl; [done|..]; try set_solver.
  - split; simpl; try set_solver. apply NoDup_nil_2.
  - split; simpl; try set_solver.
Qed.

(** *** Canaries and results *)

Lemma health_inv_put next canaries rs id c c' :
  health_inv next canaries rs → canaries !! id = Some c → cc_ID c' = id → canary_ok (oks id rs) c' →
  health_inv next (<[id := c']> canaries) rs.
Proof.
  intros [Hn Hid Hok Hk] Hc Hid' Hok'. split; [done|..].
  - intros i d. rewrite lookup_insert_Some. intros [[<- <-]|[_ Hd]]; [|by apply Hid].
    split; [done|]. by apply Hid in Hc as [_ ?].
  - intros i d. rewrite lookup_insert_Some. intros [[<- <-]|[_ Hd]]; [done|by apply Hok].
  - intros i r Hin. rewrite lookup_insert_is_Some'. right. by eapply Hk.
Qed.

Lemma health_inv_result next canaries rs id r c c' :
  health_inv next canaries rs → canaries !! id = Some c → cc_ID c' = id → canary_ok (r.2 :: oks id rs) c' →
  health_inv next (<[id := c']> canaries) ((id, r) :: rs).
Proof.
  intros [Hn Hid Hok Hk] Hc Hid' Hok'. split; [done|..].
  - intros i d. rewrite lookup_insert_Some. intros [[<- <-]|[_ Hd]]; [|by apply Hid].
    split; [done|]. by apply Hid in Hc as [_ ?].
  - intros i d. rewrite lookup_insert_Some, oks_cons. intros [[<- <-]|[Hne Hd]].
    + by rewrite eqs_refl.
    + apply eqs_false in Hne. rewrite Hne. by apply Hok.
  - intros i r' [[= -> ->]|Hin]%elem_of_cons; rewrite lookup_insert_is_Some'; [by left|right; by eapply Hk].
Qed.

Lemma health_inv_create next canaries rs i now :
  health_inv next canaries rs → next + 1 ≤ max_int64 →
  let id := "canary-" +:+ itoa (next + 1) in
  canaries !! id = None ∧ health_inv (next + 1) (<[id := new_canary i id now]> canaries) rs.
Proof.
  intros [Hn Hid Hok Hk] Hmax id. assert (canaries !! id = None) as Hfresh.
  { apply eq_None_not_Some. intros [c (_ & n & Heq & ?)%Hid]. apply (inj (String.app "canary-")) in Heq.
    apply itoa_inj in Heq; lia. }
  split; [done|]. split; [lia|..].
  - intros j d. rewrite lookup_insert_Some. intros [[<- <-]|[_ Hd]].
    + split; [done|]. exists (next + 1). split; [done|lia].
    + apply Hid in Hd as (? & n & ? & ?). split; [done|]. exists n. split; [done|lia].
  - intros j d. rewrite lookup_insert_Some. intros [[<- <-]|[_ Hd]]; [|by apply Hok].
    rewrite oks_none.
    + unfold canary_ok, new_canary, health_of. simpl. destruct (Z.leb_spec (cr_FailureThreshold i) 0); simpl.
      * by split_and!.
      * destruct (Z.leb_spec (cr_FailureThreshold i) (Z.of_nat 0)); [lia|]. by split_and!.
    + intros r Hin. destruct (Hk _ _ Hin) as [c Hc]. congruence.
  - intros j r Hin. rewrite lookup_insert_is_Some'. right. by eapply Hk.
Qed.

(** *** Jobs *)

(** Transitions of the queue keep the jobs; their events go to the outbox. *)
Lemma jobs_inv_queue q q' loops refs rs outbox :
  q_nextID q ≤ q_nextID q' → (∃ evs, q_events q' = q_events q ++ evs) → jobs_inv q loops refs rs outbox →
  jobs_inv q' loops refs rs (outbox ++ (filter (λ ev, ev.1 = canary_subscriber)
    (drop (length (q_events q)) (q_events q'))).*2).
Proof.
  intros Hn [evs He] [Hnd Hids Hres Hout]. rewrite He, drop_app_length. split; [done|..].
  - intros j Hj. destruct (Hids j Hj) as (t & n & ? & ?). exists t, n. split; [done|lia].
  - intros id j ok Hin. destruct (Hres _ _ _ Hin) as (job & ? & ? & ?). exists job. rewrite He, elem_of_app. auto.
  - intros job. rewrite He. intros [Hin|Hin]%elem_of_app; [apply elem_of_app; left; auto|]. apply elem_of_app. right.
    apply list_elem_of_fmap in Hin as ([fn job'] & -> & Hin). apply list_elem_of_filter in Hin as [Hfn Hin].
    simpl in *. by subst fn.
Qed.

Lemma known_perm loops loops' refs refs' rs rs' q outbox outbox' :
  known loops refs rs ≡ₚ known loops' refs' rs' →
  (∀ id j ok, (id, (Some j, ok)) ∈ rs' →
    ∃ job, (canary_subscriber, job) ∈ q_events q ∧ j_ID job = j ∧ j_Status job = if (ok : bool) then JobSucceeded else JobFailed) →
  outbox' ⊆ outbox → jobs_inv q loops refs rs outbox → jobs_inv q loops' refs' rs' outbox'.
Proof.
  intros Hperm Hres' Hsub [Hnd Hids Hres Hout]. split; [by rewrite <-Hperm| |done|auto].
  intros j. rewrite <-Hperm. apply Hids.
Qed.

Lemma omap_cons {A B} (f : A → option B) x l :
  omap f (x :: l) = match f x with Some y => y :: omap f l | None => omap f l end.
Proof. done. Qed.
Lemma alter_cons_S {A} (g : A → A) n (y : A) l : alter g (S n) (y :: l) = y :: alter g n l.
Proof. done. Qed.

Lemma list_omap_alter_at {A B} (f : A → option B) (g : A → A) (n : nat) (l : list A) :
  (∀ x, l !! n = Some x → f (g x) = f x) → omap f (alter g n l) = omap f l.
Proof.
  revert n; induction l as [|y l IH]; intros [|n] Hg; [done..| |].
  - simpl. by rewrite Hg.
  - rewrite alter_cons_S, !omap_cons. rewrite (IH n); [done|]. intros x Hx. by apply Hg.
Qed.
Lemma list_omap_alter {A B} (f : A → option B) (g : A → A) (n : nat) (l : list A) :
  (∀ x, f (g x) = f x) → omap f (alter g n l) = omap f l.
Proof. intros Hg. by apply list_omap_alter_at. Qed.

Lemma omap_alter_add {A B} (f : A → option B) (g : A → A) (n : nat) (l : list A) x b :
  l !! n = Some x → f x = None → f (g x) = Some b → omap f (alter g n l) ≡ₚ b :: omap f l.
Proof.
  revert n; induction l as [|y l IH]; intros [|n] Hx Hf Hg; [done..| |].
  - injection Hx as ->. simpl. by rewrite Hf, Hg.
  - rewrite alter_cons_S, !omap_cons. destruct (f y); [|by apply IH]. rewrite (IH n) by done. constructor.
Qed.

Lemma omap_alter_remove {A B} (f : A → option B) (g : A → A) (n : nat) (l : list A) x b :
  l !! n = Some x → f x = Some b → f (g x) = None → omap f l ≡ₚ b :: omap f (alter g n l).
Proof.
  revert n; induction l as [|y l IH]; intros [|n] Hx Hf Hg; [done..| |].
  - injection Hx as ->. simpl. by rewrite Hf, Hg.
  - rewrite alter_cons_S, !omap_cons. destruct (f y); [|by apply IH]. rewrite (IH n) by done. constructor.
Qed.

Lemma refs_insert refs j id : refs !! j = None → (map_to_list (<[j := id]> refs)).*1 ≡ₚ j :: (map_to_list refs).*1.
Proof. intros Hj. by rewrite map_to_list_insert. Qed.

Lemma refs_delete refs j id : refs !! j = Some id → (map_to_list refs).*1 ≡ₚ j :: (map_to_list (delete j refs)).*1.
Proof. intros Hj. by rewrite <-(map_to_list_delete refs j id). Qed.

(** An enqueued job is new. *)
Lemma Enqueue_new configPath priority now q j :
  (Enqueue configPath "" false priority now q).2 = Ok (Some j) →
  j_ID j = job_id now (q_nextID q + 1) ∧
  q_nextID (Enqueue configPath "" false priority now q).1 = q_nextID q + 1.
Proof.
  unfold Enqueue. simpl existing_job. destruct (_ && negb false); [done|]. destruct (_ && frozen now q); [done|].
  unfold record_job, pushPending. simpl. destruct (_ <? _)%nat; [|done]. intros [= <-]. split; [done|].
  by destruct (class_of _).
Qed.

Lemma jobs_inv_enqueue q q' loops refs rs outbox n l j t :
  jobs_inv q loops refs rs outbox → q_nextID q' = q_nextID q + 1 → q_nextID q' ≤ max_int64 → 0 ≤ q_nextID q →
  (∃ evs, q_events q' = q_events q ++ evs) → loops !! n = Some l → cl_phase l = CanaryWaiting →
  j = job_id t (q_nextID q + 1) →
  jobs_inv q' (alter (λ l, l <| cl_phase := CanaryQueued j |>) n loops) refs rs
    (outbox ++ (filter (λ ev, ev.1 = canary_subscriber) (drop (length (q_events q)) (q_events q'))).*2).
Proof.
  intros Hinv Hn Hmax Hpos Hevs Hl Hph ->. assert (job_id t (q_nextID q + 1) ∉ known loops refs rs) as Hfresh.
  { intros Hin. destruct (ji_ids _ _ _ _ _ Hinv _ Hin) as (u & m & Heq & ?). apply job_id_inj in Heq; lia. }
  apply (jobs_inv_queue q q') in Hinv; [|lia|done]. destruct Hinv as [Hnd Hids Hres Hout].
  assert (known (alter (λ l, l <| cl_phase := CanaryQueued (job_id t (q_nextID q + 1)) |>) n loops) refs rs ≡ₚ
          job_id t (q_nextID q + 1) :: known loops refs rs) as Hperm.
  { unfold known. rewrite (omap_alter_add queued_job _ n loops l (job_id t (q_nextID q + 1))); [done..| |].
    - unfold queued_job. by rewrite Hph.
    - by destruct l. }
  split; [rewrite Hperm; by constructor| |done|done]. intros j. rewrite Hperm. intros [->|Hj]%elem_of_cons; [|auto].
  exists t, (q_nextID q + 1). split; [done|lia].
Qed.

(** *** Goroutines *)

Lemma loops_inv_put canaries cancels loops shut starting refs id c c' :
  loops_inv canaries cancels loops shut starting refs → canaries !! id = Some c → cc_Enabled c' = cc_Enabled c →
  loops_inv (<[id := c']> canaries) cancels loops shut starting refs.
Proof.
  intros [Hc Hl He Hk Hs Hr Hst] Hid Hen.
  assert (∀ i, is_Some (canaries !! i) → is_Some (<[id := c']> canaries !! i)) as Hmono.
  { intros i Hi. rewrite lookup_insert_is_Some'. by right. }
  split; [|done| |intros n l Hn; apply Hmono; by eapply Hk|done|intros j i Hj; apply Hmono; by eapply Hr|auto].
  - intros i n Hi. destruct (Hc i n Hi) as (? & ? & d & Hd & Hden). split_and!; [done..|].
    destruct (decide (i = id)) as [->|]; [|exists d; by rewrite lookup_insert_ne].
    exists c'. rewrite lookup_insert_eq. split; [done|]. congruence.
  - intros i d. rewrite lookup_insert_Some. intros [[<- <-]|[_ Hd]]; [|by apply He].
    intros ?. eapply He; [done|congruence].
Qed.

Lemma loops_inv_refs canaries cancels loops shut starting refs refs' :
  loops_inv canaries cancels loops shut starting refs → (∀ j id, refs' !! j = Some id → is_Some (canaries !! id)) →
  loops_inv canaries cancels loops shut starting refs'.
Proof. by intros [Hc Hl He Hk Hs Hr Hst] Hr'. Qed.

(** Changes to a goroutine that keep its canary, and its being cancelled if it was. *)
Lemma loops_inv_alter canaries cancels loops shut starting refs n (f : CanaryLoop → CanaryLoop) :
  loops_inv canaries cancels loops shut starting refs → (∀ l, cl_canary (f l) = cl_canary l) →
  (∀ l, cl_cancelled (f l) = cl_cancelled l ∨ n ∈ shut ∧ cl_cancelled (f l) = true) →
  loops_inv canaries cancels (alter f n loops) shut starting refs.
Proof.
  intros [Hc Hl He Hk Hs Hr Hst] Hcan Hkeep. split; try done.
  - intros id m Hm. destruct (Hc _ _ Hm) as (Hnot & (l & Hlm & <- & Hlive) & Hen). split_and!; [done| |done].
    destruct (decide (n = m)) as [->|].
    + exists (f l). rewrite list_lookup_alter_eq, Hlm. split; [done|]. split; [done|].
      destruct (Hkeep l) as [?|[? _]]; [congruence|done].
    + exists l. by rewrite list_lookup_alter_ne.
  - intros m l. rewrite alter_lookup_Some. intros [(<- & l0 & Hl0 & ->)|[_ Hm]] Hlive; [|by apply Hl].
    rewrite Hcan. destruct (Hkeep l0) as [Heq|[? _]]; [|by right]. apply Hl; [done|congruence].
  - intros id c Hid Hen. destruct (He id c Hid Hen) as [?|[?|(m & l & ? & Hm & <-)]]; [by left|by right; left|right; right].
    destruct (decide (n = m)) as [->|].
    + exists m, (f l). by rewrite list_lookup_alter_eq, Hm.
    + exists m, l. by rewrite list_lookup_alter_ne.
  - intros m l. rewrite alter_lookup_Some. intros [(<- & l0 & Hl0 & ->)|[_ Hm]]; [rewrite Hcan|]; by eapply Hk.
  - intros m Hm. rewrite length_alter. by apply Hs.
Qed.

Lemma loops_inv_create canaries cancels loops shut starting refs id c :
  loops_inv canaries cancels loops shut starting refs → canaries !! id = None → cc_Enabled c = true →
  loops_inv (<[id := c]> canaries) cancels loops shut (starting ++ [id]) refs.
Proof.
  intros [Hc Hl He Hk Hs Hr Hst] Hid Hen.
  assert (∀ i, is_Some (canaries !! i) → is_Some (<[id := c]> canaries !! i)) as Hmono.
  { intros i Hi. rewrite lookup_insert_is_Some'. by right. }
  split; [|done| |intros n l Hn; apply Hmono; by eapply Hk|done|intros j i Hj; apply Hmono; by eapply Hr|].
  - intros i n Hi. destruct (Hc i n Hi) as (? & ? & d & Hd & Hden). split_and!; [done..|].
    exists d. rewrite lookup_insert_ne; [done|]. intros <-. congruence.
  - intros i d. rewrite lookup_insert_Some. intros [[<- <-]|[_ Hd]] Hde; [right; left; set_solver|].
    destruct (He i d Hd Hde) as [?|[?|?]]; [by left|right; left; set_solver|by right; right].
  - intros i [Hi|Hi%list_elem_of_singleton]%elem_of_app; [by apply Hmono, Hst|]. subst. by rewrite lookup_insert_eq.
Qed.

(** The goroutine of [id] is cancelled and its entry removed. *)
Definition dropped (cancels : gmap string nat) loops (id : string) : list CanaryLoop :=
  match cancels !! id with Some n => alter (λ l, l <| cl_cancelled := true |>) n loops | None => loops end.

Lemma dropped_lookup cancels loops id m l :
  dropped cancels loops id !! m = Some l → cl_cancelled l = false → loops !! m = Some l ∧ cancels !! id ≠ Some m.
Proof.
  unfold dropped. destruct (cancels !! id) as [n|]; [|done]. rewrite alter_lookup_Some.
  intros [(_ & l0 & _ & ->)|[Hne Hm]] Hlive; [by destruct l0|]. split; [done|congruence].
Qed.

Lemma dropped_canary cancels loops id m l :
  dropped cancels loops id !! m = Some l → ∃ l0, loops !! m = Some l0 ∧ cl_canary l0 = cl_canary l.
Proof.
  unfold dropped. destruct (cancels !! id) as [n|]; [|eauto]. rewrite alter_lookup_Some.
  intros [(_ & l0 & ? & ->)|[_ ?]]; [exists l0; by destruct l0|eauto].
Qed.

Lemma dropped_back cancels loops id m l :
  loops !! m = Some l → ∃ l', dropped cancels loops id !! m = Some l' ∧ cl_canary l' = cl_canary l ∧
    (cancels !! id ≠ Some m → l' = l).
Proof.
  intros Hm. unfold dropped. destruct (cancels !! id) as [n|]; [|eauto].
  destruct (decide (n = m)) as [->|]; [|exists l; by rewrite list_lookup_alter_ne].
  exists (l <| cl_cancelled := true |>). rewrite list_lookup_alter_eq, Hm. by destruct l.
Qed.

Lemma length_dropped cancels loops id : length (dropped cancels loops id) = length loops.
Proof. unfold dropped. destruct (_ !! _); [apply length_alter|done]. Qed.

Lemma loops_inv_disable canaries cancels loops shut starting refs id c c' :
  loops_inv canaries cancels loops shut starting refs → canaries !! id = Some c → cc_Enabled c' = false →
  loops_inv (<[id := c']> canaries) (delete id cancels) (dropped cancels loops id) shut starting refs.
Proof.
  intros [Hc Hl He Hk Hs Hr Hst] Hid Hen.
  assert (∀ i, is_Some (canaries !! i) → is_Some (<[id := c']> canaries !! i)) as Hmono.
  { intros i Hi. rewrite lookup_insert_is_Some'. by right. }
  split.
  - intros i n. rewrite lookup_delete_Some. intros [Hne Hi].
    destruct (Hc i n Hi) as (? & (l & Hln & <- & Hlive) & d & Hd & Hden). split; [done|]. split.
    + destruct (dropped_back cancels loops id n l Hln) as (l' & Hl' & ? & Heq). exists l. rewrite <-Heq at 1; [done|].
      intros Hidn. destruct (Hc id n Hidn) as (_ & (l3 & Hl3 & <- & _) & _). congruence.
    + exists d. by rewrite lookup_insert_ne.
  - intros n l Hn Hlive. destruct (dropped_lookup _ _ _ _ _ Hn Hlive) as [Hn' Hne].
    destruct (Hl n l Hn' Hlive) as [Hi|?]; [left|by right]. rewrite lookup_delete_ne; [done|]. intros ->. congruence.
  - intros i d. rewrite lookup_insert_Some. intros [[<- <-]|[Hne Hd]] Hde; [congruence|].
    destruct (He i d Hd Hde) as [?|[?|(n & l & ? & Hn & <-)]]; [left; by rewrite lookup_delete_ne|by right; left|right; right].
    destruct (dropped_back cancels loops id n l Hn) as (l' & ? & ? & _). by exists n, l'.
  - intros n l (l0 & Hl0 & <-)%dropped_canary. apply Hmono. by eapply Hk.
  - intros n Hn. rewrite length_dropped. by apply Hs.
  - intros j i Hj. apply Hmono. by eapply Hr.
  - auto.
Qed.

Lemma loops_inv_start canaries cancels loops shut l1 l2 refs id c path prio :
  loops_inv canaries cancels loops shut (l1 ++ id :: l2) refs → canaries !! id = Some c → cc_Enabled c = true →
  loops_inv canaries (<[id := length loops]> cancels)
    (dropped cancels loops id ++ [mkCanaryLoop id path prio false CanaryWaiting]) shut (l1 ++ l2) refs.
Proof.
  intros [Hc Hl He Hk Hs Hr Hst] Hid Hen. split.
  - intros i n. rewrite lookup_insert_Some. intros [[<- <-]|[Hne Hi]].
    + split; [intros ?%Hs; lia|]. split; [|by exists c].
      exists (mkCanaryLoop id path prio false CanaryWaiting). split; [|done]. rewrite <-(length_dropped cancels loops id). by apply list_lookup_middle.
    + destruct (Hc i n Hi) as (? & (l & Hln & <- & Hlive) & ?). split_and!; [done| |done].
      destruct (dropped_back cancels loops id n l Hln) as (l' & Hl' & ? & Heq). exists l.
      rewrite <-Heq at 1; [by split; [apply lookup_app_l_Some|]|].
      intros Hidn. destruct (Hc id n Hidn) as (_ & (l3 & Hl3 & <- & _) & _). congruence.
  - intros n l [Hn|[Hlen Hn]]%lookup_app_Some Hlive.
    + destruct (dropped_lookup _ _ _ _ _ Hn Hlive) as [Hn' Hne].
      destruct (Hl n l Hn' Hlive) as [Hi|?]; [left|by right]. rewrite lookup_insert_ne; [done|]. intros ->. congruence.
    + apply list_lookup_singleton_Some in Hn as [Hn <-]. left. simpl. rewrite lookup_insert_eq. f_equal.
      rewrite length_dropped in *. lia.
  - intros i d Hd Hde. destruct (decide (i = id)) as [->|Hne]; [left; by rewrite lookup_insert_eq|].
    destruct (He i d Hd Hde) as [?|[?|(n & l & ? & Hn & <-)]]; [left; by rewrite lookup_insert_ne|right; left; set_solver|right; right].
    destruct (dropped_back cancels loops id n l Hn) as (l' & ? & ? & _). exists n, l'. by split; [|split; [apply lookup_app_l_Some|]].
  - intros n l [(l0 & Hl0 & <-)%dropped_canary|[_ [_ <-]%list_lookup_singleton_Some]]%lookup_app_Some; [by eapply Hk|by eexists].
  - intros n Hn%Hs. rewrite length_app, length_dropped. lia.
  - done.
  - intros i Hi. apply Hst. set_solver.
Qed.

Lemma loops_inv_shutdown canaries cancels loops shut starting refs :
  loops_inv canaries cancels loops shut starting refs →
  loops_inv canaries ∅ loops (shut ++ (map_to_list cancels).*2) starting refs.
Proof.
  intros [Hc Hl He Hk Hs Hr Hst].
  assert (∀ id n, cancels !! id = Some n → n ∈ (map_to_list cancels).*2) as Hin.
  { intros id n Hi. apply list_elem_of_fmap. exists (id, n). by rewrite elem_of_map_to_list. }
  split; try done.
  - intros n l Hn Hlive. right. apply elem_of_app. destruct (Hl n l Hn Hlive); [right; by eapply Hin|by left].
  - intros id c Hid Hen. right. destruct (He id c Hid Hen) as [[n Hn]|[?|(n & l & ? & ? & ?)]]; [right|by left|right].
    + destruct (Hc id n Hn) as (_ & (l & ? & ? & _) & _). exists n, l. rewrite elem_of_app. split; [right; by eapply Hin|done].
    + exists n, l. rewrite elem_of_app. auto.
  - intros n [?|Hn]%elem_of_app; [by apply Hs|]. apply list_elem_of_fmap in Hn as ([id m] & -> & Hn).
    apply elem_of_map_to_list, Hc in Hn as (_ & (l & Hl' & _) & _). by apply lookup_lt_Some in Hl'.
Qed.

Lemma loops_inv_starting canaries cancels loops shut starting starting' refs :
  loops_inv canaries cancels loops shut starting refs → (∀ id, id ∈ starting' → is_Some (canaries !! id)) →
  (∀ id, id ∈ starting → id ∈ starting' ∨ ∀ c, canaries !! id = Some c → cc_Enabled c = false) →
  loops_inv canaries cancels loops shut starting' refs.
Proof.
  intros [Hc Hl He Hk Hs Hr Hst] Hst' Hsub. split; try done. intros id c Hid Hen.
  destruct (He id c Hid Hen) as [?|[Hin|?]]; [by left| |by right; right]. destruct (Hsub _ Hin) as [?|Hoff]; [by right; left|].
  by rewrite (Hoff c Hid) in Hen.
Qed.

(** Switching a canary on: a call will start it. *)
Lemma loops_inv_enable canaries cancels loops shut starting refs id c c' :
  loops_inv canaries cancels loops shut starting refs → canaries !! id = Some c → cc_Enabled c' = true →
  loops_inv (<[id := c']> canaries) cancels loops shut (starting ++ [id]) refs.
Proof.
  intros [Hc Hl He Hk Hs Hr Hst] Hid Hen.
  assert (∀ i, is_Some (canaries !! i) → is_Some (<[id := c']> canaries !! i)) as Hmono.
  { intros i Hi. rewrite lookup_insert_is_Some'. by right. }
  split; [|done| |intros n l Hn; apply Hmono; by eapply Hk|done|intros j i Hj; apply Hmono; by eapply Hr|].
  - intros i n Hi. destruct (Hc i n Hi) as (? & ? & d & Hd & Hden). split_and!; [done..|].
    destruct (decide (i = id)) as [->|]; [exists c'; by rewrite lookup_insert_eq|exists d; by rewrite lookup_insert_ne].
  - intros i d. rewrite lookup_insert_Some. intros [[<- <-]|[_ Hd]] Hde; [right; left; set_solver|].
    destruct (He i d Hd Hde) as [?|[?|?]]; [by left|right; left; set_solver|by right; right].
  - intros i [Hi|Hi%list_elem_of_singleton]%elem_of_app; [by apply Hmono, Hst|]. subst. by rewrite lookup_insert_eq.
Qed.

(** *** Steps *)

Definition canary_bounded (s : CanarySys) : Prop :=
  q_nextID (cy_queue s) < max_int64 ∧ cn_nextID (cy_store s) ≤ max_int64.

Lemma known_put_canary c s : cy_results (put_canary c s) = cy_results s ∧ cy_loops (put_canary c s) = cy_loops s.
Proof. by destruct s. Qed.

Lemma create_canary_inv i now s :
  cn_nextID (cy_store s) + 1 ≤ max_int64 → canary_inv s → canary_inv (create_canary i now s).1.
Proof.
  intros Hmax (Hq & Hh & Hj & Hl). unfold create_canary. destruct (eqs (cr_Name i) ""); [done|].
  destruct (eqs (cr_ConfigPath i) ""); [done|].
  destruct s as [sys [next canaries cancels refs] loops starting shut outbox rs]. unfold canary_inv, cy_queue in *. simpl in *.
  destruct (health_inv_create _ _ _ i now Hh Hmax) as [Hfresh Hh']. split_and!; [done..|].
  by apply loops_inv_create.
Qed.

Lemma set_enabled_inv id enabled s : canary_inv s → canary_inv (set_enabled id enabled s).
Proof.
  intros (Hq & Hh & Hj & Hl). unfold set_enabled. destruct (cn_canaries (cy_store s) !! id) as [c|] eqn:Hc; [|done].
  destruct (hi_id _ _ _ Hh id c Hc) as [Hid _]. pose proof (hi_ok _ _ _ Hh id c Hc) as Hok.
  destruct s as [sys [next canaries cancels refs] loops starting shut outbox rs].
  destruct c as [cid name path prio int jit en thr cf lr ls h cr]. simpl in *. subst cid.
  assert (health_inv next (<[id := mkCanary id name path prio int jit enabled thr cf lr ls h cr]> canaries) rs) as Hh'.
  { by eapply health_inv_put. }
  unfold canary_inv, put_canary, cy_queue in *. destruct enabled; simpl in *.
  - split_and!; [done..|]. by eapply loops_inv_enable.
  - pose proof (loops_inv_disable _ _ _ _ _ _ id _ (mkCanary id name path prio int jit false thr cf lr ls h cr) Hl Hc eq_refl) as Hl'.
    unfold dropped in Hl'. destruct (cancels !! id) as [n|] eqn:Hn; simpl; split_and!; try done.
    + eapply known_perm; [|exact (ji_results _ _ _ _ _ Hj)|done|exact Hj]. unfold known.
      rewrite (list_omap_alter queued_job); [done|]. by intros [].
    + rewrite delete_id in Hl' by done. done.
Qed.

Lemma start_canary_inv id l1 l2 s :
  cy_starting s = l1 ++ id :: l2 → canary_inv s → canary_inv (start_canary id (s <| cy_starting := l1 ++ l2 |>)).
Proof.
  intros Hst (Hq & Hh & Hj & Hl). destruct s as [sys [next canaries cancels refs] loops starting shut outbox rs].
  unfold start_canary, canary_inv, cy_queue in *. simpl in *. subst starting.
  destruct (canaries !! id) as [c|] eqn:Hc.
  2: { destruct (li_starting _ _ _ _ _ _ Hl id) as [c Hc']; [set_solver|congruence]. }
  destruct (cc_Enabled c) eqn:Hen; simpl.
  - pose proof (loops_inv_start _ _ _ _ _ _ _ id c (cc_ConfigPath c) (cc_Priority c) Hl Hc Hen) as Hl'.
    unfold dropped in Hl'.
    assert (∀ ls, omap queued_job ls = omap queued_job loops → 
      jobs_inv (sys_queue sys) (ls ++ [mkCanaryLoop id (cc_ConfigPath c) (cc_Priority c) false CanaryWaiting]) refs rs outbox) as Hjobs.
    { intros ls Hls. eapply known_perm; [|exact (ji_results _ _ _ _ _ Hj)|done|exact Hj]. unfold known.
      rewrite omap_app, Hls. simpl. by rewrite app_nil_r. }
    destruct (cancels !! id) as [n|]; simpl; split_and!; try done.
    + apply Hjobs. apply list_omap_alter. by intros [].
    + by rewrite length_alter.
    + by apply Hjobs.
  - split_and!; try done. eapply loops_inv_starting; [done| |].
    + intros i Hi. apply (li_starting _ _ _ _ _ _ Hl). set_solver.
    + intros i Hi. destruct (decide (i = id)) as [->|]; [right; intros ? ?; congruence|left; set_solver].
Qed.

Lemma shutdown_inv s : canary_inv s → canary_inv (shutdown_canaries s).
Proof.
  intros (Hq & Hh & Hj & Hl). destruct s as [sys [next canaries cancels refs] loops starting shut outbox rs].
  unfold canary_inv, cy_queue in *. simpl in *. split_and!; try done. by apply loops_inv_shutdown.
Qed.

Lemma alter_phase_inv n f s :
  canary_inv s → (∀ l, cl_canary (f l) = cl_canary l) →
  (∀ l, cl_cancelled (f l) = cl_cancelled l ∨ n ∈ cy_shut s ∧ cl_cancelled (f l) = true) →
  (∀ l, cy_loops s !! n = Some l → queued_job (f l) = queued_job l) →
  canary_inv (s <| cy_loops := alter f n (cy_loops s) |>).
Proof.
  intros (Hq & Hh & Hj & Hl) Hcan Hkeep Hsame. destruct s as [sys [next canaries cancels refs] loops starting shut outbox rs].
  unfold canary_inv, cy_queue in *. simpl in *. split_and!; try done; [|by apply loops_inv_alter].
  eapply known_perm; [|exact (ji_results _ _ _ _ _ Hj)|done|exact Hj]. unfold known.
  rewrite (list_omap_alter_at queued_job); done.
Qed.

Lemma cancel_canary_inv n s : n ∈ cy_shut s → canary_inv s → canary_inv (cancel_canary n s).
Proof. intros Hn Hs. apply alter_phase_inv; [done|by intros []|intros []; by right|by intros []]. Qed.

Lemma markFailure_inv id s : canary_inv s → canary_inv (markFailure id s).
Proof.
  intros (Hq & Hh & Hj & Hl). unfold markFailure. destruct (cn_canaries (cy_store s) !! id) as [c|] eqn:Hc; [|done].
  destruct (hi_id _ _ _ Hh id c Hc) as [Hid _]. pose proof (hi_ok _ _ _ Hh id c Hc) as Hok.
  destruct s as [sys [next canaries cancels refs] loops starting shut outbox rs].
  unfold canary_inv, put_canary, add_result, cy_queue in *. cbn [cy_sys cy_store cy_loops cy_starting cy_shut cy_outbox cy_results cn_nextID cn_canaries cn_cancels cn_jobRefs update_field] in *.
  rewrite note_failure_ID, Hid. split_and!; try done.
  - eapply health_inv_result; [done..|by rewrite note_failure_ID|by apply note_failure_ok].
  - apply (known_perm loops loops refs refs rs _ _ outbox); [done| |done|done].
    intros i j ok [[=]|Hin]%elem_of_cons. by eapply (ji_results _ _ _ _ _ Hj).
  - eapply loops_inv_put; [done..|]. by rewrite note_failure_Enabled.
Qed.

(** The event of a job that counts: its reference goes, its result comes. *)
Lemma jobs_inv_count q loops refs rs outbox l1 l2 job id (ok : bool) :
  jobs_inv q loops refs rs outbox → outbox = l1 ++ job :: l2 → refs !! j_ID job = Some id →
  j_Status job = (if ok then JobSucceeded else JobFailed) →
  jobs_inv q loops (delete (j_ID job) refs) ((id, (Some (j_ID job), ok)) :: rs) (l1 ++ l2).
Proof.
  intros Hj -> Hrefs Hst. eapply known_perm; [| | |exact Hj].
  - unfold known. simpl. rewrite (refs_delete refs) by done. apply Permutation_app_head. simpl.
    by rewrite Permutation_middle.
  - intros i j ok' [[= -> -> ->]|Hin]%elem_of_cons; [|by eapply (ji_results _ _ _ _ _ Hj)].
    exists job. split; [|done]. apply (ji_outbox _ _ _ _ _ Hj). set_solver.
  - set_solver.
Qed.

Lemma onCanaryJob_inv job l1 l2 s :
  cy_outbox s = l1 ++ job :: l2 → canary_inv s → canary_inv (onCanaryJob job (s <| cy_outbox := l1 ++ l2 |>)).
Proof.
  intros Hout (Hq & Hh & Hj & Hl). destruct s as [sys [next canaries cancels refs] loops starting shut outbox rs].
  unfold onCanaryJob, canary_inv, put_canary, add_result, cy_queue in *.
  cbn [cy_sys cy_store cy_loops cy_starting cy_shut cy_outbox cy_results cn_nextID cn_canaries cn_cancels cn_jobRefs update_field] in *.
  subst outbox. assert (jobs_inv (sys_queue sys) loops refs rs (l1 ++ l2)) as Hj0.
  { eapply known_perm; [done|exact (ji_results _ _ _ _ _ Hj)| |exact Hj]. set_solver. }
  destruct (negb _ && negb _) eqn:Hterm; [done|].
  destruct (refs !! j_ID job) as [id|] eqn:Href; [|done].
  cbn [cy_sys cy_store cy_loops cy_starting cy_shut cy_outbox cy_results cn_nextID cn_canaries cn_cancels cn_jobRefs update_field] in *.
  destruct (li_refs _ _ _ _ _ _ Hl _ _ Href) as [c Hc]. rewrite Hc.
  destruct (hi_id _ _ _ Hh id c Hc) as [Hid _]. pose proof (hi_ok _ _ _ Hh id c Hc) as Hok.
  assert (loops_inv canaries cancels loops shut starting (delete (j_ID job) refs)) as Hl'.
  { eapply loops_inv_refs; [done|]. intros j i [_ Hj']%lookup_delete_Some. by eapply (li_refs _ _ _ _ _ _ Hl). }
  destruct (bool_decide_reflect (j_Status job = JobSucceeded)) as [Hs|Hs].
  - cbn [cy_sys cy_store cy_loops cy_starting cy_shut cy_outbox cy_results cn_nextID cn_canaries cn_cancels cn_jobRefs update_field].
    rewrite note_success_ID, Hid. split_and!; [done| |exact (jobs_inv_count _ _ _ _ _ l1 l2 job id true Hj eq_refl Href Hs)|].
    + eapply health_inv_result; [done..|by rewrite note_success_ID|by apply note_success_ok].
    + eapply loops_inv_put; [done..|]. by rewrite note_success_Enabled.
  - cbn [cy_sys cy_store cy_loops cy_starting cy_shut cy_outbox cy_results cn_nextID cn_canaries cn_cancels cn_jobRefs update_field].
    assert (j_Status job = JobFailed) as Hf by (simpl in Hterm; by apply negb_false, bool_decide_eq_true in Hterm).
    rewrite note_failure_ID, Hid. split_and!; [done| |exact (jobs_inv_count _ _ _ _ _ l1 l2 job id false Hj eq_refl Href Hf)|].
    + eapply health_inv_result; [done..|by rewrite note_failure_ID|by apply note_failure_ok].
    + eapply loops_inv_put; [done..|]. by rewrite note_failure_Enabled.
Qed.

Lemma with_canary_system_inv sys s :
  inv sys → q_nextID (cy_queue s) ≤ q_nextID (sys_queue sys) → grows (cy_queue s) (sys_queue sys) →
  canary_inv s → canary_inv (with_canary_system sys s).
Proof.
  intros Hq' Hn [_ Hevs] (Hq & Hh & Hj & Hl). split_and!; try done. by apply jobs_inv_queue.
Qed.

(** Recording a reference: the job of the goroutine moves to the map. *)
Lemma record_ref_inv n l job now s :
  cy_loops s !! n = Some l → cl_phase l = CanaryQueued job → canary_inv s →
  canary_inv (set_canary_phase n CanaryWaiting (record_ref (cl_canary l) job now s)).
Proof.
  intros Hn Hph (Hq & Hh & Hj & Hl). destruct s as [sys [next canaries cancels refs] loops starting shut outbox rs].
  unfold record_ref, set_canary_phase, canary_inv, put_canary, cy_queue in *.
  cbn [cy_sys cy_store cy_loops cy_starting cy_shut cy_outbox cy_results cn_nextID cn_canaries cn_cancels cn_jobRefs update_field] in *.
  destruct (li_known _ _ _ _ _ _ Hl _ _ Hn) as [c Hc]. rewrite Hc.
  destruct (hi_id _ _ _ Hh _ c Hc) as [Hid _]. pose proof (hi_ok _ _ _ Hh _ c Hc) as Hok.
  cbn [cy_sys cy_store cy_loops cy_starting cy_shut cy_outbox cy_results cn_nextID cn_canaries cn_cancels cn_jobRefs update_field].
  match goal with |- context [<[cc_ID ?d := ?d]>] => set (c' := d) end.
  assert (cc_ID c' = cl_canary l) as Hid' by by destruct c.
  rewrite Hid'. assert (omap queued_job loops ≡ₚ job :: omap queued_job (alter (λ l, l <| cl_phase := CanaryWaiting |>) n loops)) as Hloops.
  { apply (omap_alter_remove _ _ _ _ l); [done|unfold queued_job; by rewrite Hph|by destruct l]. }
  assert (refs !! job = None) as Hfresh.
  { apply eq_None_not_Some. intros [id Hid'']. pose proof (ji_nodup _ _ _ _ _ Hj) as Hnd. unfold known in Hnd.
    rewrite Hloops in Hnd. apply NoDup_cons in Hnd as [Hno _]. apply Hno, elem_of_app. right. apply elem_of_app. left.
    apply list_elem_of_fmap. exists (job, id). by rewrite elem_of_map_to_list. }
  split_and!; [done| | |].
  - eapply health_inv_put; [done..|]. eapply canary_ok_frame; [..|done]; by destruct c.
  - eapply known_perm; [|exact (ji_results _ _ _ _ _ Hj)|done|exact Hj]. unfold known.
    rewrite (refs_insert refs) by done. rewrite Hloops. simpl. by rewrite Permutation_middle.
  - apply loops_inv_alter; [|by intros []|intros []; by left].
    eapply loops_inv_put; [|done|by destruct c]. eapply loops_inv_refs; [done|].
    intros j i [[<- <-]|[_ Hji]]%lookup_insert_Some; [by eexists|by eapply (li_refs _ _ _ _ _ _ Hl)].
Qed.

Lemma canary_loop_step_inv n c now s s' :
  canary_loop_step n c now s = Some s' → canary_bounded s → canary_bounded s' → canary_inv s → canary_inv s'.
Proof.
  intros Hs [Hb _] [Hb' _] Hinv. unfold canary_loop_step in Hs. destruct (cy_loops s !! n) as [l|] eqn:Hn; [|done].
  destruct (cl_phase l) as [| |job|] eqn:Hph; [..|done].
  - destruct c.
    + pose proof (Enqueue_next (cl_ConfigPath l) "" false (cl_Priority l) now (cy_queue s)) as Hnext.
      pose proof (Enqueue_new (cl_ConfigPath l) (cl_Priority l) now (cy_queue s)) as Hnew.
      pose proof (run_op_next (OpEnqueue (cl_ConfigPath l) "" false (cl_Priority l)) now (cy_queue s)) as Hmono. simpl in Hmono.
      assert (inv (cy_sys s)) as Hq by apply Hinv.
      pose proof (Enqueue_grows (cl_ConfigPath l) "" false (cl_Priority l) now _ _ Hq Hb) as Hgrows.
      destruct (Enqueue _ _ _ _ _ _) as [q r] eqn:He. cbn [fst snd] in *.
      assert (queue_inv q (sys_phase (cy_sys s))) as Hq'.
      { change q with ((q, r).1). rewrite <-He. apply Enqueue_inv; [done|]. rewrite He. simpl. unfold cy_queue in *. lia. }
      destruct r as [[job|]|e]; [|done|]; injection Hs as <-.
      * destruct (Hnew _ eq_refl) as [Hid Hnext']. destruct Hinv as (_ & Hh & Hj & Hl).
        split_and!; [done|done| |].
        -- destruct s as [[q0 ph mx dl pr dn] st loops starting shut outbox rs]. simpl in *.
           eapply jobs_inv_enqueue; [done..| | | |done|done|exact Hid].
           ++ unfold cy_queue in Hb'. simpl in Hb'. lia.
           ++ pose proof (qi_next _ _ _ _ _ _ _ Hq) as Hp. simpl in Hp. unfold cy_queue. simpl. lia.
           ++ by destruct Hgrows.
        -- destruct s as [[q0 ph mx dl pr dn] st loops starting shut outbox rs]. simpl in *.
           apply loops_inv_alter; [done|by intros []|intros []; by left].
      * eapply (alter_phase_inv n (λ l, l <| cl_phase := CanaryRefused |>)) in Hinv; [|by intros []|intros []; by left|].
        2: { intros l'. rewrite Hn. intros [= <-]. unfold queued_job. rewrite Hph. by destruct l. }
        change (canary_inv (with_canary_system ((cy_sys s) <| sys_queue := q |>)
          (s <| cy_loops := alter (λ l, l <| cl_phase := CanaryRefused |>) n (cy_loops s) |>))).
        apply with_canary_system_inv; [done|done|done|done].
    + destruct (cl_cancelled l); [|done]. injection Hs as <-.
      apply alter_phase_inv; [done|by intros []|intros []; by left|]. intros l'. rewrite Hn. intros [= <-].
      unfold queued_job. rewrite Hph. by destruct l.
  - injection Hs as <-. unfold set_canary_phase.
    apply alter_phase_inv; [by apply markFailure_inv|by intros []|intros []; by left|].
    intros l'. assert (cy_loops (markFailure (cl_canary l) s) = cy_loops s) as ->.
    { unfold markFailure. case_match; by destruct s. }
    rewrite Hn. intros [= <-]. unfold queued_job. rewrite Hph. by destruct l.
  - injection Hs as <-. by apply record_ref_inv.
Qed.

Definition canary_counters_le (s s' : CanarySys) : Prop :=
  q_nextID (cy_queue s) ≤ q_nextID (cy_queue s') ∧ cn_nextID (cy_store s) ≤ cn_nextID (cy_store s').

Lemma onCanaryJob_counters j s : canary_counters_le s (onCanaryJob j s).
Proof.
  unfold onCanaryJob. destruct (negb _ && negb _); [done|]. destruct (cn_jobRefs _ !! _); [|done].
  destruct s as [sys [next canaries cancels refs] loops starting shut outbox rs]. simpl.
  destruct (canaries !! _); [|done]. by case_bool_decide.
Qed.

Lemma loop_step_counters n c now s s' : canary_loop_step n c now s = Some s' → canary_counters_le s s'.
Proof.
  unfold canary_loop_step. destruct (cy_loops s !! n) as [l|]; [|done].
  destruct (cl_phase l) as [| |job|]; [..|done].
  - destruct c.
    + pose proof (run_op_next (OpEnqueue (cl_ConfigPath l) "" false (cl_Priority l)) now (cy_queue s)) as Hmono.
      simpl in Hmono. destruct (Enqueue _ _ _ _ _ _) as [q r]. simpl in Hmono.
      destruct r as [[job|]|e]; [|done|]; intros [= <-]; split; done.
    + destruct (cl_cancelled l); [|done]. by intros [= <-].
  - intros [= <-]. unfold markFailure. destruct (cn_canaries _ !! _); by split.
  - intros [= <-]. unfold record_ref. destruct (cn_canaries _ !! _); by split.
Qed.

Lemma canary_step_counters s s' : canary_step s s' → canary_counters_le s s'.
Proof.
  destruct 1 as [sys s Hsys|i now s|id enabled s|id l1 l2 s _|s|n s _|n c now s s' Hs|j l1 l2 s _].
  - split; [|done]. destruct s as [sys0 st loops starting shut outbox rs]. unfold cy_queue. simpl in *.
    destruct Hsys as [o now s0|ch now s0 s1 Hw|s0]; [apply run_op_next|by erewrite <-worker_step_next|done].
  - unfold create_canary. destruct (eqs _ _); [done|]. destruct (eqs _ _); [done|]. split; [done|]. simpl. lia.
  - unfold set_enabled. destruct (cn_canaries _ !! _); [|done]. destruct enabled; [done|]. by case_match.
  - unfold start_canary. destruct (cn_canaries _ !! _); [|done]. destruct (negb _); [done|]. by case_match.
  - done.
  - done.
  - by eapply loop_step_counters.
  - pose proof (onCanaryJob_counters j (s <| cy_outbox := l1 ++ l2 |>)) as Hc. exact Hc.
Qed.

Lemma canary_bounded_back s s' : canary_counters_le s s' → canary_bounded s' → canary_bounded s.
Proof. intros [? ?] [? ?]. split; lia. Qed.

Lemma canary_step_inv s s' : canary_step s s' → canary_bounded s' → canary_inv s → canary_inv s'.
Proof.
  intros Hstep Hb' Hinv. pose proof (canary_bounded_back _ _ (canary_step_counters _ _ Hstep) Hb') as Hb.
  destruct Hstep as [sys s Hsys|i now s|id enabled s|id l1 l2 s Hst|s|n s Hn|n c now s s' Hs|j l1 l2 s Hout].
  - destruct (canary_step_counters _ _ (canary_system _ _ Hsys)) as [Hn _]. destruct Hb as [Hb _].
    assert (inv (cy_sys s)) as Hq by apply Hinv.
    apply with_canary_system_inv; [|exact Hn| |done].
    + destruct s as [sys0 st loops starting shut outbox rs]. unfold cy_queue in *. simpl in *.
      destruct Hsys as [o now s0|ch now s0 s1 Hw|s0]; [|by eapply worker_step_inv|done].
      apply run_op_inv; [done|]. destruct Hb' as [Hb' _]. unfold cy_queue in Hb'. simpl in Hb'. lia.
    + destruct s as [sys0 st loops starting shut outbox rs]. unfold cy_queue in *. simpl in *.
      destruct Hsys as [o now s0|ch now s0 s1 Hw|s0]; [by eapply run_op_grows|by eapply worker_step_grows|done].
  - unfold create_canary in *. destruct (eqs (cr_Name i) "") eqn:H1; [done|]. destruct (eqs (cr_ConfigPath i) "") eqn:H2; [done|].
    pose proof (create_canary_inv i now s) as Hc. unfold create_canary in Hc. rewrite H1, H2 in Hc. apply Hc; [|done].
    destruct Hb' as [_ Hb']. simpl in Hb'. lia.
  - by apply set_enabled_inv.
  - by apply start_canary_inv.
  - by apply shutdown_inv.
  - by apply cancel_canary_inv.
  - by eapply canary_loop_step_inv.
  - by apply onCanaryJob_inv.
Qed.

Lemma canary_inv_reachable s : canary_reachable s → canary_bounded s → canary_inv s.
Proof.
  intros (buffer & now & Hrtc). revert s Hrtc.
  apply (rtc_ind_r (λ s, canary_bounded s → canary_inv s) (initial_canaries buffer now)).
  - intros _. apply canary_inv_initial.
  - intros s s' _ Hstep IH Hb. eapply canary_step_inv; [done..|]. apply IH.
    eapply canary_bounded_back; [by apply canary_step_counters|done].
Qed.

(** A goroutine of [id] whose context is not done and that [Shutdown] did not take. *)
Definition canary_live (s : CanarySys) (id : string) (n : nat) : Prop :=
  ∃ l, cy_loops s !! n = Some l ∧ cl_canary l = id ∧ cl_cancelled l = false ∧ n ∉ cy_shut s.

(** C27: In every reachable state of canaries, queue and worker, whatever is
    interleaved: the failures in a row, the last status and the health of a
    canary are those of its results so far — unhealthy exactly when it has failed
    [FailureThreshold] times since its last success, healthy when it is not and
    has succeeded before, unknown otherwise; a result is a refused [Enqueue] or
    how a job of the queue ended, and a job counts at most once (one that ends too
    early does not count); a canary has at most one live goroutine, none when it is
    disabled, and one when it is enabled, unless a call is about to start it or
    [Shutdown] took it. *)
Theorem canary_health s :
  canary_reachable s → canary_bounded s →
  (∀ id c, cn_canaries (cy_store s) !! id = Some c →
     let l := oks id (cy_results s) in
     cc_ConsecutiveFailures c = Z.of_nat (failures l) ∧ cc_LastStatus c = status_of l ∧
     cc_Health c = health_of (cc_FailureThreshold c) l ∧
     if cc_Enabled c
     then (∃ n, canary_live s id n) ∨ id ∈ cy_starting s ∨
          ∃ n l, n ∈ cy_shut s ∧ cy_loops s !! n = Some l ∧ cl_canary l = id
     else ∀ n, ¬ canary_live s id n) ∧
  (∀ id n1 n2, canary_live s id n1 → canary_live s id n2 → n1 = n2) ∧
  (∀ id j ok, (id, (Some j, ok)) ∈ cy_results s →
     ∃ job, (canary_subscriber, job) ∈ q_events (cy_queue s) ∧ j_ID job = j ∧
            j_Status job = if (ok : bool) then JobSucceeded else JobFailed) ∧
  NoDup (omap (λ r, r.2.1) (cy_results s)).
Proof.
  intros Hreach Hb. destruct (canary_inv_reachable s Hreach Hb) as (_ & Hh & Hj & Hl).
  assert (∀ id n, canary_live s id n → cn_cancels (cy_store s) !! id = Some n) as Hlive.
  { intros id n (l & Hn & <- & Hc & Hs). by destruct (li_live _ _ _ _ _ _ Hl n l Hn Hc). }
  split; [|split; [|split]].
  - intros id c Hc. destruct (hi_ok _ _ _ Hh id c Hc) as (_ & Hcf & Hhe & Hls). split_and!; [done..|].
    destruct (cc_Enabled c) eqn:He.
    + destruct (li_enabled _ _ _ _ _ _ Hl id c Hc He) as [[n Hn]|?]; [left|by right].
      destruct (li_cancel _ _ _ _ _ _ Hl id n Hn) as (? & (l & ? & ? & ?) & _). by exists n, l.
    + intros n Hn%Hlive. destruct (li_cancel _ _ _ _ _ _ Hl id n Hn) as (_ & _ & d & Hd & ?). congruence.
  - intros id n1 n2 H1%Hlive H2%Hlive. congruence.
  - exact (ji_results _ _ _ _ _ Hj).
  - pose proof (ji_nodup _ _ _ _ _ Hj) as Hnd. unfold known in Hnd. by apply NoDup_app in Hnd as (_ & _ & (_ & _ & ?)%NoDup_app).
Qed.
End inv.

(** ** Runs that can be evaluated *)

Inductive canary_move :=
  | KCreate (i : CanaryCreate) (now : Time)
  | KStart                                      (* the oldest call that will start one *)
  | KLoop (n : nat) (now : Time)
  | KOp (o : op) (now : Time)
  | KWork (ch : choice) (now : Time)
  | KDeliver.                                   (* the oldest event *)

Definition canary_play1 `{TimeFormat} (m : canary_move) (s : CanarySys) : option CanarySys :=
  match m with
  | KCreate i now => Some (create_canary i now s).1
  | KStart =>
      match cy_starting s with
      | [] => None
      | id :: l => Some (start_canary id (s <| cy_starting := l |>))
      end
  | KLoop n now => canary_loop_step n TimerFired now s
  | KOp o now => Some (with_canary_system ((cy_sys s) <| sys_queue := run_op o now (cy_queue s) |>) s)
  | KWork ch now => sys ← worker_step ch now (cy_sys s); Some (with_canary_system sys s)
  | KDeliver =>
      match cy_outbox s with
      | [] => None
      | j :: l => Some (onCanaryJob j (s <| cy_outbox := l |>))
      end
  end.

Fixpoint canary_play `{TimeFormat} (ms : list canary_move) (s : CanarySys) : option CanarySys :=
  match ms with
  | [] => Some s
  | m :: ms => s' ← canary_play1 m s; canary_play ms s'
  end.

Lemma canary_play1_step `{TimeFormat} m s s' : canary_play1 m s = Some s' → canary_step s s'.
Proof.
  destruct m as [i now| |n now|o now|ch now|]; cbn [canary_play1].
  - intros [= <-]. constructor.
  - destruct (cy_starting s) as [|id l] eqn:Hl; [done|]. intros [= <-]. by apply (canary_start id [] l).
  - by apply canary_loop.
  - intros [= <-]. apply canary_system. constructor.
  - destruct (worker_step ch now (cy_sys s)) as [sys|] eqn:Hw; [|done]. intros [= <-].
    by eapply canary_system, step_worker.
  - destruct (cy_outbox s) as [|j l] eqn:Hl; [done|]. intros [= <-]. by apply (canary_deliver j [] l).
Qed.

Lemma canary_play_steps `{TimeFormat} ms s s' : canary_play ms s = Some s' → rtc canary_step s s'.
Proof.
  revert s; induction ms as [|m ms IH]; intros s; cbn [canary_play].
  - intros [= ->]. constructor.
  - destruct (canary_play1 m s) as [s1|] eqn:Hm; [|done]. intros Hp.
    eapply rtc_l; [by eapply canary_play1_step|by apply IH].
Qed.

Definition after_canary_moves (ms : list canary_move) : CanarySys :=
  default (initial_canaries 4 0) (@canary_play plain_time ms (initial_canaries 4 0)).

Lemma after_canary_moves_reachable ms :
  is_Some (@canary_play plain_time ms (initial_canaries 4 0)) → @canary_reachable plain_time (after_canary_moves ms).
Proof. intros [s Hs]. unfold after_canary_moves. rewrite Hs. exists 4, 0. by apply (@canary_play_steps plain_time ms). Qed.

Definition one_canary : list canary_move :=
  [KCreate (mkCanaryCreate "web" "web.yaml" "high" 0 0 1) 1; KStart; KLoop 0 2].
Definition canary_worker : list canary_move := [KWork Continue 3; KWork Continue 3].
Definition run_one (err : option string) : list canary_move :=
  [KWork Continue 4; KWork Continue 4; KWork Continue 4; KWork (Applied err) 5].

(** The job is recorded, executed, fails, and its three events are delivered. *)
Definition failed_canary : list canary_move :=
  one_canary ++ [KLoop 0 3] ++ canary_worker ++ run_one (Some "boom") ++ [KDeliver; KDeliver; KDeliver].

Lemma canary_health_witness :
  ∃ c, cn_canaries (cy_store (after_canary_moves failed_canary)) !! "canary-1" = Some c ∧
    cc_Health c = CanaryUnhealthy ∧ cc_ConsecutiveFailures c = 1 ∧
    ∃ n, canary_live (after_canary_moves failed_canary) "canary-1" n.
Proof.
  assert (@canary_reachable plain_time (after_canary_moves failed_canary)) as Hr.
  { apply after_canary_moves_reachable. exists (after_canary_moves failed_canary). by vm_compute. }
  destruct (@canary_health plain_time (after_canary_moves failed_canary) Hr) as [Hc _].
  { split; by vm_compute. }
  destruct (cn_canaries (cy_store (after_canary_moves failed_canary)) !! "canary-1") as [c|] eqn:Hget.
  2: { exfalso. vm_compute in Hget. discriminate Hget. }
  exists c. split; [reflexivity|]. destruct (Hc "canary-1" c Hget) as (Hf & _ & Hh & Hen).
  assert (cc_FailureThreshold c = 1 ∧ cc_Enabled c = true ∧
          oks "canary-1" (cy_results (after_canary_moves failed_canary)) = [false]) as (Ht & He & Ho).
  { vm_compute in Hget. injection Hget as <-. split_and!; vm_compute; reflexivity. }
  rewrite Ho in Hf, Hh. rewrite Ht in Hh. rewrite He in Hen. split; [exact Hh|]. split; [exact Hf|].
  destruct Hen as [Hl|[Hs|(n & l & Hn & _)]]; [exact Hl| |].
  - exfalso. vm_compute in Hs. inversion Hs.
  - exfalso. vm_compute in Hn. inversion Hn.
Defined.

(** The goroutine enqueues before it records the job: when the job fails in
    between, the result is lost and the reference to the job is never removed. *)
Definition early_failure : list canary_move :=
  one_canary ++ canary_worker ++ run_one (Some "boom") ++ [KDeliver; KDeliver; KDeliver; KLoop 0 6].

Theorem early_failure_not_counted :
  let s := after_canary_moves early_failure in
  @canary_reachable plain_time s ∧ cy_outbox s = [] ∧ cy_results s = [] ∧
  map_to_list (cn_jobRefs (cy_store s)) = [("job-2-1", "canary-1")] ∧
  j_Status <$> q_jobs (cy_queue s) !! "job-2-1" = Some JobFailed.
Proof.
  split; [|by vm_compute].
  apply after_canary_moves_reachable. exists (after_canary_moves early_failure). by vm_compute.
Qed.

(** The subscriber ignores cancelled jobs: their references stay. *)
Definition cancelled_canary : list canary_move :=
  one_canary ++ [KLoop 0 3; KOp (OpCancel "job-2-1") 4; KDeliver; KDeliver].

Theorem cancelled_job_leaks_reference :
  let s := after_canary_moves cancelled_canary in
  @canary_reachable plain_time s ∧ cy_outbox s = [] ∧ cy_results s = [] ∧
  map_to_list (cn_jobRefs (cy_store s)) = [("job-2-1", "canary-1")] ∧
  j_Status <$> q_jobs (cy_queue s) !! "job-2-1" = Some JobCanceled.
Proof.
  split; [|by vm_compute].
  apply after_canary_moves_reachable. exists (after_canary_moves cancelled_canary). by vm_compute.
Qed.
