(* ===== verification/Rollout.v ===== *)
(** * Rollouts and admission: [internal/control/rollout_controls.go],
      [tenant_limits.go], [disruption_budget.go] and [scheduler_partition.go]

    The waves of a rollout, and three admission decisions with their machine
    arithmetic.  Percentages of targets go through [float64] in the code; below
    2^53 that is the integer quotient written here.  Proved: the waves of a plan
    partition the targets in order into batches of the size the policy asks for;
    each decision is exact while nothing overflows. *)

From S2P Require Import Prelude.

(** ** Rollout policies *)

Record RolloutPolicyInput : Type := mkRolloutInput {
  ro_in_Environment : string;
  ro_in_Strategy : string;
  ro_in_Mode : string;
  ro_in_BatchSize : Z;
  ro_in_BatchPercent : Z;
  ro_in_CanaryPercent : Z;
  ro_in_MaxUnavailable : Z;
}.

Record RolloutPolicy : Type := mkRolloutPolicy {
  ro_ID : string;
  ro_Environment : string;
  ro_Strategy : string;
  ro_Mode : string;
  ro_BatchSize : Z;
  ro_BatchPercent : Z;
  ro_CanaryPercent : Z;
  ro_MaxUnavailable : Z;
  ro_UpdatedAt : Time;
}.

Record RolloutWave : Type := mkWave { wv_Index : Z; wv_Targets : list string; wv_Phase : string; wv_Reason : string }.

Record RolloutPlan : Type := mkRolloutPlan {
  rp_Allowed : bool;
  rp_Environment : string;
  rp_PolicyID : string;
  rp_Strategy : string;
  rp_Mode : string;
  rp_Waves : list RolloutWave;
  rp_BlockedReason : string;
}.

Record RolloutControlStore : Type := mkRollouts { rc_nextID : Z; rc_policies : gmap string RolloutPolicy }.

Inductive rollout_error := RolloutEnvironment | RolloutStrategy | RolloutMode.

Definition NewRolloutControlStore : RolloutControlStore := mkRollouts 0 ∅.

Definition strategies : list string := ["blue-green"; "canary"; "rolling"].
Definition modes : list string := ["serial"; "batch"; "percentage"].

Definition percent_or (default p : Z) : Z := if (p <=? 0) || (100 <? p) then default else p.

Definition UpsertPolicy (i : RolloutPolicyInput) (now : Time) (s : RolloutControlStore)
    : RolloutControlStore * result rollout_error RolloutPolicy :=
  let environment := norm (ro_in_Environment i) in
  if eqs environment "" then (s, Err RolloutEnvironment) else
  let strategy := norm (ro_in_Strategy i) in
  if negb (one_of strategy strategies) then (s, Err RolloutStrategy) else
  let mode := if eqs (norm (ro_in_Mode i)) "" then "serial" else norm (ro_in_Mode i) in
  if negb (one_of mode modes) then (s, Err RolloutMode) else
  let batchSize := if ro_in_BatchSize i <=? 0 then 1 else ro_in_BatchSize i in
  let maxUnavailable := if ro_in_MaxUnavailable i <=? 0 then 1 else ro_in_MaxUnavailable i in
  let item id := mkRolloutPolicy id environment strategy mode batchSize (percent_or 25 (ro_in_BatchPercent i))
                   (percent_or 10 (ro_in_CanaryPercent i)) maxUnavailable now in
  match rc_policies s !! environment with
  | Some existing =>
      (mkRollouts (rc_nextID s) (<[environment := item (ro_ID existing)]> (rc_policies s)), Ok (item (ro_ID existing)))
  | None =>
      let next := rc_nextID s + 1 in
      let id := "rollout-policy-" +:+ itoa next in
      (mkRollouts next (<[environment := item id]> (rc_policies s)), Ok (item id))
  end.

Definition by_environment (p q : RolloutPolicy) : Prop := String.le (ro_Environment p) (ro_Environment q).
#[export] Instance by_environment_dec p q : Decision (by_environment p q).
Proof. unfold by_environment. apply _. Defined.
Definition ListRolloutPolicies (s : RolloutControlStore) : list RolloutPolicy :=
  merge_sort by_environment (map_to_list (rc_policies s)).*2.

(** ** Plans *)

(** [maxRolloutInt(1, int(float64(n)*float64(percent)/100.0))] *)
Definition share (n percent : Z) : Z := Z.max 1 (n * percent / 100).

Definition default_policy (environment : string) : RolloutPolicy :=
  mkRolloutPolicy "" environment "rolling" "serial" 1 25 10 0 0.

Definition rollout_targets (l : list string) : list string :=
  omap (λ target, let t := TrimSpace target in if eqs t "" then None else Some t) l.

(** The loop over the batches, from wave [idx] on; the fuel is at least the
    number of targets left. *)
Fixpoint rolling_waves (fuel : nat) (batch idx : Z) (targets : list string) : list RolloutWave :=
  match fuel, targets with
  | S fuel, _ :: _ =>
      mkWave idx (take (Z.to_nat batch) targets) "rolling" "rolling wave using selected rollout mode" ::
      rolling_waves fuel batch (idx + 1) (drop (Z.to_nat batch) targets)
  | _, _ => []
  end.

Definition rolling_batch (p : RolloutPolicy) (n : Z) : Z :=
  let batch := if eqs (ro_Mode p) "batch" then ro_BatchSize p
               else if eqs (ro_Mode p) "percentage" then share n (ro_BatchPercent p)
               else 1 in
  if n <? batch then n else batch.

Definition rollout_waves (p : RolloutPolicy) (targets : list string) : list RolloutWave :=
  let n := Z.of_nat (length targets) in
  if eqs (ro_Strategy p) "blue-green" then
    [mkWave 1 targets "blue-prepare" "prepare blue environment"; mkWave 2 targets "green-cutover" "switch traffic to green environment"]
  else if eqs (ro_Strategy p) "canary" then
    let size := share n (ro_CanaryPercent p) in
    let size := if n <? size then n else size in
    mkWave 1 (take (Z.to_nat size) targets) "canary" "canary wave" ::
    (if size <? n then [mkWave 2 (drop (Z.to_nat size) targets) "promote" "promote after canary"] else [])
  else rolling_waves (length targets) (rolling_batch p n) 1 targets.

Definition PlanRollout (environment : string) (targets : list string) (s : RolloutControlStore) : RolloutPlan :=
  let environment := norm environment in
  if eqs environment "" then mkRolloutPlan false environment "" "" "" [] "environment is required" else
  let targets := rollout_targets targets in
  if bool_decide (targets = []) then mkRolloutPlan false environment "" "" "" [] "targets are required" else
  let policy := default (default_policy environment) (rc_policies s !! environment) in
  mkRolloutPlan true environment (ro_ID policy) (ro_Strategy policy) (ro_Mode policy) (rollout_waves policy targets) "".

(** ** Waves *)

Lemma rolling_waves_spec fuel batch idx targets :
  (length targets ≤ fuel)%nat → 0 < batch →
  let ws := rolling_waves fuel batch idx targets in
  concat (wv_Targets <$> ws) = targets ∧
  wv_Index <$> ws = (λ i, idx + Z.of_nat i) <$> seq 0 (length ws) ∧
  Forall (λ w, 0 < Z.of_nat (length (wv_Targets w)) ≤ batch) ws ∧
  (∀ i w, (S i < length ws)%nat → ws !! i = Some w → Z.of_nat (length (wv_Targets w)) = batch).
Proof.
  revert idx targets; induction fuel as [|fuel IH]; intros idx [|t targets] Hlen Hb; csimpl;
    try (simpl in Hlen; lia); try (split_and!; [done|done|constructor|intros; simpl in *; lia]).
  set (rest := drop (Z.to_nat batch) (t :: targets)).
  destruct (IH (idx + 1) rest) as (Hc & Hi & Hf & Hall); [|done|].
  { unfold rest. rewrite length_drop. simpl in *. lia. }
  assert (Z.of_nat (length (take (Z.to_nat batch) (t :: targets))) ≤ batch) as Hle by (rewrite length_take; lia).
  split_and!.
  - rewrite Hc. apply take_drop.
  - rewrite Hi, <-seq_shift, <-list_fmap_compose. f_equal; [lia|]. apply list_fmap_ext. intros i x _. simpl. lia.
  - constructor; [|done]. simpl. split; [|done]. rewrite length_take. simpl. lia.
  - intros [|i] w Hlt Hw; [|apply (Hall i); [simpl in Hlt; lia|done]].
    injection Hw as <-. simpl. rewrite length_take.
    assert (rest ≠ []) as Hne by (intros Hnil; rewrite Hnil in Hlt; simpl in Hlt; destruct fuel; simpl in Hlt; lia).
    assert ((0 < length rest)%nat) as Hpos by (destruct rest; [done|simpl; lia]). unfold rest in Hpos.
    rewrite length_drop in Hpos. lia.
Qed.

(** What [UpsertPolicy] stores. *)
Definition policy_ok (p : RolloutPolicy) : Prop :=
  ro_Strategy p ∈ strategies ∧ ro_Mode p ∈ modes ∧ 1 ≤ ro_BatchSize p ∧
  1 ≤ ro_BatchPercent p ≤ 100 ∧ 1 ≤ ro_CanaryPercent p ≤ 100.

Definition upsert_all (calls : list (RolloutPolicyInput * Time)) : RolloutControlStore :=
  foldl (λ s c, (UpsertPolicy c.1 c.2 s).1) NewRolloutControlStore calls.

Lemma percent_or_bounds d p : 1 ≤ d ≤ 100 → 1 ≤ percent_or d p ≤ 100.
Proof. unfold percent_or. destruct (Z.leb_spec p 0), (Z.ltb_spec 100 p); simpl; lia. Qed.

Lemma policies_ok calls : map_Forall (λ _ p, policy_ok p) (rc_policies (upsert_all calls)).
Proof.
  unfold upsert_all. assert (map_Forall (λ _ p, policy_ok p) (rc_policies NewRolloutControlStore)) as H by done.
  revert H. generalize NewRolloutControlStore. induction calls as [|c calls IH]; intros s Hs; [done|]. simpl. apply IH.
  unfold UpsertPolicy. destruct (eqs _ ""); [done|].
  destruct (one_of (norm (ro_in_Strategy c.1)) strategies) eqn:Hst; simpl; [apply one_of_true in Hst|done].
  destruct (one_of _ modes) eqn:Hm; simpl; [apply one_of_true in Hm|done].
  assert (∀ id, policy_ok (mkRolloutPolicy id (norm (ro_in_Environment c.1)) (norm (ro_in_Strategy c.1))
    (if eqs (norm (ro_in_Mode c.1)) "" then "serial" else norm (ro_in_Mode c.1))
    (if ro_in_BatchSize c.1 <=? 0 then 1 else ro_in_BatchSize c.1) (percent_or 25 (ro_in_BatchPercent c.1))
    (percent_or 10 (ro_in_CanaryPercent c.1)) (if ro_in_MaxUnavailable c.1 <=? 0 then 1 else ro_in_MaxUnavailable c.1) c.2)) as Hp.
  { intros id. unfold policy_ok. simpl. split_and!; try done; try (apply percent_or_bounds; lia).
    destruct (Z.leb_spec (ro_in_BatchSize c.1) 0); lia. }
  by destruct (rc_policies s !! _); simpl; apply map_Forall_insert_2.
Qed.

Lemma share_bounds n p : 1 ≤ n → 1 ≤ p ≤ 100 → 1 ≤ share n p ≤ n.
Proof. unfold share. intros. assert (n * p / 100 ≤ n) by (apply Z.div_le_upper_bound; nia). lia. Qed.

(** The number of targets a wave of a rolling plan has. *)
Definition asked_batch (p : RolloutPolicy) (n : Z) : Z :=
  if eqs (ro_Mode p) "batch" then Z.min n (ro_BatchSize p)
  else if eqs (ro_Mode p) "percentage" then Z.max 1 (n * ro_BatchPercent p / 100) else 1.

Lemma rolling_batch_spec p n : policy_ok p → 1 ≤ n → rolling_batch p n = asked_batch p n ∧ 1 ≤ asked_batch p n ≤ n.
Proof.
  intros (_ & _ & Hb & Hp & _) Hn. unfold rolling_batch, asked_batch.
  destruct (eqs (ro_Mode p) "batch"); [destruct (Z.ltb_spec n (ro_BatchSize p)); lia|].
  destruct (eqs (ro_Mode p) "percentage").
  - pose proof (share_bounds n (ro_BatchPercent p) Hn Hp). unfold share in *.
    destruct (Z.ltb_spec n (Z.max 1 (n * ro_BatchPercent p / 100))); lia.
  - destruct (Z.ltb_spec n 1); lia.
Qed.

Lemma default_policy_ok env : policy_ok (default_policy env).
Proof. unfold policy_ok. simpl. split_and!; try lia; set_solver. Qed.

(** C28: Rollout plans over the policies that [UpsertPolicy] stores (or the
    default one).  A plan is refused exactly when the environment or all targets
    are blank.  The waves of a rolling plan are the targets cut, in order, into
    batches of the size the mode asks for, only the last being smaller, and are
    numbered from 1; a canary plan is its share of the targets, at least one,
    followed by the others, if any; a blue-green plan has all targets twice. *)
Theorem rollout_plan calls environment targets :
  let s := upsert_all calls in
  let ts := rollout_targets targets in
  let n := Z.of_nat (length ts) in
  let p := default (default_policy (norm environment)) (rc_policies s !! norm environment) in
  let plan := PlanRollout environment targets s in
  let ws := rp_Waves plan in
  (rp_Allowed plan = true ↔ norm environment ≠ "" ∧ ts ≠ []) ∧
  (rp_Allowed plan = true →
    (ro_Strategy p = "rolling" →
       concat (wv_Targets <$> ws) = ts ∧ wv_Index <$> ws = (λ i, 1 + Z.of_nat i) <$> seq 0 (length ws) ∧
       1 ≤ asked_batch p n ≤ n ∧
       ∀ i w, ws !! i = Some w → 0 < Z.of_nat (length (wv_Targets w)) ≤ asked_batch p n ∧
         ((S i < length ws)%nat → Z.of_nat (length (wv_Targets w)) = asked_batch p n)) ∧
    (ro_Strategy p = "canary" →
       ∃ first rest, ts = first ++ rest ∧ Z.of_nat (length first) = Z.max 1 (n * ro_CanaryPercent p / 100) ∧
         ws = mkWave 1 first "canary" "canary wave" :: (if decide (rest = []) then [] else [mkWave 2 rest "promote" "promote after canary"])) ∧
    (ro_Strategy p = "blue-green" → ws = [mkWave 1 ts "blue-prepare" "prepare blue environment"; mkWave 2 ts "green-cutover" "switch traffic to green environment"])).
Proof.
  intros s ts n p plan ws. assert (policy_ok p) as Hp.
  { subst p. destruct (rc_policies s !! norm environment) as [q|] eqn:Hq; simpl; [by eapply policies_ok|apply default_policy_ok]. }
  subst ws plan. unfold PlanRollout. fold ts. cbn zeta. fold p.
  destruct (eqs (norm environment) "") eqn:He; [apply eqs_true in He; simpl; naive_solver|apply eqs_false in He].
  case_bool_decide as Hts; [simpl; naive_solver|]. cbn [rp_Allowed rp_Waves]. split; [naive_solver|]. intros _.
  assert (1 ≤ n) as Hn by (subst n; destruct ts; [done|simpl; lia]). unfold rollout_waves. fold n.
  split; [|split]; intros Hst; rewrite Hst; cbn -[rolling_waves].
  - destruct (rolling_batch_spec p n Hp Hn) as [-> Hb].
    destruct (rolling_waves_spec (length ts) (asked_batch p n) 1 ts) as (Hc & Hi & Hf & Hall); [done|lia|].
    split_and!; [done..|lia|lia|]. intros i w Hw. split; [by eapply Forall_lookup_1 in Hf|]. intros Hlt. by eapply Hall.
  - pose proof (share_bounds n (ro_CanaryPercent p) Hn) as Hs. destruct Hp as (_ & _ & _ & _ & Hcp). specialize (Hs Hcp).
    fold (share n (ro_CanaryPercent p)). set (size := share n (ro_CanaryPercent p)) in *.
    destruct (Z.ltb_spec n size); [lia|].
    exists (take (Z.to_nat size) ts), (drop (Z.to_nat size) ts). split_and!; [by rewrite take_drop|rewrite length_take; lia|].
    f_equal. destruct (Z.ltb_spec size n), (decide (drop (Z.to_nat size) ts = [])) as [Hd|Hd]; [| done|done|].
    + apply (f_equal length) in Hd. rewrite length_drop in Hd. simpl in Hd. lia.
    + destruct Hd. apply drop_ge. lia.
  - done.
Qed.

Definition wit_rollouts : list (RolloutPolicyInput * Time) :=
  [(mkRolloutInput "Prod " "rolling" "batch" 2 0 0 1, 5)].

Lemma rollout_plan_witness :
  concat (wv_Targets <$> rp_Waves (PlanRollout "prod" ["a"; " b"; ""; "c"] (upsert_all wit_rollouts))) = ["a"; "b"; "c"] ∧
  wv_Targets <$> rp_Waves (PlanRollout "prod" ["a"; " b"; ""; "c"] (upsert_all wit_rollouts)) = [["a"; "b"]; ["c"]].
Proof.
  split; [|by vm_compute].
  destruct (rollout_plan wit_rollouts "prod" ["a"; " b"; ""; "c"]) as [_ H].
  by destruct (proj1 (H eq_refl) eq_refl) as [Hc _].
Defined.

(** [MaxUnavailable] is stored but has no influence on any plan. *)
Theorem max_unavailable_ignored environment targets s s' :
  (∀ env, (λ p, (ro_ID p, ro_Strategy p, ro_Mode p, ro_BatchSize p, ro_BatchPercent p, ro_CanaryPercent p))
            <$> rc_policies s !! env =
          (λ p, (ro_ID p, ro_Strategy p, ro_Mode p, ro_BatchSize p, ro_BatchPercent p, ro_CanaryPercent p))
            <$> rc_policies s' !! env) →
  PlanRollout environment targets s = PlanRollout environment targets s'.
Proof.
  intros Heq. specialize (Heq (norm environment)). unfold PlanRollout. destruct (eqs _ ""); [done|].
  case_bool_decide; [done|].
  destruct (rc_policies s !! norm environment) as [p|], (rc_policies s' !! norm environment) as [p'|]; simpl in *; [|done..].
  injection Heq as H1 H2 H3 H4 H5 H6. unfold rollout_waves, rolling_batch. by rewrite H1, H2, H3, H4, H5, H6.
Qed.

(** ** Tenant limits *)

Record TenantLimitPolicyInput : Type := mkTenantInput {
  tl_in_Tenant : string;
  tl_in_RequestsPerMinute : Z;
  tl_in_MaxConcurrentRuns : Z;
  tl_in_MaxQueueSharePercent : Z;
  tl_in_Burst : Z;
}.

Record TenantLimitPolicy : Type := mkTenantPolicy {
  tl_ID : string;
  tl_Tenant : string;
  tl_RequestsPerMinute : Z;
  tl_MaxConcurrentRuns : Z;
  tl_MaxQueueSharePercent : Z;
  tl_Burst : Z;
  tl_UpdatedAt : Time;
}.

Record TenantAdmissionInput : Type := mkAdmission {
  ta_Tenant : string;
  ta_RequestedRuns : Z;
  ta_CurrentRuns : Z;
  ta_QueueDepth : Z;
  ta_TenantQueued : Z;
}.

Record TenantAdmissionDecision : Type := mkDecision {
  td_Allowed : bool;
  td_Tenant : string;
  td_PolicyID : string;
  td_Reason : string;
  td_ThrottleFor : Z;
}.

Record TenantLimitStore : Type := mkTenants {
  tn_nextID : Z;
  tn_policies : gmap string TenantLimitPolicy;
  tn_byTenant : gmap string string;
}.

Inductive tenant_error := TenantRequired | TenantValues.

Definition NewTenantLimitStore : TenantLimitStore := mkTenants 0 ∅ ∅.

Definition UpsertTenant (i : TenantLimitPolicyInput) (now : Time) (s : TenantLimitStore)
    : TenantLimitStore * result tenant_error TenantLimitPolicy :=
  let tenant := norm (tl_in_Tenant i) in
  if eqs tenant "" then (s, Err TenantRequired) else
  if (tl_in_RequestsPerMinute i <=? 0) || (tl_in_MaxConcurrentRuns i <=? 0)
     || (tl_in_MaxQueueSharePercent i <=? 0) || (100 <? tl_in_MaxQueueSharePercent i)
  then (s, Err TenantValues) else
  let burst := if tl_in_Burst i <=? 0 then Z.max 1 (Z.quot (tl_in_RequestsPerMinute i) 5) else tl_in_Burst i in
  let item id := mkTenantPolicy id tenant (tl_in_RequestsPerMinute i) (tl_in_MaxConcurrentRuns i)
                   (tl_in_MaxQueueSharePercent i) burst now in
  match tn_byTenant s !! tenant with
  | Some id => (mkTenants (tn_nextID s) (<[id := item id]> (tn_policies s)) (tn_byTenant s), Ok (item id))
  | None =>
      let next := tn_nextID s + 1 in
      let id := "tenant-policy-" +:+ itoa next in
      (mkTenants next (<[id := item id]> (tn_policies s)) (<[tenant := id]> (tn_byTenant s)), Ok (item id))
  end.

Definition by_tenant (p q : TenantLimitPolicy) : Prop := String.le (tl_Tenant p) (tl_Tenant q).
#[export] Instance by_tenant_dec p q : Decision (by_tenant p q).
Proof. unfold by_tenant. apply _. Defined.
Definition ListTenants (s : TenantLimitStore) : list TenantLimitPolicy :=
  merge_sort by_tenant (map_to_list (tn_policies s)).*2.

Definition byTenantPolicy (tenant : string) (s : TenantLimitStore) : option TenantLimitPolicy :=
  id ← tn_byTenant s !! norm tenant; tn_policies s !! id.

(** [int] arithmetic: the sum and the product wrap around. *)
Definition Admit (i : TenantAdmissionInput) (s : TenantLimitStore) : TenantAdmissionDecision :=
  let tenant := norm (ta_Tenant i) in
  match byTenantPolicy tenant s with
  | None => mkDecision true tenant "" "no tenant policy configured" 0
  | Some p =>
      if tl_MaxConcurrentRuns p <? wrap64 (ta_CurrentRuns i + ta_RequestedRuns i)
      then mkDecision false tenant (tl_ID p) "max concurrent runs exceeded" 60
      else if (0 <? ta_QueueDepth i) &&
              (tl_MaxQueueSharePercent p <? Z.quot (wrap64 (ta_TenantQueued i * 100)) (ta_QueueDepth i))
      then mkDecision false tenant (tl_ID p) "queue share exceeds noisy-neighbor threshold" 30
      else mkDecision true tenant (tl_ID p) "within tenant limits" 0
  end.

(** Admission is exact while the counts are those of a real system. *)
Theorem admission_exact i s :
  0 ≤ ta_CurrentRuns i < 2 ^ 50 → 0 ≤ ta_RequestedRuns i < 2 ^ 50 → 0 ≤ ta_TenantQueued i < 2 ^ 50 →
  td_Allowed (Admit i s) = true ↔
  ∀ p, byTenantPolicy (ta_Tenant i) s = Some p →
    ta_CurrentRuns i + ta_RequestedRuns i ≤ tl_MaxConcurrentRuns p ∧
    (0 < ta_QueueDepth i → ta_TenantQueued i * 100 < (tl_MaxQueueSharePercent p + 1) * ta_QueueDepth i).
Proof.
  intros Hc Hr Hq. unfold Admit, byTenantPolicy. rewrite norm_idemp. fold (byTenantPolicy (ta_Tenant i) s).
  destruct (byTenantPolicy (ta_Tenant i) s) as [p|]; [|naive_solver].
  rewrite !wrap64_small by (unfold int64, min_int64, max_int64; lia).
  destruct (Z.ltb_spec (tl_MaxConcurrentRuns p) (ta_CurrentRuns i + ta_RequestedRuns i)); simpl.
  { split; [done|]. intros Hp. destruct (Hp p eq_refl). lia. }
  destruct (Z.ltb_spec 0 (ta_QueueDepth i)) as [Hd|]; simpl.
  - rewrite Z.quot_div_nonneg by lia.
    destruct (Z.ltb_spec (tl_MaxQueueSharePercent p) (ta_TenantQueued i * 100 / ta_QueueDepth i)) as [Hlt|Hle]; simpl.
    + split; [done|]. intros Hp. destruct (Hp p eq_refl) as [_ Hs]. specialize (Hs Hd).
      pose proof (Z.mul_div_le (ta_TenantQueued i * 100) (ta_QueueDepth i) Hd). nia.
    + split; [|done]. intros _ p' [= <-]. split; [lia|]. intros _.
      pose proof (Z.mul_succ_div_gt (ta_TenantQueued i * 100) (ta_QueueDepth i) Hd). nia.
  - split; [|done]. intros _ p' [= <-]. split; lia.
Qed.

(** The sum of the runs can overflow: the largest [int] of running jobs and one
    more are admitted under any limit. *)
Theorem admission_overflow tenant s :
  td_Allowed (Admit (mkAdmission tenant 1 max_int64 0 0) s) = true ∨
  ∃ p, byTenantPolicy tenant s = Some p ∧ tl_MaxConcurrentRuns p < min_int64.
Proof.
  unfold Admit. simpl. unfold byTenantPolicy at 1. rewrite norm_idemp. fold (byTenantPolicy tenant s).
  destruct (byTenantPolicy tenant s) as [p|]; [|by left].
  change (wrap64 (max_int64 + 1)) with min_int64.
  destruct (Z.ltb_spec (tl_MaxConcurrentRuns p) min_int64); [right; eauto|by left].
Qed.

(** ** Disruption budgets *)

Record DisruptionBudget : Type := mkBudget {
  db_ID : string;
  db_Name : string;
  db_Scope : string;
  db_MaxUnavailable : Z;
  db_MinHealthyPct : Z;
  db_CreatedAt : Time;
  db_UpdatedAt : Time;
}.

Record DisruptionBudgetEvaluation : Type := mkEvaluation {
  de_BudgetID : string;
  de_Allowed : bool;
  de_Reason : string;
  de_TotalTargets : Z;
  de_RequestedDisruptions : Z;
  de_RemainingHealthyCount : Z;
  de_HealthyPctAfter : Z;
}.

Record DisruptionBudgetStore : Type := mkBudgets { dn_nextID : Z; dn_budgets : gmap string DisruptionBudget }.

Definition NewDisruptionBudgetStore : DisruptionBudgetStore := mkBudgets 0 ∅.

(** [None] is the error for a blank name. *)
Definition CreateBudget (name scope : string) (maxUnavailable minHealthyPct : Z) (now : Time)
    (s : DisruptionBudgetStore) : DisruptionBudgetStore * option DisruptionBudget :=
  let name := TrimSpace name in
  if eqs name "" then (s, None) else
  let maxUnavailable := if maxUnavailable <=? 0 then 1 else maxUnavailable in
  let minHealthyPct := if minHealthyPct <=? 0 then 90 else minHealthyPct in
  let minHealthyPct := if 100 <? minHealthyPct then 100 else minHealthyPct in
  let next := dn_nextID s + 1 in
  let item := mkBudget ("budget-" +:+ itoa next) name (TrimSpace scope) maxUnavailable minHealthyPct now now in
  (mkBudgets next (<[db_ID item := item]> (dn_budgets s)), Some item).

Definition budget_later (b q : DisruptionBudget) : Prop := db_CreatedAt q ≤ db_CreatedAt b.
#[export] Instance budget_later_dec b q : Decision (budget_later b q).
Proof. unfold budget_later. apply _. Defined.
Definition ListBudgets (s : DisruptionBudgetStore) : list DisruptionBudget :=
  merge_sort budget_later (map_to_list (dn_budgets s)).*2.
Definition GetBudget (id : string) (s : DisruptionBudgetStore) : option DisruptionBudget := dn_budgets s !! TrimSpace id.

Definition over_max : string := "requested disruptions exceed max_unavailable".
Definition under_min : string := "healthy percentage after disruption below min_healthy_pct".

Definition EvaluateDisruptionBudget (b : DisruptionBudget) (totalTargets requestedDisruptions : Z)
    : DisruptionBudgetEvaluation :=
  let total := if totalTargets <? 0 then 0 else totalTargets in
  let requested := if requestedDisruptions <? 0 then 0 else requestedDisruptions in
  let remaining := wrap64 (total - requested) in
  let remaining := if remaining <? 0 then 0 else remaining in
  let healthyPct := if 0 <? total then Z.quot (wrap64 (remaining * 100)) total else 100 in
  let '(allowed, reason) := if db_MaxUnavailable b <? requested then (false, over_max) else (true, "") in
  let '(allowed, reason) :=
    if healthyPct <? db_MinHealthyPct b
    then (false, if eqs reason "" then under_min else reason +:+ "; " +:+ under_min)
    else (allowed, reason) in
  mkEvaluation (db_ID b) allowed reason total requested remaining healthyPct.

(** A disruption is allowed exactly when it is within [MaxUnavailable] and leaves
    enough of the targets healthy, while a hundred times the targets is an [int]. *)
Theorem disruption_exact b total requested :
  0 ≤ total < 2 ^ 50 → 0 ≤ requested < 2 ^ 50 → 0 ≤ db_MinHealthyPct b ≤ 100 →
  de_Allowed (EvaluateDisruptionBudget b total requested) = true ↔
  requested ≤ db_MaxUnavailable b ∧
  (0 < total → db_MinHealthyPct b * total ≤ 100 * Z.max 0 (total - requested)).
Proof.
  intros Ht Hr Hm. unfold EvaluateDisruptionBudget.
  destruct (Z.ltb_spec total 0); [lia|]. destruct (Z.ltb_spec requested 0); [lia|].
  rewrite (wrap64_small (total - requested)) by (unfold int64, min_int64, max_int64; lia).
  set (rem := if total - requested <? 0 then 0 else total - requested).
  assert (rem = Z.max 0 (total - requested)) as Hrem by (subst rem; destruct (Z.ltb_spec (total - requested) 0); lia).
  rewrite <-Hrem. clearbody rem.
  rewrite wrap64_small by (unfold int64, min_int64, max_int64; lia).
  destruct (Z.ltb_spec 0 total) as [Hpos|].
  - rewrite Z.quot_div_nonneg by lia.
    assert (rem * 100 / total < db_MinHealthyPct b ↔ 100 * rem < db_MinHealthyPct b * total) as Hdiv.
    { pose proof (Z.mul_div_le (rem * 100) total Hpos). pose proof (Z.mul_succ_div_gt (rem * 100) total Hpos). nia. }
    destruct (Z.ltb_spec (db_MaxUnavailable b) requested), (Z.ltb_spec (rem * 100 / total) (db_MinHealthyPct b));
      simpl; split; try done; intros; try lia.
  - destruct (Z.ltb_spec (db_MaxUnavailable b) requested), (Z.ltb_spec 100 (db_MinHealthyPct b));
      simpl; split; try done; intros; lia.
Qed.

(** ** Partitions of the scheduler *)

Record SchedulerPartitionRule : Type := mkRule {
  sp_ID : string;
  sp_Tenant : string;
  sp_Environment : string;
  sp_Region : string;
  sp_Shard : string;
  sp_Weight : Z;
  sp_MaxParallel : Z;
  sp_UpdatedAt : Time;
}.

Record SchedulerPartitionDecision : Type := mkPartition {
  pd_Tenant : string;
  pd_Environment : string;
  pd_Region : string;
  pd_Shard : string;
  pd_MaxParallel : Z;
  pd_RuleID : string;
  pd_Reason : string;
}.

Record SchedulerPartitionStore : Type := mkPartitions { pn_next : Z; pn_rules : gmap string SchedulerPartitionRule }.

Definition NewSchedulerPartitionStore : SchedulerPartitionStore := mkPartitions 0 ∅.

(** [None] is the error for a blank tenant or shard. *)
Definition UpsertRule (tenant environment region shard : string) (weight maxParallel : Z) (now : Time)
    (s : SchedulerPartitionStore) : SchedulerPartitionStore * option SchedulerPartitionRule :=
  let tenant := norm tenant in
  let shard := norm shard in
  if eqs tenant "" || eqs shard "" then (s, None) else
  let weight := if weight <=? 0 then 100 else weight in
  let maxParallel := if maxParallel <=? 0 then 50 else maxParallel in
  let next := pn_next s + 1 in
  let item := mkRule ("partition-rule-" +:+ itoa next) tenant (norm environment) (norm region) shard weight maxParallel now in
  (mkPartitions next (<[sp_ID item := item]> (pn_rules s)), Some item).

(** The [less] of [List], as an order: by tenant, then shard. *)
Definition by_tenant_shard (p q : SchedulerPartitionRule) : Prop :=
  if decide (sp_Tenant p = sp_Tenant q) then String.le (sp_Shard p) (sp_Shard q)
  else String.le (sp_Tenant p) (sp_Tenant q).
#[export] Instance by_tenant_shard_dec p q : Decision (by_tenant_shard p q).
Proof. unfold by_tenant_shard. case_decide; apply _. Defined.

Definition ListRules (s : SchedulerPartitionStore) : list SchedulerPartitionRule :=
  merge_sort by_tenant_shard (map_to_list (pn_rules s)).*2.
Definition GetRule (id : string) (s : SchedulerPartitionStore) : option SchedulerPartitionRule :=
  pn_rules s !! TrimSpace id.

Definition deterministicIndex (key : string) (m : Z) : Z := if m <=? 1 then 0 else fnv32a key mod m.

Definition deterministicShard (key : string) (count : Z) : string :=
  let count := if count <=? 0 then 8 else count in
  "shard-" +:+ itoa (deterministicIndex key count + 1).

Definition rule_matches (tenant env region : string) (r : SchedulerPartitionRule) : bool :=
  eqs (sp_Tenant r) tenant && (eqs (sp_Environment r) "" || eqs (sp_Environment r) env)
  && (eqs (sp_Region r) "" || eqs (sp_Region r) region).

(** [rules] are those of the store in the order [List] returned. *)
Definition decide_listed (tenant environment region workloadKey : string) (rules : list SchedulerPartitionRule)
    : SchedulerPartitionDecision :=
  let tenant := norm tenant in
  let env := norm environment in
  let region := norm region in
  let key := if eqs (TrimSpace workloadKey) "" then tenant +:+ ":" +:+ env +:+ ":" +:+ region else TrimSpace workloadKey in
  let candidates := filter (λ r, rule_matches tenant env region r = true) rules in
  match candidates !! Z.to_nat (deterministicIndex key (Z.of_nat (length candidates))) with
  | None => mkPartition tenant env region (deterministicShard key 8) 25 "" "default deterministic shard assignment"
  | Some picked =>
      mkPartition tenant env region (sp_Shard picked) (sp_MaxParallel picked) (sp_ID picked) "matched tenant partition rule"
  end.

Definition Decide (tenant environment region workloadKey : string) (s : SchedulerPartitionStore)
    : SchedulerPartitionDecision :=
  decide_listed tenant environment region workloadKey (ListRules s).

Lemma deterministicIndex_bounds key m : 0 < m → 0 ≤ deterministicIndex key m < m.
Proof. unfold deterministicIndex. destruct (Z.leb_spec m 1); [lia|]. pose proof (Z.mod_pos_bound (fnv32a key) m). lia. Qed.

(** A decision is one of the rules that match, and the default only without one. *)
Theorem partition_matches tenant environment region key rules :
  let d := decide_listed tenant environment region key rules in
  let ok r := rule_matches (norm tenant) (norm environment) (norm region) r = true in
  (pd_Reason d = "default deterministic shard assignment" ∧ pd_RuleID d = "" ∧ (∀ r, r ∈ rules → ¬ ok r)) ∨
  (∃ r, r ∈ rules ∧ ok r ∧ pd_RuleID d = sp_ID r ∧ pd_Shard d = sp_Shard r ∧ pd_MaxParallel d = sp_MaxParallel r).
Proof.
  cbn zeta. unfold decide_listed. set (cands := filter _ rules). set (k := if eqs (TrimSpace key) "" then _ else _).
  destruct (cands !! _) as [r|] eqn:Hr.
  - right. apply list_elem_of_lookup_2, list_elem_of_filter in Hr as [Hok Hin]. exists r. by split_and!.
  - left. split_and!; [done..|]. intros r Hin Hok.
    assert (r ∈ cands) as Hc by by apply list_elem_of_filter.
    assert ((0 < length cands)%nat) as Hpos by (destruct cands; [by apply not_elem_of_nil in Hc|simpl; lia]).
    pose proof (deterministicIndex_bounds k (Z.of_nat (length cands)) ltac:(lia)).
    apply lookup_ge_None in Hr. lia.
Qed.

(** Two rules of one tenant and shard are listed in any order, and the decision
    goes by the position: the assignment is not deterministic. *)
Definition tied_rules : SchedulerPartitionStore :=
  (UpsertRule "acme" "prod" "" "s1" 0 7 2 (UpsertRule "acme" "" "" "s1" 0 3 1 NewSchedulerPartitionStore).1).1.

Theorem partition_not_deterministic :
  ∃ rules rules', rules ≡ₚ (map_to_list (pn_rules tied_rules)).*2 ∧ rules' ≡ₚ rules ∧
    StronglySorted by_tenant_shard rules ∧ StronglySorted by_tenant_shard rules' ∧
    pd_MaxParallel (decide_listed "acme" "prod" "" "job" rules) ≠ pd_MaxParallel (decide_listed "acme" "prod" "" "job" rules').
Proof.
  set (rules := (map_to_list (pn_rules tied_rules)).*2). vm_compute in rules.
  exists rules, (reverse rules). split_and!; [by vm_compute|apply reverse_Permutation|..|by vm_compute];
    repeat constructor; by vm_compute.
Qed.
