(* ===== verification/Json.v ===== *)
(** * JSON values and their deep merge

    What [encoding/json] decodes into [any]: an object is a map from names to
    values.  Numbers are float64, a parameter.  [json.Marshal] followed by
    [json.Unmarshal] gives such a value back, so the clones of the code are the
    identity here.  [mergeRoleEnvMap] ([internal/control/roleenv.go]) is the
    merge of the roles; that of [variables.go] gives the same ([Variables]). *)

From S2P Require Import Prelude.

(** float64 as the code uses it: values that are written alike are equal. *)
Class Number := {
  number : Type;
  number_eq_dec :: EqDecision number;
}.

Inductive json `{Number} :=
  | JNull
  | JBool (b : bool)
  | JNumber (n : number)
  | JString (s : string)
  | JArray (l : list json)
  | JObject (m : gmap string json).

(** [map[string]any]; a [nil] and an empty map are one value. *)
Abbreviation object := (gmap string json).

Section merging.
Context `{Number}.

(** [dst[k]] after the merge of [v] over what was there. *)
Fixpoint merge_value (existing : option json) (v : json) : json :=
  match existing, v with
  | Some (JObject d), JObject s => JObject (map_fold (λ k v out, <[k := merge_value (d !! k) v]> out) d s)
  | _, _ => v
  end.

Definition mergeRoleEnvMap (dst src : object) : object :=
  map_fold (λ k v out, <[k := merge_value (dst !! k) v]> out) dst src.
End merging.

#[export] Instance json_eq_dec `{Number} : EqDecision json.
Proof.
  refine (fix go v w : Decision (v = w) :=
    let _ : EqDecision json := @go in
    match v, w with
    | JNull, JNull => left eq_refl
    | JBool b, JBool c => cast_if (decide (b = c))
    | JNumber n, JNumber m => cast_if (decide (n = m))
    | JString s, JString t => cast_if (decide (s = t))
    | JArray l, JArray k => cast_if (decide (l = k))
    | JObject m, JObject o => cast_if (decide (m = o))
    | _, _ => right _
    end); try (match goal with r := _ : EqDecision json |- _ => clear r end); clear go; abstract congruence.
Defined.

(** ** What a merge contains *)

Section merged.
Context `{Number}.

Lemma map_fold_insert_lookup {A} (f : string → A → A) (d s : gmap string A) k :
  map_fold (λ k v out, <[k := f k v]> out) d s !! k = match s !! k with Some v => Some (f k v) | None => d !! k end.
Proof.
  revert k. apply (map_fold_weak_ind (λ out s, ∀ k, out !! k = match s !! k with Some v => Some (f k v) | None => d !! k end)).
  - intros k. by rewrite lookup_empty.
  - intros k v s' out _ IH j. destruct (decide (j = k)) as [->|Hne]; [by rewrite !lookup_insert_eq|].
    by rewrite !lookup_insert_ne.
Qed.

Lemma merge_lookup d s k :
  mergeRoleEnvMap d s !! k = match s !! k with Some v => Some (merge_value (d !! k) v) | None => d !! k end.
Proof. apply (map_fold_insert_lookup (λ k v, merge_value (d !! k) v)). Qed.

Lemma merge_value_objects d s : merge_value (Some (JObject d)) (JObject s) = JObject (mergeRoleEnvMap d s).
Proof. done. Qed.

Definition is_object (v : json) : bool := match v with JObject _ => true | _ => false end.

Lemma merge_value_other existing v : is_object v = false ∨ (∀ d, existing ≠ Some (JObject d)) → merge_value existing v = v.
Proof. destruct v, existing as [[]|]; try done. intros [|Hne]; [done|]. by destruct (Hne m0). Qed.

(** The loop of the code, in any order of the entries. *)
Definition merge_entry (out : object) (e : string * json) : object := <[e.1 := merge_value (out !! e.1) e.2]> out.

Lemma merge_any_order (ro : map_order json) d s : foldl merge_entry d (range ro s) = mergeRoleEnvMap d s.
Proof.
  assert (∀ l d k, NoDup l.*1 → foldl merge_entry d l !! k =
    match list_to_map (M := object) l !! k with Some v => Some (merge_value (d !! k) v) | None => d !! k end) as Hl.
  { clear. intros l. induction l as [|[j v] l IH]; intros d k Hnd; [simpl; by rewrite lookup_empty|].
    apply NoDup_cons in Hnd as [Hj Hnd]. simpl. rewrite IH by done. unfold merge_entry. simpl.
    destruct (decide (k = j)) as [->|Hne]; [|by rewrite !lookup_insert_ne].
    rewrite !lookup_insert_eq. by rewrite not_elem_of_list_to_map_1. }
  apply map_eq. intros k. rewrite Hl by apply NoDup_range. rewrite merge_lookup.
  assert (list_to_map (M := object) (range ro s) = s) as ->; [|done].
  rewrite <-(list_to_map_to_list s) at 2. apply list_to_map_proper; [apply NoDup_range|apply range_perm].
Qed.

(** The value at a path of names. *)
Fixpoint at_path (p : list string) (v : json) : option json :=
  match p with
  | [] => Some v
  | k :: p => match v with JObject m => m !! k ≫= at_path p | _ => None end
  end.

(** [v] has nothing to say about the path [p]: nothing is there, and nothing but
    objects on the way. *)
Fixpoint silent (p : list string) (v : json) : Prop :=
  match p, v with
  | k :: p, JObject m => match m !! k with None => True | Some w => silent p w end
  | _, _ => False
  end.

Lemma merge_value_cases existing v :
  (∃ d s, existing = Some (JObject d) ∧ v = JObject s ∧ merge_value existing v = JObject (mergeRoleEnvMap d s)) ∨
  merge_value existing v = v ∧ (is_object v = false ∨ ∀ d, existing ≠ Some (JObject d)).
Proof.
  destruct v as [| | | | |s]; try (right; split; [by destruct existing as [[]|]|by left]).
  destruct existing as [[| | | | |d]|]; [right..|left|right]; eauto 6.
Qed.

(** Above [d] a value of [s] that is no object wins, and where [s] is silent [d] shows. *)
Lemma merge_leaf p d s v :
  is_object v = false → at_path p (JObject s) = Some v → at_path p (JObject (mergeRoleEnvMap d s)) = Some v.
Proof.
  intros Hv. revert d s. induction p as [|k p IH]; intros d s; [by intros [= <-]|]. cbn [at_path].
  rewrite merge_lookup. destruct (s !! k) as [w|]; [|done]. cbn [mbind option_bind].
  destruct (merge_value_cases (d !! k) w) as [(d' & s' & _ & -> & ->)|[-> _]]; [apply IH|done].
Qed.

Lemma silent_at_path p v : silent p v → at_path p v = None.
Proof.
  revert v. induction p as [|k p IH]; intros v; [by destruct v|]. destruct v as [| | | | |m]; try done. simpl.
  destruct (m !! k) as [w|]; [|done]. apply IH.
Qed.

Lemma merge_silent p d s : silent p (JObject s) → at_path p (JObject (mergeRoleEnvMap d s)) = at_path p (JObject d).
Proof.
  revert d s. induction p as [|k p IH]; intros d s; [done|]. cbn [at_path silent].
  rewrite merge_lookup. destruct (s !! k) as [w|]; [|done]. cbn [mbind option_bind]. intros Hw.
  destruct (merge_value_cases (d !! k) w) as [(d' & s' & -> & -> & ->)|[-> Hno]]; [by apply IH|].
  rewrite (silent_at_path p w) by done. destruct p as [|j p]; [by destruct w|].
  destruct Hno as [Hno|Hno]; [by destruct w|]. destruct (d !! k) as [[| | | | |m]|] eqn:Hd; try done. by destruct (Hno m).
Qed.

(** Layers merged in order. *)
Definition merge_all (layers : list object) : object := foldl mergeRoleEnvMap ∅ layers.

Lemma merge_all_leaf p l1 m l2 v :
  is_object v = false → at_path p (JObject m) = Some v → Forall (λ m', silent p (JObject m')) l2 →
  at_path p (JObject (merge_all (l1 ++ m :: l2))) = Some v.
Proof.
  intros Hv Hm Hl2. unfold merge_all. rewrite foldl_app. simpl. generalize (foldl mergeRoleEnvMap ∅ l1). intros d.
  apply (merge_leaf p d) in Hm; [|done]. revert Hm. generalize (mergeRoleEnvMap d m). clear d m.
  induction Hl2 as [|m' l2 Hm' _ IH]; intros d Hd; [done|]. simpl. apply IH. by rewrite merge_silent.
Qed.

Lemma merge_all_silent p layers :
  p ≠ [] → Forall (λ m, silent p (JObject m)) layers → at_path p (JObject (merge_all layers)) = None.
Proof.
  intros Hp Hl. assert (at_path p (JObject ∅) = None) as Hd by by destruct p; [|simpl; rewrite lookup_empty].
  unfold merge_all. revert Hd. generalize (∅ : object).
  induction Hl as [|m layers Hm _ IH]; intros d Hd; [done|]. simpl. apply IH. by rewrite merge_silent.
Qed.
End merged.

(** ** Fields of records by path, and their text

    The rule book ([internal/control/rulebook.go]) and the query endpoint
    ([internal/server/query.go]) look fields of a decoded record up by a path
    with dots and compare their text. *)

(** [strings.Split(s, ".")] *)
Fixpoint split_dots (s : string) : list string :=
  match s with
  | EmptyString => [""]
  | String c s =>
      if bool_decide (c = "."%char) then "" :: split_dots s
      else match split_dots s with p :: ps => String c p :: ps | [] => [String c ""] end
  end.

(** The text of a float64 under [%v]. *)
Class NumberText `{Number} := { number_text : number → string }.

(** [fmt.Sprintf("%v", v)] for a decoded value; the entries of a map are sorted. *)
Fixpoint Sprint `{NumberText} (v : json) : string :=
  match v with
  | JNull => "<nil>"
  | JBool b => if b then "true" else "false"
  | JNumber n => number_text n
  | JString s => s
  | JArray l => "[" +:+ Join (Sprint <$> l) " " +:+ "]"
  | JObject m =>
      let entries := map_fold (λ k v out, (k, Sprint v) :: out) [] m in
      "map[" +:+ Join ((λ e, e.1 +:+ ":" +:+ e.2) <$> merge_sort (λ x y, String.le x.1 y.1) entries) " " +:+ "]"
  end.
