(* ===== verification/JsonDir.v ===== *)
(** * Directories of JSON files

    Several stores keep one JSON file per item in a directory, and read the
    files back with [filepath.Glob] when the process starts.  This file has the
    disk they write to, the paths and the glob, and the theory of a directory
    that holds the items of a map: what a write and a removal do to it, and that
    reading it back gives the map. *)

From S2P Require Import Prelude Path.

(** A disk maps paths to contents. *)
Abbreviation Disk := (gmap string string).

(** [filepath.Glob(filepath.Join(root, "*.json"))] for a root without
    metacharacters: the files of the directory, sorted. *)
Definition glob_json (root : string) (disk : Disk) : list string :=
  sort_strings (filter (λ p, (HasSuffix (after_slash p) ".json" && eqs p (filepath_Join [root; after_slash p])) = true)
    (elements (dom disk))).

Definition json_path (root name : string) : string := filepath_Join [root; name +:+ ".json"].

(** ** Paths *)

Lemma append_cancel_r s t u : s +:+ u = t +:+ u → s = t.
Proof.
  revert t; induction s as [|c s IH]; intros [|d t]; rewrite ?append_nil, ?append_cons; intros Heq; [done|..].
  - apply (f_equal String.length) in Heq. simpl in Heq. rewrite length_append in Heq. lia.
  - apply (f_equal String.length) in Heq. simpl in Heq. rewrite length_append in Heq. lia.
  - injection Heq as -> Heq. by rewrite (IH t).
Qed.

Lemma append_nonempty s t : t ≠ "" → s +:+ t ≠ "".
Proof. intros Ht Heq%(f_equal String.length). rewrite length_append in Heq. destruct t; [done|]. simpl in Heq. lia. Qed.

Lemma Contains_slash_app s t : Contains (s +:+ t) "/" = Contains s "/" || Contains t "/".
Proof.
  induction s as [|c s IH]; [by rewrite append_nil|].
  rewrite append_cons, !Contains_slash_cons, IH. by rewrite orb_assoc.
Qed.

Lemma HasSuffix_app s suf : HasSuffix (s +:+ suf) suf = true.
Proof.
  induction s as [|c s IH]; [rewrite append_nil|rewrite append_cons; cbn [HasSuffix]; rewrite IH; apply orb_true_r].
  destruct suf; cbn [HasSuffix]; by rewrite bool_decide_eq_true_2.
Qed.

(** A name the directory has a place for. *)
Definition plain (n : string) : Prop := Contains n "/" = false ∧ n ≠ "".

Lemma json_file_name n : plain n → file_name (n +:+ ".json").
Proof.
  intros [Hs Hn]. split; [by rewrite Contains_slash_app, Hs|]. destruct n as [|c n]; [done|].
  split_and!; intros Heq; apply (f_equal String.length) in Heq; rewrite length_append in Heq; simpl in Heq; lia.
Qed.

Lemma Join_file_nonempty d b : d ≠ "" → file_name b → filepath_Join [d; b] ≠ "".
Proof. intros Hd Hb. rewrite filepath_Join_file by done. apply append_nonempty. apply Hb. Qed.

Lemma Join_two_nonempty base x y : x ≠ "" → file_name y → filepath_Join [base; x; y] ≠ "".
Proof.
  intros Hx Hy. destruct (eqs base "") eqn:Hb.
  - pose proof (Join_file_nonempty x y Hx Hy) as Hj. simpl in *. rewrite Hb. by rewrite (proj2 (eqs_false x "")) in *.
  - assert (base +:+ "/" +:+ x ≠ "") as Hne by by apply append_nonempty.
    pose proof (Join_file_nonempty _ y Hne Hy) as Hj. simpl in *. rewrite Hb.
    rewrite (proj2 (eqs_false _ "") Hne) in Hj. rewrite !append_assoc in Hj. done.
Qed.

(** ** The files of a directory *)

Section paths.
Variable root : string.
Hypothesis Hroot : root ≠ "".

Lemma path_eq n : plain n → json_path root n = dir_prefix root +:+ n +:+ ".json".
Proof. intros. apply filepath_Join_file; [done|by apply json_file_name]. Qed.

Lemma path_inj n m : plain n → plain m → json_path root n = json_path root m → n = m.
Proof. intros ??. rewrite !path_eq by done. intros Heq%(inj (String.app _)). by apply append_cancel_r in Heq. Qed.

Lemma elem_of_glob p d :
  p ∈ glob_json root d ↔ is_Some (d !! p) ∧
    (HasSuffix (after_slash p) ".json" && eqs p (filepath_Join [root; after_slash p])) = true.
Proof.
  unfold glob_json. rewrite elem_of_sort_strings, list_elem_of_filter, elem_of_elements, elem_of_dom. tauto.
Qed.

Lemma after_slash_path n : plain n → after_slash (json_path root n) = n +:+ ".json".
Proof. intros. apply after_slash_Join; [done|by apply json_file_name]. Qed.

Lemma path_in_glob n d : plain n → json_path root n ∈ glob_json root d ↔ is_Some (d !! json_path root n).
Proof.
  intros Hn. rewrite elem_of_glob. split; [tauto|]. intros Hd. split; [done|].
  rewrite after_slash_path, HasSuffix_app by done. apply eqs_refl.
Qed.
End paths.

(** A file of one directory is no file of another one. *)
Lemma path_other root root' n d :
  root ≠ "" → root' ≠ "" → dir_prefix root ≠ dir_prefix root' → plain n → json_path root n ∉ glob_json root' d.
Proof.
  intros Hr Hr' Hne Hn [_ [_ Heq%eqs_true]%andb_true_iff]%elem_of_glob. rewrite after_slash_path in Heq by done.
  rewrite path_eq, filepath_Join_file in Heq by (done || by apply json_file_name). by apply append_cancel_r in Heq.
Qed.

Lemma path_other_eq root root' n m :
  root ≠ "" → root' ≠ "" → dir_prefix root ≠ dir_prefix root' → plain n → plain m → json_path root n ≠ json_path root' m.
Proof.
  intros Hr Hr' Hne Hn Hm Heq. pose proof (f_equal after_slash Heq) as Hs. rewrite !after_slash_path in Hs by done.
  rewrite !path_eq, Hs in Heq by done. by apply append_cancel_r in Heq.
Qed.

(** ** A directory that holds a map *)

Section directory.
Context {A : Type}.
Variable dir : string.
(** How a file is read back: the name and the item, or it is skipped. *)
Variable decode : string → option (string * A).
Variable content : A → string.

Definition load_item (disk : Disk) (m : gmap string A) (path : string) : gmap string A :=
  match disk !! path ≫= decode with Some (n, a) => <[n := a]> m | None => m end.

Definition load_dir (disk : Disk) (m : gmap string A) : gmap string A := foldl (load_item disk) m (glob_json dir disk).

(** Each item is in its file, each JSON file is an item's. *)
Record dir_holds (m : gmap string A) (disk : Disk) : Prop := {
  dh_names : map_Forall (λ n a, plain n ∧ decode (content a) = Some (n, a)) m;
  dh_files : map_Forall (λ n a, disk !! json_path dir n = Some (content a)) m;
  dh_only p : p ∈ glob_json dir disk → ∃ n, is_Some (m !! n) ∧ p = json_path dir n;
}.

Hypothesis Hdir : dir ≠ "".

Lemma load_items m disk ps acc n :
  dir_holds m disk → (∀ p, p ∈ ps → ∃ n, is_Some (m !! n) ∧ p = json_path dir n) → plain n ∨ m !! n = None →
  foldl (load_item disk) acc ps !! n = if bool_decide (json_path dir n ∈ ps ∧ is_Some (m !! n)) then m !! n else acc !! n.
Proof.
  intros [Hnames Hfiles _] Hps Hn. revert acc; induction ps as [|p ps IH]; intros acc; [done|]. simpl.
  rewrite IH by set_solver. clear IH.
  assert (load_item disk acc p !! n = if bool_decide (json_path dir n = p ∧ is_Some (m !! n)) then m !! n else acc !! n) as ->.
  { destruct (Hps p) as (k & [a Ha] & ->); [by left|]. destruct (Hnames _ _ Ha) as [Hk Hdec].
    unfold load_item. rewrite (Hfiles _ _ Ha). simpl. rewrite Hdec.
    destruct (decide (n = k)) as [->|Hne]; [by rewrite lookup_insert_eq, bool_decide_eq_true_2 by (rewrite Ha; eauto)|].
    rewrite lookup_insert_ne by done. rewrite bool_decide_eq_false_2; [done|].
    intros [Heq [b Hb]]. destruct Hn as [Hn|Hn]; [|congruence]. by apply Hne, (path_inj dir). }
  repeat case_bool_decide; set_solver.
Qed.

(** What a new process reads. *)
Lemma load_dir_holds m disk : dir_holds m disk → load_dir disk ∅ = m.
Proof.
  intros Hd. apply map_eq. intros n. unfold load_dir. destruct (m !! n) as [a|] eqn:Hn.
  - destruct (dh_names _ _ Hd _ _ Hn) as [Hp _]. rewrite (load_items m) by first [apply dh_only; done | by left | done].
    rewrite bool_decide_eq_true_2; [done|]. split; [|by rewrite Hn].
    apply path_in_glob; [done|done|]. by rewrite (dh_files _ _ Hd _ _ Hn).
  - rewrite (load_items m) by first [apply dh_only; done | by right | done].
    rewrite bool_decide_eq_false_2; [done|]. rewrite Hn. by intros [_ [? [=]]].
Qed.

Lemma dir_holds_empty : dir_holds ∅ ∅.
Proof. split; [done|done|]. intros p [[? ?] _]%elem_of_glob. done. Qed.

Lemma dir_holds_insert m disk n a :
  plain n → decode (content a) = Some (n, a) → dir_holds m disk →
  dir_holds (<[n := a]> m) (<[json_path dir n := content a]> disk).
Proof.
  intros Hn Hdec [Hnames Hfiles Honly]. split.
  - by apply map_Forall_insert_2.
  - intros k b. rewrite lookup_insert_Some. intros [[<- <-]|[Hne Hk]]; [by rewrite lookup_insert_eq|].
    rewrite lookup_insert_ne; [by apply Hfiles|]. intros Heq%path_inj; [done..|]. by destruct (Hnames _ _ Hk).
  - intros p Hp. destruct (decide (p = json_path dir n)) as [->|Hne]; [exists n; by rewrite lookup_insert_eq|].
    destruct (Honly p) as (k & [b Hk] & ->).
    { rewrite elem_of_glob in *. by rewrite lookup_insert_ne in Hp. }
    exists k. split; [|done]. rewrite lookup_insert_ne by congruence. by eexists.
Qed.

Lemma dir_holds_delete m disk n : plain n → dir_holds m disk → dir_holds (delete n m) (delete (json_path dir n) disk).
Proof.
  intros Hn [Hnames Hfiles Honly]. split.
  - by apply map_Forall_delete.
  - intros k b. rewrite lookup_delete_Some. intros [Hne Hk]. rewrite lookup_delete_ne; [by apply Hfiles|].
    intros Heq%path_inj; [done..|]. by destruct (Hnames _ _ Hk).
  - intros p Hp. rewrite elem_of_glob in Hp. destruct Hp as [Hp Hc]. destruct (decide (p = json_path dir n)) as [->|Hne].
    { rewrite lookup_delete_eq in Hp. by destruct Hp. }
    rewrite lookup_delete_ne in Hp by done. destruct (Honly p) as (k & Hk & ->); [by rewrite elem_of_glob|].
    exists k. split; [|done]. rewrite lookup_delete_ne by congruence. done.
Qed.

(** Changes elsewhere do not matter. *)
Lemma dir_holds_frame m disk disk' :
  (∀ n, plain n → disk' !! json_path dir n = disk !! json_path dir n) →
  (∀ p, p ∈ glob_json dir disk' → p ∈ glob_json dir disk) → dir_holds m disk → dir_holds m disk'.
Proof.
  intros Hsame Hsub [Hnames Hfiles Honly]. split; [done| |by eauto].
  intros n a Ha. destruct (Hnames _ _ Ha) as [Hn _]. rewrite Hsame by done. by apply Hfiles.
Qed.
End directory.
