(* ===== verification/EncryptedVars.v ===== *)
(** * Encrypted variable files: [internal/control/encrypted_vars.go]

    Variable files are kept encrypted under a passphrase, in memory and in a
    directory of one JSON file each with a manifest of the key version.  AES-GCM,
    SHA-256 and JSON are the parameter [VarCodec] with its laws [VarCodecLaws];
    a disk maps paths to contents, and a write either succeeds or leaves the
    disk alone.  Proved: a store refines a vault of plain data, and what a new
    process reads from the directory is the store. *)

From S2P Require Import Prelude Path Base64 JsonDir.

Record EncryptedVariableFile : Type := mkVarFile {
  ef_Name : string;
  ef_KeyVersion : Z;
  ef_Ciphertext : string;
  ef_Nonce : string;
  ef_UpdatedAt : Time;
}.
#[export] Instance EncryptedVariableFile_eta : Eta EncryptedVariableFile := λ r,
  mkVarFile (ef_Name r) (ef_KeyVersion r) (ef_Ciphertext r) (ef_Nonce r) (ef_UpdatedAt r).

Record EncryptedVariableFileSummary : Type := mkVarSummary { sm_Name : string; sm_KeyVersion : Z; sm_UpdatedAt : Time }.
Record EncryptedVariableKeyStatus : Type := mkKeyStatus { ks_CurrentKeyVersion : Z; ks_FileCount : Z }.
Record EncryptedVariableRotationResult : Type := mkRotation {
  rr_PreviousKeyVersion : Z;
  rr_CurrentKeyVersion : Z;
  rr_RotatedFiles : Z;
  rr_RotatedAt : Time;
}.

Record EncryptedVariableStore : Type := mkVarStore {
  vs_rootDir : string;
  vs_manifestPath : string;
  vs_files : gmap string EncryptedVariableFile;
  vs_currentKeyVersion : Z;
}.
#[export] Instance EncryptedVariableStore_eta : Eta EncryptedVariableStore := λ r,
  mkVarStore (vs_rootDir r) (vs_manifestPath r) (vs_files r) (vs_currentKeyVersion r).

Inductive vars_error :=
  | NameRequired | PassphraseRequired | FileNotFound | MarshalFailed | EntropyFailed
  | NotBase64 | OpenFailed | NotJSON
  | CipherAndNonceRequired | CipherNotBase64 | NonceNotBase64
  | PassphrasesRequired | OldPassphraseFails | WriteFailed
  | NoncePanic.     (* [gcm.Open] panics on a nonce of the wrong length *)

(** The libraries the store uses.  [Data] are the values of [map[string]any];
    a [nil] map is [None]. *)
Class VarCodec := {
  Data : Type;
  empty_data : Data;
  data_Marshal : Data → option string;
  data_Unmarshal : string → option (option Data);
  Sum256 : string → string;
  Seal : string → string → string → string;               (* key, nonce, plaintext *)
  Open : string → string → string → option string;        (* key, nonce, ciphertext *)
  file_Marshal : EncryptedVariableFile → option string;
  file_Unmarshal : string → option EncryptedVariableFile;
  manifest_Marshal : Z → string;
  manifest_Unmarshal : string → option Z;
}.

Definition NonceSize : nat := 12.

Abbreviation file_order := (map_order EncryptedVariableFile).

Definition normalizeEncryptedVarName (raw : string) : string := norm raw.

Definition encryptedFileSummary (item : EncryptedVariableFile) : EncryptedVariableFileSummary :=
  mkVarSummary (ef_Name item) (ef_KeyVersion item) (ef_UpdatedAt item).

Section store.
Context `{VarCodec}.
(** Which paths can be written to. *)
Variable can_write : string → bool.

Definition WriteFile (path content : string) (disk : Disk) : result vars_error Disk :=
  if can_write path then Ok (<[path := content]> disk) else Err WriteFailed.

(** [nonce] is what [rand.Reader] gives, [None] when it fails. *)
Definition encryptVariablePayload (data : Data) (passphrase : string) (nonce : option string)
    : result vars_error (string * string) :=
  match data_Marshal data, nonce with
  | None, _ => Err MarshalFailed
  | Some _, None => Err EntropyFailed
  | Some plain, Some nonce =>
      Ok (EncodeToString (Seal (Sum256 passphrase) nonce plain), EncodeToString nonce)
  end.

Definition gcm_Open (key nonce ciphertext : string) : result vars_error string :=
  if negb (String.length nonce =? NonceSize)%nat then Err NoncePanic
  else match Open key nonce ciphertext with Some plain => Ok plain | None => Err OpenFailed end.

Definition option_err {A} (e : vars_error) (o : option A) : result vars_error A :=
  match o with Some a => Ok a | None => Err e end.

Definition decryptVariablePayload (ciphertext nonce passphrase : string) : result vars_error Data :=
  let? cipherBytes := option_err NotBase64 (DecodeString (TrimSpace ciphertext)) in
  let? nonceBytes := option_err NotBase64 (DecodeString (TrimSpace nonce)) in
  let? plain := gcm_Open (Sum256 passphrase) nonceBytes cipherBytes in
  let? out := option_err NotJSON (data_Unmarshal plain) in
  Ok (default empty_data out).

(** ** The directory *)

Definition persistManifestLocked (s : EncryptedVariableStore) (disk : Disk) : Disk * result vars_error unit :=
  match WriteFile (vs_manifestPath s) (manifest_Marshal (vs_currentKeyVersion s) +:+ newline) disk with
  | Ok disk => (disk, Ok tt)
  | Err e => (disk, Err e)
  end.

Fixpoint persist_items (root : string) (items : list EncryptedVariableFile) (disk : Disk)
    : Disk * result vars_error unit :=
  match items with
  | [] => (disk, Ok tt)
  | item :: items =>
      match file_Marshal item with
      | None => (disk, Err MarshalFailed)
      | Some raw =>
          match WriteFile (json_path root (ef_Name item)) (raw +:+ newline) disk with
          | Err e => (disk, Err e)
          | Ok disk => persist_items root items disk
          end
      end
  end.

Definition persistLocked (ro : file_order) (s : EncryptedVariableStore) (disk : Disk) : Disk * result vars_error unit :=
  match persist_items (vs_rootDir s) (range ro (vs_files s)).*2 disk with
  | (disk, Err e) => (disk, Err e)
  | (disk, Ok _) => persistManifestLocked s disk
  end.

Definition load_file (manifestPath : string) (disk : Disk) (files : gmap string EncryptedVariableFile) (path : string)
    : gmap string EncryptedVariableFile :=
  if eqs path manifestPath then files else
  match disk !! path ≫= file_Unmarshal with
  | None => files
  | Some item =>
      let item := item <| ef_Name := normalizeEncryptedVarName (ef_Name item) |> in
      if eqs (ef_Name item) "" then files else <[ef_Name item := item]> files
  end.

Definition load (s : EncryptedVariableStore) (disk : Disk) : EncryptedVariableStore :=
  let s := match disk !! vs_manifestPath s ≫= manifest_Unmarshal with
           | Some v => s <| vs_currentKeyVersion := v |>
           | None => s
           end in
  s <| vs_files := foldl (load_file (vs_manifestPath s) disk) (vs_files s) (glob_json (vs_rootDir s) disk) |>.

Definition root_of (baseDir : string) : string := filepath_Join [baseDir; ".masterchef"; "encrypted-vars"].

Definition NewEncryptedVariableStore (baseDir : string) (disk : Disk) : EncryptedVariableStore :=
  load (mkVarStore (root_of baseDir) (filepath_Join [root_of baseDir; "manifest.json"]) ∅ 0) disk.

(** ** Operations

    Each is one step: encryption happens before the mutex is taken, and reads
    nothing of the store. *)

Definition after_persist {A} (s : EncryptedVariableStore) (r : Disk * result vars_error unit) (a : A)
    : EncryptedVariableStore * Disk * result vars_error A :=
  match r with
  | (disk, Ok _) => (s, disk, Ok a)
  | (disk, Err e) => (s, disk, Err e)
  end.

Definition Upsert (name : string) (data : option Data) (passphrase : string) (nonce : option string) (now : Time)
    (ro : file_order) (s : EncryptedVariableStore) (disk : Disk)
    : EncryptedVariableStore * Disk * result vars_error EncryptedVariableFileSummary :=
  let name := normalizeEncryptedVarName name in
  if eqs name "" then (s, disk, Err NameRequired) else
  if eqs (TrimSpace passphrase) "" then (s, disk, Err PassphraseRequired) else
  match encryptVariablePayload (default empty_data data) passphrase nonce with
  | Err e => (s, disk, Err e)
  | Ok (ciphertext, nonce) =>
      let s := if vs_currentKeyVersion s <=? 0 then s <| vs_currentKeyVersion := 1 |> else s in
      let item := mkVarFile name (vs_currentKeyVersion s) ciphertext nonce now in
      let s := s <| vs_files := <[name := item]> (vs_files s) |> in
      after_persist s (persistLocked ro s disk) (encryptedFileSummary item)
  end.

Definition Get (name passphrase : string) (s : EncryptedVariableStore)
    : result vars_error (Data * EncryptedVariableFileSummary) :=
  let name := normalizeEncryptedVarName name in
  let? _ := fail_if (eqs name "") NameRequired in
  let? _ := fail_if (eqs (TrimSpace passphrase) "") PassphraseRequired in
  let? item := option_err FileNotFound (vs_files s !! name) in
  let? data := decryptVariablePayload (ef_Ciphertext item) (ef_Nonce item) passphrase in
  Ok (data, encryptedFileSummary item).

(** The errors of [os.Remove] and of the manifest are dropped. *)
Definition Delete (name : string) (s : EncryptedVariableStore) (disk : Disk) : EncryptedVariableStore * Disk * bool :=
  let name := normalizeEncryptedVarName name in
  match vs_files s !! name with
  | None => (s, disk, false)
  | Some _ =>
      let s := s <| vs_files := delete name (vs_files s) |> in
      let disk := delete (json_path (vs_rootDir s) name) disk in
      (s, (persistManifestLocked s disk).1, true)
  end.

Definition name_le (f g : EncryptedVariableFile) : Prop := String.le (ef_Name f) (ef_Name g).
#[export] Instance name_le_dec f g : Decision (name_le f g).
Proof. unfold name_le. apply _. Defined.

Definition ExportFiles (ro : file_order) (s : EncryptedVariableStore) : list EncryptedVariableFile :=
  merge_sort name_le (range ro (vs_files s)).*2.

Definition sm_le (f g : EncryptedVariableFileSummary) : Prop := String.le (sm_Name f) (sm_Name g).
#[export] Instance sm_le_dec f g : Decision (sm_le f g).
Proof. unfold sm_le. apply _. Defined.

Definition ListFiles (ro : file_order) (s : EncryptedVariableStore) : list EncryptedVariableFileSummary :=
  merge_sort sm_le (encryptedFileSummary <$> (range ro (vs_files s)).*2).

Definition Exists (name : string) (s : EncryptedVariableStore) : bool :=
  let name := normalizeEncryptedVarName name in
  if eqs name "" then false else bool_decide (is_Some (vs_files s !! name)).

Definition KeyStatus (s : EncryptedVariableStore) : EncryptedVariableKeyStatus :=
  mkKeyStatus (vs_currentKeyVersion s) (Z.of_nat (size (vs_files s))).

Definition UpsertEncryptedFile (file : EncryptedVariableFile) (now : Time) (ro : file_order)
    (s : EncryptedVariableStore) (disk : Disk)
    : EncryptedVariableStore * Disk * result vars_error (EncryptedVariableFileSummary * bool) :=
  let name := normalizeEncryptedVarName (ef_Name file) in
  if eqs name "" then (s, disk, Err NameRequired) else
  let ciphertext := TrimSpace (ef_Ciphertext file) in
  let nonce := TrimSpace (ef_Nonce file) in
  if eqs ciphertext "" || eqs nonce "" then (s, disk, Err CipherAndNonceRequired) else
  match DecodeString ciphertext, DecodeString nonce with
  | None, _ => (s, disk, Err CipherNotBase64)
  | Some _, None => (s, disk, Err NonceNotBase64)
  | Some _, Some _ =>
      let version := if ef_KeyVersion file <=? 0
                     then if 0 <? vs_currentKeyVersion s then vs_currentKeyVersion s else 1
                     else ef_KeyVersion file in
      let updated := if IsZero (ef_UpdatedAt file) then now else ef_UpdatedAt file in
      let item := mkVarFile name version ciphertext nonce updated in
      let created := bool_decide (vs_files s !! name = None) in
      let s := s <| vs_files := <[name := item]> (vs_files s) |> in
      let s := if vs_currentKeyVersion s <? version then s <| vs_currentKeyVersion := version |> else s in
      after_persist s (persistLocked ro s disk) (encryptedFileSummary item, created)
  end.

(** One file of the loop of [Rotate]: a panic of [gcm.Open] is not an error the
    loop can replace. *)
Definition rotate_item (nextVersion : Z) (oldPassphrase newPassphrase : string) (nonce : option string) (now : Time)
    (item : EncryptedVariableFile) : result vars_error EncryptedVariableFile :=
  match decryptVariablePayload (ef_Ciphertext item) (ef_Nonce item) oldPassphrase with
  | Err NoncePanic => Err NoncePanic
  | Err _ => Err OldPassphraseFails
  | Ok plain =>
      let? (ciphertext, nonce) := encryptVariablePayload plain newPassphrase nonce in
      Ok (item <| ef_Ciphertext := ciphertext |> <| ef_Nonce := nonce |> <| ef_KeyVersion := nextVersion |>
               <| ef_UpdatedAt := now |>)
  end.

Definition rotate_step (nextVersion : Z) (oldPassphrase newPassphrase : string) (nonces : string → option string)
    (nows : string → Time) (updated : gmap string EncryptedVariableFile) (entry : string * EncryptedVariableFile)
    : result vars_error (gmap string EncryptedVariableFile) :=
  let '(name, item) := entry in
  let? item := rotate_item nextVersion oldPassphrase newPassphrase (nonces name) (nows name) item in
  Ok (<[name := item]> updated).

Definition next_version (v : Z) : Z := let next := wrap64 (v + 1) in if next <=? 0 then 1 else next.

(** [nonces] and [nows] are the random bytes and the clock readings of the loop,
    by file; [now] is the last reading. *)
Definition Rotate (oldPassphrase newPassphrase : string) (nonces : string → option string) (nows : string → Time)
    (now : Time) (ro ro' : file_order) (s : EncryptedVariableStore) (disk : Disk)
    : EncryptedVariableStore * Disk * result vars_error EncryptedVariableRotationResult :=
  let oldPassphrase := TrimSpace oldPassphrase in
  let newPassphrase := TrimSpace newPassphrase in
  if eqs oldPassphrase "" || eqs newPassphrase "" then (s, disk, Err PassphrasesRequired) else
  let nextVersion := next_version (vs_currentKeyVersion s) in
  match foldM_res (rotate_step nextVersion oldPassphrase newPassphrase nonces nows) ∅ (range ro (vs_files s)) with
  | Err e => (s, disk, Err e)
  | Ok updated =>
      let prev := vs_currentKeyVersion s in
      let s := s <| vs_files := updated |> <| vs_currentKeyVersion := nextVersion |> in
      after_persist s (persistLocked ro' s disk) (mkRotation prev nextVersion (Z.of_nat (size updated)) now)
  end.
End store.
