(* ===== verification/EncryptedVarsSpec.v ===== *)
(** * What encrypted variable files promise

    The vault of plain data a store stands for, and the refinement: [Get] answers
    what the vault says, the calls succeed when the vault's do, and the directory
    read by a new process gives back the store.  With what happens to names the
    directory has no place for. *)

From S2P Require Import Prelude Path Base64 JsonDir EncryptedVars.

(** What JSON, AES-GCM and SHA-256 are trusted for.  [plain_data] are the values
    [json.Unmarshal] gives; times are encoded for the years 0 to 9999. *)
Definition is_ascii (s : string) : Prop := every_char (λ c, (code c < 128)%nat) s.

Definition year_10000 : Time := 315537897600 * Second.

Definition encodable (f : EncryptedVariableFile) : Prop :=
  is_ascii (ef_Name f) ∧ is_ascii (ef_Ciphertext f) ∧ is_ascii (ef_Nonce f) ∧
  int64 (ef_KeyVersion f) ∧ 0 ≤ ef_UpdatedAt f < year_10000.

Class VarCodecLaws `{VarCodec} := {
  plain_data : Data → Prop;
  plain_empty : plain_data empty_data;
  data_roundtrip d : plain_data d → ∃ s, data_Marshal d = Some s ∧ data_Unmarshal s = Some (Some d);
  Open_Seal k n p : String.length n = NonceSize → Open k n (Seal k n p) = Some p;
  Seal_tag k n p : Seal k n p ≠ "";
  file_roundtrip f : encodable f → ∃ s, file_Marshal f = Some s ∧ file_Unmarshal (s +:+ newline) = Some f;
  manifest_roundtrip v : int64 v → manifest_Unmarshal (manifest_Marshal v +:+ newline) = Some v;
}.

(** ** Histories *)

Section ops.
Context `{VarCodec}.

(** [VPut] imports a file that was sealed somewhere else. *)
Inductive var_op :=
  | VUpsert (name : string) (data : option Data) (passphrase : string) (nonce : option string) (now : Time) (ro : file_order)
  | VPut (file : EncryptedVariableFile) (data : Data) (passphrase : string) (now : Time) (ro : file_order)
  | VDelete (name : string)
  | VRotate (old new : string) (nonces : string → option string) (nows : string → Time) (now : Time) (ro ro' : file_order)
  | VRestart.

Definition run_var_op (can_write : string → bool) (base : string) (s : EncryptedVariableStore) (disk : Disk) (op : var_op)
    : EncryptedVariableStore * Disk * bool :=
  match op with
  | VUpsert name data pass nonce now ro =>
      let '(s, disk, r) := Upsert can_write name data pass nonce now ro s disk in (s, disk, is_Ok r)
  | VPut file _ _ now ro =>
      let '(s, disk, r) := UpsertEncryptedFile can_write file now ro s disk in (s, disk, is_Ok r)
  | VDelete name => Delete can_write name s disk
  | VRotate old new nonces nows now ro ro' =>
      let '(s, disk, r) := Rotate can_write old new nonces nows now ro ro' s disk in (s, disk, is_Ok r)
  | VRestart => (NewEncryptedVariableStore base disk, disk, true)
  end.

Fixpoint run_vars (can_write : string → bool) (base : string) (s : EncryptedVariableStore) (disk : Disk)
    (ops : list var_op) : EncryptedVariableStore * Disk * list bool :=
  match ops with
  | [] => (s, disk, [])
  | op :: ops =>
      let '(s, disk, ok) := run_var_op can_write base s disk op in
      let '(s, disk, oks) := run_vars can_write base s disk ops in (s, disk, ok :: oks)
  end.

(** ** The vault: per name a key version, the data and the passphrase *)

Record vault : Type := mkVault { va_version : Z; va_files : gmap string (Z * Data * string) }.

Definition vault_op (v : vault) (op : var_op) : vault * bool :=
  match op with
  | VUpsert name data pass nonce _ _ =>
      if eqs (norm name) "" || eqs (TrimSpace pass) "" || bool_decide (nonce = None) then (v, false) else
      let ver := if va_version v <=? 0 then 1 else va_version v in
      (mkVault ver (<[norm name := (ver, default empty_data data, pass)]> (va_files v)), true)
  | VPut file data pass _ _ =>
      if eqs (norm (ef_Name file)) "" then (v, false) else
      let ver := if ef_KeyVersion file <=? 0 then Z.max 1 (va_version v) else ef_KeyVersion file in
      (mkVault (Z.max ver (va_version v)) (<[norm (ef_Name file) := (ver, data, pass)]> (va_files v)), true)
  | VDelete name =>
      (mkVault (va_version v) (delete (norm name) (va_files v)), bool_decide (is_Some (va_files v !! norm name)))
  | VRotate old new nonces _ _ _ _ =>
      if eqs (TrimSpace old) "" || eqs (TrimSpace new) "" then (v, false) else
      if bool_decide (map_Forall (λ n (e : Z * Data * string), e.2 = TrimSpace old ∧ is_Some (nonces n)) (va_files v)) then
        let next := next_version (va_version v) in
        (mkVault next ((λ e : Z * Data * string, (next, e.1.2, TrimSpace new)) <$> va_files v), true)
      else (v, false)
  | VRestart => (v, true)
  end.

Fixpoint run_vault (v : vault) (ops : list var_op) : vault * list bool :=
  match ops with
  | [] => (v, [])
  | op :: ops =>
      let '(v, ok) := vault_op v op in let '(v, oks) := run_vault v ops in (v, ok :: oks)
  end.

Definition vault_Get (name passphrase : string) (v : vault) : result vars_error (Data * Z) :=
  let? _ := fail_if (eqs (norm name) "") NameRequired in
  let? _ := fail_if (eqs (TrimSpace passphrase) "") PassphraseRequired in
  let? (ver, data, pass) := option_err FileNotFound (va_files v !! norm name) in
  if eqs pass passphrase then Ok (data, ver) else Err OpenFailed.

(** The passphrases data is sealed with. *)
Definition op_passphrases (op : var_op) : list string :=
  match op with
  | VUpsert _ _ pass _ _ _ | VPut _ _ pass _ _ => [pass]
  | VRotate old new _ _ _ _ _ => [TrimSpace old; TrimSpace new]
  | VDelete _ | VRestart => []
  end.

(** No passphrase of [P] opens what another one seals. *)
Definition honest (P : list string) : Prop :=
  ∀ p q n x, p ∈ P → q ∈ P → p ≠ q → Open (Sum256 q) n (Seal (Sum256 p) n x) = None.
End ops.

(** ** Files and the directory *)

Section laws.
Context `{VarCodecLaws}.
Variable can_write : string → bool.
Variable base : string.

Abbreviation root := (root_of base).
Abbreviation path := (json_path root).

(** A name the directory has a place for. *)
Definition usable (n : string) : Prop :=
  norm n = n ∧ n ≠ "" ∧ n ≠ "manifest" ∧ Contains n "/" = false ∧ is_ascii n ∧ can_write (path n) = true.

Definition sealed (c n : string) (d : Data) (pass : string) : Prop :=
  plain_data d ∧ ∃ nonce s, String.length nonce = NonceSize ∧ data_Unmarshal s = Some (Some d) ∧
    c = EncodeToString (Seal (Sum256 pass) nonce s) ∧ n = EncodeToString nonce.

Definition file_content (f : EncryptedVariableFile) : string := default "" (file_Marshal f) +:+ newline.

Lemma is_ascii_encode s : is_ascii (EncodeToString s).
Proof.
  pose proof (EncodeToString_clean s) as Hc. unfold is_ascii. induction (EncodeToString s) as [|c t IH]; [done|].
  destruct Hc as [[_ ?] ?]. split; auto.
Qed.

Lemma sealed_ascii c n d pass : sealed c n d pass → is_ascii c ∧ is_ascii n.
Proof. intros (_ & nonce & s & _ & _ & -> & ->). split; apply is_ascii_encode. Qed.

Lemma TrimSpace_encode s : TrimSpace (EncodeToString s) = EncodeToString s.
Proof. apply TrimSpace_no_blanks, EncodeToString_no_blanks. Qed.

Lemma sealed_trim c n d pass : sealed c n d pass → TrimSpace c = c ∧ TrimSpace n = n.
Proof. intros (_ & nonce & s & _ & _ & -> & ->). by rewrite !TrimSpace_encode. Qed.

Lemma sealed_nonempty c n d pass : sealed c n d pass → c ≠ "" ∧ n ≠ "".
Proof.
  intros (_ & nonce & s & Hn & _ & -> & ->). rewrite !EncodeToString_empty.
  split; [apply Seal_tag|]. by intros ->.
Qed.

Lemma encrypt_sealed d pass nonce :
  plain_data d → String.length nonce = NonceSize →
  ∃ c n, encryptVariablePayload d pass (Some nonce) = Ok (c, n) ∧ sealed c n d pass.
Proof.
  intros Hd Hn. destruct (data_roundtrip d Hd) as (s & Hm & Hu). unfold encryptVariablePayload. rewrite Hm.
  eexists _, _. split; [done|]. split; [done|]. by exists nonce, s.
Qed.

(** What opens a sealed file, and what does not. *)
Lemma decrypt_sealed P c n d pass ask :
  honest P → pass ∈ P → ask ∈ P → sealed c n d pass →
  decryptVariablePayload c n ask = if eqs pass ask then Ok d else Err OpenFailed.
Proof.
  intros HP Hp Ha (_ & nonce & s & Hn & Hu & -> & ->). unfold decryptVariablePayload.
  rewrite !TrimSpace_encode, !Decode_Encode. cbn [option_err bind]. unfold gcm_Open.
  rewrite Hn, Nat.eqb_refl. cbn [negb].
  destruct (eqs pass ask) eqn:He; rewrite ?eqs_true, ?eqs_false in He.
  - subst ask. rewrite Open_Seal by done. cbn [bind]. by rewrite Hu.
  - by rewrite HP.
Qed.

(** ** Paths *)

Lemma root_nonempty : root ≠ "".
Proof. apply Join_two_nonempty; [done|by vm_compute]. Qed.

Lemma usable_path n : usable n → plain n.
Proof. by intros (_ & ? & _ & ? & _). Qed.

Lemma usable_path_inj n m : usable n → usable m → path n = path m → n = m.
Proof. intros Hn%usable_path Hm%usable_path. apply path_inj; [apply root_nonempty|done..]. Qed.

Lemma usable_not_manifest n : usable n → path n ≠ path "manifest".
Proof.
  intros Hu Heq. apply path_inj in Heq; [|apply root_nonempty|by apply usable_path|done]. by destruct Hu as (_&_&?&_).
Qed.

(** ** The store and its directory *)

Definition good_file (n : string) (f : EncryptedVariableFile) : Prop := ef_Name f = n ∧ usable n ∧ encodable f.

(** Each JSON file in the directory is the manifest or a file of [files]. *)
Definition only_files (files : gmap string EncryptedVariableFile) (d : Disk) : Prop :=
  ∀ p, p ∈ glob_json root d → p = path "manifest" ∨ ∃ n, is_Some (files !! n) ∧ p = path n.

(** What holds of a store on its own. *)
Record StoreInv (s : EncryptedVariableStore) : Prop := {
  si_root : vs_rootDir s = root;
  si_manifest : vs_manifestPath s = path "manifest";
  si_files : map_Forall good_file (vs_files s);
  si_version : int64 (vs_currentKeyVersion s);
}.

(** The directory is the store. *)
Record Synced (s : EncryptedVariableStore) (d : Disk) : Prop := {
  sy_inv : StoreInv s;
  sy_disk n f : vs_files s !! n = Some f → d !! path n = Some (file_content f);
  sy_only : only_files (vs_files s) d;
  sy_version :
    vs_currentKeyVersion s = 0 ∧ d !! path "manifest" = None ∨
    d !! path "manifest" = Some (manifest_Marshal (vs_currentKeyVersion s) +:+ newline);
}.

Lemma file_Marshal_file_content f : encodable f → ∃ raw, file_Marshal f = Some raw ∧ file_content f = raw +:+ newline.
Proof. intros He. destruct (file_roundtrip f He) as (raw & Hm & _). exists raw. unfold file_content. by rewrite Hm. Qed.

Lemma only_files_insert files d n c :
  is_Some (files !! n) ∨ n = "manifest" → only_files files d → only_files files (<[path n := c]> d).
Proof.
  intros Hn Ho p Hp. destruct (decide (p = path n)) as [->|Hne]; [destruct Hn as [?| ->]; eauto|].
  apply Ho. rewrite elem_of_glob in *. by rewrite lookup_insert_ne in Hp.
Qed.

(** Writing files of the store in any order. *)
Lemma persist_items_ok files items d :
  map_Forall good_file files → NoDup (ef_Name <$> items) →
  Forall (λ f, files !! ef_Name f = Some f) items → only_files files d →
  ∃ d', persist_items can_write root items d = (d', Ok tt) ∧ only_files files d' ∧
    (∀ f, f ∈ items → d' !! path (ef_Name f) = Some (file_content f)) ∧
    (∀ p, (∀ f, f ∈ items → p ≠ path (ef_Name f)) → d' !! p = d !! p).
Proof.
  intros Hfiles. revert d; induction items as [|f items IH]; intros d Hnd Hall Ho; cbn [persist_items].
  { exists d. split_and!; [done..|set_solver|done]. }
  inversion Hnd as [|? ? Hnotin Hnd']; subst. inversion Hall as [|? ? Hf Hall']; subst.
  destruct (Hfiles _ _ Hf) as (_ & Hu & He). destruct (file_Marshal_file_content f He) as (raw & -> & Hc).
  unfold WriteFile. destruct Hu as (?&?&?&?&?&Hw). rewrite Hw. rewrite <-Hc.
  destruct (IH (<[path (ef_Name f) := file_content f]> d)) as (d' & -> & Ho' & Hin & Hout); [done..| |].
  { apply only_files_insert; [by left; rewrite Hf|done]. }
  exists d'. split_and!; [done..| |].
  - intros g [->|Hg]%elem_of_cons; [|by apply Hin]. rewrite Hout; [apply lookup_insert_eq|].
    intros g Hg Heq. apply usable_path_inj in Heq.
    + apply Hnotin. rewrite Heq. apply list_elem_of_fmap. by exists g.
    + by destruct (Hfiles _ _ Hf) as (_&?&_).
    + rewrite Forall_forall in Hall'. by destruct (Hfiles _ _ (Hall' _ Hg)) as (_&?&_).
  - intros p Hp. rewrite Hout by set_solver. rewrite lookup_insert_ne; [done|]. intros <-. by apply (Hp f); [left|].
Qed.

Lemma range_names ro files :
  map_Forall good_file files →
  NoDup (ef_Name <$> (range ro files).*2) ∧ Forall (λ f, files !! ef_Name f = Some f) (range ro files).*2.
Proof.
  intros Hfiles. assert (∀ n f, (n, f) ∈ range ro files ↔ files !! n = Some f) as Hin.
  { intros n f. apply elem_of_range. }
  assert (ef_Name <$> (range ro files).*2 = (range ro files).*1) as ->.
  { rewrite <-list_fmap_compose. apply list_fmap_ext. intros i [n f] Hi%list_elem_of_lookup_2.
    apply Hin in Hi. simpl. by destruct (Hfiles _ _ Hi). }
  split; [apply NoDup_range|].
  apply Forall_forall. intros f [[n f'] [-> Hf%Hin]]%list_elem_of_fmap. simpl. by destruct (Hfiles _ _ Hf) as [-> _].
Qed.

Lemma persist_ok ro s d :
  can_write (path "manifest") = true → StoreInv s → only_files (vs_files s) d →
  ∃ d', persistLocked can_write ro s d = (d', Ok tt) ∧ Synced s d'.
Proof.
  intros Hw Hs Ho. pose proof Hs as [Hr Hm Hfiles Hv]. destruct (range_names ro _ Hfiles) as [Hnd Hall].
  destruct (persist_items_ok _ _ d Hfiles Hnd Hall Ho) as (d' & Heq & Ho' & Hin & _).
  unfold persistLocked. rewrite Hr, Heq. unfold persistManifestLocked, WriteFile. rewrite Hm, Hw.
  eexists. split; [done|]. split; [done|..].
  - intros n f Hf. destruct (Hfiles _ _ Hf) as (<- & Hu & _).
    rewrite lookup_insert_ne by (by apply not_eq_sym, usable_not_manifest). apply Hin.
    apply list_elem_of_fmap. exists (ef_Name f, f). split; [done|]. by rewrite elem_of_range.
  - apply only_files_insert; auto.
  - right. apply lookup_insert_eq.
Qed.

(** ** What a new process reads *)

#[local] Arguments filepath_Join : simpl never.
#[local] Arguments json_path : simpl never.

Lemma load_file_inv d acc n f :
  good_file n f → d !! path n = Some (file_content f) →
  load_file (path "manifest") d acc (path n) = <[n := f]> acc.
Proof.
  intros (Hname & Hu & He) Hd. unfold load_file.
  rewrite (proj2 (eqs_false (path n) _)) by (by apply usable_not_manifest). rewrite Hd.
  destruct (file_roundtrip f He) as (raw & Hm & Hun). unfold file_content. rewrite Hm. cbn [default mbind option_bind].
  simpl. rewrite Hun. simpl. unfold normalizeEncryptedVarName. rewrite Hname.
  destruct Hu as (Hnorm & Hne & _). rewrite Hnorm, (proj2 (eqs_false n "")) by done.
  f_equal. destruct f. simpl in *. by subst.
Qed.

Lemma load_files s d ps acc n :
  Synced s d → (∀ p, p ∈ ps → p = path "manifest" ∨ ∃ n, is_Some (vs_files s !! n) ∧ p = path n) →
  usable n ∨ vs_files s !! n = None →
  foldl (load_file (path "manifest") d) acc ps !! n =
  if bool_decide (path n ∈ ps ∧ is_Some (vs_files s !! n)) then vs_files s !! n else acc !! n.
Proof.
  intros [Hs Hdisk _ _] Hps Hn. revert acc; induction ps as [|p ps IH]; intros acc; simpl.
  { done. }
  rewrite IH by set_solver. clear IH.
  assert (load_file (path "manifest") d acc p !! n =
    if bool_decide (path n = p ∧ is_Some (vs_files s !! n)) then vs_files s !! n else acc !! n) as ->.
  { destruct (Hps p) as [->|(m & [f Hf] & ->)]; [by left|..].
    - unfold load_file. rewrite eqs_refl, bool_decide_eq_false_2; [done|].
      intros [Heq [f Hf]]. apply si_files in Hs. destruct (Hs _ _ Hf) as (_ & Hu & _).
      by apply usable_not_manifest in Hu.
    - pose proof (si_files _ Hs _ _ Hf) as Hg. rewrite (load_file_inv d acc m f) by eauto.
      destruct (decide (n = m)) as [->|Hne]; [by rewrite lookup_insert_eq, bool_decide_eq_true_2 by (rewrite Hf; eauto)|].
      rewrite lookup_insert_ne by done. rewrite bool_decide_eq_false_2; [done|].
      intros [Heq [g Hg']]. destruct Hg as (_ & Hu & _). destruct Hn as [Hn|Hn]; [|by rewrite Hn in Hg'].
      by apply Hne, usable_path_inj. }
  repeat case_bool_decide; set_solver.
Qed.

Lemma load_synced s d : Synced s d → NewEncryptedVariableStore base d = s.
Proof.
  intros Hsy. pose proof Hsy as [Hs Hdisk Ho Hv]. unfold NewEncryptedVariableStore, load. cbn [vs_manifestPath].
  change (filepath_Join [root; "manifest.json"]) with (path "manifest"). destruct Hs as [Hr Hm Hfiles Hi]. destruct s as [r m files v]. simpl in *. subst r m.
  assert (foldl (load_file (path "manifest") d) ∅ (glob_json root d) = files) as Hf.
  { apply map_eq. intros n. destruct (files !! n) as [f|] eqn:Hn.
    - destruct (Hfiles _ _ Hn) as (_ & Hu & _). rewrite (load_files _ _ _ _ _ Hsy Ho) by auto. simpl.
      rewrite bool_decide_eq_true_2; [done|]. split; [|by rewrite Hn].
      apply path_in_glob; [apply root_nonempty|by apply usable_path|]. by rewrite (Hdisk _ _ Hn).
    - rewrite (load_files _ _ _ _ _ Hsy Ho) by auto. simpl. rewrite bool_decide_eq_false_2; [done|].
      rewrite Hn. by intros [_ [? [=]]]. }
  destruct Hv as [[-> ->]| ->]; simpl; [by rewrite Hf|]. rewrite manifest_roundtrip by done. simpl. by rewrite Hf.
Qed.

(** ** Refinement *)

Definition entry_ok (e : Z * Data * string) (f : EncryptedVariableFile) : Prop :=
  ef_KeyVersion f = e.1.1 ∧ sealed (ef_Ciphertext f) (ef_Nonce f) e.1.2 e.2.

(** The store and its directory hold the vault, sealed with passphrases of [P]. *)
Record Holds (P : list string) (v : vault) (s : EncryptedVariableStore) (d : Disk) : Prop := {
  ho_sync : Synced s d;
  ho_version : va_version v = vs_currentKeyVersion s;
  ho_files : map_Forall2 (λ _, entry_ok) (va_files v) (vs_files s);
  ho_pass : map_Forall (λ _ e, e.2 ∈ P) (va_files v);
}.

(** Names that are blank or have a place in the directory, data as
    [json.Unmarshal] gives it, nonces of the size drawn, times of this age. *)
Definition op_ok (op : var_op) : Prop :=
  match op with
  | VUpsert name data _ nonce now _ =>
      (norm name = "" ∨ usable (norm name)) ∧ plain_data (default empty_data data) ∧
      (∀ n, nonce = Some n → String.length n = NonceSize) ∧ 0 ≤ now < year_10000
  | VPut file data pass now _ =>
      (norm (ef_Name file) = "" ∨ usable (norm (ef_Name file))) ∧
      sealed (TrimSpace (ef_Ciphertext file)) (TrimSpace (ef_Nonce file)) data pass ∧
      int64 (ef_KeyVersion file) ∧ 0 ≤ ef_UpdatedAt file < year_10000 ∧ 0 ≤ now < year_10000
  | VRotate _ _ nonces nows _ _ _ =>
      (∀ n x, nonces n = Some x → String.length x = NonceSize) ∧ (∀ n, 0 ≤ nows n < year_10000)
  | VDelete _ | VRestart => True
  end.

Lemma only_files_mono (files files' : gmap string EncryptedVariableFile) d :
  (∀ n, is_Some (files !! n) → is_Some (files' !! n)) → only_files files d → only_files files' d.
Proof. intros Hsub Ho p [->|(n & ? & ->)]%Ho; [by left|]. right. eauto. Qed.

(** Any change of the store that keeps its names is written out. *)
Lemma Holds_persist P v s d v' s' ro :
  can_write (path "manifest") = true → Holds P v s d →
  vs_rootDir s' = vs_rootDir s → vs_manifestPath s' = vs_manifestPath s →
  (∀ n, is_Some (vs_files s !! n) → is_Some (vs_files s' !! n)) →
  map_Forall good_file (vs_files s') → int64 (vs_currentKeyVersion s') →
  va_version v' = vs_currentKeyVersion s' → map_Forall2 (λ _, entry_ok) (va_files v') (vs_files s') →
  map_Forall (λ _ e, e.2 ∈ P) (va_files v') →
  ∃ d', persistLocked can_write ro s' d = (d', Ok tt) ∧ Holds P v' s' d'.
Proof.
  intros Hw [[Hs _ Ho _] _ _ _] Hr Hm Hsub Hfiles Hi Hv Hrel Hp.
  destruct (persist_ok ro s' d) as (d' & Heq & Hsy); [done| |by eapply only_files_mono|].
  - destruct Hs. split; [congruence..|done|done].
  - exists d'. split; [done|]. by split.
Qed.

Lemma Holds_insert P v s d ro n e f ver :
  can_write (path "manifest") = true → Holds P v s d → good_file n f → entry_ok e f → e.2 ∈ P → int64 ver →
  let s' := s <| vs_files := <[n := f]> (vs_files s) |> <| vs_currentKeyVersion := ver |> in
  ∃ d', persistLocked can_write ro s' d = (d', Ok tt) ∧ Holds P (mkVault ver (<[n := e]> (va_files v))) s' d'.
Proof.
  intros Hw Hh Hf He Hp Hi s'. pose proof Hh as [Hs Hv Hrel Hps]. pose proof (si_files _ (sy_inv _ _ Hs)) as Hfiles.
  destruct s as [r m files cur]. subst s'. simpl in *. eapply Holds_persist; try done; simpl.
  - intros k Hk. destruct (decide (k = n)) as [->|]; by rewrite ?lookup_insert_eq, ?lookup_insert_ne.
  - by apply map_Forall_insert_2.
  - by apply map_Forall2_insert_2.
  - by apply map_Forall_insert_2.
Qed.

Lemma int64_one : int64 1.
Proof. by vm_compute. Qed.

Lemma next_version_int64 v : int64 (next_version v).
Proof. unfold next_version. pose proof (wrap64_int64 (v + 1)). unfold int64, min_int64, max_int64 in *. destruct (Z.leb_spec (wrap64 (v + 1)) 0); lia. Qed.

Lemma good_sealed n ver c nonce d pass t :
  usable n → sealed c nonce d pass → int64 ver → 0 ≤ t < year_10000 → good_file n (mkVarFile n ver c nonce t).
Proof.
  intros Hu Hs Hv Ht. destruct (sealed_ascii _ _ _ _ Hs). pose proof Hu as (_&_&_&_&Ha&_).
  split; [done|]. split; [done|]. by repeat (split; [done|]).
Qed.

Lemma Upsert_step P v s d name data pass nonce now ro :
  can_write (path "manifest") = true → Holds P v s d → op_ok (VUpsert name data pass nonce now ro) → pass ∈ P →
  let '(s', d', r) := Upsert can_write name data pass nonce now ro s d in
  let '(v', ok) := vault_op v (VUpsert name data pass nonce now ro) in is_Ok r = ok ∧ Holds P v' s' d'.
Proof.
  intros Hw Hh (Hname & Hd & Hn & Hnow) Hp. unfold Upsert, vault_op, normalizeEncryptedVarName.
  destruct (eqs (norm name) "") eqn:Hb; [done|]. destruct (eqs (TrimSpace pass) ""); [done|]. cbn [orb].
  destruct nonce as [nonce|]; cycle 1.
  { rewrite bool_decide_eq_true_2 by done. unfold encryptVariablePayload. by destruct (data_Marshal _). }
  rewrite bool_decide_eq_false_2 by done.
  destruct (encrypt_sealed (default empty_data data) pass nonce) as (c & n & -> & Hsealed); [done|by apply Hn|].
  apply eqs_false in Hb. destruct Hname as [|Hu]; [done|]. set (ver := if va_version v <=? 0 then _ else _).
  set (f := mkVarFile (norm name) ver c n now).
  pose proof Hh as [[[? ? ? Hi] _ _ _] Hver _ _].
  assert (int64 ver) as Hiv.
  { clear f. subst ver. rewrite Hver. destruct (vs_currentKeyVersion s <=? 0); [apply int64_one|done]. }
  destruct (Holds_insert P v s d ro (norm name) (ver, default empty_data data, pass) f ver)
    as (d' & Hpers & Hh'); [done..|by eapply good_sealed|done|done|done|].
  assert ((if vs_currentKeyVersion s <=? 0 then s <| vs_currentKeyVersion := 1 |> else s)
    = s <| vs_currentKeyVersion := ver |>) as ->.
  { clear Hpers Hh' f. subst ver. rewrite Hver. destruct s as [r m files cur]. simpl. by destruct (cur <=? 0). }
  destruct s as [r m files cur]. simpl in *. fold f. rewrite Hpers. simpl. by split.
Qed.

Lemma Put_step P v s d file data pass now ro :
  can_write (path "manifest") = true → Holds P v s d → op_ok (VPut file data pass now ro) → pass ∈ P →
  let '(s', d', r) := UpsertEncryptedFile can_write file now ro s d in
  let '(v', ok) := vault_op v (VPut file data pass now ro) in is_Ok r = ok ∧ Holds P v' s' d'.
Proof.
  intros Hw Hh (Hname & Hsealed & Hfv & Hup & Hnow) Hp. unfold UpsertEncryptedFile, vault_op, normalizeEncryptedVarName.
  destruct (eqs (norm (ef_Name file)) "") eqn:Hb; [done|].
  destruct (sealed_nonempty _ _ _ _ Hsealed) as [->%eqs_false ->%eqs_false]. cbn [orb].
  pose proof Hsealed as (_ & x & y & _ & _ & Hc & Hn). rewrite Hc, Hn, !Decode_Encode. rewrite <-Hc, <-Hn.
  apply eqs_false in Hb. destruct Hname as [|Hu]; [done|]. pose proof Hh as [[[? ? ? Hi] _ _ _] Hver _ _].
  set (ver := if ef_KeyVersion file <=? 0 then Z.max _ _ else _).
  assert ((if ef_KeyVersion file <=? 0 then if 0 <? vs_currentKeyVersion s then vs_currentKeyVersion s else 1
           else ef_KeyVersion file) = ver) as ->.
  { subst ver. rewrite Hver. destruct (_ <=? _); [|done]. destruct (Z.ltb_spec 0 (vs_currentKeyVersion s)); lia. }
  set (updated := if IsZero _ then _ else _). set (f := mkVarFile _ ver _ _ updated).
  assert (0 ≤ updated < year_10000) as Hupd by (subst updated; by destruct (IsZero _)).
  assert (int64 ver ∧ int64 (Z.max ver (va_version v))) as [Hiv Him].
  { subst ver. rewrite Hver. unfold int64, min_int64, max_int64 in *. destruct (_ <=? _); lia. }
  destruct (Holds_insert P v s d ro (norm (ef_Name file)) (ver, data, pass) f (Z.max ver (va_version v)))
    as (d' & Hpers & Hh'); [done..|by eapply good_sealed|done|done|done|].
  clearbody f. destruct s as [r m files cur]. simpl in *.
  assert ((if cur <? ver then mkVarStore r m (<[norm (ef_Name file) := f]> files) ver
           else mkVarStore r m (<[norm (ef_Name file) := f]> files) cur) =
          mkVarStore r m (<[norm (ef_Name file) := f]> files) (Z.max ver (va_version v))) as ->.
  { destruct (Z.ltb_spec cur ver); f_equal; lia. }
  rewrite Hpers. simpl. by split.
Qed.

Lemma Holds_lookup P v s d n :
  Holds P v s d →
  match va_files v !! n, vs_files s !! n with
  | Some e, Some f => entry_ok e f ∧ e.2 ∈ P ∧ good_file n f
  | None, None => True
  | _, _ => False
  end.
Proof.
  intros [[Hs _ _ _] _ Hrel Hp]. specialize (Hrel n). destruct (va_files v !! n) as [e|] eqn:He, (vs_files s !! n) as [f|] eqn:Hf;
    inversion Hrel; subst; try done. split; [done|]. split; [by apply (Hp _ _ He)|]. by apply (si_files _ Hs).
Qed.

Lemma Delete_step P v s d name :
  can_write (path "manifest") = true → Holds P v s d →
  let '(s', d', r) := Delete can_write name s d in
  let '(v', ok) := vault_op v (VDelete name) in r = ok ∧ Holds P v' s' d'.
Proof.
  intros Hw Hh. unfold Delete, vault_op, normalizeEncryptedVarName. set (n := norm name).
  pose proof (Holds_lookup _ _ _ _ n Hh) as Hn.
  destruct (va_files v !! n) as [e|] eqn:He, (vs_files s !! n) as [f|] eqn:Hf; try done; cycle 1.
  { rewrite bool_decide_eq_false_2 by (by intros [? [=]]). split; [done|]. rewrite delete_id by done. by destruct v. }
  rewrite bool_decide_eq_true_2 by eauto. destruct Hn as (_ & _ & _ & Hu & _).
  destruct Hh as [[[Hr Hm Hfiles Hi] Hdisk Ho Hv] Hver Hrel Hp].
  destruct s as [r m files cur]. unfold persistManifestLocked, WriteFile. simpl in *. subst r m. rewrite Hw. simpl.
  split; [done|]. split; simpl; [|done|by apply map_Forall2_delete|by apply map_Forall_delete].
  split; simpl; [split; [done..|by apply map_Forall_delete|done]| | |right; apply lookup_insert_eq].
  - intros k g [Hk Hg]%lookup_delete_Some. destruct (Hfiles _ _ Hg) as (_ & Huk & _).
    rewrite lookup_insert_ne by (by apply not_eq_sym, usable_not_manifest).
    rewrite lookup_delete_ne; [by apply Hdisk|]. by intros ?%usable_path_inj.
  - apply only_files_insert; [by right|]. intros p [[c Hp'] Hglob]%elem_of_glob.
    apply lookup_delete_Some in Hp' as [Hne Hp'].
    destruct (Ho p) as [->|(k & Hk & ->)]; [apply elem_of_glob; eauto|by left|]. right. exists k.
    split; [|done]. rewrite lookup_delete_ne; [done|]. by intros ->.
Qed.

Lemma rotate_item_spec P nxt old new nonce now e f :
  honest P → old ∈ P → e.2 ∈ P → entry_ok e f → (∀ x, nonce = Some x → String.length x = NonceSize) →
  match rotate_item nxt old new nonce now f with
  | Ok f' => e.2 = old ∧ is_Some nonce ∧ ef_Name f' = ef_Name f ∧ ef_UpdatedAt f' = now ∧ entry_ok (nxt, e.1.2, new) f'
  | Err _ => ¬ (e.2 = old ∧ is_Some nonce)
  end.
Proof.
  intros HP Hold He [Hver Hsealed] Hn. unfold rotate_item. rewrite (decrypt_sealed P _ _ _ _ _ HP He Hold Hsealed).
  destruct (eqs e.2 old) eqn:Heq; rewrite ?eqs_true, ?eqs_false in Heq; [|by intros [? _]].
  destruct nonce as [x|]; cycle 1.
  { unfold encryptVariablePayload. destruct (data_Marshal _); simpl; by intros [_ [? [=]]]. }
  destruct (encrypt_sealed e.1.2 new x) as (c & n & -> & Hs); [by destruct Hsealed|by apply Hn|].
  simpl. destruct f. simpl in *. split_and!; eauto. by split.
Qed.

(** The loop of [Rotate], in any order. *)
Lemma rotate_fold nxt old new nonces nows items acc :
  NoDup items.*1 →
  match foldM_res (rotate_step nxt old new nonces nows) acc items with
  | Ok m' =>
      (∀ n f, (n, f) ∈ items → ∃ f', rotate_item nxt old new (nonces n) (nows n) f = Ok f' ∧ m' !! n = Some f') ∧
      (∀ n, n ∉ items.*1 → m' !! n = acc !! n)
  | Err _ => ∃ n f e, (n, f) ∈ items ∧ rotate_item nxt old new (nonces n) (nows n) f = Err e
  end.
Proof.
  revert acc; induction items as [|[n f] items IH]; intros acc Hnd; cbn [foldM_res].
  { split; [set_solver|done]. }
  inversion Hnd as [|? ? Hnotin Hnd']; subst. cbn [rotate_step].
  destruct (rotate_item nxt old new (nonces n) (nows n) f) as [f'|e] eqn:Hf; cbn [bind];
    [|exists n, f, e; split; [by left|done]].
  specialize (IH (<[n := f']> acc) Hnd'). destruct (foldM_res _ _ items) as [m'|e]; cycle 1.
  - destruct IH as (k & g & e' & ? & ?). exists k, g, e'. split; [by right|done].
  - destruct IH as [Hin Hout]. split.
    + intros k g [[= -> ->]|Hk]%elem_of_cons; [|by apply Hin]. exists f'. split; [done|].
      rewrite Hout by done. apply lookup_insert_eq.
    + intros k Hk. rewrite fmap_cons, not_elem_of_cons in Hk. destruct Hk as [Hne Hk]. simpl in Hne.
      rewrite Hout by done. by rewrite lookup_insert_ne.
Qed.

(** What the loop makes of the files of a store that holds a vault. *)
Lemma rotate_files P v s d nxt old new nonces nows ro m' :
  Holds P v s d → honest P → old ∈ P → new ∈ P → int64 nxt →
  (∀ n x, nonces n = Some x → String.length x = NonceSize) → (∀ n, 0 ≤ nows n < year_10000) →
  foldM_res (rotate_step nxt old new nonces nows) ∅ (range ro (vs_files s)) = Ok m' →
  map_Forall (λ n e, e.2 = old ∧ is_Some (nonces n)) (va_files v) ∧ dom m' = dom (vs_files s) ∧
  map_Forall good_file m' ∧
  map_Forall2 (λ _, entry_ok) ((λ e : Z * Data * string, (nxt, e.1.2, new)) <$> va_files v) m'.
Proof.
  intros Hh HP Hold Hnew Hi Hn Hnows Hok.
  assert (NoDup (range ro (vs_files s)).*1) as Hnd by (apply NoDup_range).
  pose proof (rotate_fold nxt old new nonces nows _ ∅ Hnd) as Hfold. rewrite Hok in Hfold. destruct Hfold as [Hin Hout].
  assert (∀ n, match va_files v !! n with
               | Some e => (e.2 = old ∧ is_Some (nonces n)) ∧ is_Some (vs_files s !! n) ∧
                   ∃ f', m' !! n = Some f' ∧ good_file n f' ∧ entry_ok (nxt, e.1.2, new) f'
               | None => vs_files s !! n = None ∧ m' !! n = None end) as Hm.
  { intros n. pose proof (Holds_lookup _ _ _ _ n Hh) as Hl.
    destruct (va_files v !! n) as [e|] eqn:He, (vs_files s !! n) as [f|] eqn:Hf; try done.
    - destruct Hl as (Hent & Hp & Hg). destruct (Hin n f) as (f' & Hrot & Hm').
      { by rewrite elem_of_range. }
      pose proof (rotate_item_spec P nxt old new (nonces n) (nows n) e f HP Hold Hp Hent (Hn n)) as Hsp.
      rewrite Hrot in Hsp. destruct Hsp as (? & ? & Hname & Hup & Hent'). split_and!; try done. exists f'.
      split_and!; [done| |done]. destruct Hg as (<- & Hu & _). destruct f' as [n' ver c nonce t]. simpl in *. subst n' t.
      destruct Hent' as [Hver' Hs']. simpl in *. subst ver. eapply good_sealed; eauto.
    - split; [done|]. rewrite Hout; [done|]. intros [[k f] [-> Hk]]%list_elem_of_fmap.
      rewrite elem_of_range in Hk. simpl in *. by rewrite Hf in Hk. }
  split_and!.
  - intros n e He. specialize (Hm n). rewrite He in Hm. tauto.
  - apply set_eq. intros n. rewrite !elem_of_dom. specialize (Hm n). destruct (va_files v !! n) as [e|].
    + destruct Hm as (_ & ? & f' & -> & _). by split.
    + by destruct Hm as [-> ->].
  - intros n f Hf. specialize (Hm n). destruct (va_files v !! n) as [e|].
    + destruct Hm as (_ & _ & f' & Hf' & ? & _). by simplify_eq.
    + destruct Hm as [_ Hm]. by rewrite Hf in Hm.
  - intros n. rewrite lookup_fmap. specialize (Hm n). destruct (va_files v !! n) as [e|]; simpl.
    + destruct Hm as (_ & _ & f' & -> & _ & ?). by constructor.
    + destruct Hm as [_ ->]. constructor.
Qed.

Lemma Rotate_step P v s d old new nonces nows now ro ro' :
  can_write (path "manifest") = true → Holds P v s d → honest P → TrimSpace old ∈ P → TrimSpace new ∈ P →
  op_ok (VRotate old new nonces nows now ro ro') →
  let '(s', d', r) := Rotate can_write old new nonces nows now ro ro' s d in
  let '(v', ok) := vault_op v (VRotate old new nonces nows now ro ro') in is_Ok r = ok ∧ Holds P v' s' d'.
Proof.
  intros Hw Hh HP Hold Hnew [Hn Hnows]. unfold Rotate, vault_op. destruct (_ || _); [done|].
  pose proof (ho_version _ _ _ _ Hh) as Hver. rewrite Hver. set (nxt := next_version _).
  assert (int64 nxt) as Hi by apply next_version_int64.
  destruct (foldM_res _ _ _) as [m'|e] eqn:Hfold.
  - destruct (rotate_files _ _ _ _ _ _ _ _ _ _ _ Hh HP Hold Hnew Hi Hn Hnows Hfold) as (Hall & Hdom & Hgood & Hrel).
    rewrite bool_decide_eq_true_2 by done.
    destruct (Holds_persist P v s d (mkVault nxt ((λ e : Z * Data * string, (nxt, e.1.2, TrimSpace new)) <$> va_files v))
      (s <| vs_files := m' |> <| vs_currentKeyVersion := nxt |>) ro') as (d' & Hpers & Hh'); try done.
    + intros n. change (is_Some (vs_files s !! n) → is_Some (m' !! n)). by rewrite <-!elem_of_dom, Hdom.
    + intros n e. simpl. rewrite lookup_fmap. by intros [e' [_ ->]]%fmap_Some.
    + rewrite Hpers. simpl. by split.
  - assert (NoDup (range ro (vs_files s)).*1) as Hnd by (apply NoDup_range).
    pose proof (rotate_fold nxt (TrimSpace old) (TrimSpace new) nonces nows _ ∅ Hnd) as Hf. rewrite Hfold in Hf.
    destruct Hf as (n & f & e' & Hin & Hrot). rewrite elem_of_range in Hin.
    rewrite bool_decide_eq_false_2; [done|]. intros Hall. pose proof (Holds_lookup _ _ _ _ n Hh) as Hl. rewrite Hin in Hl.
    destruct (va_files v !! n) as [en|] eqn:Hen; [|done]. destruct Hl as (Hent & Hp & _).
    pose proof (rotate_item_spec P nxt (TrimSpace old) (TrimSpace new) (nonces n) (nows n) en f HP Hold Hp Hent (Hn n)) as Hsp.
    rewrite Hrot in Hsp. apply Hsp, (Hall n en Hen).
Qed.

(** ** The theorem's parts *)

Lemma Get_Holds P v s d name ask :
  Holds P v s d → honest P → ask ∈ P →
  (let? r := Get name ask s in Ok (r.1, sm_KeyVersion r.2)) = vault_Get name ask v.
Proof.
  intros Hh HP Ha. unfold Get, vault_Get, normalizeEncryptedVarName.
  destruct (eqs (norm name) ""); [done|]. destruct (eqs (TrimSpace ask) ""); [done|]. cbn [fail_if bind].
  pose proof (Holds_lookup _ _ _ _ (norm name) Hh) as Hl.
  destruct (va_files v !! norm name) as [[[ver data] pass]|], (vs_files s !! norm name) as [f|]; try done.
  destruct Hl as ([Hver Hs] & Hp & _). cbn [option_err bind]. simpl in *.
  rewrite (decrypt_sealed P _ _ _ _ _ HP Hp Ha Hs). destruct (eqs pass ask); [|done]. simpl. by rewrite Hver.
Qed.

#[export] Instance sm_le_trans : Transitive sm_le.
Proof. intros f g h. unfold sm_le. by transitivity (sm_Name g). Qed.
#[export] Instance sm_le_total : Total sm_le.
Proof. intros f g. unfold sm_le. apply (total String.le). Qed.

Lemma List_names P v s d ro :
  Holds P v s d → sm_Name <$> ListFiles ro s = sort_strings (elements (dom (va_files v))).
Proof.
  intros [[Hs _ _ _] _ Hrel _]. rewrite (map_Forall2_dom_L _ _ _ Hrel). symmetry.
  apply sort_strings_unique; [|by apply (StronglySorted_fmap _ sm_le _), (StronglySorted_merge_sort sm_le)].
  unfold ListFiles. rewrite merge_sort_Permutation, <-list_fmap_compose.
  destruct (range_names ro _ (si_files _ Hs)) as [Hnd Hall]. apply NoDup_Permutation; [apply NoDup_elements|done|].
  intros n. rewrite elem_of_elements, elem_of_dom, list_elem_of_fmap. split.
  - intros [f Hf]. exists f. destruct (si_files _ Hs _ _ Hf) as [<- _]. split; [done|]. apply list_elem_of_fmap.
    exists (ef_Name f, f). split; [done|]. by rewrite elem_of_range.
  - intros (f & -> & Hf). rewrite Forall_forall in Hall. exists f. by apply Hall.
Qed.

Lemma KeyStatus_Holds P v s d :
  Holds P v s d → KeyStatus s = mkKeyStatus (va_version v) (Z.of_nat (size (va_files v))).
Proof.
  intros [_ Hver Hrel _]. unfold KeyStatus. rewrite Hver, <-!size_dom, (map_Forall2_dom_L _ _ _ Hrel). done.
Qed.

Lemma new_Holds P d :
  glob_json root d = [] → Holds P (mkVault 0 ∅) (NewEncryptedVariableStore base d) d.
Proof.
  intros Hg. assert (d !! path "manifest" = None) as Hman.
  { apply eq_None_not_Some. intros Hd. apply (path_in_glob root root_nonempty "manifest") in Hd; [|done]. rewrite Hg in Hd. set_solver. }
  unfold NewEncryptedVariableStore, load. cbn [vs_manifestPath].
  change (filepath_Join [root; "manifest.json"]) with (path "manifest"). rewrite Hman. simpl. rewrite Hg. simpl.
  split; simpl; [|done|apply map_Forall2_empty|done]. split; simpl; [split; [done..|by vm_compute]|done| |by left].
  intros p. rewrite Hg. set_solver.
Qed.

Lemma run_Holds P v s d ops :
  can_write (path "manifest") = true → honest P → Holds P v s d → Forall op_ok ops → (∀ p, p ∈ ops ≫= op_passphrases → p ∈ P) →
  let '(s', d', oks) := run_vars can_write base s d ops in
  let '(v', oks') := run_vault v ops in oks = oks' ∧ Holds P v' s' d'.
Proof.
  intros Hw HP. revert v s d; induction ops as [|op ops IH]; intros v s d Hh Hops Hps; [done|].
  apply Forall_cons in Hops as [Hop Hops]. cbn [run_vars run_vault].
  assert (∀ p, p ∈ op_passphrases op → p ∈ P) as Hp by (intros p ?; apply Hps; rewrite bind_cons, elem_of_app; by left).
  assert (∀ p, p ∈ ops ≫= op_passphrases → p ∈ P) as Hps' by (intros p ?; apply Hps; rewrite bind_cons, elem_of_app; by right).
  assert (let '(s', d', ok) := run_var_op can_write base s d op in
          let '(v', ok') := vault_op v op in ok = ok' ∧ Holds P v' s' d') as Hstep.
  { destruct op as [name data pass nonce now ro|file data pass now ro|name|old new nonces nows now ro ro'|]; cbn [run_var_op].
    - pose proof (Upsert_step P v s d name data pass nonce now ro Hw Hh Hop) as Hs. destruct (Upsert _ _ _ _ _ _ _ _ _) as [[??]?].
      apply Hs, Hp; by left.
    - pose proof (Put_step P v s d file data pass now ro Hw Hh Hop) as Hs. destruct (UpsertEncryptedFile _ _ _ _ _ _) as [[??]?].
      apply Hs, Hp; by left.
    - by apply Delete_step.
    - pose proof (Rotate_step P v s d old new nonces nows now ro ro' Hw Hh HP) as Hs. destruct (Rotate _ _ _ _ _ _ _ _ _ _) as [[??]?].
      apply Hs; [apply Hp; by left|apply Hp; by right; left|done].
    - split; [done|]. by rewrite (load_synced s d) by apply Hh. }
  destruct (run_var_op _ _ _ _ _) as [[s1 d1] ok], (vault_op v op) as [v1 ok']. destruct Hstep as [-> Hh1].
  specialize (IH v1 s1 d1 Hh1 Hops Hps'). destruct (run_vars _ _ _ _ _) as [[s2 d2] oks], (run_vault _ _) as [v2 oks'].
  by destruct IH as [-> ?].
Qed.
End laws.

(** C29: Encrypted variable files are a vault.  From a directory without JSON
    files, over any sequence of calls and restarts that are [op_ok] — the name is
    blank or has a file in the directory that can be written and is not the
    manifest's, an imported file is sealed as the store seals — and while the
    manifest can be written: every call succeeds exactly when it does on the vault
    of plain data, and then: [Get] under any passphrase gives the data and key
    version of the vault, or its error; the key status and the names listed are
    the vault's; and a new process reads back the very store.  In particular a
    rotation succeeds exactly when every file is sealed with the old passphrase
    and random bytes can be drawn, and otherwise changes nothing.  Also assumed:
    no passphrase involved opens what another one seals.  What a failing write
    does is not covered here, see [failed_rotation_rotates]. *)
Theorem encrypted_variable_vault `{VarCodecLaws} can_write base disk ops ask ro :
  glob_json (root_of base) disk = [] → can_write (json_path (root_of base) "manifest") = true →
  Forall (op_ok can_write base) ops → honest (ask :: (ops ≫= op_passphrases)) →
  let '(s, disk, oks) := run_vars can_write base (NewEncryptedVariableStore base disk) disk ops in
  let '(v, oks') := run_vault (mkVault 0 ∅) ops in
  oks = oks' ∧
  (∀ name, (let? r := Get name ask s in Ok (r.1, sm_KeyVersion r.2)) = vault_Get name ask v) ∧
  KeyStatus s = mkKeyStatus (va_version v) (Z.of_nat (size (va_files v))) ∧
  sm_Name <$> ListFiles ro s = sort_strings (elements (dom (va_files v))) ∧
  NewEncryptedVariableStore base disk = s.
Proof.
  intros Hg Hw Hops HP. set (P := ask :: _) in HP.
  pose proof (run_Holds can_write base P _ _ _ ops Hw HP (new_Holds can_write base P disk Hg) Hops) as Hrun.
  destruct (run_vars _ _ _ _ _) as [[s d] oks], (run_vault _ _) as [v oks']. destruct Hrun as [-> Hh]; [by right|].
  split; [done|]. split; [intros name; eapply Get_Holds; [done..|by left]|].
  split; [by eapply KeyStatus_Holds|]. split; [by eapply List_names|]. eapply load_synced, Hh.
Qed.

(** ** A codec to compute with

    Data are strings, a key is its passphrase, a sealed text shows the key and
    nonce it was sealed with, and what Go writes as JSON is written in binary. *)

Module Toy.
#[export] Instance file_eq_dec : EqDecision EncryptedVariableFile.
Proof. solve_decision. Defined.
#[export] Instance file_countable : Countable EncryptedVariableFile.
Proof.
  refine (inj_countable' (λ f, (ef_Name f, ef_KeyVersion f, ef_Ciphertext f, ef_Nonce f, ef_UpdatedAt f))
    (λ '(n, v, c, x, t), mkVarFile n v c x t) _). by intros [].
Defined.

Definition frame (k n : string) : string := EncodeToString k +:+ "." +:+ EncodeToString n +:+ ".".

#[export] Instance codec : VarCodec := {
  Data := string;
  empty_data := "{}";
  data_Marshal := Some;
  data_Unmarshal := λ s, Some (Some s);
  Sum256 := λ s, s;
  Seal := λ k n p, frame k n +:+ p;
  Open := λ k n c, if HasPrefix c (frame k n) then Some (drop_str (String.length (frame k n)) c) else None;
  file_Marshal := λ f, Some (bits (encode f));
  file_Unmarshal := λ s, unbits s ≫= decode;
  manifest_Marshal := λ v, bits (encode v);
  manifest_Unmarshal := λ s, unbits s ≫= decode;
}.

Lemma drop_app s t : drop_str (String.length s) (s +:+ t) = t.
Proof. by induction s. Qed.

#[export] Instance laws : VarCodecLaws.
Proof.
  refine {| plain_data := λ _, True |}; simpl; try done.
  - eauto.
  - intros k n p. rewrite (proj2 (HasPrefix_true _ _)) by by eexists. by rewrite drop_app.
  - intros k n p Heq%(f_equal String.length). unfold frame in Heq. rewrite !length_append in Heq. simpl in Heq. lia.
  - intros f _. eexists. split; [done|]. rewrite unbits_bits_app. apply decode_encode.
  - intros v _. rewrite unbits_bits_app. apply decode_encode.
Defined.
End Toy.
Import Toy.

Definition toy_nonce : option string := Some "twelve bytes".
Definition toy_ops : list var_op :=
  [VUpsert " Prod " (Some "{1}") "old" toy_nonce 5 some_order;
   VUpsert "dev" None "old" toy_nonce 6 some_order;
   VRotate "wrong" "new" (λ _, toy_nonce) (λ _, 7) 7 some_order some_order;
   VRotate "old" "new" (λ _, toy_nonce) (λ _, 7) 8 some_order some_order;
   VDelete "dev"; VRestart].

Lemma toy_honest P : P ⊆ ["new"; "old"; "wrong"] → honest P.
Proof.
  intros HP p q n x Hp%HP Hq%HP Hne. rewrite !elem_of_cons in Hp, Hq.
  destruct Hp as [->|[->|[->|[]%not_elem_of_nil]]], Hq as [->|[->|[->|[]%not_elem_of_nil]]];
    first [by destruct Hne|vm_compute; reflexivity].
Qed.

Lemma toy_usable n : n ∈ ["prod"; "dev"] → usable (λ _, true) "/srv" n.
Proof.
  rewrite !elem_of_cons. intros [->|[->|[]%not_elem_of_nil]]; (split; [by vm_compute|]);
    do 3 (split; [by vm_compute|]); (split; [|done]); vm_compute; repeat split; lia.
Qed.

Lemma toy_ops_ok : Forall (op_ok (λ _, true) "/srv") toy_ops.
Proof.
  repeat (apply Forall_cons; split); cbn [op_ok]; try done;
    repeat split; try (right; apply toy_usable; set_solver); try lia; unfold toy_nonce; intros; by simplify_eq.
Qed.

Lemma encrypted_variable_vault_witness :
  let '(s, disk, oks) := run_vars (λ _, true) "/srv" (NewEncryptedVariableStore "/srv" ∅) ∅ toy_ops in
  oks = [true; true; false; true; true; true] ∧
  (let? r := Get "PROD" "new" s in Ok (r.1, sm_KeyVersion r.2)) = Ok ("{1}", 2) ∧
  NewEncryptedVariableStore "/srv" disk = s.
Proof.
  assert (honest ("new" :: (toy_ops ≫= op_passphrases))) as HP.
  { apply toy_honest. change (["new"; "old"; "old"; "wrong"; "new"; "old"; "new"] ⊆ ["new"; "old"; "wrong"]). set_solver. }
  assert ((run_vault (mkVault 0 ∅) toy_ops).2 = [true; true; false; true; true; true]) as Hoks by (vm_compute; reflexivity).
  assert (vault_Get "PROD" "new" (run_vault (mkVault 0 ∅) toy_ops).1 = Ok ("{1}", 2)) as Hvget by (vm_compute; reflexivity).
  pose proof (encrypted_variable_vault (λ _, true) "/srv" ∅ toy_ops "new" some_order eq_refl eq_refl toy_ops_ok HP) as Hv.
  destruct (run_vault _ _) as [v oks'], (run_vars _ _ _ _ _) as [[s disk] oks]. destruct Hv as (-> & Hget & _ & _ & Hnew).
  split; [exact Hoks|]. split; [|exact Hnew]. rewrite (Hget "PROD"). exact Hvget.
Defined.

(** ** Names without a place, and other surprises *)

Section blocked.
Context `{VarCodec}.
Variable can_write : string → bool.

Lemma persist_blocked ro s d n f :
  vs_files s !! n = Some f → can_write (json_path (vs_rootDir s) (ef_Name f)) = false →
  is_Ok (persistLocked can_write ro s d).2 = false.
Proof.
  intros Hf Hw. assert (f ∈ (range ro (vs_files s)).*2) as Hin.
  { apply list_elem_of_fmap. exists (n, f). split; [done|]. by rewrite elem_of_range. }
  unfold persistLocked. clear Hf. revert d; induction (range ro (vs_files s)).*2 as [|g items IH]; intros d; [set_solver|].
  cbn [persist_items]. destruct (file_Marshal g); [|done]. unfold WriteFile.
  apply elem_of_cons in Hin as [->|Hin]; [by rewrite Hw|].
  destruct (can_write (json_path _ (ef_Name g))); [by apply IH|done].
Qed.

Lemma after_persist_blocked {A} s (r : Disk * result vars_error unit) (a : A) :
  is_Ok r.2 = false → is_Ok (after_persist s r a).2 = false.
Proof. by destruct r as [d [u|e]]. Qed.

(** A rotation whose writes fail reports the error, but the memory is rotated:
    from then on the files open under the new passphrase only, while the directory
    still holds some of those sealed with the old one. *)
Theorem failed_rotation_rotates old new nonces nows now ro ro' s d updated :
  TrimSpace old ≠ "" → TrimSpace new ≠ "" →
  foldM_res (rotate_step (next_version (vs_currentKeyVersion s)) (TrimSpace old) (TrimSpace new) nonces nows) ∅
    (range ro (vs_files s)) = Ok updated →
  can_write (vs_manifestPath s) = false →
  let '(s', d', r) := Rotate can_write old new nonces nows now ro ro' s d in
  is_Ok r = false ∧ vs_files s' = updated ∧ vs_currentKeyVersion s' = next_version (vs_currentKeyVersion s).
Proof.
  intros Ho Hn Hf Hw. unfold Rotate. rewrite (proj2 (eqs_false _ _) Ho), (proj2 (eqs_false _ _) Hn), Hf.
  set (s1 := s <| vs_files := _ |> <| vs_currentKeyVersion := _ |>).
  assert (is_Ok (persistLocked can_write ro' s1 d).2 = false) as Hp.
  { unfold persistLocked. destruct (persist_items _ _ _ _) as [d1 [u|e]]; [|done]. unfold persistManifestLocked, WriteFile.
    change (vs_manifestPath s1) with (vs_manifestPath s). by rewrite Hw. }
  by destruct (persistLocked can_write ro' s1 d) as [d1 [u|e]].
Qed.

(** A file whose path cannot be written keeps every other file from being
    saved: the call that added it fails, but the file stays in memory and each
    later [Upsert] tries to write it again. *)
Theorem unwritable_name_blocks name data pass nonce plain now ro s d :
  norm name ≠ "" → TrimSpace pass ≠ "" → data_Marshal data = Some plain →
  can_write (json_path (vs_rootDir s) (norm name)) = false →
  let '(s', d', r) := Upsert can_write name (Some data) pass (Some nonce) now ro s d in
  is_Ok r = false ∧ Exists name s' = true ∧
  ∀ name2 data2 pass2 nonce2 now2 ro2 d2, is_Ok (Upsert can_write name2 data2 pass2 nonce2 now2 ro2 s' d2).2 = false.
Proof.
  intros Hn Hp Hm Hw. unfold Upsert at 1, normalizeEncryptedVarName, encryptVariablePayload.
  rewrite (proj2 (eqs_false (norm name) "")), (proj2 (eqs_false (TrimSpace pass) "")) by done.
  change (default empty_data (Some data)) with data. rewrite Hm.
  set (s1 := if vs_currentKeyVersion s <=? 0 then _ else _). assert (vs_rootDir s1 = vs_rootDir s) as Hr.
  { subst s1. destruct s as [r m files cur]. simpl. by destruct (cur <=? 0). }
  set (f := mkVarFile _ _ _ _ now). set (s2 := s1 <| vs_files := _ |>).
  assert (vs_files s2 !! norm name = Some f ∧ vs_rootDir s2 = vs_rootDir s) as [Hf Hr2].
  { rewrite <-Hr. split; [apply lookup_insert_eq|done]. }
  assert (ef_Name f = norm name) as Hnf by done. clearbody s2 f. clear s1 Hr. pose proof (persist_blocked ro s2 d _ f Hf) as Hb. simpl in Hb. rewrite Hr2, Hnf in Hb.
  destruct (after_persist s2 (persistLocked can_write ro s2 d) (encryptedFileSummary f)) as [[s' d'] r] eqn:Ha.
  assert (s' = s2 ∧ is_Ok r = false) as [-> Hok].
  { specialize (Hb Hw). destruct (persistLocked can_write ro s2 d) as [d1 [u|e]]; simpl in *; [done|]. by simplify_eq. }
  split; [done|]. split.
  { unfold Exists, normalizeEncryptedVarName. rewrite (proj2 (eqs_false (norm name) "")) by done.
    apply bool_decide_eq_true_2. by rewrite Hf. }
  intros name2 data2 pass2 nonce2 now2 ro2 d2. unfold Upsert, normalizeEncryptedVarName.
  destruct (eqs (norm name2) ""); [done|]. destruct (eqs (TrimSpace pass2) ""); [done|].
  destruct (encryptVariablePayload _ _ _) as [[c n]|e]; [|done]. apply after_persist_blocked.
  set (g := mkVarFile _ _ _ _ now2). set (s3 := if vs_currentKeyVersion s2 <=? 0 then _ else _) in *.
  assert (vs_rootDir s3 = vs_rootDir s ∧ vs_files s3 = vs_files s2) as [Hr3 Hf3].
  { subst s3. rewrite <-Hr2. destruct s2 as [r2 m2 files2 cur2]. simpl. by destruct (cur2 <=? 0). }
  destruct (decide (norm name2 = norm name)) as [Heq|Hne].
  - apply (persist_blocked _ _ _ (norm name2) g); [apply lookup_insert_eq|]. change (can_write (json_path (vs_rootDir s3) (norm name2)) = false).
    by rewrite Hr3, Heq.
  - apply (persist_blocked _ _ _ (norm name) f); [|rewrite Hnf; change (can_write (json_path (vs_rootDir s3) (norm name)) = false); by rewrite Hr3].
    change (<[norm name2 := g]> (vs_files s3) !! norm name = Some f). rewrite lookup_insert_ne by done. by rewrite Hf3.
Qed.
End blocked.

Definition toy_run := run_vars (λ _, true) "/srv" (NewEncryptedVariableStore "/srv" ∅) ∅.
Definition toy_get (name pass : string) (ops : list var_op) : result vars_error string :=
  let? r := Get name pass (toy_run ops).1.1 in Ok r.1.

(** A file named [manifest] is saved and then overwritten by the manifest: it is
    lost at the next start, as is a file whose name leads out of the directory. *)
Theorem manifest_name_lost :
  let ops name := [VUpsert name (Some "{1}") "old" toy_nonce 5 some_order] in
  Forall (λ name, (toy_run (ops name)).2 = [true] ∧ toy_get name "old" (ops name) = Ok "{1}" ∧
    toy_get name "old" (ops name ++ [VRestart]) = Err FileNotFound) ["Manifest"; "../prod"].
Proof. repeat constructor; vm_compute; reflexivity. Qed.

(** [Rotate] trims its passphrases, [Upsert] and [Get] do not: a file sealed
    under a passphrase with a blank around it cannot be rotated, and after a
    rotation to such a passphrase it does not open with it. *)
Theorem rotation_trims_passphrases :
  let put pass := VUpsert "prod" (Some "{1}") pass toy_nonce 5 some_order in
  let rotate old new := VRotate old new (λ _, toy_nonce) (λ _, 6) 6 some_order some_order in
  (toy_run [put " pw "; rotate " pw " "new"]).2 = [true; false] ∧
  (toy_run [put "pw"; rotate "pw" " new "]).2 = [true; true] ∧
  toy_get "prod" " new " [put "pw"; rotate "pw" " new "] = Err OpenFailed ∧
  toy_get "prod" "new" [put "pw"; rotate "pw" " new "] = Ok "{1}".
Proof. split_and!; vm_compute; reflexivity. Qed.

(** A nonce of any length is imported; one that is not 12 bytes long makes each
    [Get] and [Rotate] panic. *)
Theorem imported_nonce_panics :
  let f := mkVarFile "prod" 1 "Zm9v" "Zm9v" 5 in
  let ops := [VPut f "" "" 5 some_order] in
  (toy_run ops).2 = [true] ∧ toy_get "prod" "pw" ops = Err NoncePanic ∧
  (Rotate (λ _, true) "pw" "new" (λ _, toy_nonce) (λ _, 6) 6 some_order some_order (toy_run ops).1.1 ∅).2 = Err NoncePanic.
Proof. split_and!; vm_compute; reflexivity. Qed.
