(* ===== verification/AlertInbox.v ===== *)
(** * The alert inbox: [internal/control/alert_inbox.go]

    Alerts are grouped by fingerprint: the first one of a fingerprint makes an
    item, later ones are counted on it, and while a suppression of the
    fingerprint lasts they are only tallied.  Proved: what every item says is a
    function of the history of calls, and when an alert is suppressed. *)

From S2P Require Import Prelude EventLog.

Inductive AlertStatus := AlertOpen | AlertAcknowledged | AlertResolved.
#[export] Instance AlertStatus_eq_dec : EqDecision AlertStatus.
Proof. solve_decision. Defined.

Definition status_string (st : AlertStatus) : string :=
  match st with
  | AlertOpen => "open"
  | AlertAcknowledged => "acknowledged"
  | AlertResolved => "resolved"
  end.

(** A value of [map[string]any]: a string, or something else. *)
Inductive FieldValue (A : Type) := FString (s : string) | FOther (v : A).
Arguments FString {A} s.
Arguments FOther {A} v.

Record AlertSuppression : Type := mkSuppression {
  su_Fingerprint : string;
  su_Until : Time;
  su_Reason : string;
  su_Hits : Z;
}.
#[export] Instance AlertSuppression_eta : Eta AlertSuppression := λ r,
  mkSuppression (su_Fingerprint r) (su_Until r) (su_Reason r) (su_Hits r).

Record AlertRoutingPolicy : Type := mkRouting {
  ro_CriticalRoute : string;
  ro_HighRoute : string;
  ro_MediumRoute : string;
  ro_LowRoute : string;
  ro_UpdatedAt : Time;
}.

Record AlertSummary : Type := mkAlertSummary {
  as_Open : Z;
  as_Acknowledged : Z;
  as_Resolved : Z;
  as_ActiveSuppressions : Z;
  as_Total : Z;
}.
#[export] Instance AlertSummary_eta : Eta AlertSummary := λ r,
  mkAlertSummary (as_Open r) (as_Acknowledged r) (as_Resolved r) (as_ActiveSuppressions r) (as_Total r).

Section types.
Context {A : Type}.

(** A [nil] and an empty map of fields are one value. *)
Definition Fields : Type := gmap string (FieldValue A).

Record AlertItem : Type := mkAlert {
  al_ID : string;
  al_Fingerprint : string;
  al_EventType : string;
  al_Message : string;
  al_Severity : string;
  al_Route : string;
  al_Count : Z;
  al_SuppressedCount : Z;
  al_FirstSeenAt : Time;
  al_LastSeenAt : Time;
  al_Status : AlertStatus;
  al_Fields : Fields;
}.

Record AlertIngest : Type := mkIngest {
  in_Fingerprint : string;
  in_EventType : string;
  in_Message : string;
  in_Severity : string;
  in_Fields : Fields;
}.

Record AlertIngestResult : Type := mkIngestResult {
  ar_Item : AlertItem;
  ar_Created : bool;
  ar_Deduplicated : bool;
  ar_Suppressed : bool;
}.

Record AlertInbox : Type := mkInbox {
  ai_nextID : Z;
  ai_items : gmap string AlertItem;
  ai_byFingerprint : gmap string string;
  ai_suppressions : gmap string AlertSuppression;
  ai_routingPolicy : AlertRoutingPolicy;
}.
End types.
Arguments Fields A : clear implicits.
Arguments AlertItem A : clear implicits.
Arguments AlertIngest A : clear implicits.
Arguments AlertIngestResult A : clear implicits.
Arguments AlertInbox A : clear implicits.
#[export] Instance AlertItem_eta A : Eta (AlertItem A) := λ r,
  mkAlert (al_ID r) (al_Fingerprint r) (al_EventType r) (al_Message r) (al_Severity r) (al_Route r) (al_Count r)
    (al_SuppressedCount r) (al_FirstSeenAt r) (al_LastSeenAt r) (al_Status r) (al_Fields r).
#[export] Instance AlertInbox_eta A : Eta (AlertInbox A) := λ r,
  mkInbox (ai_nextID r) (ai_items r) (ai_byFingerprint r) (ai_suppressions r) (ai_routingPolicy r).

(** ** Severities and routes *)

Definition normalizeSeverity (raw : string) : string :=
  let s := norm raw in
  if one_of s ["critical"; "crit"; "p0"] then "critical"
  else if one_of s ["high"; "error"; "p1"] then "high"
  else if one_of s ["medium"; "warn"; "warning"; "p2"] then "medium"
  else if one_of s ["low"; "info"; "p3"] then "low"
  else "medium".

Definition routeForSeverity (severity : string) : string :=
  let s := normalizeSeverity severity in
  if eqs s "critical" then "pager" else if eqs s "high" then "ticket" else if eqs s "medium" then "chatops" else "digest".

Definition normalizeAlertRoute (route : string) : string :=
  if one_of (norm route) ["pager"; "ticket"; "chatops"; "digest"] then norm route else "".

Definition routeForSeverityPolicy (severity : string) (policy : AlertRoutingPolicy) : string :=
  let s := normalizeSeverity severity in
  if eqs s "critical" then normalizeAlertRoute (ro_CriticalRoute policy)
  else if eqs s "high" then normalizeAlertRoute (ro_HighRoute policy)
  else if eqs s "medium" then normalizeAlertRoute (ro_MediumRoute policy)
  else normalizeAlertRoute (ro_LowRoute policy).

Definition defaultAlertRoutingPolicy (now : Time) : AlertRoutingPolicy := mkRouting "pager" "ticket" "chatops" "digest" now.

Definition severityRank (severity : string) : Z :=
  let s := normalizeSeverity severity in
  if eqs s "critical" then 4 else if eqs s "high" then 3 else if eqs s "medium" then 2 else 1.

Definition chooseMaxSeverity (current candidate : string) : string :=
  if severityRank current <? severityRank candidate then normalizeSeverity candidate else normalizeSeverity current.

Section inbox.
Context {A : Type}.

Definition NewAlertInbox (now : Time) : AlertInbox A := mkInbox 0 ∅ ∅ ∅ (defaultAlertRoutingPolicy now).

Definition readStringField (fields : Fields A) (key : string) : option string :=
  match fields !! key with
  | Some (FString s) => Some (TrimSpace s)
  | _ => None
  end.

Definition defaultAlertMessage (i : AlertIngest A) : string :=
  if negb (eqs (TrimSpace (in_Message i)) "") then in_Message i
  else if negb (eqs (TrimSpace (in_EventType i)) "") then in_EventType i
  else "alert".

Definition fingerprint_keys : list string := ["service"; "host"; "resource"; "component"; "sev"; "severity"].

(** The part of a field, none if it is absent, blank or no string. *)
Definition fingerprint_part (fields : Fields A) (key : string) : option string :=
  match readStringField fields key with
  | Some v => if eqs v "" then None else Some (key +:+ "=" +:+ ToLower v)
  | None => None
  end.

Definition normalizedAlertFingerprint (i : AlertIngest A) : string :=
  let explicit := norm (in_Fingerprint i) in
  if negb (eqs explicit "") then explicit else
  let base := norm (in_EventType i) in
  let base := if eqs base "" then "alert" else base in
  let msg := norm (in_Message i) in
  Join ((base :: omap (fingerprint_part (in_Fields i)) fingerprint_keys) ++
        (if eqs msg "" then [] else ["msg=" +:+ msg])) "|".

Definition inferSeverityFromEvent (e : Event (Fields A)) : string :=
  let sev := default "" (readStringField (ev_Fields e) "severity") in
  let sev' := default "" (readStringField (ev_Fields e) "sev") in
  let typ := norm (ev_Type e) in
  if negb (eqs sev "") then normalizeSeverity sev
  else if negb (eqs sev' "") then normalizeSeverity sev'
  else if Contains typ "critical" then "critical"
  else if Contains typ "alert" then "high"
  else if Contains typ "error" then "high"
  else if Contains typ "saturation" then "medium"
  else "".

(** ** Operations *)

Definition cleanupSuppressionsLocked (now : Time) (a : AlertInbox A) : AlertInbox A :=
  a <| ai_suppressions := filter (λ fs : string * AlertSuppression, Before now (su_Until fs.2) = true) (ai_suppressions a) |>.

(** The item of a fingerprint; an absent entry of [byFingerprint] reads as [""]. *)
Definition item_of (fp : string) (a : AlertInbox A) : option (AlertItem A) :=
  ai_items a !! default "" (ai_byFingerprint a !! fp).

Definition put_alert (it : AlertItem A) (a : AlertInbox A) : AlertInbox A :=
  a <| ai_items := <[al_ID it := it]> (ai_items a) |>.

Definition suppressed_ingest (fp : string) (i : AlertIngest A) (now : Time) (a : AlertInbox A)
    : AlertInbox A * AlertIngestResult A :=
  match item_of fp a with
  | Some it =>
      let it := it <| al_SuppressedCount := al_SuppressedCount it + 1 |> <| al_LastSeenAt := now |> in
      (put_alert it a, mkIngestResult it false false true)
  | None =>
      let severity := normalizeSeverity (in_Severity i) in
      (a, mkIngestResult (mkAlert "" fp (TrimSpace (in_EventType i)) (defaultAlertMessage i) severity
            (routeForSeverity severity) 0 0 0 0 AlertOpen ∅) false false true)
  end.

Definition repeated_ingest (i : AlertIngest A) (now : Time) (it : AlertItem A) (a : AlertInbox A)
    : AlertInbox A * AlertIngestResult A :=
  let severity := chooseMaxSeverity (al_Severity it) (normalizeSeverity (in_Severity i)) in
  let it := it <| al_LastSeenAt := now |> <| al_Count := al_Count it + 1 |>
               <| al_EventType := TrimSpace (in_EventType i) |> <| al_Message := defaultAlertMessage i |>
               <| al_Fields := in_Fields i |> <| al_Severity := severity |>
               <| al_Route := routeForSeverityPolicy severity (ai_routingPolicy a) |> <| al_Status := AlertOpen |> in
  (put_alert it a, mkIngestResult it false true false).

Definition first_ingest (fp : string) (i : AlertIngest A) (now : Time) (a : AlertInbox A)
    : AlertInbox A * AlertIngestResult A :=
  let next := ai_nextID a + 1 in
  let id := "alert-" +:+ itoa next in
  let severity := normalizeSeverity (in_Severity i) in
  let it := mkAlert id fp (TrimSpace (in_EventType i)) (defaultAlertMessage i) severity
    (routeForSeverityPolicy severity (ai_routingPolicy a)) 1 0 now now AlertOpen (in_Fields i) in
  (put_alert it (a <| ai_nextID := next |>) <| ai_byFingerprint := <[fp := id]> (ai_byFingerprint a) |>,
   mkIngestResult it true false false).

Definition ingest_fingerprint (i : AlertIngest A) : string :=
  let fp := normalizedAlertFingerprint i in if eqs fp "" then "alert:unknown" else fp.

Definition Ingest (i : AlertIngest A) (now : Time) (a : AlertInbox A) : AlertInbox A * AlertIngestResult A :=
  let a := cleanupSuppressionsLocked now a in
  let fp := ingest_fingerprint i in
  let live := s ← ai_suppressions a !! fp; if Before now (su_Until s) then Some s else None in
  match live with
  | Some sup =>
      let sup := sup <| su_Hits := su_Hits sup + 1 |> in
      suppressed_ingest fp i now (a <| ai_suppressions := <[fp := sup]> (ai_suppressions a) |>)
  | None =>
      match item_of fp a with
      | Some it => repeated_ingest i now it a
      | None => first_ingest fp i now a
      end
  end.

(** [None] when the event is no alert. *)
Definition IngestEvent (e : Event (Fields A)) (now : Time) (a : AlertInbox A) : AlertInbox A * option (AlertIngestResult A) :=
  let severity := inferSeverityFromEvent e in
  if eqs severity "" then (a, None) else
  let '(a, r) := Ingest (mkIngest "" (ev_Type e) (ev_Message e) severity (ev_Fields e)) now a in (a, Some r).

(** [Acknowledge] and [Resolve]; [None] is the error for an unknown alert. *)
Definition set_status (st : AlertStatus) (id : string) (a : AlertInbox A) : AlertInbox A * option (AlertItem A) :=
  match ai_items a !! TrimSpace id with
  | None => (a, None)
  | Some it =>
      let it := it <| al_Status := st |> in
      (a <| ai_items := <[TrimSpace id := it]> (ai_items a) |>, Some it)
  end.

Definition Acknowledge : string → AlertInbox A → AlertInbox A * option (AlertItem A) := set_status AlertAcknowledged.
Definition Resolve : string → AlertInbox A → AlertInbox A * option (AlertItem A) := set_status AlertResolved.

Definition GetAlert (id : string) (a : AlertInbox A) : option (AlertItem A) := ai_items a !! TrimSpace id.

Definition Suppress (fingerprint : string) (duration : Duration) (reason : string) (now : Time) (a : AlertInbox A)
    : AlertInbox A * (string + AlertSuppression) :=
  let fp := norm fingerprint in
  if eqs fp "" then (a, inl "fingerprint is required") else
  if duration <=? 0 then (a, inl "duration must be positive") else
  let hits := match ai_suppressions a !! fp with Some s => su_Hits s | None => 0 end in
  let sup := mkSuppression fp (Add now duration) (TrimSpace reason) hits in
  (a <| ai_suppressions := <[fp := sup]> (ai_suppressions a) |>, inr sup).

Definition ClearSuppression (fingerprint : string) (a : AlertInbox A) : AlertInbox A * bool :=
  let fp := norm fingerprint in
  if eqs fp "" then (a, false) else
  match ai_suppressions a !! fp with
  | None => (a, false)
  | Some _ => (a <| ai_suppressions := delete fp (ai_suppressions a) |>, true)
  end.

Definition later_seen (x y : AlertItem A) : Prop := al_LastSeenAt y ≤ al_LastSeenAt x.
#[export] Instance later_seen_dec x y : Decision (later_seen x y).
Proof. unfold later_seen. apply _. Defined.

(** [items] is the order in which the loop meets the items. *)
Definition list_alerts (status : string) (limit : Z) (items : list (AlertItem A)) : list (AlertItem A) :=
  let limit := if limit <=? 0 then 200 else limit in
  let status := norm status in
  let wanted it := eqs status "" || eqs status "all" || eqs (status_string (al_Status it)) status in
  take (Z.to_nat limit) (merge_sort later_seen (filter (λ it, wanted it = true) items)).

Definition ListAlerts (status : string) (limit : Z) (now : Time) (a : AlertInbox A) : AlertInbox A * list (AlertItem A) :=
  let a := cleanupSuppressionsLocked now a in (a, list_alerts status limit (map_to_list (ai_items a)).*2).

Definition sooner (s s' : AlertSuppression) : Prop :=
  su_Until s < su_Until s' ∨ su_Until s = su_Until s' ∧ String.le (su_Fingerprint s) (su_Fingerprint s').
#[export] Instance sooner_dec s s' : Decision (sooner s s').
Proof. unfold sooner. apply _. Defined.

Definition Suppressions (now : Time) (a : AlertInbox A) : AlertInbox A * list AlertSuppression :=
  let a := cleanupSuppressionsLocked now a in (a, merge_sort sooner (map_to_list (ai_suppressions a)).*2).

Definition count_status (s : AlertSummary) (it : AlertItem A) : AlertSummary :=
  match al_Status it with
  | AlertOpen => s <| as_Open := as_Open s + 1 |>
  | AlertAcknowledged => s <| as_Acknowledged := as_Acknowledged s + 1 |>
  | AlertResolved => s <| as_Resolved := as_Resolved s + 1 |>
  end.

Definition Summary (now : Time) (a : AlertInbox A) : AlertInbox A * AlertSummary :=
  let a := cleanupSuppressionsLocked now a in
  (a, foldl count_status (mkAlertSummary 0 0 0 (Z.of_nat (size (ai_suppressions a))) (Z.of_nat (size (ai_items a))))
        (map_to_list (ai_items a)).*2).

Definition RoutingPolicy (a : AlertInbox A) : AlertRoutingPolicy := ai_routingPolicy a.

(** [None] is the error for a route that is none of the four. *)
Definition SetRoutingPolicy (p : AlertRoutingPolicy) (now : Time) (a : AlertInbox A)
    : AlertInbox A * option AlertRoutingPolicy :=
  let policy := mkRouting (normalizeAlertRoute (TrimSpace (ro_CriticalRoute p)))
    (normalizeAlertRoute (TrimSpace (ro_HighRoute p))) (normalizeAlertRoute (TrimSpace (ro_MediumRoute p)))
    (normalizeAlertRoute (TrimSpace (ro_LowRoute p))) now in
  if eqs (ro_CriticalRoute policy) "" || eqs (ro_HighRoute policy) "" || eqs (ro_MediumRoute policy) ""
     || eqs (ro_LowRoute policy) ""
  then (a, None) else (a <| ai_routingPolicy := policy |>, Some policy).
End inbox.

(** ** Histories

    Calls with the clock reading each takes, and what they did, newest first:
    alerts by fingerprint and severity, changes of status, suppressions and
    routing policies. *)

Section history.
Context {A : Type}.

Inductive alert_op :=
  | OpIngest (i : AlertIngest A) (now : Time)
  | OpEvent (e : Event (Fields A)) (now : Time)
  | OpStatus (st : AlertStatus) (id : string)
  | OpSuppress (fp : string) (d : Duration) (reason : string) (now : Time)
  | OpClear (fp : string)
  | OpPolicy (p : AlertRoutingPolicy) (now : Time)
  | OpCleanup (now : Time).     (* [List], [Suppressions] and [Summary] *)

Inductive alert_event :=
  | EvAlert (fp sev : string) (now : Time) (suppressed : bool)
  | EvStatus (id : string) (st : AlertStatus)
  | EvSuppress (fp : string) (until : Time)
  | EvClear (fp : string)
  | EvPolicy (p : AlertRoutingPolicy).

Definition op_clock (op : alert_op) : option Time :=
  match op with
  | OpIngest _ now | OpEvent _ now | OpSuppress _ _ _ now | OpCleanup now => Some now
  | OpStatus _ _ | OpClear _ | OpPolicy _ _ => None
  end.

Definition run_alert_op (a : AlertInbox A) (op : alert_op) : AlertInbox A * list alert_event :=
  match op with
  | OpIngest i now =>
      let '(a, r) := Ingest i now a in
      (a, [EvAlert (ingest_fingerprint i) (normalizeSeverity (in_Severity i)) now (ar_Suppressed r)])
  | OpEvent e now =>
      let i := mkIngest "" (ev_Type e) (ev_Message e) (inferSeverityFromEvent e) (ev_Fields e) in
      let '(a, r) := IngestEvent e now a in
      (a, match r with
          | Some r => [EvAlert (ingest_fingerprint i) (normalizeSeverity (in_Severity i)) now (ar_Suppressed r)]
          | None => [] end)
  | OpStatus st id =>
      let '(a, r) := set_status st id a in (a, match r with Some it => [EvStatus (TrimSpace id) st] | None => [] end)
  | OpSuppress fp d reason now =>
      let '(a, r) := Suppress fp d reason now a in
      (a, match r with inr s => [EvSuppress (su_Fingerprint s) (su_Until s)] | inl _ => [] end)
  | OpClear fp => let '(a, ok) := ClearSuppression fp a in (a, if ok then [EvClear (norm fp)] else [])
  | OpPolicy p now =>
      let '(a, r) := SetRoutingPolicy p now a in (a, match r with Some p => [EvPolicy p] | None => [] end)
  | OpCleanup now => (cleanupSuppressionsLocked now a, [])
  end.

Fixpoint run_alerts (a : AlertInbox A) (log : list alert_event) (ops : list alert_op) : AlertInbox A * list alert_event :=
  match ops with
  | [] => (a, log)
  | op :: ops => let '(a, evs) := run_alert_op a op in run_alerts a (evs ++ log) ops
  end.

(** The readings of the clock from [c] on do not go back. *)
Fixpoint clocks_from (c : Time) (ops : list alert_op) : Prop :=
  match ops with
  | [] => True
  | op :: ops => match op_clock op with Some now => c ≤ now ∧ clocks_from now ops | None => clocks_from c ops end
  end.

(** *** What a history says about a fingerprint *)

Definition is_alert (fp : string) (suppressed : bool) (e : alert_event) : option (string * Time) :=
  match e with EvAlert fp' sev now s => if eqs fp' fp && eqb s suppressed then Some (sev, now) else None | _ => None end.

(** The alerts that were not suppressed, newest first. *)
Definition counted (fp : string) (log : list alert_event) : list (string * Time) := omap (is_alert fp false) log.

(** The suppressed alerts since the first counted one. *)
Fixpoint muted_count (fp : string) (log : list alert_event) : Z :=
  match log with
  | [] => 0
  | e :: log =>
      muted_count fp log +
      (if bool_decide (is_Some (is_alert fp true e)) && negb (bool_decide (counted fp log = [])) then 1 else 0)
  end.

Fixpoint last_seen (fp : string) (log : list alert_event) : Time :=
  match log with
  | [] => 0
  | EvAlert fp' _ now _ :: log => if eqs fp' fp then now else last_seen fp log
  | _ :: log => last_seen fp log
  end.

Definition worst (l : list (string * Time)) : Z := foldr (λ s acc, Z.max (severityRank s.1) acc) 0 l.

Fixpoint status_of (fp id : string) (log : list alert_event) : AlertStatus :=
  match log with
  | [] => AlertOpen
  | EvAlert fp' _ _ false :: log => if eqs fp' fp then AlertOpen else status_of fp id log
  | EvStatus id' st :: log => if eqs id' id then st else status_of fp id log
  | _ :: log => status_of fp id log
  end.

(** Whether the latest suppression of a fingerprint lasts at [now]. *)
Fixpoint muted (fp : string) (log : list alert_event) (now : Time) : bool :=
  match log with
  | [] => false
  | EvSuppress fp' until :: log => if eqs fp' fp then Before now until else muted fp log now
  | EvClear fp' :: log => if eqs fp' fp then false else muted fp log now
  | _ :: log => muted fp log now
  end.

Record item_ok (it : AlertItem A) (log : list alert_event) : Prop := {
  io_count : al_Count it = Z.of_nat (length (counted (al_Fingerprint it) log));
  io_nonempty : counted (al_Fingerprint it) log ≠ [];
  io_suppressed : al_SuppressedCount it = muted_count (al_Fingerprint it) log;
  io_severity : severityRank (al_Severity it) = worst (counted (al_Fingerprint it) log);
  io_status : al_Status it = status_of (al_Fingerprint it) (al_ID it) log;
  io_first : snd <$> last (counted (al_Fingerprint it) log) = Some (al_FirstSeenAt it);
  io_last : al_LastSeenAt it = last_seen (al_Fingerprint it) log;
}.

(** The inbox after a history, with the clock at [c]. *)
Record InboxInv (c : Time) (a : AlertInbox A) (log : list alert_event) : Prop := {
  ii_items id it : ai_items a !! id = Some it →
    al_ID it = id ∧ ai_byFingerprint a !! al_Fingerprint it = Some id ∧ item_ok it log ∧
    ∃ k, 1 ≤ k ≤ ai_nextID a ∧ id = "alert-" +:+ itoa k;
  ii_index fp id : ai_byFingerprint a !! fp = Some id → ∃ it, ai_items a !! id = Some it ∧ al_Fingerprint it = fp;
  ii_fresh fp : ai_byFingerprint a !! fp = None → counted fp log = [];
  ii_muted fp now : c ≤ now →
    muted fp log now = match ai_suppressions a !! fp with Some s => Before now (su_Until s) | None => false end;
  ii_next : 0 ≤ ai_nextID a;
}.
End history.
Arguments alert_op A : clear implicits.

Section invariant.
Context {A : Type}.
Implicit Types (a : AlertInbox A) (log : list alert_event) (it : AlertItem A).

Lemma InboxInv_new now : InboxInv 0 (NewAlertInbox (A := A) now) [].
Proof. split; simpl; try done. Qed.

Lemma item_of_Some c a log fp it :
  InboxInv c a log → item_of fp a = Some it →
  ai_byFingerprint a !! fp = Some (al_ID it) ∧ ai_items a !! al_ID it = Some it ∧ al_Fingerprint it = fp ∧ item_ok it log.
Proof.
  intros [Hit Hix _ _ _]. unfold item_of. destruct (ai_byFingerprint a !! fp) as [id|] eqn:Hfp; simpl; intros Hi.
  - destruct (Hix _ _ Hfp) as (it' & Hi' & <-). simplify_eq. destruct (Hit _ _ Hi) as (-> & ? & ? & _). done.
  - destruct (Hit _ _ Hi) as (_ & _ & _ & k & _ & Hk). by destruct k.
Qed.

Lemma item_of_None c a log fp : InboxInv c a log → item_of fp a = None → ai_byFingerprint a !! fp = None ∧ counted fp log = [].
Proof.
  intros [_ Hix Hf _ _]. unfold item_of. destruct (ai_byFingerprint a !! fp) as [id|] eqn:Hfp; simpl; [|eauto].
  destruct (Hix _ _ Hfp) as (it' & -> & _). done.
Qed.

(** *** Steps that leave the alerts alone *)

Lemma InboxInv_cleanup c now a log : c ≤ now → InboxInv c a log → InboxInv now (cleanupSuppressionsLocked now a) log.
Proof.
  intros Hc [Hit Hix Hf Hm Hn]. destruct a as [next items byf sups pol]. simpl in *. split; simpl; try done.
  intros fp t Ht. rewrite Hm by lia. unfold Before in *.
  destruct (filter _ sups !! fp) as [s|] eqn:Hs.
  - by apply map_lookup_filter_Some in Hs as [-> _].
  - apply map_lookup_filter_None in Hs as [->|Hs]; [done|]. destruct (sups !! fp) as [s|] eqn:Hs'; [|done].
    specialize (Hs s eq_refl). simpl in Hs. destruct (Z.ltb_spec now (su_Until s)); [done|]. apply Z.ltb_ge. lia.
Qed.

(** An event that no fingerprint or item is concerned with. *)
Lemma item_ok_ext it log e :
  is_alert (al_Fingerprint it) false e = None → is_alert (al_Fingerprint it) true e = None →
  (∀ st, e ≠ EvStatus (al_ID it) st) → item_ok it log → item_ok it (e :: log).
Proof.
  intros H1 H2 H3 [Hc Hne Hs Hsev Hst Hf Hl].
  assert (counted (al_Fingerprint it) (e :: log) = counted (al_Fingerprint it) log) as Heq by (unfold counted; cbn; by rewrite H1).
  assert (last_seen (al_Fingerprint it) (e :: log) = last_seen (al_Fingerprint it) log) as Hseen.
  { destruct e as [fp sev now []| | | |]; try done; simpl in *; by destruct (eqs fp _). }
  assert (status_of (al_Fingerprint it) (al_ID it) (e :: log) = status_of (al_Fingerprint it) (al_ID it) log) as Hstat.
  { destruct e as [fp sev now []|id st| | |]; try done; simpl in *; [by destruct (eqs fp _)|].
    rewrite (proj2 (eqs_false id _)); [done|]. intros ->. by apply (H3 st). }
  split; rewrite ?Heq, ?Hseen, ?Hstat; try done. cbn [muted_count]. rewrite H2, bool_decide_eq_false_2; [|by intros [? [=]]].
  simpl. lia.
Qed.

Lemma InboxInv_skip c a log e :
  (∀ fp b, is_alert fp b e = None) → (∀ id st, e ≠ EvStatus id st) → (∀ fp now, muted fp (e :: log) now = muted fp log now) →
  InboxInv c a log → InboxInv c a (e :: log).
Proof.
  intros H1 H2 H3 [Hit Hix Hf Hm Hn]. split; try done.
  - intros id it Hi. destruct (Hit _ _ Hi) as (? & ? & ? & ?). split_and!; [done..| |done]. by apply item_ok_ext.
  - intros fp ?%Hf. unfold counted. cbn. by rewrite H1.
  - intros fp now ?. rewrite H3. by apply Hm.
Qed.

(** *** Alerts and changes of status *)

(** An item replaced by one that accounts for the event. *)
Lemma InboxInv_put c a log e it it' :
  InboxInv c a log → ai_items a !! al_ID it = Some it →
  al_ID it' = al_ID it → al_Fingerprint it' = al_Fingerprint it → item_ok it' (e :: log) →
  (∀ fp b, fp ≠ al_Fingerprint it → is_alert fp b e = None) → (∀ id st, e = EvStatus id st → id = al_ID it) →
  (∀ fp now, muted fp (e :: log) now = muted fp log now) →
  InboxInv c (put_alert it' a) (e :: log).
Proof.
  intros [Hit Hix Hf Hm Hn] Hi Hid Hfp Hok He1 He2 He3. destruct (Hit _ _ Hi) as (_ & Hby & _ & Hk).
  destruct a as [next items byf sups pol]. unfold put_alert. simpl in *. rewrite Hid. split; simpl; try done.
  - intros id x Hx. destruct (decide (id = al_ID it)) as [->|Hne].
    + rewrite lookup_insert_eq in Hx. injection Hx as <-. by rewrite Hfp.
    + rewrite lookup_insert_ne in Hx by done. destruct (Hit _ _ Hx) as (Hxid & Hxby & ? & ?).
      assert (al_Fingerprint x ≠ al_Fingerprint it) as Hxf by (intros Heq; rewrite Heq in Hxby; congruence).
      split_and!; try done. apply item_ok_ext; eauto. intros st ->. by apply Hne; rewrite <-Hxid, (He2 _ _ eq_refl).
  - intros fp id (x & Hx & Hxf)%Hix. destruct (decide (id = al_ID it)) as [->|Hne]; [|exists x; by rewrite lookup_insert_ne].
    exists it'. rewrite lookup_insert_eq. split; [done|]. rewrite Hfp. by simplify_eq.
  - intros fp Hnone. unfold counted. cbn. rewrite He1; [by apply Hf|]. intros ->. by rewrite Hby in Hnone.
  - intros fp now ?. rewrite He3. by apply Hm.
Qed.

Lemma set_status_ok c a log st id :
  InboxInv c a log →
  let '(a', r) := set_status st id a in
  InboxInv c a' (match r with Some _ => [EvStatus (TrimSpace id) st] | None => [] end ++ log) ∧ ai_nextID a' = ai_nextID a.
Proof.
  intros Hinv. unfold set_status. destruct (ai_items a !! TrimSpace id) as [it|] eqn:Hi; [|done].
  pose proof (ii_items _ _ _ Hinv _ _ Hi) as (Hid & _ & Hok & _). split; [|done].
  set (it' := it <| al_Status := st |>).
  replace (a <| ai_items := _ |>) with (put_alert it' a) by (subst it'; unfold put_alert; by destruct it; simpl in *; subst).
  rewrite <-Hid in Hi |- *. simpl app. apply (InboxInv_put _ _ _ _ it); try done; [by destruct it..| |by intros ? ? [= -> _]].
  destruct it as [id' fp et msg sev route n m first seen old flds]. subst it'. destruct Hok as [Hc Hne Hs Hsev Hst Hf Hl].
  simpl in *. split; simpl; try done; [lia|by rewrite eqs_refl].
Qed.

Lemma normalizeSeverity_cases s :
  normalizeSeverity s ∈ ["critical"; "high"; "medium"; "low"].
Proof. unfold normalizeSeverity. repeat case_match; set_solver. Qed.

Lemma normalizeSeverity_idemp s : normalizeSeverity (normalizeSeverity s) = normalizeSeverity s.
Proof.
  pose proof (normalizeSeverity_cases s) as Hs. rewrite !elem_of_cons in Hs.
  by destruct Hs as [->|[->|[->|[->|[]%not_elem_of_nil]]]].
Qed.

Lemma severityRank_normal s : severityRank (normalizeSeverity s) = severityRank s.
Proof. unfold severityRank. by rewrite normalizeSeverity_idemp. Qed.

Lemma severityRank_bounds s : 1 ≤ severityRank s ≤ 4.
Proof. unfold severityRank. repeat case_match; lia. Qed.

Lemma severityRank_max s s' : severityRank (chooseMaxSeverity s s') = Z.max (severityRank s) (severityRank s').
Proof.
  unfold chooseMaxSeverity. destruct (Z.ltb_spec (severityRank s) (severityRank s')); rewrite severityRank_normal; lia.
Qed.

Lemma is_alert_other fp fp' sev now b b' : fp ≠ fp' → is_alert fp b (EvAlert fp' sev now b') = None.
Proof. intros Hne. simpl. by rewrite (proj2 (eqs_false fp' fp)) by congruence. Qed.

(** A suppression whose end stays is only tallied. *)
Lemma InboxInv_hits c a log fp s :
  InboxInv c a log → su_Until <$> ai_suppressions a !! fp = Some (su_Until s) →
  InboxInv c (a <| ai_suppressions := <[fp := s]> (ai_suppressions a) |>) log.
Proof.
  intros [Hit Hix Hf Hm Hn] Hs. destruct a as [next items byf sups pol]. simpl in *. split; simpl; try done.
  intros fp' now Hc. rewrite Hm by done. destruct (decide (fp' = fp)) as [->|]; [|by rewrite lookup_insert_ne].
  rewrite lookup_insert_eq. destruct (sups !! fp) as [s'|]; [|done]. simpl in Hs. by injection Hs as ->.
Qed.

Lemma muted_count_none fp log : counted fp log = [] → muted_count fp log = 0.
Proof.
  unfold counted. induction log as [|e log IH]; [done|]. cbn. destruct (is_alert fp false e); [done|]. intros Hl.
  rewrite IH by done. unfold counted. rewrite Hl, (bool_decide_eq_true_2 ([] = [])) by done. by rewrite andb_false_r.
Qed.

Section ingest.
Variables (c now : Time) (a : AlertInbox A) (log : list alert_event) (i : AlertIngest A) (fp : string).
Hypothesis Hinv : InboxInv c a log.
Abbreviation event b := (EvAlert fp (normalizeSeverity (in_Severity i)) now b).

Lemma suppressed_ok :
  let '(a', r) := suppressed_ingest fp i now a in InboxInv c a' (event true :: log) ∧ ar_Suppressed r = true ∧ ai_nextID a' = ai_nextID a.
Proof.
  unfold suppressed_ingest. destruct (item_of fp a) as [it|] eqn:Hi.
  - destruct (item_of_Some _ _ _ _ _ Hinv Hi) as (Hby & Hit & Hfp & Hok). split; [|done].
    apply (InboxInv_put _ _ _ _ it); try done; [by destruct it..| |intros; apply is_alert_other; congruence].
    destruct it as [id fp' et msg sev route n m first seen st flds]. destruct Hok as [Hc Hne Hs Hsev Hst Hf Hl].
    simpl in *. subst fp'. split; simpl; try done.
    + unfold counted. simpl. by rewrite eqs_refl.
    + unfold counted. simpl. by rewrite eqs_refl.
    + rewrite eqs_refl, (bool_decide_eq_false_2 (counted _ _ = [])) by done. simpl. by rewrite Hs.
    + unfold counted. simpl. by rewrite eqs_refl.
    + unfold counted. simpl. by rewrite eqs_refl.
    + by rewrite eqs_refl.
  - destruct (item_of_None _ _ _ _ Hinv Hi) as [Hby Hcnt]. split; [|done]. destruct Hinv as [Hit Hix Hf Hm Hn]. split; try done.
    + intros id it Hx. destruct (Hit _ _ Hx) as (Hid & Hxby & ? & ?). split_and!; [done..| |done].
      assert (al_Fingerprint it ≠ fp) by (intros Heq; by rewrite Heq, Hby in Hxby).
      apply item_ok_ext; try done; by apply is_alert_other.
    + intros fp' ?%Hf. unfold counted. simpl. by destruct (eqs fp fp').
Qed.

Lemma repeated_ok it :
  item_of fp a = Some it →
  let '(a', r) := repeated_ingest i now it a in
  InboxInv c a' (event false :: log) ∧ ar_Suppressed r = false ∧ ai_nextID a' = ai_nextID a.
Proof.
  intros Hi. destruct (item_of_Some _ _ _ _ _ Hinv Hi) as (Hby & Hit & Hfp & Hok). split; [|done].
  apply (InboxInv_put _ _ _ _ it); try done; [by destruct it..| |intros; apply is_alert_other; congruence].
  destruct it as [id fp' et msg sev route n m first seen st flds]. destruct Hok as [Hc Hne Hs Hsev Hst Hf Hl].
  simpl in *. subst fp'. split; simpl; rewrite ?eqs_refl; simpl; try done.
  - lia.
  - lia.
  - rewrite severityRank_max, severityRank_normal, Hsev. lia.
  - rewrite <-Hf. by destruct (counted fp log).
Qed.

Lemma first_ok :
  item_of fp a = None → ai_nextID a + 1 ≤ max_int64 →
  let '(a', r) := first_ingest fp i now a in
  InboxInv c a' (event false :: log) ∧ ar_Suppressed r = false ∧ ai_nextID a' = ai_nextID a + 1.
Proof.
  intros Hi Hmax. destruct (item_of_None _ _ _ _ Hinv Hi) as [Hby Hcnt]. split; [|done].
  destruct Hinv as [Hit Hix Hf Hm Hn]. unfold put_alert. set (id := "alert-" +:+ itoa (ai_nextID a + 1)).
  assert (∀ id' it', ai_items a !! id' = Some it' → id' ≠ id) as Hfresh.
  { intros id' it' Hx ->. destruct (Hit _ _ Hx) as (_ & _ & _ & k & Hk & Heq).
    apply (inj (String.app "alert-")), itoa_inj in Heq; lia. }
  assert (∀ b, is_alert fp b (event false) = if b then None else Some (normalizeSeverity (in_Severity i), now)) as Hev.
  { intros []; simpl; by rewrite eqs_refl. }
  assert (id = "alert-" +:+ itoa (ai_nextID a + 1)) as Hidk by done.
  clearbody id. destruct a as [next items byf sups pol]. simpl in *. split; simpl; try done; [..|lia].
  - intros id' it'. destruct (decide (id' = id)) as [->|Hne].
    + rewrite lookup_insert_eq. intros [= <-]. simpl. rewrite lookup_insert_eq. split_and!; try done; [|exists (next + 1); split; [lia|done]].
      split; simpl; rewrite ?eqs_refl; simpl; rewrite ?Hcnt; simpl; try done.
      * rewrite muted_count_none by done. lia.
      * pose proof (severityRank_bounds (normalizeSeverity (in_Severity i))). lia.
    + rewrite lookup_insert_ne by done. intros Hx. destruct (Hit _ _ Hx) as (Hid & Hxby & ? & k & ? & ?).
      assert (fp ≠ al_Fingerprint it') as Hxf by (intros Heq; by rewrite <-Heq, Hby in Hxby).
      rewrite lookup_insert_ne by done. split_and!; [done..| |exists k; split; [lia|done]].
      apply item_ok_ext; try done; by apply is_alert_other.
  - intros fp' id'. destruct (decide (fp' = fp)) as [->|Hne].
    + rewrite lookup_insert_eq. intros [= <-]. eexists. by rewrite lookup_insert_eq.
    + rewrite lookup_insert_ne by done. intros (x & Hx & ?)%Hix. exists x. rewrite lookup_insert_ne; [done|]. by eapply not_eq_sym, Hfresh.
  - intros fp'. destruct (decide (fp' = fp)) as [->|Hne]; [by rewrite lookup_insert_eq|].
    rewrite lookup_insert_ne by done. intros ?%Hf. unfold counted. simpl. by rewrite (proj2 (eqs_false fp fp')).
Qed.
End ingest.

Lemma Ingest_ok c now a log i :
  c ≤ now → InboxInv c a log → ai_nextID a + 1 ≤ max_int64 →
  let '(a', r) := Ingest i now a in
  InboxInv now a' (EvAlert (ingest_fingerprint i) (normalizeSeverity (in_Severity i)) now (ar_Suppressed r) :: log) ∧
  ar_Suppressed r = muted (ingest_fingerprint i) log now ∧ ai_nextID a' ≤ ai_nextID a + 1.
Proof.
  intros Hc Hinv Hmax. unfold Ingest. apply (InboxInv_cleanup _ now) in Hinv; [|done].
  change (ai_nextID a) with (ai_nextID (cleanupSuppressionsLocked now a)) in Hmax |- *.
  set (a1 := cleanupSuppressionsLocked now a) in *. clearbody a1. clear a. set (fp := ingest_fingerprint i). clearbody fp.
  pose proof (ii_muted _ _ _ Hinv fp now (Z.le_refl _)) as Hm. rewrite Hm. clear Hm.
  destruct (ai_suppressions a1 !! fp) as [s|] eqn:Hs; simpl.
  - destruct (Before now (su_Until s)) eqn:Hb.
    + assert (InboxInv now (a1 <| ai_suppressions := <[fp := s <| su_Hits := su_Hits s + 1 |>]> (ai_suppressions a1) |>) log) as Hinv'.
      { apply InboxInv_hits; [done|]. by rewrite Hs; destruct s. }
      pose proof (suppressed_ok now now _ log i fp Hinv') as Hok. destruct (suppressed_ingest _ _ _ _) as [a' r].
      destruct Hok as (? & -> & ->). split_and!; [done..|]. simpl. lia.
    + destruct (item_of fp a1) as [it|] eqn:Hi.
      * pose proof (repeated_ok now now _ log i fp Hinv it Hi) as Hok. destruct (repeated_ingest _ _ _ _) as [a' r].
        destruct Hok as (? & -> & ->). split_and!; [done..|]. lia.
      * pose proof (first_ok now now _ log i fp Hinv Hi Hmax) as Hok. destruct (first_ingest _ _ _ _) as [a' r].
        destruct Hok as (? & -> & ->). split_and!; [done..|]. lia.
  - destruct (item_of fp a1) as [it|] eqn:Hi.
    + pose proof (repeated_ok now now _ log i fp Hinv it Hi) as Hok. destruct (repeated_ingest _ _ _ _) as [a' r].
      destruct Hok as (? & -> & ->). split_and!; [done..|]. lia.
    + pose proof (first_ok now now _ log i fp Hinv Hi Hmax) as Hok. destruct (first_ingest _ _ _ _) as [a' r].
      destruct Hok as (? & -> & ->). split_and!; [done..|]. lia.
Qed.

(** *** Every history *)

Definition op_time (c : Time) (op : alert_op A) : Time := default c (op_clock op).
Definition last_clock (c : Time) (ops : list (alert_op A)) : Time := foldl op_time c ops.

Lemma InboxInv_later c c' a log : c ≤ c' → InboxInv c a log → InboxInv c' a log.
Proof. intros Hc [Hit Hix Hf Hm Hn]. split; try done. intros fp now ?. apply Hm. lia. Qed.

(** A change of the suppressions that the event records. *)
Lemma InboxInv_sups c a log e sups :
  (∀ fp b, is_alert fp b e = None) → (∀ id st, e ≠ EvStatus id st) →
  (∀ fp now, c ≤ now → muted fp (e :: log) now = match sups !! fp with Some s => Before now (su_Until s) | None => false end) →
  InboxInv c a log → InboxInv c (a <| ai_suppressions := sups |>) (e :: log).
Proof.
  intros H1 H2 H3 [Hit Hix Hf Hm Hn]. destruct a as [next items byf sups' pol]. simpl in *. split; simpl; try done.
  - intros id it Hi. destruct (Hit _ _ Hi) as (? & ? & ? & ?). split_and!; [done..| |done]. by apply item_ok_ext.
  - intros fp ?%Hf. unfold counted. cbn. by rewrite H1.
Qed.

Lemma run_alert_op_ok c a log op :
  InboxInv c a log → c ≤ op_time c op → ai_nextID a + 1 ≤ max_int64 →
  let '(a', evs) := run_alert_op a op in InboxInv (op_time c op) a' (evs ++ log) ∧ ai_nextID a' ≤ ai_nextID a + 1.
Proof.
  intros Hinv Hc Hmax. destruct op as [i now|e now|st id|fp d reason now|fp|p now|now]; cbn [run_alert_op op_time op_clock default] in *; simpl in Hc |- *.
  - pose proof (Ingest_ok c now a log i Hc Hinv Hmax) as Hok. destruct (Ingest i now a) as [a' r]. by destruct Hok as (? & _ & ?).
  - unfold IngestEvent. destruct (eqs _ ""); [split; [by eapply InboxInv_later|lia]|]. set (i := mkIngest _ _ _ _ _).
    pose proof (Ingest_ok c now a log i Hc Hinv Hmax) as Hok. destruct (Ingest i now a) as [a' r]. by destruct Hok as (? & _ & ?).
  - pose proof (set_status_ok c a log st id Hinv) as Hok. destruct (set_status st id a) as [a' r].
    destruct Hok as [? ->]. split; [by destruct r|lia].
  - unfold Suppress. apply (InboxInv_later _ now) in Hinv; [|done]. destruct (eqs (norm fp) ""); [split; [done|lia]|].
    destruct (d <=? 0); [split; [done|lia]|]. split; [|by destruct a; simpl; lia]. simpl. apply InboxInv_sups; try done.
    intros fp' t Ht. simpl. destruct (eqs (norm fp) fp') eqn:He; rewrite ?eqs_true, ?eqs_false in He.
    + subst fp'. by rewrite lookup_insert_eq.
    + rewrite lookup_insert_ne by done. by apply (ii_muted _ _ _ Hinv).
  - unfold ClearSuppression. destruct (eqs (norm fp) ""); [split; [done|lia]|].
    destruct (ai_suppressions a !! norm fp) as [s|]; [|split; [done|lia]]. split; [|by destruct a; simpl; lia].
    apply InboxInv_sups; try done. intros fp' t Ht. simpl. destruct (eqs (norm fp) fp') eqn:He; rewrite ?eqs_true, ?eqs_false in He.
    + subst fp'. by rewrite lookup_delete_eq.
    + rewrite lookup_delete_ne by done. by apply (ii_muted _ _ _ Hinv).
  - unfold SetRoutingPolicy. destruct (_ || _); [split; [done|lia]|]. split; [|by destruct a; simpl; lia]. simpl.
    apply InboxInv_skip; try done. destruct Hinv as [Hit Hix Hf Hm Hn]. by destruct a.
  - split; [by eapply InboxInv_cleanup|]. destruct a. simpl. lia.
Qed.

Lemma clocks_from_cons c op ops : clocks_from c (op :: ops) ↔ c ≤ op_time c op ∧ clocks_from (op_time c op) ops.
Proof. unfold op_time. simpl. destruct (op_clock op); simpl; [done|]. split; [by split; [lia|]|tauto]. Qed.

Lemma clocks_from_snoc c ops op : clocks_from c (ops ++ [op]) ↔ clocks_from c ops ∧ last_clock c ops ≤ op_time (last_clock c ops) op.
Proof.
  revert c; induction ops as [|op' ops IH]; intros c; simpl app.
  - rewrite clocks_from_cons. simpl. tauto.
  - rewrite !clocks_from_cons, IH. simpl. tauto.
Qed.

Lemma run_alerts_ok c a log ops :
  InboxInv c a log → clocks_from c ops → ai_nextID a + Z.of_nat (length ops) ≤ max_int64 →
  let '(a', log') := run_alerts a log ops in InboxInv (last_clock c ops) a' log' ∧ ai_nextID a' ≤ ai_nextID a + Z.of_nat (length ops).
Proof.
  revert c a log; induction ops as [|op ops IH]; intros c a log Hinv Hck Hmax; cbn [run_alerts length] in *; [split; [done|lia]|].
  apply clocks_from_cons in Hck as [Hc Hck]. pose proof (run_alert_op_ok c a log op Hinv Hc ltac:(lia)) as Hop.
  destruct (run_alert_op a op) as [a1 evs]. destruct Hop as [Hinv1 Hn1].
  specialize (IH _ _ _ Hinv1 Hck ltac:(lia)). destruct (run_alerts a1 (evs ++ log) ops) as [a2 log2]. destruct IH as [? ?]. split; [done|lia].
Qed.

(** *** Fingerprints are in normal form *)

Definition tight (s : string) : Prop := s ≠ "" ∧ TrimSpace s = s ∧ ToLower s = s.

Lemma ToLower_app s t : ToLower (s +:+ t) = ToLower s +:+ ToLower t.
Proof. induction s as [|c s IH]; [done|]. rewrite append_cons. unfold ToLower in *. simpl. by rewrite IH. Qed.

Lemma tight_norm s : norm s ≠ "" → tight (norm s).
Proof. intros Hs. split_and!; [done|apply TrimSpace_norm|apply ToLower_norm]. Qed.

Lemma tight_app p t : p ≠ "" → trim_left p = p → ToLower p = p → tight t → tight (p +:+ t).
Proof.
  intros Hp Hl Hlow (Ht & Htrim & Htl). split_and!; [by destruct p| |by rewrite ToLower_app, Hlow, Htl].
  unfold TrimSpace. rewrite trim_left_app by done. apply trim_right_app; [done|]. rewrite <-Htrim. apply trim_right_idemp.
Qed.

Lemma tight_trim_left s : tight s → trim_left s = s.
Proof. intros (_ & <- & _). unfold TrimSpace. apply trim_left_right, trim_left_idemp. Qed.

Lemma tight_Join l : l ≠ [] → Forall tight l → tight (Join l "|").
Proof.
  induction l as [|s [|t l] IH]; [done|by intros _ [? _]%Forall_cons|]. intros _ [Hs Hl]%Forall_cons.
  change (Join (s :: t :: l) "|") with (s +:+ "|" +:+ Join (t :: l) "|").
  apply tight_app; [by destruct Hs|by apply tight_trim_left|by destruct Hs as (_&_&?)|].
  apply tight_app; [done..|]. by apply IH.
Qed.

Lemma fingerprint_tight (i : AlertIngest A) : tight (ingest_fingerprint i).
Proof.
  unfold ingest_fingerprint. assert (tight (normalizedAlertFingerprint i)) as Ht.
  { unfold normalizedAlertFingerprint. destruct (eqs (norm (in_Fingerprint i)) "") eqn:He; simpl negb; cbv iota;
      [|apply tight_norm; by apply eqs_false].
    apply tight_Join; [done|]. rewrite <-app_comm_cons, Forall_cons, Forall_app. split_and!.
    - destruct (eqs (norm (in_EventType i)) "") eqn:Hb; [by vm_compute|]. apply tight_norm. by apply eqs_false.
    - apply Forall_forall. intros p (key & Hk & Hp)%list_elem_of_omap. unfold fingerprint_part, readStringField in Hp.
      destruct (in_Fields i !! key) as [[s|v]|]; try done. destruct (eqs (TrimSpace s) "") eqn:Hs; [done|].
      injection Hp as <-. apply eqs_false in Hs. fold (norm s). rewrite <-append_assoc.
      apply tight_app; [| | |apply tight_norm; unfold norm; by destruct (TrimSpace s)];
        unfold fingerprint_keys in Hk; repeat (apply elem_of_cons in Hk as [->|Hk]; [done|]); by apply not_elem_of_nil in Hk.
    - destruct (eqs (norm (in_Message i)) "") eqn:Hm; [by constructor|]. apply Forall_singleton.
      apply tight_app; [done..|]. apply tight_norm. by apply eqs_false. }
  pose proof Ht as [Hne _]. by rewrite (proj2 (eqs_false _ "")).
Qed.

(** *** Counting *)

Definition fingerprints (log : list alert_event) : gset string :=
  list_to_set (omap (λ e, match e with EvAlert fp _ _ false => Some fp | _ => None end) log).

Lemma elem_of_fingerprints fp log : fp ∈ fingerprints log ↔ counted fp log ≠ [].
Proof.
  unfold fingerprints, counted. rewrite elem_of_list_to_set, list_elem_of_omap. split.
  - intros (e & Hin & He) Hnil. destruct e as [fp' sev now []| | | |]; try done. injection He as ->.
    assert ((sev, now) ∈ omap (is_alert fp false) log) as Hx; [|by rewrite Hnil in Hx; apply not_elem_of_nil in Hx].
    apply list_elem_of_omap. eexists. split; [done|]. simpl. by rewrite eqs_refl.
  - destruct (omap (is_alert fp false) log) as [|x l] eqn:Hl; [done|]. intros _.
    assert (x ∈ omap (is_alert fp false) log) as Hx by (rewrite Hl; by left).
    apply list_elem_of_omap in Hx as (e & Hin & He). exists e. split; [done|].
    destruct e as [fp' sev now b| | | |]; try done. simpl in He. destruct (eqs fp' fp) eqn:Hfp, b; try done.
    apply eqs_true in Hfp. by subst.
Qed.

Lemma InboxInv_size c a log : InboxInv c a log → size (ai_items a) = size (fingerprints log).
Proof.
  intros Hinv. pose proof Hinv as [Hit Hix Hf _ _].
  assert (al_Fingerprint <$> (map_to_list (ai_items a)).*2 ≡ₚ elements (fingerprints log)) as Hperm.
  { apply NoDup_Permutation; [|apply NoDup_elements|].
    - rewrite <-list_fmap_compose. apply NoDup_fmap_2_strong; [|apply NoDup_map_to_list].
      intros [id x] [id' x'] Hx%elem_of_map_to_list Hx'%elem_of_map_to_list Heq. simpl in Heq.
      destruct (Hit _ _ Hx) as (_ & Hby & _), (Hit _ _ Hx') as (_ & Hby' & _). rewrite Heq in Hby. by simplify_eq.
    - intros fp. rewrite elem_of_elements, elem_of_fingerprints, list_elem_of_fmap. split.
      + intros (x & -> & [[id x'] [-> Hx%elem_of_map_to_list]]%list_elem_of_fmap). apply (Hit _ _ Hx).
      + intros Hne. destruct (ai_byFingerprint a !! fp) as [id|] eqn:Hby; [|by apply Hf in Hby].
        destruct (Hix _ _ Hby) as (x & Hx & <-). exists x. split; [done|]. apply list_elem_of_fmap. exists (id, x).
        split; [done|]. by apply elem_of_map_to_list. }
  apply Permutation_length in Hperm. by rewrite !length_fmap, length_map_to_list in Hperm.
Qed.

Lemma count_status_sum s l :
  let s' := foldl (count_status (A := A)) s l in
  as_Open s' + as_Acknowledged s' + as_Resolved s' = as_Open s + as_Acknowledged s + as_Resolved s + Z.of_nat (length l) ∧
  as_Total s' = as_Total s.
Proof.
  revert s; induction l as [|it l IH]; intros s; [simpl; lia|]. cbn [foldl length]. specialize (IH (count_status s it)).
  destruct IH as [IH1 IH2]. rewrite IH1, IH2. unfold count_status. destruct s, (al_Status it); simpl; lia.
Qed.

Lemma Summary_ok c a log now :
  InboxInv c a log →
  let s := (Summary now a).2 in
  as_Open s + as_Acknowledged s + as_Resolved s = as_Total s ∧ as_Total s = Z.of_nat (size (fingerprints log)).
Proof.
  intros Hinv. unfold Summary. simpl. destruct (count_status_sum
    (mkAlertSummary 0 0 0 (Z.of_nat (size (ai_suppressions (cleanupSuppressionsLocked now a)))) (Z.of_nat (size (ai_items a))))
    (map_to_list (ai_items a)).*2) as [H1 H2]. simpl in H1, H2.
  rewrite H1, H2, length_fmap, length_map_to_list, (InboxInv_size _ _ _ Hinv). lia.
Qed.
End invariant.

(** C30: The alert inbox, after any history of calls with a clock that does not
    go back.  There is exactly one item for every fingerprint of which an alert
    was not suppressed.  It counts those alerts, and the suppressed ones since;
    its severity is the worst among them; it is open unless it was acknowledged
    or resolved after the last of them; and it knows the first and the last.  An
    alert is suppressed exactly while the latest suppression of its fingerprint
    lasts, and every fingerprint can be suppressed by its name.  The three
    statuses add up to the number of fingerprints. *)
Theorem alert_inbox {A} (t0 : Time) (ops : list (alert_op A)) :
  Z.of_nat (length ops) < max_int64 → clocks_from 0 ops →
  let '(a, log) := run_alerts (NewAlertInbox t0) [] ops in
  (∀ id it, ai_items a !! id = Some it → al_ID it = id ∧ item_ok it log) ∧
  (∀ fp, counted fp log ≠ [] ↔ ∃ it, ai_items a !! al_ID it = Some it ∧ al_Fingerprint it = fp) ∧
  (∀ id id' it it', ai_items a !! id = Some it → ai_items a !! id' = Some it' → al_Fingerprint it = al_Fingerprint it' → id = id') ∧
  (∀ i now, clocks_from 0 (ops ++ [OpIngest i now]) → ar_Suppressed (Ingest i now a).2 = muted (ingest_fingerprint i) log now) ∧
  (∀ i : AlertIngest A, ingest_fingerprint i ≠ "" ∧ norm (ingest_fingerprint i) = ingest_fingerprint i) ∧
  (∀ now, let s := (Summary now a).2 in
     as_Open s + as_Acknowledged s + as_Resolved s = as_Total s ∧ as_Total s = Z.of_nat (size (fingerprints log))).
Proof.
  intros Hlen Hck. pose proof (run_alerts_ok 0 _ [] ops (InboxInv_new t0) Hck) as Hrun. simpl in Hrun.
  specialize (Hrun ltac:(lia)). destruct (run_alerts _ [] ops) as [a log]. destruct Hrun as [Hinv Hn].
  pose proof Hinv as [Hit Hix Hf _ _]. split_and!.
  - intros id it Hi. by destruct (Hit _ _ Hi) as (? & _ & ? & _).
  - intros fp. split.
    + intros Hne. destruct (ai_byFingerprint a !! fp) as [id|] eqn:Hby; [|by apply Hf in Hby].
      destruct (Hix _ _ Hby) as (it & Hi & ?). exists it. split; [|done]. by destruct (Hit _ _ Hi) as [-> _].
    + intros (it & Hi & <-). apply (Hit _ _ Hi).
  - intros id id' it it' Hi Hi' Heq. destruct (Hit _ _ Hi) as (_ & Hby & _), (Hit _ _ Hi') as (_ & Hby' & _).
    rewrite Heq in Hby. by simplify_eq.
  - intros i now [_ Hnow]%clocks_from_snoc. pose proof (Ingest_ok _ now a log i Hnow Hinv ltac:(lia)) as Hok.
    destruct (Ingest i now a) as [a1 r]. by destruct Hok as (_ & Hs & _).
  - intros i. destruct (fingerprint_tight i) as (? & Ht & Hl). split; [done|]. unfold norm. by rewrite Ht, Hl.
  - intros now. by apply Summary_ok with (last_clock 0 ops).
Qed.

Definition wit_alert (sev : string) : AlertIngest unit := mkIngest " DB " "disk.alert" "" sev ∅.
Definition wit_alert_ops : list (alert_op unit) :=
  [OpIngest (wit_alert "low") 1; OpStatus AlertResolved "alert-1"; OpSuppress "Db" 10 "" 2; OpIngest (wit_alert "p0") 5;
   OpIngest (wit_alert "error") 12; OpSuppress "db" 5 "" 13].

Lemma alert_inbox_witness :
  let a := (run_alerts (NewAlertInbox 0) [] wit_alert_ops).1 in
  (∀ it, ai_items a !! "alert-1" = Some it →
     al_Count it = 2 ∧ al_SuppressedCount it = 1 ∧ severityRank (al_Severity it) = 3 ∧ al_Status it = AlertOpen) ∧
  ar_Suppressed (Ingest (wit_alert "low") 17 a).2 = true ∧ ar_Suppressed (Ingest (wit_alert "low") 18 a).2 = false.
Proof.
  assert (clocks_from 0 wit_alert_ops) as Hck by (repeat split; lia).
  pose proof (alert_inbox 0 wit_alert_ops ltac:(by vm_compute) Hck) as H.
  assert ((run_alerts (NewAlertInbox 0) [] wit_alert_ops).2 =
    [EvSuppress "db" 18; EvAlert "db" "high" 12 false; EvAlert "db" "critical" 5 true; EvSuppress "db" 12;
     EvStatus "alert-1" AlertResolved; EvAlert "db" "low" 1 false]) as Hlog by (vm_compute; reflexivity).
  assert (al_Fingerprint <$> ai_items (run_alerts (NewAlertInbox 0) [] wit_alert_ops).1 !! "alert-1" = Some "db") as Hfp
    by (vm_compute; reflexivity).
  destruct (run_alerts (NewAlertInbox 0) [] wit_alert_ops) as [a log]. simpl in Hlog, Hfp |- *. subst log.
  destruct H as (Hit & _ & _ & Hsup & _). split; [|split].
  - intros it Hi. destruct (Hit _ _ Hi) as (Hid & [Hc _ Hs Hsev Hst _ _]). rewrite Hi in Hfp. injection Hfp as Hfp.
    rewrite Hc, Hs, Hsev, Hst, Hid, Hfp. split_and!; vm_compute; reflexivity.
  - rewrite Hsup by (repeat split; lia). vm_compute. reflexivity.
  - rewrite Hsup by (repeat split; lia). vm_compute. reflexivity.
Defined.

(** While a fingerprint is suppressed that was never seen before, the answer
    names the default route of its severity and not the one configured. *)
Theorem suppressed_alert_default_route :
  let ops : list (alert_op unit) :=
    [OpPolicy (mkRouting "ticket" "ticket" "digest" "digest" 0) 1; OpSuppress "db" 10 "" 2] in
  let a := (run_alerts (NewAlertInbox 0) [] ops).1 in
  routeForSeverityPolicy "critical" (RoutingPolicy a) = "ticket" ∧
  al_Route (ar_Item (Ingest (wit_alert "critical") 3 a).2) = "pager" ∧
  al_Route (ar_Item (Ingest (wit_alert "critical") 13 a).2) = "ticket".
Proof. split_and!; vm_compute; reflexivity. Qed.

(** Field values are joined without escaping: alerts about different resources
    can have one fingerprint, and are counted as one. *)
Theorem fingerprints_collide :
  let alert (fields : Fields unit) := mkIngest "" "disk" "full" "high" fields in
  let a := alert {["host" := FString "a|resource=b"]} in
  let b := alert (<["resource" := FString "b"]> {["host" := FString "a"]}) in
  in_Fields a ≠ in_Fields b ∧ ingest_fingerprint a = ingest_fingerprint b ∧
  ar_Deduplicated (Ingest b 2 (Ingest a 1 (NewAlertInbox 0)).1).2 = true.
Proof.
  split; [|split; vm_compute; reflexivity].
  intros Heq%(f_equal (lookup "resource")). vm_compute in Heq. discriminate Heq.
Qed.
