(* ===== verification/EdgeRelay.v ===== *)
(** * Edge relay: [internal/control/edge_relay.go]

    Messages wait for the sites they are addressed to until they are delivered
    or expire.  SHA-256 is a parameter, and the loop of [Deliver] meets the
    messages in any order.  Proved: a message is delivered at most once, to its
    site, before it expires, and none is lost; a site's queue is bounded. *)

From S2P Require Import Prelude.

Record EdgeRelaySiteInput : Type := mkSiteInput {
  si_SiteID : string;
  si_Region : string;
  si_Mode : string;
  si_MaxQueueDepth : Z;
  si_HeartbeatInterval : Z;
}.

Record EdgeRelaySite : Type := mkSite {
  st_SiteID : string;
  st_Region : string;
  st_Mode : string;
  st_MaxQueueDepth : Z;
  st_HeartbeatInterval : Z;
  st_Connected : bool;
  st_QueueDepth : Z;
  st_LastSeenAt : Time;
  st_UpdatedAt : Time;
}.
#[export] Instance EdgeRelaySite_eta : Eta EdgeRelaySite := λ r,
  mkSite (st_SiteID r) (st_Region r) (st_Mode r) (st_MaxQueueDepth r) (st_HeartbeatInterval r) (st_Connected r)
    (st_QueueDepth r) (st_LastSeenAt r) (st_UpdatedAt r).

Record EdgeRelayMessageInput : Type := mkMessageInput {
  mi_SiteID : string;
  mi_Direction : string;
  mi_Payload : string;
  mi_TTLSeconds : Z;
}.

Record EdgeRelayMessage : Type := mkMessage {
  em_ID : string;
  em_SiteID : string;
  em_Direction : string;
  em_Checksum : string;
  em_SizeBytes : Z;
  em_Status : string;
  em_CreatedAt : Time;
  em_ExpiresAt : Time;
  em_DeliveredAt : option Time;
}.
#[export] Instance EdgeRelayMessage_eta : Eta EdgeRelayMessage := λ r,
  mkMessage (em_ID r) (em_SiteID r) (em_Direction r) (em_Checksum r) (em_SizeBytes r) (em_Status r) (em_CreatedAt r)
    (em_ExpiresAt r) (em_DeliveredAt r).

Record EdgeRelayDeliveryResult : Type := mkDelivery {
  dr_SiteID : string;
  dr_RequestedLimit : Z;
  dr_Delivered : Z;
  dr_Remaining : Z;
}.

Record EdgeRelayStore : Type := mkRelay {
  er_nextID : Z;
  er_sites : gmap string EdgeRelaySite;
  er_messages : gmap string EdgeRelayMessage;
}.
#[export] Instance EdgeRelayStore_eta : Eta EdgeRelayStore := λ r, mkRelay (er_nextID r) (er_sites r) (er_messages r).

Inductive relay_error := SiteRequired | BadMode | SiteNotFound | SiteAndDirectionRequired | BadDirection | QueueFull.

Definition NewEdgeRelayStore : EdgeRelayStore := mkRelay 0 ∅ ∅.

Definition normalizeRelayMode (mode : string) : string :=
  if one_of (norm mode) ["store_and_forward"; "passthrough"] then norm mode else "".

Definition is_queued (siteID : string) (msg : EdgeRelayMessage) : bool :=
  eqs (em_SiteID msg) siteID && eqs (em_Status msg) "queued".

Definition queued_of (siteID : string) (m : gmap string EdgeRelayMessage) : gmap string EdgeRelayMessage :=
  filter (λ e : string * EdgeRelayMessage, is_queued siteID e.2 = true) m.

Definition queueDepthLocked (siteID : string) (s : EdgeRelayStore) : Z := Z.of_nat (size (queued_of siteID (er_messages s))).

Definition is_expired (now : Time) (msg : EdgeRelayMessage) : bool :=
  After now (em_ExpiresAt msg) || (now =? em_ExpiresAt msg).

Definition expireRelayLocked (now : Time) (s : EdgeRelayStore) : EdgeRelayStore :=
  s <| er_messages := filter (λ e : string * EdgeRelayMessage, is_expired now e.2 = false) (er_messages s) |>.

Definition UpsertSite (i : EdgeRelaySiteInput) (now : Time) (s : EdgeRelayStore)
    : EdgeRelayStore * result relay_error EdgeRelaySite :=
  let siteID := TrimSpace (si_SiteID i) in
  if eqs siteID "" then (s, Err SiteRequired) else
  let mode := normalizeRelayMode (si_Mode i) in
  if eqs mode "" then (s, Err BadMode) else
  let maxQueue := if si_MaxQueueDepth i <=? 0 then 1000 else si_MaxQueueDepth i in
  let hb := if si_HeartbeatInterval i <=? 0 then 60 else si_HeartbeatInterval i in
  let item := default (mkSite siteID "" "" 0 0 true 0 now 0) (er_sites s !! siteID) in
  let region := TrimSpace (si_Region i) in
  let item := item <| st_Region := if eqs region "" then "global" else region |> <| st_Mode := mode |>
                   <| st_MaxQueueDepth := maxQueue |> <| st_HeartbeatInterval := hb |> <| st_UpdatedAt := now |>
                   <| st_QueueDepth := queueDepthLocked siteID s |> in
  (s <| er_sites := <[siteID := item]> (er_sites s) |>, Ok item).

Definition HeartbeatSite (siteID : string) (now : Time) (s : EdgeRelayStore)
    : EdgeRelayStore * result relay_error EdgeRelaySite :=
  let siteID := TrimSpace siteID in
  if eqs siteID "" then (s, Err SiteRequired) else
  match er_sites s !! siteID with
  | None => (s, Err SiteNotFound)
  | Some item =>
      let item := item <| st_Connected := true |> <| st_LastSeenAt := now |> <| st_UpdatedAt := now |>
                       <| st_QueueDepth := queueDepthLocked siteID s |> in
      (s <| er_sites := <[siteID := item]> (er_sites s) |>, Ok item)
  end.

Definition with_depth (s : EdgeRelayStore) (site : EdgeRelaySite) : EdgeRelaySite :=
  site <| st_QueueDepth := queueDepthLocked (st_SiteID site) s |>.

Definition GetSite (siteID : string) (s : EdgeRelayStore) : option EdgeRelaySite :=
  with_depth s <$> er_sites s !! TrimSpace siteID.

Definition by_region (x y : EdgeRelaySite) : Prop :=
  if eqs (st_Region x) (st_Region y) then String.le (st_SiteID x) (st_SiteID y) else String.le (st_Region x) (st_Region y).
#[export] Instance by_region_dec x y : Decision (by_region x y).
Proof. unfold by_region. destruct (eqs _ _); apply _. Defined.

Definition ListSites (s : EdgeRelayStore) : list EdgeRelaySite :=
  merge_sort by_region (with_depth s <$> (map_to_list (er_sites s)).*2).

Definition relay_directions : list string := ["ingress"; "egress"].

Section relay.
(** [hex.EncodeToString] of [sha256.Sum256]. *)
Variable hash : string → string.

Definition new_message (id siteID direction payload : string) (ttl : Z) (now : Time) : EdgeRelayMessage :=
  mkMessage id siteID direction ("sha256:" +:+ hash (siteID +:+ "|" +:+ direction +:+ "|" +:+ payload))
    (Z.of_nat (String.length payload)) "queued" now (Add now (seconds ttl)) None.

Definition QueueMessage (i : EdgeRelayMessageInput) (now : Time) (s : EdgeRelayStore)
    : EdgeRelayStore * result relay_error EdgeRelayMessage :=
  let siteID := TrimSpace (mi_SiteID i) in
  let direction := norm (mi_Direction i) in
  if eqs siteID "" || eqs direction "" then (s, Err SiteAndDirectionRequired) else
  if negb (one_of direction relay_directions) then (s, Err BadDirection) else
  let ttl := if mi_TTLSeconds i <=? 0 then 3600 else mi_TTLSeconds i in
  match er_sites s !! siteID with
  | None => (s, Err SiteNotFound)
  | Some site =>
      if (0 <? st_MaxQueueDepth site) && (st_MaxQueueDepth site <=? queueDepthLocked siteID s) then (s, Err QueueFull) else
      let next := er_nextID s + 1 in
      let item := new_message ("relay-msg-" +:+ itoa next) siteID direction (mi_Payload i) ttl now in
      let s := s <| er_nextID := next |> <| er_messages := <[em_ID item := item]> (er_messages s) |> in
      let site := site <| st_QueueDepth := queueDepthLocked siteID s |> <| st_UpdatedAt := now |> in
      (s <| er_sites := <[siteID := site]> (er_sites s) |>, Ok item)
  end.
End relay.

Definition deliver_one (now : Time) (id : string) (msg : EdgeRelayMessage) (m : gmap string EdgeRelayMessage)
    : gmap string EdgeRelayMessage :=
  <[id := msg <| em_Status := "delivered" |> <| em_DeliveredAt := Some now |>]> m.

(** The loop of [Deliver]: the messages, and the ids delivered, in order. *)
Fixpoint deliver_loop (siteID : string) (limit : Z) (now : Time) (delivered : list string)
    (items : list (string * EdgeRelayMessage)) (m : gmap string EdgeRelayMessage)
    : gmap string EdgeRelayMessage * list string :=
  match items with
  | [] => (m, delivered)
  | (id, msg) :: items =>
      if negb (is_queued siteID msg) then deliver_loop siteID limit now delivered items m
      else if limit <=? Z.of_nat (length delivered) then (m, delivered)
      else deliver_loop siteID limit now (delivered ++ [id]) items (deliver_one now id msg m)
  end.

(** The ids delivered are not part of the answer: only their number is. *)
Definition Deliver (siteID : string) (limit : Z) (now : Time) (ro : map_order EdgeRelayMessage) (s : EdgeRelayStore)
    : EdgeRelayStore * result relay_error (EdgeRelayDeliveryResult * list string) :=
  let siteID := TrimSpace siteID in
  if eqs siteID "" then (s, Err SiteRequired) else
  let limit := if limit <=? 0 then 100 else limit in
  match er_sites s !! siteID with
  | None => (s, Err SiteNotFound)
  | Some site =>
      let s := expireRelayLocked now s in
      let '(messages, delivered) := deliver_loop siteID limit now [] (range ro (er_messages s)) (er_messages s) in
      let s := s <| er_messages := messages |> in
      let depth := queueDepthLocked siteID s in
      let site := site <| st_QueueDepth := depth |> <| st_UpdatedAt := now |> in
      (s <| er_sites := <[siteID := site]> (er_sites s) |>,
       Ok (mkDelivery siteID limit (Z.of_nat (length delivered)) depth, delivered))
  end.

Definition later_created (x y : EdgeRelayMessage) : Prop := em_CreatedAt y ≤ em_CreatedAt x.
#[export] Instance later_created_dec x y : Decision (later_created x y).
Proof. unfold later_created. apply _. Defined.

Definition ListMessages (siteID : string) (limit : Z) (now : Time) (ro : map_order EdgeRelayMessage) (s : EdgeRelayStore)
    : EdgeRelayStore * list EdgeRelayMessage :=
  let siteID := TrimSpace siteID in
  let s := expireRelayLocked now s in
  let wanted msg := eqs siteID "" || eqs (em_SiteID msg) siteID in
  let out := merge_sort later_created (filter (λ msg, wanted msg = true) (range ro (er_messages s)).*2) in
  (s, if (0 <? limit) && (limit <? Z.of_nat (length out)) then take (Z.to_nat limit) out else out).

(** ** Histories

    Calls with the clock reading each takes, and what they did: sites configured
    with a queue bound, messages queued and messages delivered. *)

Inductive relay_op :=
  | RSite (i : EdgeRelaySiteInput) (now : Time)
  | RHeartbeat (siteID : string) (now : Time)
  | RQueue (i : EdgeRelayMessageInput) (now : Time)
  | RDeliver (siteID : string) (limit : Z) (now : Time) (ro : map_order EdgeRelayMessage)
  | RList (siteID : string) (limit : Z) (now : Time) (ro : map_order EdgeRelayMessage).

Inductive relay_event :=
  | EvSite (site : string) (bound : Z)
  | EvQueued (id site : string) (created expires : Time)
  | EvDelivered (id : string) (now : Time).

Definition relay_clock (op : relay_op) : Time :=
  match op with
  | RSite _ now | RHeartbeat _ now | RQueue _ now | RDeliver _ _ now _ | RList _ _ now _ => now
  end.

Section history.
Variable hash : string → string.

Definition run_relay_op (s : EdgeRelayStore) (op : relay_op) : EdgeRelayStore * list relay_event :=
  match op with
  | RSite i now =>
      let '(s, r) := UpsertSite i now s in
      (s, match r with Ok site => [EvSite (st_SiteID site) (st_MaxQueueDepth site)] | Err _ => [] end)
  | RHeartbeat siteID now => ((HeartbeatSite siteID now s).1, [])
  | RQueue i now =>
      let '(s, r) := QueueMessage hash i now s in
      (s, match r with Ok m => [EvQueued (em_ID m) (em_SiteID m) (em_CreatedAt m) (em_ExpiresAt m)] | Err _ => [] end)
  | RDeliver siteID limit now ro =>
      let '(s, r) := Deliver siteID limit now ro s in
      (s, match r with Ok (_, ids) => (λ id, EvDelivered id now) <$> ids | Err _ => [] end)
  | RList siteID limit now ro => ((ListMessages siteID limit now ro s).1, [])
  end.

Fixpoint run_relay (s : EdgeRelayStore) (log : list relay_event) (ops : list relay_op) : EdgeRelayStore * list relay_event :=
  match ops with
  | [] => (s, log)
  | op :: ops => let '(s, evs) := run_relay_op s op in run_relay s (log ++ evs) ops
  end.
End history.

(** The readings of the clock from [c] on do not go back. *)
Fixpoint relay_clocks (c : Time) (ops : list relay_op) : Prop :=
  match ops with
  | [] => True
  | op :: ops => c ≤ relay_clock op ∧ relay_clocks (relay_clock op) ops
  end.

Definition queued_ids (log : list relay_event) : list string :=
  omap (λ e, match e with EvQueued id _ _ _ => Some id | _ => None end) log.
Definition delivered_ids (log : list relay_event) : list string :=
  omap (λ e, match e with EvDelivered id _ => Some id | _ => None end) log.

(** The messages a site waits for at [now]. *)
Definition is_pending (site : string) (now : Time) (log : list relay_event) (e : relay_event) : option string :=
  match e with
  | EvQueued id site' _ expires =>
      if eqs site' site && Before now expires && bool_decide (id ∉ delivered_ids log) then Some id else None
  | _ => None
  end.
Definition pending (site : string) (now : Time) (log : list relay_event) : list string := omap (is_pending site now log) log.

(** The largest queue bound a site was given. *)
Definition largest_bound (site : string) (log : list relay_event) : Z :=
  foldr (λ e acc, match e with EvSite site' b => if eqs site' site then Z.max b acc else acc | _ => acc end) 0 log.

(** ** What a history determines *)

Definition message_ok (log : list relay_event) (id : string) (m : EdgeRelayMessage) : Prop :=
  em_ID m = id ∧ EvQueued id (em_SiteID m) (em_CreatedAt m) (em_ExpiresAt m) ∈ log ∧
  (em_Status m = "queued" ∧ id ∉ delivered_ids log ∧ em_DeliveredAt m = None ∨
   em_Status m = "delivered" ∧ ∃ t, em_DeliveredAt m = Some t ∧ EvDelivered id t ∈ log).

Record RelayInv (c : Time) (s : EdgeRelayStore) (log : list relay_event) : Prop := {
  ri_messages : map_Forall (message_ok log) (er_messages s);
  ri_queued id site cr ex : EvQueued id site cr ex ∈ log →
    (∃ k, 1 ≤ k ≤ er_nextID s ∧ id = "relay-msg-" +:+ itoa k) ∧ cr ≤ c ∧ (c < ex → is_Some (er_messages s !! id));
  ri_delivered id t : EvDelivered id t ∈ log → ∃ site cr ex, EvQueued id site cr ex ∈ log ∧ cr ≤ t < ex;
  ri_nodup : NoDup (queued_ids log) ∧ NoDup (delivered_ids log);
  ri_sites : map_Forall (λ id site, st_SiteID site = id ∧ 0 < st_MaxQueueDepth site ≤ largest_bound id log ∧
    st_Connected site = true) (er_sites s);
  ri_depth site : queueDepthLocked site s ≤ largest_bound site log;
  ri_next : 0 ≤ er_nextID s;
}.

Lemma queued_ids_app l l' : queued_ids (l ++ l') = queued_ids l ++ queued_ids l'.
Proof. apply omap_app. Qed.
Lemma delivered_ids_app l l' : delivered_ids (l ++ l') = delivered_ids l ++ delivered_ids l'.
Proof. apply omap_app. Qed.

Lemma elem_of_queued_ids id log : id ∈ queued_ids log ↔ ∃ site cr ex, EvQueued id site cr ex ∈ log.
Proof.
  unfold queued_ids. rewrite list_elem_of_omap. split.
  - intros ([]&Hin&[= <-]). eauto.
  - intros (site & cr & ex & Hin). by eexists.
Qed.
Lemma elem_of_delivered_ids id log : id ∈ delivered_ids log ↔ ∃ t, EvDelivered id t ∈ log.
Proof.
  unfold delivered_ids. rewrite list_elem_of_omap. split.
  - intros ([]&Hin&[= <-]). eauto.
  - intros (t & Hin). by eexists.
Qed.

Lemma largest_bound_app site l l' : largest_bound site (l ++ l') = Z.max (largest_bound site l) (largest_bound site l').
Proof.
  assert (∀ l, 0 ≤ largest_bound site l) as Hpos.
  { induction l0 as [|[] l0 IH]; simpl; try lia. destruct (eqs _ _); lia. }
  induction l as [|e l IH]; simpl; [by rewrite Z.max_r|]. rewrite IH. destruct e; try done. destruct (eqs _ _); lia.
Qed.

Lemma RelayInv_new : RelayInv 0 NewEdgeRelayStore [].
Proof.
  split; simpl; try done; try (intros *; by intros ?%elem_of_nil). split; constructor.
Qed.

(** ** Queues as sets of ids *)

Lemma queued_lookup site m id msg :
  queued_of site m !! id = Some msg ↔ m !! id = Some msg ∧ em_SiteID msg = site ∧ em_Status msg = "queued".
Proof.
  unfold queued_of, is_queued. rewrite map_lookup_filter_Some. simpl. by rewrite andb_true_iff, !eqs_true.
Qed.

Lemma expire_lookup now s id msg :
  er_messages (expireRelayLocked now s) !! id = Some msg ↔ er_messages s !! id = Some msg ∧ now < em_ExpiresAt msg.
Proof.
  destruct s as [n sites ms]. simpl. rewrite map_lookup_filter_Some. simpl. unfold is_expired, After.
  f_equiv. destruct (Z.ltb_spec (em_ExpiresAt msg) now), (Z.eqb_spec now (em_ExpiresAt msg)); simpl; split; intros; try done; lia.
Qed.

(** What the loop of [Deliver] does, in any order: it marks as many of the queued
    messages as the limit allows. *)
Lemma deliver_loop_spec site limit now items delivered m :
  NoDup items.*1 → (∀ id msg, (id, msg) ∈ items → m !! id = Some msg) → Z.of_nat (length delivered) ≤ limit →
  let '(m', delivered') := deliver_loop site limit now delivered items m in
  ∃ ids, delivered' = delivered ++ ids ∧ NoDup ids ∧
    (∀ id, id ∈ ids → ∃ msg, (id, msg) ∈ items ∧ is_queued site msg = true) ∧
    Z.of_nat (length ids) = Z.min (limit - Z.of_nat (length delivered))
      (Z.of_nat (length (filter (λ e : string * EdgeRelayMessage, is_queued site e.2 = true) items))) ∧
    ∀ id, m' !! id = if bool_decide (id ∈ ids)
                     then (λ msg, msg <| em_Status := "delivered" |> <| em_DeliveredAt := Some now |>) <$> m !! id
                     else m !! id.
Proof.
  revert delivered m; induction items as [|[id msg] items IH]; intros delivered m Hnd Hm Hlim; cbn [deliver_loop].
  { exists []. rewrite app_nil_r. split_and!; [done|constructor|by intros ? ?%elem_of_nil|simpl; lia|done]. }
  rewrite fmap_cons in Hnd. apply NoDup_cons in Hnd as [Hnotin Hnd]. simpl in Hnotin.
  destruct (is_queued site msg) eqn:Hq; simpl negb; cbv iota.
  - rewrite filter_cons_True by done. cbn [length]. destruct (Z.leb_spec limit (Z.of_nat (length delivered))).
    { exists []. rewrite app_nil_r. split_and!; [done|constructor|by intros ? ?%elem_of_nil|cbn [length]; lia|done]. }
    specialize (IH (delivered ++ [id]) (deliver_one now id msg m) Hnd). rewrite length_app in IH. cbn [length] in IH.
    destruct (deliver_loop _ _ _ _ items _) as [m' delivered']. destruct IH as (ids & -> & Hids & Hin & Hlen & Hm').
    { intros id' msg' Hin. unfold deliver_one. rewrite lookup_insert_ne; [apply Hm; by right|].
      intros <-. apply Hnotin, list_elem_of_fmap. by exists (id, msg'). }
    { lia. }
    assert (id ∉ ids) as Hni.
    { intros (msg' & Hx & _)%Hin. apply Hnotin, list_elem_of_fmap. by exists (id, msg'). }
    exists (id :: ids). rewrite <-app_assoc. split_and!; [done|by constructor| |cbn [length]; lia|].
    + intros id' [->|(msg' & ? & ?)%Hin]%elem_of_cons; [exists msg; split; [by left|done]|exists msg'; split; [by right|done]].
    + intros id'. rewrite Hm'. unfold deliver_one. destruct (decide (id' = id)) as [->|Hne].
      * rewrite bool_decide_eq_false_2, bool_decide_eq_true_2, lookup_insert_eq by (done || by left).
        by rewrite (Hm id msg) by (by left).
      * rewrite lookup_insert_ne by done. destruct (decide (id' ∈ ids)) as [Hx|Hx].
        -- rewrite !bool_decide_eq_true_2; [done|by right|done].
        -- rewrite !bool_decide_eq_false_2; [done| |done]. by intros [?|?]%elem_of_cons.
  - rewrite filter_cons_False by (simpl; by rewrite Hq). specialize (IH delivered m Hnd).
    destruct (deliver_loop _ _ _ _ items _) as [m' delivered']. destruct IH as (ids & -> & Hids & Hin & Hlen & Hm'); [|done|].
    { intros id' msg' Hx. apply Hm. by right. }
    exists ids. split_and!; try done. intros id' (msg' & ? & ?)%Hin. exists msg'. split; [by right|done].
Qed.

(** Delivering takes ids out of the queue of the site, and of no other. *)
Lemma queued_of_delivered site site' ids now m m' :
  (∀ id, id ∈ ids → ∃ msg, m !! id = Some msg ∧ is_queued site msg = true) →
  (∀ id, m' !! id = if bool_decide (id ∈ ids)
     then (λ msg, msg <| em_Status := "delivered" |> <| em_DeliveredAt := Some now |>) <$> m !! id else m !! id) →
  dom (queued_of site' m') = dom (queued_of site' m) ∖ (if eqs site' site then list_to_set ids else ∅).
Proof.
  intros Hids Hm'. apply set_eq. intros id. rewrite elem_of_difference, !elem_of_dom.
  assert (is_Some (queued_of site' m' !! id) ↔ is_Some (queued_of site' m !! id) ∧ id ∉ ids) as ->.
  { unfold is_Some. setoid_rewrite queued_lookup. rewrite Hm'. case_bool_decide as Hx; [|naive_solver].
    split; [|naive_solver]. intros (msg & Hmsg & _ & Hst). apply fmap_Some in Hmsg as (x & _ & ->). by destruct x. }
  destruct (eqs site' site) eqn:He; rewrite ?eqs_true, ?eqs_false in He.
  - by rewrite elem_of_list_to_set.
  - split; [set_solver|]. intros [Hq _]. split; [done|]. intros (msg & Hmsg & Hqs)%Hids.
    destruct Hq as [x Hx%queued_lookup]. unfold is_queued in Hqs. rewrite andb_true_iff, !eqs_true in Hqs. destruct Hx as (? & ? & ?), Hqs. congruence.
Qed.

(** ** The queue of a site is what the history leaves pending *)

Lemma queued_unique log id a b c a' b' c' :
  NoDup (queued_ids log) → EvQueued id a b c ∈ log → EvQueued id a' b' c' ∈ log → a = a' ∧ b = b' ∧ c = c'.
Proof.
  induction log as [|e log IH]; [by intros _ ?%elem_of_nil|]. intros Hnd. rewrite !elem_of_cons.
  assert (NoDup (queued_ids log)) as Hnd' by (destruct e; [done| |done]; by apply NoDup_cons in Hnd as [_ ?]).
  intros [<-|Hin] [Heq|Hin']; [by simplify_eq| | |by apply IH].
  - apply NoDup_cons in Hnd as [Hn _]. destruct Hn. apply elem_of_queued_ids. eauto.
  - subst e. apply NoDup_cons in Hnd as [Hn _]. destruct Hn. apply elem_of_queued_ids. eauto.
Qed.

Lemma sublist_queued (g : relay_event → option string) log :
  (∀ e id, g e = Some id → ∃ a b c, e = EvQueued id a b c) → omap g log `sublist_of` queued_ids log.
Proof.
  intros Hg. induction log as [|e log IH]; [constructor|]. unfold queued_ids in *. simpl.
  destruct (g e) as [id|] eqn:He.
  - destruct (Hg _ _ He) as (a & b & c & ->). by constructor.
  - destruct e; try done. by constructor.
Qed.

Lemma elem_of_pending site now log id :
  id ∈ pending site now log ↔ ∃ cr ex, EvQueued id site cr ex ∈ log ∧ now < ex ∧ id ∉ delivered_ids log.
Proof.
  unfold pending. rewrite list_elem_of_omap. split.
  - intros (e & Hin & He). destruct e as [|id' site' cr ex|]; try done. simpl in He.
    destruct (eqs site' site) eqn:Hs, (Before now ex) eqn:Hb, (bool_decide (id' ∉ delivered_ids log)) eqn:Hd; try done.
    injection He as ->. apply eqs_true in Hs as ->. apply bool_decide_eq_true in Hd. apply Z.ltb_lt in Hb. eauto.
  - intros (cr & ex & Hin & Hex & Hd). eexists. split; [done|]. simpl. rewrite eqs_refl.
    unfold Before. by rewrite (proj2 (Z.ltb_lt _ _)), bool_decide_eq_true_2.
Qed.

Lemma NoDup_pending site now log : NoDup (queued_ids log) → NoDup (pending site now log).
Proof.
  intros Hnd. apply (sublist_NoDup _ (queued_ids log)); [exact Hnd|]. apply sublist_queued.
  intros [|id' site' cr ex|] k; try done. simpl. destruct (_ && _); [|done]. intros [= ->]. eauto.
Qed.

Lemma pending_dom c s log site now :
  RelayInv c s log → c ≤ now →
  dom (queued_of site (er_messages (expireRelayLocked now s))) = list_to_set (pending site now log).
Proof.
  intros [Hm Hq _ [Hnd _] _ _ _] Hc. apply set_eq. intros id. rewrite elem_of_dom, elem_of_list_to_set, elem_of_pending. split.
  - intros [msg (Hx & <- & Hst)%queued_lookup]. apply expire_lookup in Hx as [Hx Hex].
    destruct (Hm _ _ Hx) as (_ & Hev & [(_ & Hd & _)|(Hst' & _)]); [eauto|]. rewrite Hst in Hst'. discriminate Hst'.
  - intros (cr & ex & Hin & Hex & Hd). destruct (Hq _ _ _ _ Hin) as (_ & _ & [msg Hx]); [lia|].
    destruct (Hm _ _ Hx) as (_ & Hev & Hst). destruct (queued_unique _ _ _ _ _ _ _ _ Hnd Hin Hev) as (-> & -> & ->).
    exists msg. apply queued_lookup. split; [by apply expire_lookup|]. split; [done|].
    destruct Hst as [[? _]|(_ & t & _ & Hdel)]; [done|]. destruct Hd. apply elem_of_delivered_ids. eauto.
Qed.

Lemma pending_length c s log site now :
  RelayInv c s log → c ≤ now →
  length (pending site now log) = size (queued_of site (er_messages (expireRelayLocked now s))).
Proof.
  intros Hinv Hc. rewrite <-size_dom, (pending_dom _ _ _ _ _ Hinv Hc), size_list_to_set; [done|].
  apply NoDup_pending, Hinv.
Qed.

(** ** Every step *)

Lemma RelayInv_later c c' s log : c ≤ c' → RelayInv c s log → RelayInv c' s log.
Proof.
  intros Hc [Hm Hq Hd Hn Hs Hdep Hnext]. split; try done. intros id site cr ex Hin.
  destruct (Hq _ _ _ _ Hin) as (? & ? & Hex). split_and!; [done|lia|]. intros ?. apply Hex. lia.
Qed.

Lemma RelayInv_expire c now s log : c ≤ now → RelayInv c s log → RelayInv now (expireRelayLocked now s) log.
Proof.
  intros Hc Hinv. pose proof Hinv as [Hm Hq Hd [Hn Hn'] Hs Hdep Hnext]. split; try done.
  - intros id msg [Hx _]%expire_lookup. by apply Hm.
  - intros id site cr ex Hin. destruct (Hq _ _ _ _ Hin) as (Hk & ? & Hex). split_and!; [by destruct s|lia|]. intros Hlt.
    destruct Hex as [msg Hx]; [lia|]. exists msg. apply expire_lookup. split; [done|].
    destruct (Hm _ _ Hx) as (_ & Hev & _). by destruct (queued_unique _ _ _ _ _ _ _ _ Hn Hin Hev) as (_ & _ & <-).
  - intros site. etrans; [|apply Hdep]. unfold queueDepthLocked. rewrite <-!size_dom. apply inj_le, subseteq_size.
    intros id. rewrite !elem_of_dom. intros [msg (Hx & ? & ?)%queued_lookup]. apply expire_lookup in Hx as [Hx _].
    exists msg. by apply queued_lookup.
Qed.

Lemma message_ok_app log evs id m : id ∉ delivered_ids evs → message_ok log id m → message_ok (log ++ evs) id m.
Proof.
  intros Hd (Hid & Hev & Hst). split; [done|]. split; [apply elem_of_app; by left|].
  destruct Hst as [(? & Hnd & ?)|(? & t & ? & ?)]; [left|right].
  - rewrite delivered_ids_app, elem_of_app. naive_solver.
  - split; [done|]. exists t. rewrite elem_of_app. auto.
Qed.

(** A site is configured, or touched. *)
Lemma RelayInv_site c s log id site evs :
  RelayInv c s log → st_SiteID site = id → st_Connected site = true → 0 < st_MaxQueueDepth site →
  (evs = [EvSite id (st_MaxQueueDepth site)] ∨ evs = [] ∧ ∃ old, er_sites s !! id = Some old ∧ st_MaxQueueDepth site = st_MaxQueueDepth old) →
  RelayInv c (s <| er_sites := <[id := site]> (er_sites s) |>) (log ++ evs).
Proof.
  intros [Hm Hq Hd [Hn Hn'] Hs Hdep Hnext] Hid Hcon Hpos Hevs. destruct s as [next sites ms]. simpl in *.
  assert (queued_ids evs = [] ∧ delivered_ids evs = []) as [Hqe Hde] by (by destruct Hevs as [->|[-> _]]).
  assert (∀ site, largest_bound site log ≤ largest_bound site (log ++ evs)) as Hle by (intros; rewrite largest_bound_app; lia).
  split; simpl; try done.
  - intros i m Hi%Hm. apply message_ok_app; [|done]. rewrite Hde. apply not_elem_of_nil.
  - intros i st cr ex [Hin|Hin]%elem_of_app; [by eapply Hq|]. destruct Hevs as [->|[-> _]]; [|by apply elem_of_nil in Hin].
    by apply list_elem_of_singleton in Hin.
  - intros i t [(st & cr & ex & ? & ?)%Hd|Hin]%elem_of_app.
    + exists st, cr, ex. rewrite elem_of_app. auto.
    + destruct Hevs as [->|[-> _]]; [|by apply elem_of_nil in Hin]. by apply list_elem_of_singleton in Hin.
  - rewrite queued_ids_app, delivered_ids_app, Hqe, Hde, !app_nil_r. done.
  - intros i st Hi. destruct (decide (i = id)) as [->|Hne].
    + rewrite lookup_insert_eq in Hi. injection Hi as <-. split_and!; try done.
      destruct Hevs as [->|[-> (old & Ho & Heq)]].
      * rewrite largest_bound_app. simpl. rewrite eqs_refl. lia.
      * rewrite app_nil_r, Heq. destruct (Hs _ _ Ho) as (_ & ? & _). lia.
    + rewrite lookup_insert_ne in Hi by done. destruct (Hs _ _ Hi) as (? & ? & ?). specialize (Hle i). split_and!; try done; lia.
  - intros st. specialize (Hdep st). specialize (Hle st). unfold queueDepthLocked in *. simpl in *. lia.
Qed.

Lemma queued_of_fresh site id msg m :
  m !! id = None →
  queued_of site (<[id := msg]> m) = if is_queued site msg then <[id := msg]> (queued_of site m) else queued_of site m.
Proof.
  intros Hid. unfold queued_of. destruct (is_queued site msg) eqn:Hq.
  - by rewrite map_filter_insert_True.
  - rewrite map_filter_insert_False by (simpl; by rewrite Hq). by rewrite delete_id.
Qed.

Lemma message_fresh c s log :
  RelayInv c s log → er_nextID s + 1 ≤ max_int64 →
  let id := "relay-msg-" +:+ itoa (er_nextID s + 1) in id ∉ queued_ids log ∧ er_messages s !! id = None.
Proof.
  intros [Hm Hq _ _ _ _ Hnext] Hmax id.
  assert (id ∉ queued_ids log) as Hn.
  { intros (site & cr & ex & Hin)%elem_of_queued_ids. destruct (Hq _ _ _ _ Hin) as ((k & Hk & Heq) & _).
    apply (inj (String.app "relay-msg-")), itoa_inj in Heq; lia. }
  split; [done|]. apply eq_None_not_Some. intros [msg Hx]. destruct (Hm _ _ Hx) as (_ & Hev & _).
  apply Hn, elem_of_queued_ids. eauto.
Qed.

(** A message joins a queue that has room for it. *)
Lemma RelayInv_queue c now s log m :
  c ≤ now → RelayInv c s log → er_nextID s + 1 ≤ max_int64 → queueDepthLocked (em_SiteID m) s < largest_bound (em_SiteID m) log →
  em_ID m = "relay-msg-" +:+ itoa (er_nextID s + 1) → em_CreatedAt m = now → em_Status m = "queued" → em_DeliveredAt m = None →
  RelayInv now (s <| er_nextID := er_nextID s + 1 |> <| er_messages := <[em_ID m := m]> (er_messages s) |>)
    (log ++ [EvQueued (em_ID m) (em_SiteID m) (em_CreatedAt m) (em_ExpiresAt m)]).
Proof.
  intros Hc Hinv Hmax Hroom Hid Hcr Hst Hdel. apply (RelayInv_later _ now) in Hinv; [|done].
  destruct (message_fresh _ _ _ Hinv Hmax) as [Hfresh Hnone]. pose proof Hinv as [Hm Hq Hd [Hn Hn'] Hs Hdep Hnext].
  rewrite <-Hid in Hfresh, Hnone. assert (em_ID m ∉ delivered_ids log) as Hnd.
  { intros (t & (st & cr & ex & Hin & _)%Hd)%elem_of_delivered_ids. apply Hfresh, elem_of_queued_ids. eauto. }
  destruct s as [next sites ms]. simpl in *. split; simpl; try done; [..|lia].
  - apply map_Forall_insert_2.
    + split; [done|]. split; [apply elem_of_app; right; by left|]. left. rewrite delivered_ids_app, app_nil_r. done.
    + intros i x Hx%Hm. apply message_ok_app; [apply not_elem_of_nil|done].
  - intros i st cr ex [Hin|Hin]%elem_of_app.
    + destruct (Hq _ _ _ _ Hin) as ((k & ? & ?) & ? & Hex). split_and!; [exists k; split; [lia|done]|done|].
      intros ?%Hex. destruct (decide (i = em_ID m)) as [->|]; [by rewrite lookup_insert_eq|by rewrite lookup_insert_ne].
    + apply list_elem_of_singleton in Hin. simplify_eq. split_and!; [exists (next + 1); split; [lia|done]|lia|].
      by rewrite lookup_insert_eq.
  - intros i t [(st & cr & ex & ? & ?)%Hd|Hin]%elem_of_app; [|by apply list_elem_of_singleton in Hin].
    exists st, cr, ex. rewrite elem_of_app. auto.
  - rewrite queued_ids_app, delivered_ids_app, app_nil_r. split; [|done]. apply NoDup_app. split_and!; [done| |apply NoDup_singleton].
    intros x Hx Hx'. apply list_elem_of_singleton in Hx' as ->. done.
  - intros i st Hi. rewrite largest_bound_app. destruct (Hs _ _ Hi) as (? & ? & ?). split_and!; try done; lia.
  - intros st. specialize (Hdep st). rewrite largest_bound_app. unfold queueDepthLocked in *. simpl in *.
    rewrite queued_of_fresh by done. destruct (is_queued st m) eqn:Hqs; [|lia].
    unfold is_queued in Hqs. apply andb_true_iff in Hqs as [<-%eqs_true _]. rewrite map_size_insert_None; [lia|].
    apply eq_None_not_Some. intros [x (Hx & _)%queued_lookup]. simpl in Hx. by rewrite Hnone in Hx.
Qed.

(** Some of the messages queued for a site are delivered. *)
Lemma RelayInv_deliver now s log site ids m' :
  RelayInv now s log → NoDup ids → (∀ id, id ∈ ids → ∃ msg, er_messages s !! id = Some msg ∧ is_queued site msg = true ∧ now < em_ExpiresAt msg) →
  (∀ id, m' !! id = if bool_decide (id ∈ ids)
     then (λ msg, msg <| em_Status := "delivered" |> <| em_DeliveredAt := Some now |>) <$> er_messages s !! id else er_messages s !! id) →
  RelayInv now (s <| er_messages := m' |>) (log ++ ((λ id, EvDelivered id now) <$> ids)).
Proof.
  intros Hinv Hnd Hids Hm'. pose proof Hinv as [Hm Hq Hd [Hn Hn'] Hs Hdep Hnext].
  set (evs := (λ id, EvDelivered id now) <$> ids).
  assert (delivered_ids evs = ids ∧ queued_ids evs = [] ∧ ∀ st, largest_bound st evs = 0) as (Hde & Hqe & Hle).
  { unfold evs. clear. induction ids as [|id ids (IH1 & IH2 & IH3)]; [done|]. rewrite fmap_cons.
    split_and!; [by rewrite <-IH1 at 2|exact IH2|exact IH3]. }
  assert (∀ id t, EvDelivered id t ∈ evs → id ∈ ids ∧ t = now) as Hev by (intros id t (x & [= <- <-] & ?)%list_elem_of_fmap; done).
  assert (∀ id, id ∈ ids → ∃ msg, er_messages s !! id = Some msg ∧ id ∉ delivered_ids log ∧ message_ok log id msg ∧ now < em_ExpiresAt msg) as Hids'.
  { intros id (msg & Hx & Hqs & Hex)%Hids. exists msg. pose proof (Hm _ _ Hx) as Hok. split_and!; try done.
    destruct Hok as (_ & _ & [(_ & ? & _)|(Hst & _)]); [done|]. unfold is_queued in Hqs.
    rewrite Hst, andb_false_r in Hqs. done. }
  pose proof (λ site', queued_of_delivered site site' ids now (er_messages s) m') as Hdom.
  destruct s as [next sites ms]. simpl in *. split; simpl; try done.
  - intros id msg Hx. rewrite Hm' in Hx. case_bool_decide as Hin.
    + destruct (Hids' _ Hin) as (msg0 & Hx0 & _ & (Hid & Hevq & _) & _). rewrite Hx0 in Hx. injection Hx as <-.
      destruct msg0. simpl in *. split; [done|]. split; [apply elem_of_app; by left|]. right. split; [done|]. exists now.
      split; [done|]. apply elem_of_app. right. apply list_elem_of_fmap. eauto.
    + apply message_ok_app; [by rewrite Hde|by apply Hm].
  - intros id st cr ex [Hin|Hin]%elem_of_app.
    + destruct (Hq _ _ _ _ Hin) as (? & ? & Hex). split_and!; try done. intros ?%Hex. rewrite Hm'.
      case_bool_decide; [by apply fmap_is_Some|done].
    + by apply list_elem_of_fmap in Hin as (? & ? & _).
  - intros id t [(st & cr & ex & ? & ?)%Hd|[Hin ->]%Hev]%elem_of_app.
    + exists st, cr, ex. rewrite elem_of_app. auto.
    + destruct (Hids' _ Hin) as (msg & _ & _ & (_ & Hevq & _) & Hex). destruct (Hq _ _ _ _ Hevq) as (_ & ? & _).
      eexists _, _, _. rewrite elem_of_app. split; [by left|lia].
  - rewrite queued_ids_app, delivered_ids_app, Hqe, Hde, app_nil_r. split; [done|]. apply NoDup_app. split_and!; [done| |done].
    intros id Hin Hin'. by destruct (Hids' _ Hin') as (_ & _ & ? & _).
  - intros id st Hi. rewrite largest_bound_app, Hle. destruct (Hs _ _ Hi) as (? & ? & ?). split_and!; try done; lia.
  - intros st. etrans; [|rewrite largest_bound_app; apply Z.le_max_l]. etrans; [|apply (Hdep st)].
    unfold queueDepthLocked. simpl. rewrite <-!size_dom. apply inj_le, subseteq_size. rewrite Hdom; [set_solver| |done].
    intros id (msg & ? & ? & _)%Hids. eauto.
Qed.

Lemma queued_items site ro m :
  length (filter (λ e : string * EdgeRelayMessage, is_queued site e.2 = true) (range ro m)) = size (queued_of site m).
Proof.
  rewrite <-length_map_to_list. apply Permutation_length, NoDup_Permutation.
  - apply NoDup_filter, (NoDup_fmap_1 fst), NoDup_range.
  - apply NoDup_map_to_list.
  - intros [id msg]. unfold queued_of. rewrite list_elem_of_filter, elem_of_range, elem_of_map_to_list, map_lookup_filter_Some. tauto.
Qed.

Lemma Deliver_ok c s log siteID limit now ro :
  let site := TrimSpace siteID in
  RelayInv c s log → c ≤ now → site ≠ "" → is_Some (er_sites s !! site) →
  ∃ s' res ids, Deliver siteID limit now ro s = (s', Ok (res, ids)) ∧
    NoDup ids ∧ ids ⊆ pending site now log ∧
    Z.of_nat (length ids) = Z.min (if limit <=? 0 then 100 else limit) (Z.of_nat (length (pending site now log))) ∧
    dr_Delivered res = Z.of_nat (length ids) ∧
    dr_Remaining res = Z.of_nat (length (pending site now log)) - Z.of_nat (length ids) ∧
    er_nextID s' = er_nextID s ∧ RelayInv now s' (log ++ ((λ id, EvDelivered id now) <$> ids)).
Proof.
  intros site Hinv Hc Hne [st Hst]. unfold Deliver. fold site. rewrite (proj2 (eqs_false site "")), Hst by done.
  set (limit' := if limit <=? 0 then 100 else limit). set (s0 := expireRelayLocked now s).
  pose proof (RelayInv_expire _ _ _ _ Hc Hinv) as Hinv0. pose proof (pending_length _ _ _ site _ Hinv Hc) as Hlen.
  pose proof (pending_dom _ _ _ site _ Hinv Hc) as Hpd. fold s0 in Hinv0, Hlen, Hpd.
  pose proof (deliver_loop_spec site limit' now (range ro (er_messages s0)) [] (er_messages s0) (NoDup_range _ _)) as Hloop.
  destruct (deliver_loop _ _ _ _ _ _) as [m' delivered]. destruct Hloop as (ids & -> & Hids & Hin & Hl & Hm').
  { intros id msg. by rewrite elem_of_range. }
  { subst limit'. simpl. destruct (Z.leb_spec limit 0); lia. }
  rewrite queued_items, <-Hlen, Z.sub_0_r in Hl.
  assert (∀ id, id ∈ ids → ∃ msg, er_messages s0 !! id = Some msg ∧ is_queued site msg = true ∧ now < em_ExpiresAt msg) as Hids'.
  { intros id (msg & Hx%elem_of_range & ?)%Hin. exists msg. split_and!; try done. by apply expire_lookup in Hx as [_ ?]. }
  pose proof (RelayInv_deliver now s0 log site ids m' Hinv0 Hids Hids' Hm') as Hinv1.
  pose proof (queued_of_delivered site site ids now (er_messages s0) m') as Hdom. rewrite eqs_refl in Hdom.
  specialize (Hdom ltac:(intros id (msg & ? & ? & _)%Hids'; eauto) Hm').
  assert (ids ⊆ pending site now log) as Hsub.
  { intros id Hi. apply (elem_of_list_to_set (C := gset string)). rewrite <-Hpd. destruct (Hids' _ Hi) as (msg & Hx & Hqs & _).
    unfold is_queued in Hqs. apply andb_true_iff in Hqs as [?%eqs_true ?%eqs_true]. apply elem_of_dom. exists msg. by apply queued_lookup. }
  set (s1 := s0 <| er_messages := m' |>) in *.
  assert (queueDepthLocked site s1 = Z.of_nat (length (pending site now log)) - Z.of_nat (length ids)) as Hdep.
  { unfold queueDepthLocked. change (er_messages s1) with m'. rewrite <-size_dom, Hdom, Hpd, size_difference.
    - rewrite !size_list_to_set by (done || by apply NoDup_pending, Hinv). lia.
    - intros id. rewrite !elem_of_list_to_set. apply Hsub. }
  eexists _, _, ids. split; [done|]. split_and!; try done.
  rewrite <-(app_nil_r (log ++ _)). destruct (ri_sites _ _ _ Hinv _ _ Hst) as (Hsid & [Hpos _] & Hcon).
  apply RelayInv_site; [done|exact Hsid|exact Hcon|exact Hpos|]. right. split; [done|]. by exists st.
Qed.

Lemma QueueMessage_ok hash c now s log i :
  RelayInv c s log → c ≤ now → er_nextID s + 1 ≤ max_int64 →
  let '(s', r) := QueueMessage hash i now s in
  RelayInv now s' (log ++ match r with Ok m => [EvQueued (em_ID m) (em_SiteID m) (em_CreatedAt m) (em_ExpiresAt m)] | Err _ => [] end) ∧
  er_nextID s' ≤ er_nextID s + 1.
Proof.
  intros Hinv Hc Hmax. apply (RelayInv_later _ now) in Hinv; [|done]. unfold QueueMessage.
  assert (RelayInv now s (log ++ []) ∧ er_nextID s ≤ er_nextID s + 1) as Hsame by (rewrite app_nil_r; split; [done|lia]).
  destruct (_ || _); [done|]. destruct (negb _); [done|]. set (siteID := TrimSpace (mi_SiteID i)).
  destruct (er_sites s !! siteID) as [site|] eqn:Hsite; [|done]. destruct (_ && _) eqn:Hfull; [done|].
  destruct (ri_sites _ _ _ Hinv _ _ Hsite) as (Hid & [Hpos Hb] & Hcon).
  assert (queueDepthLocked siteID s < largest_bound siteID log) as Hroom.
  { apply andb_false_iff in Hfull as [Hf%Z.ltb_ge|Hf%Z.leb_gt]; lia. }
  set (m := new_message hash _ siteID _ _ _ now). set (s1 := s <| er_nextID := _ |> <| er_messages := _ |>).
  pose proof (RelayInv_queue now now s log m (Z.le_refl _) Hinv Hmax Hroom eq_refl eq_refl eq_refl eq_refl) as Hinv1.
  fold s1 in Hinv1. split; [|simpl; lia]. rewrite <-(app_nil_r (log ++ _)).
  apply RelayInv_site; [done|exact Hid|exact Hcon|exact Hpos|]. right. split; [done|]. by exists site.
Qed.

Lemma run_relay_op_ok hash c s log op :
  RelayInv c s log → c ≤ relay_clock op → er_nextID s + 1 ≤ max_int64 →
  let '(s', evs) := run_relay_op hash s op in RelayInv (relay_clock op) s' (log ++ evs) ∧ er_nextID s' ≤ er_nextID s + 1.
Proof.
  intros Hinv Hc Hmax. destruct op as [i now|siteID now|i now|siteID limit now ro|siteID limit now ro]; cbn [run_relay_op relay_clock] in *.
  - apply (RelayInv_later _ now) in Hinv; [|done]. unfold UpsertSite.
    assert (RelayInv now s (log ++ []) ∧ er_nextID s ≤ er_nextID s + 1) as Hsame by (rewrite app_nil_r; split; [done|lia]).
    destruct (eqs (TrimSpace (si_SiteID i)) ""); [done|]. destruct (eqs (normalizeRelayMode (si_Mode i)) ""); [done|].
    set (id := TrimSpace (si_SiteID i)). set (st0 := default _ (er_sites s !! id)).
    assert (st_SiteID st0 = id ∧ st_Connected st0 = true) as [Hid Hcon].
    { subst st0. destruct (er_sites s !! id) as [st|] eqn:Hst; [|done]. by destruct (ri_sites _ _ _ Hinv _ _ Hst) as (? & _ & ?). }
    clearbody st0. set (mx := if si_MaxQueueDepth i <=? 0 then 1000 else _).
    assert (0 < mx) by (subst mx; destruct (Z.leb_spec (si_MaxQueueDepth i) 0); lia).
    split; [|simpl; lia]. simpl st_MaxQueueDepth. change (st_SiteID (_ <| st_QueueDepth := _ |>)) with (st_SiteID st0). rewrite Hid.
    apply (RelayInv_site now s log id _ [EvSite id mx]); [done|exact Hid|exact Hcon|done|by left].
  - apply (RelayInv_later _ now) in Hinv; [|done]. rewrite app_nil_r. unfold HeartbeatSite.
    destruct (eqs _ ""); [split; [done|simpl; lia]|]. destruct (er_sites s !! TrimSpace siteID) as [st|] eqn:Hst; [|split; [done|simpl; lia]].
    destruct (ri_sites _ _ _ Hinv _ _ Hst) as (Hid & [Hpos _] & _). split; [|simpl; lia]. rewrite <-(app_nil_r log).
    apply RelayInv_site; [done|exact Hid|done|exact Hpos|]. right. split; [done|]. by exists st.
  - pose proof (QueueMessage_ok hash c now s log i Hinv Hc Hmax) as Hok. by destruct (QueueMessage hash i now s) as [s' r].
  - destruct (decide (TrimSpace siteID ≠ "" ∧ is_Some (er_sites s !! TrimSpace siteID))) as [[Hne Hs]|Hno].
    + destruct (Deliver_ok c s log siteID limit now ro Hinv Hc Hne Hs) as (s' & res & ids & -> & _ & _ & _ & _ & _ & -> & ?).
      split; [done|lia].
    + apply (RelayInv_later _ now) in Hinv; [|done]. unfold Deliver. destruct (eqs (TrimSpace siteID) "") eqn:He.
      { rewrite app_nil_r. split; [done|lia]. }
      apply eqs_false in He. destruct (er_sites s !! TrimSpace siteID) as [st|]; [by destruct Hno; split|].
      rewrite app_nil_r. split; [done|lia].
  - rewrite app_nil_r. split; [by eapply RelayInv_expire|simpl; lia].
Qed.

Definition relay_now (c : Time) (ops : list relay_op) : Time := foldl (λ _ op, relay_clock op) c ops.

Lemma relay_clocks_snoc c ops op : relay_clocks c (ops ++ [op]) ↔ relay_clocks c ops ∧ relay_now c ops ≤ relay_clock op.
Proof. revert c; induction ops as [|op' ops IH]; intros c; simpl; [tauto|]. rewrite IH. tauto. Qed.

Lemma run_relay_ok hash c s log ops :
  RelayInv c s log → relay_clocks c ops → er_nextID s + Z.of_nat (length ops) ≤ max_int64 →
  let '(s', log') := run_relay hash s log ops in
  RelayInv (relay_now c ops) s' log' ∧ er_nextID s' ≤ er_nextID s + Z.of_nat (length ops).
Proof.
  revert c s log; induction ops as [|op ops IH]; intros c s log Hinv Hck Hmax; cbn [run_relay length relay_clocks] in *; [split; [done|lia]|].
  destruct Hck as [Hc Hck]. pose proof (run_relay_op_ok hash c s log op Hinv Hc ltac:(lia)) as Hop.
  destruct (run_relay_op hash s op) as [s1 evs]. destruct Hop as [Hinv1 Hn1].
  specialize (IH _ _ _ Hinv1 Hck ltac:(lia)). destruct (run_relay hash s1 (log ++ evs) ops) as [s2 log2]. destruct IH. split; [done|lia].
Qed.

(** C31: The relay, after any history of calls whose readings of the clock, taken
    before the mutex, do not go back in the order in which the calls enter it.  A message is delivered at most once, only after it was queued and
    before it expires.  None is lost: a delivery to a configured site, in
    whatever order the loop runs, hands out distinct messages that wait for that
    site, as many as the limit allows, and reports the rest as remaining; the
    messages that wait are exactly those queued for the site that have neither
    been delivered nor expired.  The depth of a queue never exceeds the largest
    bound its site was given. *)
Theorem edge_relay hash ops :
  Z.of_nat (length ops) ≤ max_int64 → relay_clocks 0 ops →
  let '(s, log) := run_relay hash NewEdgeRelayStore [] ops in
  NoDup (delivered_ids log) ∧
  (∀ id t, EvDelivered id t ∈ log → ∃ site cr ex, EvQueued id site cr ex ∈ log ∧ cr ≤ t < ex) ∧
  (∀ siteID limit now ro, let site := TrimSpace siteID in
     relay_clocks 0 (ops ++ [RDeliver siteID limit now ro]) → site ≠ "" → is_Some (er_sites s !! site) →
     ∃ res ids, (Deliver siteID limit now ro s).2 = Ok (res, ids) ∧ NoDup ids ∧ ids ⊆ pending site now log ∧
       Z.of_nat (length ids) = Z.min (if limit <=? 0 then 100 else limit) (Z.of_nat (length (pending site now log))) ∧
       dr_Delivered res = Z.of_nat (length ids) ∧
       dr_Remaining res = Z.of_nat (length (pending site now log)) - Z.of_nat (length ids)) ∧
  (∀ site now, NoDup (pending site now log) ∧
     ∀ id, id ∈ pending site now log ↔ ∃ cr ex, EvQueued id site cr ex ∈ log ∧ now < ex ∧ id ∉ delivered_ids log) ∧
  (∀ site, queueDepthLocked site s ≤ largest_bound site log).
Proof.
  intros Hlen Hck. pose proof (run_relay_ok hash 0 _ [] ops RelayInv_new Hck Hlen) as Hrun.
  destruct (run_relay hash _ [] ops) as [s log]. destruct Hrun as [Hinv _].
  pose proof Hinv as [_ _ Hd [Hn Hn'] _ Hdep _]. split_and!; [done|done| | |done].
  - intros siteID limit now ro site [_ Hnow]%relay_clocks_snoc Hne Hs.
    destruct (Deliver_ok _ s log siteID limit now ro Hinv Hnow Hne Hs) as (s' & res & ids & -> & ? & ? & ? & ? & ? & _).
    by exists res, ids.
  - intros site now. split; [by apply NoDup_pending|]. intros id. apply elem_of_pending.
Qed.

Definition wit_site (bound : Z) : EdgeRelaySiteInput := mkSiteInput " edge-1 " "" "Passthrough" bound 0.
Definition wit_message (payload : string) (ttl : Z) : EdgeRelayMessageInput := mkMessageInput "edge-1" "Egress" payload ttl.
Definition wit_relay_ops : list relay_op :=
  [RSite (wit_site 3) 1; RQueue (wit_message "a" 0) 2; RQueue (wit_message "b" 0) 3; RQueue (wit_message "c" 1) 3;
   RDeliver "edge-1" 1 4 some_order].

Lemma edge_relay_witness :
  ∃ res ids, (Deliver "edge-1" 5 (10 * Second) some_order (run_relay id NewEdgeRelayStore [] wit_relay_ops).1).2 = Ok (res, ids) ∧
    dr_Delivered res = 2 ∧ dr_Remaining res = 0.
Proof.
  assert (relay_clocks 0 wit_relay_ops) as Hck by (repeat split; simpl; lia).
  pose proof (edge_relay id wit_relay_ops ltac:(by vm_compute) Hck) as H.
  assert (length (pending "edge-1" (10 * Second) (run_relay id NewEdgeRelayStore [] wit_relay_ops).2) = 2%nat) as Hp
    by (vm_compute; reflexivity).
  assert (is_Some (er_sites (run_relay id NewEdgeRelayStore [] wit_relay_ops).1 !! "edge-1")) as Hs by (vm_compute; eauto).
  destruct (run_relay id NewEdgeRelayStore [] wit_relay_ops) as [s log]. simpl in Hp, Hs |- *.
  destruct H as (_ & _ & Hdel & _).
  assert (relay_clocks 0 (wit_relay_ops ++ [RDeliver "edge-1" 5 (10 * Second) some_order])) as Hck' by (repeat split; unfold Second; simpl; lia).
  destruct (Hdel "edge-1" 5 (10 * Second) some_order Hck' ltac:(done) Hs) as (res & ids & Hok & _ & _ & Hl & Hd & Hr).
  change (TrimSpace "edge-1") with "edge-1" in Hl, Hr. rewrite Hp in Hl, Hr. simpl in Hl.
  exists res, ids. split; [exact Hok|]. split; lia.
Defined.

(** The payload is not kept: what is stored, and so what is delivered, depends
    only on its length and its digest. *)
Theorem payload_is_dropped hash site direction p q ttl now s :
  String.length p = String.length q →
  hash (TrimSpace site +:+ "|" +:+ norm direction +:+ "|" +:+ p) = hash (TrimSpace site +:+ "|" +:+ norm direction +:+ "|" +:+ q) →
  QueueMessage hash (mkMessageInput site direction p ttl) now s = QueueMessage hash (mkMessageInput site direction q ttl) now s.
Proof. intros Hl Hh. unfold QueueMessage, new_message. simpl mi_SiteID. simpl mi_Direction. simpl mi_Payload. simpl mi_TTLSeconds. by rewrite Hl, Hh. Qed.

(** A site that was configured once is connected for ever, whatever its
    heartbeat interval. *)
Theorem sites_stay_connected hash ops id site :
  Z.of_nat (length ops) ≤ max_int64 → relay_clocks 0 ops →
  er_sites (run_relay hash NewEdgeRelayStore [] ops).1 !! id = Some site → st_Connected site = true.
Proof.
  intros Hlen Hck. pose proof (run_relay_ok hash 0 _ [] ops RelayInv_new Hck Hlen) as Hrun.
  destruct (run_relay hash _ [] ops) as [s log]. destruct Hrun as [Hinv _]. simpl.
  by intros (_ & _ & ?)%(ri_sites _ _ _ Hinv).
Qed.

(** Expired messages fill a queue: they are counted until a delivery or a
    listing removes them. *)
Theorem expired_messages_fill_queue :
  let '(s, log) := run_relay id NewEdgeRelayStore [] [RSite (wit_site 1) 1; RQueue (wit_message "a" 1) 2] in
  pending "edge-1" (100 * Second) log = [] ∧ (QueueMessage id (wit_message "b" 0) (100 * Second) s).2 = Err QueueFull.
Proof. vm_compute. split; reflexivity. Qed.

(** The loop runs in the order of a map: with a limit, which message goes first
    is not determined. *)
Definition backwards {A} : map_order A := mkOrder A (λ m, reverse (map_to_list m)) (λ m, reverse_Permutation _).

Theorem delivery_not_in_order :
  let s := (run_relay id NewEdgeRelayStore [] [RSite (wit_site 3) 1; RQueue (wit_message "a" 0) 2; RQueue (wit_message "b" 0) 3]).1 in
  let first ro := match (Deliver "edge-1" 1 4 ro s).2 with Ok (_, ids) => ids | Err _ => [] end in
  first some_order ≠ first backwards.
Proof. vm_compute. discriminate. Qed.

(** A time to live beyond 292 years overflows: the message is expired at once. *)
Theorem long_ttl_expires :
  (λ m, em_ExpiresAt m <? em_CreatedAt m) <$>
    match (QueueMessage id (wit_message "a" 9223372037) 2 (run_relay id NewEdgeRelayStore [] [RSite (wit_site 3) 1]).1).2 with
    | Ok m => Some m | Err _ => None end = Some true.
Proof. vm_compute. reflexivity. Qed.
