(* ===== verification/Task.v ===== *)
(** * The task framework: [internal/control/task_framework.go]

    Tasks declare typed parameters; plans bind them in steps; an execution is a
    goroutine that walks the steps of a plan while calls, cancellations among
    them, go on.  Values of [any] are the type [any]; float64 is a parameter. *)

From S2P Require Import Prelude.

(** ** Values *)

Inductive int_kind := KInt | KInt8 | KInt16 | KInt32 | KInt64 | KUint | KUint8 | KUint16 | KUint32 | KUint64.

(** What the code does with floating-point numbers: [float64(v)] of an integer,
    [math.Trunc(v) == v], and [int64(v)]. *)
Class Float64 := {
  float : Type;
  float_of_int : Z → float;
  is_whole : float → bool;
  int_of_float : float → Z;
}.

(** [any]: an object is the list of its entries in the order a loop meets them. *)
Inductive any `{Float64} :=
  | ANil
  | AString (s : string)
  | ABool (b : bool)
  | AInt (k : int_kind) (z : Z)
  | AFloat32 (f : float)
  | AFloat64 (f : float)
  | AArray (l : list any)
  | AObject (l : list (string * any)).

(** [map[string]any] of parameters; a [nil] and an empty map are one value. *)
Abbreviation params := (gmap string any).

(** The order in which loops meet the entries of parameters and of overrides: any. *)
Class RangeOrder `{Float64} := {
  order : map_order any;
  override_order : map_order params;
}.

Section values.
Context `{RangeOrder}.

(** [out[k] = v] on a map under construction, as a list of entries. *)
Fixpoint set_entry (k : string) (v : any) (l : list (string * any)) : list (string * any) :=
  match l with
  | [] => [(k, v)]
  | (k', v') :: l => if eqs k k' then (k, v) :: l else (k', v') :: set_entry k v l
  end.

Definition collect_entry (out : list (string * any)) (e : string * any) : list (string * any) := set_entry e.1 e.2 out.

(** [deepCopyAny], with [cloneTaskAnyMap] and [cloneTaskAnySlice] on what is
    nested: the keys of every object are trimmed. *)
Fixpoint deepCopyAny (v : any) : any :=
  match v with
  | AObject l => AObject (foldl collect_entry [] (map (λ e, (TrimSpace e.1, deepCopyAny e.2)) l))
  | AArray l => AArray (map deepCopyAny l)
  | v => v
  end.

Definition cloneTaskAnyMap (m : params) : params :=
  foldl (λ out e, <[TrimSpace e.1 := deepCopyAny e.2]> out) ∅ (range order m).
End values.

(** ** Tasks, plans and executions *)

Section records.
Context `{Float64}.

Record TaskParameterSpec : Type := mkSpec {
  sp_Name : string;
  sp_Type : string;
  sp_Description : string;
  sp_Required : bool;
  sp_Sensitive : bool;
  sp_Default : any;
}.

Record TaskDefinition : Type := mkTask {
  tk_ID : string;
  tk_Name : string;
  tk_Module : string;
  tk_Action : string;
  tk_Primitive : string;
  tk_Description : string;
  tk_Parameters : list TaskParameterSpec;
  tk_CreatedAt : Time;
  tk_UpdatedAt : Time;
}.

Record TaskDefinitionInput : Type := mkTaskInput {
  ti_Name : string;
  ti_Module : string;
  ti_Action : string;
  ti_Primitive : string;
  ti_Description : string;
  ti_Parameters : list TaskParameterSpec;
}.

Record TaskPlanStep : Type := mkTaskStep {
  ps_Name : string;
  ps_TaskID : string;
  ps_Parameters : params;
  ps_Tags : list string;
  ps_ContinueOnError : bool;
}.

Record TaskPlan : Type := mkTaskPlan {
  tp_ID : string;
  tp_Name : string;
  tp_Description : string;
  tp_Steps : list TaskPlanStep;
  tp_CreatedAt : Time;
  tp_UpdatedAt : Time;
}.

Record TaskPlanInput : Type := mkTaskPlanInput {
  pi_Name : string;
  pi_Description : string;
  pi_Steps : list TaskPlanStep;
}.

Record TaskPlanPreviewStep : Type := mkPreviewStep {
  pv_Name : string;
  pv_TaskID : string;
  pv_Module : string;
  pv_Action : string;
  pv_Primitive : string;
  pv_Tags : list string;
  pv_ContinueOnError : bool;
  pv_SensitiveFields : list string;
  pv_Parameters : params;
}.

Record TaskPlanPreview : Type := mkPreview { pw_PlanID : string; pw_Steps : list TaskPlanPreviewStep }.

Inductive TaskExecutionStatus :=
  | TaskPending | TaskRunning | TaskSucceeded | TaskFailed | TaskTimedOut | TaskCanceled.
#[export] Instance TaskExecutionStatus_eq_dec : EqDecision TaskExecutionStatus.
Proof. solve_decision. Defined.

(** Why parameters are refused, and why a call or a step fails. *)
Inductive type_error := ExpectedString | ExpectedNumber | ExpectedInteger | IntegerOverflow | ExpectedBool
  | ExpectedObject | ExpectedArray | UnsupportedType.

Inductive task_error :=
  | TaskNameRequired | ModuleRequired | ActionRequired
  | ParameterNameRequired (i : nat) | DuplicateParameter (name : string) | UnsupportedParameterType (name typ : string)
  | DefaultError (name : string) (e : type_error)
  | UnknownParameter (name : string) | MissingParameter (name : string) | ParameterError (name : string) (e : type_error)
  | StepsRequired | TaskIDRequired | TaskNotFound (id : string) | StepError (step : string) (e : task_error)
  | DuplicateStep (name : string) | UnknownTask (step id : string)
  | PlanNotFound | PlanIDRequired | ExecutionNotFound.

(** [Error] of an execution: the text, by its case. *)
Inductive run_error := NoRunError | RunCanceled | RunTimedOut | RunTaskNotFound (id : string) | RunStepFailed (step : string) (e : task_error).

Record TaskExecutionStep : Type := mkExecStep {
  xs_Name : string;
  xs_TaskID : string;
  xs_Module : string;
  xs_Action : string;
  xs_Primitive : string;
  xs_Tags : list string;
  xs_ContinueOnError : bool;
  xs_Status : TaskExecutionStatus;
  xs_Parameters : params;
  xs_Error : option task_error;
  xs_StartedAt : Time;
  xs_EndedAt : Time;
}.

Record TaskExecution : Type := mkExec {
  ex_ID : string;
  ex_PlanID : string;
  ex_PlanName : string;
  ex_Status : TaskExecutionStatus;
  ex_IncludeTags : list string;
  ex_ExcludeTags : list string;
  ex_PollIntervalMS : Z;
  ex_TimeoutSeconds : Z;
  ex_CreatedAt : Time;
  ex_StartedAt : Time;
  ex_EndedAt : Time;
  ex_StepCount : Z;
  ex_CompletedSteps : Z;
  ex_Error : run_error;
  ex_Steps : list TaskExecutionStep;
}.

Record TaskExecutionInput : Type := mkExecInput {
  xi_PlanID : string;
  xi_Overrides : gmap string params;
  xi_IncludeTags : list string;
  xi_ExcludeTags : list string;
  xi_PollIntervalMS : Z;
  xi_TimeoutSeconds : Z;
}.

Record TaskFrameworkStore : Type := mkTasks {
  tf_nextTaskID : Z;
  tf_nextPlanID : Z;
  tf_nextExecution : Z;
  tf_tasks : gmap string TaskDefinition;
  tf_plans : gmap string TaskPlan;
  tf_executions : gmap string TaskExecution;
  tf_canceled : gset string;
}.
End records.
#[export] Instance TaskParameterSpec_eta `{Float64} : Eta TaskParameterSpec := λ r,
  mkSpec (sp_Name r) (sp_Type r) (sp_Description r) (sp_Required r) (sp_Sensitive r) (sp_Default r).
#[export] Instance TaskDefinition_eta `{Float64} : Eta TaskDefinition := λ r,
  mkTask (tk_ID r) (tk_Name r) (tk_Module r) (tk_Action r) (tk_Primitive r) (tk_Description r) (tk_Parameters r)
    (tk_CreatedAt r) (tk_UpdatedAt r).
#[export] Instance TaskPlanStep_eta `{Float64} : Eta TaskPlanStep := λ r,
  mkTaskStep (ps_Name r) (ps_TaskID r) (ps_Parameters r) (ps_Tags r) (ps_ContinueOnError r).
#[export] Instance TaskPlan_eta `{Float64} : Eta TaskPlan := λ r,
  mkTaskPlan (tp_ID r) (tp_Name r) (tp_Description r) (tp_Steps r) (tp_CreatedAt r) (tp_UpdatedAt r).
#[export] Instance TaskExecutionStep_eta `{Float64} : Eta TaskExecutionStep := λ r,
  mkExecStep (xs_Name r) (xs_TaskID r) (xs_Module r) (xs_Action r) (xs_Primitive r) (xs_Tags r) (xs_ContinueOnError r)
    (xs_Status r) (xs_Parameters r) (xs_Error r) (xs_StartedAt r) (xs_EndedAt r).
#[export] Instance TaskExecution_eta `{Float64} : Eta TaskExecution := λ r,
  mkExec (ex_ID r) (ex_PlanID r) (ex_PlanName r) (ex_Status r) (ex_IncludeTags r) (ex_ExcludeTags r) (ex_PollIntervalMS r)
    (ex_TimeoutSeconds r) (ex_CreatedAt r) (ex_StartedAt r) (ex_EndedAt r) (ex_StepCount r) (ex_CompletedSteps r)
    (ex_Error r) (ex_Steps r).
#[export] Instance TaskFrameworkStore_eta `{Float64} : Eta TaskFrameworkStore := λ r,
  mkTasks (tf_nextTaskID r) (tf_nextPlanID r) (tf_nextExecution r) (tf_tasks r) (tf_plans r) (tf_executions r) (tf_canceled r).

(** ** Parameters *)

Definition redacted : string := "***REDACTED***".

Section parameters.
Context `{RangeOrder}.

Definition type_names : list string := ["string"; "number"; "integer"; "bool"; "object"; "array"; "any"].

Definition to_number (val : any) : result type_error any :=
  match val with
  | AFloat64 f | AFloat32 f => Ok (AFloat64 f)
  | AInt _ z => Ok (AFloat64 (float_of_int z))
  | _ => Err ExpectedNumber
  end.

(** Only [uint64] is checked for overflow; [int64(v)] of a [uint] wraps. *)
Definition to_integer (val : any) : result type_error any :=
  match val with
  | AInt KUint64 z => if max_int64 <? z then Err IntegerOverflow else Ok (AInt KInt64 z)
  | AInt KUint z => Ok (AInt KInt64 (wrap64 z))
  | AInt _ z => Ok (AInt KInt64 z)
  | AFloat64 f => if is_whole f then Ok (AInt KInt64 (int_of_float f)) else Err ExpectedInteger
  | _ => Err ExpectedInteger
  end.

Definition validateAndNormalizeType (typ : string) (val : any) : result type_error any :=
  let typ := norm typ in
  if eqs typ "string" then match val with AString v => Ok (AString v) | _ => Err ExpectedString end
  else if eqs typ "number" then to_number val
  else if eqs typ "integer" then to_integer val
  else if eqs typ "bool" then match val with ABool v => Ok (ABool v) | _ => Err ExpectedBool end
  else if eqs typ "object" then match val with AObject _ => Ok (deepCopyAny val) | _ => Err ExpectedObject end
  else if eqs typ "array" then match val with AArray _ => Ok (deepCopyAny val) | _ => Err ExpectedArray end
  else if eqs typ "any" then Ok (deepCopyAny val)
  else Err UnsupportedType.

Definition with_error {E E' A} (f : E → E') (r : result E A) : result E' A :=
  match r with Ok a => Ok a | Err e => Err (f e) end.

Definition is_nil (v : any) : bool := match v with ANil => true | _ => false end.

Definition normalize_spec (name typ : string) (raw : TaskParameterSpec) : result task_error TaskParameterSpec :=
  let default := deepCopyAny (sp_Default raw) in
  let spec d := mkSpec name typ (TrimSpace (sp_Description raw)) (sp_Required raw) (sp_Sensitive raw) d in
  if is_nil default then Ok (spec default)
  else let? v := with_error (DefaultError name) (validateAndNormalizeType typ default) in Ok (spec v).

(** The loop of [normalizeTaskParameterSpecs] from index [i] on. *)
Fixpoint normalize_specs (i : nat) (seen : list string) (specs : list TaskParameterSpec)
    : result task_error (list TaskParameterSpec) :=
  match specs with
  | [] => Ok []
  | raw :: specs =>
      let name := TrimSpace (sp_Name raw) in
      let? _ := fail_if (eqs name "") (ParameterNameRequired i) in
      let? _ := fail_if (one_of name seen) (DuplicateParameter name) in
      let typ := norm (sp_Type raw) in
      let typ := if eqs typ "" then "string" else typ in
      let? _ := fail_if (negb (one_of typ type_names)) (UnsupportedParameterType name typ) in
      let? spec := normalize_spec name typ raw in
      let? out := normalize_specs (S i) (name :: seen) specs in
      Ok (spec :: out)
  end.

Definition spec_le (x y : TaskParameterSpec) : Prop := String.le (sp_Name x) (sp_Name y).
#[export] Instance spec_le_dec x y : Decision (spec_le x y).
Proof. unfold spec_le. apply _. Defined.

Definition normalizeTaskParameterSpecs (specs : list TaskParameterSpec) : result task_error (list TaskParameterSpec) :=
  let? out := normalize_specs 0 [] specs in Ok (merge_sort spec_le out).

(** The value of a declared parameter: given, by default, or absent. *)
Definition parameter_value (spec : TaskParameterSpec) (input : params) : option any :=
  match input !! sp_Name spec with
  | Some v => Some v
  | None => if is_nil (sp_Default spec) then None else Some (deepCopyAny (sp_Default spec))
  end.

Fixpoint resolve_specs (specs : list TaskParameterSpec) (input resolved : params) : result task_error params :=
  match specs with
  | [] => Ok resolved
  | spec :: specs =>
      match parameter_value spec input with
      | None => if sp_Required spec then Err (MissingParameter (sp_Name spec)) else resolve_specs specs input resolved
      | Some val =>
          let? v := with_error (ParameterError (sp_Name spec)) (validateAndNormalizeType (sp_Type spec) val) in
          resolve_specs specs input (<[sp_Name spec := v]> resolved)
      end
  end.

Definition declared (task : TaskDefinition) (name : string) : bool := one_of name (sp_Name <$> tk_Parameters task).

(** Which of several unknown parameters is reported depends on the order of the map. *)
Definition resolveTaskParameters (task : TaskDefinition) (input : params) : result task_error params :=
  let input := cloneTaskAnyMap input in
  match filter (λ k, declared task k = false) (range order input).*1 with
  | k :: _ => Err (UnknownParameter k)
  | [] => resolve_specs (tk_Parameters task) input ∅
  end.

Definition mask_one (out : params) (spec : TaskParameterSpec) : params :=
  if sp_Sensitive spec
  then match out !! sp_Name spec with Some _ => <[sp_Name spec := AString redacted]> out | None => out end
  else out.

Definition maskTaskParameters (task : TaskDefinition) (ps : params) : params :=
  foldl mask_one (cloneTaskAnyMap ps) (tk_Parameters task).

Definition sensitiveParameterNames (task : TaskDefinition) : list string :=
  sort_strings (sp_Name <$> filter (λ spec, sp_Sensitive spec = true) (tk_Parameters task)).

Definition normalizeTaskTags (tags : list string) : list string := clean_list norm tags.

Definition tags_meet (tags wanted : list string) : bool := existsb (λ tag, one_of tag wanted) tags.

Definition tag_selected (includeTags excludeTags : list string) (step : TaskPlanStep) : bool :=
  negb (bool_decide (excludeTags ≠ []) && tags_meet (ps_Tags step) excludeTags) &&
  (bool_decide (includeTags = []) || tags_meet (ps_Tags step) includeTags).

Definition filterTaskPlanStepsByTags (steps : list TaskPlanStep) (includeTags excludeTags : list string) : list TaskPlanStep :=
  filter (λ step, tag_selected includeTags excludeTags step = true) steps.

(** ** Tasks and plans *)

Definition cloneTaskDefinition (task : TaskDefinition) : TaskDefinition :=
  task <| tk_Parameters := (λ spec, spec <| sp_Default := deepCopyAny (sp_Default spec) |>) <$> tk_Parameters task |>.

Definition cloneTaskPlan (plan : TaskPlan) : TaskPlan :=
  plan <| tp_Steps := (λ step, step <| ps_Parameters := cloneTaskAnyMap (ps_Parameters step) |>) <$> tp_Steps plan |>.

Definition NewTaskFrameworkStore : TaskFrameworkStore := mkTasks 0 0 0 ∅ ∅ ∅ ∅.

Definition RegisterTask (i : TaskDefinitionInput) (now : Time) (s : TaskFrameworkStore)
    : TaskFrameworkStore * result task_error TaskDefinition :=
  let name := TrimSpace (ti_Name i) in
  let mdl := TrimSpace (ti_Module i) in
  let action := TrimSpace (ti_Action i) in
  let primitive := norm (ti_Primitive i) in
  if eqs name "" then (s, Err TaskNameRequired) else
  if eqs mdl "" then (s, Err ModuleRequired) else
  if eqs action "" then (s, Err ActionRequired) else
  match normalizeTaskParameterSpecs (ti_Parameters i) with
  | Err e => (s, Err e)
  | Ok ps =>
      let next := tf_nextTaskID s + 1 in
      let task := mkTask ("task-" +:+ itoa next) name mdl action (if eqs primitive "" then "operation" else primitive)
        (TrimSpace (ti_Description i)) ps now now in
      (s <| tf_nextTaskID := next |> <| tf_tasks := <[tk_ID task := cloneTaskDefinition task]> (tf_tasks s) |>,
       Ok (cloneTaskDefinition task))
  end.

Definition task_later (x y : TaskDefinition) : Prop := tk_CreatedAt y ≤ tk_CreatedAt x.
#[export] Instance task_later_dec x y : Decision (task_later x y).
Proof. unfold task_later. apply _. Defined.

Definition ListTasks (s : TaskFrameworkStore) : list TaskDefinition :=
  merge_sort task_later (cloneTaskDefinition <$> (map_to_list (tf_tasks s)).*2).

Definition GetTask (id : string) (s : TaskFrameworkStore) : option TaskDefinition :=
  cloneTaskDefinition <$> tf_tasks s !! TrimSpace id.

Definition resolveStepLocked (s : TaskFrameworkStore) (step : TaskPlanStep) (idx : nat) : result task_error TaskPlanStep :=
  let name := TrimSpace (ps_Name step) in
  let name := if eqs name "" then "step-" +:+ itoa (Z.of_nat idx + 1) else name in
  let taskID := TrimSpace (ps_TaskID step) in
  let? _ := fail_if (eqs taskID "") TaskIDRequired in
  match tf_tasks s !! taskID with
  | None => Err (TaskNotFound taskID)
  | Some task =>
      let? resolved := with_error (StepError name) (resolveTaskParameters task (ps_Parameters step)) in
      Ok (mkTaskStep name taskID resolved (normalizeTaskTags (ps_Tags step)) (ps_ContinueOnError step))
  end.

Fixpoint resolve_steps (s : TaskFrameworkStore) (idx : nat) (names : list string) (steps : list TaskPlanStep)
    : result task_error (list TaskPlanStep) :=
  match steps with
  | [] => Ok []
  | step :: steps =>
      let? resolved := resolveStepLocked s step idx in
      let? _ := fail_if (one_of (ps_Name resolved) names) (DuplicateStep (ps_Name resolved)) in
      let? out := resolve_steps s (S idx) (ps_Name resolved :: names) steps in
      Ok (resolved :: out)
  end.

Definition mask_step (s : TaskFrameworkStore) (step : TaskPlanStep) : TaskPlanStep :=
  match tf_tasks s !! ps_TaskID step with
  | None => step
  | Some task => step <| ps_Parameters := maskTaskParameters task (ps_Parameters step) |>
  end.

Definition maskPlanLocked (s : TaskFrameworkStore) (plan : TaskPlan) : TaskPlan :=
  let out := cloneTaskPlan plan in
  out <| tp_Steps := mask_step s <$> tp_Steps out |>.

Definition RegisterPlan (i : TaskPlanInput) (now : Time) (s : TaskFrameworkStore)
    : TaskFrameworkStore * result task_error TaskPlan :=
  let name := TrimSpace (pi_Name i) in
  if eqs name "" then (s, Err TaskNameRequired) else
  if bool_decide (pi_Steps i = []) then (s, Err StepsRequired) else
  match resolve_steps s 0 [] (pi_Steps i) with
  | Err e => (s, Err e)
  | Ok steps =>
      let next := tf_nextPlanID s + 1 in
      let plan := mkTaskPlan ("taskplan-" +:+ itoa next) name (TrimSpace (pi_Description i)) steps now now in
      (s <| tf_nextPlanID := next |> <| tf_plans := <[tp_ID plan := cloneTaskPlan plan]> (tf_plans s) |>,
       Ok (maskPlanLocked s plan))
  end.

Definition plan_later (x y : TaskPlan) : Prop := tp_CreatedAt y ≤ tp_CreatedAt x.
#[export] Instance plan_later_dec x y : Decision (plan_later x y).
Proof. unfold plan_later. apply _. Defined.

Definition ListTaskPlans (s : TaskFrameworkStore) : list TaskPlan :=
  merge_sort plan_later (maskPlanLocked s <$> (map_to_list (tf_plans s)).*2).

Definition GetPlan (id : string) (s : TaskFrameworkStore) : option TaskPlan :=
  maskPlanLocked s <$> tf_plans s !! TrimSpace id.

(** The overrides of all steps, with trimmed names. *)
Definition clone_overrides (ov : gmap string params) : gmap string params :=
  foldl (λ out e, <[TrimSpace e.1 := cloneTaskAnyMap e.2]> out) ∅ (range override_order ov).

(** [for k, v := range ov { m[key(k)] = deepCopyAny(v) }] *)
Definition override_params (key : string → string) (ov : option params) (m : params) : params :=
  match ov with
  | None => m
  | Some ov => foldl (λ m e, <[key e.1 := deepCopyAny e.2]> m) m (range order ov)
  end.

Definition preview_step (s : TaskFrameworkStore) (overrides : gmap string params) (step : TaskPlanStep)
    : result task_error TaskPlanPreviewStep :=
  match tf_tasks s !! ps_TaskID step with
  | None => Err (UnknownTask (ps_Name step) (ps_TaskID step))
  | Some task =>
      let merged := override_params TrimSpace (overrides !! ps_Name step) (cloneTaskAnyMap (ps_Parameters step)) in
      let? resolved := with_error (StepError (ps_Name step)) (resolveTaskParameters task merged) in
      Ok (mkPreviewStep (ps_Name step) (tk_ID task) (tk_Module task) (tk_Action task) (tk_Primitive task) (ps_Tags step)
            (ps_ContinueOnError step) (sensitiveParameterNames task) (maskTaskParameters task resolved))
  end.

Definition PreviewPlan (planID : string) (overrides : gmap string params) (s : TaskFrameworkStore)
    : result task_error TaskPlanPreview :=
  match tf_plans s !! TrimSpace planID with
  | None => Err PlanNotFound
  | Some plan =>
      let? steps := mapM_res (preview_step s (clone_overrides overrides)) (tp_Steps plan) in
      Ok (mkPreview (tp_ID plan) steps)
  end.
End parameters.

(** ** Copies *)

Section any_ind.
Context `{Float64} (P : any → Prop).
Hypothesis (Hatom : ∀ v, (∀ l, v ≠ AArray l) → (∀ l, v ≠ AObject l) → P v).
Hypothesis (Harray : ∀ l, Forall P l → P (AArray l)).
Hypothesis (Hobject : ∀ l, Forall (λ e, P e.2) l → P (AObject l)).

(** Induction through the lists of nested values. *)
Fixpoint any_nested_ind (v : any) : P v :=
  match v with
  | AArray l =>
      Harray l ((fix go l := match l return Forall P l with
        | [] => Forall_nil_2 _ | v :: l => Forall_cons_2 _ _ _ (any_nested_ind v) (go l) end) l)
  | AObject l =>
      Hobject l ((fix go l := match l return Forall (λ e, P e.2) l with
        | [] => Forall_nil_2 _ | e :: l => Forall_cons_2 _ _ _ (any_nested_ind e.2) (go l) end) l)
  | ANil => Hatom ANil (λ _, ltac:(discriminate)) (λ _, ltac:(discriminate))
  | AString s => Hatom (AString s) (λ _, ltac:(discriminate)) (λ _, ltac:(discriminate))
  | ABool b => Hatom (ABool b) (λ _, ltac:(discriminate)) (λ _, ltac:(discriminate))
  | AInt k z => Hatom (AInt k z) (λ _, ltac:(discriminate)) (λ _, ltac:(discriminate))
  | AFloat32 f => Hatom (AFloat32 f) (λ _, ltac:(discriminate)) (λ _, ltac:(discriminate))
  | AFloat64 f => Hatom (AFloat64 f) (λ _, ltac:(discriminate)) (λ _, ltac:(discriminate))
  end.
End any_ind.

Section copies.
Context `{RangeOrder}.

Lemma elem_of_set_entry k v l e : e ∈ set_entry k v l → e = (k, v) ∨ e ∈ l.
Proof.
  induction l as [|[k' v'] l IH]; simpl; [set_solver|].
  destruct (eqs k k') eqn:E; [apply eqs_true in E as ->|]; rewrite !elem_of_cons; set_solver.
Qed.

Lemma set_entry_NoDup k v l : NoDup l.*1 → NoDup (set_entry k v l).*1.
Proof.
  induction l as [|[k' v'] l IH]; simpl; intros Hl; [apply NoDup_singleton|].
  apply NoDup_cons in Hl as [Hk Hl]. destruct (eqs k k') eqn:E; simpl.
  - apply eqs_true in E as ->. by apply NoDup_cons.
  - apply NoDup_cons. split; [|by apply IH]. intros ([? ?] & -> & He)%list_elem_of_fmap.
    apply elem_of_set_entry in He as [[= -> ->]|He]; [by rewrite eqs_refl in E|].
    apply Hk, list_elem_of_fmap. by eexists.
Qed.

Lemma set_entry_fresh k v l : k ∉ l.*1 → set_entry k v l = l ++ [(k, v)].
Proof.
  induction l as [|[k' v'] l IH]; simpl; intros Hk; [done|].
  assert (eqs k k' = false) as -> by (apply eqs_false; set_solver). f_equal. apply IH. set_solver.
Qed.

Lemma collect_all l out : NoDup (out ++ l).*1 → foldl collect_entry out l = out ++ l.
Proof.
  revert out. induction l as [|[k v] l IH]; intros out Hl; simpl; [by rewrite app_nil_r|].
  unfold collect_entry at 2. simpl. rewrite set_entry_fresh.
  - rewrite IH; by rewrite <-app_assoc.
  - rewrite fmap_app in Hl. apply NoDup_app in Hl as (_ & Hl & _). intros Hk. apply (Hl k Hk). simpl. set_solver.
Qed.

Lemma collect_NoDup l out : NoDup out.*1 → NoDup (foldl collect_entry out l).*1.
Proof. revert out. induction l as [|e l IH]; intros out Hout; simpl; [done|]. by apply IH, set_entry_NoDup. Qed.

Lemma elem_of_collect l out e : e ∈ foldl collect_entry out l → e ∈ out ∨ e ∈ l.
Proof.
  revert out. induction l as [|e' l IH]; intros out; simpl; [by left|].
  intros [He|He]%IH; [|set_solver]. apply elem_of_set_entry in He as [->|He]; [|by left].
  right. rewrite <-surjective_pairing. set_solver.
Qed.

Lemma deepCopyAny_idemp v : deepCopyAny (deepCopyAny v) = deepCopyAny v.
Proof.
  induction v as [v Ha Ho|l IH|l IH] using any_nested_ind.
  - destruct v; [done..|by destruct (Ha l)|by destruct (Ho l)].
  - simpl. f_equal. rewrite map_map. apply map_ext_in. intros v Hv. rewrite Forall_forall in IH.
    by apply IH, list_elem_of_In.
  - simpl. f_equal. set (out := foldl collect_entry [] (map _ l)).
    assert (map (λ e, (TrimSpace e.1, deepCopyAny e.2)) out = out) as ->.
    + rewrite <-(map_id out) at 2. apply map_ext_in. intros e He%list_elem_of_In.
      apply elem_of_collect in He as [He|He]; [set_solver|].
      apply list_elem_of_In, in_map_iff in He as (e' & <- & He'). simpl. rewrite TrimSpace_idemp. f_equal.
      rewrite Forall_forall in IH. by apply IH, list_elem_of_In.
    + apply (collect_all out []). apply collect_NoDup. constructor.
Qed.

(** Maps whose keys are trimmed and whose values are copies: what copying makes. *)
Definition clean (m : params) : Prop := ∀ k v, m !! k = Some v → TrimSpace k = k ∧ deepCopyAny v = v.

Lemma clean_empty : clean ∅.
Proof. intros k v. by rewrite lookup_empty. Qed.

Lemma clean_insert k v m : TrimSpace k = k → deepCopyAny v = v → clean m → clean (<[k := v]> m).
Proof. intros Hk Hv Hm k' v'. rewrite lookup_insert_Some. intros [[<- <-]|[_ Hl]]; [done|by apply Hm]. Qed.

Lemma cloneTaskAnyMap_clean m : clean (cloneTaskAnyMap m).
Proof.
  unfold cloneTaskAnyMap. generalize (range order m). intros l. assert (clean ∅) as Hc by apply clean_empty.
  revert Hc. generalize (∅ : params). induction l as [|e l IH]; intros out Hc; simpl; [done|].
  apply IH, clean_insert; [apply TrimSpace_idemp|apply deepCopyAny_idemp|done].
Qed.

Lemma cloneTaskAnyMap_id m : clean m → cloneTaskAnyMap m = m.
Proof. intros Hm. apply foldl_range_self. intros out k v Hk. apply Hm in Hk as [Hk Hv]. simpl. by rewrite Hk, Hv. Qed.
End copies.

(** ** Resolving parameters *)

Section resolving.
Context `{RangeOrder}.

(** A task as [RegisterTask] keeps it. *)
Record spec_wf (spec : TaskParameterSpec) : Prop := {
  sw_name : TrimSpace (sp_Name spec) = sp_Name spec ∧ sp_Name spec ≠ "";
  sw_type : sp_Type spec ∈ type_names;
  sw_default : sp_Default spec = ANil ∨ validateAndNormalizeType (sp_Type spec) (sp_Default spec) = Ok (sp_Default spec);
}.

Record task_wf (task : TaskDefinition) : Prop := {
  tw_specs : Forall spec_wf (tk_Parameters task);
  tw_names : NoDup (sp_Name <$> tk_Parameters task);
}.

Lemma to_number_idemp v w : to_number v = Ok w → to_number w = Ok w ∧ deepCopyAny w = w.
Proof. destruct v; intros [= <-]; done. Qed.

Lemma to_integer_idemp v w : to_integer v = Ok w → to_integer w = Ok w ∧ deepCopyAny w = w.
Proof. unfold to_integer. intros Hv. repeat case_match; simplify_eq; done. Qed.

Lemma copied_object l : ∃ l', deepCopyAny (AObject l) = AObject l'.
Proof. by eexists. Qed.

Lemma copied_array l : ∃ l', deepCopyAny (AArray l) = AArray l'.
Proof. by eexists. Qed.

Lemma validate_idemp typ v w :
  validateAndNormalizeType typ v = Ok w → validateAndNormalizeType typ w = Ok w ∧ deepCopyAny w = w.
Proof.
  pose proof (deepCopyAny_idemp v) as Hv. unfold validateAndNormalizeType.
  destruct (eqs (norm typ) "string"); [destruct v; intros [= <-]; done|].
  destruct (eqs (norm typ) "number"); [apply to_number_idemp|].
  destruct (eqs (norm typ) "integer"); [apply to_integer_idemp|].
  destruct (eqs (norm typ) "bool"); [destruct v; intros [= <-]; done|].
  destruct (eqs (norm typ) "object").
  { destruct v; try done. destruct (copied_object l) as [l' Hl]. rewrite Hl in Hv |- *. intros [= <-]. by rewrite Hv. }
  destruct (eqs (norm typ) "array").
  { destruct v; try done. destruct (copied_array l) as [l' Hl]. rewrite Hl in Hv |- *. intros [= <-]. by rewrite Hv. }
  destruct (eqs (norm typ) "any"); [|done]. intros [= <-]. by rewrite Hv.
Qed.

(** What it means that [q] resolves [input] for a list of declarations. *)
Definition spec_resolved (input q : params) (spec : TaskParameterSpec) : Prop :=
  match parameter_value spec input with
  | Some v => ∃ w, validateAndNormalizeType (sp_Type spec) v = Ok w ∧ q !! sp_Name spec = Some w
  | None => sp_Required spec = false ∧ q !! sp_Name spec = None
  end.

Definition resolves (task : TaskDefinition) (input q : params) : Prop :=
  (∀ k, is_Some (cloneTaskAnyMap input !! k) → k ∈ sp_Name <$> tk_Parameters task) ∧
  Forall (spec_resolved (cloneTaskAnyMap input) q) (tk_Parameters task) ∧
  ∀ k, k ∉ sp_Name <$> tk_Parameters task → q !! k = None.

Lemma resolve_specs_iff specs input acc q :
  NoDup (sp_Name <$> specs) → (∀ k, k ∈ sp_Name <$> specs → acc !! k = None) →
  resolve_specs specs input acc = Ok q ↔
  Forall (spec_resolved input q) specs ∧ ∀ k, k ∉ sp_Name <$> specs → q !! k = acc !! k.
Proof.
  revert acc. induction specs as [|spec specs IH]; intros acc Hnd Hacc; simpl.
  { split; [intros [= <-]; done|]. intros [_ Hq]. f_equal. apply map_eq. intros k. symmetry. apply Hq. set_solver. }
  apply NoDup_cons in Hnd as [Hfresh Hnd]. pose proof (Hacc (sp_Name spec) ltac:(simpl; set_solver)) as Hnone.
  rewrite Forall_cons. unfold spec_resolved at 1.
  destruct (parameter_value spec input) as [v|].
  - destruct (validateAndNormalizeType (sp_Type spec) v) as [w|e]; simpl.
    + rewrite IH; [|done|].
      * split.
        -- intros [Hspecs Hq]. split; [split; [exists w; split; [done|]|done]|].
           ++ rewrite (Hq _ Hfresh). by rewrite lookup_insert_eq.
           ++ intros k Hk. rewrite Hq by set_solver. rewrite lookup_insert_ne; set_solver.
        -- intros [[(w' & [= <-] & Hw) Hspecs] Hq]. split; [done|]. intros k Hk.
           destruct (decide (k = sp_Name spec)) as [->|Hne]; [by rewrite lookup_insert_eq|].
           rewrite lookup_insert_ne by done. apply Hq. set_solver.
      * intros k Hk. rewrite lookup_insert_ne by set_solver. apply Hacc. set_solver.
    + split; [done|]. intros [[(w & [=] & _) _] _].
  - destruct (sp_Required spec); [split; [done|]; intros [[[[=] _] _] _]|].
    rewrite IH; [|done|intros k Hk; apply Hacc; set_solver]. split.
    + intros [Hspecs Hq]. repeat split; [by rewrite Hq|done|]. intros k Hk. apply Hq. set_solver.
    + intros [[[_ Hn] Hspecs] Hq]. split; [done|]. intros k Hk.
      destruct (decide (k = sp_Name spec)) as [->|Hne]; [by rewrite Hn, Hnone|]. apply Hq. set_solver.
Qed.

Lemma resolveTaskParameters_iff task input q :
  task_wf task → resolveTaskParameters task input = Ok q ↔ resolves task input q.
Proof.
  intros [_ Hnd]. unfold resolveTaskParameters, resolves. set (m := cloneTaskAnyMap input).
  destruct (filter _ (range order m).*1) as [|k l] eqn:Hf.
  - rewrite resolve_specs_iff; [|done|intros; apply lookup_empty].
    setoid_rewrite lookup_empty. split; [|by intros [_ ?]]. intros Hq. split; [|done]. intros k [v Hk].
    destruct (declared task k) eqn:Hd; [by apply one_of_true|].
    assert (k ∈ filter (λ k, declared task k = false) (range order m).*1) as Hin; [|rewrite Hf in Hin; set_solver].
    apply list_elem_of_filter. split; [done|]. apply list_elem_of_fmap. exists (k, v). by rewrite elem_of_range.
  - split; [done|]. intros [Hall _]. exfalso.
    assert (k ∈ filter (λ k, declared task k = false) (range order m).*1) as Hin by (rewrite Hf; set_solver).
    apply list_elem_of_filter in Hin as [Hd ([? v] & -> & Hk)%list_elem_of_fmap]. apply elem_of_range in Hk.
    apply one_of_false in Hd. apply Hd, Hall. by eexists.
Qed.

(** Resolved parameters: what a plan keeps for a step. *)
Definition resolved_for (task : TaskDefinition) (q : params) : Prop := resolveTaskParameters task q = Ok q.

Lemma resolves_clean task input q : task_wf task → resolves task input q → clean q.
Proof.
  intros [Hspecs _] (_ & Hres & Hout) k w Hk.
  destruct (decide (k ∈ sp_Name <$> tk_Parameters task)) as [Hin|Hin]; [|by rewrite Hout in Hk].
  apply list_elem_of_fmap in Hin as (spec & -> & Hspec). rewrite Forall_forall in Hspecs, Hres.
  split; [apply (Hspecs spec Hspec)|]. specialize (Hres spec Hspec). unfold spec_resolved in Hres.
  case_match; destruct Hres as [? Hres]; [|congruence]. destruct Hres as [Hv Hq]. rewrite Hk in Hq. simplify_eq.
  by eapply validate_idemp.
Qed.

Lemma resolve_idemp task input q : task_wf task → resolveTaskParameters task input = Ok q → resolved_for task q.
Proof.
  intros Hwf. unfold resolved_for. rewrite !resolveTaskParameters_iff by done. intros Hres.
  pose proof (resolves_clean _ _ _ Hwf Hres) as Hclean. destruct Hres as (Hdecl & Hres & Hout).
  unfold resolves. rewrite (cloneTaskAnyMap_id q) by done. split; [|split; [|done]].
  - intros k [v Hk]. destruct (decide (k ∈ sp_Name <$> tk_Parameters task)); [done|]. by rewrite Hout in Hk.
  - rewrite Forall_forall in Hres |- *. intros spec Hspec. specialize (Hres spec Hspec).
    unfold spec_resolved in *. destruct (parameter_value spec (cloneTaskAnyMap input)) as [v|] eqn:Hp.
    + destruct Hres as (w & Hv & Hq). unfold parameter_value. rewrite Hq. exists w.
      split; [by eapply validate_idemp|done].
    + destruct Hres as [Hreq Hq]. unfold parameter_value in *. rewrite Hq.
      destruct (cloneTaskAnyMap input !! sp_Name spec); [done|]. by destruct (is_nil (sp_Default spec)).
Qed.

Lemma resolved_for_clean task q : task_wf task → resolved_for task q → clean q.
Proof. unfold resolved_for. intros Hwf Hq%resolveTaskParameters_iff; [|done]. by eapply resolves_clean. Qed.

(** Masking: every sensitive parameter is redacted, the others are kept. *)
Definition masked (task : TaskDefinition) (m : params) : Prop :=
  ∀ spec v, spec ∈ tk_Parameters task → sp_Sensitive spec = true → m !! sp_Name spec = Some v → v = AString redacted.

Lemma mask_one_lookup out spec k :
  mask_one out spec !! k =
  if sp_Sensitive spec && eqs k (sp_Name spec) then (λ _, AString redacted) <$> out !! k else out !! k.
Proof.
  unfold mask_one. destruct (sp_Sensitive spec); simpl; [|done]. destruct (eqs k (sp_Name spec)) eqn:E.
  - apply eqs_true in E as ->. destruct (out !! sp_Name spec) eqn:Ho; [by rewrite lookup_insert_eq|by rewrite Ho].
  - apply eqs_false in E. destruct (out !! sp_Name spec); [|done]. by rewrite lookup_insert_ne.
Qed.

Definition hidden (specs : list TaskParameterSpec) (k : string) : bool :=
  existsb (λ spec, sp_Sensitive spec && eqs k (sp_Name spec)) specs.

Lemma maskTaskParameters_lookup task m k :
  maskTaskParameters task m !! k =
  if hidden (tk_Parameters task) k then (λ _, AString redacted) <$> cloneTaskAnyMap m !! k else cloneTaskAnyMap m !! k.
Proof.
  unfold maskTaskParameters, hidden. generalize (cloneTaskAnyMap m). induction (tk_Parameters task) as [|spec specs IH]; [done|].
  intros out. simpl. rewrite IH, mask_one_lookup.
  destruct (sp_Sensitive spec && eqs k (sp_Name spec)); simpl; [|done].
  destruct (existsb _ specs); [|done]. by destruct (out !! k).
Qed.

Lemma maskTaskParameters_masked task m : masked task (maskTaskParameters task m).
Proof.
  intros spec v Hspec Hs. rewrite maskTaskParameters_lookup.
  assert (hidden (tk_Parameters task) (sp_Name spec) = true) as ->.
  { apply existsb_exists. exists spec. rewrite <-list_elem_of_In. by rewrite Hs, eqs_refl. }
  destruct (cloneTaskAnyMap m !! sp_Name spec); by intros [= <-].
Qed.

Lemma maskTaskParameters_clean task m : clean (maskTaskParameters task m).
Proof.
  intros k v. rewrite maskTaskParameters_lookup. pose proof (cloneTaskAnyMap_clean m k) as Hc.
  destruct (cloneTaskAnyMap m !! k) as [w|]; [|by case_match]. destruct (Hc w eq_refl) as [Hk Hw].
  case_match; intros [= <-]; done.
Qed.
End resolving.

(** ** What the store keeps *)

Section storing.
Context `{RangeOrder}.

Lemma normalize_spec_wf name typ raw spec :
  normalize_spec name typ raw = Ok spec → TrimSpace name = name → name ≠ "" → typ ∈ type_names →
  spec_wf spec ∧ sp_Name spec = name.
Proof.
  unfold normalize_spec. intros Hs Hn Hne Ht. destruct (is_nil (deepCopyAny (sp_Default raw))) eqn:E.
  - simplify_eq. split; [|done]. split; simpl; [done|done|]. left. by destruct (deepCopyAny (sp_Default raw)).
  - destruct (validateAndNormalizeType typ (deepCopyAny (sp_Default raw))) as [v|e] eqn:Hv; simplify_eq/=.
    split; [|done]. split; simpl; [done|done|]. right. by eapply validate_idemp.
Qed.

Lemma normalize_specs_wf i seen specs out :
  normalize_specs i seen specs = Ok out →
  Forall spec_wf out ∧ NoDup (sp_Name <$> out) ∧ ∀ k, k ∈ sp_Name <$> out → k ∉ seen.
Proof.
  revert i seen out. induction specs as [|raw specs IH]; intros i seen out; simpl.
  { intros [= <-]. split; [done|]. split; [constructor|set_solver]. }
  set (typ := if eqs (norm (sp_Type raw)) "" then _ else _). intros Hout. res_inv.
  match goal with Hs : normalize_spec _ _ _ = Ok _, Hl : normalize_specs _ _ _ = Ok _ |- _ =>
    apply IH in Hl as (Hwf & Hnd & Hseen);
    apply normalize_spec_wf in Hs as [Hspec Hname]; [|apply TrimSpace_idemp|by apply eqs_false|by apply one_of_true] end.
  split; [by constructor|]. simpl. rewrite Hname. split.
  - constructor; [|done]. intros Hk. apply (Hseen _ Hk). set_solver.
  - intros k [->|Hk]%elem_of_cons; [by apply one_of_false|]. specialize (Hseen k Hk). set_solver.
Qed.

Lemma normalizeTaskParameterSpecs_wf specs out :
  normalizeTaskParameterSpecs specs = Ok out → Forall spec_wf out ∧ NoDup (sp_Name <$> out).
Proof.
  unfold normalizeTaskParameterSpecs. intros Hout. res_inv.
  match goal with Hl : normalize_specs _ _ _ = Ok _ |- _ => apply normalize_specs_wf in Hl as (Hwf & Hnd & _) end.
  split; [by rewrite merge_sort_Permutation|]. by rewrite merge_sort_Permutation.
Qed.

Lemma cloneTaskDefinition_id task : task_wf task → cloneTaskDefinition task = task.
Proof.
  intros [Hspecs _]. destruct task as [? ? ? ? ? ? specs ? ?]. unfold cloneTaskDefinition. cbn in *. f_equal.
  induction Hspecs as [|spec specs Hspec _ IH]; [done|]. simpl. f_equal; [|apply IH].
  destruct spec as [? typ ? ? ? d]. cbn. f_equal. destruct (sw_default _ Hspec) as [Hd|Hd]; cbn in Hd; [by rewrite Hd|].
  by eapply validate_idemp.
Qed.

(** A step of a plan: named, of a known task, with resolved parameters. *)
Definition step_wf (tasks : gmap string TaskDefinition) (step : TaskPlanStep) : Prop :=
  ps_Name step ≠ "" ∧ TrimSpace (ps_TaskID step) = ps_TaskID step ∧
  ∃ task, tasks !! ps_TaskID step = Some task ∧ resolved_for task (ps_Parameters step).

Record plan_wf (tasks : gmap string TaskDefinition) (plan : TaskPlan) : Prop := {
  pw_steps : Forall (step_wf tasks) (tp_Steps plan);
  pw_names : NoDup (ps_Name <$> tp_Steps plan);
}.

Record tasks_ok (s : TaskFrameworkStore) : Prop := {
  to_counters : 0 ≤ tf_nextTaskID s ∧ 0 ≤ tf_nextPlanID s ∧ 0 ≤ tf_nextExecution s;
  to_tasks : map_Forall (λ id task, tk_ID task = id ∧ task_wf task ∧ numbered "task-" (tf_nextTaskID s) id) (tf_tasks s);
  to_plans : map_Forall (λ id plan, tp_ID plan = id ∧ plan_wf (tf_tasks s) plan ∧
    numbered "taskplan-" (tf_nextPlanID s) id) (tf_plans s);
}.

Lemma step_wf_mono tasks tasks' step : tasks ⊆ tasks' → step_wf tasks step → step_wf tasks' step.
Proof. intros Hsub (Hne & Ht & task & Htask & Hp). repeat split; [done..|]. exists task. split; [by eapply lookup_weaken|done]. Qed.

Lemma plan_wf_mono tasks tasks' plan : tasks ⊆ tasks' → plan_wf tasks plan → plan_wf tasks' plan.
Proof. intros Hsub [Hs Hn]. split; [|done]. eapply Forall_impl; [done|]. intros step. by apply step_wf_mono. Qed.

(** In a store that is well formed copying a plan changes nothing. *)
Lemma step_wf_clean s step : tasks_ok s → step_wf (tf_tasks s) step → clean (ps_Parameters step).
Proof. intros Hs (_ & _ & task & Htask & Hp). apply (to_tasks _ Hs) in Htask as (_ & Hwf & _). by eapply resolved_for_clean. Qed.

Lemma cloneTaskPlan_id s plan : tasks_ok s → plan_wf (tf_tasks s) plan → cloneTaskPlan plan = plan.
Proof.
  intros Hs [Hsteps _]. destruct plan as [? ? ? steps ? ?]. unfold cloneTaskPlan. cbn in *. f_equal.
  induction Hsteps as [|step steps Hstep _ IH]; [done|]. simpl. f_equal; [|apply IH].
  destruct step as [? ? ps ? ?]. cbn. f_equal. apply cloneTaskAnyMap_id. by apply (step_wf_clean _ _ Hs Hstep).
Qed.

Lemma resolveStepLocked_wf s step idx out :
  tasks_ok s → resolveStepLocked s step idx = Ok out → step_wf (tf_tasks s) out.
Proof.
  unfold resolveStepLocked. intros Hs Hout. res_inv. set (name := if eqs (TrimSpace _) "" then _ else _) in *.
  destruct (tf_tasks s !! TrimSpace (ps_TaskID step)) as [task|] eqn:Htask; [|done].
  destruct (resolveTaskParameters task (ps_Parameters step)) as [q|e] eqn:Hq; [|done]. simplify_eq/=.
  pose proof Htask as Hwf. apply (to_tasks _ Hs) in Hwf as (_ & Hwf & _).
  repeat split; simpl.
  - unfold name. destruct (eqs (TrimSpace (ps_Name step)) "") eqn:E; [done|by apply eqs_false].
  - apply TrimSpace_idemp.
  - exists task. split; [done|]. by eapply resolve_idemp.
Qed.

Lemma resolve_steps_wf s idx names steps out :
  tasks_ok s → resolve_steps s idx names steps = Ok out →
  Forall (step_wf (tf_tasks s)) out ∧ NoDup (ps_Name <$> out) ∧ ∀ k, k ∈ ps_Name <$> out → k ∉ names.
Proof.
  intros Hs. revert idx names out. induction steps as [|step steps IH]; intros idx names out; simpl.
  { intros [= <-]. split; [done|]. split; [constructor|set_solver]. }
  intros Hout. res_inv.
  match goal with Hr : resolveStepLocked _ _ _ = Ok ?x, Hl : resolve_steps _ _ _ _ = Ok _ |- _ =>
    apply IH in Hl as (Hwf & Hnd & Hnames); apply resolveStepLocked_wf in Hr; [|done] end.
  split; [by constructor|]. simpl. split.
  - constructor; [|done]. intros Hk. apply (Hnames _ Hk). set_solver.
  - intros k [->|Hk]%elem_of_cons; [by apply one_of_false|]. specialize (Hnames k Hk). set_solver.
Qed.

Lemma RegisterTask_Ok i now s s' r :
  RegisterTask i now s = (s', r) →
  match r with
  | Err _ => s' = s
  | Ok task =>
      task_wf task ∧ tk_ID task = "task-" +:+ itoa (tf_nextTaskID s + 1) ∧
      s' = s <| tf_nextTaskID := tf_nextTaskID s + 1 |> <| tf_tasks := <[tk_ID task := task]> (tf_tasks s) |>
  end.
Proof.
  unfold RegisterTask. destruct (eqs _ ""); [by intros [= <- <-]|]. destruct (eqs _ ""); [by intros [= <- <-]|].
  destruct (eqs _ ""); [by intros [= <- <-]|].
  destruct (normalizeTaskParameterSpecs _) as [ps|e] eqn:Hps; [|by intros [= <- <-]].
  apply normalizeTaskParameterSpecs_wf in Hps as [Hspecs Hnd]. rewrite cloneTaskDefinition_id by done.
  by intros [= <- <-].
Qed.

Lemma RegisterTask_tasks_ok i now s s' r :
  tasks_ok s → tf_nextTaskID s < max_int64 → RegisterTask i now s = (s', r) → tasks_ok s' ∧ tf_tasks s ⊆ tf_tasks s'.
Proof.
  intros Hs Hmax Hr. apply RegisterTask_Ok in Hr. destruct r as [task|e]; [|by subst].
  destruct Hr as (Hwf & Hid & ->). destruct (to_counters _ Hs) as (Ht & Hp & He).
  assert (tf_tasks s !! tk_ID task = None) as Hfresh.
  { destruct (tf_tasks s !! tk_ID task) as [old|] eqn:Hold; [|done]. apply (to_tasks _ Hs) in Hold as (_ & _ & Hold).
    rewrite Hid in Hold. by apply numbered_fresh in Hold. }
  assert (tf_tasks s ⊆ <[tk_ID task := task]> (tf_tasks s)) as Hsub by by apply insert_subseteq.
  split; [|done]. split; cbn; [lia|..].
  - apply map_Forall_insert_2; [split; [done|split; [done|]]|].
    + rewrite Hid. by apply numbered_next.
    + intros k t Hk. destruct (to_tasks _ Hs _ _ Hk) as (? & ? & ?). split; [done|]. split; [done|].
      eapply numbered_mono; [|done]. lia.
  - intros k p Hk. destruct (to_plans _ Hs _ _ Hk) as (? & ? & ?). split; [done|]. split; [|done].
    by eapply plan_wf_mono.
Qed.

Lemma RegisterPlan_Ok i now s s' r :
  tasks_ok s → RegisterPlan i now s = (s', r) →
  match r with
  | Err _ => s' = s
  | Ok answer => ∃ plan, answer = maskPlanLocked s plan ∧ plan_wf (tf_tasks s) plan ∧
      tp_ID plan = "taskplan-" +:+ itoa (tf_nextPlanID s + 1) ∧
      s' = s <| tf_nextPlanID := tf_nextPlanID s + 1 |> <| tf_plans := <[tp_ID plan := plan]> (tf_plans s) |>
  end.
Proof.
  intros Hs. unfold RegisterPlan. destruct (eqs _ ""); [by intros [= <- <-]|].
  case_bool_decide; [by intros [= <- <-]|].
  destruct (resolve_steps _ _ _ _) as [steps|e] eqn:Hsteps; [|by intros [= <- <-]].
  apply resolve_steps_wf in Hsteps as (Hwf & Hnd & _); [|done]. rewrite (cloneTaskPlan_id s) by done.
  intros [= <- <-]. by eexists.
Qed.

Lemma RegisterPlan_tasks_ok i now s s' r :
  tasks_ok s → tf_nextPlanID s < max_int64 → RegisterPlan i now s = (s', r) →
  tasks_ok s' ∧ tf_tasks s = tf_tasks s' ∧ tf_plans s ⊆ tf_plans s'.
Proof.
  intros Hs Hmax Hr. apply RegisterPlan_Ok in Hr; [|done]. destruct r as [answer|e]; [|by subst].
  destruct Hr as (plan & -> & Hwf & Hid & ->). destruct (to_counters _ Hs) as (Ht & Hp & He).
  assert (tf_plans s !! tp_ID plan = None) as Hfresh.
  { destruct (tf_plans s !! tp_ID plan) as [old|] eqn:Hold; [|done]. apply (to_plans _ Hs) in Hold as (_ & _ & Hold).
    rewrite Hid in Hold. by apply numbered_fresh in Hold. }
  split; [|split; [done|by apply insert_subseteq]]. split; cbn; [lia|apply (to_tasks _ Hs)|].
  apply map_Forall_insert_2; [split; [done|split; [done|]]|].
  - rewrite Hid. by apply numbered_next.
  - intros k p Hk. destruct (to_plans _ Hs _ _ Hk) as (? & ? & ?). split; [done|]. split; [done|].
    eapply numbered_mono; [|done]. lia.
Qed.

(** [shown] is a step of a plan as it is handed out: what its task declares
    sensitive is redacted, the rest is as it is kept. *)
Definition step_shown (s : TaskFrameworkStore) (step shown : TaskPlanStep) : Prop :=
  ∃ task, tf_tasks s !! ps_TaskID step = Some task ∧
    shown = step <| ps_Parameters := ps_Parameters shown |> ∧
    ∀ k, ps_Parameters shown !! k =
      if hidden (tk_Parameters task) k then (λ _, AString redacted) <$> ps_Parameters step !! k else ps_Parameters step !! k.

Definition plan_shown (s : TaskFrameworkStore) (plan shown : TaskPlan) : Prop :=
  shown = plan <| tp_Steps := tp_Steps shown |> ∧ Forall2 (step_shown s) (tp_Steps plan) (tp_Steps shown).

Lemma maskPlanLocked_shown s plan : tasks_ok s → plan_wf (tf_tasks s) plan → plan_shown s plan (maskPlanLocked s plan).
Proof.
  intros Hs Hwf. unfold maskPlanLocked. rewrite (cloneTaskPlan_id s) by done. split; [done|]. cbn.
  destruct Hwf as [Hwf _]. induction Hwf as [|step steps Hstep _ IH]; cbn; constructor; [|done].
  pose proof (step_wf_clean _ _ Hs Hstep) as Hclean. destruct Hstep as (_ & _ & task & Htask & _).
  unfold mask_step. rewrite Htask. exists task. split; [done|]. split; [done|]. intros k. cbn.
  by rewrite maskTaskParameters_lookup, cloneTaskAnyMap_id.
Qed.

Lemma PreviewPlan_masked planID overrides s out :
  tasks_ok s → PreviewPlan planID overrides s = Ok out →
  Forall (λ step, ∃ task, tf_tasks s !! pv_TaskID step = Some task ∧ masked task (pv_Parameters step)) (pw_Steps out).
Proof.
  unfold PreviewPlan. intros Hs Hout. destruct (tf_plans s !! _) as [plan|] eqn:Hplan; [|done]. res_inv. cbn.
  match goal with Hm : mapM_res _ _ = Ok _ |- _ => apply mapM_res_Ok in Hm; revert Hm end.
  apply (to_plans _ Hs) in Hplan as (_ & [Hwf _] & _). intros Hm.
  apply Forall_forall. intros pv Hpv. apply list_elem_of_lookup_1 in Hpv as [i Hpv].
  apply (Forall2_lookup_r _ _ _ _ _ Hm) in Hpv as (step & Hstep & Hpv).
  rewrite Forall_lookup in Hwf. destruct (Hwf _ _ Hstep) as (_ & _ & task & Htask & _).
  unfold preview_step in Hpv. rewrite Htask in Hpv. res_inv. cbn. exists task.
  split; [|apply maskTaskParameters_masked]. by apply (to_tasks _ Hs) in Htask as Hid; destruct Hid as [-> _].
Qed.

Lemma PreviewPlan_planned planID plan ov s :
  tasks_ok s → tf_plans s !! TrimSpace planID = Some plan → Forall (step_wf (tf_tasks s)) (tp_Steps plan) →
  (∀ step, step ∈ tp_Steps plan → clone_overrides ov !! ps_Name step = None) →
  ∃ out, PreviewPlan planID ov s = Ok out ∧ pv_Name <$> pw_Steps out = ps_Name <$> tp_Steps plan.
Proof.
  intros Hs Hplan Hwf Hov. unfold PreviewPlan. rewrite Hplan.
  assert (∃ out, mapM_res (preview_step s (clone_overrides ov)) (tp_Steps plan) = Ok out ∧
    pv_Name <$> out = ps_Name <$> tp_Steps plan) as (out & -> & Hout); [|by eexists].
  revert Hov Hwf. generalize (tp_Steps plan). clear plan Hplan. intros steps Hov Hwf.
  induction Hwf as [|step steps Hstep _ IH]; [by exists []|].
  destruct IH as (out & Hout & Hnames); [intros; apply Hov; set_solver|].
  pose proof (step_wf_clean _ _ Hs Hstep) as Hclean. destruct Hstep as (_ & _ & task & Htask & Hp).
  simpl. unfold preview_step at 1. rewrite Htask, Hov by set_solver. cbn [override_params].
  rewrite cloneTaskAnyMap_id, Hp, Hout by done. cbn. eexists. split; [done|]. by rewrite !fmap_cons, Hnames.
Qed.
End storing.
