(* ===== verification/TaskExecution.v ===== *)
(** * Executions of task plans: [internal/control/task_framework.go]

    [StartExecution] starts a goroutine, [runExecution], that walks the selected
    steps of the plan.  The goroutine is a state machine whose turns are the
    sections of [runExecution] between two accesses to the store; the calls of
    the store and the turns of all goroutines interleave in any order.  Proved:
    what an execution records, how it ends, and that no sensitive value is ever
    recorded or shown. *)

From S2P Require Import Prelude Task.

(** ** The goroutine *)

Section goroutine.
Context `{RangeOrder}.

(** Where [runExecution] is: before it marks the execution, at the head of its
    loop, past the checks of a step, out of the loop, or returned. *)
Inductive phase :=
  | Starting
  | Looping
  | InBody (now : Time)
  | Finishing (status : TaskExecutionStatus) (err : run_error)
  | Returned.

(** The locals of [runExecution]; [rn_Rest] is what is left of [plan.Steps]. *)
Record Run : Type := mkRun {
  rn_ID : string;
  rn_Rest : list TaskPlanStep;
  rn_Overrides : gmap string params;
  rn_Timeout : Z;
  rn_Deadline : Time;
  rn_Phase : phase;
  rn_Completed : Z;
  rn_Steps : list TaskExecutionStep;
}.
End goroutine.
#[export] Instance Run_eta `{Float64} : Eta Run := λ r,
  mkRun (rn_ID r) (rn_Rest r) (rn_Overrides r) (rn_Timeout r) (rn_Deadline r) (rn_Phase r) (rn_Completed r) (rn_Steps r).

Section executions.
Context `{RangeOrder}.

Definition cloneTaskExecutionStep (x : TaskExecutionStep) : TaskExecutionStep :=
  x <| xs_Parameters := cloneTaskAnyMap (xs_Parameters x) |>.

Definition cloneTaskExecution (e : TaskExecution) : TaskExecution := e <| ex_Steps := cloneTaskExecutionStep <$> ex_Steps e |>.

Definition put_execution (e : TaskExecution) (s : TaskFrameworkStore) : TaskFrameworkStore :=
  s <| tf_executions := <[ex_ID e := cloneTaskExecution e]> (tf_executions s) |>.

Definition poll_interval (poll : Z) : Z :=
  let poll := if poll <=? 0 then 1000 else poll in
  let poll := if poll <? 100 then 100 else poll in
  if 60000 <? poll then 60000 else poll.

Definition timeout_seconds (timeout : Z) : Z :=
  let timeout := if timeout <=? 0 then 300 else timeout in
  let timeout := if timeout <? 1 then 1 else timeout in
  if 3600 <? timeout then 3600 else timeout.

(** The execution and the goroutine that [go s.runExecution(...)] starts. *)
Definition StartExecution (i : TaskExecutionInput) (now : Time) (s : TaskFrameworkStore)
    : TaskFrameworkStore * result task_error (TaskExecution * Run) :=
  let planID := TrimSpace (xi_PlanID i) in
  if eqs planID "" then (s, Err PlanIDRequired) else
  let timeout := timeout_seconds (xi_TimeoutSeconds i) in
  let overrides := clone_overrides (xi_Overrides i) in
  let includeTags := normalizeTaskTags (xi_IncludeTags i) in
  let excludeTags := normalizeTaskTags (xi_ExcludeTags i) in
  match tf_plans s !! planID with
  | None => (s, Err PlanNotFound)
  | Some plan =>
      let plan := cloneTaskPlan plan in
      let steps := filterTaskPlanStepsByTags (tp_Steps plan) includeTags excludeTags in
      let next := tf_nextExecution s + 1 in
      let execID := "taskexec-" +:+ itoa next in
      let e := mkExec execID (tp_ID plan) (tp_Name plan) TaskPending includeTags excludeTags
        (poll_interval (xi_PollIntervalMS i)) timeout now 0 0 (Z.of_nat (length steps)) 0 NoRunError [] in
      (put_execution e (s <| tf_nextExecution := next |>),
       Ok (cloneTaskExecution e, mkRun execID steps overrides timeout 0 Starting 0 []))
  end.

Definition exec_later (x y : TaskExecution) : Prop := ex_CreatedAt y ≤ ex_CreatedAt x.
#[export] Instance exec_later_dec x y : Decision (exec_later x y).
Proof. unfold exec_later. apply _. Defined.

Definition ListExecutions (limit : Z) (s : TaskFrameworkStore) : list TaskExecution :=
  let out := merge_sort exec_later (cloneTaskExecution <$> (map_to_list (tf_executions s)).*2) in
  if (0 <? limit) && (limit <? Z.of_nat (length out)) then take (Z.to_nat limit) out else out.

Definition GetExecution (id : string) (s : TaskFrameworkStore) : option TaskExecution :=
  cloneTaskExecution <$> tf_executions s !! TrimSpace id.

Definition terminal (status : TaskExecutionStatus) : bool :=
  bool_decide (status ∈ [TaskSucceeded; TaskFailed; TaskTimedOut; TaskCanceled]).

Definition CancelExecution (id : string) (now : Time) (s : TaskFrameworkStore)
    : TaskFrameworkStore * result task_error TaskExecution :=
  let id := TrimSpace id in
  match tf_executions s !! id with
  | None => (s, Err ExecutionNotFound)
  | Some item =>
      if terminal (ex_Status item) then (s, Ok (cloneTaskExecution item)) else
      let item := item <| ex_Status := TaskCanceled |> <| ex_Error := RunCanceled |> <| ex_EndedAt := now |> in
      (s <| tf_canceled := {[id]} ∪ tf_canceled s |> <| tf_executions := <[id := cloneTaskExecution item]> (tf_executions s) |>,
       Ok (cloneTaskExecution item))
  end.

(** ** The turns of [runExecution] *)

(** It reads the clock, and marks the execution as running. *)
Definition run_begin (now : Time) (r : Run) (s : TaskFrameworkStore) : Run * TaskFrameworkStore :=
  match tf_executions s !! rn_ID r with
  | None => (r <| rn_Phase := Returned |>, s)
  | Some item =>
      (r <| rn_Deadline := Add now (seconds (rn_Timeout r)) |> <| rn_Phase := Looping |>,
       s <| tf_executions := <[rn_ID r := cloneTaskExecution (item <| ex_Status := TaskRunning |> <| ex_StartedAt := now |>)]>
              (tf_executions s) |>)
  end.

(** The head of the loop: the deadline, then the cancellation. *)
Definition run_check (now : Time) (r : Run) (s : TaskFrameworkStore) : Run :=
  let next := match rn_Rest r with
    | [] => Finishing TaskSucceeded NoRunError
    | _ :: _ =>
        if negb (Before now (rn_Deadline r)) then Finishing TaskTimedOut RunTimedOut
        else if bool_decide (rn_ID r ∈ tf_canceled s) then Finishing TaskCanceled RunCanceled
        else InBody now
    end in
  r <| rn_Phase := next |>.

Definition step_parameters (overrides : gmap string params) (step : TaskPlanStep) : params :=
  override_params id (overrides !! ps_Name step) (cloneTaskAnyMap (ps_Parameters step)).

(** The [stepRun] of a step, failed or succeeded. *)
Definition record_step (task : TaskDefinition) (overrides : gmap string params) (step : TaskPlanStep) (now ended : Time)
    : TaskExecutionStep :=
  let ps := step_parameters overrides step in
  let stepRun status shown err :=
    mkExecStep (ps_Name step) (ps_TaskID step) (tk_Module task) (tk_Action task) (tk_Primitive task) (ps_Tags step)
      (ps_ContinueOnError step) status (maskTaskParameters task shown) err now ended in
  match resolveTaskParameters task ps with
  | Err e => stepRun TaskFailed ps (Some e)
  | Ok resolved => stepRun TaskSucceeded resolved None
  end.

(** The rest of the body: the task, its parameters, the record of the step. *)
Definition run_body (now ended : Time) (r : Run) (s : TaskFrameworkStore) : Run :=
  match rn_Rest r with
  | [] => r
  | step :: rest =>
      match GetTask (ps_TaskID step) s with
      | None => r <| rn_Phase := Finishing TaskFailed (RunTaskNotFound (ps_TaskID step)) |>
      | Some task =>
          let x := record_step task (rn_Overrides r) step now ended in
          let next := match xs_Error x with
            | Some e => if ps_ContinueOnError step then Looping else Finishing TaskFailed (RunStepFailed (ps_Name step) e)
            | None => Looping
            end in
          r <| rn_Rest := rest |> <| rn_Steps := rn_Steps r ++ [x] |> <| rn_Completed := rn_Completed r + 1 |>
            <| rn_Phase := next |>
      end
  end.

(** The end: whatever the execution is by now is overwritten.  ([execStatus] is never running or pending.) *)
Definition run_finish (status : TaskExecutionStatus) (err : run_error) (ended : Time) (r : Run) (s : TaskFrameworkStore)
    : Run * TaskFrameworkStore :=
  let r' := r <| rn_Phase := Returned |> in
  match tf_executions s !! rn_ID r with
  | None => (r', s)
  | Some item =>
      let status := if bool_decide (status ∈ [TaskRunning; TaskPending]) then TaskSucceeded else status in
      let item := item <| ex_Status := status |> <| ex_Error := err |> <| ex_CompletedSteps := rn_Completed r |>
        <| ex_Steps := rn_Steps r |> <| ex_EndedAt := ended |> in
      (r', s <| tf_executions := <[rn_ID r := cloneTaskExecution item]> (tf_executions s) |>
             <| tf_canceled := tf_canceled s ∖ {[rn_ID r]} |>)
  end.

Definition run_turn (now : Time) (r : Run) (s : TaskFrameworkStore) : Run * TaskFrameworkStore :=
  match rn_Phase r with
  | Starting => run_begin now r s
  | Looping => (run_check now r s, s)
  | InBody started => (run_body started now r s, s)
  | Finishing status err => run_finish status err now r s
  | Returned => (r, s)
  end.

(** ** The store and its goroutines *)

Record System : Type := mkSystem {
  sy_store : TaskFrameworkStore;
  sy_runs : gmap string Run;
}.

Definition initial : System := mkSystem NewTaskFrameworkStore ∅.

Inductive task_call :=
  | CallRegisterTask (i : TaskDefinitionInput)
  | CallRegisterPlan (i : TaskPlanInput)
  | CallStartExecution (i : TaskExecutionInput)
  | CallCancelExecution (id : string)
  | Turn (id : string).

Definition system_step (c : task_call) (now : Time) (y : System) : System :=
  let s := sy_store y in
  match c with
  | CallRegisterTask i => mkSystem (RegisterTask i now s).1 (sy_runs y)
  | CallRegisterPlan i => mkSystem (RegisterPlan i now s).1 (sy_runs y)
  | CallStartExecution i =>
      match StartExecution i now s with
      | (s, Ok (_, r)) => mkSystem s (<[rn_ID r := r]> (sy_runs y))
      | (s, Err _) => mkSystem s (sy_runs y)
      end
  | CallCancelExecution id => mkSystem (CancelExecution id now s).1 (sy_runs y)
  | Turn id =>
      match sy_runs y !! id with
      | None => y
      | Some r => let '(r, s) := run_turn now r s in mkSystem s (<[id := r]> (sy_runs y))
      end
  end.

(** A history: calls and turns with the times at which they happen. *)
Definition history (h : list (task_call * Time)) (y : System) : System := foldl (λ y c, system_step c.1 c.2 y) y h.
End executions.

(** ** What a step records *)

Section recording.
Context `{RangeOrder}.

Lemma record_step_fields task ov step now ended :
  let x := record_step task ov step now ended in
  xs_Name x = ps_Name step ∧ xs_TaskID x = ps_TaskID step ∧ xs_ContinueOnError x = ps_ContinueOnError step ∧
  (∃ m, xs_Parameters x = maskTaskParameters task m).
Proof. unfold record_step. case_match; cbn; eauto. Qed.

Lemma record_step_clone task ov step now ended :
  cloneTaskExecutionStep (record_step task ov step now ended) = record_step task ov step now ended.
Proof.
  unfold record_step, cloneTaskExecutionStep. case_match; cbn; rewrite cloneTaskAnyMap_id; try done; apply maskTaskParameters_clean.
Qed.

(** Does the loop go on after a recorded step? *)
Definition passes (x : TaskExecutionStep) : Prop := xs_Status x = TaskSucceeded ∨ xs_ContinueOnError x = true.

Lemma record_step_outcome task ov step now ended :
  let x := record_step task ov step now ended in
  match xs_Error x with
  | None => xs_Status x = TaskSucceeded
  | Some e => xs_Status x = TaskFailed ∧ (passes x ↔ ps_ContinueOnError step = true)
  end.
Proof. unfold record_step, passes. destruct (resolveTaskParameters _ _); cbn; [done|]. split; [done|]. naive_solver. Qed.

(** A recorded step is the record of a step of the plan, for its task, at some times. *)
Definition recorded (tasks : gmap string TaskDefinition) (ov : gmap string params) (step : TaskPlanStep) (x : TaskExecutionStep) : Prop :=
  ∃ task now ended, tasks !! ps_TaskID step = Some task ∧ x = record_step task ov step now ended.

Lemma recorded_mono tasks tasks' ov step x : tasks ⊆ tasks' → recorded tasks ov step x → recorded tasks' ov step x.
Proof. intros Hsub (task & now & ended & Ht & ->). exists task, now, ended. split; [by eapply lookup_weaken|done]. Qed.

(** How an execution of [n] steps that recorded [xs] may end. *)
Definition outcome_ok (n : nat) (xs : list TaskExecutionStep) (status : TaskExecutionStatus) (err : run_error) : Prop :=
  match status with
  | TaskSucceeded => length xs = n ∧ Forall passes xs ∧ err = NoRunError
  | TaskFailed => ∃ xs' x e, xs = xs' ++ [x] ∧ Forall passes xs' ∧ ¬ passes x ∧ xs_Error x = Some e ∧ err = RunStepFailed (xs_Name x) e
  | TaskTimedOut => (length xs < n)%nat ∧ Forall passes xs ∧ err = RunTimedOut
  | TaskCanceled => (length xs < n)%nat ∧ Forall passes xs ∧ err = RunCanceled
  | TaskPending | TaskRunning => False
  end.

Definition unfinished (e : TaskExecution) : Prop :=
  ex_Status e ∈ [TaskPending; TaskRunning; TaskCanceled] ∧ ex_Steps e = [] ∧ ex_CompletedSteps e = 0.

(** The steps of a plan that an execution selects. *)
Definition selected (plan : TaskPlan) (e : TaskExecution) : list TaskPlanStep :=
  filterTaskPlanStepsByTags (tp_Steps plan) (ex_IncludeTags e) (ex_ExcludeTags e).

(** What relates a goroutine to its execution, its plan and the tasks. *)
Record run_ok (tasks : gmap string TaskDefinition) (plans : gmap string TaskPlan) (r : Run) (e : TaskExecution) : Prop := {
  ro_id : ex_ID e = rn_ID r;
  ro_plan : ∃ plan done, plans !! ex_PlanID e = Some plan ∧ selected plan e = done ++ rn_Rest r ∧
    ex_StepCount e = Z.of_nat (length (selected plan e)) ∧
    Forall2 (recorded tasks (rn_Overrides r)) done (rn_Steps r) ∧
    match rn_Phase r with
    | Starting => rn_Steps r = []
    | Looping => Forall passes (rn_Steps r)
    | InBody _ => Forall passes (rn_Steps r) ∧ rn_Rest r ≠ []
    | Finishing status err => outcome_ok (length (selected plan e)) (rn_Steps r) status err
    | Returned => outcome_ok (length (selected plan e)) (rn_Steps r) (ex_Status e) (ex_Error e)
    end;
  ro_completed : rn_Completed r = Z.of_nat (length (rn_Steps r));
  ro_shown : match rn_Phase r with
    | Returned => ex_Steps e = rn_Steps r ∧ ex_CompletedSteps e = rn_Completed r
    | _ => unfinished e
    end;
}.

Lemma run_ok_mono tasks tasks' plans plans' r e :
  tasks ⊆ tasks' → plans ⊆ plans' → run_ok tasks plans r e → run_ok tasks' plans' r e.
Proof.
  intros Ht Hp [Hid (plan & done & Hplan & Hsel & Hcount & Hrec & Hphase) Hc Hs]. split; [done| |done|done].
  exists plan, done. split; [by eapply lookup_weaken|]. split; [done|]. split; [done|]. split; [|done].
  eapply Forall2_impl; [done|]. intros step x. by apply recorded_mono.
Qed.

Lemma recorded_clone tasks ov steps xs : Forall2 (recorded tasks ov) steps xs → cloneTaskExecutionStep <$> xs = xs.
Proof.
  induction 1 as [|step x steps xs (task & now & ended & _ & ->) _ IH]; [done|].
  by rewrite fmap_cons, record_step_clone, IH.
Qed.

Lemma cloneTaskExecution_id e : cloneTaskExecutionStep <$> ex_Steps e = ex_Steps e → cloneTaskExecution e = e.
Proof. intros Hs. destruct e. unfold cloneTaskExecution. cbn in *. by rewrite Hs. Qed.
End recording.

(** ** Turns and calls keep a goroutine and its execution related *)

Section keeping.
Context `{RangeOrder}.

Lemma run_begin_ok tasks plans now r e s r' s' :
  rn_Phase r = Starting → tf_executions s !! rn_ID r = Some e → run_ok tasks plans r e → run_begin now r s = (r', s') →
  rn_ID r' = rn_ID r ∧ ∃ e', s' = s <| tf_executions := <[rn_ID r := e']> (tf_executions s) |> ∧ run_ok tasks plans r' e'.
Proof.
  intros Hph He [Hid (plan & done & Hplan & Hsel & Hcount & Hrec & Hphase) Hc Hs]. unfold run_begin.
  rewrite He. rewrite Hph in *. destruct Hs as (Hst & Hsteps & Hcomp).
  rewrite cloneTaskExecution_id by (cbn; by rewrite Hsteps). intros [= <- <-]. split; [done|]. eexists. split; [done|].
  split; cbn; [done| |done|split; [set_solver|done]].
  exists plan, done. repeat split; [done..|]. by rewrite Hphase.
Qed.

Lemma run_check_ok tasks plans now r e s :
  rn_Phase r = Looping → run_ok tasks plans r e → rn_ID (run_check now r s) = rn_ID r ∧ run_ok tasks plans (run_check now r s) e.
Proof.
  intros Hph [Hid (plan & done & Hplan & Hsel & Hcount & Hrec & Hphase) Hc Hs]. rewrite Hph in *. split; [done|].
  pose proof (Forall2_length _ _ _ Hrec) as Hlen. pose proof (f_equal length Hsel) as Hall. rewrite length_app in Hall.
  split; cbn; [done| |done|by repeat case_match].
  exists plan, done. repeat split; try done. destruct (rn_Rest r) as [|step rest]; cbn in *; [split; [lia|done]|].
  repeat case_match; simplify_eq; cbn; repeat split; try done; lia.
Qed.

Lemma run_body_ok s now ended r e :
  rn_Phase r = InBody now → tasks_ok s → run_ok (tf_tasks s) (tf_plans s) r e →
  rn_ID (run_body now ended r s) = rn_ID r ∧ run_ok (tf_tasks s) (tf_plans s) (run_body now ended r s) e.
Proof.
  intros Hph Hs [Hid (plan & done & Hplan & Hsel & Hcount & Hrec & Hphase) Hc Hsh]. rewrite Hph in *.
  destruct Hphase as [Hpass Hrest]. unfold run_body. destruct (rn_Rest r) as [|step rest] eqn:Hr; [done|].
  assert (step_wf (tf_tasks s) step) as (_ & Htrim & task & Htask & _).
  { destruct (to_plans _ Hs _ _ Hplan) as (_ & [Hwf _] & _). rewrite Forall_forall in Hwf. apply Hwf.
    assert (step ∈ selected plan e) as Hin by (rewrite Hsel; set_solver). by apply list_elem_of_filter in Hin as [_ ?]. }
  unfold GetTask. rewrite Htrim, Htask. cbn [fmap option_fmap option_map].
  destruct (to_tasks _ Hs _ _ Htask) as (_ & Hwf & _). rewrite cloneTaskDefinition_id by done.
  set (x := record_step task (rn_Overrides r) step now ended).
  pose proof (record_step_outcome task (rn_Overrides r) step now ended) as Hx. fold x in Hx. cbv zeta in Hx.
  pose proof (record_step_fields task (rn_Overrides r) step now ended) as (Hname & _ & _ & _). fold x in Hname.
  split; [done|]. split; cbn; [done| |rewrite length_app; cbn; lia|by repeat case_match].
  exists plan, (done ++ [step]). rewrite <-app_assoc. repeat split; [done..| |].
  - apply Forall2_app; [done|]. constructor; [|constructor]. by exists task, now, ended.
  - destruct (xs_Error x) as [err|] eqn:Herr; [|rewrite Forall_app, Forall_singleton; split; [done|by left]].
    destruct Hx as [_ Hx]. destruct (ps_ContinueOnError step).
    + rewrite Forall_app, Forall_singleton. split; [done|by apply Hx].
    + cbn. exists (rn_Steps r), x, err. rewrite Hname. repeat split; try done; by intros ?%Hx.
Qed.

Lemma run_finish_ok tasks plans status err ended r e s r' s' :
  rn_Phase r = Finishing status err → tf_executions s !! rn_ID r = Some e → run_ok tasks plans r e →
  run_finish status err ended r s = (r', s') →
  rn_ID r' = rn_ID r ∧ ∃ e', run_ok tasks plans r' e' ∧
    s' = s <| tf_executions := <[rn_ID r := e']> (tf_executions s) |> <| tf_canceled := tf_canceled s ∖ {[rn_ID r]} |>.
Proof.
  intros Hph He [Hid (plan & done & Hplan & Hsel & Hcount & Hrec & Hphase) Hc Hs] Hfin. rewrite Hph in *.
  unfold run_finish in Hfin. rewrite He in Hfin.
  assert (bool_decide (status ∈ [TaskRunning; TaskPending]) = false) as Hst.
  { apply bool_decide_eq_false. intros Hin. destruct status; try done; set_solver. }
  rewrite Hst, cloneTaskExecution_id in Hfin by (cbn; by eapply recorded_clone). simplify_eq. split; [done|].
  eexists. split; [|done]. split; cbn; [done| |done|done].
  by exists plan, done.
Qed.

Lemma run_turn_ok now r e s r' s' :
  tasks_ok s → tf_executions s !! rn_ID r = Some e → run_ok (tf_tasks s) (tf_plans s) r e → run_turn now r s = (r', s') →
  rn_ID r' = rn_ID r ∧ ∃ e', run_ok (tf_tasks s) (tf_plans s) r' e' ∧ ∃ canceled,
    s' = s <| tf_executions := <[rn_ID r := e']> (tf_executions s) |> <| tf_canceled := canceled |>.
Proof.
  intros Hs He Hok. unfold run_turn. destruct (rn_Phase r) eqn:Hph.
  - intros Hb. by destruct (run_begin_ok _ _ _ _ _ _ _ _ Hph He Hok Hb) as (Hid & e' & -> & ?); eauto.
  - intros [= <- <-]. destruct (run_check_ok (tf_tasks s) (tf_plans s) now r e s Hph Hok) as [Hid Hok'].
    split; [done|]. exists e. split; [done|]. exists (tf_canceled s). rewrite insert_id by done. by destruct s.
  - intros [= <- <-]. destruct (run_body_ok s now0 now r e Hph Hs Hok) as [Hid Hok'].
    split; [done|]. exists e. split; [done|]. exists (tf_canceled s). rewrite insert_id by done. by destruct s.
  - intros Hb. destruct (run_finish_ok _ _ _ _ _ _ _ _ _ _ Hph He Hok Hb) as (Hid & e' & ? & ->). eauto.
  - intros [= <- <-]. split; [done|]. exists e. split; [done|]. exists (tf_canceled s). rewrite insert_id by done. by destruct s.
Qed.

Definition cancelled (now : Time) (e : TaskExecution) : TaskExecution :=
  e <| ex_Status := TaskCanceled |> <| ex_Error := RunCanceled |> <| ex_EndedAt := now |>.

Lemma CancelExecution_cases id now s s' a :
  CancelExecution id now s = (s', a) →
  s' = s ∨ ∃ e, tf_executions s !! TrimSpace id = Some e ∧ terminal (ex_Status e) = false ∧
    s' = s <| tf_canceled := {[TrimSpace id]} ∪ tf_canceled s |>
           <| tf_executions := <[TrimSpace id := cloneTaskExecution (cancelled now e)]> (tf_executions s) |>.
Proof.
  unfold CancelExecution. destruct (tf_executions s !! TrimSpace id) as [e|] eqn:He; [|intros [= <- _]; by left].
  destruct (terminal (ex_Status e)) eqn:Ht; intros [= <- _]; [by left|right]. by exists e.
Qed.

Lemma outcome_ok_terminal n xs status err : outcome_ok n xs status err → terminal status = true.
Proof. intros Ho. apply bool_decide_eq_true. destruct status; try done; set_solver. Qed.

Lemma run_ok_active tasks plans r e :
  run_ok tasks plans r e → terminal (ex_Status e) = false → rn_Phase r ≠ Returned ∧ unfinished e.
Proof.
  intros [_ (plan & done & _ & _ & _ & _ & Hphase) _ Hs] Ht.
  destruct (rn_Phase r); try done. apply outcome_ok_terminal in Hphase. congruence.
Qed.

Lemma cancelled_ok tasks plans now r e :
  run_ok tasks plans r e → terminal (ex_Status e) = false → run_ok tasks plans r (cloneTaskExecution (cancelled now e)).
Proof.
  intros Hok Ht. destruct (run_ok_active _ _ _ _ Hok Ht) as [Hne (_ & Hsteps & Hcomp)].
  rewrite cloneTaskExecution_id by (cbn; by rewrite Hsteps).
  destruct Hok as [Hid (plan & done & Hplan & Hsel & Hcount & Hrec & Hphase) Hc Hs].
  split; cbn; [done| |done|].
  - exists plan, done. repeat split; try done. by destruct (rn_Phase r).
  - destruct (rn_Phase r); try done; (split; [set_solver|done]).
Qed.

Lemma tasks_ok_executions s ex ca : tasks_ok s → tasks_ok (s <| tf_executions := ex |> <| tf_canceled := ca |>).
Proof. intros [Hc Ht Hp]. by split. Qed.

Record system_ok (n : Z) (y : System) : Prop := {
  so_tasks : tasks_ok (sy_store y);
  so_count : tf_nextTaskID (sy_store y) ≤ n ∧ tf_nextPlanID (sy_store y) ≤ n ∧ tf_nextExecution (sy_store y) ≤ n;
  so_runs id : match sy_runs y !! id, tf_executions (sy_store y) !! id with
    | Some r, Some e => rn_ID r = id ∧ run_ok (tf_tasks (sy_store y)) (tf_plans (sy_store y)) r e ∧
        numbered "taskexec-" (tf_nextExecution (sy_store y)) id
    | None, None => True
    | _, _ => False
    end;
}.

Lemma initial_ok : system_ok 0 initial.
Proof. split; cbn; [split; cbn; [done|apply map_Forall_empty..]|done|]. intros id. by rewrite !lookup_empty. Qed.

Lemma system_ok_le n m y : n ≤ m → system_ok n y → system_ok m y.
Proof. intros Hnm [Hs Hc Hr]. split; [done|lia|done]. Qed.

(** Tasks and plans may grow, the executions and goroutines stay. *)
Lemma system_ok_grow n m y s :
  system_ok n y → n ≤ m → tasks_ok s → tf_tasks (sy_store y) ⊆ tf_tasks s → tf_plans (sy_store y) ⊆ tf_plans s →
  tf_executions s = tf_executions (sy_store y) → tf_nextExecution s = tf_nextExecution (sy_store y) →
  tf_nextTaskID s ≤ m → tf_nextPlanID s ≤ m → system_ok m (mkSystem s (sy_runs y)).
Proof.
  intros [_ Hc Hr] Hnm Hs Ht Hp He Hn Hm1 Hm2. split; cbn; [done|lia|]. intros id. specialize (Hr id). rewrite He, Hn.
  repeat case_match; try done. destruct Hr as (? & ? & ?). split; [done|]. split; [by eapply run_ok_mono|done].
Qed.

(** One goroutine and its execution change. *)
Lemma system_ok_put n y r e ca :
  system_ok n y → is_Some (sy_runs y !! rn_ID r) →
  run_ok (tf_tasks (sy_store y)) (tf_plans (sy_store y)) r e →
  system_ok n (mkSystem ((sy_store y) <| tf_executions := <[rn_ID r := e]> (tf_executions (sy_store y)) |> <| tf_canceled := ca |>)
    (<[rn_ID r := r]> (sy_runs y))).
Proof.
  intros [Hs Hc Hr] [old Hold] Hok. split; cbn; [by apply tasks_ok_executions|done|]. intros id.
  destruct (decide (id = rn_ID r)) as [->|Hne]; [|rewrite !lookup_insert_ne by done; apply Hr].
  rewrite !lookup_insert_eq. specialize (Hr (rn_ID r)). rewrite Hold in Hr.
  destruct (tf_executions (sy_store y) !! rn_ID r); [|done]. destruct Hr as (_ & _ & ?). done.
Qed.
Lemma StartExecution_cases i now s s' a :
  tasks_ok s → StartExecution i now s = (s', a) →
  match a with
  | Err _ => s' = s
  | Ok (e, r) =>
      let next := tf_nextExecution s + 1 in
      rn_ID r = "taskexec-" +:+ itoa next ∧ run_ok (tf_tasks s) (tf_plans s) r e ∧
      s' = s <| tf_nextExecution := next |> <| tf_executions := <[rn_ID r := e]> (tf_executions s) |>
  end.
Proof.
  intros Hs. unfold StartExecution. destruct (eqs _ ""); [by intros [= <- <-]|].
  destruct (tf_plans s !! _) as [plan|] eqn:Hplan; [|by intros [= <- <-]].
  destruct (to_plans _ Hs _ _ Hplan) as (Hid & Hwf & _). rewrite (cloneTaskPlan_id s plan) by done.
  unfold put_execution. rewrite cloneTaskExecution_id by done. intros [= <- <-]. split; [done|]. split; [|done].
  split; cbn; [done| |done|split; [set_solver|done]].
  exists plan, []. rewrite Hid. repeat split; [done|constructor].
Qed.

Lemma system_step_ok n c now y : system_ok n y → n < max_int64 → 0 ≤ n → system_ok (n + 1) (system_step c now y).
Proof.
  intros Hy Hn H0n. pose proof Hy as [Hs (Hc1 & Hc2 & Hc3) Hr]. destruct c as [i|i|i|id|id]; simpl.
  - destruct (RegisterTask i now (sy_store y)) as [s a] eqn:Ha; cbn.
    destruct (RegisterTask_tasks_ok _ _ _ _ _ Hs ltac:(lia) Ha) as [Hs' Hsub]. apply RegisterTask_Ok in Ha.
    destruct a as [t|e]; [destruct Ha as (_ & _ & ->)|subst s]; eapply system_ok_grow; try done; cbn; lia.
  - destruct (RegisterPlan i now (sy_store y)) as [s a] eqn:Ha; cbn.
    destruct (RegisterPlan_tasks_ok _ _ _ _ _ Hs ltac:(lia) Ha) as (Hs' & Heq & Hsub). apply RegisterPlan_Ok in Ha; [|done].
    destruct a as [t|e]; [destruct Ha as (p & _ & _ & _ & ->)|subst s]; eapply system_ok_grow; try done; cbn; lia.
  - destruct (StartExecution i now (sy_store y)) as [s a] eqn:Ha. apply StartExecution_cases in Ha; [|done].
    destruct a as [[e r]|e]; [|subst s; apply (system_ok_le n); [lia|by destruct y]].
    destruct Ha as (Hid & Hok & ->). split; cbn; [|lia|].
    { destruct Hs as [Hc Ht Hp]. split; cbn; [lia|done|done]. }
    intros id. destruct (decide (id = rn_ID r)) as [->|Hne].
    + rewrite !lookup_insert_eq. split; [done|]. split; [done|]. rewrite Hid. apply numbered_next, Hs.
    + rewrite !lookup_insert_ne by done. specialize (Hr id). repeat case_match; try done.
      destruct Hr as (? & ? & ?). split; [done|]. split; [done|]. eapply numbered_mono; [|done]. lia.
  - destruct (CancelExecution id now (sy_store y)) as [s a] eqn:Ha. apply CancelExecution_cases in Ha.
    destruct Ha as [->|(e & He & Ht & ->)]; cbn; [apply (system_ok_le n); [lia|by destruct y]|].
    pose proof (Hr (TrimSpace id)) as Hid. rewrite He in Hid. destruct (sy_runs y !! TrimSpace id) as [r|] eqn:Hrun; [|done].
    destruct Hid as (Hid & Hok & _). rewrite <-Hid in Hrun |- *.
    apply (system_ok_le n); [lia|]. rewrite <-(insert_id (sy_runs y) (rn_ID r) r) by done.
    apply (system_ok_put n y r _ ({[rn_ID r]} ∪ tf_canceled (sy_store y))); [done|by eexists|by apply cancelled_ok].
  - destruct (sy_runs y !! id) as [r|] eqn:Hrun; [|apply (system_ok_le n); [lia|done]].
    destruct (run_turn now r (sy_store y)) as [r' s'] eqn:Ht. pose proof (Hr id) as Hid. rewrite Hrun in Hid.
    destruct (tf_executions (sy_store y) !! id) as [e|] eqn:He; [|done]. destruct Hid as (<- & Hok & _).
    destruct (run_turn_ok _ _ _ _ _ _ Hs He Hok Ht) as (Hid' & e' & Hok' & ca & ->). rewrite <-Hid' in *.
    apply (system_ok_le n); [lia|]. apply system_ok_put; [done|by eexists|done].
Qed.

Lemma reached_ok h n y :
  system_ok n y → 0 ≤ n → n + Z.of_nat (length h) ≤ max_int64 → system_ok (n + Z.of_nat (length h)) (history h y).
Proof.
  revert n y. induction h as [|c h IH]; intros n y Hy Hpos Hn; [by replace (n + Z.of_nat (length [])) with n by (cbn; lia)|].
  rewrite length_cons in Hn |- *. replace (n + Z.of_nat (S (length h))) with ((n + 1) + Z.of_nat (length h)) by lia.
  apply IH; [|lia|lia]. apply system_step_ok; [done|lia|done].
Qed.

(** Every reachable state is well formed. *)
Lemma reachable_ok h : Z.of_nat (length h) ≤ max_int64 → system_ok (Z.of_nat (length h)) (history h initial).
Proof. intros Hh. apply (reached_ok h 0 initial); [apply initial_ok|lia|lia]. Qed.
End keeping.

(** ** Progress and cancellation *)

Section progress.
Context `{RangeOrder}.

(** How many turns a goroutine has left. *)
Definition turns_left (r : Run) : nat :=
  match rn_Phase r with
  | Starting => 2 * length (rn_Rest r) + 3
  | Looping => 2 * length (rn_Rest r) + 2
  | InBody _ => 2 * length (rn_Rest r) + 1
  | Finishing _ _ => 1
  | Returned => 0
  end.

Lemma turns_left_0 r : turns_left r = 0%nat ↔ rn_Phase r = Returned.
Proof. unfold turns_left. destruct (rn_Phase r); split; try done; lia. Qed.

Lemma run_turn_progress now r s :
  (∀ t, rn_Phase r = InBody t → rn_Rest r ≠ []) → (turns_left (run_turn now r s).1 ≤ turns_left r - 1)%nat.
Proof.
  intros Hb. unfold run_turn, turns_left at 2. destruct (rn_Phase r) as [| |t|st err|] eqn:Hph.
  - unfold run_begin. destruct (tf_executions s !! rn_ID r); cbn; lia.
  - unfold run_check, turns_left. destruct (rn_Rest r) as [|step rest] eqn:Hr; cbn; [lia|].
    destruct (negb _); [|destruct (bool_decide _)]; cbn; rewrite ?Hr; cbn; lia.
  - specialize (Hb t eq_refl). unfold run_body. destruct (rn_Rest r) as [|step rest] eqn:Hr; [done|].
    destruct (GetTask (ps_TaskID step) s) as [task|]; unfold turns_left; cbn; [|lia].
    destruct (xs_Error _); [destruct (ps_ContinueOnError step)|]; lia.
  - unfold run_finish. destruct (tf_executions s !! rn_ID r); cbn; lia.
  - cbn. unfold turns_left. rewrite Hph. lia.
Qed.

Lemma run_ok_body tasks plans r e t : run_ok tasks plans r e → rn_Phase r = InBody t → rn_Rest r ≠ [].
Proof. intros [_ (plan & done & _ & _ & _ & _ & Hphase) _ _] Hph. rewrite Hph in Hphase. by destruct Hphase. Qed.

(** A goroutine is changed by its own turns only. *)
Definition own_turn (c : task_call) (id : string) : bool :=
  match c with Turn id' => eqs id' id | _ => false end.

Lemma system_step_runs n c now y id r :
  system_ok n y → n < max_int64 → sy_runs y !! id = Some r →
  sy_runs (system_step c now y) !! id = Some (if own_turn c id then (run_turn now r (sy_store y)).1 else r).
Proof.
  intros [Hs (_ & _ & Hc) Hr] Hn Hid. destruct c as [i|i|i|id'|id']; simpl; try done.
  - destruct (StartExecution i now (sy_store y)) as [s a] eqn:Ha. apply StartExecution_cases in Ha; [|done].
    destruct a as [[e r']|e]; [|done]. destruct Ha as (Hid' & _ & _). cbn. rewrite lookup_insert_ne; [done|].
    intros <-. specialize (Hr (rn_ID r')). rewrite Hid in Hr. destruct (tf_executions (sy_store y) !! _); [|done].
    destruct Hr as (_ & _ & Hnum). rewrite Hid' in Hnum. apply numbered_fresh in Hnum; [done|].
    pose proof (to_counters _ Hs). lia.
  - destruct (eqs id' id) eqn:E.
    + apply eqs_true in E as ->. rewrite Hid. destruct (run_turn now r (sy_store y)) as [r' s']. cbn. by rewrite lookup_insert_eq.
    + apply eqs_false in E. destruct (sy_runs y !! id') as [r'|]; [|done]. destruct (run_turn now r' (sy_store y)). cbn.
      by rewrite lookup_insert_ne.
Qed.

Definition turns_of (id : string) (h : list (task_call * Time)) : nat := length (filter (λ c, own_turn c.1 id = true) h).

Lemma history_progress h n y id r :
  system_ok n y → 0 ≤ n → n + Z.of_nat (length h) ≤ max_int64 → sy_runs y !! id = Some r →
  ∃ r', sy_runs (history h y) !! id = Some r' ∧ (turns_left r' ≤ turns_left r - turns_of id h)%nat.
Proof.
  revert n y r. induction h as [|[c now] h IH]; intros n y r Hy Hpos Hn Hid; [exists r; split; [done|cbn; lia]|].
  rewrite length_cons in Hn. pose proof (system_step_runs n c now y id r Hy ltac:(lia) Hid) as Hstep.
  destruct (IH (n + 1) _ _ (system_step_ok n c now y Hy ltac:(lia) Hpos) ltac:(lia) ltac:(lia) Hstep) as (r' & Hr' & Hle).
  exists r'. split; [done|]. unfold turns_of in *. rewrite filter_cons. cbn [fst].
  destruct (own_turn c id); [|rewrite decide_False by done; lia]. rewrite decide_True, length_cons by done.
  assert (turns_left (run_turn now r (sy_store y)).1 ≤ turns_left r - 1)%nat; [|lia].
  apply run_turn_progress. intros t. pose proof (so_runs _ _ Hy id) as Hok. rewrite Hid in Hok.
  destruct (tf_executions (sy_store y) !! id) as [e|]; [|done]. destruct Hok as (_ & Hok & _). by eapply run_ok_body.
Qed.

(** Past a cancellation: what may still be recorded. *)
Definition recordable (r : Run) : nat := length (rn_Steps r) + match rn_Phase r with InBody _ => 1 | _ => 0 end.

Definition stopping (s : TaskFrameworkStore) (r : Run) : Prop :=
  match rn_Phase r with
  | Finishing _ _ | Returned => True
  | _ => rn_ID r ∈ tf_canceled s
  end.

Lemma run_turn_stopping now r s :
  stopping s r → rn_ID (run_turn now r s).1 = rn_ID r →
  stopping (run_turn now r s).2 (run_turn now r s).1 ∧ (recordable (run_turn now r s).1 ≤ recordable r)%nat.
Proof.
  unfold stopping, recordable, run_turn. intros Hs Hid. destruct (rn_Phase r) as [| |t|st err|] eqn:Hph.
  - unfold run_begin. destruct (tf_executions s !! rn_ID r); cbn; split; try done; lia.
  - cbn [fst snd]. unfold run_check. cbn. rewrite bool_decide_true by done.
    destruct (rn_Rest r); [cbn; split; [done|lia]|]. destruct (negb _); cbn; (split; [done|lia]).
  - cbn [fst snd]. cbn in Hid. unfold run_body in *. destruct (rn_Rest r) as [|step rest]; [rewrite Hph; split; [done|lia]|].
    destruct (GetTask (ps_TaskID step) s) as [task|]; cbn; [|split; [done|lia]]. rewrite length_app. cbn.
    destruct (xs_Error _); [destruct (ps_ContinueOnError step)|]; cbn; (split; [done|lia]).
  - unfold run_finish. destruct (tf_executions s !! rn_ID r); cbn; split; try done; lia.
  - cbn. rewrite Hph. split; [done|lia].
Qed.

(** Only the end of its own goroutine forgets a cancellation. *)
Lemma run_turn_canceled now r s id : id ≠ rn_ID r → id ∈ tf_canceled s → id ∈ tf_canceled (run_turn now r s).2.
Proof.
  intros Hne Hin. unfold run_turn. destruct (rn_Phase r); cbn; try done.
  - unfold run_begin. by destruct (tf_executions s !! rn_ID r).
  - unfold run_finish. destruct (tf_executions s !! rn_ID r); [|done]. cbn. set_solver.
Qed.

Lemma system_step_canceled n c now y id :
  system_ok n y → own_turn c id = false → id ∈ tf_canceled (sy_store y) → id ∈ tf_canceled (sy_store (system_step c now y)).
Proof.
  intros [Hs _ Hr] Hown Hin. destruct c as [i|i|i|id'|id']; simpl in *.
  - destruct (RegisterTask i now (sy_store y)) as [s a] eqn:Ha. apply RegisterTask_Ok in Ha.
    destruct a; [destruct Ha as (_ & _ & ->)|subst]; done.
  - destruct (RegisterPlan i now (sy_store y)) as [s a] eqn:Ha. apply RegisterPlan_Ok in Ha; [|done].
    destruct a; [destruct Ha as (p & _ & _ & _ & ->)|subst]; done.
  - destruct (StartExecution i now (sy_store y)) as [s a] eqn:Ha. apply StartExecution_cases in Ha; [|done].
    destruct a as [[e r]|e]; [destruct Ha as (_ & _ & ->)|subst]; done.
  - destruct (CancelExecution id' now (sy_store y)) as [s a] eqn:Ha. apply CancelExecution_cases in Ha.
    destruct Ha as [->|(e & _ & _ & ->)]; [done|]. cbn. set_solver.
  - destruct (sy_runs y !! id') as [r|] eqn:Hrun; [|done]. pose proof (Hr id') as Hid. rewrite Hrun in Hid.
    destruct (tf_executions (sy_store y) !! id'); [|done]. destruct Hid as (<- & _).
    pose proof (run_turn_canceled now r (sy_store y) id) as Hc. destruct (run_turn now r (sy_store y)). cbn in *.
    apply Hc; [|done]. apply eqs_false in Hown. congruence.
Qed.

Lemma system_step_stopping n c now y id r :
  system_ok n y → n < max_int64 → sy_runs y !! id = Some r → stopping (sy_store y) r →
  ∃ r', sy_runs (system_step c now y) !! id = Some r' ∧ stopping (sy_store (system_step c now y)) r' ∧
    (recordable r' ≤ recordable r)%nat.
Proof.
  intros Hy Hn Hid Hs. rewrite (system_step_runs n) with (r := r) by done. eexists. split; [done|].
  pose proof (so_runs _ _ Hy id) as Hok. rewrite Hid in Hok.
  destruct (tf_executions (sy_store y) !! id) as [e|] eqn:He; [|done]. destruct Hok as (<- & Hok & _).
  destruct (own_turn c (rn_ID r)) eqn:Hown.
  - destruct c as [| | | |id']; try done. apply eqs_true in Hown as ->. simpl. rewrite Hid.
    destruct (run_turn now r (sy_store y)) as [r' s'] eqn:Ht.
    destruct (run_turn_ok _ _ _ _ _ _ (so_tasks _ _ Hy) He Hok Ht) as (Hid' & _).
    pose proof (run_turn_stopping now r (sy_store y) Hs) as Hst. rewrite Ht in Hst. by apply Hst.
  - split; [|done]. unfold stopping in *. destruct (rn_Phase r); try done; by eapply system_step_canceled.
Qed.

Lemma history_stopping h n y id r :
  system_ok n y → 0 ≤ n → n + Z.of_nat (length h) ≤ max_int64 → sy_runs y !! id = Some r → stopping (sy_store y) r →
  ∃ r', sy_runs (history h y) !! id = Some r' ∧ (recordable r' ≤ recordable r)%nat.
Proof.
  revert n y r. induction h as [|[c now] h IH]; intros n y r Hy Hpos Hn Hid Hs; [by exists r|].
  rewrite length_cons in Hn.
  destruct (system_step_stopping n c now y id r Hy ltac:(lia) Hid Hs) as (r1 & Hr1 & Hs1 & Hle).
  destruct (IH (n + 1) _ _ (system_step_ok n c now y Hy ltac:(lia) Hpos) ltac:(lia) ltac:(lia) Hr1 Hs1) as (r' & Hr' & Hle').
  exists r'. split; [done|lia].
Qed.

(** An accepted cancellation stops the goroutine within one step. *)
Lemma cancel_stops n y cid now h r e :
  system_ok n y → 0 ≤ n → n + Z.of_nat (S (length h)) ≤ max_int64 →
  tf_executions (sy_store y) !! TrimSpace cid = Some e → terminal (ex_Status e) = false →
  sy_runs y !! TrimSpace cid = Some r →
  ∃ r', sy_runs (history ((CallCancelExecution cid, now) :: h) y) !! TrimSpace cid = Some r' ∧
    (length (rn_Steps r') ≤ length (rn_Steps r) + 1)%nat.
Proof.
  intros Hy Hpos Hn He Ht Hid. set (id := TrimSpace cid) in *.
  pose proof (system_step_ok n (CallCancelExecution cid) now y Hy ltac:(lia) Hpos) as Hy'.
  pose proof (system_step_runs n (CallCancelExecution cid) now y id r Hy ltac:(lia) Hid) as Hid'. cbn [own_turn] in Hid'.
  pose proof (so_runs _ _ Hy id) as Hok. rewrite Hid, He in Hok. destruct Hok as (Hrid & Hok & _).
  assert (stopping (sy_store (system_step (CallCancelExecution cid) now y)) r) as Hs.
  { unfold stopping. assert (rn_ID r ∈ tf_canceled (sy_store (system_step (CallCancelExecution cid) now y))) as Hin;
      [|by destruct (rn_Phase r)]. simpl. unfold CancelExecution. fold id. rewrite He, Ht, Hrid. cbn. set_solver. }
  destruct (history_stopping h _ _ _ _ Hy' ltac:(lia) ltac:(lia) Hid' Hs) as (r' & Hr' & Hle).
  exists r'. split; [done|]. unfold recordable in Hle. destruct (rn_Phase r), (rn_Phase r'); lia.
Qed.

(** Without overrides a step does as it did when the plan was registered. *)
Lemma record_step_planned s ov step now ended task :
  tasks_ok s → step_wf (tf_tasks s) step → tf_tasks s !! ps_TaskID step = Some task → ov !! ps_Name step = None →
  xs_Status (record_step task ov step now ended) = TaskSucceeded.
Proof.
  intros Hs Hstep Htask Hov. pose proof (step_wf_clean _ _ Hs Hstep) as Hclean.
  destruct Hstep as (_ & _ & task' & Htask' & Hp). rewrite Htask in Htask'. simplify_eq.
  unfold record_step, step_parameters. rewrite Hov. cbn [override_params]. rewrite cloneTaskAnyMap_id by done.
  by rewrite Hp.
Qed.

Definition execution_step_masked (s : TaskFrameworkStore) (x : TaskExecutionStep) : Prop :=
  ∃ task, tf_tasks s !! xs_TaskID x = Some task ∧ masked task (xs_Parameters x).

Lemma recorded_masked s ov step x : recorded (tf_tasks s) ov step x → execution_step_masked s (cloneTaskExecutionStep x).
Proof.
  intros (task & now & ended & Htask & ->). rewrite record_step_clone. exists task.
  destruct (record_step_fields task ov step now ended) as (_ & -> & _ & m & ->). split; [done|apply maskTaskParameters_masked].
Qed.

Lemma execution_masked n y id e :
  system_ok n y → tf_executions (sy_store y) !! id = Some e →
  Forall (execution_step_masked (sy_store y)) (ex_Steps (cloneTaskExecution e)).
Proof.
  intros Hy He. pose proof (so_runs _ _ Hy id) as Hok. rewrite He in Hok.
  destruct (sy_runs y !! id) as [r|]; [|done]. destruct Hok as (_ & Hok & _). cbn.
  destruct (ro_plan _ _ _ _ Hok) as (plan & done & _ & _ & _ & Hrec & _).
  assert (ex_Steps e = [] ∨ ex_Steps e = rn_Steps r) as [->| ->]; [|constructor|].
  { pose proof (ro_shown _ _ _ _ Hok) as Hsh. destruct (rn_Phase r); [left; apply Hsh..|right; apply Hsh]. }
  apply Forall_fmap. clear Hok. induction Hrec as [|step x steps xs Hx _ IH]; constructor; [|done].
  by eapply recorded_masked.
Qed.

Lemma recorded_planned s plan e ov k xs :
  tasks_ok s → plan_wf (tf_tasks s) plan → (∀ step, step ∈ selected plan e → ov !! ps_Name step = None) →
  Forall2 (recorded (tf_tasks s) ov) (take k (selected plan e)) xs → Forall (λ x, xs_Status x = TaskSucceeded) xs.
Proof.
  intros Hs [Hwf _] Hov Hrec. apply Forall_forall. intros x Hx. apply list_elem_of_lookup_1 in Hx as [i Hx].
  apply (Forall2_lookup_r _ _ _ _ _ Hrec) in Hx as (step & Hstep & task & now & ended & Htask & ->).
  apply list_elem_of_lookup_2, elem_of_take in Hstep as (j & Hj & _). apply list_elem_of_lookup_2 in Hj.
  eapply record_step_planned; [done| |done|by apply Hov].
  rewrite Forall_forall in Hwf. apply Hwf. by apply list_elem_of_filter in Hj as [_ ?].
Qed.

Lemma outcome_ok_not_failed n xs status err :
  outcome_ok n xs status err → Forall (λ x, xs_Status x = TaskSucceeded) xs → status ≠ TaskFailed.
Proof.
  intros Ho Hxs ->. destruct Ho as (xs' & x & e & -> & _ & Hx & _). rewrite Forall_app, Forall_singleton in Hxs.
  apply Hx. left. apply Hxs.
Qed.
End progress.

(** ** The claims *)

Section claims.
Context `{RangeOrder}.

(** C32: Parameters.  In every reachable state a task resolves an input exactly
    to the values its declarations call for: every parameter is declared, every
    given or defaulted one is of its type and normalised, and what is missing is
    not required; resolving again changes nothing.  So the parameters a plan
    keeps never fail later: a preview of a plan whose overrides name none of its
    steps succeeds, on all its steps in order. *)
Theorem task_parameters h :
  Z.of_nat (length h) ≤ max_int64 →
  let s := sy_store (history h initial) in
  (∀ id task, tf_tasks s !! id = Some task →
    (∀ input q, resolveTaskParameters task input = Ok q ↔ resolves task input q) ∧
    (∀ input q, resolveTaskParameters task input = Ok q → resolveTaskParameters task q = Ok q)) ∧
  (∀ planID plan ov, tf_plans s !! TrimSpace planID = Some plan →
    (∀ step, step ∈ tp_Steps plan → clone_overrides ov !! ps_Name step = None) →
    ∃ out, PreviewPlan planID ov s = Ok out ∧ pv_Name <$> pw_Steps out = ps_Name <$> tp_Steps plan).
Proof.
  intros Hh s. destruct (reachable_ok h Hh) as [Hs _ _]. fold s in Hs. split.
  - intros id task Htask. destruct (to_tasks _ Hs _ _ Htask) as (_ & Hwf & _). split.
    + intros input q. by apply resolveTaskParameters_iff.
    + intros input q. by apply resolve_idemp.
  - intros planID plan ov Hplan Hov. destruct (to_plans _ Hs _ _ Hplan) as (_ & [Hwf _] & _).
    by apply PreviewPlan_planned.
Qed.

(** C33: Redaction.  In every reachable state, whatever plans, previews and
    executions are asked for: a parameter that the task of the step declares
    sensitive is shown as redacted or not at all, in every answer and in every
    recorded step, failed ones included; the other parameters of a plan are
    shown as they are kept. *)
Theorem task_redaction h :
  Z.of_nat (length h) ≤ max_int64 →
  let s := sy_store (history h initial) in
  (∀ planID shown, GetPlan planID s = Some shown →
    ∃ plan, tf_plans s !! TrimSpace planID = Some plan ∧ plan_shown s plan shown) ∧
  (∀ shown, shown ∈ ListTaskPlans s → ∃ id plan, tf_plans s !! id = Some plan ∧ plan_shown s plan shown) ∧
  (∀ i now s' shown, RegisterPlan i now s = (s', Ok shown) →
    ∃ plan, tf_plans s' !! tp_ID plan = Some plan ∧ plan_shown s plan shown) ∧
  (∀ planID ov out, PreviewPlan planID ov s = Ok out →
    Forall (λ step, ∃ task, tf_tasks s !! pv_TaskID step = Some task ∧ masked task (pv_Parameters step)) (pw_Steps out)) ∧
  (∀ id e, GetExecution id s = Some e → Forall (execution_step_masked s) (ex_Steps e)) ∧
  (∀ limit e, e ∈ ListExecutions limit s → Forall (execution_step_masked s) (ex_Steps e)).
Proof.
  intros Hh s. pose proof (reachable_ok h Hh) as Hy. pose proof (so_tasks _ _ Hy) as Hs. fold s in Hs.
  assert (∀ id plan, tf_plans s !! id = Some plan → plan_wf (tf_tasks s) plan) as Hwf.
  { intros id plan Hplan. by destruct (to_plans _ Hs _ _ Hplan) as (_ & ? & _). }
  split; [|split; [|split; [|split; [|split]]]].
  - unfold GetPlan. intros planID shown. destruct (tf_plans s !! _) as [plan|] eqn:Hplan; [|done]. intros [= <-].
    exists plan. split; [done|]. apply maskPlanLocked_shown; [done|by eapply Hwf].
  - unfold ListTaskPlans. intros shown. rewrite merge_sort_Permutation.
    intros (plan & -> & ([id ?] & -> & Hin)%list_elem_of_fmap)%list_elem_of_fmap. apply elem_of_map_to_list in Hin.
    exists id. eexists. split; [done|]. apply maskPlanLocked_shown; [done|by eapply Hwf].
  - intros i now s' shown Hr. apply RegisterPlan_Ok in Hr as (plan & -> & Hplan & _ & ->); [|done].
    exists plan. split; [cbn; by rewrite lookup_insert_eq|by apply maskPlanLocked_shown].
  - intros planID ov out. by apply PreviewPlan_masked.
  - unfold GetExecution. intros id e. destruct (tf_executions s !! _) as [e'|] eqn:He; [|done]. intros [= <-].
    by eapply execution_masked.
  - unfold ListExecutions. intros limit e Hin.
    assert (e ∈ merge_sort exec_later (cloneTaskExecution <$> (map_to_list (tf_executions s)).*2)) as Hl.
    { case_match; [|done]. by apply elem_of_take in Hin as (? & ?%list_elem_of_lookup_2 & _). }
    rewrite merge_sort_Permutation in Hl. apply list_elem_of_fmap in Hl as (e' & -> & Hl).
    apply list_elem_of_fmap in Hl as ([id ?] & -> & Hl). apply elem_of_map_to_list in Hl. by eapply execution_masked.
Qed.

(** C34: Executions.  In every reachable state of the store and its goroutines,
    calls and goroutines interleaved in any way: an execution that is not over
    shows no step; one that is over shows the records of a first part of the
    selected steps, in order, and ended as its status says: succeeded when all
    were recorded and each succeeded or may fail, failed on the last recorded
    step, timed out or canceled before the end.  Steps without overrides
    succeed.  Whatever else happens, the goroutine returns within two turns a
    step and three, and after an accepted cancellation it records at most one
    more step. *)
Theorem task_execution h id e :
  Z.of_nat (length h) ≤ max_int64 →
  let y := history h initial in
  tf_executions (sy_store y) !! id = Some e →
  ∃ plan r, tf_plans (sy_store y) !! ex_PlanID e = Some plan ∧ sy_runs y !! id = Some r ∧
  let all := selected plan e in
  ex_StepCount e = Z.of_nat (length all) ∧
  (rn_Phase r ≠ Returned → unfinished e) ∧
  (rn_Phase r = Returned →
    ex_CompletedSteps e = Z.of_nat (length (ex_Steps e)) ∧
    Forall2 (recorded (tf_tasks (sy_store y)) (rn_Overrides r)) (take (length (ex_Steps e)) all) (ex_Steps e) ∧
    outcome_ok (length all) (ex_Steps e) (ex_Status e) (ex_Error e) ∧
    ((∀ step, step ∈ all → rn_Overrides r !! ps_Name step = None) →
      Forall (λ x, xs_Status x = TaskSucceeded) (ex_Steps e) ∧ ex_Status e ≠ TaskFailed)) ∧
  (∀ h', Z.of_nat (length (h ++ h')) ≤ max_int64 → (2 * length all + 3 ≤ turns_of id h')%nat →
    ∃ r', sy_runs (history h' y) !! id = Some r' ∧ rn_Phase r' = Returned) ∧
  (∀ cid now h', Z.of_nat (length (h ++ h')) < max_int64 → TrimSpace cid = id → terminal (ex_Status e) = false →
    ∃ r', sy_runs (history ((CallCancelExecution cid, now) :: h') y) !! id = Some r' ∧
      (length (rn_Steps r') ≤ length (rn_Steps r) + 1)%nat).
Proof.
  intros Hh y He. pose proof (reachable_ok h Hh) as Hy. fold y in Hy. pose proof (so_runs _ _ Hy id) as Hok.
  rewrite He in Hok. destruct (sy_runs y !! id) as [r|] eqn:Hr; [|done]. destruct Hok as (_ & Hok & _).
  destruct (ro_plan _ _ _ _ Hok) as (plan & done & Hplan & Hsel & Hcount & Hrec & Hphase).
  exists plan, r. split; [done|]. split; [done|]. split; [done|]. split; [|split; [|split]].
  - intros Hne. pose proof (ro_shown _ _ _ _ Hok) as Hsh. by destruct (rn_Phase r).
  - intros Hret. pose proof (ro_shown _ _ _ _ Hok) as Hsh. rewrite Hret in Hsh, Hphase. destruct Hsh as [Hsteps Hcomp].
    rewrite Hsteps, Hcomp. pose proof (Forall2_length _ _ _ Hrec) as Hlen.
    assert (take (length (rn_Steps r)) (selected plan e) = done) as Htake.
    { rewrite Hsel, <-Hlen. by apply take_app_length. }
    split; [apply (ro_completed _ _ _ _ Hok)|]. rewrite Htake. split; [done|]. split; [done|]. intros Hov.
    destruct (to_plans _ (so_tasks _ _ Hy) _ _ Hplan) as (_ & Hwf & _). rewrite <-Htake in Hrec.
    pose proof (recorded_planned _ _ _ _ _ _ (so_tasks _ _ Hy) Hwf Hov Hrec) as Hall.
    split; [done|]. by eapply outcome_ok_not_failed.
  - intros h' Hh' Hturns. rewrite length_app in Hh'.
    destruct (history_progress h' _ _ _ _ Hy ltac:(lia) ltac:(lia) Hr) as (r' & Hr' & Hle).
    exists r'. split; [done|]. apply turns_left_0. enough (turns_left r ≤ 2 * length (selected plan e) + 3)%nat by lia.
    rewrite Hsel, length_app. unfold turns_left. destruct (rn_Phase r); lia.
  - intros cid now h' Hh' Hcid Ht. rewrite length_app in Hh'. subst id.
    apply (cancel_stops _ _ _ _ _ _ e Hy); [lia|lia|done..].
Qed.
End claims.

(** ** A concrete history *)

Module Example.
(** Numbers with a half: [float64] is twice its value. *)
#[export] Instance halves : Float64 := {|
  float := Z; float_of_int z := 2 * z; is_whole f := Z.even f; int_of_float f := f `div` 2 |}.
#[export] Instance some_range : RangeOrder := {| order := some_order; override_order := some_order |}.

Definition deploy : TaskDefinitionInput :=
  mkTaskInput " Deploy " "packs/web" "deploy" "" "" [
    mkSpec "service" "" "" true false ANil; mkSpec "token" "String" "" true true ANil;
    mkSpec "replicas" "integer" "" false false (AInt KInt 2)].

Definition rollout : TaskPlanInput :=
  mkTaskPlanInput "prod rollout" "" [
    mkTaskStep "one" "task-1" {["service" := AString "api"; "token" := AString "secret"]} ["Web"] false;
    mkTaskStep "" "task-1" {["service" := AString "db"; "token" := AString "hidden"]} [] true].

Definition start : TaskExecutionInput := mkExecInput "taskplan-1" ∅ [] ["db"] 0 0.
Definition failing : TaskExecutionInput :=
  mkExecInput "taskplan-1" {["one" := {["replicas" := AFloat64 5]}]} ["web"] [] 50 9999.

Definition turn : task_call * Time := (Turn "taskexec-1", 10).

Definition registered : list (task_call * Time) := [(CallRegisterTask deploy, 1); (CallRegisterPlan rollout, 2)].
Definition started : list (task_call * Time) := registered ++ [(CallStartExecution start, 3); (CallStartExecution failing, 4)].
Definition finished : list (task_call * Time) :=
  started ++ repeat turn 7 ++ repeat (Turn "taskexec-2", 11) 5.

(** What is seen of an execution. *)
Definition seen (h : list (task_call * Time)) (id : string) : option (TaskExecutionStatus * list (string * TaskExecutionStatus)) :=
  (λ e, (ex_Status e, (λ x, (xs_Name x, xs_Status x)) <$> ex_Steps e)) <$> tf_executions (sy_store (history h initial)) !! id.
End Example.
Import Example.

Lemma task_parameters_witness :
  let s := sy_store (history Example.finished initial) in
  (∃ task, tf_tasks s !! "task-1" = Some task ∧ ∀ input q, resolveTaskParameters task input = Ok q ↔ resolves task input q) ∧
  (∃ out, PreviewPlan " taskplan-1 " ∅ s = Ok out).
Proof.
  intros s. destruct (task_parameters Example.finished ltac:(by vm_compute)) as [Htasks Hplans]. fold s in Htasks, Hplans. split.
  - assert (is_Some (tf_tasks s !! "task-1")) as [task Htask] by (apply (bool_decide_eq_true_1 (is_Some _)); by vm_compute).
    exists task. split; [done|]. by apply (Htasks "task-1").
  - assert (is_Some (tf_plans s !! TrimSpace " taskplan-1 ")) as [plan Hplan]
      by (apply (bool_decide_eq_true_1 (is_Some _)); by vm_compute).
    destruct (Hplans " taskplan-1 " plan ∅ Hplan) as (out & Hout & _); [by vm_compute|by exists out].
Defined.

Lemma task_redaction_witness :
  let s := sy_store (history Example.finished initial) in
  ∃ plan, tf_plans s !! TrimSpace "taskplan-1" = Some plan ∧ plan_shown s plan (maskPlanLocked s plan).
Proof.
  intros s. destruct (task_redaction Example.finished ltac:(by vm_compute)) as [Hget _]. fold s in Hget.
  assert (is_Some (tf_plans s !! TrimSpace "taskplan-1")) as [plan Hplan]
    by (apply (bool_decide_eq_true_1 (is_Some _)); by vm_compute).
  destruct (Hget "taskplan-1" (maskPlanLocked s plan)) as (plan' & Hplan' & Hshown).
  - unfold GetPlan. by rewrite Hplan.
  - exists plan. split; [done|]. rewrite Hplan in Hplan'. by injection Hplan' as <-.
Defined.

Lemma task_execution_witness :
  let y := history Example.started initial in
  ∃ e r, tf_executions (sy_store y) !! "taskexec-1" = Some e ∧ ex_StepCount e = 2 ∧
    sy_runs (history (repeat Example.turn 7) y) !! "taskexec-1" = Some r ∧ rn_Phase r = Returned.
Proof.
  intros y.
  assert (ex_StepCount <$> tf_executions (sy_store y) !! "taskexec-1" = Some 2) as Hcount by by vm_compute.
  destruct (tf_executions (sy_store y) !! "taskexec-1") as [e|] eqn:He; [|done]. injection Hcount as Hcount.
  destruct (task_execution Example.started "taskexec-1" e ltac:(by vm_compute) He)
    as (plan & r & _ & _ & Hall & _ & _ & Hret & _).
  rewrite Hcount in Hall.
  destruct (Hret (repeat Example.turn 7)) as (r' & Hr' & Hph); [by vm_compute| |exists e, r'; split; [reflexivity|split; [exact Hcount|split; [exact Hr'|exact Hph]]]].
  assert (length (selected plan e) = 2%nat) as -> by lia. vm_compute. lia.
Defined.

(** ** What the model shows *)

(** A cancellation that is accepted may be undone: before the goroutine runs it
    is overwritten with running, after its last check with the outcome. *)
Lemma cancelled_execution_succeeds :
  let late := Example.started ++ repeat Example.turn 4 in
  Example.seen (late ++ [(CallCancelExecution "taskexec-1", 9)]) "taskexec-1" = Some (TaskCanceled, []) ∧
  Example.seen (late ++ (CallCancelExecution "taskexec-1", 9) :: repeat Example.turn 3) "taskexec-1"
    = Some (TaskSucceeded, [("one", TaskSucceeded); ("step-2", TaskSucceeded)]) ∧
  Example.seen (Example.started ++ [(CallCancelExecution "taskexec-1", 9); Example.turn]) "taskexec-1" = Some (TaskRunning, []).
Proof. by vm_compute. Qed.

(** The default of a sensitive parameter is shown by [GetTask]. *)
Lemma sensitive_default_shown :
  ∃ i, let s := (RegisterTask i 1 NewTaskFrameworkStore).1 in
    (λ t, sp_Default <$> tk_Parameters t) <$> GetTask "task-1" s = Some [AString "secret"] ∧
    (λ t, sp_Sensitive <$> tk_Parameters t) <$> GetTask "task-1" s = Some [true].
Proof. exists (mkTaskInput "n" "m" "a" "" "" [mkSpec "token" "" "" false true (AString "secret")]). by vm_compute. Qed.

(** A [uint] above the largest [int64] becomes negative; the same [uint64] is refused. *)
Lemma uint_wraps `{Float64} :
  validateAndNormalizeType "integer" (AInt KUint (2 ^ 64 - 1)) = Ok (AInt KInt64 (-1)) ∧
  validateAndNormalizeType "integer" (AInt KUint64 (2 ^ 64 - 1)) = Err IntegerOverflow.
Proof. done. Qed.
