(* ===== verification/Snapshot.v ===== *)
(** * Plan snapshots: [internal/planner/snapshot.go]

    A plan is saved to a file, and a later plan is compared with it.  The JSON
    encoding of a snapshot is the parameter [SnapshotCodec]; [DiffPlans] is in
    [GraphQuery].  Proved: the comparison with a saved plan is the comparison
    with that plan, also when it is saved in a new directory, and saves under
    other paths do not matter. *)

From S2P Require Import Prelude Model Planner GraphQuery JsonDir.

Record PlanSnapshot : Type := mkSnapshot { sn_Version : string; sn_Plan : option Plan }.

(** [encoding/json] on snapshots. *)
Class SnapshotCodec := {
  MarshalSnapshot : PlanSnapshot → option string;
  UnmarshalSnapshot : string → option PlanSnapshot;
}.

Inductive snapshot_error := SnapshotEncoding | SnapshotWrite | SnapshotRead | SnapshotDecoding.

Section snapshot.
Context `{Digests, SnapshotCodec}.
(** The paths whose directories can be made and that can be written. *)
Variable can_write : string → bool.

Definition SaveSnapshot (path : string) (p : option Plan) (disk : Disk) : Disk * result snapshot_error unit :=
  match MarshalSnapshot (mkSnapshot "v1" p) with
  | None => (disk, Err SnapshotEncoding)
  | Some b => if can_write path then (<[path := b]> disk, Ok tt) else (disk, Err SnapshotWrite)
  end.

Definition LoadSnapshot (path : string) (disk : Disk) : result snapshot_error PlanSnapshot :=
  match disk !! path with
  | None => Err SnapshotRead
  | Some raw =>
      match UnmarshalSnapshot raw with
      | None => Err SnapshotDecoding
      | Some snap => Ok (mkSnapshot (sn_Version snap) (Some (default emptyPlan (sn_Plan snap))))
      end
  end.

Definition CompareSnapshot (path : string) (current : option Plan) (disk : Disk) : result snapshot_error PlanSnapshotDiff :=
  let? snap := LoadSnapshot path disk in Ok (DiffPlans (sn_Plan snap) current).

(** What is saved is read back. *)
Definition saved (p : option Plan) (disk disk' : Disk) (path : string) : Prop :=
  LoadSnapshot path disk' = Ok (mkSnapshot "v1" (Some (default emptyPlan p))) ∧
  ∀ other, other ≠ path → disk' !! other = disk !! other.

Lemma SaveSnapshot_saved path p disk disk' :
  (∀ b, MarshalSnapshot (mkSnapshot "v1" p) = Some b → UnmarshalSnapshot b = Some (mkSnapshot "v1" p)) →
  SaveSnapshot path p disk = (disk', Ok tt) → saved p disk disk' path.
Proof.
  intros Hlaw. unfold SaveSnapshot. destruct (MarshalSnapshot _) as [b|]; [|done].
  destruct (can_write path); [|done]. intros [= <-]. split.
  - unfold LoadSnapshot. by rewrite lookup_insert_eq, (Hlaw b).
  - intros other Hne. by rewrite lookup_insert_ne.
Qed.

(** A plan that was saved, whatever is saved under other paths afterwards, is
    compared step by step: an id is reported exactly when the saved and the
    current plan have different steps for it, in the list that says how, when
    the digests tell their steps apart; and the plan itself matches its own
    snapshot. *)
Theorem snapshot_comparison path p current disk disk1 others disk2 :
  (∀ b, MarshalSnapshot (mkSnapshot "v1" (Some p)) = Some b → UnmarshalSnapshot b = Some (mkSnapshot "v1" (Some p))) →
  (∀ s t, s ∈ p_Steps p → t ∈ p_Steps current → step_digest s = step_digest t → s = t) →
  SaveSnapshot path (Some p) disk = (disk1, Ok tt) →
  Forall (λ o, o.1 ≠ path) others → disk2 = foldl (λ disk o, (SaveSnapshot o.1 o.2 disk).1) disk1 others →
  ∃ d, CompareSnapshot path (Some current) disk2 = Ok d ∧
    (∀ id, id ∈ pd_AddedSteps d ↔ added p current id) ∧ (∀ id, id ∈ pd_RemovedSteps d ↔ removed p current id) ∧
    (∀ id, id ∈ pd_ChangedSteps d ↔ changed p current id) ∧
    (pd_Match d = true ↔ ∀ id, id ≠ "" → step_for p id = step_for current id).
Proof.
  intros Hlaw Hinj Hsave Hothers ->. apply SaveSnapshot_saved in Hsave as [Hload _]; [|done].
  assert (LoadSnapshot path (foldl (λ disk o, (SaveSnapshot o.1 o.2 disk).1) disk1 others) = LoadSnapshot path disk1) as Hsame.
  { revert disk1 Hload. induction Hothers as [|[q r] others Hne _ IH]; intros disk1 Hload; [done|]. cbn [foldl]. cbn in Hne.
    assert (LoadSnapshot path (SaveSnapshot q r disk1).1 = LoadSnapshot path disk1) as Hstep.
    { unfold SaveSnapshot, LoadSnapshot. clear Hlaw. destruct (MarshalSnapshot _); [|done]. destruct (can_write q); [|done]. cbn.
      by rewrite lookup_insert_ne. }
    rewrite IH; [exact Hstep|]. etrans; [exact Hstep|exact Hload]. }
  eexists. split; [unfold CompareSnapshot; rewrite Hsame, Hload; reflexivity|]. split_and!.
  - apply AddedSteps_spec.
  - apply RemovedSteps_spec.
  - intros id. by apply ChangedSteps_spec.
  - by apply DiffPlans_match.
Qed.
End snapshot.

(** A snapshot that was never saved, or is no JSON, is an error and not a difference. *)
Lemma missing_snapshot `{Digests, SnapshotCodec} path current disk :
  disk !! path = None → CompareSnapshot path current disk = Err SnapshotRead.
Proof. intros Hd. unfold CompareSnapshot, LoadSnapshot. by rewrite Hd. Qed.

(** Removing a step marks all later steps as changed: their number is part of
    what is compared. *)
Lemma removal_renumbers :
  let p := plan_or_empty (config_of ["h"] [command_on "h" "a" []; command_on "h" "b" []]) in
  let q := plan_or_empty (config_of ["h"] [command_on "h" "b" []]) in
  let d := @DiffPlans plain_digests (Some p) (Some q) in
  pd_RemovedSteps d = ["a"] ∧ pd_ChangedSteps d = ["b"] ∧ (s_Resource <$> step_for p "b") = (s_Resource <$> step_for q "b").
Proof. vm_compute. repeat split. Qed.

(** A codec for one plan. *)
Definition one_plan_codec : SnapshotCodec := {|
  MarshalSnapshot s := if eqs (sn_Version s) "v1" then Some "old plan" else None;
  UnmarshalSnapshot b := if eqs b "old plan" then Some (mkSnapshot "v1" (Some old_plan)) else None;
|}.

Lemma snapshot_comparison_witness :
  ∃ d, @CompareSnapshot plain_digests one_plan_codec "/plans/a.json" (Some new_plan)
         (@SaveSnapshot one_plan_codec (λ _, true) "/plans/a.json" (Some old_plan) ∅).1 = Ok d ∧
    "c" ∈ pd_AddedSteps d ∧ "b" ∈ pd_ChangedSteps d.
Proof.
  destruct (@snapshot_comparison plain_digests one_plan_codec (λ _, true) "/plans/a.json" old_plan new_plan ∅
    {[ "/plans/a.json" := "old plan" ]} [] {[ "/plans/a.json" := "old plan" ]}) as (d & Hd & HA & _ & HC & _).
  - intros b [= <-]. reflexivity.
  - intros s t Hs Ht.
    repeat (apply elem_of_cons in Hs as [->|Hs]; [|]); [..|by apply elem_of_nil in Hs];
      (repeat (apply elem_of_cons in Ht as [->|Ht]; [|]); [..|by apply elem_of_nil in Ht]);
      vm_compute; discriminate.
  - reflexivity.
  - constructor.
  - reflexivity.
  - exists d. split; [exact Hd|]. split; [apply HA|apply HC].
    + split; [discriminate|]. split; [vm_compute; reflexivity|]. eexists. vm_compute. reflexivity.
    + split; [discriminate|]. do 2 eexists. split; [vm_compute; reflexivity|]. split; [vm_compute; reflexivity|]. discriminate.
Defined.
