(* ===== verification/RoleEnv.v ===== *)
(** * Roles and environments: [internal/control/roleenv.go]

    Roles inherit from other roles, environments adjust them, and a resolution
    merges the attributes of both.  Both are kept in memory and in a directory
    of JSON files each.  The encoding of an item is the parameter [RoleCodec];
    attributes are JSON values.  Proved: a resolution terminates and agrees with
    plain inheritance, cycles and missing roles are reported exactly, later
    layers win, and a new process reads back the store. *)

From S2P Require Import Prelude Path Json JsonDir.

Section records.
Context `{Number}.

Record RoleDefinition : Type := mkRole {
  rd_Name : string;
  rd_Description : string;
  rd_Profiles : list string;
  rd_RunList : list string;
  rd_PolicyGroup : string;
  rd_DefaultAttributes : object;
  rd_OverrideAttributes : object;
  rd_UpdatedAt : Time;
  rd_Source : string;
}.

Record EnvironmentDefinition : Type := mkEnvironment {
  en_Name : string;
  en_Description : string;
  en_PolicyGroup : string;
  en_DefaultAttributes : object;
  en_OverrideAttributes : object;
  en_RunListOverrides : gmap string (list string);
  en_PolicyOverrides : object;
  en_UpdatedAt : Time;
  en_Source : string;
}.

Record RoleEnvironmentResolution : Type := mkResolution {
  re_Role : string;
  re_Environment : string;
  re_RunList : list string;
  re_Attributes : object;
  re_PolicyGroup : string;
  re_Precedence : list string;
  re_ResolvedAt : Time;
}.

Record roleHierarchy : Type := mkHierarchy {
  rh_RunList : list string;
  rh_DefaultAttributes : object;
  rh_OverrideAttributes : object;
  rh_PolicyGroup : string;
  rh_Precedence : list string;
}.

Record RoleEnvironmentStore : Type := mkRoleStore {
  rs_roles : gmap string RoleDefinition;
  rs_environments : gmap string EnvironmentDefinition;
  rs_rolesDir : string;
  rs_envDir : string;
}.
End records.
#[export] Instance RoleDefinition_eta `{Number} : Eta RoleDefinition := λ r,
  mkRole (rd_Name r) (rd_Description r) (rd_Profiles r) (rd_RunList r) (rd_PolicyGroup r) (rd_DefaultAttributes r)
    (rd_OverrideAttributes r) (rd_UpdatedAt r) (rd_Source r).
#[export] Instance EnvironmentDefinition_eta `{Number} : Eta EnvironmentDefinition := λ r,
  mkEnvironment (en_Name r) (en_Description r) (en_PolicyGroup r) (en_DefaultAttributes r) (en_OverrideAttributes r)
    (en_RunListOverrides r) (en_PolicyOverrides r) (en_UpdatedAt r) (en_Source r).
#[export] Instance roleHierarchy_eta `{Number} : Eta roleHierarchy := λ r,
  mkHierarchy (rh_RunList r) (rh_DefaultAttributes r) (rh_OverrideAttributes r) (rh_PolicyGroup r) (rh_Precedence r).
#[export] Instance RoleEnvironmentStore_eta `{Number} : Eta RoleEnvironmentStore := λ r,
  mkRoleStore (rs_roles r) (rs_environments r) (rs_rolesDir r) (rs_envDir r).

Inductive role_error := NameMissing | RoleNotFound | EnvironmentNotFound | InheritanceCycle | WriteFails.

(** [encoding/json] on the two kinds of items. *)
Class RoleCodec `{Number} := {
  role_Marshal : RoleDefinition → option string;
  role_Unmarshal : string → option RoleDefinition;
  environment_Marshal : EnvironmentDefinition → option string;
  environment_Unmarshal : string → option EnvironmentDefinition;
}.

(** ** Normal forms *)

Definition normalizeRoleEnvName (raw : string) : string := norm raw.

Definition normalizeRunList (items : list string) : list string := filter (λ item, item ≠ "") (TrimSpace <$> items).

Definition put_override (out : gmap string (list string)) (e : string * list string) : gmap string (list string) :=
  let roleName := normalizeRoleEnvName e.1 in
  if eqs roleName "" then out else <[roleName := normalizeRunList e.2]> out.

Definition normalizeRunListOverrides (ro : map_order (list string)) (m : gmap string (list string))
    : gmap string (list string) := foldl put_override ∅ (range ro m).

(** Unlike [clean_list] this keeps the order. *)
Definition normalizeRoleProfiles (profiles : list string) : list string := clean_go normalizeRoleEnvName ∅ profiles.

Section store.
Context `{RoleCodec}.
(** The order in which loops meet run list overrides, and the paths that can be written. *)
Variable ro : map_order (list string).
Variable can_write : string → bool.

(** Copies of what is no map or slice of its own are the values themselves. *)
Definition cloneEnvironment (env : EnvironmentDefinition) : EnvironmentDefinition :=
  env <| en_RunListOverrides := normalizeRunListOverrides ro (en_RunListOverrides env) |>.

Definition writeRoleEnvJSON (path : string) (buf : option string) (disk : Disk) : Disk * bool :=
  match buf with
  | Some buf => if can_write path then (<[path := buf +:+ newline]> disk, true) else (disk, false)
  | None => (disk, false)
  end.

Definition Remove (path : string) (disk : Disk) : Disk := if can_write path then delete path disk else disk.

(** ** Operations *)

Definition source_or (source s : string) : string := if eqs (TrimSpace s) "" then source else s.

Definition normal_role (name : string) (role : RoleDefinition) : RoleDefinition :=
  role <| rd_Name := name |> <| rd_Profiles := normalizeRoleProfiles (rd_Profiles role) |>
       <| rd_RunList := normalizeRunList (rd_RunList role) |>.

Definition normal_environment (name : string) (env : EnvironmentDefinition) : EnvironmentDefinition :=
  env <| en_Name := name |> <| en_RunListOverrides := normalizeRunListOverrides ro (en_RunListOverrides env) |>.

Definition upserted_role (role : RoleDefinition) (now : Time) : RoleDefinition :=
  (normal_role (normalizeRoleEnvName (rd_Name role)) role) <| rd_PolicyGroup := TrimSpace (rd_PolicyGroup role) |>
    <| rd_UpdatedAt := now |> <| rd_Source := source_or "api" (rd_Source role) |>.

Definition upserted_environment (env : EnvironmentDefinition) (now : Time) : EnvironmentDefinition :=
  (normal_environment (normalizeRoleEnvName (en_Name env)) env) <| en_PolicyGroup := TrimSpace (en_PolicyGroup env) |>
    <| en_UpdatedAt := now |> <| en_Source := source_or "api" (en_Source env) |>.

Definition UpsertRole (role : RoleDefinition) (now : Time) (s : RoleEnvironmentStore) (disk : Disk)
    : RoleEnvironmentStore * Disk * result role_error RoleDefinition :=
  let name := normalizeRoleEnvName (rd_Name role) in
  if eqs name "" then (s, disk, Err NameMissing) else
  let role := upserted_role role now in
  let s := s <| rs_roles := <[name := role]> (rs_roles s) |> in
  let '(disk, ok) := writeRoleEnvJSON (json_path (rs_rolesDir s) name) (role_Marshal role) disk in
  (s, disk, if ok then Ok role else Err WriteFails).

Definition UpsertEnvironment (env : EnvironmentDefinition) (now : Time) (s : RoleEnvironmentStore) (disk : Disk)
    : RoleEnvironmentStore * Disk * result role_error EnvironmentDefinition :=
  let name := normalizeRoleEnvName (en_Name env) in
  if eqs name "" then (s, disk, Err NameMissing) else
  let env := upserted_environment env now in
  let s := s <| rs_environments := <[name := cloneEnvironment env]> (rs_environments s) |> in
  let '(disk, ok) := writeRoleEnvJSON (json_path (rs_envDir s) name) (environment_Marshal env) disk in
  (s, disk, if ok then Ok (cloneEnvironment env) else Err WriteFails).

Definition GetRole (name : string) (s : RoleEnvironmentStore) : result role_error RoleDefinition :=
  match rs_roles s !! normalizeRoleEnvName name with Some role => Ok role | None => Err RoleNotFound end.

Definition GetEnvironment (name : string) (s : RoleEnvironmentStore) : result role_error EnvironmentDefinition :=
  match rs_environments s !! normalizeRoleEnvName name with
  | Some env => Ok (cloneEnvironment env)
  | None => Err EnvironmentNotFound
  end.

Definition role_le (x y : RoleDefinition) : Prop := String.le (rd_Name x) (rd_Name y).
#[export] Instance role_le_dec x y : Decision (role_le x y).
Proof. unfold role_le. apply _. Defined.

Definition ListRoleDefinitions (s : RoleEnvironmentStore) : list RoleDefinition :=
  merge_sort role_le (map_to_list (rs_roles s)).*2.

Definition environment_le (x y : EnvironmentDefinition) : Prop := String.le (en_Name x) (en_Name y).
#[export] Instance environment_le_dec x y : Decision (environment_le x y).
Proof. unfold environment_le. apply _. Defined.

Definition ListEnvironments (s : RoleEnvironmentStore) : list EnvironmentDefinition :=
  merge_sort environment_le (cloneEnvironment <$> (map_to_list (rs_environments s)).*2).

Definition DeleteRole (name : string) (s : RoleEnvironmentStore) (disk : Disk) : RoleEnvironmentStore * Disk * bool :=
  let name := normalizeRoleEnvName name in
  match rs_roles s !! name with
  | None => (s, disk, false)
  | Some _ => (s <| rs_roles := delete name (rs_roles s) |>, Remove (json_path (rs_rolesDir s) name) disk, true)
  end.

Definition DeleteEnvironment (name : string) (s : RoleEnvironmentStore) (disk : Disk)
    : RoleEnvironmentStore * Disk * bool :=
  let name := normalizeRoleEnvName name in
  match rs_environments s !! name with
  | None => (s, disk, false)
  | Some _ => (s <| rs_environments := delete name (rs_environments s) |>, Remove (json_path (rs_envDir s) name) disk, true)
  end.

(** ** Reading the directories *)

Definition read_role (raw : string) : option (string * RoleDefinition) :=
  match role_Unmarshal raw with
  | None => None
  | Some role =>
      let name := normalizeRoleEnvName (rd_Name role) in
      if eqs name "" then None
      else Some (name, (normal_role name role) <| rd_Source := source_or "file" (rd_Source role) |>)
  end.

Definition read_environment (raw : string) : option (string * EnvironmentDefinition) :=
  match environment_Unmarshal raw with
  | None => None
  | Some env =>
      let name := normalizeRoleEnvName (en_Name env) in
      if eqs name "" then None
      else Some (name, (normal_environment name env) <| en_Source := source_or "file" (en_Source env) |>)
  end.

Definition loadFromDisk (disk : Disk) (s : RoleEnvironmentStore) : RoleEnvironmentStore :=
  s <| rs_roles := load_dir (rs_rolesDir s) read_role disk (rs_roles s) |>
    <| rs_environments := load_dir (rs_envDir s) read_environment disk (rs_environments s) |>.

Definition roles_dir (baseDir : string) : string := filepath_Join [filepath_Join [baseDir; ".masterchef"; "policy"]; "roles"].
Definition environments_dir (baseDir : string) : string :=
  filepath_Join [filepath_Join [baseDir; ".masterchef"; "policy"]; "environments"].

Definition NewRoleEnvironmentStore (baseDir : string) (disk : Disk) : RoleEnvironmentStore :=
  loadFromDisk disk (mkRoleStore ∅ ∅ (roles_dir baseDir) (environments_dir baseDir)).
End store.

(** ** Resolution *)

Section resolution.
Context `{Number}.

Definition empty_hierarchy : roleHierarchy := mkHierarchy [] ∅ ∅ "" [].

(** One turn of the loop over the profiles of a role. *)
Definition add_parent (out parent : roleHierarchy) : roleHierarchy :=
  mkHierarchy (rh_RunList out ++ rh_RunList parent)
    (mergeRoleEnvMap (rh_DefaultAttributes out) (rh_DefaultAttributes parent))
    (mergeRoleEnvMap (rh_OverrideAttributes out) (rh_OverrideAttributes parent))
    (if eqs (rh_PolicyGroup out) "" then TrimSpace (rh_PolicyGroup parent) else rh_PolicyGroup out)
    (rh_Precedence out ++ rh_Precedence parent).

Definition own_precedence (role : RoleDefinition) : list string :=
  ["role[" +:+ rd_Name role +:+ "].default_attributes"; "role[" +:+ rd_Name role +:+ "].override_attributes"].

(** What the role itself adds after its profiles. *)
Definition add_own (role : RoleDefinition) (out : roleHierarchy) : roleHierarchy :=
  mkHierarchy (rh_RunList out ++ rd_RunList role)
    (mergeRoleEnvMap (rh_DefaultAttributes out) (rd_DefaultAttributes role))
    (mergeRoleEnvMap (rh_OverrideAttributes out) (rd_OverrideAttributes role))
    (if negb (eqs (TrimSpace (rd_PolicyGroup role)) "") then TrimSpace (rd_PolicyGroup role) else rh_PolicyGroup out)
    (rh_Precedence out ++ own_precedence role).

(** The maps [visiting] and [cache] are shared by all calls; [None] is out of fuel. *)
Abbreviation hierarchy_call :=
  (string → gset string → gmap string roleHierarchy →
   option (result role_error roleHierarchy * gset string * gmap string roleHierarchy)).

Fixpoint resolve_profiles (call : hierarchy_call) (profiles : list string) (out : roleHierarchy) (visiting : gset string)
    (cache : gmap string roleHierarchy)
    : option (result role_error roleHierarchy * gset string * gmap string roleHierarchy) :=
  match profiles with
  | [] => Some (Ok out, visiting, cache)
  | parent :: profiles =>
      match call parent visiting cache with
      | Some (Ok parentResolved, visiting, cache) => resolve_profiles call profiles (add_parent out parentResolved) visiting cache
      | r => r
      end
  end.

Fixpoint resolveRoleHierarchyLocked (fuel : nat) (roles : gmap string RoleDefinition) : hierarchy_call :=
  λ name visiting cache,
  match fuel with
  | O => None
  | S fuel =>
      let name := normalizeRoleEnvName name in
      match cache !! name with
      | Some cached => Some (Ok cached, visiting, cache)
      | None =>
          if bool_decide (name ∈ visiting) then Some (Err InheritanceCycle, visiting, cache) else
          match roles !! name with
          | None => Some (Err RoleNotFound, visiting, cache)
          | Some role =>
              match resolve_profiles (resolveRoleHierarchyLocked fuel roles) (rd_Profiles role) empty_hierarchy
                      ({[name]} ∪ visiting) cache with
              | None => None
              | Some (Err e, visiting, cache) => Some (Err e, visiting ∖ {[name]}, cache)
              | Some (Ok out, visiting, cache) =>
                  let out := add_own role out in Some (Ok out, visiting ∖ {[name]}, <[name := out]> cache)
              end
          end
      end
  end.

Definition run_list (env : EnvironmentDefinition) (role : string) (inherited : list string) : list string :=
  match en_RunListOverrides env !! role with
  | Some (item :: override) => item :: override
  | _ => inherited
  end.

Definition layers (hier : roleHierarchy) (env : EnvironmentDefinition) : list object :=
  [rh_DefaultAttributes hier; en_DefaultAttributes env; rh_OverrideAttributes hier; en_OverrideAttributes env;
   en_PolicyOverrides env].

(** Enough fuel: one unit per role, and one. *)
Definition Resolve (roleName envName : string) (now : Time) (s : RoleEnvironmentStore)
    : option (result role_error RoleEnvironmentResolution) :=
  let roleName := normalizeRoleEnvName roleName in
  match rs_roles s !! roleName with
  | None => Some (Err RoleNotFound)
  | Some role =>
      match rs_environments s !! normalizeRoleEnvName envName with
      | None => Some (Err EnvironmentNotFound)
      | Some env =>
          match resolveRoleHierarchyLocked (S (size (rs_roles s))) (rs_roles s) (rd_Name role) ∅ ∅ with
          | None => None
          | Some (Err e, _, _) => Some (Err e)
          | Some (Ok hier, _, _) =>
              let policyGroup := TrimSpace (en_PolicyGroup env) in
              let policyGroup := if eqs policyGroup "" then TrimSpace (rh_PolicyGroup hier) else policyGroup in
              Some (Ok (mkResolution (rd_Name role) (en_Name env) (run_list env (rd_Name role) (rh_RunList hier))
                (merge_all (layers hier env)) policyGroup
                (rh_Precedence hier ++ ["environment.default_attributes"; "environment.override_attributes";
                  "environment.policy_overrides"]) now))
          end
      end
  end.

(** ** Inheritance, as it is meant *)

(** A role without cache and cycle check, to a depth of [n]. *)
Fixpoint inherited (n : nat) (roles : gmap string RoleDefinition) (name : string) : option roleHierarchy :=
  match n with
  | O => None
  | S n =>
      role ← roles !! normalizeRoleEnvName name;
      parents ← mapM (inherited n roles) (rd_Profiles role);
      Some (add_own role (foldl add_parent empty_hierarchy parents))
  end.

(** [b] is a profile of the role [a]. *)
Definition profile_of (roles : gmap string RoleDefinition) (a b : string) : Prop :=
  ∃ role profile, roles !! a = Some role ∧ profile ∈ rd_Profiles role ∧ b = normalizeRoleEnvName profile.
End resolution.

Section inheritance.
Context `{Number}.
Variable roles : gmap string RoleDefinition.

Lemma inherited_norm n name : inherited n roles (normalizeRoleEnvName name) = inherited n roles name.
Proof. destruct n; [done|]. simpl. unfold normalizeRoleEnvName. by rewrite norm_idemp. Qed.

Lemma inherited_Some n name h :
  inherited (S n) roles name = Some h ↔
  ∃ role parents, roles !! normalizeRoleEnvName name = Some role ∧
    Forall2 (λ p h, inherited n roles p = Some h) (rd_Profiles role) parents ∧
    h = add_own role (foldl add_parent empty_hierarchy parents).
Proof.
  cbn [inherited]. rewrite bind_Some. setoid_rewrite bind_Some. setoid_rewrite mapM_Some. naive_solver.
Qed.

Lemma inherited_S n name h : inherited n roles name = Some h → inherited (S n) roles name = Some h.
Proof.
  revert name h. induction n as [|n IH]; intros name h; [done|].
  rewrite (inherited_Some n), (inherited_Some (S n)). intros (role & parents & Hrole & Hp & ->).
  exists role, parents. split; [done|]. split; [|done]. eapply Forall2_impl; [done|]. intros x y. apply IH.
Qed.

Lemma inherited_mono n m name h : (n ≤ m)%nat → inherited n roles name = Some h → inherited m roles name = Some h.
Proof. induction 1 as [|m _ IH]; [done|]. intros Hh. by apply inherited_S, IH. Qed.

Lemma inherited_profile n a b h :
  inherited n roles a = Some h → normalizeRoleEnvName a = a → profile_of roles a b →
  ∃ m h', (m < n)%nat ∧ inherited m roles b = Some h'.
Proof.
  destruct n as [|n]; [done|]. rewrite inherited_Some.
  intros (role & parents & Hrole & Hp & _) Ha (role' & profile & Hrole' & Hin & ->).
  rewrite Ha in Hrole. simplify_eq. apply list_elem_of_lookup_1 in Hin as [i Hi].
  apply (Forall2_lookup_l _ _ _ _ _ Hp) in Hi as (h' & _ & Hh').
  exists n, h'. split; [lia|]. by rewrite inherited_norm.
Qed.

Lemma profile_of_norm a b : profile_of roles a b → normalizeRoleEnvName b = b.
Proof. intros (role & profile & _ & _ & ->). apply norm_idemp. Qed.

(** What can be reached by profiles is inherited in fewer steps. *)
Lemma inherited_reach n a x h :
  inherited n roles a = Some h → normalizeRoleEnvName a = a → tc (profile_of roles) a x →
  ∃ m h', (m < n)%nat ∧ inherited m roles x = Some h'.
Proof.
  intros Hh Ha Hr. revert n h Hh Ha. induction Hr as [a b Hab|a b x Hab _ IH]; intros n h Hh Ha; [by eapply inherited_profile|].
  destruct (inherited_profile _ _ _ _ Hh Ha Hab) as (m & h' & Hm & Hb).
  destruct (IH m h' Hb (profile_of_norm _ _ Hab)) as (m' & h'' & Hm' & Hx). exists m', h''. split; [lia|done].
Qed.

Lemma inherited_no_cycle n x h : inherited n roles x = Some h → normalizeRoleEnvName x = x → ¬ tc (profile_of roles) x x.
Proof.
  revert h. induction n as [n IH] using lt_wf_ind. intros h Hh Hx Hc.
  destruct (inherited_reach _ _ _ _ Hh Hx Hc) as (m & h' & Hm & Hh'). by eapply IH.
Qed.

(** Why a role cannot be resolved. *)
Definition explained (name : string) (e : role_error) : Prop :=
  match e with
  | InheritanceCycle => ∃ x, rtc (profile_of roles) name x ∧ tc (profile_of roles) x x
  | RoleNotFound => ∃ x, rtc (profile_of roles) name x ∧ roles !! x = None
  | _ => False
  end.

Lemma explained_profile a b e : profile_of roles a b → explained b e → explained a e.
Proof. intros Hab. destruct e; try done; intros (x & Hx & ?); exists x; (split; [by eapply rtc_l|done]). Qed.

Lemma explained_not_inherited a e n : normalizeRoleEnvName a = a → explained a e → inherited n roles a = None.
Proof.
  intros Ha He. apply eq_None_not_Some. intros [h Hh].
  assert (∀ x, rtc (profile_of roles) a x → ∃ m h', inherited m roles x = Some h' ∧ normalizeRoleEnvName x = x) as Hreach.
  { intros x [<-|Hx]%rtc_tc; [by exists n, h|]. destruct (inherited_reach _ _ _ _ Hh Ha Hx) as (m & h' & _ & Hm).
    exists m, h'. split; [done|]. apply tc_ind_r with (P := λ y, normalizeRoleEnvName y = y) in Hx; [done|..]; eauto using profile_of_norm. }
  destruct e; try done; destruct He as (x & (m & h' & Hx & Hn)%Hreach & Hbad).
  - destruct m; [done|]. apply inherited_Some in Hx as (role & _ & Hrole & _). rewrite Hn in Hrole. congruence.
  - by apply (inherited_no_cycle m x h').
Qed.

(** ** The traversal agrees *)

Definition cache_ok (cache : gmap string roleHierarchy) : Prop :=
  map_Forall (λ name h, ∃ n, inherited n roles name = Some h) cache.

Definition answer_ok (name : string) (r : result role_error roleHierarchy) : Prop :=
  match r with
  | Ok h => ∃ n, inherited n roles name = Some h
  | Err e => explained (normalizeRoleEnvName name) e
  end.

Lemma resolve_profiles_spec call profiles out visiting cache :
  cache_ok cache →
  (∀ p cache, p ∈ profiles → cache_ok cache →
    ∃ r cache', call p visiting cache = Some (r, visiting, cache') ∧ cache_ok cache' ∧ answer_ok p r) →
  ∃ r cache', resolve_profiles call profiles out visiting cache = Some (r, visiting, cache') ∧ cache_ok cache' ∧
    match r with
    | Ok h => ∃ n parents, Forall2 (λ p h, inherited n roles p = Some h) profiles parents ∧ h = foldl add_parent out parents
    | Err e => ∃ p, p ∈ profiles ∧ explained (normalizeRoleEnvName p) e
    end.
Proof.
  revert out cache. induction profiles as [|p profiles IH]; intros out cache Hc Hcall; simpl.
  { exists (Ok out), cache. split; [done|]. split; [done|]. by exists 0%nat, []. }
  destruct (Hcall p cache) as (r & cache' & -> & Hc' & Hr); [by left|done|]. destruct r as [h|e].
  - destruct (IH (add_parent out h) cache' Hc') as (r & cache'' & Heq & Hc'' & Hr').
    { intros q c Hq. apply Hcall. by right. }
    exists r, cache''. split; [done|]. split; [done|]. destruct r as [h'|e].
    + destruct Hr as [n Hn], Hr' as (n' & parents & Hp & ->). exists (n `max` n')%nat, (h :: parents). split; [|done].
      constructor; [by eapply inherited_mono; [|done]; lia|].
      eapply Forall2_impl; [done|]. intros x y. apply inherited_mono. lia.
    + destruct Hr' as (q & Hq & He). exists q. split; [by right|done].
  - exists (Err e), cache'. split; [done|]. split; [done|]. exists p. split; [by left|done].
Qed.

Lemma resolve_spec fuel name visiting cache :
  (size roles < fuel + size visiting)%nat → visiting ⊆ dom roles → cache_ok cache →
  (∀ v, v ∈ visiting → tc (profile_of roles) v (normalizeRoleEnvName name)) →
  ∃ r cache', resolveRoleHierarchyLocked fuel roles name visiting cache = Some (r, visiting, cache') ∧
    cache_ok cache' ∧ answer_ok name r.
Proof.
  revert name visiting cache. induction fuel as [|fuel IH]; intros name visiting cache Hfuel Hsub Hc Hpath.
  { apply subseteq_size in Hsub. rewrite size_dom in Hsub. lia. }
  simpl. set (a := normalizeRoleEnvName name) in *.
  assert (normalizeRoleEnvName a = a) as Ha by apply norm_idemp.
  destruct (cache !! a) as [h|] eqn:Hcache.
  { exists (Ok h), cache. split; [done|]. split; [done|]. destruct (Hc _ _ Hcache) as [n Hn]. exists n.
    by rewrite <-inherited_norm. }
  case_bool_decide as Hv.
  { exists (Err InheritanceCycle), cache. split; [done|]. split; [done|]. exists a. split; [done|by apply Hpath]. }
  destruct (roles !! a) as [role|] eqn:Hrole.
  2: { exists (Err RoleNotFound), cache. split; [done|]. split; [done|]. by exists a. }
  assert (∀ p, p ∈ rd_Profiles role → profile_of roles a (normalizeRoleEnvName p)) as Hprof by (intros p Hp; by exists role, p).
  destruct (resolve_profiles_spec (resolveRoleHierarchyLocked fuel roles) (rd_Profiles role) empty_hierarchy ({[a]} ∪ visiting) cache)
    as (r & cache' & -> & Hc' & Hr); [done| |].
  { intros p c Hp Hcc. apply IH; [|  |done|].
    - rewrite size_union by set_solver. rewrite size_singleton. lia.
    - apply union_subseteq. split; [|done]. apply singleton_subseteq_l, elem_of_dom. by eexists.
    - intros v [->%elem_of_singleton|Hvv]%elem_of_union; [by apply tc_once, Hprof|].
      eapply tc_r; [by apply Hpath|by apply Hprof]. }
  assert (({[a]} ∪ visiting) ∖ {[a]} = visiting) as Hvis by set_solver.
  destruct r as [h|e]; rewrite Hvis.
  - destruct Hr as (n & parents & Hp & ->).
    assert (inherited (S n) roles name = Some (add_own role (foldl add_parent empty_hierarchy parents))) as Hn.
    { apply inherited_Some. by exists role, parents. }
    eexists (Ok _), _. split; [done|]. split; [|by exists (S n)].
    apply map_Forall_insert_2; [|done]. exists (S n). by rewrite <-inherited_norm in Hn.
  - destruct Hr as (p & Hp & He). exists (Err e), cache'. split; [done|]. split; [done|].
    eapply explained_profile; [by apply Hprof|done].
Qed.

(** The hierarchy of a role: there is one exactly when it is inherited. *)
Lemma hierarchy_spec name :
  ∃ r cache, resolveRoleHierarchyLocked (S (size roles)) roles name ∅ ∅ = Some (r, ∅, cache) ∧
  match r with
  | Ok h => ∃ n, inherited n roles name = Some h
  | Err e => explained (normalizeRoleEnvName name) e ∧ ∀ n, inherited n roles name = None
  end.
Proof.
  destruct (resolve_spec (S (size roles)) name ∅ ∅) as (r & cache & -> & _ & Hr); [lia|set_solver|done|set_solver|].
  exists r, cache. split; [done|]. destruct r as [h|e]; [done|]. split; [done|]. intros n.
  rewrite <-inherited_norm. by eapply explained_not_inherited; [apply norm_idemp|].
Qed.
End inheritance.

(** ** Histories *)

Section histories.
Context `{RoleCodec}.
Variable ro : map_order (list string).
Variable can_write : string → bool.
Variable base : string.

Inductive role_op :=
  | OpUpsertRole (role : RoleDefinition) (now : Time)
  | OpUpsertEnvironment (env : EnvironmentDefinition) (now : Time)
  | OpDeleteRole (name : string)
  | OpDeleteEnvironment (name : string)
  | OpRestart.

Definition role_step (st : RoleEnvironmentStore * Disk) (op : role_op) : RoleEnvironmentStore * Disk :=
  let '(s, disk) := st in
  match op with
  | OpUpsertRole role now => (UpsertRole can_write role now s disk).1
  | OpUpsertEnvironment env now => (UpsertEnvironment ro can_write env now s disk).1
  | OpDeleteRole name => (DeleteRole can_write name s disk).1
  | OpDeleteEnvironment name => (DeleteEnvironment can_write name s disk).1
  | OpRestart => (NewRoleEnvironmentStore ro base disk, disk)
  end.

Definition role_history (disk : Disk) (ops : list role_op) : RoleEnvironmentStore * Disk :=
  foldl role_step (NewRoleEnvironmentStore ro base disk, disk) ops.

(** Names are normalised, and are the keys. *)
Definition named (s : RoleEnvironmentStore) : Prop :=
  map_Forall (λ n role, rd_Name role = n ∧ norm n = n) (rs_roles s) ∧
  map_Forall (λ n env, en_Name env = n ∧ norm n = n) (rs_environments s).

Lemma load_dir_named {A} dir (decode : string → option (string * A)) disk (P : string → A → Prop) m :
  (∀ raw n a, decode raw = Some (n, a) → P n a) → map_Forall P m → map_Forall P (load_dir dir decode disk m).
Proof.
  intros Hdec. unfold load_dir. generalize (glob_json dir disk). intros ps. revert m.
  induction ps as [|p ps IH]; intros m Hm; [done|]. simpl. apply IH. unfold load_item.
  destruct (disk !! p ≫= decode) as [[n a]|] eqn:Hp; [|done]. apply bind_Some in Hp as (raw & _ & Hraw).
  apply map_Forall_insert_2; [by eapply Hdec|done].
Qed.

Lemma New_named disk : named (NewRoleEnvironmentStore ro base disk).
Proof.
  split; cbn; (apply load_dir_named; [|done]); intros raw n a.
  - unfold read_role. destruct (role_Unmarshal raw) as [role|]; [|done]. destruct (eqs _ ""); [done|].
    intros [= <- <-]. split; [done|apply norm_idemp].
  - unfold read_environment. destruct (environment_Unmarshal raw) as [env|]; [|done]. destruct (eqs _ ""); [done|].
    intros [= <- <-]. split; [done|apply norm_idemp].
Qed.

Lemma role_step_named st op : named st.1 → named (role_step st op).1.
Proof.
  destruct st as [s disk]. intros [Hr He]. destruct op as [role now|env now|name|name|]; simpl.
  - unfold UpsertRole. destruct (eqs _ ""); [done|]. destruct (writeRoleEnvJSON _ _ _ _). cbn. split; [|done].
    apply map_Forall_insert_2; [|done]. split; [done|apply norm_idemp].
  - unfold UpsertEnvironment. destruct (eqs _ ""); [done|]. destruct (writeRoleEnvJSON _ _ _ _). cbn. split; [done|].
    apply map_Forall_insert_2; [|done]. split; [done|apply norm_idemp].
  - unfold DeleteRole. destruct (rs_roles s !! _); [|done]. cbn. split; [by apply map_Forall_delete|done].
  - unfold DeleteEnvironment. destruct (rs_environments s !! _); [|done]. cbn. split; [done|by apply map_Forall_delete].
  - apply New_named.
Qed.

Lemma role_history_named disk ops : named (role_history disk ops).1.
Proof.
  unfold role_history. assert (named (NewRoleEnvironmentStore ro base disk, disk).1) as Hn by apply New_named.
  revert Hn. generalize (NewRoleEnvironmentStore ro base disk, disk). induction ops as [|op ops IH]; intros st Hst; [done|].
  simpl. apply IH. by apply role_step_named.
Qed.
End histories.

(** ** The directories hold the store *)

(** What [encoding/json] is trusted for: [encodable] items have strings of valid
    UTF-8 and a time in the years 0 to 9999. *)
Class RoleCodecLaws `{RoleCodec} := {
  encodable_role : RoleDefinition → Prop;
  encodable_environment : EnvironmentDefinition → Prop;
  role_roundtrip r : encodable_role r → ∃ s, role_Marshal r = Some s ∧ role_Unmarshal (s +:+ newline) = Some r;
  environment_roundtrip e :
    encodable_environment e → ∃ s, environment_Marshal e = Some s ∧ environment_Unmarshal (s +:+ newline) = Some e;
}.

Lemma source_or_idemp a b s : TrimSpace b ≠ "" → source_or a (source_or b s) = source_or b s.
Proof.
  intros Hb. unfold source_or at 1. destruct (eqs (TrimSpace (source_or b s)) "") eqn:E; [|done].
  apply eqs_true in E. unfold source_or in E. destruct (eqs (TrimSpace s) "") eqn:E'; [done|]. by apply eqs_false in E'.
Qed.

Lemma normalizeRunList_idemp l : normalizeRunList (normalizeRunList l) = normalizeRunList l.
Proof.
  unfold normalizeRunList. induction l as [|x l IH]; [done|]. cbn [fmap list_fmap]. rewrite filter_cons.
  destruct (decide (TrimSpace x ≠ "")) as [Hx|Hx]; [|done]. cbn [fmap list_fmap].
  rewrite filter_cons, TrimSpace_idemp, decide_True by done. by f_equal.
Qed.

Lemma normalizeRoleProfiles_idemp l : normalizeRoleProfiles (normalizeRoleProfiles l) = normalizeRoleProfiles l.
Proof.
  unfold normalizeRoleProfiles at 1. apply clean_go_id; [|apply NoDup_clean_go]. apply Forall_forall.
  intros x. unfold normalizeRoleProfiles. rewrite elem_of_clean_go. intros (Hx & _ & y & _ & ->).
  split; [apply norm_idemp|]. split; [done|set_solver].
Qed.

Lemma normalizeRunListOverrides_idemp ro m :
  normalizeRunListOverrides ro (normalizeRunListOverrides ro m) = normalizeRunListOverrides ro m.
Proof.
  assert (map_Forall (λ k l, norm k = k ∧ k ≠ "" ∧ normalizeRunList l = l) (normalizeRunListOverrides ro m)) as Hm.
  { unfold normalizeRunListOverrides. generalize (range ro m). intros l.
    assert (map_Forall (λ k l, norm k = k ∧ k ≠ "" ∧ normalizeRunList l = l) (∅ : gmap string (list string))) as He by done.
    revert He. generalize (∅ : gmap string (list string)). induction l as [|e l IH]; intros out Hout; [done|].
    simpl. apply IH. unfold put_override. destruct (eqs _ "") eqn:E; [done|]. apply eqs_false in E.
    apply map_Forall_insert_2; [|done]. split; [apply norm_idemp|]. split; [done|apply normalizeRunList_idemp]. }
  apply foldl_range_self. intros out k l Hk. destruct (Hm _ _ Hk) as (Hn & Hne & Hl). unfold put_override, normalizeRoleEnvName.
  cbn [fst snd]. by rewrite Hn, Hl, (proj2 (eqs_false k "")).
Qed.

Section persistence.
Context `{RoleCodecLaws}.
Variable ro : map_order (list string).
Variable can_write : string → bool.
Variable base : string.

Abbreviation rdir := (roles_dir base).
Abbreviation edir := (environments_dir base).

Definition role_content (r : RoleDefinition) : string := default "" (role_Marshal r) +:+ newline.
Definition environment_content (e : EnvironmentDefinition) : string := default "" (environment_Marshal e) +:+ newline.

(** A call that the directories have a place for; other names may be refused. *)
Definition op_kept (op : role_op) : Prop :=
  match op with
  | OpUpsertRole role now =>
      let name := norm (rd_Name role) in
      Contains name "/" = false ∧ can_write (json_path rdir name) = true ∧ encodable_role (upserted_role role now)
  | OpUpsertEnvironment env now =>
      let name := norm (en_Name env) in
      Contains name "/" = false ∧ can_write (json_path edir name) = true ∧ encodable_environment (upserted_environment ro env now)
  | _ => True
  end.

Record Kept (st : RoleEnvironmentStore * Disk) : Prop := {
  kp_dirs : rs_rolesDir st.1 = rdir ∧ rs_envDir st.1 = edir;
  kp_roles : dir_holds rdir read_role role_content (rs_roles st.1) st.2;
  kp_environments : dir_holds edir (read_environment ro) environment_content (rs_environments st.1) st.2;
  kp_write : map_Forall (λ n _, can_write (json_path rdir n) = true) (rs_roles st.1) ∧
             map_Forall (λ n _, can_write (json_path edir n) = true) (rs_environments st.1);
}.

Lemma policy_nonempty : filepath_Join [base; ".masterchef"; "policy"] ≠ "".
Proof. apply Join_two_nonempty; [done|by vm_compute]. Qed.

Lemma rdir_nonempty : rdir ≠ "".
Proof. apply Join_file_nonempty; [apply policy_nonempty|by vm_compute]. Qed.

Lemma edir_nonempty : edir ≠ "".
Proof. apply Join_file_nonempty; [apply policy_nonempty|by vm_compute]. Qed.

Lemma dirs_differ : dir_prefix rdir ≠ dir_prefix edir.
Proof.
  unfold roles_dir, environments_dir. rewrite !dir_prefix_Join by first [apply policy_nonempty | by vm_compute].
  intros Heq%(inj (String.app _)). discriminate Heq.
Qed.

#[local] Arguments roles_dir : simpl never.
#[local] Arguments environments_dir : simpl never.
#[local] Arguments norm : simpl never.
#[local] Arguments normalizeRoleProfiles : simpl never.
#[local] Arguments normalizeRunList : simpl never.
#[local] Arguments normalizeRunListOverrides : simpl never.
#[local] Arguments source_or : simpl never.

Lemma read_role_content role now :
  norm (rd_Name role) ≠ "" → encodable_role (upserted_role role now) →
  role_Marshal (upserted_role role now) = Some (default "" (role_Marshal (upserted_role role now))) ∧
  read_role (role_content (upserted_role role now)) = Some (norm (rd_Name role), upserted_role role now).
Proof.
  intros Hne He. destruct (role_roundtrip _ He) as (raw & Hm & Hu). rewrite Hm. split; [done|].
  unfold read_role, role_content. rewrite Hm. change (default "" (Some raw)) with raw. rewrite Hu. unfold upserted_role, normal_role, normalizeRoleEnvName. cbn.
  by rewrite norm_idemp, (proj2 (eqs_false _ "") Hne), normalizeRunList_idemp, normalizeRoleProfiles_idemp, source_or_idemp.
Qed.

Lemma read_environment_content env now :
  norm (en_Name env) ≠ "" → encodable_environment (upserted_environment ro env now) →
  environment_Marshal (upserted_environment ro env now) = Some (default "" (environment_Marshal (upserted_environment ro env now))) ∧
  read_environment ro (environment_content (upserted_environment ro env now)) =
    Some (norm (en_Name env), upserted_environment ro env now).
Proof.
  intros Hne He. destruct (environment_roundtrip _ He) as (raw & Hm & Hu). rewrite Hm. split; [done|].
  unfold read_environment, environment_content. rewrite Hm. change (default "" (Some raw)) with raw. rewrite Hu.
  unfold upserted_environment, normal_environment, normalizeRoleEnvName. cbn.
  by rewrite norm_idemp, (proj2 (eqs_false _ "") Hne), normalizeRunListOverrides_idemp, source_or_idemp.
Qed.

Lemma cloneEnvironment_upserted env now : cloneEnvironment ro (upserted_environment ro env now) = upserted_environment ro env now.
Proof. unfold cloneEnvironment, upserted_environment, normal_environment. cbn. by rewrite normalizeRunListOverrides_idemp. Qed.

(** A change of one file of a directory leaves the other one alone. *)
Lemma frame_other_dir {A} dir dir' (decode : string → option (string * A)) content m disk n (o : option string) :
  dir ≠ "" → dir' ≠ "" → dir_prefix dir' ≠ dir_prefix dir → plain n → dir_holds dir decode content m disk →
  dir_holds dir decode content m (partial_alter (λ _, o) (json_path dir' n) disk).
Proof.
  intros Hd Hd' Hne Hn Hh.
  eapply dir_holds_frame; [|intros p|done].
  - intros k Hk. apply lookup_partial_alter_ne. by apply path_other_eq.
  - rewrite !elem_of_glob. intros [Hp Hc]. split; [|done].
    destruct (decide (p = json_path dir' n)) as [->|Hne']; [|by rewrite lookup_partial_alter_ne in Hp].
    exfalso. apply (path_other dir' dir n (<[json_path dir' n := ""]> ∅)); [done..|].
    apply elem_of_glob. rewrite lookup_insert_eq. split; [by eexists|done].
Qed.
Lemma Kept_write {A} dir (decode : string → option (string * A)) content m disk n a buf :
  dir ≠ "" → plain n → decode (content a) = Some (n, a) → buf = Some (default "" buf) → content a = default "" buf +:+ newline →
  can_write (json_path dir n) = true → dir_holds dir decode content m disk →
  ∃ disk', writeRoleEnvJSON can_write (json_path dir n) buf disk = (disk', true) ∧
    disk' = partial_alter (λ _, Some (content a)) (json_path dir n) disk ∧ dir_holds dir decode content (<[n := a]> m) disk'.
Proof.
  intros Hd Hn Hdec Hbuf Hc Hw Hh. unfold writeRoleEnvJSON. rewrite Hbuf, Hw. rewrite <-Hc.
  eexists. split; [done|]. split; [done|]. by apply dir_holds_insert.
Qed.

Lemma Kept_new : Kept (NewRoleEnvironmentStore ro base ∅, ∅).
Proof. split; cbn; [done|apply dir_holds_empty..|done]. Qed.

(** What a new process reads. *)
Lemma Kept_restart st : Kept st → NewRoleEnvironmentStore ro base st.2 = st.1.
Proof.
  destruct st as [[roles envs rd ed] disk]. intros [[Hrd Hed] Hr He _]. cbn in *. subst rd ed.
  unfold NewRoleEnvironmentStore, loadFromDisk. cbn. f_equal.
  - apply (load_dir_holds rdir read_role role_content rdir_nonempty roles disk Hr).
  - apply (load_dir_holds edir (read_environment ro) environment_content edir_nonempty envs disk He).
Qed.

#[local] Arguments json_path : simpl never.
#[local] Arguments writeRoleEnvJSON : simpl never.
#[local] Arguments upserted_role : simpl never.
#[local] Arguments upserted_environment : simpl never.
#[local] Arguments cloneEnvironment : simpl never.

Lemma Kept_UpsertRole role now s disk :
  Kept (s, disk) → op_kept (OpUpsertRole role now) → Kept (UpsertRole can_write role now s disk).1.
Proof.
  intros [[Hrd Hed] Hr He [Hwr Hwe]] (Hslash & Hw & Henc). cbn in *. unfold UpsertRole.
  fold (norm (rd_Name role)) in *. change (normalizeRoleEnvName (rd_Name role)) with (norm (rd_Name role)).
  destruct (eqs (norm (rd_Name role)) "") eqn:Hne; [by split|]. apply eqs_false in Hne.
  destruct (read_role_content role now Hne Henc) as [Hm Hdec].
  destruct (Kept_write rdir read_role role_content (rs_roles s) disk (norm (rd_Name role)) (upserted_role role now)
    (role_Marshal (upserted_role role now)) rdir_nonempty) as (disk' & Hwrite & -> & Hr'); [done..|].
  cbn. rewrite Hrd, Hwrite. split; cbn; [done|done| |].
  - apply frame_other_dir; [apply edir_nonempty|apply rdir_nonempty|apply dirs_differ|done|done].
  - split; [by apply map_Forall_insert_2|done].
Qed.

Lemma Kept_UpsertEnvironment env now s disk :
  Kept (s, disk) → op_kept (OpUpsertEnvironment env now) → Kept (UpsertEnvironment ro can_write env now s disk).1.
Proof.
  intros [[Hrd Hed] Hr He [Hwr Hwe]] (Hslash & Hw & Henc). cbn in *. unfold UpsertEnvironment.
  change (normalizeRoleEnvName (en_Name env)) with (norm (en_Name env)).
  destruct (eqs (norm (en_Name env)) "") eqn:Hne; [by split|]. apply eqs_false in Hne.
  destruct (read_environment_content env now Hne Henc) as [Hm Hdec].
  destruct (Kept_write edir (read_environment ro) environment_content (rs_environments s) disk (norm (en_Name env))
    (upserted_environment ro env now) (environment_Marshal (upserted_environment ro env now)) edir_nonempty)
    as (disk' & Hwrite & -> & He'); [done..|].
  cbn. rewrite Hed, Hwrite, cloneEnvironment_upserted. split; cbn; [done| |done|].
  - apply frame_other_dir; [apply rdir_nonempty|apply edir_nonempty|apply not_eq_sym, dirs_differ|done|done].
  - split; [done|by apply map_Forall_insert_2].
Qed.

Lemma Kept_DeleteRole name s disk : Kept (s, disk) → Kept (DeleteRole can_write name s disk).1.
Proof.
  intros [[Hrd Hed] Hr He [Hwr Hwe]]. cbn in *. unfold DeleteRole.
  destruct (rs_roles s !! normalizeRoleEnvName name) as [role|] eqn:Hrole; [|by split].
  destruct (dh_names _ _ _ _ _ Hr _ _ Hrole) as [Hn _]. unfold Remove. rewrite Hrd, (Hwr _ _ Hrole). split; cbn; [done|..].
  - by apply dir_holds_delete; [apply rdir_nonempty|..].
  - apply frame_other_dir; [apply edir_nonempty|apply rdir_nonempty|apply dirs_differ|done|done].
  - split; [by apply map_Forall_delete|done].
Qed.

Lemma Kept_DeleteEnvironment name s disk : Kept (s, disk) → Kept (DeleteEnvironment can_write name s disk).1.
Proof.
  intros [[Hrd Hed] Hr He [Hwr Hwe]]. cbn in *. unfold DeleteEnvironment.
  destruct (rs_environments s !! normalizeRoleEnvName name) as [env|] eqn:Henv; [|by split].
  destruct (dh_names _ _ _ _ _ He _ _ Henv) as [Hn _]. unfold Remove. rewrite Hed, (Hwe _ _ Henv). split; cbn; [done|..].
  - apply frame_other_dir; [apply rdir_nonempty|apply edir_nonempty|apply not_eq_sym, dirs_differ|done|done].
  - by apply dir_holds_delete; [apply edir_nonempty|..].
  - split; [done|by apply map_Forall_delete].
Qed.

Lemma Kept_step st op : Kept st → op_kept op → Kept (role_step ro can_write base st op).
Proof.
  destruct st as [s disk]. intros Hst Hop. destruct op as [role now|env now|name|name|]; simpl.
  - by apply Kept_UpsertRole.
  - by apply Kept_UpsertEnvironment.
  - by apply Kept_DeleteRole.
  - by apply Kept_DeleteEnvironment.
  - pose proof (Kept_restart _ Hst) as Hres. cbn in Hres. by rewrite Hres.
Qed.

Lemma Kept_history ops : Forall op_kept ops → Kept (role_history ro can_write base ∅ ops).
Proof.
  intros Hops. unfold role_history. pose proof Kept_new as Hst. revert Hst.
  generalize (NewRoleEnvironmentStore ro base ∅, ∅ : Disk). induction Hops as [|op ops Hop _ IH]; intros st Hst; [done|].
  simpl. apply IH. by apply Kept_step.
Qed.
End persistence.

(** ** The claims *)

(** C35: Resolution.  After any history of calls and restarts, whatever the
    directories held, [Resolve] returns.  It succeeds exactly when the role and
    the environment exist and the role is inherited through existing roles
    without a cycle, and then has the run list, policy group and attributes of
    plain inheritance; a failure names a cycle or a missing role that is
    reachable.  In the attributes a value that is no object is that of the last
    layer that has it, if the later ones are silent on its path. *)
Theorem role_resolution `{RoleCodec} ro can_write base disk ops roleName envName now :
  let s := (role_history ro can_write base disk ops).1 in
  let a := normalizeRoleEnvName roleName in
  ∃ r, Resolve roleName envName now s = Some r ∧
  match r with
  | Ok res => ∃ n h env, inherited n (rs_roles s) a = Some h ∧
      rs_environments s !! normalizeRoleEnvName envName = Some env ∧
      re_Role res = a ∧ re_RunList res = run_list env a (rh_RunList h) ∧
      re_PolicyGroup res =
        (if eqs (TrimSpace (en_PolicyGroup env)) "" then TrimSpace (rh_PolicyGroup h) else TrimSpace (en_PolicyGroup env)) ∧
      ∀ p before layer after v, layers h env = before ++ layer :: after → is_object v = false →
        at_path p (JObject layer) = Some v → Forall (λ m, silent p (JObject m)) after →
        at_path p (JObject (re_Attributes res)) = Some v
  | Err e =>
      (e = RoleNotFound ∧ rs_roles s !! a = None) ∨
      (e = EnvironmentNotFound ∧ rs_environments s !! normalizeRoleEnvName envName = None) ∨
      (explained (rs_roles s) a e ∧ ∀ n, inherited n (rs_roles s) a = None)
  end.
Proof.
  intros s a. destruct (role_history_named ro can_write base disk ops) as [Hr _]. fold s in Hr.
  unfold Resolve. fold a. destruct (rs_roles s !! a) as [role|] eqn:Hrole; [|eexists; split; [done|]; by left].
  destruct (rs_environments s !! _) as [env|] eqn:Henv; [|eexists; split; [done|]; right; by left].
  destruct (Hr _ _ Hrole) as [Hname Ha]. rewrite Hname.
  destruct (hierarchy_spec (rs_roles s) a) as (r & cache & -> & Hans).
  destruct r as [h|e]; (eexists; split; [done|]).
  - destruct Hans as [n Hn]. exists n, h, env. split; [done|]. split; [done|]. split; [done|]. split; [done|].
    split; [simpl; by destruct (eqs _ "")|]. intros p before layer after v Hl Hv Hat Hsil.
    cbn [re_Attributes]. rewrite Hl. by apply merge_all_leaf.
  - right. right. unfold normalizeRoleEnvName in Hans. by rewrite Ha in Hans.
Qed.


(** Restart.  After any history of calls and restarts on names without a
    slash, with paths that can be written, a new process reads back exactly the
    store: every role and environment, and nothing else. *)
Theorem role_environments_persist `{RoleCodecLaws} ro can_write base ops :
  Forall (op_kept ro can_write base) ops →
  let st := role_history ro can_write base ∅ ops in
  NewRoleEnvironmentStore ro base st.2 = st.1 ∧
  (∀ name role, rs_roles st.1 !! name = Some role → st.2 !! json_path (roles_dir base) name = Some (role_content role)) ∧
  (∀ p, p ∈ glob_json (roles_dir base) st.2 → ∃ name, is_Some (rs_roles st.1 !! name) ∧ p = json_path (roles_dir base) name).
Proof.
  intros Hops st. pose proof (Kept_history ro can_write base ops Hops) as Hst. split; [by eapply Kept_restart|].
  split; [apply (dh_files _ _ _ _ _ (kp_roles _ _ _ _ Hst))|apply (dh_only _ _ _ _ _ (kp_roles _ _ _ _ Hst))].
Qed.

(** ** A concrete history *)

Module Toy.
#[export] Instance number_toy : Number := {| number := Z |}.

(** JSON with a kind in front, and without attributes. *)
#[export] Instance codec : RoleCodec := {|
  role_Marshal r := Some (bits (encode ("role", rd_Name r, rd_Description r, rd_Profiles r, rd_RunList r, rd_PolicyGroup r,
    rd_UpdatedAt r, rd_Source r)));
  role_Unmarshal s := (unbits s ≫= decode) ≫= λ '(k, n, d, p, l, g, t, o),
    if eqs k "role" then Some (mkRole n d p l g ∅ ∅ t o) else None;
  environment_Marshal e := Some (bits (encode ("environment", en_Name e, en_Description e, en_PolicyGroup e, en_RunListOverrides e,
    en_UpdatedAt e, en_Source e)));
  environment_Unmarshal s := (unbits s ≫= decode) ≫= λ '(k, n, d, g, r, t, o),
    if eqs k "environment" then Some (mkEnvironment n d g ∅ ∅ r ∅ t o) else None;
|}.

#[export] Instance laws : RoleCodecLaws.
Proof.
  refine {| encodable_role r := rd_DefaultAttributes r = ∅ ∧ rd_OverrideAttributes r = ∅;
    encodable_environment e := en_DefaultAttributes e = ∅ ∧ en_OverrideAttributes e = ∅ ∧ en_PolicyOverrides e = ∅ |}.
  - intros r [Hd Ho]. eexists. split; [reflexivity|]. cbn [role_Unmarshal codec].
    rewrite unbits_bits_app. cbn [mbind option_bind]. rewrite decode_encode. cbn. destruct r. cbn in *. by subst.
  - intros e (Hd & Ho & Hp). eexists. split; [reflexivity|]. cbn [environment_Unmarshal codec].
    rewrite unbits_bits_app. cbn [mbind option_bind]. rewrite decode_encode. cbn. destruct e. cbn in *. by subst.
Defined.

Definition plain_role (name : string) (profiles run_list : list string) : RoleDefinition :=
  mkRole name "" profiles run_list "" ∅ ∅ 0 "".
Definition plain_environment (name : string) : EnvironmentDefinition := mkEnvironment name "" "" ∅ ∅ ∅ ∅ 0 "".

Definition toy_ops : list role_op :=
  [OpUpsertRole (plain_role "Base " [] ["ntp"]) 1; OpUpsertRole (plain_role "web" ["base"; "BASE"] ["nginx"; " "]) 2;
   OpUpsertEnvironment (plain_environment "prod") 3; OpUpsertRole (plain_role "old" [] []) 4; OpDeleteRole "old"; OpRestart].

Definition toy_history := role_history some_order (λ _, true) "/srv" ∅.
Definition toy_run_list (role env : string) (ops : list role_op) : option (result role_error (list string)) :=
  (λ r, match r with Ok res => Ok (re_RunList res) | Err e => Err e end) <$> Resolve role env 9 (toy_history ops).1.
End Toy.
Import Toy.

Lemma role_environments_persist_witness :
  NewRoleEnvironmentStore some_order "/srv" (toy_history toy_ops).2 = (toy_history toy_ops).1.
Proof.
  apply (role_environments_persist some_order (λ _, true) "/srv" toy_ops).
  repeat (apply Forall_cons; split); try apply Forall_nil; cbn [op_kept]; try exact I; (split; [by vm_compute|]); (split; [done|]);
    repeat split; by vm_compute.
Defined.

(** Inheritance and its errors, on a concrete store. *)
Example resolve_example :
  let loop := toy_ops ++ [OpUpsertRole (plain_role "a" ["b"] []) 5; OpUpsertRole (plain_role "b" ["a"] []) 6;
    OpUpsertRole (plain_role "c" ["gone"] []) 7] in
  (λ r, toy_run_list r "prod" loop) <$> ["WEB"; "a"; "c"; "gone"] =
  [Some (Ok ["ntp"; "nginx"]); Some (Err InheritanceCycle); Some (Err RoleNotFound); Some (Err RoleNotFound)].
Proof. by vm_compute. Qed.

(** ** What the model shows *)

(** A failed write is reported, but the role is there. *)
Lemma failed_upsert_stays `{RoleCodec} can_write role now s disk :
  norm (rd_Name role) ≠ "" → can_write (json_path (rs_rolesDir s) (norm (rd_Name role))) = false →
  ∃ s', UpsertRole can_write role now s disk = (s', disk, Err WriteFails) ∧
    GetRole (rd_Name role) s' = Ok (upserted_role role now).
Proof.
  intros Hne Hw. unfold UpsertRole. change (normalizeRoleEnvName (rd_Name role)) with (norm (rd_Name role)).
  rewrite (proj2 (eqs_false _ "") Hne). unfold writeRoleEnvJSON. cbn [rs_rolesDir]. 
  destruct (role_Marshal (upserted_role role now)) as [raw|]; [unfold update_field; cbn -[norm json_path upserted_role]; rewrite Hw|];
    (eexists; split; [reflexivity|]); unfold GetRole; cbn -[norm upserted_role];
    change (normalizeRoleEnvName (rd_Name role)) with (norm (rd_Name role)); by rewrite lookup_insert_eq.
Qed.

(** A name is not checked before it becomes a path: a role takes the file of an environment. *)
Lemma role_overwrites_environment :
  let ops := [OpUpsertEnvironment (plain_environment "prod") 1; OpUpsertRole (plain_role "../environments/prod" [] []) 2] in
  is_Ok (GetEnvironment some_order "prod" (toy_history ops).1) = true ∧
  is_Ok (GetEnvironment some_order "prod" (toy_history (ops ++ [OpRestart])).1) = false.
Proof. by vm_compute. Qed.

(** The overrides of a role win over the defaults of an environment, which the
    answer lists as the later layer. *)
Lemma precedence_misstated :
  let role := mkRole "web" "" [] [] "" ∅ {["port" := JNumber 80]} 0 "" in
  let env := mkEnvironment "prod" "" "" {["port" := JNumber 443]} ∅ ∅ ∅ 0 "" in
  (λ r, match r with Ok res => (re_Attributes res !! "port", re_Precedence res) | Err _ => (None, []) end) <$>
    Resolve "web" "prod" 9 (toy_history [OpUpsertRole role 1; OpUpsertEnvironment env 2]).1 =
  Some (Some (JNumber 80), ["role[web].default_attributes"; "role[web].override_attributes";
    "environment.default_attributes"; "environment.override_attributes"; "environment.policy_overrides"]).
Proof. vm_compute. reflexivity. Qed.
