(* ===== verification/AgentPKI.v ===== *)
(** * Agent certificates: [internal/control/agent_pki.go]

    Agents ask for certificates with signing requests, which a policy or an
    operator approves; certificates are revoked, rotated and renewed.  Proved:
    what every certificate and request goes through under any history of calls,
    that renewal replaces exactly the expiring certificates in whatever order
    the loop meets them, and where it does not. *)

From S2P Require Import Prelude.

(** ** Data *)

Record AgentCertificatePolicy : Type := mkCertPolicy {
  cp_AutoApprove : bool;
  cp_RequiredAttributes : gmap string string;
  cp_UpdatedAt : Time;
}.

Inductive csr_status := CSRPending | CSRIssued | CSRRejected.
#[export] Instance csr_status_eq_dec : EqDecision csr_status.
Proof. solve_decision. Defined.

Record AgentCSR : Type := mkCSR {
  cq_ID : string;
  cq_AgentID : string;
  cq_Attributes : gmap string string;
  cq_Status : csr_status;
  cq_Reason : string;
  cq_CertID : string;
  cq_CreatedAt : Time;
  cq_UpdatedAt : Time;
}.
#[export] Instance AgentCSR_eta : Eta AgentCSR := λ r,
  mkCSR (cq_ID r) (cq_AgentID r) (cq_Attributes r) (cq_Status r) (cq_Reason r) (cq_CertID r) (cq_CreatedAt r) (cq_UpdatedAt r).

Record AgentCSRInput : Type := mkCSRInput { ci_AgentID : string; ci_Attributes : gmap string string }.

Inductive cert_status := CertActive | CertRotated | CertRevoked.
#[export] Instance cert_status_eq_dec : EqDecision cert_status.
Proof. solve_decision. Defined.

Record AgentCertificate : Type := mkCert {
  ac_ID : string;
  ac_AgentID : string;
  ac_Serial : string;
  ac_Status : cert_status;
  ac_IssuedAt : Time;
  ac_ExpiresAt : Time;
  ac_RevokedAt : option Time;
  ac_RotatedBy : string;
}.
#[export] Instance AgentCertificate_eta : Eta AgentCertificate := λ r,
  mkCert (ac_ID r) (ac_AgentID r) (ac_Serial r) (ac_Status r) (ac_IssuedAt r) (ac_ExpiresAt r) (ac_RevokedAt r) (ac_RotatedBy r).

Record AgentCertificateExpiryReport : Type := mkExpiryReport {
  xr_GeneratedAt : Time;
  xr_WithinHours : Z;
  xr_ExpiringCount : Z;
  xr_Items : list AgentCertificate;
}.

Record AgentCertificateRenewalResult : Type := mkRenewal {
  rw_RequestedWithinHours : Z;
  rw_RenewedCount : Z;
  rw_Renewed : list AgentCertificate;
}.

Record AgentPKIStore : Type := mkPKI {
  pk_nextCSR : Z;
  pk_nextCert : Z;
  pk_policy : AgentCertificatePolicy;
  pk_csrs : gmap string AgentCSR;
  pk_certs : gmap string AgentCertificate;
}.
#[export] Instance AgentPKIStore_eta : Eta AgentPKIStore := λ r,
  mkPKI (pk_nextCSR r) (pk_nextCert r) (pk_policy r) (pk_csrs r) (pk_certs r).

Inductive pki_error := AgentIDRequired | CSRIDRequired | DecisionInvalid | CSRNotFound | CSRNotPending
  | CertIDRequired | CertNotFound.

(** ** Policy and requests *)

Definition NewAgentPKIStore (now : Time) : AgentPKIStore := mkPKI 0 0 (mkCertPolicy false ∅ now) ∅ ∅.

(** The loops that trim attributes meet them in the order [ro]. *)
Definition put_attribute (out : gmap string string) (e : string * string) : gmap string string :=
  let key := TrimSpace e.1 in
  if eqs key "" then out else <[key := TrimSpace e.2]> out.

Definition trim_attributes (ro : map_order string) (m : gmap string string) : gmap string string :=
  foldl put_attribute ∅ (range ro m).

Definition SetPolicy (ro : map_order string) (policy : AgentCertificatePolicy) (now : Time) (s : AgentPKIStore)
    : AgentPKIStore * AgentCertificatePolicy :=
  let policy := mkCertPolicy (cp_AutoApprove policy) (trim_attributes ro (cp_RequiredAttributes policy)) now in
  (s <| pk_policy := policy |>, policy).

Definition csrMatchesPolicy (csr : AgentCSR) (policy : AgentCertificatePolicy) : bool :=
  forallb (λ e, eqs (TrimSpace (default "" (cq_Attributes csr !! e.1))) e.2) (map_to_list (cp_RequiredAttributes policy)).

Definition lifetime : Duration := 90 * 24 * 3600 * Second.

Definition issueCertificateLocked (agentID : string) (now : Time) (s : AgentPKIStore) : AgentPKIStore * AgentCertificate :=
  let next := pk_nextCert s + 1 in
  let item := mkCert ("cert-" +:+ itoa next) agentID ("SERIAL-" +:+ itoa next) CertActive now (Add now lifetime) None "" in
  (s <| pk_nextCert := next |> <| pk_certs := <[ac_ID item := item]> (pk_certs s) |>, item).

Definition put_csr (item : AgentCSR) (s : AgentPKIStore) : AgentPKIStore := s <| pk_csrs := <[cq_ID item := item]> (pk_csrs s) |>.
Definition put_cert (item : AgentCertificate) (s : AgentPKIStore) : AgentPKIStore :=
  s <| pk_certs := <[ac_ID item := item]> (pk_certs s) |>.

Definition SubmitCSR (ro : map_order string) (i : AgentCSRInput) (now : Time) (s : AgentPKIStore)
    : AgentPKIStore * result pki_error AgentCSR :=
  let agentID := TrimSpace (ci_AgentID i) in
  if eqs agentID "" then (s, Err AgentIDRequired) else
  let next := pk_nextCSR s + 1 in
  let item := mkCSR ("csr-" +:+ itoa next) agentID (trim_attributes ro (ci_Attributes i)) CSRPending "" "" now now in
  let s := put_csr item (s <| pk_nextCSR := next |>) in
  if cp_AutoApprove (pk_policy s) && csrMatchesPolicy item (pk_policy s) then
    let '(s, cert) := issueCertificateLocked agentID now s in
    let item := item <| cq_Status := CSRIssued |> <| cq_CertID := ac_ID cert |> <| cq_UpdatedAt := now |> in
    (put_csr item s, Ok item)
  else (s, Ok item).

Definition csr_later (x y : AgentCSR) : Prop := cq_CreatedAt y ≤ cq_CreatedAt x.
#[export] Instance csr_later_dec x y : Decision (csr_later x y).
Proof. unfold csr_later. apply _. Defined.

Definition ListCSRs (s : AgentPKIStore) : list AgentCSR := merge_sort csr_later (map_to_list (pk_csrs s)).*2.

Definition GetCSR (id : string) (s : AgentPKIStore) : option AgentCSR := pk_csrs s !! TrimSpace id.

Definition DecideCSR (id decision reason : string) (now : Time) (s : AgentPKIStore)
    : AgentPKIStore * result pki_error AgentCSR :=
  let id := TrimSpace id in
  let decision := norm decision in
  if eqs id "" then (s, Err CSRIDRequired) else
  if negb (eqs decision "approve") && negb (eqs decision "reject") then (s, Err DecisionInvalid) else
  match pk_csrs s !! id with
  | None => (s, Err CSRNotFound)
  | Some item =>
      if negb (bool_decide (cq_Status item = CSRPending)) then (s, Err CSRNotPending) else
      let '(s, item) :=
        if eqs decision "approve" then
          let '(s, cert) := issueCertificateLocked (cq_AgentID item) now s in
          (s, item <| cq_Status := CSRIssued |> <| cq_CertID := ac_ID cert |>)
        else (s, item <| cq_Status := CSRRejected |> <| cq_Reason := TrimSpace reason |>) in
      let item := item <| cq_UpdatedAt := now |> in
      (put_csr item s, Ok item)
  end.

(** ** Certificates *)

Definition cert_later (x y : AgentCertificate) : Prop := ac_IssuedAt y ≤ ac_IssuedAt x.
#[export] Instance cert_later_dec x y : Decision (cert_later x y).
Proof. unfold cert_later. apply _. Defined.

Definition ListCertificates (s : AgentPKIStore) : list AgentCertificate := merge_sort cert_later (map_to_list (pk_certs s)).*2.

Definition RevokeCertificate (id : string) (now : Time) (s : AgentPKIStore) : AgentPKIStore * result pki_error AgentCertificate :=
  let id := TrimSpace id in
  if eqs id "" then (s, Err CertIDRequired) else
  match pk_certs s !! id with
  | None => (s, Err CertNotFound)
  | Some item =>
      if bool_decide (ac_Status item = CertRevoked) then (s, Ok item) else
      let item := item <| ac_Status := CertRevoked |> <| ac_RevokedAt := Some now |> in
      (put_cert item s, Ok item)
  end.

Definition cert_active (cert : AgentCertificate) : bool := bool_decide (ac_Status cert = CertActive).

(** The loop that looks for the certificate to rotate. *)
Definition latest_one (agentID : string) (latest : option AgentCertificate) (cert : AgentCertificate) : option AgentCertificate :=
  if negb (eqs (ac_AgentID cert) agentID) || negb (cert_active cert) then latest else
  match latest with
  | None => Some cert
  | Some l => if After (ac_IssuedAt cert) (ac_IssuedAt l) then Some cert else latest
  end.

(** What both rotation and renewal do: the successor is issued while the
    certificate is already marked as rotated, and then linked. *)
Definition rotate_cert (cert : AgentCertificate) (now : Time) (s : AgentPKIStore) : AgentPKIStore * AgentCertificate :=
  let cert := cert <| ac_Status := CertRotated |> in
  let '(s, newCert) := issueCertificateLocked (ac_AgentID cert) now (put_cert cert s) in
  (put_cert (cert <| ac_RotatedBy := ac_ID newCert |>) s, newCert).

Definition RotateAgentCertificate (ro : map_order AgentCertificate) (agentID : string) (now : Time) (s : AgentPKIStore)
    : AgentPKIStore * result pki_error AgentCertificate :=
  let agentID := TrimSpace agentID in
  if eqs agentID "" then (s, Err AgentIDRequired) else
  match foldl (latest_one agentID) None (range ro (pk_certs s)).*2 with
  | None => let '(s, newCert) := issueCertificateLocked agentID now s in (s, Ok newCert)
  | Some latest => let '(s, newCert) := rotate_cert latest now s in (s, Ok newCert)
  end.

Definition within_or_default (withinHours : Z) : Z := if withinHours <=? 0 then 72 else withinHours.
Definition hours (n : Z) : Duration := wrap64 (n * (3600 * Second)).
Definition threshold (withinHours : Z) (now : Time) : Time := Add now (hours (within_or_default withinHours)).

Definition expires_within (t : Time) (cert : AgentCertificate) : bool :=
  cert_active cert && (Before (ac_ExpiresAt cert) t || (ac_ExpiresAt cert =? t)).

Definition sooner_expiring (x y : AgentCertificate) : Prop := ac_ExpiresAt x ≤ ac_ExpiresAt y.
#[export] Instance sooner_expiring_dec x y : Decision (sooner_expiring x y).
Proof. unfold sooner_expiring. apply _. Defined.

Definition ExpiryReport (withinHours : Z) (now : Time) (s : AgentPKIStore) : AgentCertificateExpiryReport :=
  let items := filter (λ cert, expires_within (threshold withinHours now) cert = true) (map_to_list (pk_certs s)).*2 in
  mkExpiryReport now (within_or_default withinHours) (Z.of_nat (length items)) (merge_sort sooner_expiring items).

(** One turn of the loop of [RenewExpiring], for the certificate with the key [id]. *)
Definition renew_one (t now : Time) (st : AgentPKIStore * list AgentCertificate) (id : string)
    : AgentPKIStore * list AgentCertificate :=
  let '(s, renewed) := st in
  match pk_certs s !! id with
  | None => st
  | Some cert =>
      if negb (cert_active cert) then st else
      if After (ac_ExpiresAt cert) t then st else
      let '(s, newCert) := rotate_cert cert now s in (s, renewed ++ [newCert])
  end.

(** The loop adds to the map it ranges over.  Go then meets every key that was
    there at the start once, in any order, and each new key or not: [visits] are
    the keys it meets, with the readings of the clock that a certificate issued in
    that turn takes, and [fair_visits] are those it can meet. *)
Definition renew_visit (t : Time) (st : AgentPKIStore * list AgentCertificate) (v : string * Time)
    : AgentPKIStore * list AgentCertificate := renew_one t v.2 st v.1.

Fixpoint fair_visits (t : Time) (todo seen : gset string) (s : AgentPKIStore) (visits : list (string * Time)) : Prop :=
  match visits with
  | [] => todo = ∅
  | v :: visits =>
      v.1 ∉ seen ∧ is_Some (pk_certs s !! v.1) ∧
      fair_visits t (todo ∖ {[v.1]}) ({[v.1]} ∪ seen) (renew_visit t (s, []) v).1 visits
  end.

(** The threshold is taken from the clock before the mutex, at [now]. *)
Definition RenewExpiring (withinHours : Z) (visits : list (string * Time)) (now : Time) (s : AgentPKIStore)
    : AgentPKIStore * AgentCertificateRenewalResult :=
  let '(s, renewed) := foldl (renew_visit (threshold withinHours now)) (s, []) visits in
  (s, mkRenewal (within_or_default withinHours) (Z.of_nat (length renewed)) renewed).

(** ** Histories *)

Inductive pki_op :=
  | OpSetPolicy (ro : map_order string) (policy : AgentCertificatePolicy)
  | OpSubmit (ro : map_order string) (i : AgentCSRInput)
  | OpDecide (id decision reason : string)
  | OpRevoke (id : string)
  | OpRotate (ro : map_order AgentCertificate) (agentID : string)
  | OpRenew (withinHours : Z) (visits : list (string * Time)).

Definition pki_step (s : AgentPKIStore) (c : pki_op * Time) : AgentPKIStore :=
  let '(op, now) := c in
  match op with
  | OpSetPolicy ro policy => (SetPolicy ro policy now s).1
  | OpSubmit ro i => (SubmitCSR ro i now s).1
  | OpDecide id decision reason => (DecideCSR id decision reason now s).1
  | OpRevoke id => (RevokeCertificate id now s).1
  | OpRotate ro agentID => (RotateAgentCertificate ro agentID now s).1
  | OpRenew withinHours visits => (RenewExpiring withinHours visits now s).1
  end.

Definition pki_history (start : Time) (ops : list (pki_op * Time)) : AgentPKIStore :=
  foldl pki_step (NewAgentPKIStore start) ops.

(** ** What certificates and requests go through *)

Definition cert_rank (st : cert_status) : nat := match st with CertActive => 0 | CertRotated => 1 | CertRevoked => 2 end.

(** A certificate later on: what it certifies never changes, and its status only falls. *)
Definition cert_after (c c' : AgentCertificate) : Prop :=
  ac_ID c' = ac_ID c ∧ ac_AgentID c' = ac_AgentID c ∧ ac_Serial c' = ac_Serial c ∧ ac_IssuedAt c' = ac_IssuedAt c ∧
  ac_ExpiresAt c' = ac_ExpiresAt c ∧ (cert_rank (ac_Status c) ≤ cert_rank (ac_Status c'))%nat ∧
  (ac_RotatedBy c ≠ "" → ac_RotatedBy c' = ac_RotatedBy c) ∧ (ac_Status c = CertRevoked → c' = c).

(** A request later on: once decided it stays as it is. *)
Definition csr_after (q q' : AgentCSR) : Prop :=
  cq_ID q' = cq_ID q ∧ cq_AgentID q' = cq_AgentID q ∧ cq_Attributes q' = cq_Attributes q ∧ cq_CreatedAt q' = cq_CreatedAt q ∧
  (cq_Status q ≠ CSRPending → q' = q).

Record store_after (s s' : AgentPKIStore) : Prop := {
  sa_certs id c : pk_certs s !! id = Some c → ∃ c', pk_certs s' !! id = Some c' ∧ cert_after c c';
  sa_csrs id q : pk_csrs s !! id = Some q → ∃ q', pk_csrs s' !! id = Some q' ∧ csr_after q q';
}.

#[export] Instance cert_after_preorder : PreOrder cert_after.
Proof.
  split; [by intros c; repeat split|]. intros c1 c2 c3 (?&?&?&?&?&?&Hb&Hr) (?&?&?&?&?&?&Hb'&Hr').
  repeat split; try congruence; [lia| |].
  - intros Hne. rewrite Hb'; [by apply Hb|]. by rewrite Hb.
  - intros Hrev. rewrite <-(Hr Hrev). apply Hr'. by rewrite (Hr Hrev).
Qed.

#[export] Instance csr_after_preorder : PreOrder csr_after.
Proof.
  split; [by intros q; repeat split|]. intros q1 q2 q3 (?&?&?&?&Hs) (?&?&?&?&Hs').
  repeat split; try congruence. intros Hne. rewrite <-(Hs Hne). apply Hs'. by rewrite (Hs Hne).
Qed.

#[export] Instance store_after_preorder : PreOrder store_after.
Proof.
  split; [intros s; split; intros id x Hx; exists x; (split; [done|reflexivity])|].
  intros s1 s2 s3 [Hc1 Hq1] [Hc2 Hq2]. split.
  - intros id c (c' & Hc' & ?)%Hc1. apply Hc2 in Hc' as (c'' & ? & ?). exists c''. split; [done|]. by etrans.
  - intros id q (q' & Hq' & ?)%Hq1. apply Hq2 in Hq' as (q'' & ? & ?). exists q''. split; [done|]. by etrans.
Qed.

Record cert_ok (s : AgentPKIStore) (id : string) (c : AgentCertificate) : Prop := {
  co_id : ac_ID c = id;
  co_number : ∃ n, 1 ≤ n ≤ pk_nextCert s ∧ id = "cert-" +:+ itoa n ∧ ac_Serial c = "SERIAL-" +:+ itoa n;
  co_agent : ac_AgentID c ≠ "";
  co_expiry : ac_ExpiresAt c = ac_IssuedAt c + lifetime;
  co_revoked : ac_Status c = CertRevoked ↔ is_Some (ac_RevokedAt c);
  co_active : ac_Status c = CertActive → ac_RotatedBy c = "";
  co_rotated : ac_Status c = CertRotated → ac_RotatedBy c ≠ "";
  co_successor : ac_RotatedBy c ≠ "" → ∃ c', pk_certs s !! ac_RotatedBy c = Some c' ∧ ac_AgentID c' = ac_AgentID c ∧
    ac_RotatedBy c ≠ id;
}.

Record csr_ok (s : AgentPKIStore) (id : string) (q : AgentCSR) : Prop := {
  qo_id : cq_ID q = id;
  qo_number : numbered "csr-" (pk_nextCSR s) id;
  qo_agent : cq_AgentID q ≠ "";
  qo_issued : cq_Status q = CSRIssued ↔ cq_CertID q ≠ "";
  qo_cert : cq_CertID q ≠ "" → ∃ c, pk_certs s !! cq_CertID q = Some c ∧ ac_AgentID c = cq_AgentID q;
}.

(** Who a certificate was issued for: a request, or the certificate it replaced. *)
Definition cites (s : AgentPKIStore) (x : string + string) (id : string) : Prop :=
  match x with
  | inl q => ∃ item, pk_csrs s !! q = Some item ∧ cq_CertID item = id
  | inr k => ∃ item, pk_certs s !! k = Some item ∧ ac_RotatedBy item = id
  end.

Record PKIInv (s : AgentPKIStore) : Prop := {
  pi_counters : 0 ≤ pk_nextCert s ∧ 0 ≤ pk_nextCSR s;
  pi_certs : map_Forall (cert_ok s) (pk_certs s);
  pi_csrs : map_Forall (csr_ok s) (pk_csrs s);
  pi_origin x y id : id ≠ "" → cites s x id → cites s y id → x = y;
}.

(** ** Changes of one entry *)

Definition uncited (s : AgentPKIStore) (id : string) : Prop := ∀ x, ¬ cites s x id.

Lemma cert_ok_mono s s' id c :
  pk_nextCert s ≤ pk_nextCert s' →
  (∀ k d, pk_certs s !! k = Some d → ∃ d', pk_certs s' !! k = Some d' ∧ ac_AgentID d' = ac_AgentID d) →
  cert_ok s id c → cert_ok s' id c.
Proof.
  intros Hn Hm []. split; try done.
  - destruct co_number0 as (n & ? & ? & ?). exists n. split; [lia|done].
  - intros Hr. destruct (co_successor0 Hr) as (d & Hd & Ha & ?). destruct (Hm _ _ Hd) as (d' & ? & ?).
    exists d'. split; [done|]. split; [congruence|done].
Qed.

Lemma csr_ok_mono s s' id q :
  pk_nextCSR s ≤ pk_nextCSR s' →
  (∀ k d, pk_certs s !! k = Some d → ∃ d', pk_certs s' !! k = Some d' ∧ ac_AgentID d' = ac_AgentID d) →
  csr_ok s id q → csr_ok s' id q.
Proof.
  intros Hn Hm []. split; try done; [by eapply numbered_mono|].
  intros Hr. destruct (qo_cert0 Hr) as (d & Hd & Ha). destruct (Hm _ _ Hd) as (d' & ? & ?).
  exists d'. split; [done|congruence].
Qed.

(** A certificate is changed, and cites what it did or what nothing cited. *)
Lemma PKIInv_cert s id c c' :
  PKIInv s → pk_certs s !! id = Some c → cert_after c c' → cert_ok s id c' →
  (ac_RotatedBy c' = ac_RotatedBy c ∨ uncited s (ac_RotatedBy c')) → PKIInv (put_cert c' s) ∧ store_after s (put_cert c' s).
Proof.
  intros [Hn Hc Hq Ho] Hid Haft Hok Hcite. assert (ac_ID c' = id) as Hcid by apply Hok.
  assert (∀ k d, pk_certs s !! k = Some d →
    ∃ d', pk_certs (put_cert c' s) !! k = Some d' ∧ cert_after d d') as Hm.
  { intros k d Hd. cbn. rewrite Hcid. destruct (decide (k = id)) as [->|Hne].
    - rewrite lookup_insert_eq. exists c'. split; [done|]. congruence.
    - rewrite lookup_insert_ne by done. by exists d. }
  assert (∀ k d, pk_certs s !! k = Some d →
    ∃ d', pk_certs (put_cert c' s) !! k = Some d' ∧ ac_AgentID d' = ac_AgentID d) as Hm'.
  { intros k d (d' & ? & _ & ? & _)%Hm. by exists d'. }
  split; [|split; [done|by intros k q Hk; exists q]]. split; [done| | |].
  - cbn. rewrite Hcid. apply map_Forall_insert_2; [eapply cert_ok_mono; [| |done]; [cbn; lia|done]|].
    intros k d Hd. eapply cert_ok_mono; [| |by apply Hc]; [cbn; lia|done].
  - intros k q Hk. eapply csr_ok_mono; [| |by apply Hq]; [cbn; lia|done].
  - assert (∀ x k, cites (put_cert c' s) x k → cites s x k ∨ (x = inr id ∧ k = ac_RotatedBy c')) as Hback.
    { intros [x|x] k; [by left|]. cbn. rewrite Hcid. intros (d & Hd & <-). destruct (decide (x = id)) as [->|Hne].
      - rewrite lookup_insert_eq in Hd. simplify_eq. by right.
      - rewrite lookup_insert_ne in Hd by done. left. by exists d. }
    assert (uncited s (ac_RotatedBy c') ∨ cites s (inr id) (ac_RotatedBy c')) as Hor.
    { destruct Hcite as [Heq|Hu]; [right|by left]. exists c. split; [done|by symmetry]. }
    intros x y k Hk Hx%Hback Hy%Hback. unfold uncited in Hor. naive_solver.
Qed.

(** A request is added or decided. *)
Lemma PKIInv_csr s id q' :
  PKIInv s → (∀ q, pk_csrs s !! id = Some q → csr_after q q' ∧ cq_CertID q = "") → csr_ok s id q' →
  (cq_CertID q' = "" ∨ uncited s (cq_CertID q')) → PKIInv (put_csr q' s) ∧ store_after s (put_csr q' s).
Proof.
  intros [Hn Hc Hq Ho] Haft Hok Hcite. assert (cq_ID q' = id) as Hqid by apply Hok.
  assert (∀ k d, pk_certs s !! k = Some d → ∃ d', pk_certs (put_csr q' s) !! k = Some d' ∧ ac_AgentID d' = ac_AgentID d)
    as Hm by eauto.
  split; [split; [done| | |]|].
  - intros k d Hd. eapply cert_ok_mono; [|exact Hm|by apply Hc]. cbn. lia.
  - cbn. rewrite Hqid. apply map_Forall_insert_2; [eapply csr_ok_mono; [|exact Hm|exact Hok]; cbn; lia|].
    intros k q Hk. eapply csr_ok_mono; [|exact Hm|by apply Hq]. cbn. lia.
  - assert (∀ x k, k ≠ "" → cites (put_csr q' s) x k → cites s x k ∨ (x = inl id ∧ k = cq_CertID q')) as Hback.
    { intros [x|x] k Hk; [|by left]. cbn. rewrite Hqid. intros (d & Hd & <-). destruct (decide (x = id)) as [->|Hne].
      - rewrite lookup_insert_eq in Hd. simplify_eq. by right.
      - rewrite lookup_insert_ne in Hd by done. left. by exists d. }
    intros x y k Hk Hx%Hback Hy%Hback; [|done..]. unfold uncited in Hcite. naive_solver.
  - split; [by intros k c Hk; exists c|]. intros k q Hk. cbn. rewrite Hqid. destruct (decide (k = id)) as [->|Hne].
    + rewrite lookup_insert_eq. exists q'. split; [done|]. by apply Haft.
    + rewrite lookup_insert_ne by done. by exists q.
Qed.

(** ** Issuing *)

Lemma cert_id_nonempty n : "cert-" +:+ itoa n ≠ "".
Proof. done. Qed.

Lemma cites_known s x id : PKIInv s → id ≠ "" → cites s x id → is_Some (pk_certs s !! id).
Proof.
  intros [_ Hc Hq _] Hne. destruct x as [q|k]; intros (item & Hitem & <-).
  - destruct (qo_cert _ _ _ (Hq _ _ Hitem) Hne) as (c & -> & _). by eexists.
  - destruct (co_successor _ _ _ (Hc _ _ Hitem) Hne) as (c & -> & _). by eexists.
Qed.

Lemma issue_fresh s : PKIInv s → pk_nextCert s < max_int64 → pk_certs s !! ("cert-" +:+ itoa (pk_nextCert s + 1)) = None.
Proof.
  intros Hs Hmax. apply eq_None_not_Some. intros [c Hc]. destruct (co_number _ _ _ (pi_certs _ Hs _ _ Hc)) as (n & Hn & Heq & _).
  apply (numbered_fresh "cert-" (pk_nextCert s)); [pose proof (pi_counters _ Hs); lia|]. by exists n.
Qed.

Lemma issue_ok agentID now s s' c :
  PKIInv s → pk_nextCert s < max_int64 → agentID ≠ "" → issueCertificateLocked agentID now s = (s', c) →
  PKIInv s' ∧ store_after s s' ∧ pk_csrs s' = pk_csrs s ∧ pk_nextCSR s' = pk_nextCSR s ∧
  pk_certs s !! ac_ID c = None ∧ pk_certs s' = <[ac_ID c := c]> (pk_certs s) ∧ uncited s' (ac_ID c) ∧
  ac_ID c ≠ "" ∧ ac_AgentID c = agentID ∧ ac_Status c = CertActive.
Proof.
  intros Hs Hmax Ha [= <- <-]. pose proof (issue_fresh s Hs Hmax) as Hfresh. cbn [ac_ID ac_AgentID ac_Status].
  pose proof Hs as [[Hn1 Hn2] Hc Hq Ho]. set (f := "cert-" +:+ itoa (pk_nextCert s + 1)) in *.
  match goal with |- PKIInv ?x ∧ _ => set (s' := x) end.
  assert (f ≠ "") as Hfne by apply cert_id_nonempty.
  assert (∀ k d, pk_certs s !! k = Some d → ∃ d', pk_certs s' !! k = Some d' ∧ ac_AgentID d' = ac_AgentID d) as Hm.
  { intros k d Hd. exists d. split; [|done]. cbn. fold f. rewrite lookup_insert_ne; [done|]. intros <-. congruence. }
  assert (∀ x k, k ≠ "" → cites s' x k → cites s x k) as Hback.
  { intros [x|x] k Hk; [done|]. cbn. fold f. intros (d & Hd & <-). destruct (decide (x = f)) as [->|Hne].
    - rewrite lookup_insert_eq in Hd. by simplify_eq.
    - rewrite lookup_insert_ne in Hd by done. by exists d. }
  split; [split|split; [split|]].
  - cbn. lia.
  - cbn. apply map_Forall_insert_2.
    + split; cbn; try done. exists (pk_nextCert s + 1). split; [lia|done].
    + intros k d Hd. eapply cert_ok_mono; [|done|by apply Hc]. cbn. lia.
  - intros k q Hk. eapply csr_ok_mono; [|done|by apply Hq]. cbn. lia.
  - intros x y k Hk Hx%Hback Hy%Hback; [|done..]. by eapply Ho.
  - intros k d Hd. exists d. split; [|reflexivity]. cbn. fold f. rewrite lookup_insert_ne; [done|]. intros <-. congruence.
  - intros k q Hk. by exists q.
  - split; [done|]. split; [done|]. split; [done|]. split; [done|]. split; [|done].
    intros x Hx%Hback; [|done]. apply cites_known in Hx; [|done..]. rewrite Hfresh in Hx. by destruct Hx.
Qed.

(** The certificate [c], replaced by the one with the key [by_]. *)
Definition replaced (c : AgentCertificate) (by_ : string) : AgentCertificate :=
  c <| ac_Status := CertRotated |> <| ac_RotatedBy := by_ |>.

Lemma rotate_cert_eq s id c now :
  PKIInv s → pk_nextCert s < max_int64 → pk_certs s !! id = Some c →
  rotate_cert c now s =
    let '(s', n) := issueCertificateLocked (ac_AgentID c) now s in (put_cert (replaced c (ac_ID n)) s', n).
Proof.
  intros Hs Hmax Hid. pose proof (issue_fresh s Hs Hmax) as Hfresh.
  assert (ac_ID c = id) as <- by by destruct (pi_certs _ Hs _ _ Hid).
  unfold rotate_cert, issueCertificateLocked, put_cert, replaced. cbn. f_equal. f_equal.
  assert (ac_ID c ≠ "cert-" +:+ itoa (pk_nextCert s + 1)) as Hne by congruence. cbn in Hne.
  rewrite (insert_insert_ne _ (ac_ID c)), insert_insert_eq by done. apply insert_insert_ne. congruence.
Qed.

Lemma rotate_cert_ok s id c now s' n :
  PKIInv s → pk_nextCert s < max_int64 → pk_certs s !! id = Some c → ac_Status c = CertActive →
  rotate_cert c now s = (s', n) →
  PKIInv s' ∧ store_after s s' ∧ pk_certs s !! ac_ID n = None ∧
  pk_certs s' = <[id := replaced c (ac_ID n)]> (<[ac_ID n := n]> (pk_certs s)) ∧
  ac_AgentID n = ac_AgentID c ∧ ac_Status n = CertActive.
Proof.
  intros Hs Hmax Hid Hact. rewrite (rotate_cert_eq s id) by done.
  destruct (issueCertificateLocked (ac_AgentID c) now s) as [s1 n'] eqn:Hissue. intros [= <- <-].
  pose proof (pi_certs _ Hs _ _ Hid) as Hc.
  destruct (issue_ok _ _ _ _ _ Hs Hmax (co_agent _ _ _ Hc) Hissue) as (Hs1 & Haft & _ & _ & Hnone & Hcerts & Hun & Hne & Hag & Hst).
  assert (ac_ID n' ≠ id) as Hdiff by congruence.
  assert (pk_certs s1 !! id = Some c) as Hid1 by by rewrite Hcerts, lookup_insert_ne.
  pose proof (pi_certs _ Hs1 _ _ Hid1) as Hc1.
  destruct (PKIInv_cert s1 id c (replaced c (ac_ID n')) Hs1 Hid1) as [Hs2 Haft2].
  - repeat split; cbn; [rewrite Hact; cbn; lia| |congruence]. intros Hr. by rewrite (co_active _ _ _ Hc Hact) in Hr.
  - destruct Hc1. split; cbn; try done.
    + split; [done|]. intros Hr. apply co_revoked0 in Hr. congruence.
    + intros _. exists n'. rewrite Hcerts, lookup_insert_eq. done.
  - right. cbn. done.
  - split; [done|]. split; [by etrans|]. split; [done|]. split; [|done]. cbn. rewrite Hcerts.
    by rewrite (co_id _ _ _ Hc).
Qed.

(** ** The calls *)

Lemma renew_one_counters t now s r id s' r' :
  renew_one t now (s, r) id = (s', r') → pk_nextCert s ≤ pk_nextCert s' ∧ pk_nextCSR s ≤ pk_nextCSR s'.
Proof.
  unfold renew_one. destruct (pk_certs s !! id); [|intros; simplify_eq; lia]. destruct (negb _); [intros; simplify_eq; lia|].
  destruct (After _ _); [intros; simplify_eq; lia|]. simpl. intros. simplify_eq. simpl. lia.
Qed.

Lemma renew_visits_counters t visits s r s' r' :
  foldl (renew_visit t) (s, r) visits = (s', r') → pk_nextCert s ≤ pk_nextCert s' ∧ pk_nextCSR s ≤ pk_nextCSR s'.
Proof.
  revert s r. induction visits as [|[id now] visits IH]; intros s r; cbn [foldl]; [intros; simplify_eq; lia|].
  change (renew_visit t (s, r) (id, now)) with (renew_one t now (s, r) id).
  destruct (renew_one t now (s, r) id) as [s1 r1] eqn:H1. intros H2%IH. apply renew_one_counters in H1. lia.
Qed.

Lemma counters_of_step s c : pk_nextCert s ≤ pk_nextCert (pki_step s c) ∧ pk_nextCSR s ≤ pk_nextCSR (pki_step s c).
Proof.
  destruct c as [[ro policy|ro i|id decision reason|id|ro agentID|withinHours visits] now]; simpl.
  - lia.
  - unfold SubmitCSR. destruct (eqs _ ""); [simpl; lia|]. destruct (_ && _); simpl; lia.
  - unfold DecideCSR. destruct (eqs _ ""); [simpl; lia|]. destruct (_ && _); [simpl; lia|].
    destruct (pk_csrs s !! _); [|simpl; lia]. destruct (negb _); [simpl; lia|]. destruct (eqs _ _); simpl; lia.
  - unfold RevokeCertificate. destruct (eqs _ ""); [simpl; lia|]. destruct (pk_certs s !! _); [|simpl; lia].
    destruct (bool_decide _); simpl; lia.
  - unfold RotateAgentCertificate. destruct (eqs _ ""); [simpl; lia|]. destruct (foldl _ _ _); simpl; lia.
  - unfold RenewExpiring. destruct (foldl _ _ _) as [s' r] eqn:Hrun. by eapply renew_visits_counters.
Qed.

Lemma counters_of_steps ops s :
  pk_nextCert s ≤ pk_nextCert (foldl pki_step s ops) ∧ pk_nextCSR s ≤ pk_nextCSR (foldl pki_step s ops).
Proof.
  induction ops as [|c ops IH] using rev_ind; [simpl; lia|]. rewrite foldl_app. cbn [foldl].
  pose proof (counters_of_step (foldl pki_step s ops) c). lia.
Qed.

Definition pki_good (s s' : AgentPKIStore) : Prop := PKIInv s' ∧ store_after s s'.

Lemma pki_good_refl s : PKIInv s → pki_good s s.
Proof. intros Hs. split; [done|reflexivity]. Qed.

Lemma pki_good_trans s1 s2 s3 : pki_good s1 s2 → pki_good s2 s3 → pki_good s1 s3.
Proof. intros [_ H12] [H3 H23]. split; [done|by etrans]. Qed.

Lemma SetPolicy_ok ro policy now s : PKIInv s → pki_good s (SetPolicy ro policy now s).1.
Proof.
  intros [Hn Hc Hq Ho]. split; [|split; intros id x Hx; exists x; (split; [done|reflexivity])].
  split; [done|..]; cbn.
  - intros k d Hd. eapply cert_ok_mono; [| |by apply Hc]; [cbn; lia|]. eauto.
  - intros k q Hk. eapply csr_ok_mono; [| |by apply Hq]; [cbn; lia|]. eauto.
  - exact Ho.
Qed.

Lemma uncited_put_csr s q id :
  id ≠ "" → cq_CertID q = "" → uncited s id → uncited (put_csr q s) id.
Proof.
  intros Hid Hq Hu [x|x]; [|by apply (Hu (inr x))]. intros (item & Hx & Hc). cbn in Hx.
  destruct (decide (x = cq_ID q)) as [->|Hne]; [rewrite lookup_insert_eq in Hx; simplify_eq; congruence|].
  rewrite lookup_insert_ne in Hx by done. apply (Hu (inl x)). by exists item.
Qed.

(** A pending request gets a certificate. *)
Lemma grant_ok s id q now s1 c q' :
  PKIInv s → pk_nextCert s < max_int64 → pk_csrs s !! id = Some q → cq_Status q = CSRPending →
  issueCertificateLocked (cq_AgentID q) now s = (s1, c) →
  q' = q <| cq_Status := CSRIssued |> <| cq_CertID := ac_ID c |> <| cq_UpdatedAt := now |> →
  pki_good s (put_csr q' s1).
Proof.
  intros Hs Hmax Hid Hpend Hissue ->. pose proof (pi_csrs _ Hs _ _ Hid) as Hq.
  destruct (issue_ok _ _ _ _ _ Hs Hmax (qo_agent _ _ _ Hq) Hissue) as (Hs1 & Haft & Hcsrs & Hnext & _ & Hcerts & Hun & Hne & Hag & _).
  eapply pki_good_trans; [by split|]. eapply (PKIInv_csr s1 id); [done| | |by right].
  - intros q2 Hq2. rewrite Hcsrs in Hq2. assert (q2 = q) as -> by congruence. split.
    + repeat split; cbn. intros Hst. congruence.
    + destruct (decide (cq_CertID q = "")) as [|Hc]; [done|]. apply (qo_issued _ _ _ Hq) in Hc. congruence.
  - destruct Hq. split; cbn; try done; [by rewrite Hnext|]. intros _. exists c. by rewrite Hcerts, lookup_insert_eq.
Qed.

Lemma SubmitCSR_ok ro i now s s' r :
  PKIInv s → pk_nextCert s < max_int64 → pk_nextCSR s < max_int64 → SubmitCSR ro i now s = (s', r) → pki_good s s'.
Proof.
  intros Hs Hmax Hmax2. unfold SubmitCSR. destruct (eqs (TrimSpace (ci_AgentID i)) "") eqn:Ha.
  { intros [= <- <-]. by apply pki_good_refl. }
  apply eqs_false in Ha. set (q := mkCSR _ _ _ _ _ _ _ _). set (s0 := s <| pk_nextCSR := _ |>). cbv zeta.
  assert (PKIInv s0 ∧ store_after s s0) as [Hs0 Haft0].
  { split; [|split; intros id x Hx; exists x; (split; [done|reflexivity])]. destruct Hs as [Hn Hc Hq Ho]. split; cbn; [lia| | |exact Ho].
    - intros k d Hd. eapply cert_ok_mono; [| |by apply Hc]; [cbn; lia|]. eauto.
    - intros k x Hx. eapply csr_ok_mono; [| |by apply Hq]; [cbn; lia|]. eauto. }
  assert (pki_good s (put_csr q s0)) as Hgood.
  { eapply pki_good_trans; [by split|]. eapply (PKIInv_csr s0 (cq_ID q)); [done| | |by left].
    - intros q2 Hq2. destruct (qo_number _ _ _ (pi_csrs _ Hs _ _ Hq2)) as (n & Hn & Heq). exfalso.
      apply (numbered_fresh "csr-" (pk_nextCSR s)); [pose proof (pi_counters _ Hs); lia|]. by exists n.
    - split; cbn; try done. apply numbered_next. apply Hs. }
  destruct (cp_AutoApprove _ && _); [|intros [= <- <-]; done].
  destruct (issueCertificateLocked _ _ _) as [s1 c] eqn:Hissue. intros [= <- <-].
  eapply pki_good_trans; [done|]. eapply (grant_ok _ (cq_ID q) q now s1 c); [apply Hgood|done| |done|done|done].
  cbn. by rewrite lookup_insert_eq.
Qed.

Lemma DecideCSR_ok id decision reason now s s' r :
  PKIInv s → pk_nextCert s < max_int64 → DecideCSR id decision reason now s = (s', r) → pki_good s s'.
Proof.
  intros Hs Hmax. unfold DecideCSR. destruct (eqs _ ""); [intros [= <- <-]; by apply pki_good_refl|].
  destruct (_ && _); [intros [= <- <-]; by apply pki_good_refl|].
  destruct (pk_csrs s !! TrimSpace id) as [q|] eqn:Hid; [|intros [= <- <-]; by apply pki_good_refl].
  case_bool_decide as Hpend; cbn [negb]; [|intros [= <- <-]; by apply pki_good_refl].
  pose proof (pi_csrs _ Hs _ _ Hid) as Hq. destruct (eqs (norm decision) "approve").
  - destruct (issueCertificateLocked _ _ _) as [s1 c] eqn:Hissue. intros [= <- <-]. by eapply grant_ok.
  - intros [= <- <-]. eapply (PKIInv_csr s (TrimSpace id)); [done| | |left].
    + intros q2 Hq2. assert (q2 = q) as -> by congruence. split; [repeat split; cbn; intros Hst; congruence|].
      destruct (decide (cq_CertID q = "")) as [|Hc]; [done|]. apply (qo_issued _ _ _ Hq) in Hc. congruence.
    + destruct Hq. split; cbn; try done. split; [done|]. intros Hc. apply qo_issued0 in Hc. congruence.
    + cbn. destruct (decide (cq_CertID q = "")) as [|Hc]; [done|]. apply (qo_issued _ _ _ Hq) in Hc. congruence.
Qed.

Lemma RevokeCertificate_ok id now s s' r : PKIInv s → RevokeCertificate id now s = (s', r) → pki_good s s'.
Proof.
  intros Hs. unfold RevokeCertificate. destruct (eqs _ ""); [intros [= <- <-]; by apply pki_good_refl|].
  destruct (pk_certs s !! TrimSpace id) as [c|] eqn:Hid; [|intros [= <- <-]; by apply pki_good_refl].
  case_bool_decide as Hrev; [intros [= <- <-]; by apply pki_good_refl|]. intros [= <- <-].
  pose proof (pi_certs _ Hs _ _ Hid) as Hc. eapply PKIInv_cert; [done|done| | |by left].
  - repeat split; cbn; [destruct (ac_Status c); cbn; lia|congruence].
  - destruct Hc. by split; cbn.
Qed.

Lemma latest_one_found agentID certs latest :
  foldl (latest_one agentID) None certs = Some latest →
  latest ∈ certs ∧ ac_AgentID latest = agentID ∧ ac_Status latest = CertActive.
Proof.
  assert (∀ acc, foldl (latest_one agentID) acc certs = Some latest →
    acc = Some latest ∨ latest ∈ certs ∧ ac_AgentID latest = agentID ∧ ac_Status latest = CertActive) as Hl.
  { induction certs as [|c certs IH]; intros acc; simpl; [by left|]. intros [Hacc|Hin]%IH; [|right; set_solver].
    unfold latest_one in Hacc. destruct (_ || _) eqn:Hor; [by left|].
    apply orb_false_iff in Hor as [Hag Hact]. apply negb_false in Hag, Hact. apply eqs_true in Hag.
    apply bool_decide_eq_true in Hact.
    destruct acc as [l|]; [destruct (After _ _)|]; simplify_eq; auto; right; (split; [by left|done]). }
  intros [?|?]%Hl; done.
Qed.

Lemma RotateAgentCertificate_ok ro agentID now s s' r :
  PKIInv s → pk_nextCert s < max_int64 → RotateAgentCertificate ro agentID now s = (s', r) → pki_good s s'.
Proof.
  intros Hs Hmax. unfold RotateAgentCertificate. destruct (eqs (TrimSpace agentID) "") eqn:Ha.
  { intros [= <- <-]. by apply pki_good_refl. }
  apply eqs_false in Ha. destruct (foldl _ _ _) as [latest|] eqn:Hl.
  - apply latest_one_found in Hl as (([id ?] & -> & Hin)%list_elem_of_fmap & _ & Hact). apply elem_of_range in Hin.
    destruct (rotate_cert _ _ _) as [s1 n] eqn:Hr. intros [= <- <-].
    destruct (rotate_cert_ok _ _ _ _ _ _ Hs Hmax Hin Hact Hr) as (? & ? & _). by split.
  - destruct (issueCertificateLocked _ _ _) as [s1 n] eqn:Hr. intros [= <- <-].
    destruct (issue_ok _ _ _ _ _ Hs Hmax Ha Hr) as (? & ? & _). by split.
Qed.

Lemma renew_one_cases t now s renewed id s' renewed' :
  PKIInv s → pk_nextCert s' ≤ max_int64 → renew_one t now (s, renewed) id = (s', renewed') →
  s' = s ∧ renewed' = renewed ∧ (∀ c, pk_certs s !! id = Some c → expires_within t c = false) ∨
  ∃ c n, pk_certs s !! id = Some c ∧ expires_within t c = true ∧ rotate_cert c now s = (s', n) ∧ renewed' = renewed ++ [n] ∧
    pk_nextCert s < max_int64.
Proof.
  intros Hs Hmax. unfold renew_one, expires_within. destruct (pk_certs s !! id) as [c|]; [|intros [= <- <-]; by left].
  destruct (cert_active c) eqn:Hact; cbn [negb andb]; [|intros [= <- <-]; left; split; [done|]; split; [done|];
    intros c' [= <-]; by rewrite Hact].
  unfold After, Before. destruct (t <? ac_ExpiresAt c) eqn:Haf.
  - intros [= <- <-]. left. split; [done|]. split; [done|]. intros c' [= <-]. rewrite Hact. apply orb_false_iff. split; lia.
  - destruct (rotate_cert c now s) as [s1 n] eqn:Hr. intros [= <- <-]. right. exists c, n.
    split; [done|]. split; [rewrite Hact; apply orb_true_iff; lia|]. split; [done|]. split; [done|].
    unfold rotate_cert in Hr. simpl in Hr. simplify_eq. simpl in Hmax. lia.
Qed.

Lemma renew_one_ok t now s renewed id s' renewed' :
  PKIInv s → pk_nextCert s' ≤ max_int64 → renew_one t now (s, renewed) id = (s', renewed') → pki_good s s'.
Proof.
  intros Hs Hmax Hr. destruct (renew_one_cases _ _ _ _ _ _ _ Hs Hmax Hr) as [(-> & _)|(c & n & Hid & Hex & Hro & _ & Hmax')].
  - by apply pki_good_refl.
  - apply andb_true_iff in Hex as [Hact%bool_decide_eq_true _].
    destruct (rotate_cert_ok _ _ _ _ _ _ Hs Hmax' Hid Hact Hro) as (? & ? & _). by split.
Qed.

(** ** Renewal *)

Definition expiring (t : Time) (m : gmap string AgentCertificate) : list AgentCertificate :=
  filter (λ cert, expires_within t cert = true) (map_to_list m).*2.

Lemma expiring_insert t (m : gmap string AgentCertificate) id c :
  m !! id = None → expires_within t c = false → expiring t (<[id := c]> m) ≡ₚ expiring t m.
Proof.
  intros Hid Hc. unfold expiring. rewrite map_to_list_insert, fmap_cons by done.
  by rewrite filter_cons_False by (cbn; congruence).
Qed.

Lemma expiring_replace t (m : gmap string AgentCertificate) id c c' :
  m !! id = Some c → expires_within t c = true → expires_within t c' = false →
  expiring t m ≡ₚ c :: expiring t (<[id := c']> m).
Proof.
  intros Hid Hc Hc'. rewrite <-(insert_delete_id m id c Hid) at 1. rewrite <-(insert_delete_eq m id c').
  rewrite (expiring_insert t (delete id m) id c') by first [apply lookup_delete_eq|exact Hc']. unfold expiring.
  rewrite map_to_list_insert, fmap_cons by apply lookup_delete_eq. by rewrite filter_cons_True.
Qed.

Lemma elem_of_expiring t (m : gmap string AgentCertificate) c :
  c ∈ expiring t m ↔ expires_within t c = true ∧ ∃ id, m !! id = Some c.
Proof.
  unfold expiring. rewrite list_elem_of_filter, list_elem_of_fmap. split.
  - intros (? & [id c'] & -> & Hin%elem_of_map_to_list). by split; [|exists id].
  - intros (? & id & Hid). split; [done|]. exists (id, c). by rewrite elem_of_map_to_list.
Qed.

(** What a renewal of the certificates that expire by [t] does: these get a
    successor each among the new ones, the others stay. *)
Record renewal (t : Time) (s s' : AgentPKIStore) (new : list AgentCertificate) : Prop := {
  rn_kept id c : pk_certs s !! id = Some c → expires_within t c = false → pk_certs s' !! id = Some c;
  rn_replaced id c : pk_certs s !! id = Some c → expires_within t c = true →
    ∃ n, n ∈ new ∧ pk_certs s !! ac_ID n = None ∧ pk_certs s' !! id = Some (replaced c (ac_ID n)) ∧
      pk_certs s' !! ac_ID n = Some n ∧ ac_AgentID n = ac_AgentID c ∧ ac_Status n = CertActive;
  rn_only id c : pk_certs s' !! id = Some c → is_Some (pk_certs s !! id) ∨ c ∈ new;
}.

(** A turn that renews a certificate, from the state [s] to [s1]. *)
Record renewed_one (t : Time) (s s1 : AgentPKIStore) (id : string) (c n : AgentCertificate) : Prop := {
  ro_good : pki_good s s1;
  ro_next : pk_nextCert s1 = pk_nextCert s + 1;
  ro_fresh : pk_certs s !! ac_ID n = None;
  ro_certs : pk_certs s1 = <[id := replaced c (ac_ID n)]> (<[ac_ID n := n]> (pk_certs s));
  ro_agent : ac_AgentID n = ac_AgentID c;
  ro_active : ac_Status n = CertActive;
  ro_later : expires_within t n = false;
  ro_expiring : expiring t (pk_certs s) ≡ₚ c :: expiring t (pk_certs s1);
}.

Lemma renew_one_expiring t now s c n s1 id :
  PKIInv s → pk_nextCert s < max_int64 → t < now + lifetime → pk_certs s !! id = Some c → expires_within t c = true →
  rotate_cert c now s = (s1, n) → renewed_one t s s1 id c n.
Proof.
  intros Hs Hmax Ht Hid Hex Hro.
  assert (ac_Status c = CertActive) as Hact by by apply andb_true_iff in Hex as [?%bool_decide_eq_true _].
  destruct (rotate_cert_ok _ _ _ _ _ _ Hs Hmax Hid Hact Hro) as (Hinv & Haft & Hnone & Hcerts & Hag & Hst).
  assert (ac_ID n ≠ id) as Hne by congruence.
  assert (expires_within t n = false ∧ pk_nextCert s1 = pk_nextCert s + 1) as [Hexn Hnext].
  { unfold rotate_cert in Hro. simpl in Hro. simplify_eq. unfold expires_within, Before, Add. simpl. split; [|done].
    apply orb_false_iff. split; lia. }
  split; try done. rewrite Hcerts, insert_insert_ne by done.
  rewrite expiring_insert; [|by rewrite lookup_insert_ne|done]. by apply expiring_replace.
Qed.

Lemma renew_one_eq t now s renewed id c :
  pk_certs s !! id = Some c →
  renew_one t now (s, renewed) id =
    if expires_within t c then let '(s1, n) := rotate_cert c now s in (s1, renewed ++ [n]) else (s, renewed).
Proof.
  intros Hid. unfold renew_one, expires_within, After, Before. rewrite Hid. destruct (cert_active c); [|done]. cbn [negb andb].
  destruct (Z.ltb_spec t (ac_ExpiresAt c)), (Z.ltb_spec (ac_ExpiresAt c) t), (Z.eqb_spec (ac_ExpiresAt c) t); done || lia.
Qed.

(** What the turn and the rest of the loop do together. *)
Lemma renewal_trans t s s1 s' id c n new :
  pk_certs s !! id = Some c → expires_within t c = true → renewed_one t s s1 id c n → renewal t s1 s' new →
  renewal t s s' (n :: new).
Proof.
  intros Hid Hex [_ _ Hfresh Hcerts Hag Hst Hlater _] [Hkept Hrep Honly]. assert (ac_ID n ≠ id) as Hne by congruence.
  assert (∀ k d, pk_certs s !! k = Some d → k ≠ id → pk_certs s1 !! k = Some d) as Hstay.
  { intros k d Hk Hkid. rewrite Hcerts, !lookup_insert_ne; [done|congruence..]. }
  split.
  - intros k d Hk Hd. apply Hkept; [|done]. apply Hstay; [done|congruence].
  - intros k d Hk Hd. destruct (decide (k = id)) as [->|Hkid].
    + assert (d = c) as -> by congruence. exists n. split; [by left|]. split; [done|].
      split; [apply Hkept; [by rewrite Hcerts, lookup_insert_eq|done]|]. split; [|done].
      apply Hkept; [|done]. by rewrite Hcerts, lookup_insert_ne, lookup_insert_eq.
    + destruct (Hrep k d (Hstay _ _ Hk Hkid) Hd) as (n' & Hin & Hnone & Hn'). exists n'. split; [by right|]. split; [|done].
      destruct (pk_certs s !! ac_ID n') as [x|] eqn:Hx; [|done]. exfalso. destruct (decide (ac_ID n' = id)) as [Heq|Hxid].
      * by rewrite Heq, Hcerts, lookup_insert_eq in Hnone.
      * rewrite (Hstay _ _ Hx Hxid) in Hnone. done.
  - intros k d Hk. destruct (Honly _ _ Hk) as [Hk1|Hin]; [|right; by right]. rewrite Hcerts in Hk1.
    destruct (decide (k = id)) as [->|Hkid]; [left; by eexists|]. rewrite lookup_insert_ne in Hk1 by done.
    destruct (decide (k = ac_ID n)) as [->|Hkn]; [|rewrite lookup_insert_ne in Hk1 by done; by left].
    right. assert (pk_certs s1 !! ac_ID n = Some n) as Hn by by rewrite Hcerts, lookup_insert_ne, lookup_insert_eq.
    apply (Hkept _ _ Hn) in Hlater. assert (d = n) as -> by congruence. by left.
Qed.

(** The loop of [RenewExpiring], whatever order it meets the certificates in. *)
Lemma renew_loop t visits todo seen s renewed :
  Forall (λ v : string * Time, t < v.2 + lifetime) visits → PKIInv s → pk_nextCert s + Z.of_nat (length (expiring t (pk_certs s))) ≤ max_int64 →
  (∀ id c, pk_certs s !! id = Some c → expires_within t c = true → id ∈ todo) → fair_visits t todo seen s visits →
  ∃ s' new, foldl (renew_visit t) (s, renewed) visits = (s', renewed ++ new) ∧ pki_good s s' ∧
    expiring t (pk_certs s') = [] ∧ ac_AgentID <$> new ≡ₚ ac_AgentID <$> expiring t (pk_certs s) ∧ renewal t s s' new.
Proof.
  intros Hall. revert todo seen s renewed. induction Hall as [|[id now] visits Ht _ IH]; intros todo seen s renewed Hs Hmax Htodo Hfair.
  { cbn in Hfair. exists s, []. rewrite app_nil_r. assert (expiring t (pk_certs s) = []) as Hnil.
    { apply elem_of_nil_inv. intros c (Hex & k & Hk)%elem_of_expiring. specialize (Htodo _ _ Hk Hex). set_solver. }
    rewrite Hnil. split; [done|]. split; [by apply pki_good_refl|]. split; [done|]. split; [done|]. split; [done|..].
    - intros k c Hk Hex. specialize (Htodo _ _ Hk Hex). set_solver.
    - intros k c Hk. left. by eexists. }
  destruct Hfair as (Hseen & [c Hid] & Hfair). cbn [foldl fst snd] in *.
  change (renew_visit t (s, []) (id, now)) with (renew_one t now (s, []) id) in Hfair.
  change (renew_visit t (s, renewed) (id, now)) with (renew_one t now (s, renewed) id).
  rewrite (renew_one_eq _ _ _ [] _ _ Hid) in Hfair. rewrite (renew_one_eq _ _ _ renewed _ _ Hid).
  destruct (expires_within t c) eqn:Hex.
  - destruct (rotate_cert c now s) as [s1 n] eqn:Hro. cbn [fst] in Hfair.
    assert (c ∈ expiring t (pk_certs s)) as Hin by (apply elem_of_expiring; by split; [|exists id]).
    assert (0 < length (expiring t (pk_certs s)))%nat as Hpos by by destruct (expiring t (pk_certs s)); [set_solver|cbn; lia].
    assert (renewed_one t s s1 id c n) as Hone by (eapply renew_one_expiring; try done; lia).
    pose proof Hone as [Hgood Hnext Hfresh Hcerts Hag _ Hlater Hperm].
    apply (IH _ _ _ (renewed ++ [n]) (proj1 Hgood)) in Hfair as (s' & new & Hrun & Hgood' & Hnone & Hagents & Hren).
    + exists s', (n :: new). rewrite Hrun, <-app_assoc. split; [done|]. split; [by eapply pki_good_trans|]. split; [done|].
      split; [by rewrite Hperm, !fmap_cons, Hag, Hagents|]. by eapply renewal_trans.
    + rewrite Hnext. apply Permutation_length in Hperm. rewrite Hperm in Hmax. cbn in Hmax. lia.
    + intros k d Hk Hd. rewrite Hcerts in Hk. apply lookup_insert_Some in Hk as [[<- <-]|[Hkid Hk]]; [done|].
      apply lookup_insert_Some in Hk as [[<- <-]|[_ Hk]]; [congruence|]. specialize (Htodo _ _ Hk Hd). set_solver.
  - apply (IH _ _ _ renewed Hs Hmax) in Hfair as Hrest; [done|]. intros k d Hk Hd.
    specialize (Htodo _ _ Hk Hd). assert (k ≠ id) by congruence. set_solver.
Qed.

(** ** Histories *)

Lemma renew_visits_ok t visits s r s' r' :
  PKIInv s → pk_nextCert s' ≤ max_int64 → foldl (renew_visit t) (s, r) visits = (s', r') → pki_good s s'.
Proof.
  intros Hs Hmax. revert s r Hs. induction visits as [|[id now] visits IH]; intros s r Hs; cbn [foldl].
  { intros [= <- <-]. by apply pki_good_refl. }
  change (renew_visit t (s, r) (id, now)) with (renew_one t now (s, r) id).
  destruct (renew_one t now (s, r) id) as [s1 r1] eqn:H1. intros H2. pose proof (renew_visits_counters _ _ _ _ _ _ H2) as Hle.
  assert (pki_good s s1) as Hgood by (eapply renew_one_ok; [done| |done]; lia).
  eapply pki_good_trans; [done|]. eapply IH; [apply Hgood|done].
Qed.

Lemma pki_step_ok s c :
  PKIInv s → pk_nextCert (pki_step s c) < max_int64 → pk_nextCSR (pki_step s c) < max_int64 → pki_good s (pki_step s c).
Proof.
  intros Hs Hcert Hcsr. pose proof (counters_of_step s c) as Hle.
  destruct c as [[ro policy|ro i|id decision reason|id|ro agentID|withinHours visits] now]; cbn [pki_step] in *.
  - by apply SetPolicy_ok.
  - eapply SubmitCSR_ok; [done|lia|lia|apply surjective_pairing].
  - eapply DecideCSR_ok; [done|lia|apply surjective_pairing].
  - eapply RevokeCertificate_ok; [done|apply surjective_pairing].
  - eapply RotateAgentCertificate_ok; [done|lia|apply surjective_pairing].
  - unfold RenewExpiring in *. destruct (foldl _ _ _) as [s' r] eqn:Hrun. cbn [fst] in *.
    eapply renew_visits_ok; [done| |done]. lia.
Qed.

Lemma PKIInv_new now : PKIInv (NewAgentPKIStore now).
Proof. split; [done|by intros ? ?..|]. intros [x|x] y id _ (? & Hx & _); cbn in Hx; done. Qed.

Lemma pki_steps_ok ops s :
  PKIInv s → pk_nextCert (foldl pki_step s ops) < max_int64 → pk_nextCSR (foldl pki_step s ops) < max_int64 →
  pki_good s (foldl pki_step s ops).
Proof.
  intros Hs. induction ops as [|c ops IH] using rev_ind; [by intros; apply pki_good_refl|].
  rewrite foldl_app. cbn [foldl]. intros Hcert Hcsr. pose proof (counters_of_step (foldl pki_step s ops) c) as Hle.
  eapply pki_good_trans; [apply IH; lia|]. apply pki_step_ok; [apply IH; lia|done..].
Qed.

(** ** Claims *)

(** C36: at any two points of a history of policies, requests, decisions,
    revocations, rotations and renewals, as long as the counters do not
    overflow: every certificate known at the first is known at the second, with
    the agent, serial number and life time it was issued with, is never active
    again once rotated and never changed once revoked; a request that was
    decided stays as it was decided.  At the second point every certificate has
    a number of its own and expires 90 days after it was issued, is revoked
    exactly when it has a time of revocation and rotated only with a successor
    of the same agent; a request names a certificate exactly when it is issued,
    and that certificate is its agent's; and no certificate is the answer to two
    requests, or the successor of two certificates, or both. *)
Theorem agent_certificates start before after :
  let s := pki_history start before in
  let s' := pki_history start (before ++ after) in
  pk_nextCert s' < max_int64 → pk_nextCSR s' < max_int64 → PKIInv s' ∧ store_after s s'.
Proof.
  cbn zeta. unfold pki_history. rewrite foldl_app. intros Hcert Hcsr.
  pose proof (counters_of_steps after (foldl pki_step (NewAgentPKIStore start) before)) as Hle.
  destruct (pki_steps_ok before _ (PKIInv_new start)) as [Hs _]; [lia..|]. by apply pki_steps_ok.
Qed.

(** C37: renewal, for a window that ends before a certificate issued now expires
    and a clock that does not go back while the loop runs: in whatever order the
    loop meets the certificates, and whether or not it meets those it issues,
    exactly the active certificates that [ExpiryReport] lists get one successor
    each, active, new and of the same agent; all others stay as they are, the
    count is the report's, and the report that follows is empty. *)
Theorem certificate_renewal withinHours visits now s :
  let t := threshold withinHours now in
  let report := ExpiryReport withinHours now s in
  PKIInv s → t < now + lifetime → Forall (λ v : string * Time, now ≤ v.2) visits →
  pk_nextCert s + xr_ExpiringCount report ≤ max_int64 → fair_visits t (dom (pk_certs s)) ∅ s visits →
  let '(s', r) := RenewExpiring withinHours visits now s in
  PKIInv s' ∧ store_after s s' ∧ renewal t s s' (rw_Renewed r) ∧ rw_RenewedCount r = xr_ExpiringCount report ∧
  ac_AgentID <$> rw_Renewed r ≡ₚ ac_AgentID <$> xr_Items report ∧ xr_Items (ExpiryReport withinHours now s') = [].
Proof.
  cbn zeta. intros Hs Ht Hclock Hmax Hfair. unfold RenewExpiring.
  destruct (renew_loop (threshold withinHours now) visits (dom (pk_certs s)) ∅ s [])
    as (s' & new & -> & [Hs' Haft] & Hnone & Hagents & Hren); [|done|done| |done|].
  { eapply Forall_impl; [exact Hclock|]. cbn. lia. }
  { intros id c Hid _. by apply elem_of_dom_2 in Hid. }
  cbn. fold (expiring (threshold withinHours now) (pk_certs s)) (expiring (threshold withinHours now) (pk_certs s')).
  rewrite Hnone. apply Permutation_length in Hagents as Hlen. rewrite !length_fmap in Hlen.
  split; [done|]. split; [done|]. split; [done|]. split; [by rewrite Hlen|]. split; [|done].
  by rewrite merge_sort_Permutation.
Qed.

(** ** The claims at work *)

Definition wit_early : list (pki_op * Time) :=
  [(OpSetPolicy some_order (mkCertPolicy true {[" role " := "web "]} 0), 1);
   (OpSubmit some_order (mkCSRInput " a1 " {["role" := " web"]}), 2);
   (OpSubmit some_order (mkCSRInput "a2" ∅), 3);
   (OpDecide "csr-2" " Approve" "", 4)].

Definition wit_late : list (pki_op * Time) :=
  [(OpRotate some_order "a1", 5); (OpRevoke "cert-2", 6); (OpRenew 1 [("cert-3", lifetime); ("cert-1", lifetime + 1)], lifetime)].

Lemma agent_certificates_witness :
  let s := pki_history 0 (wit_early ++ wit_late) in
  PKIInv s ∧ store_after (pki_history 0 wit_early) s ∧
  (λ c, (ac_Status c, ac_RotatedBy c)) <$> pk_certs s !! "cert-1" = Some (CertRotated, "cert-3") ∧
  (λ c, (ac_Status c, ac_AgentID c)) <$> pk_certs s !! "cert-2" = Some (CertRevoked, "a2") ∧
  (λ c, (ac_Status c, ac_RotatedBy c)) <$> pk_certs s !! "cert-3" = Some (CertRotated, "cert-4").
Proof.
  assert (pk_nextCert (pki_history 0 (wit_early ++ wit_late)) < max_int64 ∧
    pk_nextCSR (pki_history 0 (wit_early ++ wit_late)) < max_int64) as [H1 H2] by (vm_compute; split; reflexivity).
  destruct (agent_certificates 0 wit_early wit_late H1 H2) as [Hinv Haft].
  split; [exact Hinv|]. split; [exact Haft|].
  vm_compute. split; [reflexivity|split; reflexivity].
Defined.

Definition wit_store : AgentPKIStore := pki_history 0 wit_early.


Definition wit_now : Time := lifetime - 71 * 3600 * Second.
Definition wit_visits : list (string * Time) := [("cert-2", wit_now); ("cert-3", wit_now + 1); ("cert-1", wit_now + 2)].

Lemma certificate_renewal_witness :
  let s' := (RenewExpiring 0 wit_visits wit_now wit_store).1 in
  (λ c, (ac_Status c, ac_RotatedBy c)) <$> pk_certs s' !! "cert-1" = Some (CertRotated, "cert-4") ∧
  (λ c, (ac_Status c, ac_AgentID c)) <$> pk_certs s' !! "cert-4" = Some (CertActive, "a1") ∧
  rw_RenewedCount (RenewExpiring 0 wit_visits wit_now wit_store).2 = 2 ∧
  xr_Items (ExpiryReport 0 wit_now s') = [].
Proof.
  assert (PKIInv wit_store) as Hinv by (apply pki_steps_ok; [apply PKIInv_new|vm_compute; reflexivity..]).
  assert (fair_visits (threshold 0 wit_now) (dom (pk_certs wit_store)) ∅ wit_store wit_visits) as Hfair.
  { split; [set_solver|]. split; [eexists; vm_compute; reflexivity|].
    split; [set_solver|]. split; [eexists; vm_compute; reflexivity|].
    split; [set_solver|]. split; [eexists; vm_compute; reflexivity|]. vm_compute. reflexivity. }
  pose proof (certificate_renewal 0 wit_visits wit_now wit_store Hinv) as H. cbv zeta in H.
  specialize (H ltac:(vm_compute; reflexivity) ltac:(repeat constructor; vm_compute; discriminate) ltac:(vm_compute; discriminate) Hfair).
  destruct (RenewExpiring 0 wit_visits wit_now wit_store) as [s' r] eqn:Hrun. destruct H as (_ & _ & _ & Hcount & _ & Hnone).
  cbn [fst snd]. rewrite Hcount, Hnone. assert (s' = (RenewExpiring 0 wit_visits wit_now wit_store).1) as -> by by rewrite Hrun.
  split; [vm_compute; reflexivity|]. split; [vm_compute; reflexivity|]. split; [vm_compute; reflexivity|reflexivity].
Defined.

(** Where the window reaches past the expiry of a certificate issued now, what
    [RenewExpiring] does depends on whether the loop meets its own
    certificates: Go leaves that open. *)
Lemma renewal_depends_on_order :
  fair_visits (threshold 2161 9) (dom (pk_certs wit_store)) ∅ wit_store [("cert-1", 9); ("cert-2", 9)] ∧
  fair_visits (threshold 2161 9) (dom (pk_certs wit_store)) ∅ wit_store [("cert-1", 9); ("cert-2", 9); ("cert-3", 9)] ∧
  rw_RenewedCount (RenewExpiring 2161 [("cert-1", 9); ("cert-2", 9)] 9 wit_store).2 = 2 ∧
  rw_RenewedCount (RenewExpiring 2161 [("cert-1", 9); ("cert-2", 9); ("cert-3", 9)] 9 wit_store).2 = 3.
Proof.
  assert (∀ id : string, id ∉ (∅ : gset string)) by set_solver.
  split; [|split; [|split; vm_compute; reflexivity]]; repeat (split; [set_solver|split; [eexists; vm_compute; reflexivity|]]);
    vm_compute; reflexivity.
Qed.

(** Rotation hands a certificate to an agent that never asked for one, and to
    one whose certificate was revoked. *)
Lemma rotation_needs_no_certificate :
  let s := (RevokeCertificate "cert-2" 6 wit_store).1 in
  let issued agentID := (λ c, (ac_AgentID c, ac_Status c)) <$>
    pk_certs (RotateAgentCertificate some_order agentID 7 s).1 !! "cert-3" in
  (λ c, (ac_AgentID c, ac_Status c)) <$> pk_certs s !! "cert-2" = Some ("a2", CertRevoked) ∧
  issued "a2" = Some ("a2", CertActive) ∧ issued "stranger" = Some ("stranger", CertActive) ∧
  (∀ id q, pk_csrs s !! id = Some q → cq_AgentID q ≠ "stranger").
Proof.
  split; [vm_compute; reflexivity|]. split; [vm_compute; reflexivity|]. split; [vm_compute; reflexivity|].
  cbv zeta. apply (map_Forall_to_list (λ _ q, cq_AgentID q ≠ "stranger")). vm_compute. repeat constructor; discriminate.
Qed.
