(* ===== verification/Canonical.v ===== *)
(** * Canonical form and diagnosis: [internal/config/canonicalize.go], [doctor.go]

    The commands [fmt] and [doctor] of [internal/cli/cli.go]: a loaded
    configuration is brought into a canonical order and written back, or looked
    over for questionable settings.  Proved: the canonical form is the same
    exactly for configurations that differ in order only, its plan is the plan
    of the configuration, and a formatted file loads as the canonical form and
    is formatted to itself. *)

From S2P Require Import Prelude Model Path Planner Validate Load Expand.

(** ** The canonical form *)

(** [sort.Slice] by a key; the order of equal keys is left open by Go, and is
    that of the list here. *)
Definition key_le {A} (key : A → string) (x y : A) : Prop := String.le (key x) (key y).
#[export] Instance by_key_dec {A} (key : A → string) x y : Decision (key_le key x y).
Proof. unfold key_le. apply _. Defined.
#[export] Instance by_key_total {A} (key : A → string) : Total (key_le key).
Proof. intros x y. unfold key_le. apply (total String.le). Qed.
#[export] Instance by_key_trans {A} (key : A → string) : Transitive (key_le key).
Proof. intros x y z. unfold key_le. apply (transitivity (R := String.le)). Qed.

Definition canonical_host (h : Host) : Host := h <| h_Roles := sort_strings (h_Roles h) |>.

Definition canonical_resource (r : Resource) : Resource :=
  r <| r_DependsOn := sort_strings (r_DependsOn r) |> <| r_Tags := sort_strings (r_Tags r) |>.

(** [None] is the nil pointer. *)
Definition Canonicalize (cfg : option Config) : Config :=
  match cfg with
  | None => zeroConfig
  | Some cfg =>
      cfg <| c_Inventory := canonical_host <$> merge_sort (key_le h_Name) (c_Inventory cfg) |>
          <| c_Resources := merge_sort (key_le r_ID) (canonical_resource <$> c_Resources cfg) |>
  end.

(** The encoders of [encoding/json] and [gopkg.in/yaml.v3]. *)
Class ConfigEncoder := {
  MarshalJSON : Config → result string string;
  MarshalYAML : Config → result string string;
}.

Inductive fmt_error :=
  | FmtLoad (e : load_failure)
  | FmtEncode (e : string)
  | UnsupportedFormat (format : string).

Definition encoded (r : result string string) : result fmt_error string :=
  match r with Ok body => Ok body | Err e => Err (FmtEncode e) end.

Definition MarshalCanonical `{ConfigEncoder} (cfg : option Config) (format : string) : result fmt_error string :=
  let canon := Canonicalize cfg in
  let format := norm format in
  let format := if eqs format "" then "yaml" else format in
  if eqs format "json" then encoded (MarshalJSON canon)
  else if eqs format "yaml" || eqs format "yml" then encoded (MarshalYAML canon)
  else Err (UnsupportedFormat format).

(** ** [masterchef fmt] *)

Record fmt_args : Type := mkFmtArgs {
  fa_path : string;
  fa_out : string;
  fa_format : string;
  fa_inPlace : bool;
}.

(** What the command prints, or the file it writes. *)
Inductive fmt_effect := Printed (body : string) | Written (target body : string).

Definition fmt_format (a : fmt_args) : string :=
  let outFormat := TrimSpace (fa_format a) in
  if eqs outFormat "" then if eqs (ToLower (Ext (fa_path a))) ".json" then "json" else "yaml" else outFormat.

Definition fmt_target (a : fmt_args) : string := if fa_inPlace a then fa_path a else TrimSpace (fa_out a).

Definition runFmt `{ConfigSource, ConfigEncoder} (fuel : nat) (a : fmt_args) : option (result fmt_error fmt_effect) :=
  match Load fuel (fa_path a) with
  | None => None
  | Some (Err e) => Some (Err (FmtLoad e))
  | Some (Ok cfg) => Some (
      let? body := MarshalCanonical (Some cfg) (fmt_format a) in
      Ok (if eqs (fmt_target a) "" then Printed body else Written (fmt_target a) body))
  end.

(** ** The doctor *)

Inductive Severity := SeverityInfo | SeverityWarn | SeverityError.
#[export] Instance Severity_eq_dec : EqDecision Severity.
Proof. solve_decision. Defined.

Record Diagnostic : Type := mkDiagnostic { dg_Severity : Severity; dg_Code : string; dg_Message : string }.

Definition host_diagnostics (i : nat) (h : Host) : list Diagnostic :=
  if eqs (h_Transport h) "ssh" then
    (if eqs (h_Address h) "" then
       [mkDiagnostic SeverityWarn "HOST_SSH_ADDRESS" ("inventory.hosts[" +:+ itoa (Z.of_nat i) +:+ "] ssh host should set address")]
     else []) ++
    (if eqs (h_User h) "" then
       [mkDiagnostic SeverityInfo "HOST_SSH_USER"
         ("inventory.hosts[" +:+ itoa (Z.of_nat i) +:+ "] ssh host should set user explicitly")]
     else [])
  else [].

Definition resource_diagnostics (i : nat) (r : Resource) : list Diagnostic :=
  if eqs (r_Type r) "command" then
    if eqs (r_Creates r) "" && eqs (r_OnlyIf r) "" && eqs (r_Unless r) "" then
      [mkDiagnostic SeverityWarn "CMD_NON_IDEMPOTENT"
        ("resources[" +:+ itoa (Z.of_nat i) +:+ "] command should set creates, only_if, or unless for idempotency")]
    else []
  else if eqs (r_Type r) "file" then
    if eqs (r_Mode r) "" then
      [mkDiagnostic SeverityInfo "FILE_MODE_UNSET" ("resources[" +:+ itoa (Z.of_nat i) +:+ "] file does not set mode explicitly")]
    else []
  else [].

Definition Analyze (cfg : option Config) : list Diagnostic :=
  match cfg with
  | None => [mkDiagnostic SeverityError "CFG_NIL" "config is nil"]
  | Some cfg =>
      (if negb (eqs (c_Version cfg) "v0") then
         [mkDiagnostic SeverityWarn "CFG_VERSION"
           ("config version " +:+ Quote (c_Version cfg) +:+ " is not current stable version v0")]
       else []) ++
      concat (imap host_diagnostics (c_Inventory cfg)) ++ concat (imap resource_diagnostics (c_Resources cfg))
  end.

(** [runDoctor], without its output: whether it ends with the exit code 4. *)
Definition doctor_blocks (diags : list Diagnostic) : bool :=
  existsb (λ d, bool_decide (dg_Severity d = SeverityError)) diags.

Definition runDoctor `{ConfigSource} (fuel : nat) (path : string) : option (result load_failure (list Diagnostic * bool)) :=
  match Load fuel path with
  | None => None
  | Some (Err e) => Some (Err e)
  | Some (Ok cfg) => let diags := Analyze (Some cfg) in Some (Ok (diags, doctor_blocks diags))
  end.

(** ** Configurations that differ in order only *)

Definition host_like (h h' : Host) : Prop :=
  h <| h_Roles := [] |> = h' <| h_Roles := [] |> ∧ h_Roles h ≡ₚ h_Roles h'.

Definition resource_like (r r' : Resource) : Prop :=
  r <| r_DependsOn := [] |> <| r_Tags := [] |> = r' <| r_DependsOn := [] |> <| r_Tags := [] |> ∧
  r_DependsOn r ≡ₚ r_DependsOn r' ∧ r_Tags r ≡ₚ r_Tags r'.

(** [l] can be ordered to be [l'], element by element up to [R]. *)
Definition like {A} (R : A → A → Prop) (l l' : list A) : Prop := ∃ k, l ≡ₚ k ∧ Forall2 R k l'.

Record reordered (cfg cfg' : Config) : Prop := {
  re_rest : cfg <| c_Inventory := [] |> <| c_Resources := [] |> = cfg' <| c_Inventory := [] |> <| c_Resources := [] |>;
  re_hosts : like host_like (c_Inventory cfg) (c_Inventory cfg');
  re_resources : like resource_like (c_Resources cfg) (c_Resources cfg');
}.

Lemma sort_strings_iff l k : sort_strings l = sort_strings k ↔ l ≡ₚ k.
Proof.
  split; [|apply sort_strings_Permutation]. intros Heq. by rewrite <-(sort_strings_perm l), Heq, sort_strings_perm.
Qed.

Lemma host_like_iff h h' : host_like h h' ↔ canonical_host h = canonical_host h'.
Proof.
  unfold host_like, canonical_host. rewrite <-sort_strings_iff. destruct h, h'; cbn. split.
  - intros [[= -> -> -> -> -> -> -> -> -> -> -> ->] ->]. done.
  - by intros [= -> -> -> -> -> -> -> -> -> -> -> -> ->].
Qed.

Lemma resource_like_iff r r' : resource_like r r' ↔ canonical_resource r = canonical_resource r'.
Proof.
  unfold resource_like, canonical_resource. rewrite <-!sort_strings_iff. destruct r, r'; cbn. split.
  - intros (Heq & Hd & Ht). injection Heq. intros. subst. by rewrite Hd, Ht.
  - intros Heq. injection Heq. intros. by subst.
Qed.

(** ** Sorting by a key without repetitions *)

Section key_le.
Context {A : Type} (key : A → string).

Lemma sort_by_key_perm l : merge_sort (key_le key) l ≡ₚ l.
Proof. apply merge_sort_Permutation. Qed.

Lemma NoDup_key_inj l x y : NoDup (key <$> l) → x ∈ l → y ∈ l → key x = key y → x = y.
Proof.
  intros Hnd (i & Hi)%list_elem_of_lookup_1 (j & Hj)%list_elem_of_lookup_1 Heq.
  assert (i = j) as <-; [|congruence]. apply (NoDup_lookup (key <$> l) i j (key x)); [done|..].
  - by rewrite list_lookup_fmap, Hi.
  - by rewrite list_lookup_fmap, Hj, Heq.
Qed.

Lemma sort_by_key_unique l k : NoDup (key <$> l) → l ≡ₚ k → merge_sort (key_le key) l = merge_sort (key_le key) k.
Proof.
  intros Hnd Hp. apply (StronglySorted_unique_strong (key_le key)).
  - intros x y Hx Hy Hxy Hyx. rewrite sort_by_key_perm in Hx, Hy. rewrite <-Hp in Hy.
    apply (NoDup_key_inj l); try done. by apply (anti_symm String.le).
  - apply StronglySorted_merge_sort; apply _.
  - apply StronglySorted_merge_sort; apply _.
  - by rewrite !sort_by_key_perm.
Qed.

Lemma sort_by_key_idemp l : NoDup (key <$> l) → merge_sort (key_le key) (merge_sort (key_le key) l) = merge_sort (key_le key) l.
Proof. intros Hnd. symmetry. apply sort_by_key_unique; [done|]. by rewrite sort_by_key_perm. Qed.

Lemma keys_form (f : A → A) (l : list A) : (∀ x, key (f x) = key x) → key <$> (f <$> l) = key <$> l.
Proof. intros Hf. rewrite <-list_fmap_compose. apply list_fmap_ext. intros; apply Hf. Qed.

(** Sorting commutes with a map that keeps the keys. *)
Lemma sort_by_key_fmap (f : A → A) l :
  (∀ x, key (f x) = key x) → NoDup (key <$> l) → merge_sort (key_le key) (f <$> l) = f <$> merge_sort (key_le key) l.
Proof.
  intros Hf Hnd.
  apply (StronglySorted_unique_strong (key_le key)).
  - intros x y Hx Hy Hxy Hyx. rewrite sort_by_key_perm in Hx. rewrite sort_by_key_perm in Hy.
    apply (NoDup_key_inj (f <$> l)); try done; [by rewrite keys_form|]. by apply (anti_symm String.le).
  - apply StronglySorted_merge_sort; apply _.
  - assert (StronglySorted (key_le key) (merge_sort (key_le key) l)) as Hs by (apply StronglySorted_merge_sort; apply _).
    revert Hs. generalize (merge_sort (key_le key) l). intros k. induction 1 as [|x k Hk IH Hx]; [constructor|].
    cbn. constructor; [done|]. apply Forall_fmap. eapply Forall_impl; [exact Hx|]. intros y. unfold key_le. cbn. by rewrite !Hf.
  - by rewrite !sort_by_key_perm.
Qed.

(** What is the same up to order has the same canonical list, sorted before or
    after its elements are brought into form. *)
Section like.
Context (R : A → A → Prop) (f : A → A).
Context (Hf : ∀ x, key (f x) = key x) (HR : ∀ x y, R x y ↔ f x = f y).

Lemma like_perm l l' : like R l l' ↔ f <$> l ≡ₚ f <$> l'.
Proof.
  assert (∀ k k' : list A, Forall2 R k k' ↔ f <$> k = f <$> k') as Hall.
  { intros k k'. rewrite list_eq_Forall2, Forall2_fmap.
    split; intros Hk; (eapply Forall2_impl; [exact Hk|]); intros x y; apply HR. }
  split.
  - intros (k & Hp & Hk%Hall). by rewrite Hp, Hk.
  - intros Hp. symmetry in Hp. apply Permutation_map_inv in Hp as (k & Hk & Hp). exists k. split; [done|]. by apply Hall.
Qed.

Lemma like_sorted l l' :
  NoDup (key <$> l) → like R l l' ↔ merge_sort (key_le key) (f <$> l) = merge_sort (key_le key) (f <$> l').
Proof.
  intros Hnd. rewrite like_perm. split.
  - apply sort_by_key_unique. by rewrite keys_form.
  - intros Heq. by rewrite <-(sort_by_key_perm (f <$> l)), Heq, sort_by_key_perm.
Qed.

Lemma like_keys l l' : like R l l' → key <$> l ≡ₚ key <$> l'.
Proof. intros Hp%like_perm. by rewrite <-(keys_form f l), Hp, keys_form. Qed.

Lemma like_sorted_form l l' :
  NoDup (key <$> l) → like R l l' ↔ f <$> merge_sort (key_le key) l = f <$> merge_sort (key_le key) l'.
Proof.
  intros Hnd. split.
  - intros Hl. rewrite <-!sort_by_key_fmap; [by apply like_sorted|done|by rewrite <-(like_keys _ _ Hl)|done..].
  - intros Heq. apply like_perm. rewrite <-(sort_by_key_perm l), Heq. by rewrite sort_by_key_perm.
Qed.
End like.
End key_le.

(** ** The canonical form *)

(** What validation grants: distinct names and ids. *)
Definition distinct (cfg : Config) : Prop := NoDup (h_Name <$> c_Inventory cfg) ∧ NoDup (r_ID <$> c_Resources cfg).

Lemma canonical_host_idemp h : canonical_host (canonical_host h) = canonical_host h.
Proof. apply host_like_iff. split; [done|]. cbn. apply sort_strings_perm. Qed.

Lemma canonical_resource_idemp r : canonical_resource (canonical_resource r) = canonical_resource r.
Proof. apply resource_like_iff. split; [done|]. cbn. split; apply sort_strings_perm. Qed.

Lemma reordered_iff cfg cfg' :
  distinct cfg → reordered cfg cfg' ↔ Canonicalize (Some cfg) = Canonicalize (Some cfg').
Proof.
  intros [Hh Hr].
  pose proof (like_sorted_form h_Name host_like canonical_host (λ _, eq_refl) host_like_iff _ (c_Inventory cfg') Hh) as H1.
  pose proof (like_sorted r_ID resource_like canonical_resource (λ _, eq_refl) resource_like_iff _ (c_Resources cfg') Hr) as H2.
  unfold Canonicalize. split.
  - intros [Hrest Hhosts%H1 Hres%H2]. rewrite Hhosts, Hres. destruct cfg, cfg'. cbn in *. by injection Hrest; intros; subst.
  - intros Heq. split; [|apply H1|apply H2]; destruct cfg, cfg'; cbn in *; injection Heq; intros; by subst.
Qed.

Lemma reordered_canonical cfg : reordered cfg (Canonicalize (Some cfg)).
Proof.
  split; [by destruct cfg|..]; cbn.
  - apply (like_perm host_like canonical_host host_like_iff).
    rewrite sort_by_key_perm, <-list_fmap_compose. rewrite (list_fmap_ext (_ ∘ _) canonical_host); [done|].
    intros; apply canonical_host_idemp.
  - apply (like_perm resource_like canonical_resource resource_like_iff).
    rewrite sort_by_key_perm, <-list_fmap_compose. rewrite (list_fmap_ext (_ ∘ _) canonical_resource); [done|].
    intros; apply canonical_resource_idemp.
Qed.

(** ** The plan of the canonical form *)

(** A table filled from a list in another order, of elements brought into form. *)
Lemma foldl_insert_form {A B} (key : A → string) (val : A → B) (f : A → A) (g : B → B) (l l' : list A) :
  NoDup (key <$> l) → (∀ x, key (f x) = key x) → (∀ x, val (f x) = g (val x)) → l' ≡ₚ f <$> l →
  foldl (λ m x, <[key x := val x]> m) (∅ : gmap string B) l' = g <$> foldl (λ m x, <[key x := val x]> m) ∅ l.
Proof.
  intros Hnd Hf Hg Hp. assert (NoDup (key <$> l')) as Hnd' by by rewrite Hp, keys_form.
  rewrite !foldl_insert_keys by done. rewrite <-list_to_map_fmap. apply list_to_map_proper.
  - by rewrite <-list_fmap_compose.
  - rewrite Hp, <-!list_fmap_compose. rewrite (list_fmap_ext (_ ∘ f) (prod_map id g ∘ (λ x, (key x, val x)))); [done|].
    intros i x _. cbn. by rewrite Hf, Hg.
Qed.

Definition canonical_step (s : Step) : Step :=
  mkStep (s_Order s) (canonical_host (s_Host s)) (canonical_resource (s_Resource s)).
Definition hosted_step (s : Step) : Step := s <| s_Host := canonical_host (s_Host s) |>.

Definition canonical_plan (p : Plan) : Plan :=
  mkPlan (p_Execution p) (canonical_step <$> p_Steps p) (hosted_step <$> p_Handlers p).

Definition canonical_outcome (r : result plan_error Plan) : result plan_error Plan :=
  match r with Ok p => Ok (canonical_plan p) | Err e => Err e end.

Lemma resolve_canonical h : resolveHostTransport (canonical_host h) = canonical_host (resolveHostTransport h).
Proof.
  unfold resolveHostTransport. cbn [h_Transport canonical_host].
  assert (discoverHostTransport (canonical_host h) = discoverHostTransport h) as Hd by done. rewrite Hd.
  change (h_Transport (canonical_host h)) with (h_Transport h). by destruct (negb _).
Qed.

Section plan.
Variable cfg : Config.
Hypothesis Hdistinct : distinct cfg.
Local Abbreviation canon := (Canonicalize (Some cfg)).

Lemma canon_resources : c_Resources canon ≡ₚ canonical_resource <$> c_Resources cfg.
Proof. cbn. apply sort_by_key_perm. Qed.

Lemma canon_hosts : host_by_name (c_Inventory canon) = canonical_host <$> host_by_name (c_Inventory cfg).
Proof.
  apply (foldl_insert_form h_Name resolveHostTransport canonical_host canonical_host); [apply Hdistinct|done|apply resolve_canonical|].
  cbn. by rewrite sort_by_key_perm.
Qed.

Lemma canon_id_to_res : id_to_res (c_Resources canon) = canonical_resource <$> id_to_res (c_Resources cfg).
Proof.
  apply (foldl_insert_form r_ID (λ r, r) canonical_resource canonical_resource); [apply Hdistinct|done|done|].
  apply canon_resources.
Qed.

Lemma canon_ids : ids (c_Resources canon) = ids (c_Resources cfg).
Proof.
  unfold ids. rewrite <-(keys_form r_ID canonical_resource (c_Resources cfg)) by done. apply list_to_set_perm_L.
  by rewrite canon_resources.
Qed.

Lemma canonical_edges x r : x ∈ resource_edges (canonical_resource r) ↔ x ∈ resource_edges r.
Proof. unfold resource_edges. cbn. by rewrite sort_strings_perm. Qed.

Lemma canon_edges x : x ∈ c_Resources canon ≫= resource_edges ↔ x ∈ c_Resources cfg ≫= resource_edges.
Proof.
  rewrite !list_elem_of_bind. setoid_rewrite canon_resources. setoid_rewrite list_elem_of_fmap. split.
  - intros (r & Hx & r' & -> & Hr). exists r'. by rewrite canonical_edges in Hx.
  - intros (r & Hx & Hr). exists (canonical_resource r). rewrite canonical_edges. eauto.
Qed.

Lemma canon_make_step hosts order r :
  make_step (canonical_host <$> hosts) order r = hosted_step (make_step hosts order r).
Proof. unfold make_step, hosted_step. cbn. f_equal. rewrite lookup_fmap. by destruct (hosts !! exec_host r). Qed.

Lemma canon_steps l : plan_steps canon l = canonical_step <$> plan_steps cfg l.
Proof.
  unfold plan_steps. rewrite canon_hosts, canon_id_to_res, fmap_imap. apply imap_ext. intros i id _. cbn.
  rewrite canon_make_step, lookup_fmap. by destruct (id_to_res (c_Resources cfg) !! id).
Qed.

Lemma canon_handlers n : plan_handlers canon n = hosted_step <$> plan_handlers cfg n.
Proof.
  unfold plan_handlers. rewrite canon_hosts. change (c_Handlers canon) with (c_Handlers cfg).
  rewrite <-(fmap_empty hosted_step) at 1. generalize (∅ : gmap string Step).
  induction (imap pair (c_Handlers cfg)) as [|ih l IH]; intros m; [done|]. cbn [foldl].
  by rewrite canon_make_step, <-fmap_insert, IH.
Qed.

Lemma Build_canonical :
  plannable (c_Resources cfg) → arrow_free (c_Resources cfg) → Build canon = canonical_outcome (Build cfg).
Proof.
  intros Hp Ha. assert (plannable (c_Resources canon)) as Hp'.
  { split; [rewrite canon_resources, keys_form by done; apply Hp|]. intros u v Huv%canon_edges. rewrite canon_ids. by apply Hp. }
  assert (arrow_free (c_Resources canon)) as Ha' by (unfold arrow_free in *; rewrite canon_resources; by apply Forall_fmap).
  assert (length (c_Resources canon) = length (c_Resources cfg)) as Hlen by by rewrite canon_resources, length_fmap.
  destruct (Build_same_order cfg canon Hp Ha Hp' Ha' canon_ids Hlen canon_edges) as (l & _ & HB).
  rewrite (HB canon), (HB cfg) by auto. case_decide; [|done]. unfold canonical_outcome, canonical_plan. cbn [p_Execution p_Steps p_Handlers].
  by rewrite canon_steps, length_fmap, canon_handlers.
Qed.
End plan.

(** ** A canonical configuration is valid *)

Lemma canonical_host_ok h : host_ok h → host_ok (canonical_host h).
Proof.
  intros []. split; try done. cbn. destruct ho_roles as (Hnd & Hs & Hf). split_and!.
  - by apply NoDup_sort_strings.
  - apply sort_strings_sorted.
  - by rewrite sort_strings_perm.
Qed.

Lemma canonical_resource_ok hosts r :
  common_ok hosts r ∧ type_ok r ∧ clean_set norm (r_Tags r) →
  common_ok hosts (canonical_resource r) ∧ type_ok (canonical_resource r) ∧ clean_set norm (r_Tags (canonical_resource r)).
Proof.
  intros ([] & Ht & (Hnd & Hs & Hf)). split; [by split|]. split; [exact Ht|]. cbn. split_and!.
  - by apply NoDup_sort_strings.
  - apply sort_strings_sorted.
  - by rewrite sort_strings_perm.
Qed.

Lemma well_formed_distinct cfg : well_formed cfg → distinct cfg.
Proof. by intros []. Qed.

Lemma canonical_references resources handlers rs rs' :
  rs' ≡ₚ canonical_resource <$> rs → references_ok resources handlers rs → references_ok resources handlers rs'.
Proof.
  intros Hp [Hrefs Hrefresh]. split; intros r; rewrite Hp, list_elem_of_fmap; intros (r' & -> & Hr).
  - destruct (Hrefs _ Hr) as [H1 H2]. cbn. by rewrite sort_strings_perm.
  - cbn. intros Ho. destruct (Hrefresh _ Hr Ho) as [Hsub|(q & Hq & Hn)]; [by left|right].
    exists (canonical_resource q). rewrite Hp, list_elem_of_fmap. eauto.
Qed.

Lemma well_formed_canonical cfg : well_formed cfg → well_formed (Canonicalize (Some cfg)).
Proof.
  intros Hwf. pose proof (well_formed_distinct _ Hwf) as Hd. pose proof Hwf as [Hv He Hh Hhn Hr Hri Hhd Hhi Hrefs].
  assert (h_Name <$> c_Inventory (Canonicalize (Some cfg)) ≡ₚ h_Name <$> c_Inventory cfg) as Hnames.
  { cbn. rewrite keys_form by done. by rewrite sort_by_key_perm. }
  assert (host_names (Canonicalize (Some cfg)) = host_names cfg) as Hhosts by by apply list_to_set_perm_L.
  split; try done.
  - cbn. apply Forall_fmap. rewrite sort_by_key_perm. eapply Forall_impl; [exact Hh|]. apply canonical_host_ok.
  - by rewrite Hnames.
  - rewrite Hhosts, canon_resources. apply Forall_fmap. eapply Forall_impl; [exact Hr|]. intros r. apply canonical_resource_ok.
  - rewrite canon_resources. by rewrite keys_form.
  - by rewrite Hhosts.
  - rewrite (canon_ids cfg). by eapply canonical_references; [apply canon_resources|].
Qed.

(** ** What loading leaves *)

(** No references, nothing to expand, and no strategy of blanks. *)
Record settled (cfg : Config) : Prop := {
  st_refs : c_Includes cfg = [] ∧ c_Imports cfg = [] ∧ c_Overlays cfg = [];
  st_strategy : blank (e_Strategy (c_Execution cfg)) = true → e_Strategy (c_Execution cfg) = "";
}.

Lemma settled_zero : settled zeroConfig.
Proof. by split. Qed.

Lemma settled_merge dst src : settled dst → settled (mergeConfig dst src).
Proof.
  intros [Hr Hs]. rewrite mergeConfig_fields, mergeExecution_fields. split; [done|]. cbn. unfold pick.
  destruct (blank (e_Strategy (c_Execution src))) eqn:Hb; [done|]. congruence.
Qed.

Section load.
Context `{ConfigSource}.

Lemma merge_children_settled load base refs merged stack m stack' :
  settled merged → merge_children load base refs merged stack = Some (Ok m, stack') → settled m.
Proof.
  revert merged stack. induction refs as [|ref refs IH]; intros merged stack Hm; cbn [merge_children]; [by intros [= <- _]|].
  destruct (load _ stack) as [[[child|e] st]|]; [|done..]. apply IH. by apply settled_merge.
Qed.

Lemma and_then_Ok r k m stack' :
  and_then r k = Some (Ok m, stack') → ∃ m0 st, r = Some (Ok m0, st) ∧ k m0 st = Some (Ok m, stack').
Proof. destruct r as [[[m0|e] st]|]; [|done..]. intros Hk. by exists m0, st. Qed.

Lemma loadComposedConfig_settled fuel path stack cfg stack' :
  loadComposedConfig fuel path stack = Some (Ok cfg, stack') → settled cfg.
Proof.
  destruct fuel as [|fuel]; cbn [loadComposedConfig]; [done|]. case_decide; [done|].
  destruct (parseConfigFile _) as [raw|e]; [|done].
  match goal with |- context [and_then ?r ?k] => destruct (and_then r k) as [[r' st]|] eqn:Hrun end; [|done].
  intros [= -> _]. apply and_then_Ok in Hrun as (m1 & st1 & H1 & Hrun). apply and_then_Ok in Hrun as (m2 & st2 & H2 & Hrun).
  eapply merge_children_settled; [|exact Hrun]. apply settled_merge.
  eapply merge_children_settled; [|exact H2]. eapply merge_children_settled; [|exact H1]. apply settled_zero.
Qed.
End load.

Lemma common_fields_plain o hosts r r' : plain r → common_fields o hosts r = Ok r' → plain r'.
Proof.
  intros (Hw & Hm & Hl & Hv). unfold common_fields. cbn. intros Hr. res_inv.
  match goal with Hn : normalizeLoop _ _ = Ok ?q |- _ => rename Hn into Hloop, q into r1 end.
  unfold normalizeMatrix in *. rewrite Hm in *. match goal with Hx : foldM_res _ _ _ = Ok ?m |- _ =>
    rewrite map_to_list_empty in Hx; injection Hx as <- end.
  unfold normalizeLoop in Hloop. cbn in Hloop. rewrite Hl in Hloop. cbn in Hloop. injection Hloop as <-. cbn.
  rewrite Hw. by destruct (negb (eqs (trim_right _) _)).
Qed.

Lemma type_fields_plain o r r' : plain r → type_fields o r = Ok r' → plain r'.
Proof.
  intros (? & ? & ? & ?) [_ Hv]%type_fields_ok. unfold common_view in Hv. split_and!; congruence.
Qed.

Lemma validate_resource_plain hosts r r' : plain r → validate_resource hosts r = Ok r' → plain r'.
Proof.
  intros Hr Hv. unfold validate_resource in Hv. simpl in Hv. res_inv.
  assert (plain x) as Hx by by eapply common_fields_plain. assert (plain x0) as Hx0 by by eapply type_fields_plain. exact Hx0.
Qed.

Lemma validate_handler_plain hosts r r' : plain r → validate_handler hosts r = Ok r' → plain r'.
Proof.
  intros Hr Hv. unfold validate_handler in Hv. simpl in Hv. res_inv. eapply type_fields_plain; [|done]. by eapply common_fields_plain.
Qed.

Lemma validate_owned_Forall o f (P : Resource → Prop) i seen l l' seen' :
  (∀ r r', P r → f r = Ok r' → P r') → validate_owned o f i seen l = Ok (l', seen') → Forall P l → Forall P l'.
Proof.
  intros Hf. revert i seen l' seen'. induction l as [|r l IH]; intros i seen l' seen' Hv; simpl in Hv.
  - by injection Hv as <- _.
  - intros [Hr Hl]%Forall_cons. res_inv. constructor; eauto.
Qed.

Lemma Validate_settled cfg cfg' :
  Validate cfg = Ok cfg' → settled cfg → Forall plain (c_Resources cfg ++ c_Handlers cfg) →
  settled cfg' ∧ Forall plain (c_Resources cfg' ++ c_Handlers cfg').
Proof.
  unfold Validate. intros Hv [Hrefs Hstrategy] [Hr Hh]%Forall_app. res_inv.
  match goal with H : validate_execution _ = Ok ?e' |- _ => assert (e_Strategy e' = e_Strategy (c_Execution cfg)) as He
    by (unfold validate_execution in H; simpl in H; by res_inv) end.
  split; [split; [done|]; cbn; by rewrite He|]. cbn. apply Forall_app. split.
  - eapply (validate_owned_Forall OwnerResource); [|done|done]. apply validate_resource_plain.
  - eapply (validate_owned_Forall OwnerHandler); [|done|done]. apply validate_handler_plain.
Qed.

(** What a load that succeeds returns. *)
Record loaded (cfg : Config) : Prop := {
  ld_settled : settled cfg;
  ld_plain : Forall plain (c_Resources cfg ++ c_Handlers cfg);
  ld_well_formed : well_formed cfg;
}.

Lemma Load_loaded `{ConfigSource} fuel path cfg : Load fuel path = Some (Ok cfg) → loaded cfg.
Proof.
  unfold Load. destruct (loadComposedConfig fuel (absolute path) ∅) as [[[raw|e] st]|] eqn:Hload; [|done..].
  apply loadComposedConfig_settled in Hload. destruct (Validate _) as [c|e] eqn:Hv; [|done]. intros [= <-].
  pose proof (Validate_spec _ _ Hv) as [Hwf _]. apply Validate_settled in Hv as [Hs Hp]; [by split| |].
  - destruct Hload. by split.
  - apply Forall_app. split; apply expand_all_plain.
Qed.

Lemma loaded_canonical cfg : loaded cfg → loaded (Canonicalize (Some cfg)).
Proof.
  intros [[] [Hr Hh]%Forall_app Hwf]. split; [by split| |by apply well_formed_canonical].
  apply Forall_app. split; [|done]. rewrite canon_resources. apply Forall_fmap. eapply Forall_impl; [exact Hr|]. intros r. done.
Qed.

(** Merging a list without repeated keys into nothing. *)
Lemma merge_list_nil {A} (key : A → string) (l : list A) : NoDup (key <$> l) → merge_list key [] l = l.
Proof.
  intros Hnd. rewrite merge_list_upsert by constructor.
  assert (∀ acc, NoDup (key <$> (acc ++ l)) → foldl (upsert key) acc l = acc ++ l) as Hl; [|by apply (Hl [])].
  clear Hnd. induction l as [|x l IH]; intros acc Hnd; [by rewrite app_nil_r|]. cbn [foldl].
  assert (upsert key acc x = acc ++ [x]) as ->.
  { unfold upsert. rewrite decide_False; [done|]. rewrite fmap_app, fmap_cons in Hnd.
    apply NoDup_app in Hnd as (_ & Hd & _). intros Hin. apply (Hd _ Hin). left. }
  rewrite IH; rewrite <-app_assoc; done.
Qed.

(** A file that holds a loaded configuration is loaded as it is. *)
Lemma own_layer_merge cfg : loaded cfg → mergeConfig zeroConfig (own_layer cfg) = cfg.
Proof.
  intros [[(H1 & H2 & H3) Hs] _ [Hv [] _ Hhn _ Hri _ Hhi _]]. rewrite mergeConfig_fields, mergeExecution_fields.
  unfold mergeInventory, mergeResources. cbn. rewrite !merge_list_nil by done. unfold pick. rewrite Hv.
  destruct cfg as [v i im o hs [st n d mf f] rs hd]. cbn in *. subst. unfold zero_int.
  assert ((if blank st then "" else st) = st) as -> by (destruct (blank st); [by rewrite Hs|done]).
  assert ((if blank d then "" else d) = d) as -> by
    (by repeat (apply elem_of_cons in eo_domain_in as [-> | eo_domain_in]; [done|]); apply elem_of_nil in eo_domain_in).
  by destruct (Z.eqb_spec n 0), (Z.eqb_spec mf 0); subst.
Qed.

Lemma expand_settled cfg : Forall plain (c_Resources cfg ++ c_Handlers cfg) → expandConfigResources cfg = cfg.
Proof. intros [Hr Hh]%Forall_app. unfold expandConfigResources. rewrite !expand_plain_list by done. by destruct cfg. Qed.

Lemma Load_fixed `{ConfigSource} fuel path cfg :
  loaded cfg → parseConfigFile (absolute (absolute path)) = Ok cfg → Load (S fuel) path = Some (Ok cfg).
Proof.
  intros Hl Hparse. pose proof Hl as [[(H1 & H2 & H3) _] Hplain Hwf]. unfold Load. cbn [loadComposedConfig].
  rewrite decide_False by set_solver. rewrite Hparse, H1, H2, H3. cbn [merge_children and_then].
  by rewrite own_layer_merge, expand_settled, Validate_fixed.
Qed.

(** ** Claims *)

(** C18: the canonical form.  A configuration with distinct names and ids differs
    from its canonical form in the order of hosts, resources, roles,
    dependencies and tags only, two configurations have the same canonical form
    exactly when they differ in that order only, so that the canonical form of
    a canonical form is itself.  If moreover the references of its resources are
    resolved and no id contains [->], it is planned as the configuration is, with
    the same steps in the same order, or the same cycle. *)
Theorem canonical_form cfg cfg' :
  distinct cfg →
  reordered cfg (Canonicalize (Some cfg)) ∧
  (reordered cfg cfg' ↔ Canonicalize (Some cfg) = Canonicalize (Some cfg')) ∧
  Canonicalize (Some (Canonicalize (Some cfg))) = Canonicalize (Some cfg) ∧
  (plannable (c_Resources cfg) → arrow_free (c_Resources cfg) →
   Build (Canonicalize (Some cfg)) = canonical_outcome (Build cfg)).
Proof.
  intros Hd. split; [apply reordered_canonical|]. split; [by apply reordered_iff|]. split; [|by apply Build_canonical].
  symmetry. apply reordered_iff; [done|]. apply reordered_canonical.
Qed.

(** The decoders read what the encoders write of [cfg]; YAML includes JSON. *)
Record decodes (src : ConfigSource) (enc : ConfigEncoder) (cfg : Config) : Prop := {
  dc_json body : MarshalJSON cfg = Ok body → UnmarshalJSON body = Ok cfg ∧ UnmarshalYAML body = Ok cfg;
  dc_yaml body : MarshalYAML cfg = Ok body → UnmarshalYAML body = Ok cfg;
}.

Lemma MarshalCanonical_canonical `{ConfigEncoder} cfg format :
  distinct cfg → MarshalCanonical (Some (Canonicalize (Some cfg))) format = MarshalCanonical (Some cfg) format.
Proof.
  intros Hd. unfold MarshalCanonical. assert (Canonicalize (Some (Canonicalize (Some cfg))) = Canonicalize (Some cfg)) as ->; [|done].
  symmetry. apply reordered_iff; [done|]. apply reordered_canonical.
Qed.

Lemma parse_formatted (src : ConfigSource) (enc : ConfigEncoder) cfg format path body :
  decodes src enc (Canonicalize (Some cfg)) → MarshalCanonical (Some cfg) format = Ok body → ReadConfigFile path = Ok body →
  (norm format = "json" ∨ ToLower (Ext path) ≠ ".json") → parseConfigFile path = Ok (Canonicalize (Some cfg)).
Proof.
  intros [Hj Hy] Hm Hread Hext. unfold MarshalCanonical, encoded in Hm. unfold parseConfigFile. rewrite Hread.
  destruct (eqs (norm format) "") eqn:Hempty.
  - apply eqs_true in Hempty. rewrite Hempty in Hext. destruct Hext as [|Hext%eqs_false]; [done|]. rewrite Hext.
    cbn in Hm. destruct (MarshalYAML _); [|done]. injection Hm as ->. by rewrite (Hy _ eq_refl).
  - destruct (eqs (norm format) "json") eqn:Hjson.
    + destruct (MarshalJSON _); [|done]. injection Hm as ->. destruct (Hj _ eq_refl) as [-> ->]. by destruct (eqs (ToLower _) _).
    + destruct (_ || _); [|done]. destruct (MarshalYAML _); [|done]. injection Hm as ->.
      apply eqs_false in Hjson. destruct Hext as [|Hext%eqs_false]; [done|]. by rewrite Hext, (Hy _ eq_refl).
Qed.

(** C19: [masterchef fmt].  When the command writes a file, the canonical form of
    the loaded configuration is planned as that configuration is, if no id of its
    resources contains [->].  And if the decoders read what the encoders wrote for
    it, and YAML was not written under the name of a JSON file, the file loads as
    that canonical form, whatever other files the configuration was composed of,
    and formatting it in place in the same format writes the same bytes again. *)
Theorem format_roundtrip (src : ConfigSource) (enc : ConfigEncoder) fuel a target body :
  runFmt fuel a = Some (Ok (Written target body)) →
  ∃ cfg, Load fuel (fa_path a) = Some (Ok cfg) ∧
  let canon := Canonicalize (Some cfg) in
  (arrow_free (c_Resources cfg) → Build canon = canonical_outcome (Build cfg)) ∧
  ∀ (src' : ConfigSource) fuel',
    let file := @absolute src' (@absolute src' target) in
    @ReadConfigFile src' file = Ok body → decodes src' enc canon →
    (norm (fmt_format a) = "json" ∨ ToLower (Ext file) ≠ ".json") →
    @Load src' (S fuel') target = Some (Ok canon) ∧
    ∀ a', fa_path a' = target → fmt_target a' = target → norm (fmt_format a') = norm (fmt_format a) →
      @runFmt src' enc (S fuel') a' = Some (Ok (Written target body)).
Proof.
  unfold runFmt at 1. destruct (Load fuel (fa_path a)) as [[cfg|e]|] eqn:Hload; [|done..].
  destruct (MarshalCanonical (Some cfg) (fmt_format a)) as [body'|e] eqn:Hm; cbn [bind]; [|done].
  destruct (eqs (fmt_target a) "") eqn:Ht; [done|]. intros [= <- <-]. exists cfg. split; [done|].
  pose proof (Load_loaded _ _ _ Hload) as Hl. pose proof (ld_well_formed _ Hl) as Hwf.
  pose proof (well_formed_distinct _ Hwf) as Hd. split.
  { intros Ha. apply Build_canonical; [done|by apply well_formed_plannable|done]. }
  intros src' fuel' Hread Hdec Hext.
  assert (@Load src' (S fuel') (fmt_target a) = Some (Ok (Canonicalize (Some cfg)))) as Hload'.
  { apply Load_fixed; [by apply loaded_canonical|]. by eapply parse_formatted. }
  split; [exact Hload'|]. intros a' Hpath Htarget Hformat. unfold runFmt. rewrite Hpath, Hload', MarshalCanonical_canonical by done.
  assert (MarshalCanonical (Some cfg) (fmt_format a') = MarshalCanonical (Some cfg) (fmt_format a)) as ->.
  { unfold MarshalCanonical. by rewrite Hformat. }
  rewrite Hm. cbn [bind]. by rewrite Htarget, Ht.
Qed.

(** ** The claims at work *)

(** The doctor only ever warns: it ends with the exit code 4 for no file. *)
Lemma doctor_never_blocks `{ConfigSource} fuel path diags blocks :
  runDoctor fuel path = Some (Ok (diags, blocks)) → blocks = false.
Proof.
  unfold runDoctor. destruct (Load fuel path) as [[cfg|e]|]; [|done..]. intros [= <- <-]. unfold doctor_blocks.
  apply not_true_is_false. intros (d & Hd & Hsev%bool_decide_eq_true)%existsb_exists. apply list_elem_of_In in Hd.
  unfold Analyze in Hd. rewrite !elem_of_app in Hd. destruct Hd as [Hd|[Hd|Hd]].
  - destruct (negb _); [|by apply elem_of_nil in Hd]. apply list_elem_of_singleton in Hd as ->. done.
  - apply list_elem_of_In, in_concat in Hd as (l & (i & h & -> & _)%list_elem_of_In%elem_of_lookup_imap & Hd%list_elem_of_In).
    unfold host_diagnostics in Hd. repeat case_match; rewrite ?elem_of_app, ?list_elem_of_singleton, ?elem_of_nil in Hd; naive_solver.
  - apply list_elem_of_In, in_concat in Hd as (l & (i & r & -> & _)%list_elem_of_In%elem_of_lookup_imap & Hd%list_elem_of_In).
    unfold resource_diagnostics in Hd. repeat case_match; rewrite ?list_elem_of_singleton, ?elem_of_nil in Hd; naive_solver.
Qed.

(** Two declarations of the same site. *)
Definition wit_config : Config :=
  config_of ["web"; "db"] [command_on "web" "serve" ["migrate"; "build"]; command_on "web" "build" []; command_on "db" "migrate" []].
Definition wit_shuffled : Config :=
  config_of ["db"; "web"] [command_on "db" "migrate" []; command_on "web" "serve" ["build"; "migrate"]; command_on "web" "build" []].

Lemma canonical_form_witness :
  reordered wit_config wit_shuffled ∧
  (λ h, h_Name h) <$> c_Inventory (Canonicalize (Some wit_config)) = ["db"; "web"] ∧
  match Build (Canonicalize (Some wit_config)) with
  | Ok p => (λ s, (r_ID (s_Resource s), r_DependsOn (s_Resource s))) <$> p_Steps p =
      [("build", []); ("migrate", []); ("serve", ["build"; "migrate"])]
  | Err _ => False
  end.
Proof.
  assert (distinct wit_config) as Hd by (split; apply (bool_decide_unpack _); vm_compute; reflexivity).
  destruct (canonical_form wit_config wit_shuffled Hd) as (_ & Hiff & _ & Hplan). split; [|split].
  - apply Hiff. vm_compute. reflexivity.
  - vm_compute. reflexivity.
  - rewrite Hplan; [vm_compute; reflexivity|apply plannableb_spec; vm_compute; reflexivity|repeat constructor].
Defined.

(** A site composed of two files, and the file it is formatted to in place. *)
Definition wit_encoder : ConfigEncoder := {| MarshalJSON _ := Err "not used"; MarshalYAML _ := Ok "formatted" |}.

Definition wit_source (formatted : bool) : ConfigSource := {|
  ReadConfigFile p := if formatted && eqs p "/srv/site.yaml" then Ok "formatted" else Ok p;
  UnmarshalYAML b :=
    if eqs b "formatted" then Ok (Canonicalize (Some wit_config))
    else if eqs b "/srv/hosts.yaml" then Ok (wit_config <| c_Resources := [] |>)
    else Ok (wit_config <| c_Includes := ["hosts.yaml"] |> <| c_Inventory := [] |>);
  UnmarshalJSON _ := Err "not json";
  Getwd := Some "/srv";
|}.

Definition wit_args : fmt_args := mkFmtArgs "site.yaml" "" " YML " true.

Lemma format_roundtrip_witness :
  @runFmt (wit_source false) wit_encoder 2 wit_args = Some (Ok (Written "site.yaml" "formatted")) ∧
  @Load (wit_source true) 1 "site.yaml" = Some (Ok (Canonicalize (Some wit_config))) ∧
  @runFmt (wit_source true) wit_encoder 1 wit_args = Some (Ok (Written "site.yaml" "formatted")).
Proof.
  assert (@runFmt (wit_source false) wit_encoder 2 wit_args = Some (Ok (Written "site.yaml" "formatted"))) as Hrun
    by (vm_compute; reflexivity).
  split; [exact Hrun|].
  destruct (format_roundtrip (wit_source false) wit_encoder 2 wit_args "site.yaml" "formatted" Hrun) as (cfg & Hload & _ & Hback).
  assert (cfg = wit_config) as Hcfg.
  { assert (Some (Ok cfg) = @Load (wit_source false) 2 "site.yaml") as He by (symmetry; exact Hload).
    vm_compute in He. injection He as ->. reflexivity. }
  rewrite Hcfg in Hback. destruct (Hback (wit_source true) 0%nat) as [Hload' Hagain].
  - vm_compute. reflexivity.
  - split; [intros body Hb; discriminate Hb|]. intros body [= <-]. vm_compute. reflexivity.
  - right. vm_compute. discriminate.
  - split; [exact Hload'|]. apply Hagain; vm_compute; reflexivity.
Defined.
