(* ===== verification/Rulebook.v ===== *)
(** * The rule book: [internal/control/rulebook.go]

    Rules watch the events of the server and name the actions to take.  An
    evaluation takes the mutex for one rule at a time, so that other calls step
    in between.  Regular expressions and the encoding of events are parameters.
    Proved: when a rule triggers, in terms of the rule and the event, how often
    under any interleaving, and what an undisturbed evaluation returns. *)

From S2P Require Import Prelude Json Queue EventLog.

(** ** Data *)

Record RuleCondition : Type := mkCondition { rc_Field : string; rc_Comparator : string; rc_Value : string }.
#[export] Instance RuleCondition_eta : Eta RuleCondition := λ r, mkCondition (rc_Field r) (rc_Comparator r) (rc_Value r).

Record RuleAction : Type := mkRuleAction {
  ra_Type : string;
  ra_ConfigPath : string;
  ra_TemplateID : string;
  ra_WorkflowID : string;
  ra_Priority : string;
  ra_Force : bool;
}.
#[export] Instance RuleAction_eta : Eta RuleAction := λ r,
  mkRuleAction (ra_Type r) (ra_ConfigPath r) (ra_TemplateID r) (ra_WorkflowID r) (ra_Priority r) (ra_Force r).

Record Rule : Type := mkRule {
  ru_ID : string;
  ru_Name : string;
  ru_SourcePrefix : string;
  ru_Enabled : bool;
  ru_MatchMode : string;
  ru_Conditions : list RuleCondition;
  ru_Actions : list RuleAction;
  ru_CooldownSeconds : Z;
  ru_LastTriggeredAt : Time;
  ru_TriggerCount : Z;
  ru_CreatedAt : Time;
  ru_UpdatedAt : Time;
}.
#[export] Instance Rule_eta : Eta Rule := λ r,
  mkRule (ru_ID r) (ru_Name r) (ru_SourcePrefix r) (ru_Enabled r) (ru_MatchMode r) (ru_Conditions r) (ru_Actions r)
    (ru_CooldownSeconds r) (ru_LastTriggeredAt r) (ru_TriggerCount r) (ru_CreatedAt r) (ru_UpdatedAt r).

Record RuleMatch `{Number} : Type := mkMatch {
  rm_RuleID : string;
  rm_RuleName : string;
  rm_Event : Event object;
  rm_Actions : list RuleAction;
}.
Arguments mkMatch {_}.

Record RuleEngine : Type := mkEngine { rg_nextID : Z; rg_rules : gmap string Rule }.
#[export] Instance RuleEngine_eta : Eta RuleEngine := λ r, mkEngine (rg_nextID r) (rg_rules r).

Inductive rule_error :=
  | RuleNameRequired | SourcePrefixRequired | ActionRequired
  | ActionFieldRequired (type : string) | UnsupportedAction (type : string)
  | ConditionFieldRequired | UnsupportedComparator (comparator : string)
  | RuleNotFound | EventEncoding | BadPattern (pattern : string).

(** [regexp.Compile] and [MatchString]; [json.Marshal] of an event, decoded again. *)
Class RuleWorld `{NumberText} := {
  Compile : string → option (string → bool);
  eventToMap : Event object → option object;
}.

(** ** Creating rules *)

Definition normalizeMatchMode (mode : string) : string := if EqualFold (TrimSpace mode) "any" then "any" else "all".

Definition validateRuleAction (action : RuleAction) : result rule_error RuleAction :=
  let action := action <| ra_Type := norm (ra_Type action) |> <| ra_Priority := normalizePriority (ra_Priority action) |> in
  let type := ra_Type action in
  let? _ :=
    if eqs type "enqueue_apply" then fail_if (blank (ra_ConfigPath action)) (ActionFieldRequired type)
    else if eqs type "launch_template" then fail_if (blank (ra_TemplateID action)) (ActionFieldRequired type)
    else if eqs type "launch_workflow" then fail_if (blank (ra_WorkflowID action)) (ActionFieldRequired type)
    else Err (UnsupportedAction type) in
  Ok action.

Definition comparators : list string := ["eq"; "ne"; "contains"; "prefix"; "suffix"; "regex"].

Definition validateRuleCondition (cond : RuleCondition) : result rule_error RuleCondition :=
  let cond := cond <| rc_Field := TrimSpace (rc_Field cond) |> in
  let? _ := fail_if (eqs (rc_Field cond) "") ConditionFieldRequired in
  let comparator := norm (rc_Comparator cond) in
  let cond := cond <| rc_Comparator := if eqs comparator "" then "eq" else comparator |> in
  let? _ := fail_if (negb (one_of (rc_Comparator cond) comparators)) (UnsupportedComparator (rc_Comparator cond)) in
  Ok cond.

Definition NewRuleEngine : RuleEngine := mkEngine 0 ∅.

(** The checks and normal forms in front of the mutex. *)
Definition validated_rule (i : Rule) : result rule_error Rule :=
  let? _ := fail_if (blank (ru_Name i)) RuleNameRequired in
  let? _ := fail_if (blank (ru_SourcePrefix i)) SourcePrefixRequired in
  let? _ := fail_if (bool_decide (ru_Actions i = [])) ActionRequired in
  let? actions := mapM_res validateRuleAction (ru_Actions i) in
  let? conditions := mapM_res validateRuleCondition (ru_Conditions i) in
  Ok (i <| ru_MatchMode := normalizeMatchMode (ru_MatchMode i) |> <| ru_Actions := actions |>
        <| ru_Conditions := conditions |>
        <| ru_CooldownSeconds := if ru_CooldownSeconds i <? 0 then 0 else ru_CooldownSeconds i |>).

Definition put_rule (rule : Rule) (r : RuleEngine) : RuleEngine := r <| rg_rules := <[ru_ID rule := rule]> (rg_rules r) |>.

Definition CreateRule (i : Rule) (now : Time) (r : RuleEngine) : RuleEngine * result rule_error Rule :=
  match validated_rule i with
  | Err e => (r, Err e)
  | Ok i =>
      let next := rg_nextID r + 1 in
      let rule := i <| ru_ID := "rule-" +:+ itoa next |> <| ru_SourcePrefix := TrimSpace (ru_SourcePrefix i) |>
                    <| ru_Enabled := true |> <| ru_CreatedAt := now |> <| ru_UpdatedAt := now |> in
      (put_rule rule (r <| rg_nextID := next |>), Ok rule)
  end.

Definition rule_id_le (x y : Rule) : Prop := String.le (ru_ID x) (ru_ID y).
#[export] Instance rule_id_le_dec x y : Decision (rule_id_le x y).
Proof. unfold rule_id_le. apply _. Defined.

Definition ListRuleBook (r : RuleEngine) : list Rule := merge_sort rule_id_le (map_to_list (rg_rules r)).*2.

Definition GetBookRule (id : string) (r : RuleEngine) : result rule_error Rule :=
  match rg_rules r !! id with Some rule => Ok rule | None => Err RuleNotFound end.

Definition SetRuleEnabled (id : string) (enabled : bool) (now : Time) (r : RuleEngine) : RuleEngine * result rule_error Rule :=
  match rg_rules r !! id with
  | None => (r, Err RuleNotFound)
  | Some rule =>
      let rule := rule <| ru_Enabled := enabled |> <| ru_UpdatedAt := now |> in
      (r <| rg_rules := <[id := rule]> (rg_rules r) |>, Ok rule)
  end.

(** ** Conditions *)

Section world.
Context `{RuleWorld}.

Fixpoint path_value (parts : list string) (cur : json) : option json :=
  match parts with
  | [] => Some cur
  | p :: parts =>
      if eqs p "" then None
      else match cur with JObject m => next ← m !! p; path_value parts next | _ => None end
  end.

Definition getPathValue (root : object) (path : string) : option json :=
  path_value (split_dots (TrimSpace path)) (JObject root).

Definition evaluateCondition (event : object) (cond : RuleCondition) : result rule_error bool :=
  match getPathValue event (rc_Field cond) with
  | None => Ok false
  | Some actual =>
      let actualStr := TrimSpace (Sprint actual) in
      let expected := TrimSpace (rc_Value cond) in
      let comp := norm (rc_Comparator cond) in
      let comp := if eqs comp "" then "eq" else comp in
      if eqs comp "eq" then Ok (EqualFold actualStr expected)
      else if eqs comp "ne" then Ok (negb (EqualFold actualStr expected))
      else if eqs comp "contains" then Ok (Contains (ToLower actualStr) (ToLower expected))
      else if eqs comp "prefix" then Ok (HasPrefix (ToLower actualStr) (ToLower expected))
      else if eqs comp "suffix" then Ok (HasSuffix (ToLower actualStr) (ToLower expected))
      else if eqs comp "regex" then
        match Compile expected with None => Err (BadPattern expected) | Some re => Ok (re actualStr) end
      else Err (UnsupportedComparator comp)
  end.

Fixpoint any_condition (event : object) (conds : list RuleCondition) : result rule_error bool :=
  match conds with
  | [] => Ok false
  | cond :: conds => let? ok := evaluateCondition event cond in if ok : bool then Ok true else any_condition event conds
  end.

Fixpoint all_conditions (event : object) (conds : list RuleCondition) : result rule_error bool :=
  match conds with
  | [] => Ok true
  | cond :: conds => let? ok := evaluateCondition event cond in if ok : bool then all_conditions event conds else Ok false
  end.

Definition ruleMatchesEvent (rule : Rule) (event : object) : result rule_error bool :=
  if bool_decide (ru_Conditions rule = []) then Ok true
  else if eqs (normalizeMatchMode (ru_MatchMode rule)) "any" then any_condition event (ru_Conditions rule)
  else all_conditions event (ru_Conditions rule).

(** ** Evaluation *)

(** Enabled, for this type of event, and not cooling down. *)
Definition due (type : string) (now : Time) (rule : Rule) : bool :=
  ru_Enabled rule && HasPrefix type (ru_SourcePrefix rule) &&
  negb ((0 <? ru_CooldownSeconds rule) && negb (IsZero (ru_LastTriggeredAt rule)) &&
        Before now (Add (ru_LastTriggeredAt rule) (seconds (ru_CooldownSeconds rule)))).

Definition triggered (now : Time) (rule : Rule) : Rule :=
  rule <| ru_LastTriggeredAt := now |> <| ru_TriggerCount := ru_TriggerCount rule + 1 |> <| ru_UpdatedAt := now |>.

Definition match_of (event : Event object) (rule : Rule) : RuleMatch :=
  mkMatch (ru_ID rule) (ru_Name rule) event (ru_Actions rule).

(** One turn of the loop of [Evaluate], under the mutex. *)
Definition eval_rule (event : Event object) (eventMap : object) (now : Time) (id : string) (r : RuleEngine)
    : RuleEngine * result rule_error (option RuleMatch) :=
  match rg_rules r !! id with
  | None => (r, Ok None)
  | Some rule =>
      if negb (due (ev_Type event) now rule) then (r, Ok None) else
      match ruleMatchesEvent rule eventMap with
      | Err e => (r, Err e)
      | Ok false => (r, Ok None)
      | Ok true => (r <| rg_rules := <[id := triggered now rule]> (rg_rules r) |>, Ok (Some (match_of event rule)))
      end
  end.

Fixpoint eval_rules (event : Event object) (eventMap : object) (now : Time) (ids : list string) (r : RuleEngine)
    (matches : list RuleMatch) : RuleEngine * result rule_error (list RuleMatch) :=
  match ids with
  | [] => (r, Ok matches)
  | id :: ids =>
      match eval_rule event eventMap now id r with
      | (r, Err e) => (r, Err e)
      | (r, Ok None) => eval_rules event eventMap now ids r matches
      | (r, Ok (Some m)) => eval_rules event eventMap now ids r (matches ++ [m])
      end
  end.

Definition rule_ids (r : RuleEngine) : list string := sort_strings (map_to_list (rg_rules r)).*1.

(** [Evaluate] when no other call steps in between. *)
Definition Evaluate (event : Event object) (now : Time) (r : RuleEngine) : RuleEngine * result rule_error (list RuleMatch) :=
  match eventToMap event with
  | None => (r, Err EventEncoding)
  | Some eventMap => eval_rules event eventMap now (rule_ids r) r []
  end.
End world.

(** ** When a rule triggers *)

Section triggers.
Context `{RuleWorld}.

Definition holds (event : object) (cond : RuleCondition) : bool :=
  match evaluateCondition event cond with Ok b => b | Err _ => false end.

(** No condition, any of them or all of them. *)
Definition wants (event : object) (rule : Rule) : bool :=
  let conds := ru_Conditions rule in
  if eqs (normalizeMatchMode (ru_MatchMode rule)) "any" && negb (bool_decide (conds = [])) then existsb (holds event) conds
  else forallb (holds event) conds.

Definition fires (event : Event object) (eventMap : object) (now : Time) (rule : Rule) : bool :=
  due (ev_Type event) now rule && wants eventMap rule.

Lemma any_condition_Ok event conds b : any_condition event conds = Ok b → b = existsb (holds event) conds.
Proof.
  revert b. induction conds as [|cond conds IH]; intros b; simpl; [by intros [= <-]|].
  unfold holds at 1. destruct (evaluateCondition event cond) as [[]|]; simpl; [by intros [= <-]|apply IH|done].
Qed.

Lemma all_conditions_Ok event conds b : all_conditions event conds = Ok b → b = forallb (holds event) conds.
Proof.
  revert b. induction conds as [|cond conds IH]; intros b; simpl; [by intros [= <-]|].
  unfold holds at 1. destruct (evaluateCondition event cond) as [[]|]; simpl; [apply IH|by intros [= <-]|done].
Qed.

Lemma ruleMatchesEvent_Ok event rule b : ruleMatchesEvent rule event = Ok b → b = wants event rule.
Proof.
  unfold ruleMatchesEvent, wants. destruct (decide (ru_Conditions rule = [])) as [Hnil|Hne].
  - rewrite bool_decide_true by done. intros [= <-]. rewrite Hnil. simpl. by rewrite andb_false_r.
  - rewrite bool_decide_false by done. rewrite andb_true_r.
    destruct (eqs _ "any"); [apply any_condition_Ok|apply all_conditions_Ok].
Qed.

(** What can go wrong: a pattern, since the comparators were checked. *)
Definition condition_ok (cond : RuleCondition) : Prop :=
  rc_Field cond ≠ "" ∧ norm (rc_Comparator cond) = rc_Comparator cond ∧ rc_Comparator cond ∈ comparators.

Definition bad_pattern (rule : Rule) (e : rule_error) : Prop :=
  ∃ cond, cond ∈ ru_Conditions rule ∧ rc_Comparator cond = "regex" ∧ Compile (TrimSpace (rc_Value cond)) = None ∧
    e = BadPattern (TrimSpace (rc_Value cond)).

Lemma evaluateCondition_Err event cond e :
  condition_ok cond → evaluateCondition event cond = Err e →
  rc_Comparator cond = "regex" ∧ Compile (TrimSpace (rc_Value cond)) = None ∧ e = BadPattern (TrimSpace (rc_Value cond)).
Proof.
  intros (_ & Hn & Hin). unfold evaluateCondition. destruct (getPathValue _ _); [|done]. rewrite Hn. unfold comparators in Hin.
  repeat (apply elem_of_cons in Hin as [Hc|Hin]; [rewrite Hc; simpl; try done|]); [|by apply elem_of_nil in Hin].
  destruct (Compile _) eqn:Hre; [done|]. by intros [= <-].
Qed.

Lemma ruleMatchesEvent_Err event rule e :
  Forall condition_ok (ru_Conditions rule) → ruleMatchesEvent rule event = Err e → bad_pattern rule e.
Proof.
  intros Hok. unfold ruleMatchesEvent, bad_pattern. destruct (bool_decide _); [done|].
  assert (∀ conds, Forall condition_ok conds →
    any_condition event conds = Err e ∨ all_conditions event conds = Err e →
    ∃ cond, cond ∈ conds ∧ rc_Comparator cond = "regex" ∧ Compile (TrimSpace (rc_Value cond)) = None ∧
      e = BadPattern (TrimSpace (rc_Value cond))) as Hconds.
  { clear. intros conds. induction 1 as [|cond conds Hc _ IH]; [by intros [?|?]|]. simpl.
    destruct (evaluateCondition event cond) as [[]|e'] eqn:Hev; simpl.
    - intros [?|He]; [done|]. destruct IH as (c & ? & ?); [by right|]. exists c. split; [by right|done].
    - intros [He|?]; [|done]. destruct IH as (c & ? & ?); [by left|]. exists c. split; [by right|done].
    - intros He. assert (e' = e) as -> by by destruct He; simplify_eq. exists cond. split; [by left|]. by eapply evaluateCondition_Err. }
  destruct (eqs _ "any"); intros He; apply Hconds; auto.
Qed.

(** ** An undisturbed evaluation *)

Definition after (event : Event object) (eventMap : object) (now : Time) (rule : Rule) : Rule :=
  if fires event eventMap now rule then triggered now rule else rule.

Definition select (event : Event object) (eventMap : object) (now : Time) (r : RuleEngine) (id : string) : option RuleMatch :=
  rule ← rg_rules r !! id; if fires event eventMap now rule then Some (match_of event rule) else None.

Lemma eval_rule_spec event m now id r :
  match eval_rule event m now id r with
  | (r', Ok out) => out = select event m now r id ∧ rg_rules r' = alter (after event m now) id (rg_rules r) ∧
      rg_nextID r' = rg_nextID r
  | (r', Err e) => r' = r ∧ ∃ rule, rg_rules r !! id = Some rule ∧ due (ev_Type event) now rule = true ∧ ruleMatchesEvent rule m = Err e
  end.
Proof.
  unfold eval_rule, select, after, fires. destruct (rg_rules r !! id) as [rule|] eqn:Hid.
  2: { split; [done|]. split; [|done]. symmetry. apply map_eq. intros k. destruct (decide (k = id)) as [->|Hne].
       - by rewrite lookup_alter_eq, Hid. - by rewrite lookup_alter_ne. }
  assert (∀ f : Rule → Rule, alter f id (rg_rules r) = <[id := f rule]> (rg_rules r)) as Halter.
  { intros f. apply map_eq. intros k. destruct (decide (k = id)) as [->|Hne].
    - by rewrite lookup_alter_eq, Hid, lookup_insert_eq. - by rewrite lookup_alter_ne, lookup_insert_ne. }
  rewrite Halter. cbn [mbind option_bind]. destruct (due (ev_Type event) now rule) eqn:Hdue; cbn [negb andb].
  2: { by rewrite insert_id. }
  destruct (ruleMatchesEvent rule m) as [b|e] eqn:Hm; [|by eauto]. apply ruleMatchesEvent_Ok in Hm as <-.
  destruct b; [done|]. by rewrite insert_id.
Qed.

Lemma eval_rules_spec event m now ids r ms :
  NoDup ids →
  match eval_rules event m now ids r ms with
  | (r', Ok out) => out = ms ++ omap (select event m now r) ids ∧
      ∀ id, rg_rules r' !! id = if decide (id ∈ ids) then after event m now <$> rg_rules r !! id else rg_rules r !! id
  | (r', Err e) => ∃ id rule, id ∈ ids ∧ rg_rules r !! id = Some rule ∧ due (ev_Type event) now rule = true ∧
      ruleMatchesEvent rule m = Err e
  end.
Proof.
  intros Hnd. revert r ms. induction Hnd as [|id ids Hid Hnd IH]; intros r ms; cbn [eval_rules].
  { split; [by rewrite app_nil_r|]. done. }
  pose proof (eval_rule_spec event m now id r) as Hone. destruct (eval_rule event m now id r) as [r1 [out|e]].
  2: { destruct Hone as (-> & rule & ? & ? & ?). exists id, rule. split; [by left|done]. }
  destruct Hone as (Hout & Hrules & _).
  assert (∀ k, k ∈ ids → rg_rules r1 !! k = rg_rules r !! k) as Hsame.
  { intros k Hk. rewrite Hrules, lookup_alter_ne; [done|]. by intros ->. }
  assert (∀ ms', match eval_rules event m now ids r1 ms' with
    | (r', Ok out') => out' = ms' ++ omap (select event m now r) ids ∧
        ∀ k, rg_rules r' !! k = if decide (k ∈ id :: ids) then after event m now <$> rg_rules r !! k else rg_rules r !! k
    | (r', Err e) => ∃ k rule, k ∈ id :: ids ∧ rg_rules r !! k = Some rule ∧ due (ev_Type event) now rule = true ∧
        ruleMatchesEvent rule m = Err e end) as Hrest.
  { intros ms'. specialize (IH r1 ms'). destruct (eval_rules event m now ids r1 ms') as [r' [out'|e]].
    - destruct IH as [-> Hr']. split.
      + f_equal. apply list_omap_ext, Forall_Forall2_diag, Forall_forall. intros k Hk. unfold select. by rewrite Hsame.
      + intros k. rewrite Hr'. destruct (decide (k ∈ ids)) as [Hk|Hk].
        * rewrite decide_True by by right. by rewrite Hsame.
        * rewrite Hrules. destruct (decide (k = id)) as [->|Hne].
          -- rewrite decide_True by by left. apply lookup_alter_eq.
          -- rewrite decide_False by set_solver. by apply lookup_alter_ne.
    - destruct IH as (k & rule & Hk & Hr & ? & ?). exists k, rule. rewrite Hsame in Hr by done. split; [by right|done]. }
  destruct out as [x|]; cbn [omap list_omap].
  - specialize (Hrest (ms ++ [x])). destruct (eval_rules _ _ _ _ _ _) as [r' [out'|e]]; [|done].
    destruct Hrest as [-> ?]. split; [|done]. rewrite <-app_assoc. by rewrite <-Hout.
  - specialize (Hrest ms). destruct (eval_rules _ _ _ _ _ _) as [r' [out'|e]]; [|done].
    destruct Hrest as [-> ?]. split; [|done]. by rewrite <-Hout.
Qed.
End triggers.

(** ** Histories *)

(** The calls, with evaluations taken apart into their turns. *)
Inductive rule_op `{Number} :=
  | OpCreateRule (i : Rule)
  | OpEnableRule (id : string) (enabled : bool)
  | OpTurn (event : Event object) (eventMap : object) (id : string).

(** What happened to a rule: its creation, and every time it triggered. *)
Inductive rule_note := NoteCreated (rule : Rule) | NoteTriggered (id : string) (now : Time).

Section history.
Context `{RuleWorld}.

Definition rule_step (st : RuleEngine * list rule_note) (c : rule_op * Time) : RuleEngine * list rule_note :=
  let '(r, log) := st in
  match c with
  | (OpCreateRule i, now) =>
      match CreateRule i now r with (r, Ok rule) => (r, log ++ [NoteCreated rule]) | (r, Err _) => (r, log) end
  | (OpEnableRule id enabled, now) => ((SetRuleEnabled id enabled now r).1, log)
  | (OpTurn event eventMap id, now) =>
      match eval_rule event eventMap now id r with
      | (r, Ok (Some m)) => (r, log ++ [NoteTriggered id now])
      | (r, _) => (r, log)
      end
  end.

Definition rule_history (ops : list (rule_op * Time)) : RuleEngine * list rule_note :=
  foldl rule_step (NewRuleEngine, []) ops.

(** The times at which a rule triggered, in the order they were noted. *)
Definition times (id : string) (log : list rule_note) : list Time :=
  omap (λ n, match n with NoteTriggered k t => if eqs k id then Some t else None | _ => None end) log.

(** Times that keep a cooldown of [c] seconds from one to the next. *)
Definition cooled (c : Z) (l : list Time) : Prop :=
  ∀ i t u, l !! i = Some t → l !! S i = Some u → 0 < c → t ≠ 0 → Add t (seconds c) ≤ u.

(** What never changes in a rule. *)
Definition lasting (rule : Rule) :=
  (ru_ID rule, ru_Name rule, ru_SourcePrefix rule, ru_MatchMode rule, ru_Conditions rule, ru_Actions rule,
   ru_CooldownSeconds rule, ru_CreatedAt rule).

Record rule_ok (log : list rule_note) (id : string) (rule : Rule) : Prop := {
  uo_id : ru_ID rule = id;
  uo_conditions : Forall condition_ok (ru_Conditions rule);
  uo_actions : ru_Actions rule ≠ [] ∧ 0 ≤ ru_CooldownSeconds rule;
  uo_created : ∃ c, NoteCreated c ∈ log ∧ lasting rule = lasting c ∧
    ru_TriggerCount rule = ru_TriggerCount c + Z.of_nat (length (times id log)) ∧
    ru_LastTriggeredAt rule = default (ru_LastTriggeredAt c) (last (times id log)) ∧
    cooled (ru_CooldownSeconds rule) (ru_LastTriggeredAt c :: times id log);
}.

Record EngineInv (r : RuleEngine) (log : list rule_note) : Prop := {
  ei_next : 0 ≤ rg_nextID r;
  ei_numbers id : is_Some (rg_rules r !! id) → numbered "rule-" (rg_nextID r) id;
  ei_triggered id : times id log ≠ [] → is_Some (rg_rules r !! id);
  ei_rules : map_Forall (rule_ok log) (rg_rules r);
}.

Lemma times_app id log log' : times id (log ++ log') = times id log ++ times id log'.
Proof. apply omap_app. Qed.

Lemma cooled_snoc c l t u : last l = Some t → cooled c l → (0 < c → t ≠ 0 → Add t (seconds c) ≤ u) → cooled c (l ++ [u]).
Proof.
  intros Hlast Hl Hu i x y Hx Hy. destruct (decide (S i < length l)%nat) as [Hlt|Hge].
  - rewrite lookup_app_l in Hx, Hy by lia. by apply (Hl i).
  - assert (S i = length l) as Hi.
    { apply lookup_lt_Some in Hy. rewrite length_app in Hy. simpl in Hy. lia. }
    rewrite lookup_app_r, Hi, Nat.sub_diag in Hy by lia. injection Hy as <-.
    rewrite lookup_app_l in Hx by lia. rewrite last_lookup, <-Hi in Hlast. simpl in Hlast. rewrite Hx in Hlast.
    injection Hlast as <-. apply Hu.
Qed.

Lemma validateRuleCondition_ok cond cond' : validateRuleCondition cond = Ok cond' → condition_ok cond'.
Proof.
  unfold validateRuleCondition. cbn -[norm comparators]. intros Hv. res_inv. unfold condition_ok. cbn -[norm comparators].
  split; [by apply eqs_false|]. split; [|by apply one_of_true]. destruct (eqs (norm (rc_Comparator cond)) ""); [done|apply norm_idemp].
Qed.

Lemma validated_rule_ok i i' :
  validated_rule i = Ok i' → Forall condition_ok (ru_Conditions i') ∧ ru_Actions i' ≠ [] ∧ 0 ≤ ru_CooldownSeconds i'.
Proof.
  unfold validated_rule. intros Hv. res_inv. cbn.
  repeat match goal with Hm : mapM_res _ _ = Ok _ |- _ => apply mapM_res_Ok in Hm end. split; [|split].
  - match goal with Hm : Forall2 (λ x y, validateRuleCondition x = Ok y) _ _ |- _ =>
      eapply Forall2_Forall_r; [exact Hm|]; apply Forall_forall; intros c _ c' end. apply validateRuleCondition_ok.
  - match goal with Hm : Forall2 (λ x y, validateRuleAction x = Ok y) _ _ |- _ => apply Forall2_length in Hm as Hlen end.
    intros ->. apply nil_length_inv in Hlen. congruence.
  - destruct (Z.ltb_spec (ru_CooldownSeconds i) 0); lia.
Qed.
Lemma rule_ok_log log log' id rule :
  times id log' = times id log → (∀ c, NoteCreated c ∈ log → NoteCreated c ∈ log') → rule_ok log id rule → rule_ok log' id rule.
Proof.
  intros Ht Hc [? ? ? (c & Hin & ?)]. split; try done. rewrite Ht. exists c. split; [by apply Hc|done].
Qed.

Lemma EngineInv_create i now r log :
  EngineInv r log → rg_nextID r < max_int64 → EngineInv (rule_step (r, log) (OpCreateRule i, now)).1 (rule_step (r, log) (OpCreateRule i, now)).2.
Proof.
  intros Hinv Hmax. pose proof Hinv as [Hn Hnum Htr Hrules]. cbn [rule_step]. unfold CreateRule.
  destruct (validated_rule i) as [i'|e] eqn:Hv; [|exact Hinv]. apply validated_rule_ok in Hv as (Hcond & Hact & Hcool).
  cbn [fst snd]. set (id := "rule-" +:+ itoa (rg_nextID r + 1)). match goal with |- context [NoteCreated ?x] => set (rule := x) end.
  assert (rg_rules r !! id = None) as Hfresh.
  { apply eq_None_not_Some. intros Hid%Hnum. by apply (numbered_fresh "rule-" (rg_nextID r)) in Hid; [|lia]. }
  assert (∀ k, times k (log ++ [NoteCreated rule]) = times k log) as Ht by (intros k; rewrite times_app; cbn; by rewrite app_nil_r).
  assert (times id log = []) as Hnone.
  { destruct (times id log) eqn:Hl; [done|]. destruct (Htr id) as [x Hx]; [by rewrite Hl|]. congruence. }
  split; cbn.
  - lia.
  - fold id. intros k. destruct (decide (k = id)) as [->|Hne].
    + intros _. by apply numbered_next.
    + rewrite lookup_insert_ne by done. intros Hk%Hnum. eapply numbered_mono; [|done]. lia.
  - intros k. rewrite Ht. intros Hk%Htr. fold id. destruct (decide (k = id)) as [->|Hne]; [by rewrite lookup_insert_eq|].
    by rewrite lookup_insert_ne.
  - fold id. apply map_Forall_insert_2.
    + split; try done. rewrite Ht, Hnone. exists rule. split; [set_solver|]. split; [done|]. split; [cbn; lia|]. split; [done|].
      intros [|j] t u; [done|]. by destruct j.
    + intros k x Hk. apply (rule_ok_log log); [apply Ht|set_solver|by apply Hrules].
Qed.

Lemma EngineInv_enable id enabled now r log : EngineInv r log → EngineInv (SetRuleEnabled id enabled now r).1 log.
Proof.
  intros Hinv. pose proof Hinv as [Hn Hnum Htr Hrules]. unfold SetRuleEnabled.
  destruct (rg_rules r !! id) as [rule|] eqn:Hid; [|exact Hinv]. split; cbn; [done|..].
  - intros k. rewrite lookup_insert_is_Some'. intros [<-|Hk]; [apply Hnum; by eexists|by apply Hnum].
  - intros k Hk%Htr. rewrite lookup_insert_is_Some'. by right.
  - apply map_Forall_insert_2; [|done]. destruct (Hrules _ _ Hid). by split.
Qed.

Lemma EngineInv_turn event m id now r log :
  EngineInv r log → EngineInv (rule_step (r, log) (OpTurn event m id, now)).1 (rule_step (r, log) (OpTurn event m id, now)).2.
Proof.
  intros Hinv. pose proof Hinv as [Hn Hnum Htr Hrules]. cbn [rule_step]. unfold eval_rule.
  destruct (rg_rules r !! id) as [rule|] eqn:Hid; [|exact Hinv]. destruct (due (ev_Type event) now rule) eqn:Hdue; cbn [negb]; [|exact Hinv].
  destruct (ruleMatchesEvent rule m) as [[]|e]; [|exact Hinv..]. cbn [fst snd].
  assert (∀ k, k ≠ id → times k (log ++ [NoteTriggered id now]) = times k log) as Hother.
  { intros k Hne. rewrite times_app. cbn. rewrite (proj2 (eqs_false id k)) by done. by rewrite app_nil_r. }
  assert (times id (log ++ [NoteTriggered id now]) = times id log ++ [now]) as Hsame by (rewrite times_app; cbn; by rewrite eqs_refl).
  split; cbn; [done|..].
  - intros k. rewrite lookup_insert_is_Some'. intros [<-|Hk]; [apply Hnum; by eexists|by apply Hnum].
  - intros k. rewrite lookup_insert_is_Some'. destruct (decide (k = id)) as [->|Hne]; [by left|]. rewrite Hother by done.
    intros Hk%Htr. by right.
  - intros k x [[<- <-]|[Hne Hk]]%lookup_insert_Some.
    + destruct (Hrules _ _ Hid) as [? ? ? (c & Hc & Hl & Hcount & Hlast & Hcool)]. split; try done.
      rewrite Hsame. exists c. split; [set_solver|]. split; [done|]. split; [cbn; rewrite Hcount, length_app; simpl; lia|].
      split; [by rewrite last_snoc|]. change (ru_CooldownSeconds (triggered now rule)) with (ru_CooldownSeconds rule).
      rewrite app_comm_cons. apply (cooled_snoc _ _ (ru_LastTriggeredAt rule)); [|done|].
      * rewrite last_cons, Hlast. by destruct (last (times id log)).
      * intros Hpos Hne. unfold due in Hdue. apply andb_true_iff in Hdue as [_ Hdue%negb_true_iff].
        rewrite (proj2 (Z.ltb_lt 0 _)) in Hdue by done. unfold IsZero, Before in Hdue.
        rewrite (proj2 (Z.eqb_neq _ 0)) in Hdue by done. cbn in Hdue. lia.
    + apply (rule_ok_log log); [by apply Hother|set_solver|by apply Hrules].
Qed.

Lemma rule_step_counter st c : rg_nextID st.1 ≤ rg_nextID (rule_step st c).1.
Proof.
  destruct st as [r log], c as [[i|id enabled|event m id] now]; cbn [rule_step].
  - unfold CreateRule. destruct (validated_rule i); simpl; lia.
  - unfold SetRuleEnabled. destruct (rg_rules r !! id); simpl; lia.
  - unfold eval_rule. destruct (rg_rules r !! id) as [rule|]; [|simpl; lia]. destruct (negb _); [simpl; lia|].
    destruct (ruleMatchesEvent rule m) as [[]|]; simpl; lia.
Qed.

Lemma EngineInv_history ops :
  rg_nextID (rule_history ops).1 < max_int64 → EngineInv (rule_history ops).1 (rule_history ops).2.
Proof.
  unfold rule_history. induction ops as [|[op now] ops IH] using rev_ind.
  { intros _. split; [done|by intros ? [? ?]|done|by intros ? ?]. }
  rewrite foldl_app. cbn [foldl]. intros Hmax. pose proof (rule_step_counter (foldl rule_step (NewRuleEngine, []) ops) (op, now)) as Hle.
  specialize (IH ltac:(lia)). destruct (foldl rule_step (NewRuleEngine, []) ops) as [r log]. cbn [fst snd] in *.
  destruct op as [i|id enabled|event m id].
  - apply EngineInv_create; [done|lia].
  - by apply EngineInv_enable.
  - by apply EngineInv_turn.
Qed.
End history.

(** ** Claims *)

(** C38: under any interleaving of calls with the turns of evaluations: a rule
    keeps what it was created with, in checked form; its counter is the number of
    times it triggered and its last trigger the last of these times; and from
    one trigger to the next its cooldown passes. *)
Theorem rule_triggers `{RuleWorld} ops :
  rg_nextID (rule_history ops).1 < max_int64 →
  ∀ id rule, rg_rules (rule_history ops).1 !! id = Some rule → rule_ok (rule_history ops).2 id rule.
Proof. intros Hmax. apply ei_rules, EngineInv_history, Hmax. Qed.

(** An evaluation in which no other call steps.  It returns a match for
    exactly the rules, in the order of their ids, that are enabled, watch the
    type of the event, are not cooling down, and have no condition, one that
    holds or only such, as their mode asks; these are marked as triggered and
    the others stay.  It fails only when the event cannot be encoded, without
    effect, or when a rule that is due has a pattern that does not compile. *)
Theorem rule_evaluation `{RuleWorld} event now r :
  (∀ id rule, rg_rules r !! id = Some rule → Forall condition_ok (ru_Conditions rule)) →
  match Evaluate event now r with
  | (r', Ok ms) => ∃ m, eventToMap event = Some m ∧ ms = omap (select event m now r) (rule_ids r) ∧
      ∀ id, rg_rules r' !! id = after event m now <$> rg_rules r !! id
  | (r', Err e) => eventToMap event = None ∧ e = EventEncoding ∧ r' = r ∨
      ∃ id rule, rg_rules r !! id = Some rule ∧ due (ev_Type event) now rule = true ∧ bad_pattern rule e
  end.
Proof.
  intros Hok. unfold Evaluate. destruct (eventToMap event) as [m|]; [|by left].
  assert (NoDup (rule_ids r)) as Hnd by apply NoDup_sort_strings, NoDup_fst_map_to_list.
  pose proof (eval_rules_spec event m now (rule_ids r) r [] Hnd) as Hspec.
  destruct (eval_rules event m now (rule_ids r) r []) as [r' [ms|e]].
  - destruct Hspec as [-> Hr']. exists m. split; [done|]. split; [done|]. intros id. rewrite Hr'. case_decide as Hin; [done|].
    destruct (rg_rules r !! id) as [rule|] eqn:Hid; [|done]. destruct Hin. unfold rule_ids. rewrite elem_of_sort_strings.
    apply list_elem_of_fmap. exists (id, rule). by rewrite elem_of_map_to_list.
  - right. destruct Hspec as (id & rule & _ & Hid & Hdue & He). exists id, rule. split; [done|]. split; [done|].
    eapply ruleMatchesEvent_Err; [|exact He]. by eapply Hok.
Qed.

(** ** The claims at work *)

Definition toy_numbers : Number := {| number := Z |}.
Definition toy_text : @NumberText toy_numbers := @Build_NumberText toy_numbers (λ n : Z, itoa n).
(** Only the pattern ["("] does not compile; a pattern matches its own text. *)
Definition toy_world : @RuleWorld toy_numbers toy_text := {|
  Compile p := if eqs p "(" then None else Some (eqs p);
  eventToMap e := Some {[ "type" := JString (ev_Type e); "fields" := JObject (ev_Fields e) ]};
|}.
#[local] Existing Instance toy_world.
#[local] Existing Instance toy_text.
#[local] Existing Instance toy_numbers.

Definition alert_event : Event object := mkEvent 1 0 "alert.disk" "" {[ "sev" := JString "High" ]} "" "".
Definition alert_map : object := default ∅ (eventToMap alert_event).

Definition toy_rule (mode : string) (conds : list RuleCondition) (cooldown : Z) : Rule :=
  mkRule "" "rule" " alert." false mode conds [mkRuleAction " Enqueue_Apply" "site.yaml" "" "" "HIGH" false] cooldown 0 0 0 0.
Definition sev_is (comparator v : string) : RuleCondition := mkCondition " fields.sev" comparator v.

Definition toy_ops : list (rule_op * Time) :=
  [(OpCreateRule (toy_rule "Any" [sev_is "" "low"; sev_is "PREFIX" "hi"] 5), 1);
   (OpTurn alert_event alert_map "rule-1", 2); (OpTurn alert_event alert_map "rule-1", 3);
   (OpEnableRule "rule-1" false, 4); (OpTurn alert_event alert_map "rule-1", 6000000000);
   (OpEnableRule "rule-1" true, 6000000001); (OpTurn alert_event alert_map "rule-1", 6000000002)].

Lemma rule_triggers_witness :
  ∃ rule, rg_rules (rule_history toy_ops).1 !! "rule-1" = Some rule ∧ ru_TriggerCount rule = 2 ∧
    times "rule-1" (rule_history toy_ops).2 = [2; 6000000002] ∧ rule_ok (rule_history toy_ops).2 "rule-1" rule.
Proof.
  eexists. split; [vm_compute; reflexivity|]. split; [reflexivity|]. split; [vm_compute; reflexivity|].
  apply (rule_triggers toy_ops); vm_compute; reflexivity.
Defined.

(** One rule with a pattern that does not compile stops the whole rule book for
    the events it watches: the rules before it are marked as triggered but their
    matches are dropped, those after it are not looked at. *)
Definition toy_book : RuleEngine := (rule_history
  [(OpCreateRule (toy_rule "all" [] 0), 1); (OpCreateRule (toy_rule "all" [sev_is "regex" "("] 0), 1);
   (OpCreateRule (toy_rule "all" [sev_is "eq" "high"] 0), 1)]).1.

Lemma bad_pattern_stops_rules :
  let '(r, res) := Evaluate alert_event 9 toy_book in
  res = Err (BadPattern "(") ∧ (λ rule, ru_TriggerCount rule) <$> rg_rules r !! "rule-1" = Some 1 ∧
  (λ rule, ru_TriggerCount rule) <$> rg_rules r !! "rule-3" = Some 0.
Proof. vm_compute. split; [reflexivity|]. split; reflexivity. Qed.

Definition good_book : RuleEngine := (SetRuleEnabled "rule-2" false 8 toy_book).1.

Lemma rule_evaluation_witness :
  ∃ ms, (Evaluate alert_event 9 good_book).2 = Ok ms ∧ (λ m, rm_RuleID m) <$> ms = ["rule-1"; "rule-3"].
Proof.
  assert (∀ id rule, rg_rules good_book !! id = Some rule → Forall condition_ok (ru_Conditions rule)) as Hok.
  { apply (map_Forall_to_list (λ _ rule, Forall condition_ok (ru_Conditions rule))). vm_compute.
    repeat constructor; try discriminate; set_solver. }
  pose proof (rule_evaluation alert_event 9 good_book Hok) as Hspec.
  assert ((Evaluate alert_event 9 good_book).2 = Ok (match (Evaluate alert_event 9 good_book).2 with Ok ms => ms | Err _ => [] end)) as Hres
    by (vm_compute; reflexivity).
  destruct (Evaluate alert_event 9 good_book) as [r' res]. cbn [snd] in Hres |- *. destruct res as [ms|e]; [|discriminate Hres].
  destruct Hspec as (m & Hm & Hms & _). exists ms. split; [reflexivity|]. rewrite Hms. injection Hm as <-. vm_compute. reflexivity.
Defined.

(** A rule that is submitted as disabled is enabled. *)
Lemma disabled_rule_enabled :
  ru_Enabled (toy_rule "all" [] 0) = false ∧
  (λ rule, ru_Enabled rule) <$> rg_rules (CreateRule (toy_rule "all" [] 0) 1 NewRuleEngine).1 !! "rule-1" = Some true.
Proof. split; [reflexivity|]. vm_compute. reflexivity. Qed.
