(* ===== verification/Query.v ===== *)
(** * The query language of the server: [internal/server/query.go]

    Records of the stores are selected by a tree of conditions, given as JSON or
    as a line such as [status=failed AND attempts>=3 OR node~web].  Proved: a
    line is read as what it says, in any spacing and case of its connectives,
    and selects the records that satisfy it; what the endpoint returns; and
    where a line is not read as it looks. *)

From S2P Require Import Prelude Json.

(** [Value] is any decoded JSON value. *)
Inductive queryNode `{Number} :=
  mkNode (Op Field Comparator : string) (Value : json) (Conditions : list queryNode).
Arguments mkNode {_}.

Inductive query_error :=
  | EntityRequired | BadMode | Records (e : string) | EmptyTerm | InvalidTerm (term : string)
  | UnsupportedOp (op : string) | UnsupportedComparison (comparator : string).

(** float64: [strconv.ParseFloat], [<] and [<=]. *)
Class Floats `{NumberText} := {
  ParseFloat : string → option number;
  num_lt : number → number → bool;
  num_le : number → number → bool;
}.

(** ** Reading a line *)

(** The pattern [(?i)\s+KW\s+] at the start of [s], and what follows the match. *)
Definition match_kw (kw s : string) : option string :=
  match s with
  | String c _ =>
      if pattern_space c then
        let rest := skip_spaces s in
        if HasPrefix (ToLower rest) kw then
          match drop_str (String.length kw) rest with
          | String d _ as tail => if pattern_space d then Some (skip_spaces tail) else None
          | EmptyString => None
          end
        else None
      else None
  | EmptyString => None
  end.

Definition prepend (p : string) (l : list string) : list string :=
  match l with x :: l => (p +:+ x) :: l | [] => [p] end.

(** [Split(s, -1)]; every round consumes a character at least. *)
Fixpoint split_kw (fuel : nat) (kw s : string) : list string :=
  match fuel with
  | O => [s]
  | S fuel =>
      match match_kw kw s with
      | Some rest => "" :: split_kw fuel kw rest
      | None => match s with EmptyString => [""] | String c s => prepend (String c "") (split_kw fuel kw s) end
      end
  end.

Definition Split (kw s : string) : list string := split_kw (S (String.length s)) kw s.

Definition quote_char (c : ascii) : bool := bool_decide (c = squote) || bool_decide (c = dquote).

Fixpoint trim_quotes_left (s : string) : string :=
  match s with String c s' => if quote_char c then trim_quotes_left s' else s | EmptyString => s end.
Fixpoint trim_quotes_right (s : string) : string :=
  match s with
  | EmptyString => EmptyString
  | String c s =>
      match trim_quotes_right s with
      | EmptyString => if quote_char c then EmptyString else String c EmptyString
      | r => String c r
      end
  end.

(** The table of the operators, in the order they are looked for. *)
Definition operators : list (string * string) :=
  [("!=", "ne"); (">=", "gte"); ("<=", "lte"); ("~=", "contains"); ("~", "contains"); ("=", "eq"); (">", "gt"); ("<", "lt")].

Section query.
Context `{Floats}.

Definition leaf (field comparator value : string) : queryNode := mkNode "" field comparator (JString value) [].

Fixpoint try_operators (ops : list (string * string)) (term : string) : result query_error queryNode :=
  match ops with
  | [] => Err (InvalidTerm term)
  | (token, op) :: ops =>
      match Cut term token with
      | Some (String c before, rest) =>
          let field := TrimSpace (String c before) in
          let value := trim_quotes_right (trim_quotes_left (TrimSpace rest)) in
          if eqs field "" then Err (InvalidTerm term) else Ok (leaf field op value)
      | _ => try_operators ops term
      end
  end.

Definition parseHumanTerm (term : string) : result query_error queryNode :=
  if eqs term "" then Err EmptyTerm else try_operators operators term.

(** One node, or a node over all of them. *)
Definition connect (op : string) (nodes : list queryNode) : queryNode :=
  match nodes with [n] => n | _ => mkNode op "" "" JNull nodes end.

Definition parseHumanQuery (q : string) : result query_error (option queryNode) :=
  let q := TrimSpace q in
  if eqs q "" then Ok None else
  let? orNodes := mapM_res (λ orPart,
    let? andNodes := mapM_res (λ term, parseHumanTerm (TrimSpace term)) (Split "and" (TrimSpace orPart)) in
    Ok (connect "and" andNodes)) (Split "or" q) in
  Ok (Some (connect "or" orNodes)).

(** ** Matching *)

Definition getField (rec : object) (fieldPath : string) : option json :=
  let fieldPath := TrimSpace fieldPath in
  if eqs fieldPath "" then None else at_path (split_dots fieldPath) (JObject rec).

(** A decoded value is a float64, a string or no number. *)
Definition toFloat (v : json) : option number :=
  match v with JNumber n => Some n | JString s => ParseFloat (TrimSpace s) | _ => None end.

Definition compareField (rec : object) (field comparator : string) (expected : json) : result query_error bool :=
  match getField rec field with
  | None => Ok false
  | Some actual =>
      let comp := norm comparator in
      let comp := if eqs comp "" then "eq" else comp in
      let aStr := TrimSpace (Sprint actual) in
      let eStr := TrimSpace (Sprint expected) in
      let numbers (f : number → number → bool) :=
        match toFloat actual, toFloat expected with Some af, Some ef => Ok (f af ef) | _, _ => Ok false end in
      if eqs comp "eq" then Ok (EqualFold aStr eStr)
      else if eqs comp "ne" then Ok (negb (EqualFold aStr eStr))
      else if eqs comp "contains" then Ok (Contains (ToLower aStr) (ToLower eStr))
      else if eqs comp "prefix" then Ok (HasPrefix (ToLower aStr) (ToLower eStr))
      else if eqs comp "suffix" then Ok (HasSuffix (ToLower aStr) (ToLower eStr))
      else if eqs comp "gt" then numbers (λ af ef, num_lt ef af)
      else if eqs comp "gte" then numbers (λ af ef, num_le ef af)
      else if eqs comp "lt" then numbers num_lt
      else if eqs comp "lte" then numbers num_le
      else Err (UnsupportedComparison comp)
  end.

Fixpoint match_node (rec : object) (node : queryNode) : result query_error bool :=
  match node with
  | mkNode op field comparator value conditions =>
      let op := norm op in
      if eqs op "and" then
        (fix all (l : list queryNode) : result query_error bool :=
           match l with [] => Ok true | n :: l => let? ok := match_node rec n in if ok : bool then all l else Ok false end) conditions
      else if eqs op "or" then
        (fix any (l : list queryNode) : result query_error bool :=
           match l with [] => Ok false | n :: l => let? ok := match_node rec n in if ok : bool then Ok true else any l end) conditions
      else if eqs op "" then compareField rec field comparator value
      else Err (UnsupportedOp op)
  end.

Definition matchNode (rec : object) (node : option queryNode) : result query_error bool :=
  match node with None => Ok true | Some node => match_node rec node end.

(** ** The endpoint *)

Section records.
Context {A : Type} (toMap : A → option object).

(** The loop over the records, which stops once it has [limit] of them. *)
Fixpoint select_records (limit : Z) (root : option queryNode) (records matched : list A) : result query_error (list A) :=
  match records with
  | [] => Ok matched
  | rec :: records =>
      match toMap rec with
      | None => select_records limit root records matched
      | Some m =>
          let? ok := matchNode m root in
          if ok : bool then
            let matched := matched ++ [rec] in
            if limit <=? Z.of_nat (length matched) then Ok matched else select_records limit root records matched
          else select_records limit root records matched
      end
  end.

(** What [handleQuery] answers; [queryEntityRecords] reads the store of an entity. *)
Definition handleQuery (queryEntityRecords : string → result string (list A))
    (Entity Mode Query : string) (QueryAST : option queryNode) (Limit : Z) : result query_error (nat * list A * option queryNode) :=
  let entity := norm Entity in
  if eqs entity "" then Err EntityRequired else
  let mode := norm Mode in
  let mode := if eqs mode "" then "human" else mode in
  let limit := if Limit <=? 0 then 100 else Limit in
  match queryEntityRecords entity with
  | Err e => Err (Records e)
  | Ok records =>
      let? root :=
        if eqs mode "human" then parseHumanQuery Query
        else if eqs mode "ast" then Ok QueryAST else Err BadMode in
      let? matched := select_records limit root records [] in
      Ok (length records, matched, root)
  end.
End records.
End query.

(** ** Strings that split *)

Section split.
Context (kw : string).

Lemma prepend_prepend p q l : l ≠ [] → prepend p (prepend q l) = prepend (p +:+ q) l.
Proof. destruct l; [done|]. intros _. simpl. by rewrite append_assoc. Qed.

Lemma prepend_empty l : l ≠ [] → prepend "" l = l.
Proof. by destruct l. Qed.

Lemma prepend_ne p l : prepend p l ≠ [].
Proof. by destruct l. Qed.

Lemma length_drop n s : (String.length (drop_str n s) ≤ String.length s)%nat.
Proof. revert n; induction s as [|c s IH]; intros [|n]; simpl; try lia. specialize (IH n). lia. Qed.

Lemma length_skip s : (String.length (skip_spaces s) ≤ String.length s)%nat.
Proof. induction s as [|c s IH]; simpl; [done|]. destruct (pattern_space c); simpl; lia. Qed.

Lemma match_kw_shorter s rest : match_kw kw s = Some rest → (String.length rest < String.length s)%nat.
Proof.
  destruct s as [|c s]; [done|]. cbn [match_kw]. destruct (pattern_space c) eqn:Hc; [|done]. destruct (HasPrefix _ kw); [|done].
  pose proof (length_drop (String.length kw) (skip_spaces (String c s))) as Hd.
  destruct (drop_str _ _) as [|d t]; [done|]. destruct (pattern_space d) eqn:Hpd; [|done]. intros [= <-].
  simpl in Hd. rewrite Hc in Hd. pose proof (length_skip s). pose proof (length_skip t). simpl. rewrite Hpd. lia.
Qed.

Lemma split_kw_fuel fuel s : (String.length s < fuel)%nat → split_kw fuel kw s = Split kw s.
Proof.
  unfold Split. assert (∀ n f f' s, (String.length s ≤ n)%nat → (String.length s < f)%nat → (String.length s < f')%nat →
    split_kw f kw s = split_kw f' kw s) as Hall; [|intros; apply (Hall (String.length s)); lia].
  clear. intros n. induction n as [|n IH]; intros [|f] [|f'] s Hn Hf Hf'; try lia; simpl.
  - destruct s as [|c s]; [done|simpl in Hn; lia].
  - destruct (match_kw kw s) as [rest|] eqn:Hm.
    + apply match_kw_shorter in Hm. f_equal. apply IH; lia.
    + destruct s as [|c s]; [done|]. simpl in *. f_equal. apply IH; lia.
Qed.

Lemma Split_eq s :
  Split kw s = match match_kw kw s with
  | Some rest => "" :: Split kw rest
  | None => match s with EmptyString => [""] | String c s => prepend (String c "") (Split kw s) end
  end.
Proof.
  unfold Split at 1. cbn [split_kw]. destruct (match_kw kw s) as [rest|] eqn:Hm.
  - apply match_kw_shorter in Hm. f_equal. apply split_kw_fuel. lia.
  - by destruct s.
Qed.

Lemma Split_ne s : Split kw s ≠ [].
Proof. rewrite Split_eq. destruct (match_kw kw s); [done|]. destruct s; [done|]. apply prepend_ne. Qed.
End split.

(** All characters of a string. *)
Fixpoint each (f : ascii → bool) (s : string) : Prop :=
  match s with EmptyString => True | String c s => f c = true ∧ each f s end.

Definition solid_char (c : ascii) : bool := negb (pattern_space c).

Lemma each_app f s t : each f (s +:+ t) ↔ each f s ∧ each f t.
Proof. induction s as [|c s IH]; [rewrite append_nil; simpl; tauto|]. rewrite append_cons. simpl. rewrite IH. tauto. Qed.

Lemma each_impl (f g : ascii → bool) s : (∀ c, f c = true → g c = true) → each f s → each g s.
Proof. intros Hfg. induction s as [|c s IH]; [done|]. intros [? ?]. split; auto. Qed.

Lemma lower_pattern_space c : pattern_space (lower c) = pattern_space c.
Proof. destruct c as [[] [] [] [] [] [] [] []]; vm_compute; reflexivity. Qed.

(** Nothing, or a space: what can follow a word. *)
Definition gap (s : string) : Prop := match s with EmptyString => True | String c _ => pattern_space c = true end.

Definition solid_start (s : string) : Prop := match s with EmptyString => False | String c _ => solid_char c = true end.

Lemma gap_app p q : p ≠ "" → each pattern_space p → gap (p +:+ q).
Proof. destruct p as [|c p]; [done|]. by intros _ [? _]. Qed.

Lemma solid_start_app w s : w ≠ "" → each solid_char w → solid_start (w +:+ s).
Proof. destruct w as [|c w]; [done|]. by intros _ [? _]. Qed.

Lemma skip_spaces_app a s : each pattern_space a → skip_spaces (a +:+ s) = skip_spaces s.
Proof. induction a as [|c a IH]; [by rewrite append_nil|]. intros [Hc Ha]. rewrite append_cons. simpl. rewrite Hc. by apply IH. Qed.

Lemma skip_spaces_solid s : solid_start s → skip_spaces s = s.
Proof. destruct s as [|c s]; [done|]. intros Hc%negb_true_iff. simpl in *. by rewrite Hc. Qed.

(** A connective with the white space around it. *)
Record separator := { sep_before : string; sep_word : string; sep_after : string }.
Definition sep_text (p : separator) : string := sep_before p +:+ sep_word p +:+ sep_after p.
Definition sep_ok (kw : string) (p : separator) : Prop :=
  (sep_before p ≠ "" ∧ each pattern_space (sep_before p)) ∧ ToLower (sep_word p) = kw ∧
  sep_after p ≠ "" ∧ each pattern_space (sep_after p).

Lemma each_lower f s : each f (ToLower s) ↔ each (λ c, f (lower c)) s.
Proof. unfold ToLower. induction s as [|c s IH]; [done|]. simpl. by rewrite IH. Qed.

Section words.
Context (kw : string) (Hkw : each solid_char kw) (Hne : kw ≠ "").

Lemma Split_word w s : each solid_char w → Split kw (w +:+ s) = prepend w (Split kw s).
Proof.
  induction w as [|c w IH]; [intros _; rewrite append_nil, prepend_empty by apply Split_ne; done|]. intros [Hc Hw].
  rewrite append_cons, Split_eq. cbn [match_kw]. apply negb_true_iff in Hc. rewrite Hc, IH by done.
  rewrite prepend_prepend by apply Split_ne. done.
Qed.

Lemma kw_prefix k v tail :
  each solid_char k → gap tail → HasPrefix (ToLower (v +:+ tail)) k = true →
  ∃ v1 v2, v = v1 +:+ v2 ∧ ToLower v1 = k ∧ drop_str (String.length k) (v +:+ tail) = v2 +:+ tail.
Proof.
  revert v. induction k as [|c k IH]; intros v Hk Hgap; [exists "", v; by destruct (v +:+ tail)|]. destruct Hk as [Hc Hk].
  destruct v as [|d v].
  - rewrite append_nil. destruct tail as [|e tail]; [done|]. unfold HasPrefix. simpl. destruct (Ascii.ascii_dec _ _) as [Heq|]; [|done].
    exfalso. simpl in Hgap. rewrite <-lower_pattern_space in Hgap. unfold solid_char in Hc. rewrite Heq in *. by rewrite Hgap in Hc.
  - rewrite append_cons. unfold HasPrefix. simpl. destruct (Ascii.ascii_dec _ _) as [->|]; [|done]. intros Hp.
    destruct (IH v Hk Hgap Hp) as (v1 & v2 & -> & Hv1 & Hd). exists (String d v1), v2. split; [done|]. split; [|done].
    unfold ToLower in *. simpl. by rewrite Hv1.
Qed.

(** A match takes exactly one word between spaces. *)
Lemma match_kw_word a v tail rest :
  each pattern_space a → v ≠ "" → each solid_char v → gap tail → match_kw kw (a +:+ v +:+ tail) = Some rest → ToLower v = kw.
Proof.
  intros Ha Hvne Hv Hgap. destruct (a +:+ v +:+ tail) as [|c s] eqn:Hs; [done|]. cbn [match_kw]. rewrite <-Hs.
  destruct (pattern_space c); [|done]. rewrite skip_spaces_app by done. rewrite skip_spaces_solid by by apply solid_start_app.
  destruct (HasPrefix _ kw) eqn:Hp; [|done]. apply kw_prefix in Hp as (v1 & v2 & -> & Hv1 & ->); [|done..].
  apply each_app in Hv as [_ Hv2]. destruct v2 as [|d v2]; [by rewrite append_nil_r|].
  rewrite append_cons. simpl in Hv2. destruct Hv2 as [Hd%negb_true_iff _]. by rewrite Hd.
Qed.

Lemma sep_word_solid p : sep_ok kw p → sep_word p ≠ "" ∧ each solid_char (sep_word p).
Proof.
  intros (_ & Hp & _). split; [by destruct (sep_word p)|]. rewrite <-Hp, each_lower in Hkw. revert Hkw. apply each_impl.
  intros c. unfold solid_char. by rewrite lower_pattern_space.
Qed.

Lemma match_kw_separator p s : sep_ok kw p → solid_start s → match_kw kw (sep_text p +:+ s) = Some s.
Proof.
  intros Hok Hs. destruct (sep_word_solid p Hok) as [Hwne Hw]. destruct Hok as ([Hane Ha] & Hlow & Hbne & Hb).
  destruct p as [a k b]. simpl in *. unfold sep_text. simpl. destruct a as [|c a]; [done|]. destruct Ha as [Hc Ha].
  rewrite !append_assoc, append_cons. cbn [match_kw]. rewrite Hc.
  rewrite <-append_cons, skip_spaces_app by done. rewrite skip_spaces_solid by by apply solid_start_app.
  assert (∀ t, HasPrefix (ToLower (k +:+ t)) kw = true ∧ drop_str (String.length kw) (k +:+ t) = t) as Hp.
  { intros t. rewrite <-Hlow. clear. induction k as [|d k IH]; [by rewrite append_nil; destruct t|]. rewrite append_cons.
    unfold HasPrefix, ToLower in *. simpl. case_match; [|done]. exact IH. }
  destruct (Hp (b +:+ s)) as [-> ->]. destruct b as [|e b]; [done|]. destruct Hb as [He Hb]. rewrite append_cons, He.
  cbn [skip_spaces]. rewrite He, skip_spaces_app by done. by rewrite skip_spaces_solid.
Qed.

(** Spaces before a word other than the keyword stay. *)
Lemma Split_spaces a v tail :
  each pattern_space a → v ≠ "" → each solid_char v → gap tail → ToLower v ≠ kw →
  Split kw (a +:+ v +:+ tail) = prepend a (Split kw (v +:+ tail)).
Proof.
  intros Ha Hvne Hv Hgap Hnot. induction a as [|c a IH]; [rewrite append_nil, prepend_empty by apply Split_ne; done|].
  destruct (match_kw kw (String c a +:+ v +:+ tail)) as [rest|] eqn:Hm.
  { by apply match_kw_word in Hm. }
  rewrite Split_eq, Hm, append_cons. destruct Ha as [_ Ha]. rewrite IH by done. rewrite prepend_prepend by apply Split_ne. done.
Qed.

(** What no keyword splits, whatever follows after a space. *)
Definition free (x : string) : Prop := ∀ s, gap s → Split kw (x +:+ s) = prepend x (Split kw s).

Lemma free_word w : each solid_char w → free w.
Proof. intros Hw s _. by apply Split_word. Qed.

Lemma Split_free x : free x → Split kw x = [x].
Proof. intros Hx. specialize (Hx "" I). rewrite append_nil_r in Hx. rewrite Hx. cbn. by rewrite append_nil_r. Qed.

Lemma Split_separator x p s : free x → sep_ok kw p → solid_start s → Split kw (x +:+ sep_text p +:+ s) = x :: Split kw s.
Proof.
  intros Hx Hp Hs. rewrite Hx.
  - rewrite Split_eq, match_kw_separator by done. cbn. by rewrite append_nil_r.
  - destruct Hp as ([Hane Ha] & _). unfold sep_text. rewrite append_assoc. by apply gap_app.
Qed.
End words.

(** Pieces of a line with connectives between them. *)
Fixpoint joined (w : string) (l : list (separator * string)) : string :=
  match l with [] => w | (p, w') :: l => w +:+ sep_text p +:+ joined w' l end.

Lemma joined_start w l : solid_start w → solid_start (joined w l).
Proof. destruct w as [|c w]; [done|]. by destruct l as [|[p x] l]. Qed.

Lemma Split_joined kw w l :
  each solid_char kw → kw ≠ "" → free kw w → Forall (λ e, sep_ok kw e.1 ∧ free kw e.2 ∧ solid_start e.2) l →
  Split kw (joined w l) = w :: l.*2.
Proof.
  intros Hkw Hne Hw Hl. revert w Hw. induction Hl as [|[p x] l (Hp & Hx & Hs) _ IH]; intros w Hw; [by apply Split_free|].
  simpl in *. rewrite Split_separator; [|done..|by apply joined_start]. by rewrite IH.
Qed.

Lemma joined_word other w l s :
  Forall (λ e, sep_ok other e.1) l → gap s → ∃ z, joined w l +:+ s = w +:+ z ∧ gap z.
Proof.
  intros Hl Hs. destruct l as [|[p x] l]; [by exists s|]. apply Forall_cons_1 in Hl as [([Hane Ha] & _) _]. simpl in *.
  eexists. split; [by rewrite append_assoc|]. unfold sep_text. rewrite !append_assoc. by apply gap_app.
Qed.

(** Words with another connective between them. *)
Lemma free_joined kw other w l :
  each solid_char kw → each solid_char other → other ≠ "" → other ≠ kw → w ≠ "" → each solid_char w → ToLower w ≠ kw →
  Forall (λ e, sep_ok other e.1) l → Forall (λ x, x ≠ "" ∧ each solid_char x ∧ ToLower x ≠ kw) l.*2 → free kw (joined w l).
Proof.
  intros Hkw Hother Hone Hdiff Hwne Hw Hwk Hl. revert w Hwne Hw Hwk.
  induction Hl as [|[p x] l Hp Hl IH]; intros w Hwne Hw Hwk; [by intros _; apply free_word|].
  intros [(Hx & Hxs & Hxk) Hls]%Forall_cons_1 s Hs. simpl in *. destruct (sep_word_solid other Hother Hone p Hp) as [Hkne Hks].
  destruct Hp as ([Hane Ha] & Hlow & Hbne & Hb). unfold sep_text. rewrite !append_assoc.
  destruct (joined_word other x l s Hl Hs) as (z & Hz & Hgap). rewrite Hz.
  rewrite Split_word by done. rewrite Split_spaces; [|done..|by apply gap_app|by rewrite Hlow].
  rewrite Split_word by done. rewrite Split_spaces by done. rewrite <-Hz, IH by done.
  rewrite !prepend_prepend by (apply Split_ne || apply prepend_ne). by rewrite !append_assoc.
Qed.

(** ** Lines as they are printed *)

Definition trimmed (s : string) : Prop := s ≠ "" ∧ trim_left s = s ∧ trim_right s = s.

Lemma TrimSpace_trimmed s : trimmed s → TrimSpace s = s.
Proof. intros (_ & Hl & Hr). unfold TrimSpace. by rewrite Hl, Hr. Qed.

Lemma trimmed_app s m t : trimmed s → trimmed t → trimmed (s +:+ m +:+ t).
Proof.
  intros (Hs & Hsl & _) (Ht & _ & Htr). split_and!; [by destruct s|by apply trim_left_app|].
  rewrite <-append_assoc. by apply trim_right_app.
Qed.

Lemma trimmed_joined w l : trimmed w → Forall trimmed l.*2 → trimmed (joined w l).
Proof.
  revert w. induction l as [|[p x] l IH]; intros w Hw; [done|]. intros [Hx Hl]%Forall_cons_1. simpl. apply trimmed_app; [done|]. by apply IH.
Qed.

Lemma trim_around o1 s o2 :
  each Ascii.is_space o1 → each Ascii.is_space o2 → trimmed s → TrimSpace (o1 +:+ s +:+ o2) = s.
Proof.
  intros H1 H2 (Hs & Hl & Hr). unfold TrimSpace.
  assert (trim_left (o1 +:+ s +:+ o2) = s +:+ o2) as ->.
  { induction o1 as [|c o1 IH]; [rewrite append_nil; by apply trim_left_app|]. destruct H1 as [Hc H1].
    rewrite append_cons. simpl. rewrite Hc. by apply IH. }
  clear Hl. rewrite <-Hr at 2. clear Hs Hr. induction s as [|c s IH].
  - rewrite append_nil. simpl. induction o2 as [|c o2 IH]; [done|]. destruct H2 as [Hc H2]. simpl. by rewrite IH, Hc.
  - rewrite append_cons. simpl. by rewrite IH.
Qed.

Definition operator_char (c : ascii) : bool := bool_decide (c ∈ ["!"; "<"; ">"; "~"; "="]%char).

(** What field names and values consist of. *)
Definition word_char (c : ascii) : bool := negb (Ascii.is_space c) && negb (operator_char c) && negb (quote_char c).

(** A condition of a line; its value may stand in quotes. *)
Record term := { t_field : string; t_token : string; t_comparator : string; t_quote : string; t_value : string }.

Definition term_ok (t : term) : Prop :=
  (t_field t ≠ "" ∧ each word_char (t_field t)) ∧ (t_token t, t_comparator t) ∈ operators ∧
  t_quote t ∈ [""; sq; dq] ∧ each word_char (t_value t).

Definition term_text (t : term) : string := t_field t +:+ t_token t +:+ t_quote t +:+ t_value t +:+ t_quote t.

Definition term_node `{Number} (t : term) : queryNode := leaf (t_field t) (t_comparator t) (t_value t).

(** The text after the operator. *)
Definition operand_char (c : ascii) : bool := negb (Ascii.is_space c) && negb (operator_char c).

Lemma word_operand s : each word_char s → each operand_char s.
Proof. apply each_impl. intros c. unfold word_char, operand_char. rewrite !andb_true_iff. tauto. Qed.

Lemma operand_quoted t : term_ok t → each operand_char (t_quote t +:+ t_value t +:+ t_quote t).
Proof.
  intros (_ & _ & Hq & Hv). rewrite !each_app. assert (each operand_char (t_quote t)) as H; [|by split_and!; [|apply word_operand|]].
  rewrite !elem_of_cons, elem_of_nil in Hq. by destruct Hq as [-> | [-> | [->|[]]]].
Qed.

Lemma no_blanks_each s : each (λ c, negb (Ascii.is_space c)) s → no_blanks s = true.
Proof. induction s as [|c s IH]; [done|]. intros [Hc Hs]. simpl. rewrite Hc. by apply IH. Qed.

Lemma TrimSpace_operand s : each operand_char s → TrimSpace s = s.
Proof.
  intros Hs. apply TrimSpace_no_blanks, no_blanks_each. revert Hs. apply each_impl. intros c [Hc _]%andb_true_iff. exact Hc.
Qed.

(** An operator is not found in operands. *)
Lemma prefix_operand c tok s t :
  operator_char c = true → s ≠ "" → each operand_char s → String.prefix (String c tok) (s +:+ t) = false.
Proof.
  intros Hc. destruct s as [|d s]; [done|]. intros _ [Hd _]. rewrite append_cons. simpl. case_match; [|done]. subst d.
  unfold operand_char in Hd. by rewrite Hc, andb_false_r in Hd.
Qed.

Lemma Cut_operand c tok s t :
  operator_char c = true → each operand_char s →
  Cut (s +:+ t) (String c tok) = match Cut t (String c tok) with Some (a, b) => Some (s +:+ a, b) | None => None end.
Proof.
  intros Hc. induction s as [|d s IH]; [intros _; rewrite append_nil; by destruct (Cut t _) as [[a b]|]|]. intros Hs.
  pose proof (prefix_operand c tok (String d s) t Hc ltac:(done) Hs) as Hp. destruct Hs as [_ Hs]. rewrite append_cons in *.
  cbn [Cut]. rewrite Hp, IH by done. by destruct (Cut t _) as [[a b]|].
Qed.

Lemma Cut_absent c tok s : operator_char c = true → each operand_char s → Cut s (String c tok) = None.
Proof. intros Hc Hs. rewrite <-(append_nil_r s). by rewrite Cut_operand. Qed.

Lemma trim_quotes q v : q ∈ [""; sq; dq] → each word_char v → trim_quotes_right (trim_quotes_left (q +:+ v +:+ q)) = v.
Proof.
  intros Hq Hv. assert (trim_quotes_left (q +:+ v +:+ q) = match v with "" => "" | _ => v +:+ q end) as ->.
  { rewrite !elem_of_cons, elem_of_nil in Hq. destruct v as [|c v]; [by destruct Hq as [->|[->|[->|[]]]]|].
    destruct Hv as [[_ Hc%negb_true_iff]%andb_true_iff _]. destruct Hq as [->|[->|[->|[]]]]; simpl; by rewrite Hc. }
  assert (trim_quotes_right q = "") as Hqr.
  { rewrite !elem_of_cons, elem_of_nil in Hq. by destruct Hq as [->|[->|[->|[]]]]. }
  destruct v as [|d v']; [done|]. revert Hv. generalize (String d v'). clear d v'. intros v Hv.
  induction v as [|c v IH]; [by rewrite append_nil|]. destruct Hv as [[_ Hc%negb_true_iff]%andb_true_iff Hv].
  rewrite append_cons. simpl. rewrite IH, Hc by done. by destruct v.
Qed.

Lemma operators_chars tok comp :
  (tok, comp) ∈ operators → ∃ c tok', tok = String c tok' ∧ operator_char c = true ∧ each operator_char tok' ∧
    each solid_char tok ∧ trimmed tok.
Proof.
  unfold operators. rewrite !elem_of_cons, elem_of_nil.
  intros H. destruct_or! H; try done; injection H as -> ->; (do 2 eexists; split_and!; [reflexivity|by vm_compute..]).
Qed.

Lemma prefix_nil s : String.prefix "" s = true.
Proof. by destruct s. Qed.

(** Only one operator of the table stands in the text: none is found before it. *)
Lemma try_operators_text `{Number} f tok comp v :
  f ≠ "" → each operand_char f → each operand_char v → (tok, comp) ∈ operators →
  try_operators operators (f +:+ tok +:+ v) = Ok (leaf f comp (trim_quotes_right (trim_quotes_left v))).
Proof.
  intros Hne Hf Hv Hop. pose proof (TrimSpace_operand f Hf) as HTf. pose proof (TrimSpace_operand v Hv) as HTv.
  assert (∀ c t, operator_char c = true → String.prefix (String c t) v = false) as Hpre.
  { intros c t Hc. destruct v as [|d v]; [done|]. rewrite <-(append_nil_r (String d v)). by apply prefix_operand. }
  pose proof (λ c t, Cut_absent c t v) as Habs. pose proof (λ c t, Cut_operand c t f (tok +:+ v)) as Hcut.
  unfold operators in *. cbn [try_operators]. rewrite !Hcut by done. clear Hcut. destruct f as [|d f]; [done|].
  rewrite !elem_of_cons, elem_of_nil in Hop.
  destruct_or! Hop; try done; injection Hop as -> ->;
    repeat progress (rewrite ?append_cons, ?append_nil, ?append_nil_r, ?prefix_nil, ?Hpre, ?Habs by done;
            cbn -[TrimSpace trim_quotes_left trim_quotes_right eqs String.append]);
    rewrite HTf, HTv; reflexivity.
Qed.

Lemma parse_term `{Number} t : term_ok t → parseHumanTerm (term_text t) = Ok (term_node t).
Proof.
  intros Ht. pose proof (operand_quoted t Ht) as Hv. destruct Ht as ([Hne Hf] & Hop & Hq & Hval).
  unfold parseHumanTerm. destruct (eqs (term_text t) "") eqn:He.
  { apply eqs_true in He. unfold term_text in He. by destruct (t_field t). }
  unfold term_text. rewrite (try_operators_text _ _ (t_comparator t)); [|done|by apply word_operand|done..].
  by rewrite trim_quotes.
Qed.

(** The text of a condition is one word, and no connective. *)
Lemma solid_of_operand s : each operand_char s → each solid_char s.
Proof.
  apply each_impl. intros c [Hc%negb_true_iff _]%andb_true_iff. unfold solid_char, pattern_space.
  by destruct c as [[] [] [] [] [] [] [] []].
Qed.

Lemma term_word t kw :
  term_ok t → each (λ c, negb (operator_char c)) kw →
  term_text t ≠ "" ∧ each solid_char (term_text t) ∧ ToLower (term_text t) ≠ kw.
Proof.
  intros Ht Hkw. pose proof (operand_quoted t Ht) as Hv. destruct Ht as ([Hne Hf] & Hop & _).
  apply operators_chars in Hop as (c & tok & Htok & Hc & _ & Hsolid & _). unfold term_text. split_and!.
  - by destruct (t_field t).
  - rewrite !each_app. rewrite !each_app in Hv. destruct Hv as (? & ? & ?).
    split_and!; try done; apply solid_of_operand; try done. by apply word_operand.
  - intros <-. rewrite each_lower, !each_app in Hkw. destruct Hkw as (_ & Hbad & _). rewrite Htok in Hbad. destruct Hbad as [Hbad _].
    apply negb_true_iff in Hbad. assert (operator_char (lower c) = operator_char c) as Hl; [|congruence].
    clear. by destruct c as [[] [] [] [] [] [] [] []].
Qed.

Lemma trimmed_operand s : s ≠ "" → each operand_char s → trimmed s.
Proof.
  intros Hne Hs. assert (no_blanks s = true) as Hb.
  { apply no_blanks_each. revert Hs. apply each_impl. by intros c [Hc _]%andb_true_iff. }
  split_and!; [done|by apply trim_left_no_blanks|by apply trim_right_no_blanks].
Qed.

Lemma trimmed_term t : term_ok t → trimmed (term_text t).
Proof.
  intros Ht. pose proof (operand_quoted t Ht) as Hv. destruct Ht as ([Hne Hf] & Hop & _).
  apply operators_chars in Hop as (c & tok & _ & _ & _ & _ & Htok). apply word_operand, trimmed_operand in Hf; [|done].
  unfold term_text. revert Hv. generalize (t_quote t +:+ t_value t +:+ t_quote t). intros v Hv.
  destruct v as [|d v].
  - rewrite append_nil_r. pose proof (trimmed_app (t_field t) "" (t_token t) Hf Htok) as H. by rewrite append_nil in H.
  - apply trimmed_app; [done|]. by apply trimmed_operand.
Qed.

(** Conditions joined by AND, joined by OR. *)
Definition group : Type := term * list (separator * term).
Definition query : Type := group * list (separator * group).
Definition conditions {A B} (g : A * list (B * A)) : list A := g.1 :: g.2.*2.

Definition group_text (g : group) : string := joined (term_text g.1) (prod_map id term_text <$> g.2).
Definition query_text (q : query) : string := joined (group_text q.1) (prod_map id group_text <$> q.2).

Definition group_ok (g : group) : Prop := Forall term_ok (conditions g) ∧ Forall (sep_ok "and") g.2.*1.
Definition query_ok (q : query) : Prop := Forall group_ok (conditions q) ∧ Forall (sep_ok "or") q.2.*1.

Definition group_node `{Number} (g : group) : queryNode := connect "and" (term_node <$> conditions g).
Definition query_node `{Number} (q : query) : queryNode := connect "or" (group_node <$> conditions q).

Lemma texts_snd {A B} (f : A → string) (l : list (B * A)) : (prod_map id f <$> l).*2 = f <$> l.*2.
Proof. by rewrite <-!list_fmap_compose. Qed.

Lemma Forall_texts {A} (f : A → string) (P : separator → Prop) (Q : string → Prop) (l : list (separator * A)) :
  Forall P l.*1 → Forall (λ a, Q (f a)) l.*2 → Forall (λ e, P e.1 ∧ Q e.2) (prod_map id f <$> l).
Proof.
  induction l as [|[b a] l IH]; [constructor|]. simpl. intros [Hb Hl]%Forall_cons_1 [Ha Hm]%Forall_cons_1. constructor; [done|]. by apply IH.
Qed.

Lemma keyword_and : each solid_char "and" ∧ each (λ c, negb (operator_char c)) "and".
Proof. vm_compute. tauto. Qed.
Lemma keyword_or : each solid_char "or" ∧ each (λ c, negb (operator_char c)) "or".
Proof. vm_compute. tauto. Qed.

Lemma solid_start_word w : w ≠ "" → each solid_char w → solid_start w.
Proof. intros Hne Hw. rewrite <-(append_nil_r w). by apply solid_start_app. Qed.

Lemma Split_group g : group_ok g → Split "and" (group_text g) = term_text <$> conditions g.
Proof.
  intros [[Ht Hl]%Forall_cons_1 Hs]. destruct keyword_and as [Hk Hko]. unfold group_text. rewrite Split_joined; [|done|done| |].
  - by rewrite texts_snd.
  - apply free_word. by apply (term_word _ "and").
  - apply (Forall_texts term_text _ (λ x, free "and" x ∧ solid_start x)); [done|]. eapply Forall_impl; [exact Hl|].
    intros t (Hne & Hsolid & _)%(term_word _ "and"); [|done]. split; [by apply free_word|by apply solid_start_word].
Qed.

Lemma free_group g : group_ok g → free "or" (group_text g) ∧ solid_start (group_text g).
Proof.
  intros [[Ht Hl]%Forall_cons_1 Hs]. destruct keyword_and as [Hk _]. destruct keyword_or as [Hkw Hko].
  destruct (term_word _ "or" Ht Hko) as (Hne & Hsolid & Hnot). split.
  - apply (free_joined "or" "and"); try done.
    + eapply Forall_impl; [apply (Forall_texts term_text (sep_ok "and") (λ _, True)); [done|by apply Forall_true]|]. by intros e [? _].
    + rewrite texts_snd. apply Forall_fmap. eapply Forall_impl; [exact Hl|]. intros t Hok. by apply (term_word t "or").
  - apply joined_start. by apply solid_start_word.
Qed.

Lemma Split_query q : query_ok q → Split "or" (query_text q) = group_text <$> conditions q.
Proof.
  intros [[Hg Hl]%Forall_cons_1 Hs]. destruct keyword_or as [Hk _]. unfold query_text. rewrite Split_joined; [|done|done| |].
  - by rewrite texts_snd.
  - by apply free_group.
  - apply (Forall_texts group_text _ (λ x, free "or" x ∧ solid_start x)); [done|]. eapply Forall_impl; [exact Hl|]. intros g. apply free_group.
Qed.

Lemma trimmed_group g : group_ok g → trimmed (group_text g).
Proof.
  intros [[Ht Hl]%Forall_cons_1 _]. apply trimmed_joined; [by apply trimmed_term|]. rewrite texts_snd. apply Forall_fmap.
  eapply Forall_impl; [exact Hl|]. apply trimmed_term.
Qed.

Lemma trimmed_query q : query_ok q → trimmed (query_text q).
Proof.
  intros [[Hg Hl]%Forall_cons_1 _]. apply trimmed_joined; [by apply trimmed_group|]. rewrite texts_snd. apply Forall_fmap.
  eapply Forall_impl; [exact Hl|]. apply trimmed_group.
Qed.

Lemma mapM_res_texts {A B E} (text : A → string) (node : A → B) (f : string → result E B) (P : A → Prop) l :
  (∀ a, P a → f (text a) = Ok (node a)) → Forall P l → mapM_res f (text <$> l) = Ok (node <$> l).
Proof. intros Hf. induction 1 as [|a l Ha _ IH]; [done|]. rewrite !fmap_cons. cbn [mapM_res]. rewrite Hf by done. cbn. by rewrite IH. Qed.

Lemma parse_query `{Number} o1 q o2 :
  each Ascii.is_space o1 → each Ascii.is_space o2 → query_ok q →
  parseHumanQuery (o1 +:+ query_text q +:+ o2) = Ok (Some (query_node q)).
Proof.
  intros H1 H2 Hq. pose proof (trimmed_query q Hq) as Ht. unfold parseHumanQuery. rewrite trim_around by done.
  rewrite (proj2 (eqs_false _ _)) by apply Ht. rewrite Split_query by done.
  erewrite (mapM_res_texts group_text group_node _ group_ok); [done| |apply Hq].
  intros g Hg. rewrite TrimSpace_trimmed by by apply trimmed_group. rewrite Split_group by done.
  erewrite (mapM_res_texts term_text term_node _ term_ok); [done| |apply Hg].
  intros t Hok. rewrite TrimSpace_trimmed by by apply trimmed_term. by apply parse_term.
Qed.

(** ** What lines select *)

(** Comparisons of given strings, decided. *)
Ltac decide_eqs :=
  repeat match goal with
  | |- context [eqs ?a ?b] =>
      let r := eval vm_compute in (eqs a b) in
      first [constr_eq r true | constr_eq r false]; change (eqs a b) with r; cbv iota
  end.

Section selected.
Context `{Floats}.

(** A condition holds of a record that has the field: its text and the value
    are compared without regard to case, or both as numbers. *)
Definition term_holds (rec : object) (t : term) : bool :=
  match at_path (split_dots (t_field t)) (JObject rec) with
  | None => false
  | Some v =>
      let text := norm (Sprint v) in
      let wanted := ToLower (t_value t) in
      let numbers (f : number → number → bool) :=
        match toFloat v, ParseFloat (t_value t) with Some a, Some b => f a b | _, _ => false end in
      match t_token t with
      | "=" => bool_decide (text = wanted)
      | "!=" => bool_decide (text ≠ wanted)
      | ">" => numbers (λ a b, num_lt b a)
      | ">=" => numbers (λ a b, num_le b a)
      | "<" => numbers num_lt
      | "<=" => numbers num_le
      | _ => Contains text wanted
      end
  end.

Definition query_holds (q : query) (rec : object) : bool :=
  existsb (λ g, forallb (term_holds rec) (conditions g)) (conditions q).

Lemma match_term rec t : term_ok t → match_node rec (term_node t) = Ok (term_holds rec t).
Proof.
  intros ([Hne Hf] & Hop & _ & Hv). unfold term_node, leaf. cbn [match_node]. decide_eqs.
  apply word_operand, TrimSpace_operand in Hf. apply word_operand, TrimSpace_operand in Hv.
  unfold compareField, getField, term_holds. rewrite Hf, (proj2 (eqs_false _ "") Hne).
  destruct (at_path _ _) as [v|]; [|done]. cbn [Sprint toFloat]. rewrite Hv.
  unfold operators in Hop. rewrite !elem_of_cons, elem_of_nil in Hop.
  destruct t as [f tok comp q val]. cbn [t_field t_token t_comparator t_value] in *.
  destruct_or! Hop; try done; injection Hop as -> ->; cbv zeta; decide_eqs; try done; try (by repeat case_match).
  unfold EqualFold. fold (norm (Sprint v)). by rewrite bool_decide_not.
Qed.

Lemma match_connect_and {A} rec (node : A → queryNode) (holds : A → bool) l :
  l ≠ [] → Forall (λ a, match_node rec (node a) = Ok (holds a)) l →
  match_node rec (connect "and" (node <$> l)) = Ok (forallb holds l).
Proof.
  intros Hne Hl. destruct l as [|a [|b l]]; [done| |].
  - apply Forall_cons_1 in Hl as [Ha _]. simpl. by rewrite Ha, andb_true_r.
  - unfold connect. rewrite !fmap_cons. rewrite <-!fmap_cons. revert Hl. generalize (a :: b :: l). clear. intros l Hl. cbn [match_node]. decide_eqs.
    induction Hl as [|a l Ha _ IH]; [done|]. rewrite fmap_cons, Ha. cbn. destruct (holds a); [exact IH|done].
Qed.

Lemma match_connect_or {A} rec (node : A → queryNode) (holds : A → bool) l :
  l ≠ [] → Forall (λ a, match_node rec (node a) = Ok (holds a)) l →
  match_node rec (connect "or" (node <$> l)) = Ok (existsb holds l).
Proof.
  intros Hne Hl. destruct l as [|a [|b l]]; [done| |].
  - apply Forall_cons_1 in Hl as [Ha _]. simpl. by rewrite Ha, orb_false_r.
  - unfold connect. rewrite !fmap_cons. rewrite <-!fmap_cons. revert Hl. generalize (a :: b :: l). clear. intros l Hl. cbn [match_node]. decide_eqs.
    induction Hl as [|a l Ha _ IH]; [done|]. rewrite fmap_cons, Ha. cbn. destruct (holds a); [done|exact IH].
Qed.

Lemma match_query rec q : query_ok q → match_node rec (query_node q) = Ok (query_holds q rec).
Proof.
  intros [Hq _]. apply match_connect_or; [done|]. eapply Forall_impl; [exact Hq|]. intros g [Hg _].
  apply match_connect_and; [done|]. eapply Forall_impl; [exact Hg|]. intros t. apply match_term.
Qed.

(** A record that is an object and matches. *)
Definition found {A} (toMap : A → option object) (holds : object → bool) (rec : A) : bool :=
  match toMap rec with Some m => holds m | None => false end.

(** The records that are sent: the first [limit] of those that match. *)
Lemma select_records_spec {A} (toMap : A → option object) limit root (holds : object → bool) records matched :
  (∀ m, matchNode m root = Ok (holds m)) → Z.of_nat (length matched) < limit →
  select_records toMap limit root records matched =
    Ok (matched ++ take (Z.to_nat limit - length matched) (filter (λ rec, found toMap holds rec = true) records)).
Proof.
  intros Hm. revert matched. induction records as [|rec records IH]; intros matched Hlim.
  { cbn [select_records]. by rewrite filter_nil, take_nil, app_nil_r. }
  cbn [select_records]. rewrite filter_cons. destruct (decide (found toMap holds rec = true)) as [Hf|Hf]; unfold found in Hf.
  2: { destruct (toMap rec) as [m|]; [|by apply IH]. rewrite Hm. cbn. destruct (holds m); [done|by apply IH]. }
  destruct (toMap rec) as [m|]; [|done]. rewrite Hm. cbn. rewrite Hf.
  destruct (Z.to_nat limit - length matched)%nat as [|n] eqn:Hn; [lia|]. cbn [take].
  destruct (limit <=? _) eqn:Hle; rewrite length_app in Hle; simpl in Hle.
  - apply Z.leb_le in Hle. by replace n with 0%nat by lia.
  - apply Z.leb_gt in Hle. rewrite IH by (rewrite length_app; simpl; lia). rewrite <-app_assoc, length_app. simpl.
    by replace (Z.to_nat limit - (length matched + 1))%nat with n by lia.
Qed.
End selected.

(** C39: a line of conditions [field op value], joined by AND and the groups by OR,
    in any case, with any white space around the connectives and the line, is read
    as the tree that it says.  A field is one word, a value a word or nothing,
    possibly in quotes, both without blanks, quotes and characters of operators,
    and nothing stands between them and the operator.  The endpoint
    answers it with the number of all records of the entity, the tree, and, in the
    order of the store, the first records up to the limit (100 where none is
    given) that satisfy every condition of some group; posting that tree as
    [query_ast] gives the same answer. *)
Theorem human_query `{Floats} {A} (toMap : A → option object) queryEntityRecords Entity Mode before q after ast Limit records :
  norm Entity ≠ "" → norm Mode ∈ [""; "human"] → each Ascii.is_space before → each Ascii.is_space after → query_ok q →
  queryEntityRecords (norm Entity) = Ok records →
  let root := query_node q in
  let limit := if Limit <=? 0 then 100 else Limit in
  let items := take (Z.to_nat limit) (filter (λ rec, found toMap (query_holds q) rec = true) records) in
  let line := before +:+ query_text q +:+ after in
  parseHumanQuery line = Ok (Some root) ∧
  handleQuery toMap queryEntityRecords Entity Mode line ast Limit = Ok (length records, items, Some root) ∧
  ∀ any, handleQuery toMap queryEntityRecords Entity "ast" any (Some root) Limit = Ok (length records, items, Some root).
Proof.
  intros HE HM Hb Ha Hq Hr. cbv zeta. pose proof (parse_query before q after Hb Ha Hq) as Hp. split; [done|].
  assert (∀ limit, 0 < limit → select_records toMap limit (Some (query_node q)) records [] =
    Ok (take (Z.to_nat limit) (filter (λ rec, found toMap (query_holds q) rec = true) records))) as Hs.
  { intros limit Hl. rewrite (select_records_spec toMap limit _ (query_holds q)); [by rewrite Nat.sub_0_r| |done].
    intros m. by apply match_query. }
  assert (0 < if Limit <=? 0 then 100 else Limit) as Hpos by (destruct (Z.leb_spec Limit 0); lia).
  unfold handleQuery. rewrite (proj2 (eqs_false _ "") HE), Hr. split; [|intros any; decide_eqs; cbn [mbind]; cbn; by rewrite Hs].
  rewrite !elem_of_cons, elem_of_nil in HM. destruct HM as [->|[->|[]]]; decide_eqs; rewrite Hp; cbn; by rewrite Hs.
Qed.

(** ** The claim at work, and lines that are not read as they look *)

Definition toy_numbers : Number := {| number := Z |}.
Definition toy_text : @NumberText toy_numbers := @Build_NumberText toy_numbers (λ n : Z, itoa n).
Definition toy_floats : @Floats toy_numbers toy_text :=
  @Build_Floats toy_numbers toy_text (λ s, if eqs s "3" then Some 3 else if eqs s "1000000" then Some 1000000 else None) Z.ltb Z.leb.

#[local] Existing Instance toy_floats.
#[local] Existing Instance toy_text.
#[local] Existing Instance toy_numbers.

Definition toy_record (status : string) (attempts : Z) : object :=
  {[ "status" := JString status; "meta" := JObject {[ "attempts" := @JNumber toy_numbers attempts ]} ]}.

(** [status=failed and meta.attempts>=3 OR status~="run"], with odd spacing. *)
Definition toy_query : query :=
  (({| t_field := "status"; t_token := "="; t_comparator := "eq"; t_quote := ""; t_value := "FAILED" |},
    [({| sep_before := "  "; sep_word := "and"; sep_after := " " |},
      {| t_field := "meta.attempts"; t_token := ">="; t_comparator := "gte"; t_quote := ""; t_value := "3" |})]),
   [({| sep_before := " "; sep_word := "Or"; sep_after := "   " |},
     ({| t_field := "status"; t_token := "~="; t_comparator := "contains"; t_quote := sq; t_value := "run" |}, []))]).

Lemma human_query_witness :
  let records := [toy_record "Failed" 2; toy_record "failed" 4; toy_record "Running" 0; toy_record "running" 9] in
  query_text toy_query = "status=FAILED  and meta.attempts>=3 Or   status~='run'" ∧
  handleQuery Some (λ _, Ok records) " Jobs" "" (" " +:+ query_text toy_query +:+ " ") None 2 =
    Ok (4%nat, [toy_record "failed" 4; toy_record "Running" 0], Some (query_node toy_query)).
Proof.
  intros records. split; [reflexivity|].
  destruct (human_query Some (λ _, Ok records) " Jobs" "" " " toy_query " " None 2 records) as (_ & Hh & _).
  - vm_compute. discriminate.
  - vm_compute. constructor.
  - by vm_compute.
  - by vm_compute.
  - repeat constructor; vm_compute; (discriminate || tauto || (repeat constructor)).
  - reflexivity.
  - rewrite Hh. do 3 f_equal.
Defined.

(** Quotes do not protect a connective: the line is cut inside the value. *)
Lemma quotes_do_not_protect : parseHumanQuery "name='blue or green'" = Err (InvalidTerm "green'").
Proof. reflexivity. Qed.

(** The operators are looked for anywhere in a condition, in the order of the
    table: one inside the value wins over the one that was meant. *)
Lemma operator_in_value :
  parseHumanTerm "message=latency>=3" = Ok (leaf "message=latency" "gte" "3") ∧
  parseHumanTerm "url='a?x!=y'" = Ok (leaf "url='a?x" "ne" "y").
Proof. split; reflexivity. Qed.

(** A whole float64 from a million on is written with an exponent by [%v], so no
    decimal number equals it, though it is at least and at most that number. *)
Lemma million_not_equal `{Floats} n :
  number_text n = "1e+06" → ParseFloat "1000000" = Some n → num_le n n = true →
  let rec : object := {[ "size" := JNumber n ]} in
  compareField rec "size" "eq" (JString "1000000") = Ok false ∧
  compareField rec "size" "gte" (JString "1000000") = Ok true ∧ compareField rec "size" "lte" (JString "1000000") = Ok true.
Proof.
  intros Ht Hp Hle rec. assert (getField rec "size" = Some (JNumber n)) as Hg by reflexivity.
  unfold compareField. rewrite !Hg. decide_eqs. cbn [Sprint toFloat]. rewrite Ht. change (TrimSpace "1000000") with "1000000".
  rewrite Hp, Hle. done.
Qed.
