(* ===== verification/Variables.v ===== *)
(** * The resolution of layered variables: [internal/control/variables.go]

    Layers of variables are merged, later ones over earlier ones, with a record
    of where every value comes from and which values were overridden.  The loops
    over Go maps visit their keys in any order, an argument here for every layer
    and every nested map.  Proved: the merge is the one of [Json] in any order;
    for layers without nested maps the record is exact; for nested ones it
    is not.

    The values are plain, but for one that [mergeContext] shares: after an
    override the merged map and [lastValueByPath] hold the same Go map, so that a
    later merge into it changes both. *)

From S2P Require Import Prelude Json.

Record VariableLayer `{Number} : Type := mkLayer { vl_Name : string; vl_Data : object }.
Arguments mkLayer {_}.

Record VariableResolveRequest `{Number} : Type := mkResolve { vr_Layers : list VariableLayer; vr_HardFail : bool }.
Arguments mkResolve {_}.

Record VariableConflict `{Number} : Type := mkConflict {
  vc_Path : string;
  vc_PreviousLayer : string;
  vc_CurrentLayer : string;
  vc_PreviousValue : json;
  vc_CurrentValue : json;
  vc_Resolution : string;
  vc_Hint : string;
}.
Arguments mkConflict {_}.

Inductive edge_action := SetValue | OverrideValue.
Record VariableSourceEdge : Type := mkEdge { ve_Path : string; ve_From : string; ve_To : string; ve_Action : edge_action }.

Record VariableResolveResult `{Number} : Type := mkResolved {
  vs_Merged : object;
  vs_Precedence : list string;
  vs_Conflicts : list VariableConflict;
  vs_Warnings : list string;
  vs_SourceGraph : list VariableSourceEdge;
  vs_GeneratedAt : Time;
}.
Arguments mkResolved {_}.

(** What [mergeContext] shares between the layers. *)
Record merge_log `{Number} : Type := mkLog {
  ml_conflicts : list VariableConflict;
  ml_graph : list VariableSourceEdge;
  ml_lastSource : gmap string string;
  ml_lastValue : gmap string json;
  ml_shared : gmap string (list string);       (* where a last value is also part of the merged map *)
  ml_overrideCount : gmap string Z;
}.
Arguments mkLog {_}.

Section variables.
Context `{Number}.

#[export] Instance merge_log_eta : Eta merge_log := λ l,
  mkLog (ml_conflicts l) (ml_graph l) (ml_lastSource l) (ml_lastValue l) (ml_shared l) (ml_overrideCount l).

(** A missing string is empty, a missing value nil. *)
Definition last_source (path : string) (l : merge_log) : string := default "" (ml_lastSource l !! path).
Definition last_value (path : string) (l : merge_log) : json := default JNull (ml_lastValue l !! path).
Definition override_count (path : string) (l : merge_log) : Z := default 0 (ml_overrideCount l !! path).

Definition conflict (path previous current : string) (prevVal nextVal : json) : VariableConflict :=
  mkConflict path previous current prevVal nextVal "current layer overrides previous value"
    "review variable precedence or split environment-specific keys to avoid accidental overrides".

Definition set_last (path layer : string) (v : json) (l : merge_log) : merge_log :=
  l <| ml_lastSource := <[path := layer]> (ml_lastSource l) |> <| ml_lastValue := <[path := v]> (ml_lastValue l) |>.

Definition add_edge (path from layer : string) (action : edge_action) (l : merge_log) : merge_log :=
  l <| ml_graph := ml_graph l ++ [mkEdge path from layer action] |>.

(** [v] with [w] at the place [at_] in it. *)
Fixpoint insert_at (at_ : list string) (w v : json) : json :=
  match at_, v with
  | [], _ => w
  | k :: at_, JObject m => JObject (<[k := insert_at at_ w (default (JObject ∅) (m !! k))]> m)
  | _, _ => v
  end.

(** [dest[key] = v], the entry being at [at_] in the merged map: a last value that
    is a map around it changes with it, one that was there or below is no longer
    part of the merged map. *)
Definition assigned (at_ : list string) (v : json) (l : merge_log) : merge_log :=
  l <| ml_lastValue := map_imap (λ path w, Some
         match ml_shared l !! path with
         | Some place => if decide (place `prefix_of` at_ ∧ place ≠ at_) then insert_at (drop (length place) at_) v w else w
         | None => w
         end) (ml_lastValue l) |>
    <| ml_shared := filter (λ e, ¬ at_ `prefix_of` e.2) (ml_shared l) |>.

(** A key that is new: the record gets a copy of its own. *)
Definition log_set (layer path : string) (at_ : list string) (v : json) (l : merge_log) : merge_log :=
  let l := assigned at_ v l in
  add_edge path "" layer SetValue (set_last path layer v (l <| ml_shared := delete path (ml_shared l) |>)).

(** One that is there: the record gets the very value of the merged map. *)
Definition log_override (layer path : string) (at_ : list string) (v : json) (l : merge_log) : merge_log :=
  let prevLayer := last_source path l in
  let prevVal := last_value path l in
  let l :=
    if bool_decide (prevVal = v) then l
    else l <| ml_conflicts := ml_conflicts l ++ [conflict path prevLayer layer prevVal v] |>
           <| ml_overrideCount := <[path := override_count path l + 1]> (ml_overrideCount l) |> in
  let l := assigned at_ v l in
  let shared := if is_object v then <[path := at_]> (ml_shared l) else delete path (ml_shared l) in
  add_edge path prevLayer layer OverrideValue (set_last path layer v (l <| ml_shared := shared |>)).

Definition sub_path (prefix key : string) : string := if eqs prefix "" then key else prefix +:+ "." +:+ key.

(** The loop over [source]; [ro] gives the order in which each map is visited,
    [at_] the keys that lead to [dest] in the merged map. *)
Fixpoint mergeVariableLayer (fuel : nat) (ro : string → map_order json) (layer prefix : string) (at_ : list string)
    (source : object)
    (st : object * merge_log) : object * merge_log :=
  match fuel with
  | O => st
  | S fuel =>
      foldl (λ '(dest, l) '(key, rawValue),
        let path := sub_path prefix key in
        match dest !! key with
        | None => (<[key := rawValue]> dest, log_set layer path (at_ ++ [key]) rawValue l)
        | Some existing =>
            match rawValue, existing with
            | JObject incomingMap, JObject existingMap =>
                let '(existingMap, l) := mergeVariableLayer fuel ro layer path (at_ ++ [key]) incomingMap (existingMap, l) in
                (<[key := JObject existingMap]> dest, l)
            | _, _ => (<[key := rawValue]> dest, log_override layer path (at_ ++ [key]) rawValue l)
            end
        end) st (range (ro prefix) source)
  end.

(** The nesting of a value: the fuel that the recursion needs. *)
Fixpoint depth (v : json) : nat :=
  match v with JObject m => S (map_fold (λ _ v n, Nat.max (depth v) n) O m) | _ => O end.

Definition layer_name (i : nat) (layer : VariableLayer) : string :=
  let name := TrimSpace (vl_Name layer) in
  if eqs name "" then "layer-" +:+ itoa (Z.of_nat i + 1) else name.

Definition warning (path prev : string) : string :=
  "ambiguous override for " +:+ path +:+ " across multiple layers (latest: " +:+ prev
  +:+ "); prefer narrowing scope or renaming variable".

Fixpoint resolve_layers (ro : nat → string → map_order json) (i : nat) (layers : list VariableLayer) (st : object * merge_log)
    : object * merge_log :=
  match layers with
  | [] => st
  | layer :: layers =>
      resolve_layers ro (S i) layers
        (mergeVariableLayer (depth (JObject (vl_Data layer))) (ro i) (layer_name i layer) "" [] (vl_Data layer) st)
  end.

Definition warnings (ro : map_order Z) (l : merge_log) : list string :=
  omap (λ '(path, count), if 2 <=? count then Some (warning path (last_source path l)) else None)
    (range ro (ml_overrideCount l)).

(** The result comes with an error when conflicts are not allowed. *)
Definition ResolveVariables (ro : nat → string → map_order json) (rw : map_order Z) (req : VariableResolveRequest) (now : Time)
    : VariableResolveResult * bool :=
  let '(merged, l) := resolve_layers ro 0 (vr_Layers req) (∅, mkLog [] [] ∅ ∅ ∅ ∅) in
  let precedence := imap layer_name (vr_Layers req) in
  (mkResolved merged precedence (ml_conflicts l) (warnings rw l) (ml_graph l) now,
   vr_HardFail req && negb (bool_decide (ml_conflicts l = []))).
End variables.

(** ** The merge *)

Section merge.
Context `{Number}.

Lemma depth_lookup (m : object) k v : m !! k = Some v → (depth v < depth (JObject m))%nat.
Proof.
  assert (∀ k v, m !! k = Some v → (depth v ≤ map_fold (λ _ v n, Nat.max (depth v) n) O m)%nat) as Hm.
  2: { intros Hk%Hm. cbn [depth]. lia. }
  apply (map_fold_weak_ind (λ n (m : object), ∀ k v, m !! k = Some v → (depth v ≤ n)%nat)); clear.
  - intros k v. by rewrite lookup_empty.
  - intros k v m n _ IH j w. destruct (decide (j = k)) as [->|Hne].
    + rewrite lookup_insert_eq. intros [= ->]. lia.
    + rewrite lookup_insert_ne by done. intros Hj%IH. lia.
Qed.

Definition merge_step (fuel : nat) (ro : string → map_order json) (layer prefix : string) (at_ : list string)
    : object * merge_log → string * json → object * merge_log := λ '(dest, l) '(key, rawValue),
  let path := sub_path prefix key in
  match dest !! key with
  | None => (<[key := rawValue]> dest, log_set layer path (at_ ++ [key]) rawValue l)
  | Some existing =>
      match rawValue, existing with
      | JObject incomingMap, JObject existingMap =>
          let '(existingMap, l) := mergeVariableLayer fuel ro layer path (at_ ++ [key]) incomingMap (existingMap, l) in
          (<[key := JObject existingMap]> dest, l)
      | _, _ => (<[key := rawValue]> dest, log_override layer path (at_ ++ [key]) rawValue l)
      end
  end.

Lemma mergeVariableLayer_eq fuel ro layer prefix at_ source st :
  mergeVariableLayer (S fuel) ro layer prefix at_ source st = foldl (merge_step fuel ro layer prefix at_) st (range (ro prefix) source).
Proof. reflexivity. Qed.

Lemma foldl_fst {A B E} (f : A * B → E → A * B) (g : A → E → A) l a b :
  (∀ a b e, e ∈ l → (f (a, b) e).1 = g a e) → (foldl f (a, b) l).1 = foldl g a l.
Proof.
  revert a b. induction l as [|e l IH]; intros a b Hf; [done|]. simpl. destruct (f (a, b) e) as [a' b'] eqn:Hfe.
  assert (a' = g a e) as -> by (rewrite <-(Hf a b e) by (by left); by rewrite Hfe). apply IH. intros. apply Hf. by right.
Qed.

Lemma mergeVariableLayer_merge fuel ro layer prefix at_ source dest l :
  (depth (JObject source) ≤ fuel)%nat → (mergeVariableLayer fuel ro layer prefix at_ source (dest, l)).1 = mergeRoleEnvMap dest source.
Proof.
  revert layer prefix at_ source dest l. induction fuel as [|fuel IH]; intros layer prefix at_ source dest l Hfuel; [cbn in Hfuel; lia|].
  rewrite mergeVariableLayer_eq. rewrite (foldl_fst _ merge_entry); [apply merge_any_order|].
  clear dest l. intros dest l [k v] Hk%elem_of_range%depth_lookup. unfold merge_step, merge_entry. cbn [fst snd].
  destruct (dest !! k) as [w|] eqn:Hw; [|by destruct v].
  destruct v as [| | | | |s]; try (by destruct w). destruct w as [| | | | |d]; try done.
  specialize (IH layer (sub_path prefix k) (at_ ++ [k]) s d l ltac:(lia)). destruct (mergeVariableLayer fuel _ _ _ _ _ _) as [d' l']. simpl in *.
  by rewrite IH.
Qed.

Lemma resolve_layers_merge ro i layers dest l :
  (resolve_layers ro i layers (dest, l)).1 = foldl mergeRoleEnvMap dest (vl_Data <$> layers).
Proof.
  revert i dest l. induction layers as [|layer layers IH]; intros i dest l; [done|]. cbn [resolve_layers].
  pose proof (mergeVariableLayer_merge _ (ro i) (layer_name i layer) "" [] (vl_Data layer) dest l (le_n _)) as Hm.
  destruct (mergeVariableLayer _ _ _ _ _ _ _) as [dest' l']. simpl in Hm. rewrite IH, Hm. done.
Qed.
End merge.

(** ** The record of layers without nested maps *)

Section flat.
Context `{Number}.

Definition flat (layer : VariableLayer) : Prop := map_Forall (λ _ v, is_object v = false) (vl_Data layer).

(** The layers that set a key, with the values. *)
Fixpoint writes (key : string) (i : nat) (layers : list VariableLayer) : list (string * json) :=
  match layers with
  | [] => []
  | layer :: layers =>
      match vl_Data layer !! key with Some v => [(layer_name i layer, v)] | None => [] end ++ writes key (S i) layers
  end.

Definition override (key : string) (x y : string * json) : list VariableConflict :=
  if bool_decide (x.2 = y.2) then [] else [conflict key x.1 y.1 x.2 y.2].

(** The writes of another value than the one before. *)
Fixpoint overrides (key : string) (ws : list (string * json)) : list VariableConflict :=
  match ws with x :: ((y :: _) as ws) => override key x y ++ overrides key ws | _ => [] end.

Fixpoint chain (key from : string) (action : edge_action) (ws : list (string * json)) : list VariableSourceEdge :=
  match ws with [] => [] | (layer, _) :: ws => mkEdge key from layer action :: chain key layer OverrideValue ws end.

Lemma overrides_snoc key ws y : overrides key (ws ++ [y]) = overrides key ws ++ match last ws with Some x => override key x y | None => [] end.
Proof.
  induction ws as [|x [|x' ws] IH]; [done|by simpl; rewrite app_nil_r|]. cbn [app overrides] in *. rewrite IH. by rewrite <-app_assoc.
Qed.

Lemma chain_snoc key from action ws layer v :
  chain key from action (ws ++ [(layer, v)]) =
    chain key from action ws ++ [match last ws with Some x => mkEdge key x.1 layer OverrideValue | None => mkEdge key from layer action end].
Proof.
  revert from action. induction ws as [|[a w] ws IH]; intros from action; [done|]. cbn [app chain]. rewrite IH. rewrite last_cons. by destruct (last ws).
Qed.

(** What is known of a key, after these writes. *)
Record key_ok (key : string) (ws : list (string * json)) (st : object * merge_log) : Prop := {
  ko_value : st.1 !! key = snd <$> last ws;
  ko_source : ml_lastSource st.2 !! key = fst <$> last ws;
  ko_last : ml_lastValue st.2 !! key = snd <$> last ws;
  ko_conflicts : filter (λ c, vc_Path c = key) (ml_conflicts st.2) = overrides key ws;
  ko_graph : filter (λ e, ve_Path e = key) (ml_graph st.2) = chain key "" SetValue ws;
  ko_shared : ml_shared st.2 = ∅;
  ko_count : override_count key st.2 = Z.of_nat (length (overrides key ws));
}.

Lemma assigned_flat at_ v l : ml_shared l = ∅ → assigned at_ v l = l.
Proof.
  intros Hs. destruct l as [c g src lastv shared n]. cbn in Hs. subst shared. unfold assigned. cbn. f_equal. apply map_eq. intros i.
  rewrite map_lookup_imap, lookup_empty. by destruct (lastv !! i).
Qed.

Lemma log_set_flat layer path at_ v l :
  ml_shared l = ∅ → log_set layer path at_ v l = add_edge path "" layer SetValue (set_last path layer v l).
Proof. intros Hs. unfold log_set. rewrite assigned_flat by done. destruct l. cbn in *. by rewrite Hs, delete_empty. Qed.

Lemma log_override_flat layer path at_ v l :
  ml_shared l = ∅ → is_object v = false →
  log_override layer path at_ v l =
    add_edge path (last_source path l) layer OverrideValue (set_last path layer v
      (if bool_decide (last_value path l = v) then l
       else l <| ml_conflicts := ml_conflicts l ++ [conflict path (last_source path l) layer (last_value path l) v] |>
              <| ml_overrideCount := <[path := override_count path l + 1]> (ml_overrideCount l) |>)).
Proof.
  intros Hs Hv. unfold log_override. rewrite Hv. rewrite assigned_flat by by case_bool_decide.
  destruct l. cbn in *. subst. case_bool_decide; by rewrite ?delete_empty.
Qed.

Lemma key_ok_step fuel ro layer key v ws st :
  is_object v = false → key_ok key ws st → key_ok key (ws ++ [(layer, v)]) (merge_step fuel ro layer "" [] st (key, v)).
Proof.
  intros Hv [Hval Hsrc Hlast Hc Hg Hs Hn]. destruct st as [dest l]. cbn [fst snd] in *. unfold merge_step. change (sub_path "" key) with key.
  rewrite Hval. destruct (last ws) as [[a w]|] eqn:Hl; cbn [fmap option_fmap option_map fst snd] in *.
  - replace (match v with JObject _ => _ | _ => _ end) with (<[key := v]> dest, log_override layer key [key] v l) by by destruct v.
    rewrite log_override_flat by done. unfold last_source, last_value. rewrite Hsrc, Hlast. cbn [default].
    constructor; rewrite ?last_snoc, ?overrides_snoc, ?chain_snoc, ?Hl; unfold override; cbn [fst snd]; repeat case_bool_decide; try done; cbn;
      rewrite ?lookup_insert_eq, ?filter_app, ?app_nil_r, ?Hc, ?Hg; try done.
    1-3: by rewrite filter_cons_True by done.
    unfold override_count at 1. cbn. rewrite lookup_insert_eq, length_app. cbn. rewrite Hn. lia.
  - rewrite log_set_flat by done. constructor; rewrite ?last_snoc, ?overrides_snoc, ?chain_snoc, ?Hl; cbn;
      rewrite ?lookup_insert_eq, ?filter_app, ?app_nil_r, ?Hg; try done.
    by rewrite filter_cons_True by done.
Qed.

Lemma key_ok_other fuel ro layer j key v ws st :
  j ≠ key → is_object v = false → key_ok key ws st → key_ok key ws (merge_step fuel ro layer "" [] st (j, v)).
Proof.
  intros Hne Hv [Hval Hsrc Hlast Hc Hg Hs Hn]. destruct st as [dest l]. cbn [fst snd] in *. unfold merge_step. change (sub_path "" j) with j.
  assert (∀ c, ve_Path c = j → filter (λ e, ve_Path e = key) [c] = []) as He by (intros c <-; by rewrite filter_cons_False).
  destruct (dest !! j) as [w|].
  - replace (match v with JObject _ => _ | _ => _ end) with (<[j := v]> dest, log_override layer j [j] v l) by by destruct v.
    rewrite log_override_flat by done. constructor; cbn [fst snd]; repeat case_bool_decide; cbn; rewrite ?lookup_insert_ne, ?filter_app, ?He, ?app_nil_r by done; try done.
    + rewrite filter_cons_False by done. by rewrite app_nil_r.
    + unfold override_count at 1. cbn. by rewrite lookup_insert_ne.
  - rewrite log_set_flat by done. constructor; cbn; rewrite ?lookup_insert_ne, ?filter_app, ?He, ?app_nil_r by done; done.
Qed.

Lemma key_ok_entries fuel ro layer key entries ws st :
  NoDup entries.*1 → Forall (λ e, is_object e.2 = false) entries → key_ok key ws st →
  key_ok key (ws ++ match list_to_map (M := object) entries !! key with Some v => [(layer, v)] | None => [] end)
    (foldl (merge_step fuel ro layer "" []) st entries).
Proof.
  intros Hnd Hflat. revert ws st Hnd. induction Hflat as [|[j v] entries Hv _ IH]; intros ws st Hnd Hok.
  { cbn. rewrite lookup_empty. by rewrite app_nil_r. }
  apply NoDup_cons in Hnd as [Hj Hnd]. rewrite list_to_map_cons. cbn [foldl]. destruct (decide (j = key)) as [->|Hne].
  - specialize (IH _ _ Hnd (key_ok_step fuel ro layer key v ws st Hv Hok)).
    rewrite not_elem_of_list_to_map_1 in IH by done. by rewrite lookup_insert_eq, <-(app_nil_r [_]), app_assoc.
  - rewrite lookup_insert_ne by done. apply IH; [done|]. by apply key_ok_other.
Qed.

Lemma key_ok_layers ro key i layers ws st :
  Forall flat layers → key_ok key ws st → key_ok key (ws ++ writes key i layers) (resolve_layers ro i layers st).
Proof.
  intros Hflat. revert i ws st. induction Hflat as [|layer layers Hl _ IH]; intros i ws st Hok; [by rewrite app_nil_r|].
  cbn [writes resolve_layers depth]. rewrite mergeVariableLayer_eq, app_assoc. apply IH.
  set (entries := range (ro i "") (vl_Data layer)).
  assert (list_to_map (M := object) entries = vl_Data layer) as Hentries.
  { rewrite <-(list_to_map_to_list (vl_Data layer)). apply list_to_map_proper; [apply NoDup_range|apply range_perm]. }
  rewrite <-Hentries at 1. apply key_ok_entries; [apply NoDup_range| |done].
  apply Forall_forall. intros [k v] Hk%elem_of_range. by apply (Hl k v).
Qed.

Lemma elem_of_warnings rw l s :
  s ∈ warnings rw l ↔ ∃ path, s = warning path (last_source path l) ∧ 2 ≤ override_count path l.
Proof.
  unfold warnings, override_count. rewrite list_elem_of_omap. split.
  - intros ([path c] & Hin%elem_of_range & Hs). destruct (2 <=? c) eqn:Hc; [|done]. injection Hs as <-. exists path. rewrite Hin.
    split; [done|]. cbn. lia.
  - intros (path & -> & Hc). destruct (ml_overrideCount l !! path) as [c|] eqn:Hl; [|cbn in Hc; lia]. exists (path, c).
    rewrite elem_of_range. split; [done|]. cbn in Hc. by rewrite (proj2 (Z.leb_le 2 c)).
Qed.

(** C40: the values of the layers are merged, later over earlier, in whatever
    order the maps are visited.  When no value of a layer is itself a map, the
    record is exact for every key: a conflict for every write of another value
    than the one before, with both layers and values; an edge from layer to layer
    for every write; a warning, naming the latest layer, for every key that was
    overridden twice; and hard failure is reported exactly for a conflict. *)
Theorem variable_resolution ro rw req now :
  let layers := vr_Layers req in
  let '(res, failed) := ResolveVariables ro rw req now in
  vs_Merged res = merge_all (vl_Data <$> layers) ∧
  (Forall flat layers →
    (∀ key, let ws := writes key 0 layers in
      vs_Merged res !! key = snd <$> last ws ∧
      filter (λ c, vc_Path c = key) (vs_Conflicts res) = overrides key ws ∧
      filter (λ e, ve_Path e = key) (vs_SourceGraph res) = chain key "" SetValue ws) ∧
    (∀ s, s ∈ vs_Warnings res ↔ ∃ key x, last (writes key 0 layers) = Some x ∧ s = warning key x.1 ∧
      (2 ≤ length (overrides key (writes key 0 layers)))%nat) ∧
    (failed = true ↔ vr_HardFail req = true ∧ ∃ key, overrides key (writes key 0 layers) ≠ [])).
Proof.
  intros layers. unfold ResolveVariables. fold layers. set (empty := mkLog [] [] ∅ ∅ ∅ ∅).
  pose proof (resolve_layers_merge ro 0 layers ∅ empty) as Hm.
  assert (Forall flat layers → ∀ key, key_ok key (writes key 0 layers) (resolve_layers ro 0 layers (∅, empty))) as Hok.
  { intros Hflat key. apply (key_ok_layers ro key 0 layers [] _ Hflat). by constructor. }
  destruct (resolve_layers _ _ _ _) as [merged l]. cbn [fst] in Hm. split; [done|]. intros Hflat. specialize (Hok Hflat).
  split_and!.
  - intros key. destruct (Hok key). done.
  - intros s. cbn [vs_Warnings]. rewrite elem_of_warnings. split.
    + intros (key & -> & Hc). destruct (Hok key) as [_ Hsrc _ _ _ _ Hn]. cbn [snd] in *. rewrite Hn in Hc.
      destruct (last (writes key 0 layers)) as [x|] eqn:Hl; [|apply last_None in Hl; rewrite Hl in Hc; cbn in Hc; lia].
      exists key, x. unfold last_source. rewrite Hsrc. split; [done|]. split; [done|]. lia.
    + intros (key & x & Hl & -> & Hc). destruct (Hok key) as [_ Hsrc _ _ _ _ Hn]. cbn [snd] in *. exists key.
      unfold last_source. rewrite Hsrc, Hl, Hn. split; [done|]. lia.
  - rewrite andb_true_iff, negb_true_iff, bool_decide_eq_false. apply and_iff_compat_l. cbn [vs_Conflicts]. split.
    + intros Hne. destruct (ml_conflicts l) as [|c cs] eqn:Hc; [done|]. exists (vc_Path c). destruct (Hok (vc_Path c)) as [_ _ _ <- _ _ _].
      cbn [snd]. rewrite Hc. by rewrite filter_cons_True.
    + intros (key & Hne) Hnil. destruct (Hok key) as [_ _ _ Hc _ _ _]. cbn [snd] in Hc. rewrite Hnil in Hc. by apply Hne.
Qed.
End flat.

(** ** The claim at work, and what the record of nested maps is not *)

Definition toy_numbers : Number := {| number := Z |}.
#[local] Existing Instance toy_numbers.

Definition toy_layers : VariableResolveRequest :=
  mkResolve [mkLayer "global" {[ "region" := JString "us"; "tier" := JString "a" ]};
             mkLayer " " {[ "region" := JString "eu" ]}; mkLayer "host" {[ "region" := JString "ap"; "tier" := JString "a" ]}] true.

Lemma variable_resolution_witness :
  let '(res, failed) := ResolveVariables (λ _ _, some_order) some_order toy_layers 1 in
  vs_Warnings res = [warning "region" "host"] ∧
  filter (λ c, vc_Path c = "region") (vs_Conflicts res) =
    [conflict "region" "global" "layer-2" (JString "us") (JString "eu"); conflict "region" "layer-2" "host" (JString "eu") (JString "ap")] ∧
  failed = true.
Proof.
  assert (Forall flat (vr_Layers toy_layers)) as Hflat.
  { unfold flat. repeat constructor; apply map_Forall_to_list; vm_compute; repeat constructor. }
  pose proof (variable_resolution (λ _ _, some_order) some_order toy_layers 1) as Hspec.
  destruct (ResolveVariables _ _ _ _) as [res failed] eqn:Hres. destruct Hspec as (_ & Hspec). destruct (Hspec Hflat) as (Hkey & _ & _).
  pose proof (proj1 (proj2 (Hkey "region"))) as Hregion. clear Hkey Hspec. vm_compute in Hres. injection Hres as <- <-.
  split; [vm_compute; reflexivity|]. split; [|reflexivity]. rewrite Hregion. vm_compute. reflexivity.
Defined.

(** Where two maps are merged the source of what is below was never recorded: a
    layer that repeats the value of the one before is reported as a conflict
    with a nameless layer and the value null, and refused. *)
Lemma nested_repeat_conflicts :
  let layer name := mkLayer name {[ "db" := JObject {[ "port" := @JNumber toy_numbers 5432 ]} ]} in
  let '(res, failed) := ResolveVariables (λ _ _, some_order) some_order (mkResolve [layer "global"; layer "host"] true) 1 in
  vs_Conflicts res = [conflict "db.port" "" "host" JNull (JNumber (5432 : @number toy_numbers))] ∧ failed = true.
Proof. vm_compute. split; reflexivity. Qed.

(** A map that came by an override is shared: a later merge into it changes the
    value that the next conflict reports as the previous one. *)
Lemma shared_value_follows :
  let port n := JObject {[ "port" := @JNumber toy_numbers n ]} in
  let layer name v := mkLayer name {[ "db" := v ]} in
  let resolve layers := (ResolveVariables (λ _ _, some_order) some_order (mkResolve layers false) 1).1 in
  let previous res := (λ c, (vc_PreviousLayer c, vc_PreviousValue c)) <$> last (vs_Conflicts res) in
  previous (resolve [layer "a" JNull; layer "b" (port 1); layer "c" (port 2); layer "d" JNull]) = Some ("b", port 2) ∧
  previous (resolve [layer "b" (port 1); layer "c" (port 2); layer "d" JNull]) = Some ("b", port 1).
Proof. vm_compute. split; reflexivity. Qed.
